(* ===== verification/_CoqProject ===== *)
-Q . S2P
Prelude.v
ModArith.v
Primality.v
Text.v
Group.v
Gmp.v
Miracl.v
Tools.v
Coprime.v
Scheme.v
Verification.v
BrpcTools.v
Wire.v
UAVMsg.v
TAMsg.v
AggMsg.v
Reference.v
Rpc.v
Link.v
TA.v
UAVNode.v
Aggregator.v
Verifier.v
System.v
Interleaving.v
Examples.v
Correctness.v
Codecs.v
Nodes.v
Numerics.v
BoundedQueue.v
BitArray.v
Splitter.v
FlatMap.v
WorkStealing.v
SmallMap.v
VersionedRef.v
LinkedList.v
MruCache.v
MpscQueue.v
Pool.v
DoublyBuffered.v
Recorder.v
ResourcePool.v
Series.v
