(* ===== verification/Prelude.v ===== *)
(** * fussion: a threshold proxy re-encryption signature among UAVs

    ** The program

    A trusted authority (TA) sets up a BLS12-381 threshold scheme for a group
    of UAVs.  The UAVs register with it and receive encrypted shares, the
    cluster head registers and receives a key.  On request of the head each of
    [t] UAVs signs a message; the head re-encrypts the partial signatures for
    one verifier, who interpolates them at zero and checks one BLS signature.
    The scheme is src/src/fussion.cpp; src/src/Tools holds the helpers around
    GMP and MIRACL Core and the codecs that put numbers and points into
    strings; brpcTA.cpp, brpcUAV.cpp, brpcAgg.cpp and brpcVerifier.cpp are the
    four processes, which talk through the protobuf messages under
    src/proto/output.  The directory src/libsh holds the headers of the
    libraries they are built with (butil, bthread, brpc, MIRACL); the parts of
    them that are complete code, and not declarations of a binary, are
    modelled too.

    ** The files

    Foundations
    - Prelude: outcomes of C++ code ([Ok], a [Fault], [Diverge]), code with a
      store, loops with their invariant rules, vectors, tasks in a list,
      automation.
    - ModArith, Primality: congruences, Fermat, Lagrange interpolation; the
      curve order is prime and its predecessor has the factors of [getFactors].
    - Text: C++ strings, numerals, [strtol], [getline], hexadecimal output.
    - Group: commutative groups up to a test of equality.

    Interfaces of linked code, as classes of operations and of laws
    - Gmp, Miracl: the functions the sources call and what their manual or
      header documents.
    - Wire: the protobuf runtime; Rpc: stub calls and server starts.
    - Reference: small executable instances that satisfy all the laws.

    The scheme and the programs
    - Tools (Tools.cpp), Coprime and Scheme (fussion.cpp), BrpcTools
      (brpcTools.cpp): one definition per function.
    - UAVMsg, TAMsg, AggMsg: the generated message classes, one record per
      class, one definition per member function.
    - TA, UAVNode, Aggregator, Verifier: the globals of a process as a
      record, each handler and client function as code in that store.
    - Link: a stub connected with the handler of the other process; System:
      a deployment of all processes; Interleaving: the same processes as a
      step relation, in any order and with failing calls.

    Their theorems
    - Verification, Correctness: an honest run verifies; [Verify] accepts
      exactly the signatures of a stated form, so a changed one is rejected;
      what key generation, signing, re-encryption and interpolation compute;
      which loops end and which do not.
    - Codecs: strings and messages read back what was written.
    - Nodes: each program against the services it uses, the deployment ends
      with the verifier accepting, and every interleaving refines the
      protocol.
    - Examples: concrete inputs for the witnesses.

    Library headers
    - Numerics (butil/numerics): checked conversions and arithmetic refine
      the integers, with the inputs on which they do not.
    - BoundedQueue (bounded_queue.h): a ring buffer refines a list.
    - BitArray (bit_array.h), FlatMap (flat_map.h, flat_map_inl.h): bits, and
      a hash map that refines a finite map.
    - Splitter (string_splitter.h): cursors that enumerate the fields.
    - SmallMap (small_map.h, manual_constructor.h): an array that turns into a
      map when it is full refines a finite map.
    - LinkedList (linked_list.h): links in a shared memory; rings of nodes and
      the operations that keep them.
    - MruCache (mru_cache.h): a list in the order of use and its index refine
      a recency list that owns its payloads.
    - Pool (single_threaded_pool.h): nodes of blocks and a free list inside
      them; no space is handed out twice.
    - MpscQueue (mpsc_queue.h): the accesses of many producers and one
      consumer, interleaved; items come out in the order of the exchanges.
    - DoublyBuffered (doubly_buffered_data.h): the locks and accesses of
      readers, modifiers and quitting threads, interleaved; a read sees one
      value, the whole is one value changed by the published functions.
    - Recorder (bvar/recorder.h, bvar/detail/combiner.h): counts and sums
      packed into words per thread, recorded, combined and reset by
      interleaved threads; no sample is lost or counted twice.
    - ResourcePool (resource_pool_inl.h): identifiers and addresses of items
      that interleaved threads take, return and look up, with their blocks,
      groups and free chunks; no item is handed out twice.
    - Series (bvar/detail/series.h): rings of seconds, minutes, hours and days
      in one array; the plot shows the history they stand for.
    - WorkStealing (bthread/work_stealing_queue.h): the atomic accesses of an
      owner and of thieves, interleaved, refine a double-ended queue.
    - VersionedRef (brpc/versioned_ref_with_id.h): the atomic accesses of
      threads that share an object; it is recycled once, after its last
      reference is gone.

    ** Bounds and fuel

    Every loop of the sources that is not counted is a function with fuel that
    yields [Diverge] when the fuel ends; a theorem that a loop returns states
    the result, and a theorem that it does not holds for every fuel.
    - The search of [hashToCoprime] has 600 rounds, enough for every start
      that the loop ever leaves.
    - [BIG_inv] has twice the bit length of its modulus.
    - Resizing of a FlatMap inserts into a map that is large enough, 64
      nested levels are more than can occur with 64-bit sizes.
    - A destructor or walk over a list has one round per node and one to see
      the end; the loop of a steal is bounded by the items taken meanwhile.
    - Scans of a text have one round per byte, walks along a chain or an
      array one round per node or slot.
    Machine integers are [Z] with their wrap-around or overflow written out:
    casts of Numerics, 32-bit indices of the bounded queue, 64-bit sizes.

    ** Not modelled

    - The binaries of brpc, bthread, bvar, GMP and MIRACL Core: their
      functions are parameters, with documented behaviour as laws.
    - Descriptors, reflection, arenas and service stubs of the generated
      classes; the echo service, which no program uses.
    - Logging, debugging output and timing of the programs.
    - Floating-point conversions and arithmetic of butil (the one division of
      Series is modelled with IEEE doubles).
    - Weak memory orders: where a concurrent header is modelled its atomic
      accesses interleave in one total order.
    - The socket examples under src/else and the manual tests. *)

From Stdlib Require Import ZArith Lia.
From stdpp Require Import base list strings.

Open Scope Z_scope.

(** ** Outcomes of C++ code

    A C++ function either returns, runs into one of the failures below, or
    does not return.  [Diverge] is what a fuelled [while] loop yields when
    its fuel runs out, so that a divergence theorem reads "for every fuel". *)

Inductive fault : Type :=
| OutOfRange        (** [v[i]] past the end of a vector: undefined behaviour *)
| DivByZero         (** a zero modulus: GMP raises a division by zero *)
| InvalidArgument   (** [std::invalid_argument], thrown by [mpz_class(str, base)] *)
| StringRange       (** [std::out_of_range], thrown by [std::string::substr] *)
| Uninitialised     (** an indeterminate value is read *)
| SignedOverflow    (** a signed result out of range: undefined behaviour *)
| Terminated.       (** [LOG(FATAL)] ends the program *)

#[export] Instance fault_eq_dec : EqDecision fault.
Proof. solve_decision. Defined.

Inductive outcome (A : Type) : Type :=
| Ok (a : A)
| Fault (f : fault)
| Diverge.

Arguments Ok {A} a.
Arguments Fault {A} f.
Arguments Diverge {A}.

#[export] Instance outcome_ret : MRet outcome := @Ok.
#[export] Instance outcome_bind : MBind outcome := fun A B f m =>
  match m with
  | Ok a => f a
  | Fault e => Fault e
  | Diverge => Diverge
  end.

(** Code that reads and writes a store [W] on top of the outcomes. *)
Definition stm (W A : Type) : Type := W -> outcome (A * W).

#[export] Instance stm_ret {W} : MRet (stm W) := fun A a w => Ok (a, w).
#[export] Instance stm_bind {W} : MBind (stm W) := fun A B f m w =>
  match m w with
  | Ok (a, w') => f a w'
  | Fault e => Fault e
  | Diverge => Diverge
  end.

(** Run a computation that leaves the store alone. *)
Definition lift {W A} (m : outcome A) : stm W A := fun w =>
  match m with
  | Ok a => Ok (a, w)
  | Fault e => Fault e
  | Diverge => Diverge
  end.

Definition getw {W} : stm W W := fun w => Ok (w, w).
Definition putw {W} (w : W) : stm W unit := fun _ => Ok (tt, w).

(** ** Total correctness

    [m ⇓ Q]: [m] returns a value that satisfies [Q]; a fault or a divergence
    satisfies nothing.  [m @ w ⇓ Q] is the same for code run in a store. *)

Definition returns {A} (m : outcome A) (Q : A -> Prop) : Prop :=
  match m with
  | Ok a => Q a
  | Fault _ | Diverge => False
  end.

Definition runs {W A} (m : stm W A) (w : W) (Q : A -> W -> Prop) : Prop :=
  match m w with
  | Ok (a, w') => Q a w'
  | Fault _ | Diverge => False
  end.

Declare Scope prog_scope.
Notation "m ⇓ Q" := (returns m Q) (at level 72, no associativity) : prog_scope.
Notation "m '@' w ⇓ Q" := (runs m w Q)
  (at level 72, w at level 9, no associativity) : prog_scope.
Open Scope prog_scope.

Section Returns.
Context {A B : Type}.

Lemma returns_ok (m : outcome A) Q : (m ⇓ Q) <-> exists a, m = Ok a /\ Q a.
Proof. destruct m; simpl; naive_solver. Qed.

Lemma returns_ret (a : A) (Q : A -> Prop) : Q a -> mret a ⇓ Q.
Proof. done. Qed.

Lemma returns_bind (m : outcome A) (f : A -> outcome B) Q :
  m ⇓ (fun a => f a ⇓ Q) -> (m ≫= f) ⇓ Q.
Proof. by destruct m. Qed.

Lemma returns_mono (m : outcome A) (P Q : A -> Prop) :
  m ⇓ P -> (forall a, P a -> Q a) -> m ⇓ Q.
Proof. destruct m; simpl; auto. Qed.

Lemma returns_eq (m : outcome A) a (Q : A -> Prop) : m = Ok a -> Q a -> m ⇓ Q.
Proof. by intros ->. Qed.
End Returns.

Section Runs.
Context {W A B : Type}.

Lemma runs_ret (a : A) (w : W) (Q : A -> W -> Prop) : Q a w -> mret a @ w ⇓ Q.
Proof. done. Qed.

Lemma runs_bind (m : stm W A) (f : A -> stm W B) w Q :
  m @ w ⇓ (fun a w' => (f a) @ w' ⇓ Q) -> (m ≫= f) @ w ⇓ Q.
Proof.
  unfold runs, mbind, stm_bind. by destruct (m w) as [[a w']| |].
Qed.

Lemma runs_lift (m : outcome A) w (Q : A -> W -> Prop) :
  m ⇓ (fun a => Q a w) -> lift m @ w ⇓ Q.
Proof. by destruct m. Qed.

Lemma runs_mono (m : stm W A) w (P Q : A -> W -> Prop) :
  m @ w ⇓ P -> (forall a w', P a w' -> Q a w') -> m @ w ⇓ Q.
Proof. unfold runs. destruct (m w) as [[a w']| |]; auto. Qed.

Lemma runs_get (w : W) (Q : W -> W -> Prop) : Q w w -> getw @ w ⇓ Q.
Proof. done. Qed.

Lemma runs_put (w w' : W) (Q : unit -> W -> Prop) : Q tt w' -> putw w' @ w ⇓ Q.
Proof. done. Qed.

Lemma runs_eq (m : stm W A) w a w' (Q : A -> W -> Prop) :
  m w = Ok (a, w') -> Q a w' -> m @ w ⇓ Q.
Proof. unfold runs. by intros ->. Qed.

Lemma runs_ok (m : stm W A) w Q :
  (m @ w ⇓ Q) <-> exists a w', m w = Ok (a, w') /\ Q a w'.
Proof.
  unfold runs. destruct (m w) as [[a w']| |]; naive_solver.
Qed.
End Runs.

(** ** Loops

    [for_ n body s] is [for (int i = 0; i < n; ++i) s = body(i, s)], in any
    monad; [for_from k i] runs [k] iterations starting at [i]. *)

Section Loop.
Context {M : Type -> Type} `{!MRet M, !MBind M} {S : Type}.

Fixpoint for_from (k : nat) (i : Z) (body : Z -> S -> M S) (s : S) : M S :=
  match k with
  | O => mret s
  | Datatypes.S k' => body i s ≫= for_from k' (i + 1) body
  end.

Definition for_ (n : Z) (body : Z -> S -> M S) (s : S) : M S :=
  for_from (Z.to_nat n) 0 body s.
End Loop.

(** The invariant rule, for pure outcomes and for code with a store.  The
    invariant is indexed by the number of finished iterations. *)
Lemma for_from_inv {S} (I : Z -> S -> Prop) body k i s :
  I i s ->
  (forall j s', i <= j < i + Z.of_nat k -> I j s' -> body j s' ⇓ I (j + 1)) ->
  for_from k i body s ⇓ I (i + Z.of_nat k).
Proof.
  revert i s. induction k as [|k IH]; intros i s HI Hbody.
  - by replace (i + Z.of_nat 0) with i by lia.
  - cbn [for_from]. apply returns_bind.
    eapply returns_mono; [apply Hbody; [lia|done]|].
    intros s' Hs'. replace (i + Z.of_nat (Datatypes.S k)) with (i + 1 + Z.of_nat k) by lia.
    apply IH; [done|]. intros. apply Hbody; [lia|done].
Qed.

Lemma for_inv {S} (I : Z -> S -> Prop) n body s (Q : S -> Prop) :
  0 <= n -> I 0 s ->
  (forall j s', 0 <= j < n -> I j s' -> body j s' ⇓ I (j + 1)) ->
  (forall s', I n s' -> Q s') ->
  for_ n body s ⇓ Q.
Proof.
  intros Hn HI Hbody HQ. unfold for_.
  eapply returns_mono; [apply (for_from_inv I); [done|]|].
  - intros. apply Hbody; [lia|done].
  - intros s'. rewrite Z2Nat.id by done. apply HQ.
Qed.

Lemma for_from_runs_inv {W S} (I : Z -> S -> W -> Prop) (body : Z -> S -> stm W S) k i s w :
  I i s w ->
  (forall j s' w', i <= j < i + Z.of_nat k -> I j s' w' -> body j s' @ w' ⇓ I (j + 1)) ->
  for_from k i body s @ w ⇓ I (i + Z.of_nat k).
Proof.
  revert i s w. induction k as [|k IH]; intros i s w HI Hbody.
  - by replace (i + Z.of_nat 0) with i by lia.
  - cbn [for_from]. apply runs_bind.
    eapply runs_mono; [apply Hbody; [lia|done]|].
    intros s' w' Hs'.
    replace (i + Z.of_nat (Datatypes.S k)) with (i + 1 + Z.of_nat k) by lia.
    apply IH; [done|]. intros. apply Hbody; [lia|done].
Qed.

Lemma for_runs_inv {W S} (I : Z -> S -> W -> Prop) n (body : Z -> S -> stm W S) s w
    (Q : S -> W -> Prop) :
  0 <= n -> I 0 s w ->
  (forall j s' w', 0 <= j < n -> I j s' w' -> body j s' @ w' ⇓ I (j + 1)) ->
  (forall s' w', I n s' w' -> Q s' w') ->
  for_ n body s @ w ⇓ Q.
Proof.
  intros Hn HI Hbody HQ. unfold for_.
  eapply runs_mono; [apply (for_from_runs_inv I); [done|]|].
  - intros. apply Hbody; [lia|done].
  - intros s' w'. rewrite Z2Nat.id by done. apply HQ.
Qed.

(** A loop that fails in iteration [m], whatever it did before. *)
Lemma for_from_fault {S} (body : Z -> S -> outcome S) e m : forall k i s,
  (m < k)%nat ->
  (forall j s', i <= j < i + Z.of_nat m -> exists s'', body j s' = Ok s'') ->
  (forall s', body (i + Z.of_nat m) s' = Fault e) ->
  for_from k i body s = Fault e.
Proof.
  induction m as [|m IH]; intros k i s Hm Hok Hf; (destruct k as [|k]; [lia|]); cbn [for_from].
  - specialize (Hf s). rewrite Z.add_0_r in Hf. by rewrite Hf.
  - destruct (Hok i s ltac:(lia)) as [s' ->]. unfold mbind, outcome_bind. apply IH; [lia|..].
    + intros j s'' Hj. apply Hok. lia.
    + intros s''. rewrite <- (Hf s''). f_equal. lia.
Qed.

Lemma for_fault {S} (body : Z -> S -> outcome S) e m n s :
  0 <= m < n ->
  (forall j s', 0 <= j < m -> exists s'', body j s' = Ok s'') ->
  (forall s', body m s' = Fault e) -> for_ n body s = Fault e.
Proof.
  intros Hm Hok Hf. apply (for_from_fault body e (Z.to_nat m)); [lia|..].
  - intros j s' Hj. apply Hok. lia.
  - intros s'. rewrite <- (Hf s'). f_equal. lia.
Qed.

(** A loop whose bound is not positive does nothing. *)
Lemma for_nil {M : Type -> Type} `{!MRet M, !MBind M} {S} n (body : Z -> S -> M S) s :
  n <= 0 -> for_ n body s = mret s.
Proof. intros. unfold for_. by replace (Z.to_nat n) with O by lia. Qed.

(** ** Vectors

    [std::vector::operator[]] with an [int] index: a negative index becomes
    a huge [size_t], so both ends are out of range. *)

Definition vec_at {A} (v : list A) (i : Z) : outcome A :=
  if i <? 0 then Fault OutOfRange
  else match v !! Z.to_nat i with
       | Some a => Ok a
       | None => Fault OutOfRange
       end.

Definition vec_size {A} (v : list A) : Z := Z.of_nat (length v).

Lemma vec_at_some {A} (v : list A) i a :
  0 <= i -> v !! Z.to_nat i = Some a -> vec_at v i = Ok a.
Proof. intros Hi Ha. unfold vec_at. rewrite Ha. by destruct (Z.ltb_spec i 0); [lia|]. Qed.

Lemma vec_at_in_range {A} (v : list A) i :
  0 <= i < vec_size v -> exists a, v !! Z.to_nat i = Some a /\ vec_at v i = Ok a.
Proof.
  unfold vec_size. intros Hi.
  destruct (lookup_lt_is_Some_2 v (Z.to_nat i)) as [a Ha]; [lia|].
  exists a. split; [done|]. apply vec_at_some; [lia|done].
Qed.

Lemma vec_at_out_of_range {A} (v : list A) i :
  i < 0 \/ vec_size v <= i -> vec_at v i = Fault OutOfRange.
Proof.
  unfold vec_at, vec_size. intros Hi. destruct (Z.ltb_spec i 0); [done|].
  by rewrite lookup_ge_None_2 by lia.
Qed.

Lemma returns_vec_at {A} (v : list A) i (Q : A -> Prop) :
  0 <= i < vec_size v ->
  (forall a, v !! Z.to_nat i = Some a -> Q a) -> vec_at v i ⇓ Q.
Proof. intros Hi HQ. destruct (vec_at_in_range v i Hi) as (a & Ha & ->). by apply HQ. Qed.

(** Choosing one value for each index below a bound. *)
Lemma finite_choice {A} (R : nat -> A -> Prop) (a0 : A) n :
  (forall i, (i < n)%nat -> exists a, R i a) ->
  exists f : nat -> A, forall i, (i < n)%nat -> R i (f i).
Proof.
  induction n as [|n IH]; intros H; [by exists (fun _ => a0); lia|].
  destruct IH as [f Hf]; [intros; apply H; lia|]. destruct (H n ltac:(lia)) as [a Ha].
  exists (fun i => if decide (i = n) then a else f i). intros i Hi.
  destruct (decide (i = n)) as [->|]; [done|apply Hf; lia].
Qed.

(** The last node of a path that starts at [a]. *)
Fixpoint lst {A} (a : A) (l : list A) : A :=
  match l with [] => a | x :: l => lst x l end.

Lemma lst_app {A} (a : A) l m : lst a (l ++ m) = lst (lst a l) m.
Proof. revert a. induction l as [|x l IH]; intros a; [done|]. apply IH. Qed.

Lemma lst_in {A} (a : A) l : lst a l ∈ a :: l.
Proof. revert a. induction l as [|x l IH]; intros a; cbn; [by left|]. right. apply IH. Qed.

(** ** Tasks in a list

    Interleaved programs keep the position of each task in a list. *)

Lemma lookup_moved {A} (ps : list A) t q t' p' :
  <[t := q]> ps !! t' = Some p' -> (t' = t /\ p' = q) \/ (t' <> t /\ ps !! t' = Some p').
Proof. intros H. apply list_lookup_insert_Some in H. naive_solver. Qed.

(** The number of tasks at positions that satisfy [f]. *)
Definition count_if {A} (f : A -> bool) (l : list A) : Z := Z.of_nat (length (List.filter f l)).

Lemma count_if_insert {A} (f : A -> bool) ps t p q :
  ps !! t = Some p -> count_if f (<[t := q]> ps) = count_if f ps - Z.b2z (f p) + Z.b2z (f q).
Proof.
  unfold count_if. revert t. induction ps as [|p0 ps IH]; intros [|t] H; try done.
  - injection H as ->. change (<[0%nat := q]> (p :: ps)) with (q :: ps). cbn [List.filter].
    destruct (f p), (f q); cbn [length Z.b2z]; lia.
  - specialize (IH t H). change (<[S t := q]> (p0 :: ps)) with (p0 :: <[t := q]> ps). cbn [List.filter].
    destruct (f p0); cbn [length]; lia.
Qed.

Lemma count_if_absent {A} (f : A -> bool) ps t p :
  count_if f ps = 0 -> ps !! t = Some p -> f p = false.
Proof.
  unfold count_if. intros H Ht. apply not_true_is_false. intros Hp.
  assert (In p (List.filter f ps)) as Hin by (by apply filter_In; split; [apply list_elem_of_In, (list_elem_of_lookup_2 _ t)|]).
  destruct (List.filter f ps); [done|cbn [length] in H; lia].
Qed.

Lemma count_if_none {A} (f : A -> bool) ps :
  (forall t p, ps !! t = Some p -> f p = false) -> count_if f ps = 0.
Proof.
  unfold count_if. intros H. destruct (List.filter f ps) as [|p l] eqn:E; [done|exfalso].
  assert (In p (List.filter f ps)) as [Hin Hp]%filter_In by (rewrite E; by left).
  apply list_elem_of_In, list_elem_of_lookup in Hin as [t Ht]. rewrite (H t p Ht) in Hp. done.
Qed.

(** ** The C++ remainder

    [mpz_class]'s [%] truncates toward zero and raises a division by zero
    on a zero modulus. *)

Definition mpz_rem (a m : Z) : outcome Z :=
  if m =? 0 then Fault DivByZero else Ok (Z.rem a m).

Notation "a %% m" := (mpz_rem a m) (at level 40, no associativity) : prog_scope.

Lemma mpz_rem_zero a : a %% 0 = Fault DivByZero.
Proof. done. Qed.

Lemma mpz_rem_nonneg a m : 0 <= a -> 0 < m -> a %% m = Ok (a mod m).
Proof.
  intros Ha Hm. unfold mpz_rem.
  destruct (Z.eqb_spec m 0); [lia|]. by rewrite Z.rem_mod_nonneg by lia.
Qed.

Lemma returns_rem a m (Q : Z -> Prop) : 0 <= a -> 0 < m -> Q (a mod m) -> a %% m ⇓ Q.
Proof. intros. by rewrite mpz_rem_nonneg. Qed.

(** ** Automation *)

Create HintDb prog.
#[export] Hint Resolve returns_ret runs_ret : prog.

(** One step of a monadic program: peel a bind, or enter a lifted outcome. *)
Ltac step :=
  lazymatch goal with
  | |- returns (mbind _ _) _ => apply returns_bind
  | |- returns (mret _) _ => apply returns_ret
  | |- returns (Ok _) _ => apply returns_ret
  | |- runs (mbind _ _) _ _ => apply runs_bind
  | |- runs (mret _) _ _ => apply runs_ret
  | |- runs (lift _) _ _ => apply runs_lift
  | |- runs getw _ _ => apply runs_get
  | |- runs (putw _) _ _ => apply runs_put
  end; cbv beta.

Ltac steps := repeat step.

(** Use the specification [L] of the computation in front: its premises are
    left as goals, followed by the continuation under its postcondition. *)
Tactic Notation "call" uconstr(L) :=
  lazymatch goal with
  | |- returns _ _ => eapply returns_mono; [eapply L|cbv beta]
  | |- runs _ _ _ => eapply runs_mono; [eapply L|cbv beta]
  end.
