(* ===== verification/ModArith.v ===== *)
(** * Arithmetic modulo a prime

    The number theory the scheme rests on: congruences as a setoid, Fermat's
    little theorem for exponents taken modulo [q - 1], the bound on the
    number of roots of a polynomial, and Lagrange interpolation at zero. *)

From Stdlib Require Import ZArith Lia Znumtheory Zdivisibility Zmod Setoid Morphisms.
From stdpp Require Import base list.
From S2P Require Import Prelude.

Open Scope Z_scope.

(** [a ≡[q] b]: congruence modulo [q], an equivalence that [+], [-], [*],
    negation and powers respect. *)
Definition cong (q a b : Z) : Prop := (q | a - b).

Notation "a ≡[ q ] b" := (cong q a b) (at level 70, no associativity) : Z_scope.

Create Rewrite HintDb modular.

Lemma cong_mod_eq q a b : a ≡[q] b <-> a mod q = b mod q.
Proof.
  unfold cong. destruct (decide (q = 0)) as [->|Hq].
  - rewrite !Z.mod_0_r. split; [intros [k Hk]; lia|intros ->; exists 0; lia].
  - rewrite <- Z.mod_divide by done. split; intros H.
    + replace a with (b + (a - b)) by lia.
      by rewrite <- Zplus_mod_idemp_r, H, Z.add_0_r.
    + by rewrite Zminus_mod, H, Z.sub_diag, Zmod_0_l.
Qed.

#[export] Instance cong_equiv q : Equivalence (cong q).
Proof.
  split; red; setoid_rewrite cong_mod_eq; congruence.
Qed.

#[export] Instance add_cong q : Proper (cong q ==> cong q ==> cong q) Z.add.
Proof.
  intros a b [k Hk] c d [l Hl]. exists (k + l). lia.
Qed.

#[export] Instance sub_cong q : Proper (cong q ==> cong q ==> cong q) Z.sub.
Proof.
  intros a b [k Hk] c d [l Hl]. exists (k - l). lia.
Qed.

#[export] Instance opp_cong q : Proper (cong q ==> cong q) Z.opp.
Proof. intros a b [k Hk]. exists (- k). lia. Qed.

#[export] Instance mul_cong q : Proper (cong q ==> cong q ==> cong q) Z.mul.
Proof.
  intros a b [k Hk] c d [l Hl]. exists (k * c + b * l).
  replace a with (b + k * q) by lia. replace c with (d + l * q) by lia. ring.
Qed.

Lemma cong_mod q a : a mod q ≡[q] a.
Proof. rewrite cong_mod_eq. apply Zmod_mod. Qed.

Lemma cong_0_divide q a : a ≡[q] 0 <-> (q | a).
Proof. unfold cong. by rewrite Z.sub_0_r. Qed.

Lemma cong_sub_0 q a b : a ≡[q] b <-> a - b ≡[q] 0.
Proof. unfold cong. by rewrite Z.sub_0_r. Qed.

Lemma cong_eq q a b : a = b -> a ≡[q] b.
Proof. by intros ->. Qed.

(** Two canonical representatives that are congruent are equal. *)
Lemma cong_small q a b : 0 <= a < q -> 0 <= b < q -> a ≡[q] b -> a = b.
Proof. rewrite cong_mod_eq. intros. by rewrite <- (Z.mod_small a q), <- (Z.mod_small b q). Qed.

#[export] Instance pow_cong q : Proper (cong q ==> eq ==> cong q) Z.pow.
Proof.
  intros a b Hab n ? <-. apply cong_mod_eq in Hab. apply cong_mod_eq.
  destruct (Z.neg_nonneg_cases n) as [Hn|Hn]; [by rewrite !Z.pow_neg_r by lia|].
  rewrite <- (Z.mod_pow_l a), <- (Z.mod_pow_l b). by rewrite Hab.
Qed.

#[export] Hint Rewrite cong_mod : modular.

(** Normalise a congruence: drop the reductions, then compare as integers. *)
Ltac cong_ring := rewrite ?cong_mod; apply cong_eq; ring.

(** ** Units modulo a prime *)

Section Prime.
Context (q : Z) (Hq : Z.prime q).

Lemma prime_gt_1 : 1 < q.
Proof. pose proof (Z.prime_ge_2 _ Hq). lia. Qed.

Lemma unit_nz a : a ≡[q] 0 <-> a mod q = 0.
Proof. rewrite cong_mod_eq. by rewrite Zmod_0_l. Qed.

Lemma cong_mul_0 a b : a * b ≡[q] 0 -> a ≡[q] 0 \/ b ≡[q] 0.
Proof.
  pose proof prime_gt_1.
  rewrite !cong_0_divide. apply Z.divide_prime_mul, Hq.
Qed.

Lemma cong_mul_cancel c a b : ~ c ≡[q] 0 -> c * a ≡[q] c * b -> a ≡[q] b.
Proof.
  intros Hc Hab. apply cong_sub_0. apply cong_sub_0 in Hab.
  rewrite <- Z.mul_sub_distr_l in Hab. by destruct (cong_mul_0 _ _ Hab).
Qed.

Lemma unit_mul a b : ~ a ≡[q] 0 -> ~ b ≡[q] 0 -> ~ a * b ≡[q] 0.
Proof. intros Ha Hb Hab. by destruct (cong_mul_0 _ _ Hab). Qed.

Lemma unit_pow a n : 0 <= n -> ~ a ≡[q] 0 -> ~ a ^ n ≡[q] 0.
Proof.
  intros Hn Ha. revert n Hn. apply natlike_ind.
  - rewrite Z.pow_0_r. rewrite unit_nz, Z.mod_1_l by apply prime_gt_1. lia.
  - intros n Hn IH. rewrite Z.pow_succ_r by done. by apply unit_mul.
Qed.

Lemma unit_coprime a : ~ a ≡[q] 0 -> Z.gcd a q = 1.
Proof.
  intros Ha. rewrite Z.gcd_comm. apply Z.coprime_prime_l; [done|].
  by rewrite <- cong_0_divide.
Qed.

(** Exponents live modulo [q - 1]. *)
Lemma pow_period a k n :
  ~ a ≡[q] 0 -> 0 <= k -> 0 <= n -> a ^ (n + k * (q - 1)) ≡[q] a ^ n.
Proof.
  intros Ha Hk Hn. pose proof prime_gt_1 as Hq1.
  rewrite Z.pow_add_r by nia. rewrite (Z.mul_comm k), Z.pow_mul_r by lia.
  assert (H1 : a ^ (q - 1) ≡[q] 1).
  { rewrite cong_mod_eq, Z.mod_1_l by lia. apply Z.fermat_nz; [done|].
    by rewrite <- unit_nz. }
  rewrite H1, Z.pow_1_l by lia. by rewrite Z.mul_1_r.
Qed.

Lemma pow_exp_mod a m n :
  ~ a ≡[q] 0 -> 0 <= m -> 0 <= n -> m ≡[q - 1] n -> a ^ m ≡[q] a ^ n.
Proof.
  intros Ha Hm Hn Hmn. pose proof prime_gt_1 as Hq1. rewrite cong_mod_eq in Hmn.
  rewrite (Z.div_mod m (q - 1)), (Z.div_mod n (q - 1)), Hmn by lia.
  pose proof (Z.mod_pos_bound n (q - 1)).
  pose proof (Z.div_pos m (q - 1)). pose proof (Z.div_pos n (q - 1)).
  rewrite !(Z.add_comm (_ * _)), !(Z.mul_comm (q - 1)).
  by rewrite !pow_period by (done || lia).
Qed.

(** ** Polynomial functions

    [polyfun n f]: modulo [q], [f] is a polynomial with [n] coefficients,
    that is of degree less than [n]. *)

Fixpoint polyfun (n : nat) (f : Z -> Z) : Prop :=
  match n with
  | O => forall x, f x ≡[q] 0
  | S n' => exists c g, polyfun n' g /\ forall x, f x ≡[q] c + x * g x
  end.

Lemma polyfun_ext n f g : (forall x, f x ≡[q] g x) -> polyfun n f -> polyfun n g.
Proof.
  destruct n as [|n]; simpl; intros Hfg Hf.
  - intros x. by rewrite <- Hfg.
  - destruct Hf as (c & h & Hh & Hf). exists c, h. split; [done|].
    intros x. by rewrite <- Hfg.
Qed.

Lemma polyfun_0 n : polyfun n (fun _ => 0).
Proof.
  induction n as [|n IH]; simpl; [done|].
  exists 0, (fun _ => 0). split; [done|]. intros x. by rewrite Z.mul_0_r.
Qed.

Lemma polyfun_S n f : polyfun n f -> polyfun (S n) f.
Proof.
  revert f. induction n as [|n IH]; intros f Hf.
  - exists 0, (fun _ => 0). split; [apply polyfun_0|]. intros x. rewrite (Hf x). by rewrite Z.mul_0_r.
  - destruct Hf as (c & g & Hg & Hf). exists c, g. by split; [apply IH|].
Qed.

Lemma polyfun_add n f g : polyfun n f -> polyfun n g -> polyfun n (fun x => f x + g x).
Proof.
  revert f g. induction n as [|n IH]; simpl; intros f g Hf Hg.
  - intros x. by rewrite Hf, Hg.
  - destruct Hf as (c & f' & Hf' & Hf), Hg as (d & g' & Hg' & Hg).
    exists (c + d), (fun x => f' x + g' x). split; [by apply IH|].
    intros x. rewrite Hf, Hg. cong_ring.
Qed.

Lemma polyfun_scale n k f : polyfun n f -> polyfun n (fun x => k * f x).
Proof.
  revert f. induction n as [|n IH]; simpl; intros f Hf.
  - intros x. rewrite Hf. by rewrite Z.mul_0_r.
  - destruct Hf as (c & g & Hg & Hf). exists (k * c), (fun x => k * g x).
    split; [by apply IH|]. intros x. rewrite Hf. cong_ring.
Qed.

Lemma polyfun_const k : polyfun 1 (fun _ => k).
Proof. exists k, (fun _ => 0). split; [apply polyfun_0|]. intros x. by rewrite Z.mul_0_r, Z.add_0_r. Qed.

(** Multiplying by the linear factor [a x + b] adds one coefficient. *)
Lemma polyfun_linear n a b f : polyfun n f -> polyfun (S n) (fun x => (a * x + b) * f x).
Proof.
  intros Hf. apply (polyfun_ext _ (fun x => b * f x + a * (x * f x))).
  - intros x. cong_ring.
  - apply polyfun_add; [by apply polyfun_S, polyfun_scale|]. apply polyfun_scale.
    exists 0, f. split; [done|]. intros x. by rewrite Z.add_0_l.
Qed.

(** Division by [x - r]. *)
Lemma polyfun_div n f r :
  polyfun (S n) f -> exists g, polyfun n g /\ forall x, f x ≡[q] f r + (x - r) * g x.
Proof.
  revert f. induction n as [|n IH]; intros f Hf.
  - destruct Hf as (c & g & Hg & Hf). exists (fun _ => 0). split; [apply polyfun_0|].
    intros x. rewrite !Hf, (Hg x), (Hg r). rewrite !Z.mul_0_r. by rewrite !Z.add_0_r.
  - destruct Hf as (c & g & Hg & Hf). destruct (IH g Hg) as (h & Hh & Hgh).
    exists (fun x => g r + x * h x). split.
    { exists (g r), h. by split. }
    intros x. rewrite !Hf, (Hgh x). cong_ring.
Qed.

(** A polynomial with [n] coefficients and [n] roots is zero. *)
Lemma polyfun_roots n f (r : nat -> Z) :
  polyfun n f ->
  (forall i j, (i < j < n)%nat -> ~ r i ≡[q] r j) ->
  (forall i, (i < n)%nat -> f (r i) ≡[q] 0) ->
  forall x, f x ≡[q] 0.
Proof.
  revert f. induction n as [|n IH]; intros f Hf Hdist Hroot x; [apply Hf|].
  destruct (polyfun_div n f (r n) Hf) as (g & Hg & Hfg).
  assert (Hg0 : forall y, g y ≡[q] 0).
  { apply IH; [done|intros; apply Hdist; lia|]. intros i Hi.
    pose proof (Hroot i ltac:(lia)) as Hi0.
    rewrite Hfg, (Hroot n ltac:(lia)), Z.add_0_l in Hi0.
    destruct (cong_mul_0 _ _ Hi0) as [Heq|]; [|done].
    apply cong_sub_0 in Heq. by destruct (Hdist i n ltac:(lia)). }
  rewrite Hfg, (Hroot n ltac:(lia)), Hg0. by rewrite Z.mul_0_r.
Qed.
End Prime.

(** ** Finite sums and products over [0 .. n - 1] *)

Fixpoint bigsum (n : nat) (f : nat -> Z) : Z :=
  match n with
  | O => 0
  | S n' => bigsum n' f + f n'
  end.

Fixpoint bigprod (n : nat) (f : nat -> Z) : Z :=
  match n with
  | O => 1
  | S n' => bigprod n' f * f n'
  end.

(** The product over [j <> i]. *)
Definition bigprod_except (n i : nat) (f : nat -> Z) : Z :=
  bigprod n (fun j => if (j =? i)%nat then 1 else f j).

Section Big.
Context (q : Z).

Lemma bigsum_cong n f g :
  (forall i, (i < n)%nat -> f i ≡[q] g i) -> bigsum n f ≡[q] bigsum n g.
Proof.
  induction n as [|n IH]; intros H; simpl; [done|].
  rewrite IH by (intros; apply H; lia). by rewrite (H n) by lia.
Qed.

Lemma bigprod_cong n f g :
  (forall i, (i < n)%nat -> f i ≡[q] g i) -> bigprod n f ≡[q] bigprod n g.
Proof.
  induction n as [|n IH]; intros H; simpl; [done|].
  rewrite IH by (intros; apply H; lia). by rewrite (H n) by lia.
Qed.

Lemma bigprod_ext n f g :
  (forall i, (i < n)%nat -> f i = g i) -> bigprod n f = bigprod n g.
Proof.
  induction n as [|n IH]; intros H; simpl; [done|].
  rewrite IH by (intros; apply H; lia). by rewrite (H n) by lia.
Qed.

Lemma bigprod_zero n f i : (i < n)%nat -> f i = 0 -> bigprod n f = 0.
Proof.
  induction n as [|n IH]; intros Hi Hf; simpl; [lia|].
  destruct (decide (i = n)) as [->|]; [rewrite Hf; lia|].
  rewrite IH by (done || lia). lia.
Qed.

Lemma bigprod_mul n f g : bigprod n (fun i => f i * g i) = bigprod n f * bigprod n g.
Proof. induction n as [|n IH]; simpl; [done|]. rewrite IH. ring. Qed.

Lemma bigprod_pow n b f :
  (forall i, 0 <= f i) -> bigprod n (fun i => b ^ f i) = b ^ bigsum n f.
Proof.
  intros Hf. assert (Hs : forall m, 0 <= bigsum m f).
  { intros m. induction m as [|m IHm]; simpl; [lia|]. specialize (Hf m). lia. }
  induction n as [|n IH]; simpl; [done|]. by rewrite IH, Z.pow_add_r.
Qed.

Lemma bigsum_scale n k f : bigsum n (fun i => k * f i) = k * bigsum n f.
Proof. induction n as [|n IH]; simpl; [ring|]. rewrite IH. ring. Qed.

Lemma bigsum_0 n f : (forall i, (i < n)%nat -> f i = 0) -> bigsum n f = 0.
Proof.
  induction n as [|n IH]; intros Hf; simpl; [done|].
  rewrite IH, (Hf n); [done|lia|]. intros. apply Hf. lia.
Qed.

Lemma bigsum_single n f k :
  (k < n)%nat -> (forall i, (i < n)%nat -> i <> k -> f i = 0) -> bigsum n f = f k.
Proof.
  induction n as [|n IH]; intros Hk Hf; [lia|]. simpl.
  destruct (decide (k = n)) as [->|Hne].
  - rewrite bigsum_0; [lia|]. intros. apply Hf; lia.
  - rewrite IH, (Hf n); try lia. intros. apply Hf; lia.
Qed.

Lemma bigprod_except_mul n i f :
  (i < n)%nat -> bigprod_except n i f * f i = bigprod n f.
Proof.
  unfold bigprod_except. induction n as [|n IH]; intros Hi; simpl; [lia|].
  destruct (Nat.eqb_spec n i) as [->|Hne].
  - rewrite (bigprod_ext i _ f); [ring|]. intros j Hj.
    by destruct (Nat.eqb_spec j i); [lia|].
  - rewrite <- IH by lia. ring.
Qed.

Lemma bigprod_except_0 n i f j :
  (j < n)%nat -> j <> i -> f j = 0 -> bigprod_except n i f = 0.
Proof.
  intros Hj Hji Hf. apply (bigprod_zero _ _ j); [done|].
  by destruct (Nat.eqb_spec j i).
Qed.
End Big.

Lemma bigprod_unit q n f :
  Z.prime q -> (forall i, (i < n)%nat -> ~ f i ≡[q] 0) -> ~ bigprod n f ≡[q] 0.
Proof.
  intros Hq. induction n as [|n IH]; intros Hf; simpl.
  - rewrite (unit_nz q), Z.mod_1_l by by apply prime_gt_1. lia.
  - apply unit_mul; [done|apply IH; intros; apply Hf; lia|apply Hf; lia].
Qed.

(** ** Lagrange interpolation at zero *)

Section Lagrange.
Context (q : Z) (Hq : Z.prime q).
Context (t : nat) (x : nat -> Z).
Hypothesis Hdist : forall i j, (i < t)%nat -> (j < t)%nat -> i <> j -> ~ x i ≡[q] x j.

(** The product of [x_j - y] over [j <> i], as a function of [y]. *)
Definition vanish (i : nat) (y : Z) : Z := bigprod_except t i (fun j => x j - y).

Lemma polyfun_vanish i : (i < t)%nat -> polyfun q t (vanish i).
Proof.
  intros Hi.
  assert (H : forall n, polyfun q (if (n <=? i)%nat then S n else n)
                (fun y => bigprod_except n i (fun j => x j - y))).
  { induction n as [|n IH]; [exact (polyfun_const q 1)|].
    unfold bigprod_except; cbn [bigprod]. cbv beta in *.
    destruct (Nat.leb_spec n i) as [Hn|Hn], (Nat.leb_spec (S n) i) as [Hn'|Hn'];
      try lia; destruct (Nat.eqb_spec n i); try lia.
    - apply (polyfun_ext _ _ (fun y => (-1 * y + x n) * bigprod_except n i (fun j => x j - y))).
      + intros y. apply cong_eq. unfold bigprod_except. ring.
      + by apply polyfun_linear.
    - eapply polyfun_ext; [|exact IH]. intros y. unfold bigprod_except.
      by rewrite Z.mul_1_r.
    - apply (polyfun_ext _ _ (fun y => (-1 * y + x n) * bigprod_except n i (fun j => x j - y))).
      + intros y. apply cong_eq. unfold bigprod_except. ring.
      + by apply polyfun_linear. }
  specialize (H t). by destruct (Nat.leb_spec t i); [lia|].
Qed.

Lemma vanish_unit i : (i < t)%nat -> ~ vanish i (x i) ≡[q] 0.
Proof.
  intros Hi. unfold vanish, bigprod_except.
  enough (H : forall n, (n <= t)%nat ->
    ~ bigprod n (fun j => if (j =? i)%nat then 1 else x j - x i) ≡[q] 0) by (by apply H).
  assert (H1 : ~ 1 ≡[q] 0).
  { pose proof (prime_gt_1 q Hq). rewrite unit_nz, Z.mod_1_l; lia. }
  induction n as [|n IH]; intros Hn; simpl; [done|].
  apply unit_mul; [done|apply IH; lia|].
  destruct (Nat.eqb_spec n i) as [|Hne]; [done|].
  rewrite <- cong_sub_0. apply Hdist; lia.
Qed.

(** Any weights [w] with [w_i * prod (x_j - x_i) = prod x_j] (both over
    [j <> i]) recover the value at zero from the values at the [x_i]. *)
Theorem lagrange_at_zero (f : Z -> Z) (w : nat -> Z) :
  polyfun q t f ->
  (forall i, (i < t)%nat -> w i * vanish i (x i) ≡[q] vanish i 0) ->
  bigsum t (fun i => f (x i) * w i) ≡[q] f 0.
Proof.
  intros Hf Hw.
  set (inv i := Z.invmod (vanish i (x i)) q).
  assert (Hinv : forall i, (i < t)%nat -> inv i * vanish i (x i) ≡[q] 1).
  { intros i Hi. rewrite cong_mod_eq, Z.mod_1_l by (by apply prime_gt_1).
    apply Z.invmod_prime; [done|]. rewrite <- unit_nz. by apply vanish_unit. }
  set (P y := bigsum t (fun i => f (x i) * inv i * vanish i y) + -1 * f y).
  assert (HP : forall y, P y ≡[q] 0).
  { apply (polyfun_roots q Hq t P x).
    - apply polyfun_add; [|by apply polyfun_scale].
      enough (H : forall n, (n <= t)%nat -> polyfun q t
        (fun y => bigsum n (fun i => f (x i) * inv i * vanish i y))) by (by apply H).
      induction n as [|n IH]; intros Hn; simpl; [apply polyfun_0|].
      apply (polyfun_add q t); [apply IH; lia|].
      apply (polyfun_scale q t (f (x n) * inv n)), polyfun_vanish. lia.
    - intros. apply Hdist; lia.
    - intros k Hk. unfold P. rewrite (bigsum_single t _ k); [|done|].
      + rewrite <- Z.mul_assoc, (Hinv k Hk). cong_ring.
      + intros i Hi Hik. unfold vanish.
        rewrite (bigprod_except_0 t i _ k); [ring|done|done|ring]. }
  specialize (HP 0). unfold P in HP.
  apply cong_sub_0. etransitivity; [|exact HP].
  rewrite (bigsum_cong q t (fun i => f (x i) * w i) (fun i => f (x i) * inv i * vanish i 0)).
  { cong_ring. }
  intros i Hi. rewrite <- Z.mul_assoc. apply mul_cong; [done|].
  apply (cong_mul_cancel q Hq (vanish i (x i))); [by apply vanish_unit|].
  rewrite (Z.mul_comm _ (w i)), Hw, Z.mul_assoc, (Z.mul_comm _ (inv i)), Hinv by done.
  by rewrite Z.mul_1_l.
Qed.
End Lagrange.
