(* ===== verification/Primality.v ===== *)
(** * The order of the curve group is prime

    [curve_order] is the order of the BLS12-381 groups, the modulus [pp.q] of
    the whole scheme.  [order_factors] are the primes that divide
    [curve_order - 1], the list [getFactors] of fussion.cpp writes out.  Both
    facts are certified here: the small primes by trial division, the order
    by Pocklington's criterion.  The order is [z^4 - z^2 + 1] for the curve
    parameter [z], so the factored part [z^2] of [curve_order - 1] exceeds the
    square root of [curve_order]. *)

From Stdlib Require Import ZArith Lia Znumtheory Zdivisibility Zmod Zpow_facts.
From stdpp Require Import base list sets.
From S2P Require Import Prelude ModArith.

Open Scope Z_scope.

Definition curve_order : Z :=
  0x73eda753299d7d483339d80809a1d80553bda402fffe5bfeffffffff00000001.

Definition order_factors : list Z :=
  [2; 3; 11; 19; 10177; 125527; 859267; 906349; 2508409; 2529403; 52437899; 254760293].

(** ** Trial division *)

Fixpoint no_divisor (k : nat) (d p : Z) : bool :=
  match k with
  | O => true
  | S k' => negb (p mod d =? 0) && no_divisor k' (d + 1) p
  end.

Definition prime_check (p : Z) : bool :=
  (1 <? p) && no_divisor (Z.to_nat (Z.sqrt p)) 2 p || (p =? 2) || (p =? 3).

Lemma no_divisor_spec k d p :
  0 < d -> no_divisor k d p = true ->
  forall n, d <= n < d + Z.of_nat k -> ~ (n | p).
Proof.
  revert d. induction k as [|k IH]; intros d Hd Hk n Hn; [lia|].
  simpl in Hk. apply andb_prop in Hk as [Hd0 Hk].
  apply negb_true_iff, Z.eqb_neq in Hd0.
  destruct (decide (n = d)) as [->|].
  - by rewrite <- Z.mod_divide by lia.
  - apply (IH (d + 1)); [lia|done|lia].
Qed.

Lemma prime_check_sound p : prime_check p = true -> Z.prime p.
Proof.
  unfold prime_check. intros H.
  apply orb_prop in H as [H| ->%Z.eqb_eq]; [|apply Z.prime_3].
  apply orb_prop in H as [H| ->%Z.eqb_eq]; [|apply Z.prime_2].
  apply andb_prop in H as [H1%Z.ltb_lt H]. split; [done|]. intros n Hn [m Hm].
  pose proof (Z.sqrt_spec p ltac:(lia)) as Hs. pose proof (Z.sqrt_nonneg p).
  assert (Hdiv : forall d, 1 < d <= Z.sqrt p -> ~ (d | p)).
  { intros d Hd. apply (no_divisor_spec _ 2 _ ltac:(lia) H). lia. }
  destruct (decide (n <= Z.sqrt p)).
  - apply (Hdiv n); [lia|]. by exists m.
  - unfold Z.succ in Hs. assert (1 < m) by nia.
    assert (m <= Z.sqrt p) by (apply Z.nlt_ge; intros Hlt; nia).
    apply (Hdiv m); [lia|]. exists n. lia.
Qed.

Lemma order_factors_prime : Forall Z.prime order_factors.
Proof.
  assert (H : forallb prime_check order_factors = true) by (vm_compute; reflexivity).
  apply Forall_forall. intros p Hp. apply prime_check_sound.
  apply list_elem_of_In in Hp. rewrite forallb_forall in H. by apply H.
Qed.

(** ** Prime divisors *)

Lemma prime_divisor n : 1 < n -> exists p, Z.prime p /\ (p | n).
Proof.
  intros Hn. assert (H0 : 0 <= n) by lia. revert Hn. pattern n.
  apply Z_lt_induction; [|done]. clear n H0. intros n IH Hn.
  destruct (prime_dec n) as [Hp|Hnp]; [exists n; by rewrite prime_alt|].
  destruct (not_prime_divide n Hn Hnp) as (d & Hd & Hdn).
  destruct (IH d ltac:(lia) ltac:(lia)) as (p & Hp & Hpd).
  exists p. split; [done|]. by etransitivity.
Qed.

(** A prime that divides a product of primes is one of them. *)
Lemma prime_divides_prod p l :
  Z.prime p -> Forall Z.prime l -> (p | foldr Z.mul 1 l) -> p ∈ l.
Proof.
  intros Hp Hl. induction Hl as [|a l Ha Hl IH]; simpl; intros Hd.
  - apply Z.divide_1_r_nonneg in Hd; [|pose proof (Z.prime_ge_2 p Hp); lia].
    subst. by destruct Z.not_prime_1.
  - apply Z.divide_prime_mul in Hd as [Hd|Hd]; [| |done].
    + apply Z.divide_prime_prime in Hd; [|done..]. subst. set_solver.
    + set_solver.
Qed.

(** ** Pocklington's criterion *)

Lemma pow_gcd_cong p a x y :
  0 <= x -> 0 <= y -> a ^ x ≡[p] 1 -> a ^ y ≡[p] 1 -> a ^ Z.gcd x y ≡[p] 1.
Proof.
  intros Hx Hy Hax Hay. pose proof (Z.gcd_nonneg x y) as Hg.
  destruct (Z.gcd_bezout x y (Z.gcd x y) eq_refl) as (u & v & Huv).
  assert (Hpow : forall z k, 0 <= z -> 0 <= k -> a ^ z ≡[p] 1 -> a ^ (k * z) ≡[p] 1).
  { intros z k Hz Hk Haz. rewrite Z.mul_comm, Z.pow_mul_r by done.
    rewrite Haz. by rewrite Z.pow_1_l. }
  assert (Hcase : forall x y u v, 0 <= x -> 0 <= y -> a ^ x ≡[p] 1 -> a ^ y ≡[p] 1 ->
    u * x + v * y = Z.gcd x y -> 0 <= u -> a ^ Z.gcd x y ≡[p] 1).
  { clear -Hpow. intros x y u v Hx Hy Hax Hay Huv Hu.
    pose proof (Z.gcd_nonneg x y). destruct (Z.neg_nonneg_cases v) as [Hv|Hv].
    - assert (H1 : a ^ (u * x) = a ^ Z.gcd x y * a ^ (- v * y)).
      { rewrite <- Z.pow_add_r by nia. f_equal. lia. }
      pose proof (Hpow x u Hx Hu Hax) as H2.
      rewrite H1, (Hpow y (- v)), Z.mul_1_r in H2; [done|done|lia|done].
    - rewrite <- Huv, Z.pow_add_r by nia.
      by rewrite (Hpow x u), (Hpow y v). }
  destruct (Z.neg_nonneg_cases u) as [Hu|Hu]; [|by apply (Hcase x y u v)].
  destruct (Z.neg_nonneg_cases v) as [Hv|Hv].
  - assert (u * x <= 0) by nia. assert (v * y <= 0) by nia.
    assert (Z.gcd x y = 0) as -> by lia. done.
  - rewrite Z.gcd_comm. apply (Hcase y x v u); try done. rewrite Z.gcd_comm. lia.
Qed.

Lemma proper_divisor_factor g n :
  0 < g -> 0 < n -> (g | n) -> g <> n ->
  exists l, Z.prime l /\ (l | n) /\ (g | n / l).
Proof.
  intros Hg Hn [k Hk] Hne. assert (Hk1 : 1 < k).
  { destruct (decide (k = 1)) as [->|]; [lia|]. destruct (decide (k <= 0)); nia. }
  destruct (prime_divisor k Hk1) as (l & Hl & [m Hm]).
  pose proof (Z.prime_ge_2 l Hl). exists l. split; [done|].
  subst k. split; [exists (m * g); lia|].
  replace n with ((m * g) * l) by lia. rewrite Z.div_mul by lia. by exists m.
Qed.

(** A composite number has a prime divisor at most its square root. *)
Lemma small_prime_divisor n :
  1 < n -> ~ Z.prime n -> exists p, Z.prime p /\ (p | n) /\ p * p <= n.
Proof.
  intros Hn Hnp. rewrite prime_alt in Hnp.
  destruct (not_prime_divide n Hn Hnp) as (d & Hd & [e He]).
  assert (He1 : 1 < e) by nia.
  assert (Hmin : exists m, 1 < m /\ (m | n) /\ m * m <= n).
  { destruct (decide (d <= e)).
    - exists d. split; [lia|]. split; [by exists e|nia].
    - exists e. split; [lia|]. split; [exists d; lia|nia]. }
  destruct Hmin as (m & Hm & Hmn & Hsq).
  destruct (prime_divisor m Hm) as (p & Hp & Hpm).
  pose proof (Z.prime_ge_2 p Hp). pose proof (Z.divide_pos_le p m ltac:(lia) Hpm).
  exists p. split; [done|]. split; [by etransitivity|nia].
Qed.

(** Pocklington: [b] has order exactly [F] modulo every prime divisor of [n],
    so each of them exceeds [F]. *)
Theorem pocklington n F b l :
  1 < n -> 1 < F -> n < F * F ->
  (forall p, Z.prime p -> (p | F) -> p ∈ l) ->
  b ^ F ≡[n] 1 ->
  Forall (fun p => Z.gcd (b ^ (F / p) - 1) n = 1) l ->
  Z.prime n.
Proof.
  intros Hn HF HFn Hfull Hb Hgcd.
  destruct (prime_dec n) as [Hp|Hnp]; [by apply prime_alt|]. exfalso.
  rewrite <- prime_alt in Hnp.
  destruct (small_prime_divisor n Hn Hnp) as (p & Hp & Hpn & Hsq).
  pose proof (Z.prime_ge_2 p Hp) as Hp2.
  assert (Hcong : forall x y, x ≡[n] y -> x ≡[p] y)
    by (unfold cong; intros; by etransitivity).
  assert (Hbp : ~ b ≡[p] 0).
  { intros Hb0. apply Hcong in Hb. rewrite Hb0, Z.pow_0_l in Hb by lia.
    symmetry in Hb. apply cong_0_divide, Z.divide_1_r_nonneg in Hb; lia. }
  set (g := Z.gcd F (p - 1)).
  assert (Hg : b ^ g ≡[p] 1).
  { apply pow_gcd_cong; [lia|lia|by apply Hcong|].
    rewrite cong_mod_eq, Z.mod_1_l by lia. apply Z.fermat_nz; [done|].
    by rewrite <- unit_nz. }
  assert (Hgpos : 0 < g).
  { pose proof (Z.gcd_nonneg F (p - 1)).
    assert (g <> 0) by (intros Hg0; apply Z.gcd_eq_0_l in Hg0; lia). lia. }
  assert (HgF : g <> F).
  { intros Heq. pose proof (Z.gcd_divide_r F (p - 1)) as Hd.
    fold g in Hd. rewrite Heq in Hd. apply Z.divide_pos_le in Hd; nia. }
  destruct (proper_divisor_factor g F) as (r & Hr & Hrn & [k Hk]);
    [done|lia|apply Z.gcd_divide_l|done|].
  assert (Hk0 : 0 <= k).
  { assert (0 <= F / r) by (apply Z.div_pos; pose proof (Z.prime_ge_2 r Hr); lia). nia. }
  rewrite Forall_forall in Hgcd. specialize (Hgcd r (Hfull r Hr Hrn)).
  assert (H1 : (p | 1)).
  { rewrite <- Hgcd. apply Z.gcd_greatest; [|done]. apply cong_0_divide.
    rewrite <- cong_sub_0, Hk, Z.mul_comm, Z.pow_mul_r by lia.
    rewrite Hg. by rewrite Z.pow_1_l. }
  apply Z.divide_1_r_nonneg in H1; lia.
Qed.

(** ** The certificates for [curve_order] *)

(** [curve_order - 1], factored. *)
Lemma order_pred_factored :
  curve_order - 1 =
  foldr Z.mul 1 (replicate 31 2 ++ [906349; 254760293] ++ order_factors).
Proof. vm_compute. reflexivity. Qed.

Lemma order_factors_complete p :
  Z.prime p -> (p | curve_order - 1) -> p ∈ order_factors.
Proof.
  intros Hp. rewrite order_pred_factored. intros Hd.
  pose proof order_factors_prime as Hl.
  assert (H2 : 2 ∈ order_factors) by (unfold order_factors; set_solver).
  assert (H3 : 906349 ∈ order_factors) by (unfold order_factors; set_solver).
  assert (H4 : 254760293 ∈ order_factors) by (unfold order_factors; set_solver).
  apply prime_divides_prod in Hd; [|done|].
  - rewrite !elem_of_app, elem_of_replicate in Hd. set_solver.
  - pose proof (proj1 (Forall_forall _ _) Hl) as Hin.
    apply Forall_app. split; [by apply Forall_replicate, Hin|].
    simpl. apply Forall_cons. split; [by apply Hin|].
    apply Forall_cons. split; [by apply Hin|done].
Qed.

Lemma order_factor_divides p : p ∈ order_factors -> (p | curve_order - 1).
Proof.
  assert (H : Forall (fun p => (curve_order - 1) mod p = 0) order_factors)
    by (repeat constructor).
  rewrite Forall_forall in H. intros Hp. pose proof order_factors_prime as Hl.
  rewrite Forall_forall in Hl. pose proof (Z.prime_ge_2 p (Hl p Hp)).
  apply Z.mod_divide; [lia|]. by apply H.
Qed.

(** The witness, checked with modular powers. *)
Definition pocklington_check (n F b : Z) (l : list Z) : bool :=
  let h := Zpow_mod b (F / 2) n in
  (h * h mod n =? 1) && (Z.gcd (h - 1) n =? 1) &&
  forallb (fun p => Z.gcd (Zpow_mod b (F / p) n - 1) n =? 1) l.

Lemma gcd_cong a b n : a ≡[n] b -> Z.gcd a n = Z.gcd b n.
Proof.
  intros H%cong_mod_eq. destruct (decide (n = 0)) as [->|].
  - rewrite !Z.mod_0_r in H. by subst.
  - rewrite !(Z.gcd_comm _ n), <- (Z.gcd_mod a), <- (Z.gcd_mod b) by done. by rewrite H.
Qed.

Lemma pocklington_check_sound n F b l :
  1 < n -> 1 < F -> n < F * F -> F mod 2 = 0 ->
  (forall p, Z.prime p -> (p | F) -> p ∈ 2 :: l) ->
  pocklington_check n F b l = true -> Z.prime n.
Proof.
  unfold pocklington_check. intros Hn HF HFn H2 Hfull Hc.
  apply andb_prop in Hc as [Hc Hl]. apply andb_prop in Hc as [H1 Hh].
  apply Z.eqb_eq in H1, Hh. rewrite Zpow_mod_correct in H1, Hh by lia.
  assert (Hgcd : forall m, Z.gcd (m mod n - 1) n = 1 -> Z.gcd (m - 1) n = 1).
  { intros m Hm. etransitivity; [|exact Hm]. apply gcd_cong. by rewrite cong_mod. }
  apply (pocklington n F b (2 :: l)); [done..| |].
  - rewrite (Z.div_mod F 2), H2, Z.add_0_r, Z.mul_comm, Z.pow_mul_r by
      (try apply Z.div_pos; lia).
    rewrite <- (Z.mod_1_l n) in H1 by lia. rewrite <- cong_mod_eq in H1.
    rewrite <- H1, !cong_mod. by rewrite Z.pow_2_r.
  - apply Forall_cons. split; [by apply Hgcd|]. apply Forall_forall. intros p Hp.
    rewrite forallb_forall in Hl. specialize (Hl p ltac:(by apply list_elem_of_In)).
    apply Z.eqb_eq in Hl. rewrite Zpow_mod_correct in Hl by lia. by apply Hgcd.
Qed.

(** The curve parameter [z]; 7 raised to [z^2 - 1] has order [z^2]. *)
Definition curve_z : Z := 0xd201000000010000.
Definition order_witness : Z :=
  0x1d77eace680cd11e9f997ef84280ddce5c3824eb5b59f3d7767a72ba8d2aa11c.

Lemma curve_z_primes p : Z.prime p -> (p | curve_z * curve_z) -> p ∈ [2; 906349; 254760293].
Proof.
  intros Hp Hd. pose proof order_factors_prime as Hl. rewrite Forall_forall in Hl.
  assert (Hz : (p | curve_z)) by (by apply Z.divide_prime_mul in Hd as [Hd|Hd]).
  assert (Heq : curve_z = foldr Z.mul 1 (replicate 16 2 ++ [906349; 254760293]))
    by (vm_compute; reflexivity).
  rewrite Heq in Hz. apply prime_divides_prod in Hz; [|done|].
  - rewrite elem_of_app, elem_of_replicate in Hz. set_solver.
  - apply Forall_app. split; [apply Forall_replicate, Z.prime_2|].
    apply Forall_cons. split; [apply Hl; unfold order_factors; set_solver|].
    apply Forall_cons. split; [apply Hl; unfold order_factors; set_solver|done].
Qed.

Theorem curve_order_prime : Z.prime curve_order.
Proof.
  apply (pocklington_check_sound _ (curve_z * curve_z) order_witness [906349; 254760293]).
  - vm_compute. reflexivity.
  - vm_compute. reflexivity.
  - vm_compute. reflexivity.
  - vm_compute. reflexivity.
  - apply curve_z_primes.
  - vm_compute. reflexivity.
Qed.

(** [x] is coprime to [curve_order - 1] exactly when none of the listed
    primes divides it. *)
Lemma coprime_order_pred x :
  Z.gcd x (curve_order - 1) = 1 <-> Forall (fun p => ~ (p | x)) order_factors.
Proof.
  rewrite Forall_forall. split.
  - intros Hg p Hp Hd. pose proof order_factors_prime as Hl. rewrite Forall_forall in Hl.
    pose proof (Z.prime_ge_2 p (Hl p Hp)).
    assert (H1 : (p | 1)).
    { rewrite <- Hg. apply Z.gcd_greatest; [done|]. by apply order_factor_divides. }
    apply Z.divide_1_r_nonneg in H1; lia.
  - intros Hx. pose proof (Z.gcd_nonneg x (curve_order - 1)) as Hg.
    assert (Hn : 1 < curve_order - 1) by (vm_compute; reflexivity).
    assert (Hne : Z.gcd x (curve_order - 1) <> 0)
      by (intros H0; apply Z.gcd_eq_0_r in H0; lia).
    destruct (decide (1 < Z.gcd x (curve_order - 1))) as [Hgt|]; [|lia].
    destruct (prime_divisor _ Hgt) as (p & Hp & Hd).
    destruct (Hx p).
    + apply order_factors_complete; [done|]. etransitivity; [exact Hd|]. apply Z.gcd_divide_r.
    + etransitivity; [exact Hd|]. apply Z.gcd_divide_l.
Qed.

#[global] Opaque curve_order.
