(* ===== verification/Text.v ===== *)
(** * Text: C++ strings, numerals and bytes

    A [std::string] (and a protobuf [bytes] field) is a list of characters.
    The file defines the standard-library functions the sources use on them
    ([substr], [find], [getline], [strtol], [sscanf "%2hhx"], hexadecimal
    stream output) and the numerals in which GMP and the sources write
    integers, with their round trips. *)

From Stdlib Require Import ZArith Lia Ascii String.
From stdpp Require Import base list sets.
From S2P Require Import Prelude.

Open Scope Z_scope.

Notation str := (list ascii).

(** A string literal. *)
Definition lit (s : string) : str := list_ascii_of_string s.

#[export] Instance ascii_eq_dec : EqDecision ascii := ascii_dec.

(** ** Bytes, most significant first *)

Definition is_byte (b : Z) : Prop := 0 <= b < 256.

(** Conversion to [unsigned char]. *)
Definition to_uchar (z : Z) : Z := z mod 256.

Lemma to_uchar_byte z : is_byte (to_uchar z).
Proof. apply Z.mod_pos_bound. lia. Qed.

Lemma to_uchar_id b : is_byte b -> to_uchar b = b.
Proof. apply Z.mod_small. Qed.

(** ** Positional values *)

(** The value of a list of digits in base [b], and how it splits. *)
Definition pos_val (b : Z) (l : list Z) : Z := foldl (fun a d => a * b + d) 0 l.

Lemma pos_val_acc b l a :
  foldl (fun a d => a * b + d) a l = a * b ^ Z.of_nat (length l) + pos_val b l.
Proof.
  unfold pos_val. revert a. induction l as [|d l IH]; intros a; cbn [foldl length].
  { simpl. lia. }
  rewrite IH, (IH (0 * b + d)). replace (Z.of_nat (S (length l))) with (1 + Z.of_nat (length l)) by lia.
  rewrite Z.pow_add_r by lia. ring.
Qed.

Lemma pos_val_app b l k :
  pos_val b (l ++ k) = pos_val b l * b ^ Z.of_nat (length k) + pos_val b k.
Proof. unfold pos_val at 1. by rewrite foldl_app, pos_val_acc. Qed.

Lemma pos_val_cons b d l : pos_val b (d :: l) = d * b ^ Z.of_nat (length l) + pos_val b l.
Proof. apply (pos_val_app b [d] l). Qed.

Lemma pos_val_snoc b l d : pos_val b (l ++ [d]) = pos_val b l * b + d.
Proof. rewrite pos_val_app. simpl. unfold pos_val at 2. simpl. lia. Qed.

Lemma pos_val_bound b l :
  0 < b -> Forall (fun d => 0 <= d < b) l -> 0 <= pos_val b l < b ^ Z.of_nat (length l).
Proof.
  intros Hb. induction 1 as [|d l Hd Hl IH]; [unfold pos_val; simpl; lia|].
  rewrite pos_val_cons. cbn [length].
  replace (Z.of_nat (S (length l))) with (Z.succ (Z.of_nat (length l))) by lia.
  rewrite Z.pow_succ_r by lia. nia.
Qed.

Lemma map_replicate {A B} (f : A -> B) n x : map f (replicate n x) = replicate n (f x).
Proof. induction n; simpl; by f_equal. Qed.

Lemma pos_val_zeros b n l : pos_val b (replicate n 0 ++ l) = pos_val b l.
Proof.
  rewrite pos_val_app. assert (pos_val b (replicate n 0) = 0) as ->; [|lia].
  induction n as [|n IH]; [done|]. cbn [replicate]. rewrite pos_val_cons. lia.
Qed.

(** The integer that bytes denote, most significant first. *)
Definition be_val (l : list Z) : Z := pos_val 256 l.

Lemma be_val_snoc l b : be_val (l ++ [b]) = be_val l * 256 + b.
Proof. apply pos_val_snoc. Qed.

(** ** Digits *)

Definition digit_char (d : Z) : ascii :=
  if d <? 10 then ascii_of_N (Z.to_N (48 + d)) else ascii_of_N (Z.to_N (87 + d)).

(** Upper-case digits, as ["%02X"] prints them. *)
Definition digit_char_upper (d : Z) : ascii :=
  if d <? 10 then ascii_of_N (Z.to_N (48 + d)) else ascii_of_N (Z.to_N (55 + d)).

Definition char_digit (c : ascii) : option Z :=
  let n := Z.of_N (N_of_ascii c) in
  if (48 <=? n) && (n <=? 57) then Some (n - 48)
  else if (65 <=? n) && (n <=? 70) then Some (n - 55)
  else if (97 <=? n) && (n <=? 102) then Some (n - 87)
  else None.

Definition is_digit (b : Z) (c : ascii) : bool :=
  match char_digit c with Some d => d <? b | None => false end.

Definition dval (c : ascii) : Z := default 0 (char_digit c).

(** The value of a string of digits. *)
Definition digits_val (b : Z) (s : str) : Z := pos_val b (map dval s).

Lemma digits_val_app b s k :
  digits_val b (s ++ k) = digits_val b s * b ^ Z.of_nat (length k) + digits_val b k.
Proof. unfold digits_val. by rewrite map_app, pos_val_app, length_map. Qed.

Definition is_space (c : ascii) : bool :=
  let n := Z.of_N (N_of_ascii c) in (n =? 32) || ((9 <=? n) && (n <=? 13)).

(** Checking a statement about the sixteen digits one by one. *)
Lemma digit_cases (P : Z -> Prop) :
  Forall P [0; 1; 2; 3; 4; 5; 6; 7; 8; 9; 10; 11; 12; 13; 14; 15] ->
  forall d, 0 <= d < 16 -> P d.
Proof.
  intros H d Hd. rewrite Forall_forall in H. apply H.
  assert (d = 0 \/ d = 1 \/ d = 2 \/ d = 3 \/ d = 4 \/ d = 5 \/ d = 6 \/ d = 7 \/ d = 8
    \/ d = 9 \/ d = 10 \/ d = 11 \/ d = 12 \/ d = 13 \/ d = 14 \/ d = 15) by lia.
  set_solver.
Qed.

Lemma char_digit_char d : 0 <= d < 16 -> char_digit (digit_char d) = Some d.
Proof. revert d. apply digit_cases. by repeat constructor. Qed.

Lemma char_digit_char_upper d : 0 <= d < 16 -> char_digit (digit_char_upper d) = Some d.
Proof. revert d. apply digit_cases. by repeat constructor. Qed.

Lemma dval_char d : 0 <= d < 16 -> dval (digit_char d) = d.
Proof. intros. unfold dval. by rewrite char_digit_char. Qed.

Lemma is_digit_char b d : 0 <= d < b -> b <= 16 -> is_digit b (digit_char d) = true.
Proof. intros. unfold is_digit. rewrite char_digit_char by lia. apply Z.ltb_lt. lia. Qed.

Lemma char_digit_range c d : char_digit c = Some d -> 0 <= d < 16.
Proof.
  unfold char_digit. generalize (Z.of_N (N_of_ascii c)). intros n.
  destruct (Z.leb_spec 48 n), (Z.leb_spec n 57), (Z.leb_spec 65 n), (Z.leb_spec n 70),
    (Z.leb_spec 97 n), (Z.leb_spec n 102); intros [=]; lia.
Qed.

Lemma is_digit_dval b c : is_digit b c = true -> 0 <= dval c < b.
Proof.
  unfold is_digit, dval. destruct (char_digit c) as [d|] eqn:Hd; [|done].
  intros Hb%Z.ltb_lt. pose proof (char_digit_range c d Hd). simpl. lia.
Qed.

Lemma digits_val_bound b s :
  0 < b -> Forall (fun c => is_digit b c = true) s ->
  0 <= digits_val b s < b ^ Z.of_nat (length s).
Proof.
  intros Hb Hs. unfold digits_val. rewrite <- (length_map dval s).
  apply pos_val_bound; [done|]. apply Forall_map.
  eapply Forall_impl; [exact Hs|]. intros c. apply is_digit_dval.
Qed.

(** ** Numerals

    [numeral b z]: the digits of [z] in base [b], lower case, without leading
    zeros, with a minus sign when [z] is negative; ["0"] for zero.  The fuel
    is the bit length of the number, which bounds its digits. *)

Fixpoint digits_acc (fuel : nat) (b n : Z) (acc : str) : str :=
  match fuel with
  | O => acc
  | S fuel' =>
      if n =? 0 then acc
      else digits_acc fuel' b (n / b) (digit_char (n mod b) :: acc)
  end.

Definition digits_of (b n : Z) : str := digits_acc (Z.to_nat (Z.log2 n + 1)) b n [].

Definition numeral (b z : Z) : str :=
  if z =? 0 then lit "0"
  else if z <? 0 then lit "-" ++ digits_of b (- z)
  else digits_of b z.

Section Numeral.
Context (b : Z) (Hb : 2 <= b <= 16).

(** What [digits_acc] adds in front of the accumulator. *)
Lemma digits_acc_spec fuel n acc :
  0 <= n < 2 ^ Z.of_nat fuel ->
  exists l, digits_acc fuel b n acc = l ++ acc
    /\ digits_val b l = n
    /\ Forall (fun c => is_digit b c = true) l
    /\ (0 < n -> exists c l', l = c :: l' /\ c <> "0"%char).
Proof.
  revert n acc. induction fuel as [|fuel IH]; intros n acc Hn.
  - exists []. simpl in *. split_and!; [done| |done|lia]. unfold digits_val, pos_val. simpl. lia.
  - cbn [digits_acc]. destruct (Z.eqb_spec n 0) as [->|Hn0].
    { exists []. split_and!; [done|done|done|lia]. }
    pose proof (Z.mod_pos_bound n b ltac:(lia)) as Hm.
    pose proof (Z.div_mod n b ltac:(lia)) as Hdm.
    rewrite Nat2Z.inj_succ, Z.pow_succ_r in Hn by lia.
    assert (Hd : 0 <= n / b < 2 ^ Z.of_nat fuel).
    { split; [apply Z.div_pos; lia|]. apply Z.div_lt_upper_bound; nia. }
    destruct (IH (n / b) (digit_char (n mod b) :: acc) Hd) as (l & Hl & Hv & Hf & Hz).
    exists (l ++ [digit_char (n mod b)]). split_and!.
    + by rewrite Hl, <- app_assoc.
    + unfold digits_val in *. rewrite map_app. simpl. rewrite pos_val_snoc, Hv, dval_char by lia.
      lia.
    + apply Forall_app. split; [done|]. constructor; [|done]. apply is_digit_char; lia.
    + intros _. destruct (decide (n / b = 0)) as [H0|H0].
      * destruct l as [|c l'].
        -- exists (digit_char (n mod b)), []. split; [done|]. intros Hc.
           assert (dval (digit_char (n mod b)) = 0) as Hd0 by (by rewrite Hc).
           rewrite dval_char in Hd0 by lia. rewrite H0 in Hdm. lia.
        -- exfalso. rewrite H0 in Hl.
           assert (forall k, digits_acc fuel b 0 k = k) as Hk by (by destruct fuel).
           rewrite Hk in Hl. apply (f_equal length) in Hl.
           rewrite length_app in Hl. simpl in Hl. lia.
      * destruct Hz as (c & l' & -> & Hc); [lia|]. exists c, (l' ++ [digit_char (n mod b)]).
        by split.
Qed.

Lemma digits_of_spec n :
  0 < n ->
  digits_val b (digits_of b n) = n
  /\ Forall (fun c => is_digit b c = true) (digits_of b n)
  /\ exists c l', digits_of b n = c :: l' /\ c <> "0"%char.
Proof.
  intros Hn. unfold digits_of.
  destruct (digits_acc_spec (Z.to_nat (Z.log2 n + 1)) n []) as (l & Hl & Hv & Hf & Hz).
  { pose proof (Z.log2_nonneg n). pose proof (Z.log2_spec n Hn).
    rewrite Z2Nat.id by lia. unfold Z.succ in *. lia. }
  rewrite app_nil_r in Hl. rewrite Hl. auto.
Qed.

Lemma numeral_nonneg z :
  0 <= z ->
  digits_val b (numeral b z) = z
  /\ Forall (fun c => is_digit b c = true) (numeral b z)
  /\ numeral b z <> [].
Proof.
  intros Hz. unfold numeral. destruct (Z.eqb_spec z 0) as [->|Hz0].
  - split_and!; [done| |done]. constructor; [|done]. unfold is_digit. simpl.
    apply Z.ltb_lt. lia.
  - destruct (Z.ltb_spec z 0); [lia|].
    destruct (digits_of_spec z ltac:(lia)) as (Hv & Hf & c & l & Hc & _).
    split_and!; [done|done|]. by rewrite Hc.
Qed.

(** The number of digits: [z < b ^ n] exactly when [n] digits suffice. *)
Lemma numeral_length z n :
  0 <= z < b ^ n -> 1 <= n -> Z.of_nat (length (numeral b z)) <= n.
Proof.
  intros Hz Hn. unfold numeral. destruct (Z.eqb_spec z 0) as [->|Hz0]; [simpl; lia|].
  destruct (Z.ltb_spec z 0); [lia|].
  destruct (digits_of_spec z ltac:(lia)) as (Hv & Hf & c & l & Hc & Hc0).
  rewrite Hc in *. cbn [length]. unfold digits_val in Hv. cbn [map] in Hv.
  rewrite pos_val_cons, length_map in Hv. apply Forall_cons in Hf as [Hcd Hf].
  pose proof (is_digit_dval b c Hcd) as Hd.
  assert (Hdc : dval c <> 0).
  { unfold is_digit, dval, char_digit in *. intros H0.
    destruct c as [[] [] [] [] [] [] [] []]; simpl in *; try discriminate; try lia. by apply Hc0. }
  pose proof (digits_val_bound b l ltac:(lia) Hf) as Hl. unfold digits_val in Hl.
  destruct (decide (n <= Z.of_nat (length l))) as [Hle|]; [|lia].
  pose proof (Z.pow_le_mono_r b n (Z.of_nat (length l)) ltac:(lia) Hle). nia.
Qed.
End Numeral.

(** ** Standard-library string functions *)

(** [s.substr(pos, n)] throws when [pos > s.size()]; [npos] is [None]. *)
Definition substr (s : str) (pos : Z) (n : option Z) : outcome str :=
  if vec_size s <? pos then Fault StringRange
  else Ok (match n with
           | Some n => take (Z.to_nat n) (drop (Z.to_nat pos) s)
           | None => drop (Z.to_nat pos) s
           end).

Lemma substr_middle a b c :
  substr (a ++ b ++ c) (vec_size a) (Some (vec_size b)) = Ok b.
Proof.
  unfold substr, vec_size. rewrite !length_app.
  destruct (Z.ltb_spec (Z.of_nat (length a + (length b + length c))) (Z.of_nat (length a))); [lia|].
  by rewrite !Nat2Z.id, drop_app_length, take_app_length.
Qed.

Lemma substr_suffix a b : substr (a ++ b) (vec_size a) None = Ok b.
Proof.
  unfold substr, vec_size. rewrite length_app.
  destruct (Z.ltb_spec (Z.of_nat (length a + length b)) (Z.of_nat (length a))); [lia|].
  by rewrite Nat2Z.id, drop_app_length.
Qed.


(** [s.find(c, from)]: the first position at or after [from], if any. *)
Definition find_from (c : ascii) (s : str) (from : Z) : option Z :=
  match list_find (fun x => x = c) (drop (Z.to_nat from) s) with
  | Some (i, _) => Some (from + Z.of_nat i)
  | None => None
  end.

(** The items that [while (getline(ss, item, delim))] reads: a delimiter at
    the very end of the input does not produce a last empty item. *)
Fixpoint getline_items (delim : ascii) (item : str) (s : str) : list str :=
  match s with
  | [] => if decide (item = []) then [] else [rev item]
  | c :: s' =>
      if decide (c = delim) then rev item :: getline_items delim [] s'
      else getline_items delim (c :: item) s'
  end.

Definition getline_all (delim : ascii) (s : str) : list str := getline_items delim [] s.

(** [strtol(s, nullptr, 16)]: blanks, a sign, an optional [0x], digits. *)
Fixpoint skip_spaces (s : str) : str :=
  match s with
  | c :: s' => if is_space c then skip_spaces s' else s
  | [] => []
  end.

Fixpoint digit_prefix (b : Z) (s : str) : str :=
  match s with
  | c :: s' => if is_digit b c then c :: digit_prefix b s' else []
  | [] => []
  end.

Definition strip_sign (s : str) : bool * str :=
  match s with
  | "-"%char :: s' => (true, s')
  | "+"%char :: s' => (false, s')
  | _ => (false, s)
  end.

Definition strip_0x (s : str) : str :=
  match s with
  | "0"%char :: x :: c :: s' =>
      if ((x =? "x")%char || (x =? "X")%char) && is_digit 16 c then c :: s' else s
  | _ => s
  end.

Definition strtol16 (s : str) : Z :=
  let (neg, s') := strip_sign (skip_spaces s) in
  let v := digits_val 16 (digit_prefix 16 (strip_0x s')) in
  if neg then - v else v.

(** [sscanf(s, "%2hhx", &b)]: at most two characters after the blanks; [None]
    when nothing is converted, and then [b] keeps its indeterminate value. *)
Definition sscanf_2hhx (s : str) : option Z :=
  let (neg, s') := strip_sign (take 2 (skip_spaces s)) in
  match digit_prefix 16 s' with
  | [] => None
  | ds => if (length ds =? 1)%nat && (length s' =? 2)%nat &&
             match s' with
             | ["0"%char; x] => (x =? "x")%char || (x =? "X")%char
             | _ => false
             end
          then None
          else Some (to_uchar (if neg then - digits_val 16 ds else digits_val 16 ds))
  end.

(** [oss << hex << setw(2) << setfill('0') << b] and [sprintf("%02X", b)]. *)
Definition hex_byte (b : Z) : str := [digit_char (b / 16); digit_char (b mod 16)].
Definition HEX_byte (b : Z) : str := [digit_char_upper (b / 16); digit_char_upper (b mod 16)].
