(* ===== verification/Group.v ===== *)
(** * Commutative groups up to an equivalence

    The point groups of the curve and the target group of the pairing compare
    with a test ([ECP_equals], ...) and not with equality of representations,
    so the group laws hold up to that test.  [zmul n P] is the multiple
    [n P], the sum of [n] copies. *)

From Stdlib Require Import ZArith Lia Setoid Morphisms.
From stdpp Require Import base list.
From S2P Require Import Prelude ModArith.

Open Scope Z_scope.

Class AbGroup {A : Type} (eqv : relation A) (add : A -> A -> A) (zero : A)
    (neg : A -> A) : Prop := {
  group_equiv :: Equivalence eqv;
  group_add_proper :: Proper (eqv ==> eqv ==> eqv) add;
  group_assoc x y z : eqv (add x (add y z)) (add (add x y) z);
  group_comm x y : eqv (add x y) (add y x);
  group_zero x : eqv (add zero x) x;
  group_neg x : eqv (add (neg x) x) zero;
}.

(** Multiples: [n] copies of [x], and the same for an integer factor. *)
Fixpoint smul {A} (add : A -> A -> A) (zero : A) (n : nat) (x : A) : A :=
  match n with
  | O => zero
  | S n' => add x (smul add zero n' x)
  end.

Definition zmul {A} (add : A -> A -> A) (zero : A) (n : Z) (x : A) : A :=
  smul add zero (Z.to_nat n) x.

Section Group.
Context {A : Type} {eqv : relation A} {add : A -> A -> A} {zero : A} {neg : A -> A}.
Context {G : AbGroup eqv add zero neg}.

Local Infix "==" := eqv (at level 70).
Local Infix "⊕" := add (at level 50, left associativity).

Local Notation smul := (smul add zero).
Local Notation zmul := (zmul add zero).

Lemma group_zero_r x : x ⊕ zero == x.
Proof. rewrite group_comm. apply group_zero. Qed.

Lemma group_cancel x y z : x ⊕ y == x ⊕ z -> y == z.
Proof.
  intros H. rewrite <- (group_zero y), <- (group_zero z), <- (group_neg x).
  rewrite <- !group_assoc. by rewrite H.
Qed.

#[export] Instance smul_proper n : Proper (eqv ==> eqv) (smul n).
Proof.
  intros x y Hxy. induction n as [|n IH]; simpl; [done|].
  by apply group_add_proper.
Qed.

#[export] Instance zmul_proper n : Proper (eqv ==> eqv) (zmul n).
Proof. intros x y Hxy. unfold Group.zmul. by rewrite Hxy. Qed.

Lemma smul_add m n x : smul (m + n) x == smul m x ⊕ smul n x.
Proof.
  induction m as [|m IH]; simpl; [by rewrite group_zero|].
  by rewrite IH, group_assoc.
Qed.

Lemma smul_mul m n x : smul m (smul n x) == smul (m * n) x.
Proof.
  induction m as [|m IH]; [done|].
  change (smul n x ⊕ smul m (smul n x) == smul (S m * n) x).
  rewrite Nat.mul_succ_l, Nat.add_comm, smul_add. by rewrite IH.
Qed.

Lemma smul_distr n x y : smul n (x ⊕ y) == smul n x ⊕ smul n y.
Proof.
  induction n as [|n IH]; simpl; [by rewrite group_zero|].
  rewrite IH, <- !group_assoc. apply group_add_proper; [done|].
  rewrite !group_assoc. apply group_add_proper; [apply group_comm|done].
Qed.

Lemma smul_zero n : smul n zero == zero.
Proof. induction n as [|n IH]; [done|]. simpl. by rewrite group_zero. Qed.

Lemma zmul_0 x : zmul 0 x == zero.
Proof. done. Qed.

Lemma zmul_1 x : zmul 1 x == x.
Proof. unfold Group.zmul. simpl. apply group_zero_r. Qed.

Lemma zmul_add m n x : 0 <= m -> 0 <= n -> zmul (m + n) x == zmul m x ⊕ zmul n x.
Proof. intros. unfold Group.zmul. rewrite Z2Nat.inj_add by done. apply smul_add. Qed.

Lemma zmul_mul m n x : 0 <= m -> 0 <= n -> zmul m (zmul n x) == zmul (m * n) x.
Proof. intros. unfold Group.zmul. rewrite Z2Nat.inj_mul by done. apply smul_mul. Qed.

Lemma zmul_distr n x y : zmul n (x ⊕ y) == zmul n x ⊕ zmul n y.
Proof. apply smul_distr. Qed.

Lemma zmul_zero n : zmul n zero == zero.
Proof. apply smul_zero. Qed.

(** Multiples only depend on the factor modulo an exponent of the point. *)
Lemma zmul_mod q n x : 0 < q -> 0 <= n -> zmul q x == zero -> zmul (n mod q) x == zmul n x.
Proof.
  intros Hq Hn Hx. pose proof (Z.mod_pos_bound n q Hq). pose proof (Z.div_pos n q Hn Hq).
  rewrite (Z.div_mod n q) at 2 by lia. rewrite zmul_add by nia.
  rewrite Z.mul_comm, <- zmul_mul, Hx, zmul_zero by lia. by rewrite group_zero.
Qed.

Lemma zmul_cong q m n x :
  0 < q -> 0 <= m -> 0 <= n -> m ≡[q] n -> zmul q x == zero -> zmul m x == zmul n x.
Proof.
  intros Hq Hm Hn Hmn%cong_mod_eq Hx.
  rewrite <- (zmul_mod q m), <- (zmul_mod q n) by done. by rewrite Hmn.
Qed.

(** In a group of prime exponent a multiple of a point other than zero
    vanishes only when the exponent divides the factor. *)
Lemma zmul_inj q m n x :
  Z.prime q -> 0 <= m -> 0 <= n -> zmul q x == zero -> ~ x == zero ->
  zmul m x == zmul n x -> m ≡[q] n.
Proof.
  intros Hq Hm Hn Hx Hnz Hmn. pose proof (prime_gt_1 q Hq) as Hq1.
  assert (Hd : forall d, 0 <= d -> zmul d x == zero -> d ≡[q] 0).
  { intros d Hd0 Hd. destruct (decide (d mod q = 0)) as [H0|H0]; [by apply unit_nz|].
    destruct Hnz. pose proof (Z.invmod_prime d q Hq H0) as Hinv.
    rewrite <- (zmul_1 x), <- Hinv, zmul_mod; [|lia| |done].
    - rewrite <- zmul_mul, Hd, zmul_zero; [done| |done].
      rewrite <- Z.mod_invmod. apply Z.mod_pos_bound. lia.
    - rewrite <- Z.mod_invmod. apply Z.mul_nonneg_nonneg; [apply Z.mod_pos_bound; lia|done]. }
  assert (Hle : forall a b, 0 <= a <= b -> zmul a x == zmul b x -> a ≡[q] b).
  { intros a b Hab H. symmetry. apply cong_sub_0, Hd; [lia|].
    apply (group_cancel (zmul a x)). rewrite <- zmul_add by lia.
    replace (a + (b - a)) with b by lia. by rewrite group_zero_r. }
  destruct (decide (m <= n)); [by apply Hle|]. symmetry. apply Hle; [lia|by symmetry].
Qed.
End Group.

(** A map that carries sums to sums on a subgroup [P] carries multiples to
    multiples there. *)
Lemma zmul_hom {A B} {eqA : relation A} {addA zeroA negA} {eqB : relation B} {addB zeroB negB}
    `{GA : !AbGroup eqA addA zeroA negA} `{GB : !AbGroup eqB addB zeroB negB}
    (f : A -> B) (P : A -> Prop) x n :
  Proper (eqA ==> eqB) f ->
  (forall y z, P y -> P z -> eqB (f (addA y z)) (addB (f y) (f z))) ->
  P zeroA -> (forall y, P y -> P (addA x y)) -> P x ->
  eqB (f (zmul addA zeroA n x)) (zmul addB zeroB n (f x)).
Proof.
  intros Hf Hadd H0 HP Hx. unfold zmul. generalize (Z.to_nat n). clear n.
  assert (Hs : forall k, P (smul addA zeroA k x)) by (intros k; induction k; simpl; auto).
  intros n. induction n as [|n IH]; simpl.
  - apply (group_cancel (f zeroA)). by rewrite <- Hadd, !group_zero_r.
  - rewrite Hadd by auto. by rewrite IH.
Qed.
