(* ===== verification/Gmp.v ===== *)
(** * The interface of GMP

    GMP is linked, not part of the repository: [GmpOps] lists the functions
    the sources call, [GmpLaws] what the GMP manual documents about them, and
    nothing else is assumed.  [mpz_class] values are integers and its [+],
    [-], [*] are exact; [%] is [mpz_rem] of Prelude. *)

From Stdlib Require Import ZArith Lia Ascii String Zcong.
From stdpp Require Import base list.
From S2P Require Import Prelude ModArith Text.

Open Scope Z_scope.

Class GmpOps : Type := {
  (** [gmp_randstate_t] after [gmp_randinit_default] and [gmp_randseed_ui]. *)
  randstate : Type;
  gmp_randseed_ui : Z -> randstate;
  (** The next number below the bound, and the advanced state. *)
  mpz_urandomm : randstate -> Z -> Z * randstate;
  (** [mpz_powm(rop, base, exp, mod)] for [mod <> 0]. *)
  mpz_powm : Z -> Z -> Z -> Z;
  (** [mpz_invert(rop, a, m)]: previous value of [rop]; (return value is not
      zero, new value of [rop]). *)
  mpz_invert : Z -> Z -> Z -> bool * Z;
  (** [mpz_get_str(base, z)] and [mpz_set_str(s, base)], [None] for -1. *)
  mpz_get_str : Z -> Z -> str;
  mpz_set_str : str -> Z -> option Z;
}.

Class GmpLaws (G : GmpOps) : Prop := {
  urandomm_range s n : 0 < n -> 0 <= fst (mpz_urandomm s n) < n;
  powm_spec b e m : 0 <= b -> 0 <= e -> 0 < m -> mpz_powm b e m = b ^ e mod m;
  (** "If the inverse exists, the return value is non-zero and rop will satisfy
      0 <= rop < |op2|.  If an inverse doesn't exist the return value is zero
      and rop is undefined." *)
  invert_exists r a m : 1 < m -> Z.gcd a m = 1 ->
    exists x, mpz_invert r a m = (true, x) /\ 0 <= x < m /\ (a * x) mod m = 1;
  invert_missing r a m : 1 < m -> Z.gcd a m <> 1 -> fst (mpz_invert r a m) = false;
  get_str_spec b z : b = 10 \/ b = 16 -> mpz_get_str b z = numeral b z;
  (** Digits without blanks or sign; in base 0 a leading zero selects another
      base, so the law covers the other decimal numerals. *)
  set_str_hex s : s <> [] -> Forall (fun c => is_digit 16 c = true) s ->
    mpz_set_str s 16 = Some (digits_val 16 s);
  set_str_dec s : Forall (fun c => is_digit 10 c = true) s ->
    s = lit "0" \/ (exists c s', s = c :: s' /\ c <> "0"%char) ->
    mpz_set_str s 0 = Some (digits_val 10 s);
  set_str_neg s b : s <> [] -> Forall (fun c => is_digit 16 c = true) s ->
    mpz_set_str (lit "-" ++ s) b = Z.opp <$> mpz_set_str s b;
  set_str_empty b : mpz_set_str [] b = None;
}.

Section GmpFacts.
Context `{GL : GmpLaws}.

(** Writing and reading back, in hexadecimal (base 16) and in decimal (read
    with base 0). *)
Lemma set_str_numeral_16 z : mpz_set_str (numeral 16 z) 16 = Some z.
Proof.
  destruct (decide (0 <= z)) as [Hz|Hz].
  - destruct (numeral_nonneg 16 ltac:(lia) z Hz) as (Hv & Hf & Hne).
    rewrite set_str_hex by done. by rewrite Hv.
  - destruct (digits_of_spec 16 ltac:(lia) (- z) ltac:(lia)) as (Hv & Hf & c & l & Hc & _).
    unfold numeral. destruct (Z.eqb_spec z 0); [lia|]. destruct (Z.ltb_spec z 0); [|lia].
    assert (digits_of 16 (- z) <> []) by (by rewrite Hc).
    rewrite set_str_neg, set_str_hex, Hv by done. simpl. f_equal. lia.
Qed.

Lemma digit_10_16 c : is_digit 10 c = true -> is_digit 16 c = true.
Proof.
  unfold is_digit. destruct (char_digit c); [|done]. rewrite !Z.ltb_lt. lia.
Qed.

Lemma set_str_numeral_10 z : mpz_set_str (numeral 10 z) 0 = Some z.
Proof.
  unfold numeral. destruct (Z.eqb_spec z 0) as [->|Hz].
  { rewrite set_str_dec; [done| |by left]. by constructor. }
  assert (Hd : forall n, 0 < n -> mpz_set_str (digits_of 10 n) 0 = Some n).
  { intros n Hn. destruct (digits_of_spec 10 ltac:(lia) n Hn) as (Hv & Hf & Hc).
    rewrite set_str_dec, Hv by (try right; done). done. }
  destruct (Z.ltb_spec z 0); [|apply Hd; lia].
  destruct (digits_of_spec 10 ltac:(lia) (- z) ltac:(lia)) as (Hv & Hf & c & l & Hc & _).
  rewrite set_str_neg; [|by rewrite Hc|].
  - rewrite Hd by lia. simpl. f_equal. lia.
  - eapply Forall_impl; [exact Hf|]. apply digit_10_16.
Qed.

End GmpFacts.
