(* ===== verification/Miracl.v ===== *)
(** * The interface of MIRACL Core

    The library is linked as libs/bls12381.a; the repository holds its
    headers (libsh/miracl), whose comments document each function.
    [BigOps]/[BigLaws] cover the multi-precision integers of
    big_B384_58.h, [HashOps]/[HashLaws] the SHA-256 and random generator of
    core.h, [CurveOps]/[CurveLaws] the groups of ecp_BLS12381.h and
    ecp2_BLS12381.h and the pairing of pair_BLS12381.h. *)

From Stdlib Require Import ZArith Lia Setoid Morphisms.
From stdpp Require Import base list.
From S2P Require Import Prelude ModArith Primality Text Group.

Open Scope Z_scope.

(** ** Multi-precision integers

    A [BIG] is an array of 58-bit limbs; [BIG_val] is the integer it denotes.
    [BIG_copy] and [BIG_rcopy] copy the array, so they need no operation. *)

Class BigOps : Type := {
  BIG : Type;
  BIG_val : BIG -> Z;
  BIG_toBytes : BIG -> list Z;
  BIG_fromBytes : list Z -> BIG;
  BIG_fromBytesLen : list Z -> Z -> BIG;
  BIG_zero : BIG;
  BIG_one : BIG;
  BIG_comp : BIG -> BIG -> Z;
  BIG_mod : BIG -> BIG -> BIG;
  BIG_sdiv : BIG -> BIG -> BIG;
  BIG_modmul : BIG -> BIG -> BIG -> BIG;
  BIG_modneg : BIG -> BIG -> BIG;
  BIG_modadd : BIG -> BIG -> BIG -> BIG;
  CURVE_Order : BIG;
}.

(** [MODBYTES_B384_58], the bytes of a [BIG] (config_big_B384_58.h). *)
Definition MODBYTES : Z := 48.

Class BigLaws (B : BigOps) : Prop := {
  toBytes_spec x : 0 <= BIG_val x < 256 ^ MODBYTES ->
    vec_size (BIG_toBytes x) = MODBYTES /\ Forall is_byte (BIG_toBytes x)
    /\ be_val (BIG_toBytes x) = BIG_val x;
  fromBytes_spec l : vec_size l = MODBYTES -> Forall is_byte l ->
    BIG_val (BIG_fromBytes l) = be_val l;
  fromBytesLen_spec l s : 0 <= s <= MODBYTES -> s <= vec_size l -> Forall is_byte l ->
    BIG_val (BIG_fromBytesLen l s) = be_val (take (Z.to_nat s) l);
  zero_spec : BIG_val BIG_zero = 0;
  one_spec : BIG_val BIG_one = 1;
  comp_spec x y : 0 <= BIG_val x -> 0 <= BIG_val y ->
    BIG_comp x y = Z.sgn (BIG_val x - BIG_val y);
  mod_spec x n : 0 <= BIG_val x -> 0 < BIG_val n ->
    BIG_val (BIG_mod x n) = BIG_val x mod BIG_val n;
  sdiv_spec x n : 0 <= BIG_val x -> 0 < BIG_val n ->
    BIG_val (BIG_sdiv x n) = BIG_val x / BIG_val n;
  modmul_spec y z n : 0 <= BIG_val y -> 0 <= BIG_val z -> 0 < BIG_val n ->
    BIG_val (BIG_modmul y z n) = BIG_val y * BIG_val z mod BIG_val n;
  modneg_spec y n : 0 <= BIG_val y -> 0 < BIG_val n ->
    0 <= BIG_val (BIG_modneg y n) <= BIG_val n
    /\ BIG_val (BIG_modneg y n) ≡[BIG_val n] - BIG_val y;
  modadd_spec y z n : 0 <= BIG_val y -> 0 <= BIG_val z -> 0 < BIG_val n ->
    BIG_val (BIG_modadd y z n) = (BIG_val y + BIG_val z) mod BIG_val n;
  order_spec : BIG_val CURVE_Order = curve_order;
}.

(** ** Hashing and the byte-seeded generator *)

Class HashOps {B : BigOps} : Type := {
  hash256 : Type;
  HASH256_init : hash256;
  HASH256_process : hash256 -> Z -> hash256;
  HASH256_hash : hash256 -> list Z;
  csprng : Type;
  CREATE_CSPRNG : list Z -> csprng;
  BIG_randtrunc : BIG -> Z -> csprng -> BIG * csprng;
}.

Class HashLaws {B : BigOps} (H : HashOps) : Prop := {
  hash_bytes h : length (HASH256_hash h) = 32%nat /\ Forall is_byte (HASH256_hash h);
  randtrunc_range n t r : 0 < BIG_val n -> 0 <= t ->
    0 <= BIG_val (fst (BIG_randtrunc n t r)) < Z.min (BIG_val n) (2 ^ t);
}.

(** ** Groups and pairing

    Points and pairing values are compared with the library's tests. *)

Class CurveOps {B : BigOps} : Type := {
  ECP : Type;
  ECP_equals : ECP -> ECP -> bool;
  ECP_isinf : ECP -> bool;
  ECP_inf : ECP;
  ECP_neg : ECP -> ECP;
  ECP_add : ECP -> ECP -> ECP;
  ECP_mul : ECP -> BIG -> ECP;
  ECP_generator : ECP;
  (** [ECP_get(x, y, &P)]: the sign of [y], or -1 at infinity, and [x], [y];
      [ECP_set(&P, x, y)]: 1 or 0, and the point. *)
  ECP_get : ECP -> Z * BIG * BIG;
  ECP_set : BIG -> BIG -> Z * ECP;
  ECP2 : Type;
  ECP2_equals : ECP2 -> ECP2 -> bool;
  ECP2_inf : ECP2;
  ECP2_neg : ECP2 -> ECP2;
  ECP2_add : ECP2 -> ECP2 -> ECP2;
  ECP2_mul : ECP2 -> BIG -> ECP2;
  ECP2_generator : ECP2;
  (** The bytes written to the octet; return value and point read from it. *)
  ECP2_toOctet : ECP2 -> bool -> list Z;
  ECP2_fromOctet : list Z -> Z * ECP2;
  FP12 : Type;
  FP12_equals : FP12 -> FP12 -> bool;
  FP12_isunity : FP12 -> bool;
  FP12_iszilch : FP12 -> bool;
  FP12_one : FP12;
  FP12_inv : FP12 -> FP12;
  FP12_mul : FP12 -> FP12 -> FP12;
  FP12_reduce : FP12 -> FP12;
  FP12_toOctet : FP12 -> list Z;
  FP12_fromOctet : list Z -> FP12;
  (** Miller loop and final exponentiation. *)
  PAIR_ate : ECP2 -> ECP -> FP12;
  PAIR_fexp : FP12 -> FP12;
}.

Section Curve.
Context `{C : CurveOps}.

Definition ecp_eq (P Q : ECP) : Prop := ECP_equals P Q = true.
Definition ecp2_eq (P Q : ECP2) : Prop := ECP2_equals P Q = true.
Definition fp12_eq (x y : FP12) : Prop := FP12_equals x y = true.

(** Multiples of points, powers of pairing values. *)
Definition mul1 (n : Z) (P : ECP) : ECP := zmul ECP_add ECP_inf n P.
Definition mul2 (n : Z) (P : ECP2) : ECP2 := zmul ECP2_add ECP2_inf n P.
Definition powt (n : Z) (x : FP12) : FP12 := zmul FP12_mul FP12_one n x.

(** The subgroups that the generators span: [G1] and [G2]. *)
Definition in_G1 (P : ECP) : Prop := exists n, 0 <= n /\ ecp_eq P (mul1 n ECP_generator).
Definition in_G2 (P : ECP2) : Prop := exists n, 0 <= n /\ ecp2_eq P (mul2 n ECP2_generator).

(** The pairing, as Tools.cpp composes it. *)
Definition pair (P : ECP) (Q : ECP2) : FP12 := FP12_reduce (PAIR_fexp (PAIR_ate Q P)).
End Curve.

Declare Scope curve_scope.
Infix "=1=" := ecp_eq (at level 70) : curve_scope.
Infix "=2=" := ecp2_eq (at level 70) : curve_scope.
Infix "=t=" := fp12_eq (at level 70) : curve_scope.
Open Scope curve_scope.

Class CurveLaws {B : BigOps} (C : CurveOps) : Prop := {
  ecp_group :: AbGroup ecp_eq ECP_add ECP_inf ECP_neg;
  ecp2_group :: AbGroup ecp2_eq ECP2_add ECP2_inf ECP2_neg;
  fp12_group :: AbGroup fp12_eq FP12_mul FP12_one FP12_inv;
  ECP_mul_spec P b : 0 <= BIG_val b < 256 ^ MODBYTES -> ECP_mul P b =1= mul1 (BIG_val b) P;
  ECP2_mul_spec P b : 0 <= BIG_val b < 256 ^ MODBYTES -> ECP2_mul P b =2= mul2 (BIG_val b) P;
  ECP_mul_proper b :: Proper (ecp_eq ==> ecp_eq) (fun P => ECP_mul P b);
  G1_order : mul1 curve_order ECP_generator =1= ECP_inf;
  G2_order : mul2 curve_order ECP2_generator =2= ECP2_inf;
  (** Bilinearity on [G1] and [G2], and non-degeneracy at the generators. *)
  pair_proper :: Proper (ecp_eq ==> ecp2_eq ==> fp12_eq) pair;
  pair_add_l P P' Q : in_G1 P -> in_G1 P' -> in_G2 Q ->
    pair (ECP_add P P') Q =t= FP12_mul (pair P Q) (pair P' Q);
  pair_add_r P Q Q' : in_G1 P -> in_G2 Q -> in_G2 Q' ->
    pair P (ECP2_add Q Q') =t= FP12_mul (pair P Q) (pair P Q');
  pair_nondegenerate : ~ pair ECP_generator ECP2_generator =t= FP12_one;
  (** Coordinates of a finite point determine it. *)
  ECP_isinf_spec P : ECP_isinf P = true <-> P =1= ECP_inf;
  ECP_get_set P s x y x' y' : ECP_isinf P = false -> ECP_get P = (s, x, y) ->
    0 <= BIG_val x < 256 ^ MODBYTES /\ 0 <= BIG_val y < 256 ^ MODBYTES
    /\ (BIG_val x' = BIG_val x -> BIG_val y' = BIG_val y ->
        fst (ECP_set x' y') = 1 /\ snd (ECP_set x' y') =1= P);
  (** Octets of a finite point of the twist (one byte and the coordinates, or
      only the first one when compressed), and of a pairing value. *)
  ECP2_octet P c : ~ P =2= ECP2_inf ->
    Forall is_byte (ECP2_toOctet P c)
    /\ ECP2_toOctet P c <> [] /\ vec_size (ECP2_toOctet P c) <= (if c then 2 else 4) * MODBYTES + 1
    /\ fst (ECP2_fromOctet (ECP2_toOctet P c)) = 1
    /\ snd (ECP2_fromOctet (ECP2_toOctet P c)) =2= P;
  FP12_octet x : Forall is_byte (FP12_toOctet x) /\ vec_size (FP12_toOctet x) <= 12 * MODBYTES
    /\ FP12_fromOctet (FP12_toOctet x) =t= x;
}.
