(* ===== verification/Tools.v ===== *)
(** * Tools.cpp: conversions, randomness, hashing, pairing

    One definition per function of src/Tools/Tools.cpp.  Functions that only
    compute return an [outcome]; those that draw random numbers, read the
    clock or print run in the store [World]. *)

From Stdlib Require Import ZArith Lia Ascii String Setoid Morphisms.
From stdpp Require Import base list.
From S2P Require Import Prelude ModArith Primality Text Group Gmp Miracl.

Open Scope Z_scope.

(** ** The store

    The [gmp_randstate_t] globals of the program, [None] before their first
    [initState]; how often the clock was read; what was printed. *)

Inductive rng_var : Type :=
| state_gmp | state_TA | state_UAV | state_Agg | state_ver.

#[export] Instance rng_var_eq_dec : EqDecision rng_var.
Proof. solve_decision. Defined.

(** What the [k]-th reading of the clocks returns. *)
Class ClockOps : Type := {
  clock_ns : nat -> Z;   (** [high_resolution_clock::now()], in nanoseconds *)
  clock_s : nat -> Z;    (** [time()], in seconds *)
}.

Record World `{GmpOps} : Type := mkWorld {
  w_rng : rng_var -> option randstate;
  w_tick : nat;
  w_out : list str;
}.

Definition set_rng `{GmpOps} (v : rng_var) (s : randstate) (w : World) : World :=
  mkWorld _ (fun v' => if decide (v' = v) then Some s else w_rng w v') (w_tick w) (w_out w).

Definition prog `{GmpOps} : Type -> Type := stm World.

Section Tools.
Context `{G : GmpOps} `{B : BigOps} `{!HashOps} `{!CurveOps} `{!ClockOps}.

Definition print (s : str) : prog unit := fun w =>
  Ok (tt, mkWorld _ (w_rng w) (w_tick w) (w_out w ++ [s])).

(** ** Random numbers *)

(** The 100 bytes that seed the generator: the low bytes of the time, then
    the positions. *)
Definition seed_bytes (ran : Z) : list Z :=
  [to_uchar ran; to_uchar (Z.shiftr ran 8); to_uchar (Z.shiftr ran 16);
   to_uchar (Z.shiftr ran 24)] ++ map Z.of_nat (seq 4 96).

Definition initRNG : prog csprng := fun w =>
  Ok (CREATE_CSPRNG (seed_bytes (clock_s (w_tick w))),
      mkWorld _ (w_rng w) (S (w_tick w)) (w_out w)).

(** [CURVE_SECURITY_BLS12381] of config_curve_BLS12381.h. *)
Definition CURVE_SECURITY : Z := 128.

Definition randBig (rng : csprng) : BIG * csprng :=
  BIG_randtrunc CURVE_Order (2 * CURVE_SECURITY) rng.

Definition randECP (rng : csprng) : ECP * csprng :=
  let (r, rng') := randBig rng in (ECP_mul ECP_generator r, rng').

Definition randECP2 (rng : csprng) : ECP2 * csprng :=
  let (r, rng') := randBig rng in (ECP2_mul ECP2_generator r, rng').

(** [count()] is converted to [unsigned long]. *)
Definition initState (v : rng_var) : prog unit := fun w =>
  Ok (tt, mkWorld _ (w_rng (set_rng v (gmp_randseed_ui (clock_ns (w_tick w) mod 2 ^ 64)) w))
            (S (w_tick w)) (w_out w)).

Definition max_value : Z :=
  0x73EDA753299D7D483339D80809A1D80553BDA402FFFE5BFEFFFFFFFF00000001.

Definition rand_mpz (v : rng_var) : prog Z := fun w =>
  match w_rng w v with
  | None => Fault Uninitialised
  | Some s =>
      let (res, s') := mpz_urandomm s max_value in
      Ok (res + 1, set_rng v s' w)
  end.

(** ** Integers *)

Definition pow_mpz (base exp mod_ : Z) : outcome Z :=
  if mod_ =? 0 then Fault DivByZero else Ok (mpz_powm base exp mod_).

Definition invert_mpz (a m : Z) : Z := snd (mpz_invert 0 a m).

(** ** Conversions between byte arrays, numerals and [BIG] *)

Definition charsToString (ch : list Z) : outcome str :=
  for_ 48 (fun i oss => c ← vec_at ch i; mret (oss ++ hex_byte (to_uchar c))) [].

Definition BIG_to_mpz (big : BIG) : outcome Z :=
  s ← charsToString (BIG_toBytes big);
  mret (default 0 (mpz_set_str s 16)).

(** [s.insert(0, n - s.length(), '0')] when [s] is shorter than [n]. *)
Definition pad_zeros (n : Z) (s : str) : str :=
  if vec_size s <? n then replicate (Z.to_nat (n - vec_size s)) "0"%char ++ s else s.

(** The loop that turns [n] pairs of characters into [n] bytes. *)
Definition read_pairs (n : Z) (conv : str -> outcome Z) (s : str) : outcome (list Z) :=
  for_ n (fun i ch =>
    byteStr ← substr s (2 * i) (Some 2);
    b ← conv byteStr;
    mret (ch ++ [b])) [].

Definition mpz_to_BIG (t : Z) : outcome BIG :=
  let hexStr := pad_zeros 64 (mpz_get_str 16 t) in
  ch ← read_pairs 32 (fun byteStr => Ok (to_uchar (strtol16 byteStr))) hexStr;
  mret (BIG_fromBytesLen ch 32).

(** A byte that [sscanf] does not set keeps an indeterminate value. *)
Definition scan_byte (byteStr : str) : outcome Z :=
  match sscanf_2hhx byteStr with
  | Some b => Ok b
  | None => Fault Uninitialised
  end.

Definition str_to_BIG (hex_string : str) : outcome BIG :=
  byte_array ← read_pairs 48 scan_byte (pad_zeros 96 hex_string);
  mret (BIG_fromBytes byte_array).

(** ** Scalar multiplication by an [mpz_class] *)

Definition ECP_mul_mpz (P1 : ECP) (t : Z) : outcome ECP :=
  t1 ← mpz_to_BIG t; mret (ECP_mul P1 t1).

Definition ECP2_mul_mpz (P2 : ECP2) (t : Z) : outcome ECP2 :=
  t1 ← mpz_to_BIG t; mret (ECP2_mul P2 t1).

(** ** Hashing *)

(** [hashstr] is 48 zero bytes whose first 32 the hash overwrites. *)
Definition hashZp256 (ct : list Z) (max : Z) (q : BIG) : outcome BIG :=
  h ← for_ max (fun j h => b ← vec_at ct j; mret (HASH256_process h b)) HASH256_init;
  let digest := HASH256_hash h in
  let hashstr := digest ++ drop (length digest) (replicate 48 0) in
  mret (BIG_mod (BIG_fromBytesLen hashstr 48) q).

Definition hashToZp256_BIG (beHashed q : BIG) : outcome BIG :=
  hashZp256 (BIG_toBytes beHashed) 48 q.

Definition hashToZp256 (beHashed q : Z) : outcome Z :=
  _ ← mpz_to_BIG 0;
  beHashed_b ← mpz_to_BIG beHashed;
  module_b ← mpz_to_BIG q;
  res_b ← hashToZp256_BIG beHashed_b module_b;
  BIG_to_mpz res_b.

Definition hashToPoint_BIG (big q : BIG) : outcome ECP :=
  hash ← hashToZp256_BIG big q;
  mret (ECP_mul ECP_generator hash).

Definition hashToPoint (big q : Z) : outcome ECP :=
  tb ← mpz_to_BIG big;
  tq ← mpz_to_BIG q;
  hashToPoint_BIG tb tq.

(** ** The pairing *)

Definition e (P1 : ECP) (P2 : ECP2) : prog FP12 :=
  let temp1 := pair P1 P2 in
  (if FP12_isunity temp1 || FP12_iszilch temp1
   then print (lit "pairing error [temp1]") else mret tt) ≫= fun _ =>
  mret temp1.

(** ** The extended Euclid loop on [BIG]

    One iteration of the loop body on (a_back, module, x0, x1); the fuel
    bounds the iterations. *)

Definition BIG_inv_step (m0 a_back module_ x0 x1 : BIG) : BIG * BIG * BIG * BIG :=
  let q := BIG_sdiv a_back module_ in
  let a_back' := module_ in
  let module' := BIG_mod a_back module_ in
  let x0' := BIG_modadd (BIG_modneg (BIG_modmul q x0 m0) m0) x1 m0 in
  let x1' := x0 in
  (a_back', module', x0', x1').

Fixpoint BIG_inv_loop (fuel : nat) (m0 a_back module_ x0 x1 : BIG) : outcome BIG :=
  if 0 <? BIG_comp a_back BIG_one then
    match fuel with
    | O => Diverge
    | S fuel' =>
        let '(a', m', x0', x1') := BIG_inv_step m0 a_back module_ x0 x1 in
        BIG_inv_loop fuel' m0 a' m' x0' x1'
    end
  else Ok x1.

Definition BIG_inv (fuel : nat) (a m : BIG) : outcome BIG :=
  BIG_inv_loop fuel m a m BIG_zero BIG_one.

(** ** Console output *)

Definition newline : ascii := ascii_of_nat 10.

Definition show_mpz (mpz : Z) : prog unit := print (mpz_get_str 16 mpz ++ [newline]).

Definition rule : str := replicate 50 "-"%char.
Definition tab : ascii := ascii_of_nat 9.

Definition printLine (text : str) : prog unit :=
  print (rule ++ [tab; " "%char] ++ text ++ [" "%char; tab] ++ rule ++ [newline]).
End Tools.

(** * Properties *)

Section StringFacts.

Lemma pad_zeros_spec b n s :
  Forall (fun c => is_digit b c = true) s -> 0 < b -> vec_size s <= n ->
  Forall (fun c => is_digit b c = true) (pad_zeros n s)
  /\ vec_size (pad_zeros n s) = n /\ digits_val b (pad_zeros n s) = digits_val b s.
Proof.
  intros Hs Hb Hn. unfold pad_zeros, vec_size in *.
  destruct (Z.ltb_spec (Z.of_nat (length s)) n); [|by split_and!; [| lia|]].
  split_and!.
  - apply Forall_app. split; [|done]. apply Forall_replicate. by apply Z.ltb_lt.
  - rewrite length_app, length_replicate. lia.
  - unfold digits_val. rewrite map_app, map_replicate. apply pos_val_zeros.
Qed.

Lemma pad_zeros_long n s : n <= vec_size s -> pad_zeros n s = s.
Proof. intros. unfold pad_zeros. by destruct (Z.ltb_spec (vec_size s) n); [lia|]. Qed.

(** Two hexadecimal digits read as one byte, by both conversions. *)
Lemma hex_digit_not_special c :
  is_digit 16 c = true ->
  is_space c = false /\ c <> "-"%char /\ c <> "+"%char /\ c <> "x"%char /\ c <> "X"%char.
Proof.
  destruct c as [[] [] [] [] [] [] [] []]; intros H; vm_compute in H; try discriminate H;
    split_and!; done.
Qed.

Lemma two_digits_byte c1 c2 :
  is_digit 16 c1 = true -> is_digit 16 c2 = true -> is_byte (digits_val 16 [c1; c2]).
Proof.
  intros H1 H2. apply (digits_val_bound 16 [c1; c2]); [lia|]. by repeat constructor.
Qed.

Lemma strip_sign_digit c s : is_digit 16 c = true -> strip_sign (c :: s) = (false, c :: s).
Proof.
  intros (_ & H1 & H2 & _)%hex_digit_not_special. unfold strip_sign.
  destruct c as [[] [] [] [] [] [] [] []]; done.
Qed.

Lemma strtol16_pair c1 c2 :
  is_digit 16 c1 = true -> is_digit 16 c2 = true -> strtol16 [c1; c2] = digits_val 16 [c1; c2].
Proof.
  intros H1 H2. destruct (hex_digit_not_special c1 H1) as (Hs & _).
  unfold strtol16. simpl skip_spaces. rewrite Hs, strip_sign_digit by done.
  assert (strip_0x [c1; c2] = [c1; c2]) as ->.
  { unfold strip_0x. by destruct c1 as [[] [] [] [] [] [] [] []]. }
  simpl. by rewrite H1, H2.
Qed.

Lemma scan_byte_pair c1 c2 :
  is_digit 16 c1 = true -> is_digit 16 c2 = true ->
  scan_byte [c1; c2] = Ok (digits_val 16 [c1; c2]).
Proof.
  intros H1 H2. destruct (hex_digit_not_special c1 H1) as (Hs & _).
  unfold scan_byte, sscanf_2hhx. simpl skip_spaces. rewrite Hs.
  change (take 2 [c1; c2]) with [c1; c2]. rewrite strip_sign_digit by done.
  simpl digit_prefix. rewrite H1, H2. simpl. f_equal.
  apply to_uchar_id. by apply two_digits_byte.
Qed.

Lemma read_pairs_spec n conv s :
  (forall c1 c2, is_digit 16 c1 = true -> is_digit 16 c2 = true ->
     conv [c1; c2] = Ok (digits_val 16 [c1; c2])) ->
  Forall (fun c => is_digit 16 c = true) s -> 0 <= n -> 2 * n <= vec_size s ->
  read_pairs n conv s ⇓ fun l =>
    vec_size l = n /\ Forall is_byte l
    /\ be_val l = digits_val 16 (take (Z.to_nat (2 * n)) s).
Proof.
  intros Hconv Hs Hn Hlen. unfold read_pairs.
  apply (for_inv (fun i l => vec_size l = i /\ Forall is_byte l
    /\ be_val l = digits_val 16 (take (Z.to_nat (2 * i)) s))); [done| |  |done].
  { by split_and!. }
  intros i l Hi (Hl & Hb & Hv). unfold vec_size in *.
  destruct (lookup_lt_is_Some_2 s (Z.to_nat (2 * i))) as [c1 Hc1]; [lia|].
  destruct (lookup_lt_is_Some_2 s (S (Z.to_nat (2 * i)))) as [c2 Hc2]; [lia|].
  assert (Hd : drop (Z.to_nat (2 * i)) s = c1 :: c2 :: drop (S (S (Z.to_nat (2 * i)))) s)
    by (by rewrite (drop_S s c1), (drop_S s c2)).
  assert (is_digit 16 c1 = true /\ is_digit 16 c2 = true) as [H1 H2].
  { rewrite Forall_forall in Hs. split; apply Hs; by eapply list_elem_of_lookup_2. }
  unfold substr, vec_size. destruct (Z.ltb_spec (Z.of_nat (length s)) (2 * i)); [lia|].
  step. simpl. change (Z.to_nat 2) with 2%nat. rewrite Hd. cbn [take firstn].
  step. rewrite Hconv by done. simpl. split_and!.
  - rewrite length_app. simpl. lia.
  - apply Forall_app. split; [done|]. constructor; [by apply two_digits_byte|done].
  - replace (Z.to_nat (2 * (i + 1))) with (Z.to_nat (2 * i) + 2)%nat by lia.
    rewrite <- take_take_drop, Hd. cbn [take firstn].
    rewrite be_val_snoc, digits_val_app, Hv.
    by change (16 ^ Z.of_nat (length [c1; c2])) with 256.
Qed.
End StringFacts.

(** ** Conversions *)

Section ConversionFacts.
Context `{GL : GmpLaws} `{BL : BigLaws}.

Lemma big_256 : 2 ^ 256 <= 256 ^ MODBYTES.
Proof. vm_compute. discriminate. Qed.

(** What [mpz_to_BIG] computes in general: of a numeral longer than 64 digits
    only the leading 64 count. *)
Lemma mpz_to_BIG_leading t :
  0 <= t ->
  mpz_to_BIG t ⇓ fun b =>
    BIG_val b = digits_val 16 (take 64 (pad_zeros 64 (numeral 16 t))).
Proof.
  intros Ht. unfold mpz_to_BIG. rewrite get_str_spec by auto.
  destruct (numeral_nonneg 16 ltac:(lia) t Ht) as (Hv & Hf & _).
  assert (Forall (fun c => is_digit 16 c = true) (pad_zeros 64 (numeral 16 t))
          /\ 64 <= vec_size (pad_zeros 64 (numeral 16 t))) as [Hd Hlen].
  { destruct (decide (vec_size (numeral 16 t) <= 64)).
    - destruct (pad_zeros_spec 16 64 (numeral 16 t)) as (? & -> & _); [done|lia|done|].
      by split; [|lia].
    - rewrite pad_zeros_long by lia. split; [done|lia]. }
  step. eapply returns_mono; [apply read_pairs_spec; [|done|lia|lia]|].
  { intros c1 c2 H1 H2. rewrite strtol16_pair by done. f_equal.
    by apply to_uchar_id, two_digits_byte. }
  intros l (Hl & Hb & Hval). apply returns_ret.
  rewrite fromBytesLen_spec by (done || unfold MODBYTES; lia).
  rewrite take_ge by (unfold vec_size in Hl; lia). by rewrite Hval.
Qed.

(** Any value of at most 256 bits survives. *)
Lemma mpz_to_BIG_spec t : 0 <= t < 2 ^ 256 -> mpz_to_BIG t ⇓ fun b => BIG_val b = t.
Proof.
  intros Ht. eapply returns_mono; [apply mpz_to_BIG_leading; lia|].
  intros b ->. destruct (numeral_nonneg 16 ltac:(lia) t ltac:(lia)) as (Hv & Hf & _).
  pose proof (numeral_length 16 ltac:(lia) t 64 ltac:(lia) ltac:(lia)) as Hlen.
  destruct (pad_zeros_spec 16 64 (numeral 16 t)) as (_ & Hsz & Hval); [done|lia|done|].
  rewrite take_ge by (unfold vec_size in Hsz; lia). by rewrite Hval.
Qed.

(** A longer value loses its low-order digits. *)
Lemma mpz_to_BIG_truncates t d :
  2 ^ 252 <= t < 2 ^ 256 -> 0 <= d < 16 ->
  mpz_to_BIG (16 * t + d) ⇓ fun b => BIG_val b = t.
Proof.
  intros Ht Hd. eapply returns_mono; [apply mpz_to_BIG_leading; lia|]. intros b ->.
  set (n := 16 * t + d).
  destruct (digits_of_spec 16 ltac:(lia) n ltac:(lia)) as (Hv & Hf & c & l & Hc & Hc0).
  assert (Hnum : numeral 16 n = digits_of 16 n).
  { unfold numeral. destruct (Z.eqb_spec n 0); [lia|]. by destruct (Z.ltb_spec n 0); [lia|]. }
  rewrite Hnum in *. set (s := digits_of 16 n) in *.
  assert (Hlen : length s = 65%nat).
  { pose proof (numeral_length 16 ltac:(lia) n 65 ltac:(lia) ltac:(lia)) as Hle.
    rewrite Hnum in Hle. pose proof (digits_val_bound 16 s ltac:(lia) Hf) as Hb.
    rewrite Hv in Hb. destruct (decide (length s <= 64)%nat); [|lia].
    assert (16 ^ Z.of_nat (length s) <= 16 ^ 64) by (apply Z.pow_le_mono_r; lia). lia. }
  rewrite pad_zeros_long by (unfold vec_size; lia).
  assert (Hsplit : exists c', s = take 64 s ++ [c'] /\ 0 <= dval c' < 16).
  { destruct (lookup_lt_is_Some_2 s 64) as [c' Hc']; [lia|]. exists c'. split.
    - rewrite <- (take_drop 64 s) at 1. f_equal. rewrite (drop_S s c') by done.
      f_equal. apply nil_length_inv. rewrite length_drop. lia.
    - apply is_digit_dval. rewrite Forall_forall in Hf. apply Hf.
      by eapply list_elem_of_lookup_2. }
  destruct Hsplit as (c' & Hs & Hc'). rewrite Hs, digits_val_app in Hv.
  change (16 ^ Z.of_nat (length [c'])) with 16 in Hv.
  change (digits_val 16 [c']) with (0 * 16 + dval c') in Hv. lia.
Qed.

Lemma charsToString_spec ch :
  vec_size ch = 48 -> Forall is_byte ch ->
  charsToString ch ⇓ fun s =>
    vec_size s = 96 /\ Forall (fun c => is_digit 16 c = true) s /\ digits_val 16 s = be_val ch.
Proof.
  intros Hlen Hb. unfold charsToString.
  apply (for_inv (fun i s => vec_size s = 2 * i /\ Forall (fun c => is_digit 16 c = true) s
    /\ digits_val 16 s = be_val (take (Z.to_nat i) ch))); [lia|done| |].
  - intros i s Hi (Hs & Hd & Hv). step. apply returns_vec_at; [lia|]. intros b Hbi. step.
    assert (Hbb : is_byte b).
    { rewrite Forall_forall in Hb. apply Hb. by eapply list_elem_of_lookup_2. }
    rewrite to_uchar_id by done. unfold is_byte in Hbb. unfold hex_byte, vec_size in *.
    assert (0 <= b / 16 < 16)
      by (split; [apply Z.div_pos; lia|apply Z.div_lt_upper_bound; lia]).
    pose proof (Z.mod_pos_bound b 16 ltac:(lia)).
    split_and!.
    + rewrite length_app. simpl. lia.
    + apply Forall_app. split; [done|]. repeat constructor; apply is_digit_char; lia.
    + replace (Z.to_nat (i + 1)) with (S (Z.to_nat i)) by lia.
      rewrite (take_S_r _ _ b) by done. rewrite be_val_snoc, <- Hv, digits_val_app.
      change (16 ^ Z.of_nat _) with 256. f_equal.
      unfold digits_val, pos_val. simpl. rewrite !dval_char by lia.
      pose proof (Z.div_mod b 16). lia.
  - intros s (Hs & Hd & Hv). split_and!; [lia|done|]. rewrite Hv, take_ge; [done|].
    unfold vec_size in Hlen. lia.
Qed.

Lemma BIG_to_mpz_spec b :
  0 <= BIG_val b < 256 ^ MODBYTES -> BIG_to_mpz b ⇓ fun t => t = BIG_val b.
Proof.
  intros Hb. destruct (toBytes_spec b Hb) as (Hl & Hf & Hv).
  unfold BIG_to_mpz. step. eapply returns_mono; [by apply charsToString_spec|].
  intros s (Hs & Hd & Hval). step. rewrite set_str_hex; [simpl; congruence| |done].
  intros ->. done.
Qed.

(** A hexadecimal string of at most 96 digits denotes the [BIG] it spells. *)
Lemma str_to_BIG_spec s :
  Forall (fun c => is_digit 16 c = true) s -> vec_size s <= 96 ->
  str_to_BIG s ⇓ fun b => BIG_val b = digits_val 16 s.
Proof.
  intros Hs Hlen. destruct (pad_zeros_spec 16 96 s) as (Hd & Hsz & Hv); [done|lia|done|].
  unfold str_to_BIG. step.
  eapply returns_mono; [apply read_pairs_spec; [apply scan_byte_pair|done|lia|lia]|].
  intros l (Hl & Hb & Hval). step. rewrite fromBytes_spec by done.
  rewrite Hval, take_ge, Hv; [done|]. unfold vec_size in Hsz. lia.
Qed.
End ConversionFacts.

(** ** Random numbers and modular arithmetic *)

Section ArithmeticFacts.
Context `{GL : GmpLaws} `{!ClockOps}.

Lemma max_value_order : max_value = curve_order.
Proof. reflexivity. Qed.

(** A draw is in [1, q], the order included. *)
Lemma rand_mpz_spec v s (w : World) :
  w_rng w v = Some s ->
  rand_mpz v @ w ⇓ fun r w' =>
    1 <= r <= curve_order /\ w' = set_rng v (snd (mpz_urandomm s max_value)) w.
Proof.
  intros Hs. unfold runs, rand_mpz. rewrite Hs.
  pose proof (urandomm_range s max_value) as Hr. rewrite max_value_order in *.
  destruct (mpz_urandomm s curve_order) as [r s']. simpl in *.
  pose proof (prime_gt_1 _ curve_order_prime). split; [lia|done].
Qed.

Lemma rand_mpz_uninitialised v (w : World) :
  w_rng w v = None -> rand_mpz v w = Fault Uninitialised.
Proof. intros Hs. unfold rand_mpz. by rewrite Hs. Qed.

Lemma set_rng_same v s (w : World) : w_rng (set_rng v s w) v = Some s.
Proof. simpl. by rewrite decide_True. Qed.

Lemma pow_mpz_spec b e m :
  0 <= b -> 0 <= e -> 0 < m -> pow_mpz b e m = Ok (b ^ e mod m).
Proof.
  intros. unfold pow_mpz. destruct (Z.eqb_spec m 0); [lia|]. by rewrite powm_spec.
Qed.

Lemma returns_pow b e m (Q : Z -> Prop) :
  0 <= b -> 0 <= e -> 0 < m -> Q (b ^ e mod m) -> pow_mpz b e m ⇓ Q.
Proof. intros. by rewrite pow_mpz_spec. Qed.

Lemma invert_mpz_spec a m :
  1 < m -> Z.gcd a m = 1 -> 0 <= invert_mpz a m < m /\ a * invert_mpz a m ≡[m] 1.
Proof.
  intros Hm Hg. unfold invert_mpz. destruct (invert_exists 0 a m Hm Hg) as (x & -> & Hx & H1).
  cbn [snd]. split; [done|]. rewrite cong_mod_eq, H1. by rewrite Z.mod_1_l.
Qed.
End ArithmeticFacts.

(** ** Hashing *)

Section HashFacts.
Context `{GL : GmpLaws} `{BL : BigLaws} `{HL : !HashLaws HO}.

Lemma hash_loop_ok ct max :
  0 <= max <= vec_size ct ->
  for_ max (fun j h => b ← vec_at ct j; mret (HASH256_process h b)) HASH256_init ⇓
    fun _ => True.
Proof.
  intros Hmax. apply (for_inv (fun _ _ => True)); [lia|done| |done].
  intros j h Hj _. step. apply returns_vec_at; [lia|]. done.
Qed.

(** The hash of a [BIG] is reduced modulo [q]. *)
Lemma hashToZp256_BIG_spec x q :
  0 <= BIG_val x < 256 ^ MODBYTES -> 0 < BIG_val q ->
  hashToZp256_BIG x q ⇓ fun r => 0 <= BIG_val r < BIG_val q.
Proof.
  intros Hx Hq. destruct (toBytes_spec x Hx) as (Hl & Hf & _).
  unfold hashToZp256_BIG, hashZp256. step.
  call hash_loop_ok; [unfold MODBYTES in Hl; lia|]. intros h _. step. destruct (hash_bytes h) as [Hh Hb].
  assert (Hs : Forall is_byte (HASH256_hash h ++ drop (length (HASH256_hash h)) (replicate 48 0))).
  { apply Forall_app. split; [done|]. apply Forall_drop, Forall_replicate.
    unfold is_byte. lia. }
  assert (Hlen : vec_size (HASH256_hash h ++ drop (length (HASH256_hash h)) (replicate 48 0)) = 48).
  { unfold vec_size. rewrite length_app, length_drop, length_replicate, Hh. done. }
  rewrite mod_spec; [apply Z.mod_pos_bound; lia| |done].
  rewrite fromBytesLen_spec by (done || unfold MODBYTES; lia).
  unfold be_val. apply pos_val_bound; [lia|]. by apply Forall_take.
Qed.

(** The hash only depends on the value of the [BIG], when its bytes do. *)
Lemma hashToZp256_spec x q :
  0 <= x < 2 ^ 256 -> 0 < q < 2 ^ 256 -> hashToZp256 x q ⇓ fun r => 0 <= r < q.
Proof.
  intros Hx Hq. pose proof big_256. unfold hashToZp256.
  step. call mpz_to_BIG_spec; [lia|]. intros _ _.
  step. call (mpz_to_BIG_spec x); [lia|]. intros xb Hxb.
  step. call (mpz_to_BIG_spec q); [lia|]. intros qb Hqb.
  step. call hashToZp256_BIG_spec; [lia..|]. intros r Hr.
  call BIG_to_mpz_spec; [lia|]. intros t ->. lia.
Qed.
End HashFacts.

(** ** Points *)

Section PointFacts.
Context `{GL : GmpLaws} `{BL : BigLaws} `{HL : !HashLaws HO} `{CL : !CurveLaws CO}.

Lemma ECP_mul_mpz_spec P t :
  0 <= t < 2 ^ 256 -> ECP_mul_mpz P t ⇓ fun R => R =1= mul1 t P.
Proof.
  intros Ht. pose proof big_256. unfold ECP_mul_mpz. step.
  call (mpz_to_BIG_spec t); [done|]. intros b Hb. step.
  rewrite <- Hb. apply ECP_mul_spec. lia.
Qed.

Lemma ECP2_mul_mpz_spec P t :
  0 <= t < 2 ^ 256 -> ECP2_mul_mpz P t ⇓ fun R => R =2= mul2 t P.
Proof.
  intros Ht. pose proof big_256. unfold ECP2_mul_mpz. step.
  call (mpz_to_BIG_spec t); [done|]. intros b Hb. step.
  rewrite <- Hb. apply ECP2_mul_spec. lia.
Qed.

(** Points of [G1] are killed by the order, and stay in [G1]. *)
Lemma G1_torsion P : in_G1 P -> mul1 curve_order P =1= ECP_inf.
Proof.
  intros (n & Hn & ->). pose proof (prime_gt_1 _ curve_order_prime). unfold mul1.
  rewrite zmul_mul, Z.mul_comm, <- zmul_mul by lia.
  fold (mul1 curve_order ECP_generator). rewrite G1_order. apply zmul_zero.
Qed.

Lemma G1_mul n P : 0 <= n -> in_G1 P -> in_G1 (mul1 n P).
Proof.
  intros Hn (m & Hm & HP). exists (n * m). split; [lia|]. unfold mul1 in *.
  rewrite HP. by apply zmul_mul.
Qed.

Lemma G1_add P Q : in_G1 P -> in_G1 Q -> in_G1 (ECP_add P Q).
Proof.
  intros (m & Hm & HP) (n & Hn & HQ). exists (m + n). split; [lia|]. unfold mul1 in *.
  rewrite HP, HQ. symmetry. by apply zmul_add.
Qed.

Lemma G1_eq P Q : P =1= Q -> in_G1 P -> in_G1 Q.
Proof. intros HPQ (n & Hn & HP). exists n. split; [done|]. by rewrite <- HPQ. Qed.

Lemma G1_inf : in_G1 ECP_inf.
Proof. by exists 0. Qed.

Lemma G1_generator : in_G1 ECP_generator.
Proof. exists 1. split; [lia|]. symmetry. apply zmul_1. Qed.

Lemma G2_add P Q : in_G2 P -> in_G2 Q -> in_G2 (ECP2_add P Q).
Proof.
  intros (m & Hm & HP) (n & Hn & HQ). exists (m + n). split; [lia|]. unfold mul2 in *.
  rewrite HP, HQ. symmetry. by apply zmul_add.
Qed.

Lemma G2_inf : in_G2 ECP2_inf.
Proof. by exists 0. Qed.

Lemma G2_generator : in_G2 ECP2_generator.
Proof. exists 1. split; [lia|]. symmetry. apply zmul_1. Qed.

Lemma mul1_cong P m n :
  in_G1 P -> 0 <= m -> 0 <= n -> m ≡[curve_order] n -> mul1 m P =1= mul1 n P.
Proof.
  intros HP Hm Hn Hmn. apply (zmul_cong curve_order); [|done..|by apply G1_torsion].
  pose proof (prime_gt_1 _ curve_order_prime). lia.
Qed.

(** A factor moves across the pairing. *)
Lemma pair_mul_l n P Q :
  in_G1 P -> in_G2 Q -> pair (mul1 n P) Q =t= powt n (pair P Q).
Proof.
  intros HP HQ. apply (zmul_hom (fun P => pair P Q) in_G1).
  - intros X Y HXY. by rewrite HXY.
  - intros. by apply pair_add_l.
  - apply G1_inf.
  - intros. by apply G1_add.
  - done.
Qed.

Lemma pair_mul_r n P Q :
  in_G1 P -> in_G2 Q -> pair P (mul2 n Q) =t= powt n (pair P Q).
Proof.
  intros HP HQ. apply (zmul_hom (fun Q => pair P Q) in_G2).
  - intros X Y HXY. by rewrite HXY.
  - intros. by apply pair_add_r.
  - apply G2_inf.
  - intros. by apply G2_add.
  - done.
Qed.

(** Pairing with the generator of [G2] is injective on [G1]. *)
Lemma pair_inj P P' :
  in_G1 P -> in_G1 P' -> pair P ECP2_generator =t= pair P' ECP2_generator -> P =1= P'.
Proof.
  intros (m & Hm & HP) (n & Hn & HP') H. rewrite HP, HP' in *.
  pose proof G1_generator as HG1. pose proof G2_generator as HG2.
  rewrite !pair_mul_l in H by done. apply mul1_cong; [done..|].
  apply (zmul_inj curve_order m n (pair ECP_generator ECP2_generator));
    [apply curve_order_prime|done|done| |apply pair_nondegenerate|done].
  fold (powt curve_order (pair ECP_generator ECP2_generator)).
  rewrite <- pair_mul_l, G1_order by done.
  rewrite <- (zmul_0 ECP_generator). fold (mul1 0 ECP_generator). by rewrite pair_mul_l.
Qed.

(** Hashing to the curve always gives a point of [G1]. *)
Lemma hashToPoint_spec M q :
  0 <= M < 2 ^ 256 -> 0 < q < 2 ^ 256 -> hashToPoint M q ⇓ in_G1.
Proof.
  intros HM Hq. pose proof big_256. unfold hashToPoint, hashToPoint_BIG.
  step. call (mpz_to_BIG_spec M); [lia|]. intros Mb HMb.
  step. call (mpz_to_BIG_spec q); [lia|]. intros qb Hqb.
  step. call hashToZp256_BIG_spec; [lia..|]. intros h Hh. step.
  apply (G1_eq (mul1 (BIG_val h) ECP_generator)).
  - symmetry. apply ECP_mul_spec. lia.
  - apply G1_mul; [lia|apply G1_generator].
Qed.

(** Bytes are determined by the number they spell. *)
Lemma be_val_inj l l' :
  Forall is_byte l -> Forall is_byte l' -> length l = length l' -> be_val l = be_val l' -> l = l'.
Proof.
  revert l'. induction l as [|b l IH] using rev_ind; intros l' Hl Hl' Hlen Hv.
  { by destruct l'. }
  destruct l' as [|b' l' _] using rev_ind; [rewrite length_app in Hlen; simpl in Hlen; lia|].
  rewrite !length_app in Hlen. rewrite !be_val_snoc in Hv. simpl in Hlen.
  apply Forall_app in Hl as [Hl [Hb _]%Forall_cons]. apply Forall_app in Hl' as [Hl' [Hb' _]%Forall_cons].
  unfold is_byte in Hb, Hb'. assert (be_val l = be_val l' /\ b = b') as [Hvl ->] by lia.
  f_equal. apply IH; [done|done|lia|done].
Qed.

(** Two messages that differ from the 65th hexadecimal digit on hash to the
    same point. *)
Lemma hashToPoint_truncates t d d' m :
  2 ^ 252 <= t < 2 ^ 256 -> 0 <= d < 16 -> 0 <= d' < 16 ->
  hashToPoint (16 * t + d) m = hashToPoint (16 * t + d') m.
Proof.
  intros Ht Hd Hd'. pose proof big_256.
  destruct (proj1 (returns_ok _ _) (mpz_to_BIG_truncates t d Ht Hd)) as (b & Hb & Hv).
  destruct (proj1 (returns_ok _ _) (mpz_to_BIG_truncates t d' Ht Hd')) as (b' & Hb' & Hv').
  assert (Heq : BIG_toBytes b = BIG_toBytes b').
  { destruct (toBytes_spec b ltac:(lia)) as (Hl & Hf & Hx).
    destruct (toBytes_spec b' ltac:(lia)) as (Hl' & Hf' & Hx').
    unfold vec_size in *. apply be_val_inj; [done|done|lia|congruence]. }
  unfold hashToPoint. rewrite Hb, Hb'. unfold mbind, outcome_bind.
  destruct (mpz_to_BIG m) as [mb| |]; try done.
  unfold hashToPoint_BIG, hashToZp256_BIG. by rewrite Heq.
Qed.
End PointFacts.

(** ** The modular inverse

    Extended Euclid: [x1 * a = a_back] and [x0 * a = module] modulo [m].
    Two rounds at least halve [module], so [2 * k] rounds are enough for a
    modulus below [2 ^ k]. *)

Section InverseFacts.
Context `{BL : BigLaws}.
Context (a m : BIG).
Hypothesis Hm : 1 < BIG_val m.

Record euclid (a_back module_ x0 x1 : BIG) : Prop := {
  eu_back : 1 <= BIG_val a_back;
  eu_module : 0 <= BIG_val module_;
  eu_x0 : 0 <= BIG_val x0 < BIG_val m;
  eu_x1 : 0 <= BIG_val x1 < BIG_val m;
  eu_gcd : Z.gcd (BIG_val a_back) (BIG_val module_) = 1;
  eu_inv1 : BIG_val x1 * BIG_val a ≡[BIG_val m] BIG_val a_back;
  eu_inv0 : BIG_val x0 * BIG_val a ≡[BIG_val m] BIG_val module_;
}.

Lemma euclid_module_pos a_back module_ x0 x1 :
  euclid a_back module_ x0 x1 -> 1 < BIG_val a_back -> 0 < BIG_val module_.
Proof.
  intros He Ha. destruct (decide (BIG_val module_ = 0)) as [H0|H0].
  - pose proof (eu_gcd _ _ _ _ He) as Hg. rewrite H0, Z.gcd_0_r in Hg. lia.
  - pose proof (eu_module _ _ _ _ He). lia.
Qed.

(** One round keeps the invariant and replaces (a_back, module) by
    (module, a_back mod module). *)
Lemma euclid_step a_back module_ x0 x1 :
  euclid a_back module_ x0 x1 -> 1 < BIG_val a_back ->
  let '(a', m', x0', x1') := BIG_inv_step m a_back module_ x0 x1 in
  euclid a' m' x0' x1' /\ a' = module_ /\ BIG_val m' = BIG_val a_back mod BIG_val module_.
Proof.
  intros He Ha. pose proof (euclid_module_pos _ _ _ _ He Ha) as Hp.
  destruct He as [Hb _ Hx0 Hx1 Hg Hi1 Hi0]. unfold BIG_inv_step.
  pose proof (mod_spec a_back module_ ltac:(lia) Hp) as Hmod.
  pose proof (sdiv_spec a_back module_ ltac:(lia) Hp) as Hdiv.
  pose proof (Z.mod_pos_bound (BIG_val a_back) (BIG_val module_) Hp).
  pose proof (Z.div_pos (BIG_val a_back) (BIG_val module_) ltac:(lia) Hp).
  set (d := BIG_sdiv a_back module_) in *.
  pose proof (modmul_spec d x0 m ltac:(lia) ltac:(lia) ltac:(lia)) as Hmul.
  pose proof (Z.mod_pos_bound (BIG_val d * BIG_val x0) (BIG_val m) ltac:(lia)).
  destruct (modneg_spec (BIG_modmul d x0 m) m ltac:(lia) ltac:(lia)) as [Hnr Hneg].
  pose proof (modadd_spec (BIG_modneg (BIG_modmul d x0 m) m) x1 m ltac:(lia) ltac:(lia) ltac:(lia))
    as Hadd.
  split; [|done]. split; try done; try lia.
  - rewrite Hadd. apply Z.mod_pos_bound. lia.
  - rewrite Hmod, Z.gcd_comm, Z.gcd_mod by lia. by rewrite Z.gcd_comm.
  - rewrite Hadd, Hmod, cong_mod, Hneg, Hmul, cong_mod.
    transitivity (BIG_val x1 * BIG_val a - BIG_val d * (BIG_val x0 * BIG_val a)); [cong_ring|].
    rewrite Hi1, Hi0, Hdiv. apply cong_eq.
    pose proof (Z.div_mod (BIG_val a_back) (BIG_val module_)). lia.
Qed.

Lemma comp_one x : 0 <= BIG_val x -> (0 <? BIG_comp x BIG_one) = (1 <? BIG_val x).
Proof.
  intros Hx. pose proof one_spec. rewrite comp_spec, one_spec by lia.
  destruct (Z.ltb_spec 1 (BIG_val x)); [apply Z.ltb_lt|apply Z.ltb_ge]; lia.
Qed.

Lemma BIG_inv_loop_done fuel a_back module_ x0 x1 :
  euclid a_back module_ x0 x1 -> BIG_val a_back <= 1 ->
  BIG_inv_loop fuel m a_back module_ x0 x1 ⇓ fun r =>
    0 <= BIG_val r < BIG_val m /\ BIG_val r * BIG_val a ≡[BIG_val m] 1.
Proof.
  intros [Hb _ _ Hx1 _ Hi1 _] Ha.
  assert (BIG_inv_loop fuel m a_back module_ x0 x1 = Ok x1) as ->.
  { destruct fuel; simpl; rewrite comp_one by lia; by destruct (Z.ltb_spec 1 (BIG_val a_back)); [lia|]. }
  split; [done|]. rewrite Hi1. apply cong_eq. lia.
Qed.

(** Two rounds: the third remainder is less than half the first. *)
Lemma BIG_inv_loop_spec k : forall fuel a_back module_ x0 x1,
  euclid a_back module_ x0 x1 -> BIG_val module_ < 2 ^ Z.of_nat k -> (2 * k <= fuel)%nat ->
  BIG_inv_loop fuel m a_back module_ x0 x1 ⇓ fun r =>
    0 <= BIG_val r < BIG_val m /\ BIG_val r * BIG_val a ≡[BIG_val m] 1.
Proof.
  induction k as [|k IH]; intros fuel a_back module_ x0 x1 He Hk Hf;
    (destruct (decide (BIG_val a_back <= 1)) as [Hle|Hgt]; [by apply (BIG_inv_loop_done fuel _ module_ x0)|]).
  { pose proof (euclid_module_pos _ _ _ _ He ltac:(lia)). simpl in Hk. lia. }
  destruct fuel as [|[|fuel]]; [lia..|].
  pose proof (euclid_step _ _ _ _ He ltac:(lia)) as Hs.
  pose proof (euclid_module_pos _ _ _ _ He ltac:(lia)) as Hp.
  remember (S fuel) as fuel1. cbn [BIG_inv_loop]. rewrite comp_one by (destruct He; lia).
  destruct (Z.ltb_spec 1 (BIG_val a_back)); [|lia].
  destruct (BIG_inv_step m a_back module_ x0 x1) as [[[a1 m1] y0] y1].
  destruct Hs as (He1 & -> & Hm1).
  pose proof (Z.mod_pos_bound (BIG_val a_back) (BIG_val module_) Hp).
  destruct (decide (BIG_val module_ <= 1)) as [Hle1|Hgt1]; [by apply (BIG_inv_loop_done _ _ m1 y0)|].
  pose proof (euclid_step _ _ _ _ He1 ltac:(lia)) as Hs.
  pose proof (euclid_module_pos _ _ _ _ He1 ltac:(lia)) as Hp1.
  subst fuel1. cbn [BIG_inv_loop]. rewrite comp_one by (destruct He1; lia).
  destruct (Z.ltb_spec 1 (BIG_val module_)); [|lia].
  destruct (BIG_inv_step m module_ m1 y0 y1) as [[[a2 m2] z0] z1].
  destruct Hs as (He2 & -> & Hm2). apply IH; [done| |lia].
  rewrite Nat2Z.inj_succ, Z.pow_succ_r in Hk by lia.
  pose proof (Z.mod_pos_bound (BIG_val module_) (BIG_val m1) Hp1).
  pose proof (Z.div_mod (BIG_val module_) (BIG_val m1)).
  assert (1 <= BIG_val module_ / BIG_val m1) by (apply Z.div_le_lower_bound; lia). nia.
Qed.

Lemma BIG_inv_spec fuel (k : nat) :
  0 <= BIG_val a -> Z.gcd (BIG_val a) (BIG_val m) = 1 -> BIG_val m < 2 ^ Z.of_nat k ->
  (2 * k <= fuel)%nat ->
  BIG_inv fuel a m ⇓ fun r =>
    0 <= BIG_val r < BIG_val m /\ BIG_val r * BIG_val a ≡[BIG_val m] 1.
Proof.
  intros Ha Hg Hk Hf. unfold BIG_inv. apply (BIG_inv_loop_spec k); [|done|done].
  pose proof zero_spec. pose proof one_spec. split; try lia.
  - destruct (decide (BIG_val a = 0)) as [Ha0|]; [|lia]. rewrite Ha0, Z.gcd_0_l in Hg. lia.
  - rewrite one_spec. by rewrite Z.mul_1_l.
  - rewrite zero_spec. exists (-1). lia.
Qed.
End InverseFacts.
