(* ===== verification/Coprime.v ===== *)
(** * Hashing to a number coprime to [q - 1]

    [getFactors], [isCoprime] and [hashToCoprime] of src/fussion.cpp.  The
    re-encryption key inverts a hash modulo [q - 1], so the hash is raised by
    254760293 until no prime factor of [q - 1] divides it.  The search is a
    loop with fuel.  Whether it ends only depends on the first value: 600
    rounds are always enough unless 254760293, which is itself one of the
    factors, divides it, and then no number of rounds is. *)

From Stdlib Require Import ZArith Lia Znumtheory.
From stdpp Require Import base list.
From S2P Require Import Prelude ModArith Primality Text Gmp Miracl Tools.

Open Scope Z_scope.

(** ** The code *)

Definition addends : list Z :=
  [2; 3; 11; 19; 10177; 125527; 859267; 906349; 2508409; 2529403; 52437899; 254760293].

Definition getFactors : outcome (list Z) :=
  for_ 12 (fun i factors => factor ← vec_at addends i; mret (factors ++ [factor])) [].

Fixpoint isCoprime (x : Z) (factors : list Z) : outcome bool :=
  match factors with
  | [] => mret true
  | f :: factors' =>
      r ← x %% f;
      if r =? 0 then mret false else isCoprime x factors'
  end.

Definition inc : Z := 254760293.

(** [while (!isCoprime(hash, factors)) hash += inc;] *)
Fixpoint coprime_loop (fuel : nat) (hash : Z) (factors : list Z) : outcome Z :=
  isCoprime hash factors ≫= fun c : bool =>
  if c then mret hash
  else match fuel with
       | O => Diverge
       | S fuel' => coprime_loop fuel' (hash + inc) factors
       end.

Definition hashToCoprime `{GmpOps, BigOps, !HashOps} (fuel : nat)
    (beHashed module_ : Z) (factors : list Z) : outcome Z :=
  hash ← hashToZp256 beHashed module_;
  coprime_loop fuel hash factors.

(** ** The test *)

#[export] Instance divide_dec a b : Decision ((a | b)) := Zdivide_dec a b.

Lemma getFactors_spec : getFactors = Ok order_factors.
Proof. reflexivity. Qed.

Lemma isCoprime_spec x fs :
  Forall (fun f => 1 < f) fs ->
  isCoprime x fs = Ok (bool_decide (Forall (fun f => ~ (f | x)) fs)).
Proof.
  induction 1 as [|f fs Hf Hfs IH]; [done|]. cbn [isCoprime]. unfold mpz_rem.
  destruct (Z.eqb_spec f 0); [lia|]. unfold mbind, outcome_bind.
  destruct (Z.eqb_spec (Z.rem x f) 0) as [H0|H0].
  - symmetry. unfold mret, outcome_ret. f_equal. apply bool_decide_eq_false_2.
    intros [H _]%Forall_cons_1. apply H. by apply Z.rem_divide.
  - rewrite IH. f_equal. apply bool_decide_ext. rewrite Forall_cons.
    rewrite <- Z.rem_divide by done. naive_solver.
Qed.

Lemma order_factors_gt_1 : Forall (fun f => 1 < f) order_factors.
Proof. by repeat constructor. Qed.

(** With the program's factors the test decides coprimality with [q - 1]. *)
Lemma isCoprime_order x :
  isCoprime x order_factors = Ok (bool_decide (Z.gcd x (curve_order - 1) = 1)).
Proof.
  rewrite isCoprime_spec by apply order_factors_gt_1. f_equal.
  apply bool_decide_ext. by rewrite coprime_order_pred.
Qed.

(** ** Counting the rounds

    [count P n] counts the [k < n] that satisfy [P]. *)

Fixpoint count (P : nat -> bool) (n : nat) : nat :=
  match n with
  | O => O
  | S n' => count P n' + (if P n' then 1 else 0)
  end.

Lemma count_add P m n : count P (m + n) = (count P m + count (fun k => P (m + k)) n)%nat.
Proof.
  induction n as [|n IH]; simpl; [by rewrite !Nat.add_0_r|].
  rewrite Nat.add_succ_r. simpl. lia.
Qed.

Lemma count_zero P n : (forall k, (k < n)%nat -> P k = false) -> count P n = O.
Proof.
  intros H. induction n as [|n IH]; [done|]. simpl.
  by rewrite H, IH by (intros; try apply H; lia).
Qed.

Lemma count_one P n :
  (forall j k, (j < k < n)%nat -> P j = true -> P k = true -> False) -> (count P n <= 1)%nat.
Proof.
  intros H. induction n as [|n IH]; [simpl; lia|]. simpl.
  assert (count P n <= 1)%nat by (apply IH; intros j k Hjk; apply H; lia).
  destruct (P n) eqn:Hn; [|lia]. rewrite count_zero; [lia|].
  intros k Hk. destruct (P k) eqn:HP; [|done]. by destruct (H k n); [lia| |].
Qed.

(** At most one hit in [p] consecutive rounds gives at most [m] in [m * p]. *)
Lemma count_spaced p P n m :
  (0 < p)%nat -> (n <= m * p)%nat ->
  (forall j k, (j < k < j + p)%nat -> P j = true -> P k = true -> False) ->
  (count P n <= m)%nat.
Proof.
  intros Hp. revert P n. induction m as [|m IH]; intros P n Hn H.
  { by replace n with O by lia. }
  destruct (decide (n <= p)%nat).
  - transitivity 1%nat; [apply count_one|lia]. intros j k Hjk. apply H. lia.
  - replace n with (p + (n - p))%nat by lia. rewrite count_add.
    assert (count P p <= 1)%nat by (apply count_one; intros j k Hjk; apply H; lia).
    assert (count (fun k => P (p + k)) (n - p) <= m)%nat; [|lia].
    apply IH; [lia|]. intros j k Hjk. apply H. lia.
Qed.

(** If each [k < n] is hit by one of the tests, the counts add up to [n]. *)
Lemma count_cover {A} (P : A -> nat -> bool) (l : list A) n :
  (forall k, (k < n)%nat -> exists a, a ∈ l /\ P a k = true) ->
  (n <= sum_list_with (fun a => count (P a) n) l)%nat.
Proof.
  intros H. induction n as [|n IH]; [lia|].
  assert (Hs : sum_list_with (fun a => count (P a) (S n)) l =
    (sum_list_with (fun a => count (P a) n) l +
     sum_list_with (fun a => if P a n then 1 else 0) l)%nat).
  { clear. induction l as [|a l IHl]; simpl in *; [done|]. rewrite IHl. lia. }
  rewrite Hs. destruct (H n ltac:(lia)) as (a & Ha & HP).
  assert (1 <= sum_list_with (fun a => if P a n then 1 else 0) l)%nat.
  { clear - Ha HP. induction Ha as [|b x l Ha IHl]; simpl; [rewrite HP; lia|].
    specialize (IHl HP). lia. }
  assert (n <= sum_list_with (fun a => count (P a) n) l)%nat by (apply IH; intros k Hk; apply H; lia).
  lia.
Qed.

(** ** The search *)

Definition other_factors : list Z :=
  [2; 3; 11; 19; 10177; 125527; 859267; 906349; 2508409; 2529403; 52437899].

Definition divides_at (h p : Z) (k : nat) : bool :=
  bool_decide ((p | h + Z.of_nat k * inc)).

(** A prime that does not divide the increment hits once in [p] rounds. *)
Lemma divides_at_spaced h p j k :
  Z.prime p -> ~ (p | inc) -> Z.of_nat k < Z.of_nat j + p -> (j < k)%nat ->
  divides_at h p j = true -> divides_at h p k = true -> False.
Proof.
  unfold divides_at. rewrite !bool_decide_eq_true. intros Hp Hi Hk Hjk Hj Hk'.
  assert (Hd : (p | (Z.of_nat k - Z.of_nat j) * inc)).
  { replace ((Z.of_nat k - Z.of_nat j) * inc)
      with (h + Z.of_nat k * inc - (h + Z.of_nat j * inc)) by ring. by apply Z.divide_sub_r. }
  apply Z.divide_prime_mul in Hd as [Hd|Hd]; [|done|done].
  apply Z.divide_pos_le in Hd; lia.
Qed.

Lemma count_divides h p n m :
  Z.prime p -> ~ (p | inc) -> Z.of_nat n <= Z.of_nat m * p -> (count (divides_at h p) n <= m)%nat.
Proof.
  intros Hp Hi Hn. pose proof (prime_gt_1 p Hp).
  apply (count_spaced (Z.to_nat p)); [lia|nia|].
  intros j k Hjk. apply (divides_at_spaced h p); [done..|lia|lia].
Qed.

(** Among 600 consecutive candidates 2 and 3 spoil at most 300 and 200, 11
    and 19 at most 55 and 32, and each other factor at most one. *)
Lemma candidate_exists h :
  ~ (inc | h) -> exists k, (k < 600)%nat /\ Z.gcd (h + Z.of_nat k * inc) (curve_order - 1) = 1.
Proof.
  intros Hh.
  destruct (decide (Exists (fun k : nat => Z.gcd (h + Z.of_nat k * inc) (curve_order - 1) = 1)
    (seq 0 600))) as [He|He].
  { apply Exists_exists in He as (k & Hk & H). apply elem_of_seq in Hk. exists k. split; [lia|done]. }
  exfalso. apply not_Exists_Forall in He; [|apply _]. rewrite Forall_forall in He.
  pose proof (count_cover (divides_at h) other_factors 600) as Hc.
  assert (Hlt : (sum_list_with (fun p => count (divides_at h p) 600) other_factors <= 594)%nat).
  { pose proof order_factors_prime as Hp.
    repeat (apply Forall_cons in Hp as [? Hp]).
    assert (Hb : forall p m, Z.prime p -> inc mod p <> 0 -> 600 <= Z.of_nat m * p ->
      (count (divides_at h p) 600 <= m)%nat).
    { intros p m Hpp Hi Hm. pose proof (prime_gt_1 p Hpp).
      apply count_divides; [done| |lia]. by rewrite <- Z.mod_divide by lia. }
    unfold other_factors, sum_list_with.
    pose proof (Hb 2 300%nat). pose proof (Hb 3 200%nat). pose proof (Hb 11 55%nat).
    pose proof (Hb 19 32%nat). pose proof (Hb 10177 1%nat). pose proof (Hb 125527 1%nat).
    pose proof (Hb 859267 1%nat). pose proof (Hb 906349 1%nat). pose proof (Hb 2508409 1%nat).
    pose proof (Hb 2529403 1%nat). pose proof (Hb 52437899 1%nat).
    repeat match goal with
    | H : Z.prime ?p -> _ |- _ =>
        specialize (H ltac:(assumption) ltac:(vm_compute; discriminate) ltac:(lia))
    end. lia. }
  assert (600 <= sum_list_with (fun p => count (divides_at h p) 600) other_factors)%nat; [|lia].
  apply Hc. intros k Hk. specialize (He k). rewrite elem_of_seq in He.
  assert (Hng : ~ Forall (fun p => ~ (p | h + Z.of_nat k * inc)) order_factors).
  { rewrite <- coprime_order_pred. apply He. lia. }
  apply not_Forall_Exists in Hng; [|apply _]. apply Exists_exists in Hng as (p & Hp & Hd).
  apply dec_stable in Hd. exists p. split; [|by apply bool_decide_eq_true_2].
  change order_factors with (other_factors ++ [inc]) in Hp.
  apply elem_of_app in Hp as [Hp| ->%list_elem_of_singleton]; [done|].
  destruct Hh. apply (Z.divide_add_cancel_r _ (Z.of_nat k * inc)); [by apply Z.divide_factor_r|].
  by rewrite Z.add_comm.
Qed.

Lemma coprime_loop_ends k : forall fuel h,
  Z.gcd (h + Z.of_nat k * inc) (curve_order - 1) = 1 -> (k <= fuel)%nat ->
  coprime_loop fuel h order_factors ⇓ fun r =>
    Z.gcd r (curve_order - 1) = 1 /\ exists j, (j <= k)%nat /\ r = h + Z.of_nat j * inc.
Proof.
  induction k as [|k IH]; intros fuel h Hk Hf.
  - destruct fuel; cbn [coprime_loop]; rewrite isCoprime_order;
      rewrite bool_decide_eq_true_2 by (by rewrite Z.add_0_r in Hk);
      (split; [by rewrite Z.add_0_r in Hk|]); exists O; split; lia.
  - destruct fuel as [|fuel]; [lia|]. cbn [coprime_loop]. rewrite isCoprime_order.
    apply returns_bind, returns_ret. destruct (bool_decide_reflect (Z.gcd h (curve_order - 1) = 1)) as [Hc|Hc].
    { split; [done|]. exists O. split; lia. }
    eapply returns_mono; [apply IH; [|lia]|].
    + by replace (h + inc + Z.of_nat k * inc) with (h + Z.of_nat (S k) * inc) by lia.
    + intros r (Hr & j & Hj & ->). split; [done|]. exists (S j). split; lia.
Qed.

(** The first coprime candidate is found: the result is coprime to [q - 1]
    and at most 599 increments above the start. *)
Lemma coprime_loop_spec fuel h :
  ~ (inc | h) -> (600 <= fuel)%nat ->
  coprime_loop fuel h order_factors ⇓ fun r =>
    Z.gcd r (curve_order - 1) = 1 /\ exists j, (j < 600)%nat /\ r = h + Z.of_nat j * inc.
Proof.
  intros Hh Hf. destruct (candidate_exists h Hh) as (k & Hk & Hg).
  eapply returns_mono; [apply (coprime_loop_ends k); [done|lia]|].
  intros r (Hr & j & Hj & ->). split; [done|]. exists j. split; [lia|done].
Qed.

(** A multiple of the increment never becomes coprime. *)
Lemma coprime_loop_diverges fuel h :
  (inc | h) -> coprime_loop fuel h order_factors = Diverge.
Proof.
  revert h. induction fuel as [|fuel IH]; intros h Hh; cbn [coprime_loop];
    rewrite isCoprime_spec by apply order_factors_gt_1;
    rewrite bool_decide_eq_false_2
      by (rewrite Forall_forall; intros H; apply (H inc); [|done]; by apply list_elem_of_In; vm_compute; auto 20).
  - done.
  - simpl. apply IH. apply Z.divide_add_r; [done|]. by exists 1.
Qed.

Section HashFacts.
Context `{GL : GmpLaws} `{BL : BigLaws} `{HL : !HashLaws HO}.

(** The increment does not divide the hash of [x] modulo [q - 1]. *)
Definition good_hash (x : Z) : Prop :=
  hashToZp256 x (curve_order - 1) ⇓ fun h => ~ (inc | h).

Lemma hashToCoprime_spec fuel x :
  0 <= x < 2 ^ 256 -> good_hash x -> (600 <= fuel)%nat ->
  hashToCoprime fuel x (curve_order - 1) order_factors ⇓ fun h =>
    0 <= h /\ Z.gcd h (curve_order - 1) = 1.
Proof.
  intros Hx Hg Hf. unfold good_hash in Hg.
  apply returns_ok in Hg as (h0 & Hh0 & Hn).
  assert (0 < curve_order - 1 < 2 ^ 256) by (vm_compute; done).
  pose proof (hashToZp256_spec x (curve_order - 1) Hx ltac:(done)) as Hr.
  rewrite Hh0 in Hr. unfold hashToCoprime. rewrite Hh0. step. step.
  call coprime_loop_spec; [done|done|]. intros h (Hg & j & _ & ->).
  simpl in Hr. unfold inc in *. split; [lia|done].
Qed.

Lemma hashToCoprime_diverges fuel x h :
  hashToZp256 x (curve_order - 1) = Ok h -> (inc | h) ->
  hashToCoprime fuel x (curve_order - 1) order_factors = Diverge.
Proof. intros Hh Hd. unfold hashToCoprime. rewrite Hh. by apply coprime_loop_diverges. Qed.

(** The condition can be evaluated. *)
Lemma good_hash_eval x :
  match hashToZp256 x (curve_order - 1) with Ok h => negb (h mod inc =? 0) | _ => false end = true ->
  good_hash x.
Proof.
  unfold good_hash. destruct (hashToZp256 x (curve_order - 1)) as [h| |]; try done.
  intros Hh. simpl. intros Hd. apply Z.mod_divide in Hd; [|done]. by rewrite Hd in Hh.
Qed.
End HashFacts.
