(* ===== verification/Scheme.v ===== *)
(** * fussion.cpp: the threshold signature scheme

    The data types of include/fussion.h and one definition per function of
    src/fussion.cpp, in the order of the file.  A group of UAVs holds, for
    every threshold [t <= tm], shares of the secret [b_0 * ... * b_(t-2)];
    [t] of them sign, the cluster head re-encrypts the partial signatures for
    one verifier, who interpolates at zero and checks a BLS signature.

    The search for a coprime hash takes [fuel] rounds (Coprime.v). *)

From Stdlib Require Import ZArith Lia String.
From stdpp Require Import base list.
From S2P Require Import Prelude ModArith Primality Text Group Gmp Miracl Tools Coprime.

Open Scope Z_scope.

(** ** Entities and messages *)

Record UAV_h : Type := mkUAV_h {
  h_ID : Z;
  h_alpha : Z;
}.

Record UAV : Type := mkUAV {
  u_c1 : list Z;
  u_c2 : list Z;
  u_ID : Z;
}.

Section Entities.
Context `{C : CurveOps}.

Record Params : Type := mkParams {
  pp_n : Z;
  pp_tm : Z;
  pp_q : Z;
  pp_P2 : ECP2;
  pp_g : Z;
  pp_beta : Z;
  pp_PK : list ECP2;
}.

Record parSig : Type := mkParSig {
  ps_cj : Z;
  ps_sig : ECP;
  ps_ID : Z;
}.

Record Sigma : Type := mkSigma {
  sg_aux : list Z;
  sg_sig : list ECP;
  sg_IDs : list Z;
}.

Definition set_PK (pp : Params) (PK : list ECP2) : Params :=
  mkParams (pp_n pp) (pp_tm pp) (pp_q pp) (pp_P2 pp) (pp_g pp) (pp_beta pp) PK.
End Entities.

Section Scheme.
Context `{G : GmpOps} `{B : BigOps} `{!HashOps} `{!CurveOps} `{!ClockOps}.
Context (fuel : nat).

(** ** System setup and keys *)

(** Returns the parameters and the secret [alpha]. *)
Definition Setup (n tm : Z) : prog (Params * Z) :=
  initState state_gmp ≫= fun _ =>
  q ← lift (BIG_to_mpz CURVE_Order);
  g ← rand_mpz state_gmp;
  alpha ← rand_mpz state_gmp;
  beta ← lift (pow_mpz g alpha q);
  mret (mkParams n tm q ECP2_generator g beta [], alpha).

(** A [do ... while] loop: the body runs once even for an empty vector. *)
Definition getPK (b : list Z) : outcome (list ECP2) :=
  r ← for_ (Z.max 1 (vec_size b)) (fun i (s : ECP2 * list ECP2) =>
        let (A, PK) := s in
        bi ← vec_at b i;
        A' ← ECP2_mul_mpz A bi;
        mret (A', PK ++ [A'])) (ECP2_generator, []);
  mret (snd r).

Definition getUAV (pp : Params) (d b : list Z) (id : Z) : prog UAV :=
  r ← for_ (vec_size b) (fun i (s : list Z * list Z) =>
        let (c1s, c2s) := s in
        di ← lift (vec_at d i);
        bi ← lift (vec_at b i);
        fij ← lift ((di * id + bi) %% pp_q pp);
        u ← rand_mpz state_gmp;
        c1 ← lift (pow_mpz (pp_g pp) u (pp_q pp));
        beta_u ← lift (pow_mpz (pp_beta pp) u (pp_q pp));
        beta_u' ← lift ((beta_u * fij) %% pp_q pp);
        mret (c1s ++ [c1], c2s ++ [beta_u'])) ([], []);
  mret (mkUAV (fst r) (snd r) id).

(** The [tm - 1] pairs of coefficients. *)
Definition draw_coefficients (v : rng_var) (tm : Z) : prog (list Z * list Z) :=
  for_ (tm - 1) (fun _ (s : list Z * list Z) =>
    let (b, d) := s in
    bi ← rand_mpz v;
    di ← rand_mpz v;
    mret (b ++ [bi], d ++ [di])) ([], []).

(** Returns the parameters with their public keys, the UAVs and the head. *)
Definition KeyGen (params : Params) (alpha : Z) : prog (Params * list UAV * UAV_h) :=
  bd ← draw_coefficients state_gmp (pp_tm params);
  let (b, d) := bd : list Z * list Z in
  PK ← lift (getPK b);
  let params' := set_PK params PK in
  UAVs ← for_ (pp_n params') (fun _ UAVs =>
           id ← rand_mpz state_gmp;
           uav ← getUAV params' d b id;
           mret (UAVs ++ [uav])) [];
  ID ← rand_mpz state_gmp;
  mret (params', UAVs, mkUAV_h ID alpha).

(** ** Signing *)

Definition Sign (pp : Params) (uav : UAV) (t M : Z) : outcome parSig :=
  r ← for_ (t - 1) (fun i (s : Z * Z) =>
        let (cj, sj) := s in
        c1 ← vec_at (u_c1 uav) i;
        cj' ← (cj * c1) %% pp_q pp;
        c2 ← vec_at (u_c2 uav) i;
        sj' ← (sj * c2) %% pp_q pp;
        mret (cj', sj')) (1, 1);
  Hm ← hashToPoint M (pp_q pp);
  sigma ← ECP_mul_mpz Hm (snd r);
  mret (mkParSig (fst r) sigma (u_ID uav)).

Definition collectSig (pp : Params) (UAVs : list UAV) (t M : Z) : outcome (list parSig) :=
  for_ t (fun i sigmas =>
    uav ← vec_at UAVs i;
    sigma ← Sign pp uav t M;
    mret (sigmas ++ [sigma])) [].

(** ** Re-encryption by the cluster head *)

Definition rekey (pp : Params) (uavH : UAV_h) (PK_v : Z) : outcome Z :=
  rk ← pow_mpz PK_v (h_alpha uavH) (pp_q pp);
  let lambda_q := pp_q pp - 1 in
  factors ← getFactors;
  rk' ← hashToCoprime fuel rk lambda_q factors;
  let rk'' := invert_mpz rk' lambda_q in
  (h_alpha uavH * rk'') %% lambda_q.

Definition AggSig (parSigs : list parSig) (pp : Params) (uavH : UAV_h)
    (PK_v : Z) : prog Sigma :=
  initState state_gmp ≫= fun _ =>
  rk ← lift (rekey pp uavH PK_v);
  e ← rand_mpz state_gmp;
  ge ← lift (pow_mpz (pp_g pp) e (pp_q pp));
  beta_e ← lift (pow_mpz (pp_beta pp) e (pp_q pp));
  lift (for_ (vec_size parSigs) (fun i sigma =>
    ps ← vec_at parSigs i;
    aux_i ← (ps_cj ps * ge) %% pp_q pp;
    aux_i' ← pow_mpz aux_i rk (pp_q pp);
    sig_i ← ECP_mul_mpz (ps_sig ps) beta_e;
    mret (mkSigma (sg_aux sigma ++ [aux_i']) (sg_sig sigma ++ [sig_i])
            (sg_IDs sigma ++ [ps_ID ps]))) (mkSigma [] [] [])).

(** ** Interpolation weights

    The overload on a vector of identities, used by [Verify]. *)
Definition getPi_0 (pp : Params) (ID : list Z) (t : Z) : outcome (list Z) :=
  prodX ← for_ t (fun i prodX => x ← vec_at ID i; (prodX * x) %% pp_q pp) 1;
  for_ t (fun i Pis =>
    denominator ← for_ t (fun j denominator =>
      if j =? i then mret denominator
      else
        xj ← vec_at ID j;
        xi ← vec_at ID i;
        temp ← ((xj - xi) + pp_q pp) %% pp_q pp;
        (denominator * temp) %% pp_q pp) 1;
    xi ← vec_at ID i;
    numerator ← (prodX * invert_mpz xi (pp_q pp)) %% pp_q pp;
    let inv_den := invert_mpz denominator (pp_q pp) in
    Pi_0 ← (numerator * inv_den) %% pp_q pp;
    mret (Pis ++ [Pi_0])) [].

(** The overload on a [Sigma]. *)
Definition getPi_0_Sigma (pp : Params) (UAVs : Sigma) (t : Z) : outcome (list Z) :=
  for_ t (fun i Pis =>
    nd ← for_ t (fun j (s : Z * Z) =>
      let (numerator, denominator) := s in
      if j =? i then mret s
      else
        xj ← vec_at (sg_IDs UAVs) j;
        temp_numerator ← (- xj + pp_q pp) %% pp_q pp;
        numerator' ← (numerator * temp_numerator) %% pp_q pp;
        xi ← vec_at (sg_IDs UAVs) i;
        temp_denominator ← (xi - xj + pp_q pp) %% pp_q pp;
        denominator' ← (denominator * temp_denominator) %% pp_q pp;
        mret (numerator', denominator')) (1, 1);
    let inv_den := invert_mpz (snd nd) (pp_q pp) in
    Pi_0 ← (fst nd * inv_den) %% pp_q pp;
    mret (Pis ++ [Pi_0])) [].

(** ** Verification *)

(** Step 3 of [Verify]: the factors [k_i]. *)
Definition verify_factors (sigma : Sigma) (pp : Params) (Pis : list Z) (hash t : Z)
    : outcome (list Z) :=
  for_ t (fun i k =>
    aux ← vec_at (sg_aux sigma) i;
    temp ← pow_mpz aux hash (pp_q pp);
    Pi ← vec_at Pis i;
    temp' ← (Pi * invert_mpz temp (pp_q pp)) %% pp_q pp;
    mret (k ++ [temp'])) [].

(** The sum of the [k_i sigma_i]; iteration [i] of the loop treats [i + 1]. *)
Definition verify_sum (sig : list ECP) (k : list Z) (t : Z) : outcome ECP :=
  sig0 ← vec_at sig 0;
  k0 ← vec_at k 0;
  s0 ← ECP_mul_mpz sig0 k0;
  for_ (t - 1) (fun i s =>
    sig_i ← vec_at sig (i + 1);
    k_i ← vec_at k (i + 1);
    term ← ECP_mul_mpz sig_i k_i;
    mret (ECP_add s term)) s0.

Definition Verify (sigma : Sigma) (sk_v : Z) (pp : Params) (M t : Z) : prog bool :=
  Pis ← lift (getPi_0 pp (sg_IDs sigma) t);
  temp ← lift (pow_mpz (pp_beta pp) sk_v (pp_q pp));
  factors ← lift getFactors;
  hash ← lift (hashToCoprime fuel temp (pp_q pp - 1) factors);
  k ← lift (verify_factors sigma pp Pis hash t);
  s ← lift (verify_sum (sg_sig sigma) k t);
  left ← e s (pp_P2 pp);
  Hm ← lift (hashToPoint M (pp_q pp));
  PK ← lift (vec_at (pp_PK pp) (t - 2));
  right ← e Hm PK;
  mret (FP12_equals left right).

(** ** The whole protocol in one process *)

Definition fussion : prog bool :=
  initState state_gmp ≫= fun _ =>
  initRNG ≫= fun _ =>
  let M := 123456789 in
  let n := 2 in
  let tm := 2 in
  pa ← Setup n tm;
  let (pp0, alpha) := pa : Params * Z in
  kg ← KeyGen pp0 alpha;
  let '(pp, UAVs, uavH) := kg : Params * list UAV * UAV_h in
  let t := tm / 2 + 1 in
  sigmas ← lift (collectSig pp UAVs t M);
  sk_v ← rand_mpz state_gmp;
  PK_v ← lift (pow_mpz (pp_g pp) sk_v (pp_q pp));
  sig ← AggSig sigmas pp uavH PK_v;
  Verify sig sk_v pp M t.

(** 100 runs; [seed] is the global that the program sets at its start. *)
Definition test (seed : Z) : prog unit :=
  sum ← for_ 100 (fun i sum =>
    fussion ≫= fun pass : bool =>
    if pass then mret sum
    else
      print (lit "本次验证失败 sum=" ++ mpz_get_str 10 sum ++ lit "  &&  i="
             ++ mpz_get_str 10 i ++ lit "  &&  seed=" ++ mpz_get_str 10 seed
             ++ [newline]) ≫= fun _ =>
      mret (sum + 1)) 0;
  print (lit "失败次数：" ++ mpz_get_str 10 sum ++ [newline]).
End Scheme.

(** * Correctness of the operations *)

(** ** Interpolation weights *)

Local Notation q := curve_order.

(** The first [t] identities are proper field elements, pairwise different. *)
Definition good_ids (ID : list Z) (t : nat) : Prop :=
  (t <= length ID)%nat /\ (forall i, (i < t)%nat -> 0 < ID !!! i < q)
  /\ (forall i j, (i < t)%nat -> (j < t)%nat -> i <> j -> ID !!! i <> ID !!! j).

Section Weights.
Context (ID : list Z) (t : nat).
Hypothesis Hids : good_ids ID t.

Lemma order_gt_1 : 1 < q.
Proof. apply prime_gt_1, curve_order_prime. Qed.

Lemma good_ids_unit i : (i < t)%nat -> ~ ID !!! i ≡[q] 0.
Proof.
  intros Hi H. destruct Hids as (_ & Hr & _). specialize (Hr i Hi). pose proof order_gt_1.
  apply (cong_small q) in H; lia.
Qed.

Lemma good_ids_distinct i j :
  (i < t)%nat -> (j < t)%nat -> i <> j -> ~ ID !!! i ≡[q] ID !!! j.
Proof.
  intros Hi Hj Hij H. destruct Hids as (_ & Hr & Hd). apply (Hd i j Hi Hj Hij).
  apply (cong_small q); [| |done]; [specialize (Hr i Hi)|specialize (Hr j Hj)]; lia.
Qed.

Lemma good_ids_at i : 0 <= i < Z.of_nat t -> vec_at ID i = Ok (ID !!! Z.to_nat i).
Proof.
  intros Hi. destruct Hids as (Hl & _). apply vec_at_some; [lia|].
  apply list_lookup_lookup_total_lt. lia.
Qed.
End Weights.

(** One multiplication modulo [q] keeps a product in range. *)
Lemma mulmod_spec a b x y :
  0 <= a -> 0 <= b -> a ≡[q] x -> b ≡[q] y ->
  (a * b) %% q ⇓ fun r => 0 <= r < q /\ r ≡[q] x * y.
Proof.
  intros Ha Hb Hx Hy. pose proof order_gt_1. apply returns_rem; [lia|lia|].
  split; [apply Z.mod_pos_bound; lia|]. by rewrite cong_mod, Hx, Hy.
Qed.

Lemma bigprod_except_S t i f :
  bigprod_except (S t) i f = bigprod_except t i f * (if (t =? i)%nat then 1 else f t).
Proof. done. Qed.

(** The weight [w] of identity [i]: [w * prod (x_j - x_i) = prod x_j]. *)
Definition lagrange_weight (ID : list Z) (t i : nat) (w : Z) : Prop :=
  0 <= w < q
  /\ w * vanish t (fun i => ID !!! i) i (ID !!! i) ≡[q] vanish t (fun i => ID !!! i) i 0.

Lemma lagrange_weight_unique ID t i w w' :
  good_ids ID t -> (i < t)%nat ->
  lagrange_weight ID t i w -> lagrange_weight ID t i w' -> w = w'.
Proof.
  intros Hids Hi [Hr H] [Hr' H']. apply (cong_small q); [done..|].
  apply (cong_mul_cancel q curve_order_prime (vanish t (fun i => ID !!! i) i (ID !!! i))).
  - apply vanish_unit; [apply curve_order_prime| |done].
    intros. by apply (good_ids_distinct ID t).
  - by rewrite !(Z.mul_comm (vanish _ _ _ _)), H, H'.
Qed.

Section WeightLoops.
Context `{GL : GmpLaws}.
Context `{C : CurveOps} (pp : Params) (ID : list Z) (t : nat).
Hypothesis Hq : pp_q pp = q.
Hypothesis Hids : good_ids ID t.
Local Notation x := (fun i => ID !!! i).

Lemma ids_range i : (i < t)%nat -> 0 < ID !!! i < q.
Proof. apply Hids. Qed.

(** The vector overload. *)
Lemma getPi_0_spec :
  getPi_0 pp ID (Z.of_nat t) ⇓ fun Pis =>
    length Pis = t /\ forall i w, Pis !! i = Some w -> lagrange_weight ID t i w.
Proof.
  pose proof order_gt_1 as Hq1. unfold getPi_0. rewrite Hq. step.
  apply (for_inv (fun n p => 0 <= p < q /\ p ≡[q] bigprod (Z.to_nat n) x)); [lia|by split; [lia|]| |].
  { intros i p Hi [Hp Hpx]. step. rewrite (good_ids_at ID t) by done. step.
    pose proof (ids_range (Z.to_nat i) ltac:(lia)).
    call mulmod_spec; [lia|lia|done|done|]. intros r [Hr Hrx]. split; [done|].
    by replace (Z.to_nat (i + 1)) with (S (Z.to_nat i)) by lia. }
  rewrite Nat2Z.id. intros prodX [HX HXx].
  apply (for_inv (fun n Pis => length Pis = Z.to_nat n
    /\ forall i w, Pis !! i = Some w -> lagrange_weight ID t i w)); [lia|done| |].
  2:{ intros Pis. by rewrite Nat2Z.id. }
  intros i Pis Hi [Hlen HPis]. set (k := Z.to_nat i). assert (Hk : (k < t)%nat) by lia.
  pose proof (ids_range k Hk) as Hxk. step.
  apply (for_inv (fun n p => 0 <= p < q
    /\ p ≡[q] bigprod_except (Z.to_nat n) k (fun j => x j - x k))); [lia|by split; [lia|]| |].
  { intros j p Hj [Hp Hpx]. replace (Z.to_nat (j + 1)) with (S (Z.to_nat j)) by lia.
    rewrite bigprod_except_S. destruct (Z.eqb_spec j i) as [->|Hji].
    { step. rewrite Nat.eqb_refl. split; [done|]. by rewrite Z.mul_1_r. }
    destruct (Nat.eqb_spec (Z.to_nat j) k) as [Heq|_]; [lia|].
    pose proof (ids_range (Z.to_nat j) ltac:(lia)).
    step. rewrite (good_ids_at ID t) by done. step. step. rewrite (good_ids_at ID t) by done. step.
    fold k. step. apply returns_rem; [lia|lia|]. apply mulmod_spec; [lia| |done|].
    - apply Z.mod_pos_bound. lia.
    - rewrite cong_mod. apply cong_sub_0. unfold cong. exists 1. ring. }
  rewrite Nat2Z.id. intros den [Hd Hdx].
  step. rewrite (good_ids_at ID t) by done. step. fold k.
  destruct (invert_mpz_spec (x k) q) as [Hir Hi1]; [done| |].
  { apply unit_coprime; [apply curve_order_prime|]. by apply (good_ids_unit ID t). }
  step. call mulmod_spec; [lia|lia|done|done|]. intros num [Hn Hnx].
  assert (Hdu : ~ den ≡[q] 0).
  { rewrite Hdx. apply (vanish_unit q curve_order_prime t x); [|done].
    intros. by apply (good_ids_distinct ID t). }
  destruct (invert_mpz_spec den q) as [Hdr Hd1]; [done| |].
  { apply unit_coprime; [apply curve_order_prime|done]. }
  step. call mulmod_spec; [lia|lia|exact Hnx|done|]. intros w [Hw Hwx]. step.
  rewrite length_app. simpl. split; [lia|]. intros j w' Hj.
  apply lookup_app_Some in Hj as [Hj|[Hge Hj]]; [by apply HPis|].
  apply list_lookup_singleton_Some in Hj as [Hj ->].
  replace j with k by lia. split; [done|]. unfold vanish. rewrite Hwx, <- Hdx.
  rewrite <- (bigprod_except_mul t k x) by done.
  transitivity (bigprod_except t k x * (x k * invert_mpz (x k) q) * (den * invert_mpz den q)).
  { cong_ring. }
  rewrite Hi1, Hd1, !Z.mul_1_r. unfold bigprod_except. apply cong_eq, bigprod_ext.
  intros m _. by rewrite Z.sub_0_r.
Qed.

(** The overload on a [Sigma]: products of [-x_j] over [x_i - x_j].  Both
    signs are the same power of -1, which cancels. *)
Lemma bigprod_except_opp n i f :
  bigprod_except n i (fun j => - f j) = bigprod_except n i (fun _ => -1) * bigprod_except n i f.
Proof.
  unfold bigprod_except. rewrite <- bigprod_mul. apply bigprod_ext. intros j _.
  destruct (j =? i)%nat; ring.
Qed.

Lemma bigprod_except_sign n i :
  bigprod_except n i (fun _ => -1) * bigprod_except n i (fun _ => -1) = 1.
Proof. rewrite <- bigprod_except_opp. unfold bigprod_except. induction n as [|n IH]; [done|].
  cbn [bigprod]. rewrite IH. by destruct (n =? i)%nat. Qed.

Lemma getPi_0_Sigma_spec sigma :
  sg_IDs sigma = ID ->
  getPi_0_Sigma pp sigma (Z.of_nat t) ⇓ fun Pis =>
    length Pis = t /\ forall i w, Pis !! i = Some w -> lagrange_weight ID t i w.
Proof.
  intros HID. pose proof order_gt_1 as Hq1. unfold getPi_0_Sigma. rewrite Hq, HID.
  apply (for_inv (fun n Pis => length Pis = Z.to_nat n
    /\ forall i w, Pis !! i = Some w -> lagrange_weight ID t i w)); [lia|done| |].
  2:{ intros Pis. by rewrite Nat2Z.id. }
  intros i Pis Hi [Hlen HPis]. set (k := Z.to_nat i). assert (Hk : (k < t)%nat) by lia.
  pose proof (ids_range k Hk) as Hxk. step.
  apply (for_inv (fun n s => 0 <= fst s < q /\ 0 <= snd s < q
    /\ fst s ≡[q] bigprod_except (Z.to_nat n) k (fun j => - x j)
    /\ snd s ≡[q] bigprod_except (Z.to_nat n) k (fun j => - (x j - x k)))); [lia|split_and!; simpl; (done || lia)| |].
  { intros j [p r] Hj (Hp & Hr & Hpx & Hrx). replace (Z.to_nat (j + 1)) with (S (Z.to_nat j)) by lia.
    rewrite !bigprod_except_S. simpl in Hp, Hr, Hpx, Hrx. destruct (Z.eqb_spec j i) as [->|Hji].
    { step. rewrite Nat.eqb_refl, !Z.mul_1_r. simpl. split_and!; (done || lia). }
    destruct (Nat.eqb_spec (Z.to_nat j) k) as [Heq|_]; [lia|].
    pose proof (ids_range (Z.to_nat j) ltac:(lia)).
    step. rewrite (good_ids_at ID t) by done. step.
    step. apply returns_rem; [lia|lia|]. step.
    call (mulmod_spec p _ _ (- x (Z.to_nat j))); [lia|apply Z.mod_pos_bound; lia|exact Hpx| |].
    { rewrite cong_mod. exists 1. ring. }
    intros p' [Hp' Hpx']. step. rewrite (good_ids_at ID t) by done. step. fold k.
    step. apply returns_rem; [lia|lia|]. step.
    call (mulmod_spec r _ _ (- (x (Z.to_nat j) - x k))); [lia|apply Z.mod_pos_bound; lia|exact Hrx| |].
    { rewrite cong_mod. exists 1. ring. }
    intros r' [Hr' Hrx']. step. simpl. split_and!; (done || lia). }
  rewrite Nat2Z.id. intros [num den] (Hn & Hd & Hnx & Hdx). simpl in Hn, Hd, Hnx, Hdx.
  pose proof (bigprod_except_sign t k) as Hs. rewrite bigprod_except_opp in Hnx, Hdx.
  set (s := bigprod_except t k (fun _ => -1)) in *. unfold fst, snd.
  assert (Hdu : ~ den ≡[q] 0).
  { rewrite Hdx. apply unit_mul; [apply curve_order_prime| |].
    - intros H0. assert (H1 : s * s ≡[q] 0) by (by rewrite H0).
      rewrite Hs in H1. apply (cong_small q) in H1; lia.
    - apply (vanish_unit q curve_order_prime t x); [|done].
      intros. by apply (good_ids_distinct ID t). }
  destruct (invert_mpz_spec den q) as [Hdr Hd1]; [done| |].
  { apply unit_coprime; [apply curve_order_prime|done]. }
  step. call mulmod_spec; [lia|lia|exact Hnx|done|]. intros w [Hw Hwx]. step.
  rewrite length_app. simpl. split; [lia|]. intros j w' Hj.
  apply lookup_app_Some in Hj as [Hj|[Hge Hj]]; [by apply HPis|].
  apply list_lookup_singleton_Some in Hj as [Hj ->].
  replace j with k by lia. split; [done|].
  assert (Hv : vanish t x k (x k) ≡[q] s * den).
  { rewrite Hdx, Z.mul_assoc, Hs, Z.mul_1_l. done. }
  rewrite Hwx, Hv.
  transitivity (s * s * bigprod_except t k x * (den * invert_mpz den q)); [cong_ring|].
  rewrite Hs, Hd1, Z.mul_1_l, Z.mul_1_r. unfold vanish, bigprod_except. apply cong_eq, bigprod_ext.
  intros m _. by rewrite Z.sub_0_r.
Qed.

(** Both overloads compute the same weights. *)
Lemma getPi_0_agree sigma :
  sg_IDs sigma = ID -> getPi_0 pp ID (Z.of_nat t) = getPi_0_Sigma pp sigma (Z.of_nat t).
Proof.
  intros HID. pose proof getPi_0_spec as H1. pose proof (getPi_0_Sigma_spec sigma HID) as H2.
  apply returns_ok in H1 as (l1 & -> & Hl1 & H1), H2 as (l2 & -> & Hl2 & H2).
  f_equal. apply list_eq_same_length with t; [done..|].
  intros i w w' Hi Hw Hw'. apply (lagrange_weight_unique ID t i); auto.
Qed.
End WeightLoops.

(** ** Progress of the store

    No operation forgets a generator, turns the clock back or unprints. *)

Section Progress.
Context `{G : GmpOps}.

Definition ready (v : rng_var) (w : World) : Prop := is_Some (w_rng w v).

Record later (w w' : World) : Prop := {
  later_ready v : ready v w -> ready v w';
  later_tick : (w_tick w <= w_tick w')%nat;
  later_out : w_out w `prefix_of` w_out w';
}.

#[export] Instance later_preorder : PreOrder later.
Proof.
  split.
  - intros w. by split.
  - intros w1 w2 w3 [H1 H2 H3] [H1' H2' H3']. split; [auto|lia|by transitivity (w_out w2)].
Qed.

Lemma later_set_rng v s w : later w (set_rng v s w).
Proof. split; [|done|done]. intros v' Hv'. unfold ready. simpl. by case_decide. Qed.

Context `{GL : !GmpLaws G} `{!ClockOps}.

(** The [k]-th number that [rand_mpz] draws from a generator seeded with [s];
    the generator [v] has been asked [k] times since. *)
Fixpoint rng_iter (s : randstate) (k : nat) : randstate :=
  match k with
  | O => s
  | S k' => snd (mpz_urandomm (rng_iter s k') max_value)
  end.

Definition draw (s : randstate) (k : nat) : Z :=
  fst (mpz_urandomm (rng_iter s k) max_value) + 1.

Definition rng_at (v : rng_var) (s : randstate) (k : nat) (w : World) : Prop :=
  w_rng w v = Some (rng_iter s k).

Lemma draw_range s k : 1 <= draw s k <= q.
Proof.
  unfold draw. pose proof (urandomm_range (rng_iter s k) max_value) as Hr.
  rewrite max_value_order in *. pose proof order_gt_1. lia.
Qed.

Lemma ready_rng_at v w : ready v w -> exists s, rng_at v s 0 w.
Proof. intros [s Hs]. by exists s. Qed.

Lemma runs_rand v s k w (Q : Z -> World -> Prop) :
  rng_at v s k w -> (forall w', rng_at v s (S k) w' -> later w w' -> Q (draw s k) w') ->
  rand_mpz v @ w ⇓ Q.
Proof.
  intros Hs HQ. unfold runs, rand_mpz. rewrite Hs.
  destruct (mpz_urandomm (rng_iter s k) max_value) as [r s'] eqn:E.
  replace (r + 1) with (draw s k) by (unfold draw; by rewrite E).
  apply HQ; [|apply later_set_rng]. unfold rng_at. rewrite set_rng_same. simpl. by rewrite E.
Qed.

(** The seed that the next [initState] takes from the clock. *)
Definition next_seed (w : World) : randstate := gmp_randseed_ui (clock_ns (w_tick w) mod 2 ^ 64).

(** A draw neither reads the clock nor prints. *)
Lemma runs_rand_quiet v s k w (Q : Z -> World -> Prop) :
  rng_at v s k w ->
  (forall w', rng_at v s (S k) w' -> later w w' -> w_tick w' = w_tick w -> w_out w' = w_out w ->
     Q (draw s k) w') ->
  rand_mpz v @ w ⇓ Q.
Proof.
  intros Hs HQ. pose proof (runs_rand v s k w (fun z w' => z = draw s k /\ rng_at v s (S k) w' /\ later w w') Hs) as Hr.
  unfold runs, rand_mpz in *. rewrite Hs in *.
  destruct (mpz_urandomm (rng_iter s k) max_value) as [r s'] eqn:E.
  destruct Hr as (-> & Hr & Hl); [by intros|]. by apply HQ.
Qed.

Lemma runs_initState_quiet v w (Q : unit -> World -> Prop) :
  (forall w', rng_at v (next_seed w) 0 w' -> w_out w' = w_out w -> Q tt w') ->
  initState v @ w ⇓ Q.
Proof.
  intros HQ. unfold runs, initState. apply HQ; [|done]. unfold rng_at. simpl. by rewrite decide_True.
Qed.

Lemma runs_initState v w (Q : unit -> World -> Prop) :
  (forall w', later w w' -> w_tick w' = S (w_tick w) -> rng_at v (next_seed w) 0 w' -> Q tt w') ->
  initState v @ w ⇓ Q.
Proof.
  intros HQ. unfold runs, initState. apply HQ.
  - split; simpl; [|lia|done]. intros v' Hv'. unfold ready. simpl. by case_decide.
  - done.
  - unfold rng_at. simpl. by rewrite decide_True.
Qed.
End Progress.

(** ** Keys *)

(** The secret polynomial of threshold [m + 1]: [prod_(i < m) (d_i x + b_i)]. *)
Definition share_poly (b d : list Z) (m : nat) (x : Z) : Z :=
  bigprod m (fun i => d !!! i * x + b !!! i).

Definition secret (b : list Z) (m : nat) : Z := bigprod m (fun i => b !!! i).

Lemma share_poly_polyfun b d m : polyfun q (S m) (share_poly b d m).
Proof.
  induction m as [|m IH]; [exact (polyfun_const q 1)|]. unfold share_poly. cbn [bigprod].
  eapply polyfun_ext; [|apply (polyfun_linear q (S m) (d !!! m) (b !!! m)), IH].
  intros x. apply cong_eq. unfold share_poly. ring.
Qed.

Lemma share_poly_0 b d m : share_poly b d m 0 = secret b m.
Proof. apply bigprod_ext. intros. lia. Qed.

Lemma bigprod_nonneg n f : (forall i, (i < n)%nat -> 0 <= f i) -> 0 <= bigprod n f.
Proof.
  induction n as [|n IH]; intros Hf; simpl; [lia|].
  apply Z.mul_nonneg_nonneg; [apply IH; intros; apply Hf; lia|apply Hf; lia].
Qed.

(** Public parameters over the curve; [alpha] is the head's secret. *)
Record wf_params `{C : CurveOps} (pp : Params) (alpha : Z) : Prop := {
  wf_q : pp_q pp = q;
  wf_P2 : pp_P2 pp =2= ECP2_generator;
  wf_g : 0 <= pp_g pp <= q;
  wf_alpha : 0 <= alpha;
  wf_beta : pp_beta pp = pp_g pp ^ alpha mod q;
}.

(** Coefficients are numbers of at most 256 bits. *)
Definition in_range (l : list Z) : Prop := Forall (fun x => 0 <= x <= q) l.

Lemma order_256 : q < 2 ^ 256.
Proof. vm_compute. done. Qed.

Lemma in_range_lookup l i : in_range l -> 0 <= l !!! i <= q.
Proof.
  intros Hl. pose proof order_gt_1. destruct (decide (i < length l)%nat) as [Hi|Hi].
  - eapply Forall_lookup_1 in Hl; [done|]. by apply list_lookup_lookup_total_lt.
  - rewrite list_lookup_total_alt, lookup_ge_None_2 by lia. simpl. lia.
Qed.

Lemma wf_beta_range `{C : CurveOps} pp alpha : wf_params pp alpha -> 0 <= pp_beta pp < q.
Proof.
  intros Hpp. rewrite (wf_beta _ _ Hpp). pose proof order_gt_1. apply Z.mod_pos_bound. lia.
Qed.

(** [c1], [c2] is an ElGamal encryption of [f] under [beta]. *)
Definition encrypts `{C : CurveOps} (pp : Params) (c1 c2 f : Z) : Prop :=
  exists u, 0 <= u /\ 0 <= c1 < q /\ 0 <= c2 < q
    /\ c1 ≡[q] pp_g pp ^ u /\ c2 ≡[q] pp_beta pp ^ u * f.

(** A UAV holds its encrypted share of every factor of the polynomial. *)
Definition holds_shares `{C : CurveOps} (pp : Params) (b d : list Z) (uav : UAV) : Prop :=
  length (u_c1 uav) = length b /\ length (u_c2 uav) = length b
  /\ forall i c1 c2, u_c1 uav !! i = Some c1 -> u_c2 uav !! i = Some c2 ->
       encrypts pp c1 c2 (d !!! i * u_ID uav + b !!! i).

Section KeyFacts.
Context `{GL : GmpLaws} `{BL : BigLaws} `{HL : !HashLaws HO} `{CL : !CurveLaws CO} `{!ClockOps}.

Lemma Setup_spec n tm w :
  Setup n tm @ w ⇓ fun r w' =>
    later w w' /\ rng_at state_gmp (next_seed w) 2 w' /\ wf_params (fst r) (snd r)
    /\ pp_g (fst r) = draw (next_seed w) 0 /\ snd r = draw (next_seed w) 1
    /\ pp_n (fst r) = n /\ pp_tm (fst r) = tm /\ pp_PK (fst r) = [].
Proof.
  pose proof order_gt_1. pose proof order_256. pose proof big_256. unfold Setup. step.
  apply runs_initState. intros w1 Hw1 _ Hr1. step. step.
  call BIG_to_mpz_spec; [rewrite order_spec; lia|]. rewrite order_spec. intros ? ->. step.
  apply (runs_rand _ _ _ _ _ Hr1). intros w2 Hr2 Hw2. step.
  apply (runs_rand _ _ _ _ _ Hr2). intros w3 Hr3 Hw3. step. step.
  pose proof (draw_range (next_seed w) 0). pose proof (draw_range (next_seed w) 1).
  apply returns_pow; [lia..|]. step. split_and!; simpl; try done; try lia.
  - by transitivity w1; [|transitivity w2].
  - split; simpl; (done || lia).
Qed.

Lemma getPK_empty : getPK [] = Fault OutOfRange.
Proof. reflexivity. Qed.

(** Public key [i] is [b_0 ... b_i] times the generator. *)
Lemma getPK_spec b :
  b <> [] -> Forall (fun x => 0 <= x < 2 ^ 256) b ->
  getPK b ⇓ fun PK => length PK = length b
    /\ forall i P, PK !! i = Some P -> P =2= mul2 (secret b (S i)) ECP2_generator.
Proof.
  intros Hb Hr. unfold getPK. step.
  assert (Hsz : Z.max 1 (vec_size b) = vec_size b).
  { unfold vec_size. destruct b; [done|]. simpl. lia. }
  rewrite Hsz. unfold vec_size.
  assert (Hnn : forall n, 0 <= secret b n).
  { intros n. apply bigprod_nonneg. intros i _.
    destruct (decide (i < length b)%nat) as [Hi|Hi].
    - eapply Forall_lookup_1 in Hr; [|by apply list_lookup_lookup_total_lt]. lia.
    - by rewrite list_lookup_total_alt, lookup_ge_None_2 by lia. }
  apply (for_inv (fun n s => length (snd s) = Z.to_nat n
    /\ fst s =2= mul2 (secret b (Z.to_nat n)) ECP2_generator
    /\ forall i P, snd s !! i = Some P -> P =2= mul2 (secret b (S i)) ECP2_generator));
    [lia| | |].
  - split_and!; simpl; [done| |done]. symmetry. apply zmul_1.
  - intros i [A PK] Hi (Hlen & HA & HPK). simpl in Hlen, HA, HPK. step.
    apply returns_vec_at; [unfold vec_size; lia|]. intros bi Hbi.
    rewrite Forall_lookup in Hr. pose proof (Hr _ _ Hbi) as Hbr. step.
    call ECP2_mul_mpz_spec; [done|]. intros A' HA'. step. simpl.
    replace (Z.to_nat (i + 1)) with (S (Z.to_nat i)) by lia.
    assert (HA'' : A' =2= mul2 (secret b (S (Z.to_nat i))) ECP2_generator).
    { rewrite HA'. unfold mul2 in *. rewrite HA, zmul_mul by (apply Hnn || lia).
      unfold secret. cbn [bigprod]. rewrite (list_lookup_total_correct _ _ _ Hbi).
      by rewrite Z.mul_comm. }
    split_and!; [rewrite length_app; simpl; lia|done|].
    intros j P [Hj|[Hge Hj]]%lookup_app_Some; [by apply HPK|].
    apply list_lookup_singleton_Some in Hj as [Hj <-]. by replace j with (Z.to_nat i) by lia.
  - intros [A PK] (Hlen & _ & HPK). step. split; [simpl in *; lia|done].
Qed.
(** [l] and its extension by one element, looked up. *)
Lemma lookup_snoc {A} (l : list A) (x y : A) i :
  (l ++ [x]) !! i = Some y -> l !! i = Some y \/ i = length l /\ y = x.
Proof.
  intros [Hy|[Hge Hy]]%lookup_app_Some; [by left|]. right.
  apply list_lookup_singleton_Some in Hy as [Hi ->]. split; [lia|done].
Qed.

Lemma getUAV_spec pp alpha d b id s k w :
  wf_params pp alpha -> in_range b -> in_range d -> (length b <= length d)%nat ->
  0 <= id -> rng_at state_gmp s k w ->
  getUAV pp d b id @ w ⇓ fun uav w' =>
    later w w' /\ rng_at state_gmp s (k + length b) w'
    /\ u_ID uav = id /\ holds_shares pp b d uav.
Proof.
  intros Hpp Hb Hd Hlen Hid Hw. pose proof order_gt_1. pose proof (wf_beta_range _ _ Hpp) as Hbeta.
  pose proof (wf_g _ _ Hpp) as Hg. unfold getUAV. rewrite (wf_q _ _ Hpp). step.
  apply (for_runs_inv (fun n cs w' => later w w' /\ rng_at state_gmp s (k + Z.to_nat n) w'
    /\ length (fst cs) = Z.to_nat n /\ length (snd cs) = Z.to_nat n
    /\ forall i c1 c2, fst cs !! i = Some c1 -> snd cs !! i = Some c2 ->
         encrypts pp c1 c2 (d !!! i * id + b !!! i)));
    [unfold vec_size; lia|by rewrite Nat.add_0_r; split_and!| |].
  2:{ intros [c1s c2s] w' (Hw' & Hr' & H1 & H2 & Hc). step. unfold vec_size in Hr'.
      rewrite Nat2Z.id in Hr'. split_and!; [done..|].
      unfold vec_size, holds_shares in *. simpl in *. split_and!; [lia|lia|done]. }
  intros i [c1s c2s] w1 Hi (Hw1 & Hr1 & Hl1 & Hl2 & Hc). unfold vec_size in Hi. simpl in Hl1, Hl2, Hc.
  step. step. apply returns_vec_at; [unfold vec_size; lia|]. intros di Hdi.
  step. step. apply returns_vec_at; [unfold vec_size; lia|]. intros bi Hbi.
  unfold in_range in Hb, Hd. rewrite Forall_lookup in Hb, Hd.
  pose proof (Hb _ _ Hbi) as Hbr. pose proof (Hd _ _ Hdi) as Hdr.
  step. step. apply returns_rem; [nia|lia|].
  step. apply (runs_rand _ _ _ _ _ Hr1). intros w2 Hr2 Hw2.
  pose proof (draw_range s (k + Z.to_nat i)) as Hu. set (u := draw s (k + Z.to_nat i)) in *.
  step. step. apply returns_pow; [lia..|].
  step. step. apply returns_pow; [lia..|].
  pose proof (Z.mod_pos_bound (pp_beta pp ^ u) q ltac:(lia)).
  pose proof (Z.mod_pos_bound (di * id + bi) q ltac:(lia)).
  step. step. apply returns_rem; [nia|lia|]. step. simpl. rewrite !length_app. simpl.
  replace (k + Z.to_nat (i + 1))%nat with (S (k + Z.to_nat i)) by lia.
  split_and!; [by transitivity w1|done|lia|lia|].
  intros j c1 c2 [Hj1|[Hj1 ->]]%lookup_snoc [Hj2|[Hj2 ->]]%lookup_snoc.
  - by apply Hc.
  - apply lookup_lt_Some in Hj1. lia.
  - apply lookup_lt_Some in Hj2. lia.
  - replace j with (Z.to_nat i) by lia.
    rewrite (list_lookup_total_correct _ _ _ Hbi), (list_lookup_total_correct _ _ _ Hdi).
    exists u. split_and!; try (apply Z.mod_pos_bound; lia); [lia|by rewrite cong_mod|].
    by rewrite !cong_mod.
Qed.

Lemma draw_coefficients_spec v tm s k w :
  rng_at v s k w -> 1 <= tm ->
  draw_coefficients v tm @ w ⇓ fun r w' =>
    later w w' /\ rng_at v s (k + 2 * Z.to_nat (tm - 1)) w'
    /\ in_range (fst r) /\ in_range (snd r)
    /\ length (fst r) = Z.to_nat (tm - 1) /\ length (snd r) = Z.to_nat (tm - 1).
Proof.
  intros Hw Htm. unfold draw_coefficients.
  apply (for_runs_inv (fun n bd w' => later w w' /\ rng_at v s (k + 2 * Z.to_nat n) w'
    /\ in_range (fst bd) /\ in_range (snd bd)
    /\ length (fst bd) = Z.to_nat n /\ length (snd bd) = Z.to_nat n));
    [lia|rewrite Nat.add_0_r; by split_and!; try constructor| |done].
  intros i [b d] w1 Hi (Hw1 & Hr1 & Hb & Hd & Hlb & Hld). simpl in Hb, Hd, Hlb, Hld.
  step. apply (runs_rand _ _ _ _ _ Hr1). intros w2 Hr2 Hw2.
  step. apply (runs_rand _ _ _ _ _ Hr2). intros w3 Hr3 Hw3. step.
  unfold fst, snd. rewrite !length_app. simpl length.
  replace (k + 2 * Z.to_nat (i + 1))%nat with (S (S (k + 2 * Z.to_nat i))) by lia.
  assert (Hdr : forall k, 0 <= draw s k <= q) by (intros k'; pose proof (draw_range s k'); lia).
  split_and!; [|done|..]; try lia.
  - by transitivity w1; [|transitivity w2].
  - apply Forall_app. split; [done|]. by constructor.
  - apply Forall_app. split; [done|]. by constructor.
Qed.
End KeyFacts.

(** ** Signatures *)

(** A partial signature on [Hm] under the share of the polynomial [F]. *)
Definition parsig_ok `{C : CurveOps} (pp : Params) (F : Z -> Z) (Hm : ECP) (ps : parSig) : Prop :=
  exists U s, 0 <= U /\ 0 <= s /\ 0 <= ps_cj ps < q /\ ps_cj ps ≡[q] pp_g pp ^ U
    /\ ps_sig ps =1= mul1 s Hm /\ s ≡[q] pp_beta pp ^ U * F (ps_ID ps).

(** Entry [i] of a re-encrypted signature, for a verifier whose hash is [h]. *)
Definition sigma_ok_at `{C : CurveOps} (pp : Params) (F : Z -> Z) (Hm : ECP) (h : Z)
    (aux : Z) (sig : ECP) (id : Z) : Prop :=
  exists V s, 0 <= V /\ 0 <= s /\ 0 <= aux < q /\ aux ^ h ≡[q] pp_beta pp ^ V
    /\ sig =1= mul1 s Hm /\ s ≡[q] pp_beta pp ^ V * F id.

Section SignFacts.
Context `{GL : GmpLaws} `{BL : BigLaws} `{HL : !HashLaws HO} `{CL : !CurveLaws CO} `{!ClockOps}.
Context (pp : Params) (alpha : Z).
Hypothesis Hpp : wf_params pp alpha.

(** The products of the ciphertexts encrypt the value of the polynomial. *)
Lemma Sign_spec b d uav (t : nat) M Hm :
  holds_shares pp b d uav -> (t <= length b)%nat -> hashToPoint M q = Ok Hm ->
  Sign pp uav (Z.of_nat t + 1) M ⇓ fun ps =>
    ps_ID ps = u_ID uav /\ parsig_ok pp (share_poly b d t) Hm ps.
Proof.
  intros (Hl1 & Hl2 & Henc) Ht HHm. pose proof order_gt_1. pose proof order_256.
  unfold Sign. rewrite (wf_q _ _ Hpp), HHm, Z.add_simpl_r. step.
  apply (for_inv (fun n s => exists U, 0 <= U /\ 0 <= fst s < q /\ 0 <= snd s < q
    /\ fst s ≡[q] pp_g pp ^ U
    /\ snd s ≡[q] pp_beta pp ^ U * share_poly b d (Z.to_nat n) (u_ID uav))); [lia| | |].
  - exists 0. split_and!; simpl; (done || lia).
  - intros i [cj sj] Hi (U & HU & Hc & Hs & Hcx & Hsx). simpl in *.
    step. apply returns_vec_at; [unfold vec_size; lia|]. intros c1 Hc1.
    step. apply returns_rem; [|lia|].
    { destruct (lookup_lt_is_Some_2 (u_c2 uav) (Z.to_nat i)) as [c2 Hc2]; [lia|].
      destruct (Henc _ _ _ Hc1 Hc2) as (u & ? & ? & _). nia. }
    step. apply returns_vec_at; [unfold vec_size; lia|]. intros c2 Hc2.
    destruct (Henc _ _ _ Hc1 Hc2) as (u & Hu & Hr1 & Hr2 & Hx1 & Hx2).
    step. apply returns_rem; [nia|lia|]. step. exists (U + u). simpl.
    replace (Z.to_nat (i + 1)) with (S (Z.to_nat i)) by lia.
    split_and!; try (apply Z.mod_pos_bound; lia); [lia|..].
    + rewrite cong_mod, Hcx, Hx1, Z.pow_add_r by done. done.
    + rewrite cong_mod, Hsx, Hx2, Z.pow_add_r by done. unfold share_poly. cbn [bigprod].
      apply cong_eq. ring.
  - intros [cj sj] (U & HU & Hc & Hs & Hcx & Hsx). rewrite Nat2Z.id in Hsx. unfold fst, snd in *.
    step. step. step. call ECP_mul_mpz_spec; [lia|]. intros sigma Hsig. step. simpl.
    split; [done|]. exists U, sj. split_and!; simpl; (done || lia).
Qed.

Lemma collectSig_spec b d UAVs (t : nat) M Hm :
  Forall (holds_shares pp b d) UAVs -> (t <= length b)%nat -> (S t <= length UAVs)%nat ->
  hashToPoint M q = Ok Hm ->
  collectSig pp UAVs (Z.of_nat t + 1) M ⇓ fun sigs =>
    map ps_ID sigs = take (S t) (map u_ID UAVs)
    /\ Forall (parsig_ok pp (share_poly b d t) Hm) sigs.
Proof.
  intros HU Ht Hlen HHm. unfold collectSig.
  apply (for_inv (fun n sigs => map ps_ID sigs = take (Z.to_nat n) (map u_ID UAVs)
    /\ Forall (parsig_ok pp (share_poly b d t) Hm) sigs)); [lia|done| |].
  - intros i sigs Hi [Hids Hok]. step. apply returns_vec_at; [unfold vec_size; lia|].
    intros uav Huav. rewrite Forall_lookup in HU. step.
    call Sign_spec; [by eapply HU|done|done|]. intros ps [Hid Hps]. step.
    rewrite map_app, Hids. replace (Z.to_nat (i + 1)) with (S (Z.to_nat i)) by lia.
    split; [|by apply Forall_app; repeat constructor].
    simpl. rewrite (take_S_r _ _ (u_ID uav)); [by rewrite Hid|]. change (map u_ID UAVs) with (u_ID <$> UAVs). by rewrite list_lookup_fmap, Huav.
  - intros sigs [Hids Hok]. by replace (S t) with (Z.to_nat (Z.of_nat t + 1)) by lia.
Qed.
End SignFacts.

Section KeyGenFacts.
Context `{GL : GmpLaws} `{BL : BigLaws} `{HL : !HashLaws HO} `{CL : !CurveLaws CO} `{!ClockOps}.

Lemma holds_shares_set_PK pp PK b d uav :
  holds_shares (set_PK pp PK) b d uav <-> holds_shares pp b d uav.
Proof. done. Qed.

(** What [KeyGen] leaves: [n] UAVs with shares of the same coefficients, and
    the public keys of their products. *)
Record keys_ok (pp pp' : Params) (b d : list Z) (UAVs : list UAV) : Prop := {
  keys_pp : pp' = set_PK pp (pp_PK pp');
  keys_b : in_range b;
  keys_d : in_range d;
  keys_len_b : Z.of_nat (length b) = pp_tm pp - 1;
  keys_len_d : Z.of_nat (length d) = pp_tm pp - 1;
  keys_len_PK : length (pp_PK pp') = length b;
  keys_PK i P : pp_PK pp' !! i = Some P -> P =2= mul2 (secret b (S i)) ECP2_generator;
  keys_n : Z.of_nat (length UAVs) = pp_n pp;
  keys_shares : Forall (holds_shares pp' b d) UAVs;
  keys_ids : Forall (fun u => 1 <= u_ID u <= q) UAVs;
}.

(** UAV [j] draws its identity, then one nonce for each coefficient. *)
Lemma KeyGen_spec pp alpha s k w :
  wf_params pp alpha -> 2 <= pp_tm pp -> 0 <= pp_n pp -> rng_at state_gmp s k w ->
  let k0 := (k + 2 * Z.to_nat (pp_tm pp - 1))%nat in
  let tm := Z.to_nat (pp_tm pp) in
  KeyGen pp alpha @ w ⇓ fun r w' =>
    later w w' /\ rng_at state_gmp s (k0 + Z.to_nat (pp_n pp) * tm + 1) w'
    /\ h_alpha (snd r) = alpha
    /\ map u_ID (snd (fst r)) = map (fun j => draw s (k0 + j * tm)) (seq 0 (Z.to_nat (pp_n pp)))
    /\ exists b d, keys_ok pp (fst (fst r)) b d (snd (fst r)).
Proof.
  intros Hpp Htm Hn Hw k0 tm. pose proof order_256. unfold KeyGen. step.
  call draw_coefficients_spec; [done|lia|]. intros [b d] w1 (Hw1 & Hr1 & Hb & Hd & Hlb & Hld).
  fold k0 in Hr1. simpl in Hb, Hd, Hlb, Hld. step. step. call getPK_spec.
  { intros ->. simpl in Hlb. lia. }
  { eapply Forall_impl; [exact Hb|]. simpl. intros. lia. }
  intros PK [HlPK HPK]. step. apply (for_runs_inv (fun n UAVs w' => later w w'
    /\ rng_at state_gmp s (k0 + Z.to_nat n * tm) w'
    /\ map u_ID UAVs = map (fun j => draw s (k0 + j * tm)) (seq 0 (Z.to_nat n))
    /\ Forall (holds_shares pp b d) UAVs)); [done|by rewrite Nat.add_0_r; split_and!| |].
  - intros i UAVs w2 Hi (Hw2 & Hr2 & Hlen & HU). step.
    apply (runs_rand _ _ _ _ _ Hr2). intros w3 Hr3 Hw3. step.
    pose proof (draw_range s (k0 + Z.to_nat i * tm)).
    call (getUAV_spec (set_PK pp PK) alpha); [|done|done|lia|lia|exact Hr3|].
    { destruct Hpp. by split. }
    intros uav w4 (Hw4 & Hr4 & Hidu & Hsh). step. split_and!.
    + by transitivity w2; [|transitivity w3].
    + replace (k0 + Z.to_nat (i + 1) * tm)%nat
        with (S (k0 + Z.to_nat i * tm) + length b)%nat by (unfold tm; lia). done.
    + replace (Z.to_nat (i + 1)) with (S (Z.to_nat i)) by lia.
      rewrite seq_S, !map_app, Hlen. simpl. by rewrite Hidu.
    + apply Forall_app. split; [done|]. by constructor.
  - intros UAVs w2 (Hw2 & Hr2 & Hlen & HU). change (pp_n (set_PK pp PK)) with (pp_n pp) in *. step.
    apply (runs_rand _ _ _ _ _ Hr2). intros w3 Hr3 Hw3. step. unfold fst, snd.
    split_and!; [by transitivity w2|by rewrite Nat.add_1_r|done|done|].
    assert (Hl : length UAVs = Z.to_nat (pp_n pp)).
    { by rewrite <- (length_map u_ID), Hlen, length_map, length_seq. }
    exists b, d. split; simpl; try (done || lia). apply Forall_map with (f := u_ID) (P := fun i => 1 <= i <= q).
    change (u_ID <$> UAVs) with (map u_ID UAVs). rewrite Hlen. apply Forall_fmap, Forall_forall.
    intros j _. apply draw_range.
Qed.
End KeyGenFacts.

(** ** Re-encryption *)

Section AggFacts.
Context `{GL : GmpLaws} `{BL : BigLaws} `{HL : !HashLaws HO} `{CL : !CurveLaws CO} `{!ClockOps}.
Context (fuel : nat) (pp : Params) (alpha : Z).
Hypothesis Hpp : wf_params pp alpha.
Hypothesis Hg : ~ pp_g pp ≡[q] 0.

(** The key satisfies [rk * h = alpha] modulo [q - 1]. *)
Lemma rekey_spec uavH PK_v h :
  h_alpha uavH = alpha -> 0 <= PK_v -> Z.gcd h (q - 1) = 1 ->
  hashToCoprime fuel (PK_v ^ alpha mod q) (q - 1) order_factors = Ok h ->
  rekey fuel pp uavH PK_v ⇓ fun rk => 0 <= rk /\ rk * h ≡[q - 1] alpha.
Proof.
  intros Ha HPK Hgcd Hh. pose proof order_256 as H256. pose proof (wf_alpha _ _ Hpp).
  assert (Hq1 : 2 < q) by (vm_compute; done).
  unfold rekey. rewrite (wf_q _ _ Hpp), Ha. step. apply returns_pow; [done|done|lia|].
  step. rewrite getFactors_spec. step. step. rewrite Hh. step.
  destruct (invert_mpz_spec h (q - 1)) as [Hir Hi1]; [lia|done|].
  apply returns_rem; [nia|lia|]. split; [apply Z.mod_pos_bound; lia|].
  rewrite cong_mod, <- Z.mul_assoc, (Z.mul_comm _ h), Hi1. by rewrite Z.mul_1_r.
Qed.

(** Re-encryption cancels against the verifier's exponent. *)
Lemma reencrypt_exponent c e rk h U :
  0 <= U -> 0 <= e -> 0 <= rk -> 0 <= h -> rk * h ≡[q - 1] alpha -> c ≡[q] pp_g pp ^ U ->
  (((c * (pp_g pp ^ e mod q)) mod q) ^ rk mod q) ^ h ≡[q] pp_beta pp ^ (U + e).
Proof.
  intros HU He Hrk Hh Hrh Hc. pose proof (wf_alpha _ _ Hpp) as Ha.
  rewrite (wf_beta _ _ Hpp), !cong_mod, Hc.
  rewrite <- Z.pow_add_r, <- !Z.pow_mul_r by lia.
  apply pow_exp_mod; [apply curve_order_prime|done|nia|nia|].
  rewrite Hrh. by rewrite Z.mul_comm.
Qed.

Lemma AggSig_spec parSigs uavH PK_v h F Hm w :
  h_alpha uavH = alpha -> 0 <= PK_v -> 0 <= h -> Z.gcd h (q - 1) = 1 ->
  hashToCoprime fuel (PK_v ^ alpha mod q) (q - 1) order_factors = Ok h ->
  Forall (parsig_ok pp F Hm) parSigs ->
  AggSig fuel parSigs pp uavH PK_v @ w ⇓ fun sigma w' =>
    later w w' /\ sg_IDs sigma = map ps_ID parSigs
    /\ length (sg_aux sigma) = length parSigs /\ length (sg_sig sigma) = length parSigs
    /\ forall i aux sig id, sg_aux sigma !! i = Some aux -> sg_sig sigma !! i = Some sig ->
         sg_IDs sigma !! i = Some id -> sigma_ok_at pp F Hm h aux sig id.
Proof.
  intros Ha HPK Hh Hgcd Hhash Hps. pose proof order_gt_1. pose proof order_256.
  pose proof (wf_beta_range _ _ Hpp) as Hbeta. pose proof (wf_g _ _ Hpp) as Hgr.
  unfold AggSig. rewrite (wf_q _ _ Hpp). step.
  apply runs_initState. intros w1 Hw1 _ Hr1. step. step.
  call rekey_spec; [done..|]. intros rk [Hrk Hrh]. step.
  apply (runs_rand _ _ _ _ _ Hr1). intros w2 Hr2 Hw2.
  pose proof (draw_range (next_seed w) 0) as He. set (e := draw (next_seed w) 0) in *. step. step. apply returns_pow; [lia..|].
  step. step. apply returns_pow; [lia..|]. step. unfold vec_size.
  apply (for_inv (fun n sigma => sg_IDs sigma = take (Z.to_nat n) (map ps_ID parSigs)
    /\ length (sg_aux sigma) = Z.to_nat n /\ length (sg_sig sigma) = Z.to_nat n
    /\ forall i aux sig id, sg_aux sigma !! i = Some aux -> sg_sig sigma !! i = Some sig ->
         sg_IDs sigma !! i = Some id -> sigma_ok_at pp F Hm h aux sig id)); [lia|done| |].
  2:{ intros sigma (Hids & Hla & Hls & Hok). rewrite Nat2Z.id in *. split_and!; try done.
      - by transitivity w1.
      - rewrite Hids. apply take_ge. by rewrite length_map. }
  intros i sigma Hi (Hids & Hla & Hls & Hok).
  step. apply returns_vec_at; [unfold vec_size; lia|]. intros ps Hpsi.
  rewrite Forall_lookup in Hps. destruct (Hps _ _ Hpsi) as (U & s & HU & Hs & Hc & Hcx & Hsig & Hsx).
  pose proof (Z.mod_pos_bound (pp_g pp ^ e) q ltac:(lia)).
  pose proof (Z.mod_pos_bound (pp_beta pp ^ e) q ltac:(lia)).
  step. apply returns_rem; [nia|lia|]. step. apply returns_pow; [|done|lia|].
  { apply Z.mod_pos_bound. lia. }
  step. call ECP_mul_mpz_spec; [lia|]. intros sig_i Hsigi. step. simpl.
  assert (Hidi : map ps_ID parSigs !! Z.to_nat i = Some (ps_ID ps)).
  { change (map ps_ID parSigs) with (ps_ID <$> parSigs). by rewrite list_lookup_fmap, Hpsi. }
  replace (Z.to_nat (i + 1)) with (S (Z.to_nat i)) by lia.
  rewrite (take_S_r _ _ _ Hidi), Hids, !length_app. simpl. split_and!; [done|lia|lia|].
  intros j aux sig id [Hj1|[Hj1 ->]]%lookup_snoc [Hj2|[Hj2 ->]]%lookup_snoc Hj3.
  - apply lookup_lt_Some in Hj1 as Hlt. apply (Hok j); [done|done|].
    rewrite <- Hids in Hj3. apply lookup_app_Some in Hj3 as [Hj3|[Hge Hj3]]; [done|].
    rewrite Hids, length_take, length_map in Hge. lia.
  - apply lookup_lt_Some in Hj1. lia.
  - apply lookup_lt_Some in Hj2. lia.
  - assert (id = ps_ID ps) as ->.
    { rewrite <- (take_S_r _ _ _ Hidi), lookup_take_lt in Hj3 by lia.
      rewrite Hla in Hj1. subst j. congruence. }
    exists (U + e), ((pp_beta pp ^ e mod q) * s). split_and!; [lia|nia|apply Z.mod_pos_bound; lia..| | |].
    + apply reencrypt_exponent; (done || lia).
    + rewrite Hsigi, Hsig. unfold mul1. by apply zmul_mul; [lia|].
    + rewrite cong_mod, Hsx, Z.pow_add_r by lia. apply cong_eq. ring.
Qed.
End AggFacts.
