(* ===== verification/Verification.v ===== *)
(** * What [Verify] accepts

    Theorems about [Verify] of src/fussion.cpp and about the whole protocol
    ([fussion]): the exact condition under which a re-encrypted signature is
    accepted, that honest runs are accepted, that a changed one is not, and
    the failures of malformed inputs. *)

From Stdlib Require Import ZArith Lia Setoid Morphisms.
From stdpp Require Import base list.
From S2P Require Import Prelude ModArith Primality Text Group Gmp Miracl Tools Coprime Scheme.

Open Scope Z_scope.

Local Notation q := curve_order.

Section VerifyFacts.
Context `{GL : GmpLaws} `{BL : BigLaws} `{HL : !HashLaws HO} `{CL : !CurveLaws CO} `{!ClockOps}.

(** ** Sums of points *)

Fixpoint psum (n : nat) (f : nat -> ECP) : ECP :=
  match n with
  | O => ECP_inf
  | S n' => ECP_add (psum n' f) (f n')
  end.

Lemma psum_ext n f g :
  (forall i, (i < n)%nat -> f i =1= g i) -> psum n f =1= psum n g.
Proof.
  induction n as [|n IH]; intros Hfg; simpl; [done|].
  by rewrite IH, (Hfg n) by (intros; try apply Hfg; lia).
Qed.

Lemma psum_G1 n f : (forall i, (i < n)%nat -> in_G1 (f i)) -> in_G1 (psum n f).
Proof.
  induction n as [|n IH]; intros Hf; simpl; [apply G1_inf|].
  apply G1_add; [apply IH; intros; apply Hf; lia|apply Hf; lia].
Qed.

Lemma bigsum_nonneg n f : (forall i, (i < n)%nat -> 0 <= f i) -> 0 <= bigsum n f.
Proof.
  induction n as [|n IH]; intros Hf; simpl; [lia|].
  assert (0 <= bigsum n f) by (apply IH; intros; apply Hf; lia).
  specialize (Hf n ltac:(lia)). lia.
Qed.

(** A sum of multiples of one point is a multiple of it. *)
Lemma psum_mul1 n (c : nat -> Z) P :
  (forall i, (i < n)%nat -> 0 <= c i) -> psum n (fun i => mul1 (c i) P) =1= mul1 (bigsum n c) P.
Proof.
  induction n as [|n IH]; intros Hc; simpl; [done|].
  rewrite IH by (intros; apply Hc; lia). unfold mul1.
  rewrite <- zmul_add; [done| |apply Hc; lia]. apply bigsum_nonneg. intros; apply Hc; lia.
Qed.

(** ** The pairing call *)

Lemma runs_e P Q w (R : FP12 -> World -> Prop) :
  (forall w', later w w' -> w_rng w' = w_rng w -> R (pair P Q) w') -> e P Q @ w ⇓ R.
Proof.
  intros HR. unfold e. step.
  destruct (FP12_isunity (pair P Q) || FP12_iszilch (pair P Q)).
  - unfold runs at 1, print. apply runs_ret, HR; [|done].
    split; simpl; [done|done|]. by apply prefix_app_r.
  - by step; step; apply HR.
Qed.

(** ** The steps of [Verify] *)

Lemma verify_factors_spec sigma pp (Pis : list Z) h (t : nat) :
  pp_q pp = q -> 0 <= h -> length Pis = t -> (t <= length (sg_aux sigma))%nat ->
  (forall i w, Pis !! i = Some w -> 0 <= w < q) ->
  (forall i a, (i < t)%nat -> sg_aux sigma !! i = Some a -> 0 <= a /\ ~ a ≡[q] 0) ->
  verify_factors sigma pp Pis h (Z.of_nat t) ⇓ fun k =>
    length k = t /\ forall i ki w a, k !! i = Some ki -> Pis !! i = Some w ->
      sg_aux sigma !! i = Some a -> 0 <= ki < q /\ ki * a ^ h ≡[q] w.
Proof.
  intros Hq Hh HlP Hla HPis Haux. pose proof order_gt_1. unfold verify_factors. rewrite Hq.
  apply (for_inv (fun n k => length k = Z.to_nat n
    /\ forall i ki w a, k !! i = Some ki -> Pis !! i = Some w ->
         sg_aux sigma !! i = Some a -> 0 <= ki < q /\ ki * a ^ h ≡[q] w)); [lia|done| |].
  2:{ intros k. by rewrite Nat2Z.id. }
  intros i k Hi [Hlk Hk]. step. apply returns_vec_at; [unfold vec_size; lia|]. intros a Ha.
  destruct (Haux (Z.to_nat i) a ltac:(lia) Ha) as [Ha0 Hau].
  step. apply returns_pow; [done|done|lia|].
  step. apply returns_vec_at; [unfold vec_size; lia|]. intros w Hw. pose proof (HPis _ _ Hw).
  destruct (invert_mpz_spec (a ^ h mod q) q) as [Hir Hi1]; [done| |].
  { apply unit_coprime; [apply curve_order_prime|]. rewrite cong_mod.
    by apply unit_pow; [apply curve_order_prime|..]. }
  step. apply returns_rem; [nia|lia|]. step. rewrite length_app. simpl. split; [lia|].
  intros j kj w' a' [Hj|[Hj ->]]%lookup_snoc Hw' Ha'; [by apply (Hk j)|].
  replace (length k) with (Z.to_nat i) in Hj. subst j. simplify_eq.
  split; [apply Z.mod_pos_bound; lia|].
  set (v := invert_mpz (a ^ h mod q) q) in *. rewrite cong_mod in Hi1 |- *.
  rewrite <- Z.mul_assoc, (Z.mul_comm _ (a ^ h)), Hi1. by rewrite Z.mul_1_r.
Qed.

Lemma verify_sum_spec sig (k : list Z) (t : nat) (sg : nat -> ECP) :
  (0 < t)%nat -> (t <= length k)%nat ->
  (forall i, (i < t)%nat -> sig !! i = Some (sg i)) ->
  (forall i, (i < t)%nat -> 0 <= k !!! i < q) ->
  verify_sum sig k (Z.of_nat t) ⇓ fun s => s =1= psum t (fun i => mul1 (k !!! i) (sg i)).
Proof.
  intros Ht Hlk Hsig Hk. pose proof order_256.
  assert (Hat : forall i, (i < t)%nat -> vec_at sig (Z.of_nat i) = Ok (sg i)
    /\ vec_at k (Z.of_nat i) = Ok (k !!! i)).
  { intros i Hi. split; apply vec_at_some; try lia; rewrite Nat2Z.id; [by apply Hsig|].
    apply list_lookup_lookup_total_lt. lia. }
  unfold verify_sum. change 0 with (Z.of_nat 0) at 1 2. destruct (Hat O Ht) as [-> ->].
  step. step. step. step. step. call ECP_mul_mpz_spec; [specialize (Hk O Ht); lia|]. intros s0 Hs0.
  apply (for_inv (fun n s => s =1= psum (S (Z.to_nat n)) (fun i => mul1 (k !!! i) (sg i)))); [lia| | |].
  - simpl. by rewrite group_zero.
  - intros i s Hi Hs. destruct (Hat (S (Z.to_nat i)) ltac:(lia)) as [H1 H2].
    replace (Z.of_nat (S (Z.to_nat i))) with (i + 1) in H1, H2 by lia. rewrite H1, H2.
    step. step. step. step. step.
    call ECP_mul_mpz_spec; [specialize (Hk (S (Z.to_nat i)) ltac:(lia)); lia|].
    intros term Hterm. step. replace (Z.to_nat (i + 1)) with (S (Z.to_nat i)) by lia.
    rewrite Hs, Hterm. done.
  - intros s. by replace (S (Z.to_nat (Z.of_nat t - 1))) with t by lia.
Qed.

(** ** The condition of acceptance *)

(** Well-formed inputs of [Verify]: [t] re-encrypted signatures with proper
    identities and the public key of the secret [S]. *)
Record verify_data (sigma : Sigma) (sk_v : Z) (pp : Params) (M : Z) (t : nat)
    (S : Z) (Hm : ECP) (aux : nat -> Z) (sg : nat -> ECP) : Prop := {
  vi_t : (2 <= t)%nat;
  vi_q : pp_q pp = q;
  vi_P2 : pp_P2 pp =2= ECP2_generator;
  vi_beta : 0 <= pp_beta pp;
  vi_sk : 0 <= sk_v;
  vi_ids : good_ids (sg_IDs sigma) t;
  vi_aux i : (i < t)%nat -> sg_aux sigma !! i = Some (aux i);
  vi_unit i : (i < t)%nat -> 0 <= aux i /\ ~ aux i ≡[q] 0;
  vi_sig i : (i < t)%nat -> sg_sig sigma !! i = Some (sg i);
  vi_G1 i : (i < t)%nat -> in_G1 (sg i);
  vi_Hm : hashToPoint M q = Ok Hm;
  vi_HmG1 : in_G1 Hm;
  vi_S : 0 <= S;
  vi_PK : exists PK, pp_PK pp !! (t - 2)%nat = Some PK /\ PK =2= mul2 S ECP2_generator;
}.

(** ... for which the search of the verifier's hash has returned [h]. *)
Record verify_input (fuel : nat) (sigma : Sigma) (sk_v : Z) (pp : Params) (M : Z) (t : nat)
    (h S : Z) (Hm : ECP) (aux : nat -> Z) (sg : nat -> ECP) : Prop := {
  vi_data : verify_data sigma sk_v pp M t S Hm aux sg;
  vi_h : 0 <= h;
  vi_hash : hashToCoprime fuel (pp_beta pp ^ sk_v mod q) (q - 1) order_factors = Ok h;
}.

(** The search ends when the first hash is good. *)
Lemma verify_data_input fuel sigma sk_v pp M t S Hm aux sg :
  verify_data sigma sk_v pp M t S Hm aux sg -> good_hash (pp_beta pp ^ sk_v mod q) -> (600 <= fuel)%nat ->
  exists h, verify_input fuel sigma sk_v pp M t h S Hm aux sg.
Proof.
  intros Hd Hg Hf. pose proof order_gt_1. pose proof order_256.
  pose proof (Z.mod_pos_bound (pp_beta pp ^ sk_v) q ltac:(lia)).
  pose proof (hashToCoprime_spec fuel (pp_beta pp ^ sk_v mod q) ltac:(lia) Hg Hf) as Hco.
  apply returns_ok in Hco as (h & Hh & Hh0 & _). by exists h.
Qed.

(** The verifier's factors: [k_i * aux_i^h] is the Lagrange weight of [i]. *)
Definition factors_ok (ID : list Z) (t : nat) (h : Z) (aux k : nat -> Z) : Prop :=
  forall i, (i < t)%nat -> 0 <= k i < q
    /\ exists w, lagrange_weight ID t i w /\ k i * aux i ^ h ≡[q] w.

Lemma Verify_spec fuel sigma sk_v pp M t h S Hm aux sg w :
  verify_input fuel sigma sk_v pp M t h S Hm aux sg ->
  Verify fuel sigma sk_v pp M (Z.of_nat t) @ w ⇓ fun r w' =>
    later w w' /\ w_rng w' = w_rng w /\ exists k, factors_ok (sg_IDs sigma) t h aux k
      /\ (r = true <-> psum t (fun i => mul1 (k i) (sg i)) =1= mul1 S Hm).
Proof.
  intros [[Ht Hq HP2 Hbeta Hsk Hids Haux Hunit Hsig HG1 HHm HHmG HS (PK & HPK & HPKe)] Hh Hhash].
  pose proof order_gt_1. unfold Verify. rewrite Hq. step. step.
  call getPi_0_spec; [done..|]. intros Pis [HlP HPis].
  step. step. apply returns_pow; [lia..|]. rewrite getFactors_spec. step. step. step.
  step. step. rewrite Hhash. step. step. step.
  call verify_factors_spec; [done|done|done| | | |].
  { pose proof (lookup_lt_Some _ _ _ (Haux (t - 1)%nat ltac:(lia))). lia. }
  { intros i wi Hwi. by apply (HPis i). }
  { intros i a Hi. rewrite Haux by done. intros [= <-]. by apply Hunit. }
  intros k [Hlk Hk]. 
  assert (Hfac : factors_ok (sg_IDs sigma) t h aux (fun i => k !!! i)).
  { intros i Hi. destruct (lookup_lt_is_Some_2 k i) as [ki Hki]; [lia|].
    destruct (lookup_lt_is_Some_2 Pis i) as [wi Hwi]; [lia|].
    destruct (Hk i ki wi (aux i)) as [Hr Hx]; [done|done|by apply Haux|].
    rewrite (list_lookup_total_correct _ _ _ Hki). split; [done|].
    exists wi. split; [by apply HPis|done]. }
  step. step. call verify_sum_spec; [lia|lia|exact Hsig| |].
  { intros i Hi. by apply Hfac. }
  intros s Hs. step. apply runs_e. intros w1 Hw1 Hr1. rewrite HHm. step. step. step.
  step. step. rewrite (vec_at_some _ _ PK); [|lia|by rewrite <- HPK; f_equal; lia]. step.
  step. apply runs_e. intros w2 Hw2 Hr2. step.
  split_and!; [by transitivity w1|by rewrite Hr2|]. exists (fun i => k !!! i). split; [done|].
  change (FP12_equals (pair s (pp_P2 pp)) (pair Hm PK) = true)
    with (pair s (pp_P2 pp) =t= pair Hm PK).
  assert (HsG : in_G1 s).
  { eapply G1_eq; [symmetry; exact Hs|]. apply psum_G1. intros i Hi.
    apply G1_mul; [by apply Hfac|by apply HG1]. }
  rewrite HP2, HPKe, pair_mul_r by (done || apply G2_generator).
  rewrite <- pair_mul_l by (done || apply G2_generator). split; intros Heq.
  - rewrite <- Hs. apply pair_inj; [done|by apply G1_mul|done].
  - rewrite Hs, Heq. done.
Qed.

(** A factor is a unit modulo [q]. *)
Lemma factors_unit ID t h aux k i :
  good_ids ID t -> factors_ok ID t h aux k -> (i < t)%nat -> ~ k i ≡[q] 0.
Proof.
  intros Hids Hk Hi H0. destruct (Hk i Hi) as (_ & wi & [_ Hw] & Hx).
  rewrite H0 in Hx. rewrite <- Hx in Hw.
  assert (Hv : ~ vanish t (fun i => ID !!! i) i 0 ≡[q] 0).
  { unfold vanish. clear Hw. intros Hz.
    apply (bigprod_unit q t (fun j => ID !!! j - 0)); [apply curve_order_prime| |].
    { intros j Hj. rewrite Z.sub_0_r. by apply (good_ids_unit ID t). }
    rewrite <- (bigprod_except_mul t i) by done. by rewrite Hz. }
  apply Hv. by rewrite <- Hw.
Qed.
(** ** Honest signatures *)

(** Interpolating the shares with the verifier's factors gives the secret. *)
Lemma interpolate b d (t : nat) ID h beta (aux k V s : nat -> Z) :
  good_ids ID (S t) -> factors_ok ID (S t) h aux k ->
  (forall i, (i < S t)%nat -> aux i ^ h ≡[q] beta ^ V i
     /\ s i ≡[q] beta ^ V i * share_poly b d t (ID !!! i)) ->
  bigsum (S t) (fun i => k i * s i) ≡[q] secret b t.
Proof.
  intros Hids Hk Hs. rewrite <- (share_poly_0 b d).
  set (w i := k i * aux i ^ h).
  rewrite <- (lagrange_at_zero q curve_order_prime (S t) (fun i => ID !!! i) (fun i Hi j Hj Hij => good_ids_distinct ID (S t) Hids i Hi j Hj Hij) (share_poly b d t) w).
  - apply bigsum_cong. intros i Hi. destruct (Hs i Hi) as [Ha Hsi]. unfold w.
    rewrite Hsi, Ha. cong_ring.
  - apply share_poly_polyfun.
  - intros i Hi. destruct (Hk i Hi) as (_ & wi & [_ Hw] & Hx). unfold w. by rewrite Hx.
Qed.

Lemma hash_pos h : Z.gcd h (q - 1) = 1 -> h <> 0.
Proof.
  intros Hg ->. rewrite Z.gcd_0_l in Hg. assert (3 < q) by (vm_compute; done). lia.
Qed.

(** What the verifier needs to know about an honest signature. *)
Record honest_sigma (pp : Params) (b d : list Z) (t : nat) (h : Z) (Hm : ECP) (sigma : Sigma)
    : Prop := {
  hs_ids : good_ids (sg_IDs sigma) (S t);
  hs_aux : (S t <= length (sg_aux sigma))%nat;
  hs_sig : (S t <= length (sg_sig sigma))%nat;
  hs_ok i aux sig id : sg_aux sigma !! i = Some aux -> sg_sig sigma !! i = Some sig ->
    sg_IDs sigma !! i = Some id -> sigma_ok_at pp (share_poly b d t) Hm h aux sig id;
}.

(** The exponents and factors behind the entries of an honest signature. *)
Lemma honest_entries pp b d t h Hm sigma :
  honest_sigma pp b d t h Hm sigma ->
  exists V s : nat -> Z, forall i, (i < S t)%nat -> exists a g,
    sg_aux sigma !! i = Some a /\ sg_sig sigma !! i = Some g
    /\ 0 <= V i /\ 0 <= s i /\ 0 <= a < q /\ a ^ h ≡[q] pp_beta pp ^ V i
    /\ g =1= mul1 (s i) Hm
    /\ s i ≡[q] pp_beta pp ^ V i * share_poly b d t (sg_IDs sigma !!! i).
Proof.
  intros [Hids Hla Hls Hok].
  destruct (finite_choice (fun i (x : Z * Z) => exists a g,
    sg_aux sigma !! i = Some a /\ sg_sig sigma !! i = Some g
    /\ 0 <= fst x /\ 0 <= snd x /\ 0 <= a < q /\ a ^ h ≡[q] pp_beta pp ^ fst x
    /\ g =1= mul1 (snd x) Hm
    /\ snd x ≡[q] pp_beta pp ^ fst x * share_poly b d t (sg_IDs sigma !!! i)) (0, 0) (S t))
    as [f Hf]; [|by exists (fun i => fst (f i)), (fun i => snd (f i))].
  intros i Hi. destruct Hids as (Hl & _).
  destruct (lookup_lt_is_Some_2 (sg_aux sigma) i) as [a Ha]; [lia|].
  destruct (lookup_lt_is_Some_2 (sg_sig sigma) i) as [g Hgi]; [lia|].
  destruct (Hok i a g (sg_IDs sigma !!! i)) as (v & x & Hx); [done|done| |].
  { apply list_lookup_lookup_total_lt. lia. }
  by exists (v, x), a, g.
Qed.

(** ... and its verifier: parameters, secret key and public key fit. *)
Record honest_verifier (fuel : nat) (pp : Params) (alpha sk_v M : Z) (b : list Z) (t : nat)
    (h : Z) (Hm : ECP) : Prop := {
  hv_params : wf_params pp alpha;
  hv_g : ~ pp_g pp ≡[q] 0;
  hv_sk : 0 <= sk_v;
  hv_t : (1 <= t)%nat;
  hv_h : 0 <= h;
  hv_gcd : Z.gcd h (q - 1) = 1;
  hv_hash : hashToCoprime fuel (pp_beta pp ^ sk_v mod q) (q - 1) order_factors = Ok h;
  hv_Hm : hashToPoint M q = Ok Hm;
  hv_HmG1 : in_G1 Hm;
  hv_b : in_range b;
  hv_PK : exists PK, pp_PK pp !! (t - 1)%nat = Some PK /\ PK =2= mul2 (secret b t) ECP2_generator;
}.

Lemma honest_input fuel pp alpha sk_v M b d t h Hm sigma :
  honest_verifier fuel pp alpha sk_v M b t h Hm -> honest_sigma pp b d t h Hm sigma ->
  verify_input fuel sigma sk_v pp M (S t) h (secret b t) Hm
    (fun i => default 0 (sg_aux sigma !! i)) (fun i => default Hm (sg_sig sigma !! i)).
Proof.
  intros [Hpp Hg Hsk Ht Hh Hgcd Hhash HHm HHmG Hb (PK & HPK & HPKe)] Hs.
  destruct (honest_entries _ _ _ _ _ _ _ Hs) as (V & s & He).
  assert (Hbeta : ~ pp_beta pp ≡[q] 0).
  { rewrite (wf_beta _ _ Hpp), cong_mod. apply unit_pow; [apply curve_order_prime| |done].
    by apply (wf_alpha _ _ Hpp). }
  pose proof (hash_pos h Hgcd) as Hh0. pose proof (wf_beta_range _ _ Hpp).
  split; [|lia|done]. split; try done; try apply Hpp; try apply Hs; try lia.
  - intros i Hi. by destruct (He i Hi) as (a & g & -> & _).
  - intros i Hi. destruct (He i Hi) as (a & g & -> & _ & Hv & _ & Ha & Hax & _). simpl.
    split; [lia|]. intros Ha0. rewrite Ha0, Z.pow_0_l in Hax by lia.
    by apply (unit_pow q curve_order_prime (pp_beta pp) (V i)).
  - intros i Hi. by destruct (He i Hi) as (a & g & _ & -> & _).
  - intros i Hi. destruct (He i Hi) as (a & g & _ & -> & _ & Hsi & _ & _ & Hgx & _). simpl.
    eapply G1_eq; [symmetry; exact Hgx|]. by apply G1_mul.
  - apply bigprod_nonneg. intros i _. by apply in_range_lookup.
  - exists PK. split; [|done]. rewrite <- HPK. f_equal; lia.
Qed.

(** [Verify] accepts an honest signature. *)
Lemma Verify_honest fuel pp alpha sk_v M b d t h Hm sigma w :
  honest_verifier fuel pp alpha sk_v M b t h Hm -> honest_sigma pp b d t h Hm sigma ->
  Verify fuel sigma sk_v pp M (Z.of_nat (S t)) @ w ⇓ fun r w' => r = true /\ later w w'.
Proof.
  intros Hv Hs. call Verify_spec; [by eapply honest_input|].
  intros r w' (Hw' & _ & k & Hk & Hr). split; [|done]. apply Hr.
  destruct (honest_entries _ _ _ _ _ _ _ Hs) as (V & s & He). destruct Hv.
  assert (Hks : forall i, (i < S t)%nat -> 0 <= k i * s i).
  { intros i Hi. destruct (He i Hi) as (a & g & _ & _ & _ & Hsi & _).
    destruct (Hk i Hi) as [Hki _]. nia. }
  rewrite (psum_ext _ _ (fun i => mul1 (k i * s i) Hm)).
  - rewrite psum_mul1 by done. apply mul1_cong; [done|by apply bigsum_nonneg| |].
    + apply bigprod_nonneg. intros i _. by apply in_range_lookup.
    + apply (interpolate b d t (sg_IDs sigma) h (pp_beta pp) _ k V s (hs_ids _ _ _ _ _ _ _ Hs) Hk).
      intros i Hi. destruct (He i Hi) as (a & g & -> & _ & _ & _ & _ & Hax & _ & Hsx). done.
  - intros i Hi. destruct (He i Hi) as (a & g & _ & -> & _ & Hsi & _ & _ & Hgx & _). simpl.
    rewrite Hgx. unfold mul1. apply zmul_mul; [by apply Hk|done].
Qed.
(** ** Changed signatures *)

Lemma factors_unique ID t h aux k k' i :
  good_ids ID t -> (forall i, (i < t)%nat -> ~ aux i ≡[q] 0) -> 0 <= h ->
  factors_ok ID t h aux k -> factors_ok ID t h aux k' -> (i < t)%nat -> k i = k' i.
Proof.
  intros Hids Ha Hh Hk Hk' Hi.
  destruct (Hk i Hi) as (Hr & w1 & Hw1 & H1), (Hk' i Hi) as (Hr' & w2 & Hw2 & H2).
  rewrite (lagrange_weight_unique ID t i w2 w1) in H2 by done.
  apply (cong_small q); [done..|].
  apply (cong_mul_cancel q curve_order_prime (aux i ^ h)).
  - apply unit_pow; [apply curve_order_prime|done|by apply Ha].
  - by rewrite !(Z.mul_comm (aux i ^ h)), H1, H2.
Qed.

(** Adding [D] to one summand adds [D] to the sum. *)
Lemma psum_add n f j D :
  (j < n)%nat ->
  psum n (fun i => if decide (i = j) then ECP_add (f i) D else f i) =1= ECP_add (psum n f) D.
Proof.
  induction n as [|n IH]; intros Hj; [lia|]. simpl. destruct (decide (n = j)) as [->|Hne].
  - rewrite group_assoc. apply group_add_proper; [|done].
    apply group_add_proper; [|done]. apply psum_ext. intros i Hi. by rewrite decide_False by lia.
  - rewrite IH by lia. rewrite <- !group_assoc. apply group_add_proper; [done|]. apply group_comm.
Qed.

Lemma G1_mul_unit k D : 0 <= k -> ~ k ≡[q] 0 -> in_G1 D -> mul1 k D =1= ECP_inf -> D =1= ECP_inf.
Proof.
  intros Hk Hu HD H0. pose proof (Z.invmod_prime k q curve_order_prime) as Hi.
  rewrite <- unit_nz in Hi. specialize (Hi Hu). pose proof order_gt_1.
  assert (Hr : 0 <= Z.invmod k q) by (rewrite <- Z.mod_invmod; apply Z.mod_pos_bound; lia).
  rewrite <- (zmul_1 D). fold (mul1 1 D).
  rewrite (mul1_cong D 1 (Z.invmod k q * k)); [|done|lia|nia|].
  - unfold mul1 in *. rewrite <- zmul_mul, H0 by done. apply zmul_zero.
  - rewrite cong_mod_eq, Hi. by apply Z.mod_1_l.
Qed.

(** A signature that was accepted is rejected once any one of its points is
    moved by a point of [G1] other than infinity. *)
Lemma Verify_rejects_change fuel sigma sk_v pp M t h S Hm aux sg j D w w2 :
  verify_input fuel sigma sk_v pp M t h S Hm aux sg ->
  (j < t)%nat -> in_G1 D -> ~ D =1= ECP_inf ->
  Verify fuel sigma sk_v pp M (Z.of_nat t) @ w ⇓ (fun r _ => r = true) ->
  Verify fuel (mkSigma (sg_aux sigma) (<[j := ECP_add (sg j) D]> (sg_sig sigma)) (sg_IDs sigma))
    sk_v pp M (Z.of_nat t) @ w2 ⇓ fun r _ => r = false.
Proof.
  intros Hin Hj HD HDn Hacc.
  assert (Hin' : verify_input fuel
    (mkSigma (sg_aux sigma) (<[j := ECP_add (sg j) D]> (sg_sig sigma)) (sg_IDs sigma))
    sk_v pp M t h S Hm aux (fun i => if decide (i = j) then ECP_add (sg i) D else sg i)).
  { destruct Hin as [[] ? ?]. split; [|done|done]. split; simpl; try done.
    - intros i Hi. destruct (decide (i = j)) as [->|].
      + apply list_lookup_insert_eq. eapply lookup_lt_Some. by apply vi_sig0.
      + rewrite list_lookup_insert_ne by done. by apply vi_sig0.
    - intros i Hi. destruct (decide (i = j)); [apply G1_add; auto|auto]. }
  pose proof (Verify_spec _ _ _ _ _ _ _ _ _ _ _ w Hin) as H1.
  apply runs_ok in Hacc as (r & w' & Hrun & ->). unfold runs in H1. rewrite Hrun in H1.
  destruct H1 as (_ & _ & k & Hk & Hacc). call Verify_spec; [exact Hin'|].
  intros r' w'' (_ & _ & k' & Hk' & Hr'). destruct r'; [exfalso|done].
  destruct Hacc as [Hacc _]. destruct Hr' as [Hr' _]. specialize (Hacc eq_refl).
  specialize (Hr' eq_refl). simpl in Hk'.
  assert (Hkk : forall i, (i < t)%nat -> k' i = k i).
  { intros i Hi. destruct Hin as [[] ? ?]. apply (factors_unique (sg_IDs sigma) t h aux); try done.
    intros m Hm'. by apply vi_unit0. }
  assert (Hadd : ECP_add (mul1 S Hm) (mul1 (k j) D) =1= mul1 S Hm).
  { rewrite <- Hr' at 2. rewrite <- Hacc. rewrite <- psum_add by done. apply psum_ext.
    intros i Hi. rewrite Hkk by done. destruct (decide (i = j)) as [->|]; [|done].
    unfold mul1. by rewrite zmul_distr. }
  apply HDn, (G1_mul_unit (k j)); [by apply Hk| |done|].
  - destruct Hin as [[] ? ?]. by apply (factors_unit (sg_IDs sigma) t h aux).
  - apply (group_cancel (mul1 S Hm)). by rewrite Hadd, group_zero_r.
Qed.

(** ** Failures *)

Lemma Verify_too_few fuel sigma sk_v pp M t (w : World) :
  pp_q pp <> 0 -> vec_size (sg_IDs sigma) < t ->
  Verify fuel sigma sk_v pp M t w = Fault OutOfRange.
Proof.
  intros Hq Hlen. unfold Verify, getPi_0. unfold mbind at 1, stm_bind at 1, lift at 1.
  rewrite (for_fault _ OutOfRange (vec_size (sg_IDs sigma)) t); [done|unfold vec_size in *; lia|..].
  - intros j s' Hj. destruct (vec_at_in_range (sg_IDs sigma) j) as (x & _ & ->); [done|].
    unfold mbind, outcome_bind, mpz_rem. destruct (Z.eqb_spec (pp_q pp) 0); [done|]. by eexists.
  - intros s'. by rewrite vec_at_out_of_range by (right; lia).
Qed.
End VerifyFacts.

(** ** The whole protocol *)

Section Protocol.
Context `{GL : GmpLaws} `{BL : BigLaws} `{HL : !HashLaws HO} `{CL : !CurveLaws CO} `{!ClockOps}.
Context (fuel : nat).

(** The part of [fussion] that follows the key generation. *)
Definition session (pp : Params) (UAVs : list UAV) (uavH : UAV_h) (t M : Z) : prog bool :=
  sigmas ← lift (collectSig pp UAVs t M);
  sk_v ← rand_mpz state_gmp;
  PK_v ← lift (pow_mpz (pp_g pp) sk_v (pp_q pp));
  sig ← AggSig fuel sigmas pp uavH PK_v;
  Verify fuel sig sk_v pp M t.

(** [fussion] for any group size, largest threshold and message. *)
Definition protocol (n tm M : Z) : prog bool :=
  initState state_gmp ≫= fun _ =>
  initRNG ≫= fun _ =>
  pa ← Setup n tm;
  let (pp0, alpha) := pa : Params * Z in
  kg ← KeyGen pp0 alpha;
  let '(pp, UAVs, uavH) := kg : Params * list UAV * UAV_h in
  session pp UAVs uavH (tm / 2 + 1) M.

Lemma fussion_protocol : fussion fuel = protocol 2 2 123456789.
Proof. reflexivity. Qed.

(** The draws of a run: generator, secret, identity of UAV [j], verifier's
    secret; the generator is seeded by the third clock reading. *)
Section Draws.
Context (w : World) (n tm : Z).

Definition run_seed : randstate := gmp_randseed_ui (clock_ns (S (S (w_tick w))) mod 2 ^ 64).
Definition run_g : Z := draw run_seed 0.
Definition run_alpha : Z := draw run_seed 1.
Definition run_id (j : nat) : Z := draw run_seed (2 * Z.to_nat tm + j * Z.to_nat tm).
Definition run_sk : Z :=
  draw run_seed (2 * Z.to_nat tm + Z.to_nat n * Z.to_nat tm + 1).

(** No draw is the order itself, the signers' identities differ, and the
    search for a coprime hash ends. *)
Record good_run : Prop := {
  run_g_ok : run_g <> q;
  run_id_ok j : (j <= Z.to_nat (tm / 2))%nat -> run_id j <> q;
  run_id_distinct i j : (i < j <= Z.to_nat (tm / 2))%nat -> run_id i <> run_id j;
  run_hash_ok : good_hash ((run_g ^ run_alpha mod q) ^ run_sk mod q);
}.
End Draws.

Lemma run_good_ids w tm n UAVs :
  good_run w n tm -> 0 <= tm -> tm / 2 < n ->
  map u_ID UAVs = map (run_id w tm) (seq 0 (Z.to_nat n)) ->
  good_ids (take (S (Z.to_nat (tm / 2))) (map u_ID UAVs)) (S (Z.to_nat (tm / 2))).
Proof.
  intros [_ Hq Hd _] Htm Hn ->. pose proof (Z.div_pos tm 2). set (t := Z.to_nat (tm / 2)) in *.
  assert (Hat : forall i, (i < S t)%nat ->
    take (S t) (map (run_id w tm) (seq 0 (Z.to_nat n))) !!! i = run_id w tm i).
  { intros i Hi. apply list_lookup_total_correct. rewrite lookup_take_lt by lia.
    change (map ?f ?l) with (f <$> l). rewrite list_lookup_fmap, lookup_seq_lt by lia. done. }
  split_and!.
  - rewrite length_take, length_map, length_seq. lia.
  - intros i Hi. rewrite Hat by done. specialize (Hq i ltac:(lia)).
    pose proof (draw_range (run_seed w) (2 * Z.to_nat tm + i * Z.to_nat tm)).
    unfold run_id in *. lia.
  - intros i j Hi Hj Hij. rewrite !Hat by done.
    destruct (decide (i < j)%nat); [apply Hd; lia|]. apply not_eq_sym, Hd. lia.
Qed.

(** The two hashes agree: [PK_v^alpha = beta^sk_v]. *)
Lemma shared_secret g alpha sk :
  0 <= g -> 0 <= alpha -> 0 <= sk ->
  (g ^ sk mod q) ^ alpha mod q = (g ^ alpha mod q) ^ sk mod q.
Proof.
  intros. apply cong_mod_eq. rewrite !cong_mod, <- !Z.pow_mul_r by done. by rewrite Z.mul_comm.
Qed.

(** Signing, re-encryption and verification with generated keys succeed. *)
Lemma session_spec pp0 pp alpha b d UAVs uavH (t : nat) M s k w :
  wf_params pp alpha -> ~ pp_g pp ≡[q] 0 -> keys_ok pp0 pp b d UAVs -> h_alpha uavH = alpha ->
  (1 <= t <= length b)%nat -> (S t <= length UAVs)%nat ->
  good_ids (take (S t) (map u_ID UAVs)) (S t) -> 0 <= M < 2 ^ 256 -> (600 <= fuel)%nat ->
  rng_at state_gmp s k w -> good_hash (pp_beta pp ^ draw s k mod q) ->
  session pp UAVs uavH (Z.of_nat t + 1) M @ w ⇓ fun r w' => r = true /\ later w w'.
Proof.
  intros Hpp Hg [_ Hb _ _ _ HlPK HPK _ Hsh _] Hah Ht HlU Hids HM Hf Hr Hhash.
  pose proof order_gt_1. pose proof order_256.
  pose proof (wf_g _ _ Hpp). pose proof (wf_alpha _ _ Hpp). pose proof (draw_range s k) as Hsk.
  pose proof (hashToPoint_spec M q HM ltac:(lia)) as HHm.
  apply returns_ok in HHm as (Hm & HHm & HmG1).
  pose proof (Z.mod_pos_bound (pp_beta pp ^ draw s k) q ltac:(lia)).
  pose proof (hashToCoprime_spec fuel (pp_beta pp ^ draw s k mod q) ltac:(lia) Hhash Hf) as Hco.
  apply returns_ok in Hco as (h & Hh & Hh0 & Hgcd).
  unfold session. step. step.
  call (collectSig_spec pp alpha); [done|exact Hsh|lia|lia|exact HHm|]. intros sigs [Hsid Hsok].
  step. apply (runs_rand _ _ _ _ _ Hr). intros w1 Hr1 Hw1.
  step. step. rewrite (wf_q _ _ Hpp). apply returns_pow; [lia..|]. step.
  call (AggSig_spec fuel pp alpha); [done|done|done| |exact Hh0|done| |exact Hsok|].
  { apply Z.mod_pos_bound. lia. }
  { rewrite shared_secret by lia. rewrite <- (wf_beta _ _ Hpp). exact Hh. }
  intros sigma w2 (Hw2 & HsIDs & Hla & Hls & Hok).
  assert (Hlsig : length sigs = S t).
  { rewrite <- (length_map ps_ID), Hsid, length_take, length_map. lia. }
  replace (Z.of_nat t + 1) with (Z.of_nat (S t)) by lia.
  call (Verify_honest fuel pp alpha _ M b d t h Hm); [| |].
  - split; try done; [lia|lia|]. destruct (lookup_lt_is_Some_2 (pp_PK pp) (t - 1)) as [PK HPKt]; [lia|].
    exists PK. split; [done|]. rewrite (HPK _ _ HPKt). by replace (S (t - 1)) with t by lia.
  - split; [|lia|lia|done]. by rewrite HsIDs, Hsid.
  - intros r w3 [-> Hw3]. split; [done|]. transitivity w1; [done|]. by transitivity w2.
Qed.

Lemma protocol_spec n tm M w :
  2 <= tm -> tm / 2 < n -> 0 <= M < 2 ^ 256 -> (600 <= fuel)%nat -> good_run w n tm ->
  protocol n tm M @ w ⇓ fun r w' => r = true /\ later w w'.
Proof.
  intros Htm Hn HM Hf Hrun.
  pose proof (run_g_ok _ _ _ Hrun) as Hg0. pose proof (run_hash_ok _ _ _ Hrun) as Hhash.
  pose proof (Z.div_le_upper_bound tm 2 (tm - 1) ltac:(lia) ltac:(lia)) as Hdiv.
  pose proof (Z.div_le_lower_bound tm 2 1 ltac:(lia) ltac:(lia)) as Hdiv'.
  unfold protocol. step. apply runs_initState. intros w1 Hw1 Ht1 _. step.
  unfold runs at 1, initRNG. set (w2 := mkWorld _ _ _ _).
  assert (Hw2 : later w1 w2) by (split; simpl; [done|lia|done]).
  assert (Hseed : next_seed w2 = run_seed w) by (unfold next_seed, run_seed; simpl; by rewrite Ht1).
  step. call Setup_spec. intros [pp0 alpha] w3 (Hw3 & Hr3 & Hpp & Hg & Ha & Hpn & Hptm & _).
  rewrite Hseed in *. unfold fst, snd in *. step. call KeyGen_spec; [exact Hpp|lia|lia|exact Hr3|].
  intros [[pp UAVs] uavH] w4 (Hw4 & Hr4 & Hah & HIDs & b & d & Hkeys). unfold fst, snd in *.
  rewrite Hpn, Hptm in *. set (t := Z.to_nat (tm / 2)).
  replace (2 + 2 * Z.to_nat (tm - 1))%nat with (2 * Z.to_nat tm)%nat in * by lia.
  fold (run_id w tm) in HIDs. pose proof (keys_len_b _ _ _ _ _ Hkeys) as Hlb.
  pose proof (keys_n _ _ _ _ _ Hkeys) as HlU. pose proof (keys_pp _ _ _ _ _ Hkeys) as Hset.
  rewrite Hptm in Hlb. rewrite Hpn in HlU.
  replace (tm / 2 + 1) with (Z.of_nat t + 1) by lia.
  call (session_spec pp0 pp alpha b d);
    [|intros Hc|exact Hkeys|done|lia|lia| |done|done|exact Hr4| |].
  - rewrite Hset. destruct Hpp. by split.
  - rewrite Hset in Hc. simpl in Hc. rewrite Hg in Hc. fold (run_g w) in Hc.
    pose proof (draw_range (run_seed w) 0). fold (run_g w) in *.
    apply (cong_small q) in Hc; lia.
  - unfold t. by apply (run_good_ids w tm n); [|lia..|].
  - fold (run_sk w n tm). rewrite Hset. simpl. by rewrite (wf_beta _ _ Hpp), Hg, Ha.
  - intros r w5 [-> Hw5]. split; [done|].
    transitivity w1; [done|]. transitivity w2; [done|]. transitivity w3; [done|].
    by transitivity w4.
Qed.
End Protocol.
