(* ===== verification/BrpcTools.v ===== *)
(** * brpcTools.cpp: the string codecs of the messages

    One definition per function of src/Tools/brpcTools.cpp, and the round
    trips: what one process writes into a message the other reads back. *)

From Stdlib Require Import ZArith Lia Ascii String.
From stdpp Require Import base list.
From S2P Require Import Prelude ModArith Primality Text Group Gmp Miracl Tools.

Open Scope Z_scope.

Section Codecs.
Context `{G : GmpOps} `{B : BigOps} `{!CurveOps}.

(** ** Numbers *)

Definition mpz_to_str (value : Z) : str := mpz_get_str 16 value.

(** The constructor [mpz_class(str, base)] throws on a malformed numeral. *)
Definition mpz_of_str (s : str) (base : Z) : outcome Z :=
  match mpz_set_str s base with
  | Some z => Ok z
  | None => Fault InvalidArgument
  end.

Definition str_to_mpz (s : str) : outcome Z := mpz_of_str s 16.

(** ** Points and pairing values *)

Definition ECP_to_str (ecp : ECP) : outcome str :=
  let '(_, x, y) := ECP_get ecp in
  xs ← BIG_to_mpz x;
  ys ← BIG_to_mpz y;
  mret (mpz_to_str xs ++ lit "," ++ mpz_to_str ys).

(** [int pos = str.find(",")] is -1 when there is no comma; [substr(0, -1)]
    is then the whole string, and so is [substr(0)]. *)
Definition str_to_ECP (s : str) : outcome ECP :=
  let pos := default (-1) (find_from ","%char s 0) in
  xs ← substr s 0 (if pos <? 0 then None else Some pos);
  x ← str_to_BIG xs;
  ys ← substr s (pos + 1) None;
  y ← str_to_BIG ys;
  mret (snd (ECP_set x y)).

(** An octet over a buffer of [max] bytes, which the library fills without
    looking at its size. *)
Definition in_buffer (max : Z) (S : list Z) : outcome (list Z) :=
  if vec_size S <=? max then Ok S else Fault OutOfRange.

(** The loop that prints the octet in upper-case hexadecimal. *)
Definition octet_to_hex (S : list Z) : outcome str :=
  for_ (vec_size S) (fun i hex_string =>
    b ← vec_at S i;
    mret (hex_string ++ HEX_byte (to_uchar b))) [].

Definition ECP2_to_str (ecp2 : ECP2) (compressed : bool) : outcome str :=
  S ← in_buffer (2 * 48 * 2) (ECP2_toOctet ecp2 compressed);
  octet_to_hex S.

Definition str_to_ECP2 (hex_string : str) : prog ECP2 :=
  let len := vec_size hex_string / 2 in
  buffer ← lift (read_pairs len scan_byte hex_string);
  let (ok, ecp2) := ECP2_fromOctet buffer in
  (if ok =? 1 then mret tt else print (lit "Invalid ECP2 point representation.")) ≫= fun _ =>
  mret ecp2.

Definition FP12_to_str (fp12 : FP12) : outcome str :=
  S ← in_buffer (24 * 48) (FP12_toOctet fp12);
  octet_to_hex S.

Definition str_to_FP12 (hex_string : str) : outcome FP12 :=
  let len := vec_size hex_string / 2 in
  buffer ← read_pairs len scan_byte hex_string;
  mret (FP12_fromOctet buffer).

(** ** Arrays *)

Definition mpzArr_to_str (mpzs : list Z) : outcome str :=
  for_ (vec_size mpzs) (fun i s =>
    z ← vec_at mpzs i;
    mret (s ++ mpz_get_str 10 z ++ lit ",")) [].

(** [mpz_class(item)] reads with base 0. *)
Fixpoint read_items (items : list str) (mpzs : list Z) : outcome (list Z) :=
  match items with
  | [] => mret mpzs
  | item :: items' =>
      z ← mpz_of_str item 0;
      read_items items' (mpzs ++ [z])
  end.

Definition str_to_mpzArr (s : str) : outcome (list Z) := read_items (getline_all ","%char s) [].

(** Elements with [";"] between them. *)
Definition arr_to_str {A} (conv : A -> outcome str) (l : list A) : outcome str :=
  for_ (vec_size l) (fun i oss =>
    let oss' := if i =? 0 then oss else oss ++ lit ";" in
    x ← vec_at l i;
    s ← conv x;
    mret (oss' ++ s)) [].

Definition ECPArr_to_str (ecps : list ECP) : outcome str := arr_to_str ECP_to_str ecps.

Definition ECP2Arr_to_str (ecp2s : list ECP2) (compressed : bool) : outcome str :=
  arr_to_str (fun P => ECP2_to_str P compressed) ecp2s.

(** [while (end != npos) { ... start = end + 1; end = str.find(';', start); }];
    every round moves [start], so the length of the string bounds them. *)
Fixpoint arr_loop {A} (fuel : nat) (conv : str -> prog A) (s : str) (start : Z)
    (end_ : option Z) (acc : list A) : prog (list A * Z) :=
  match end_ with
  | None => mret (acc, start)
  | Some e =>
      match fuel with
      | O => fun _ => Diverge
      | S fuel' =>
          item ← lift (substr s start (Some (e - start)));
          a ← conv item;
          arr_loop fuel' conv s (e + 1) (find_from ";"%char s (e + 1)) (acc ++ [a])
      end
  end.

Definition str_to_arr {A} (conv : str -> prog A) (s : str) : prog (list A) :=
  r ← arr_loop (length s) conv s 0 (find_from ";"%char s 0) [];
  let (acc, start) := r : list A * Z in
  if start <? vec_size s then
    item ← lift (substr s start None);
    a ← conv item;
    mret (acc ++ [a])
  else mret acc.

Definition str_to_ECPArr (s : str) : prog (list ECP) := str_to_arr (fun x => lift (str_to_ECP x)) s.

Definition str_to_ECP2Arr (s : str) : prog (list ECP2) := str_to_arr str_to_ECP2 s.
End Codecs.

(** * Round trips *)

(** ** Searching *)

Lemma find_from_none c s from : (forall x, x ∈ drop (Z.to_nat from) s -> x <> c) -> find_from c s from = None.
Proof.
  intros Hs. unfold find_from. by rewrite (proj2 (list_find_None _ _)) by (by apply Forall_forall).
Qed.

Lemma find_from_some c s from a b :
  drop (Z.to_nat from) s = a ++ c :: b -> c ∉ a ->
  find_from c s from = Some (from + Z.of_nat (length a)).
Proof.
  intros Hd Ha. unfold find_from. rewrite Hd.
  assert (list_find (fun x => x = c) (a ++ c :: b) = Some (length a, c)) as ->; [|done].
  apply list_find_Some. split_and!.
  - by rewrite list_lookup_middle.
  - done.
  - intros j y Hj Hlt ->. apply Ha. rewrite lookup_app_l in Hj by done.
    by eapply list_elem_of_lookup_2.
Qed.

(** Digits are neither commas nor semicolons. *)
Lemma digits_without b c s :
  (b <= 16) -> is_digit 16 c = false -> Forall (fun c => is_digit b c = true) s -> c ∉ s.
Proof.
  intros Hb Hc Hs Hin. rewrite Forall_forall in Hs. specialize (Hs c Hin).
  unfold is_digit in *. destruct (char_digit c) as [d|]; [|done].
  apply Z.ltb_lt in Hs. apply Z.ltb_ge in Hc. lia.
Qed.

Section NumberFacts.
Context `{GL : GmpLaws} `{BL : BigLaws} `{CL : !CurveLaws CO}.

Lemma mpz_roundtrip z : str_to_mpz (mpz_to_str z) = Ok z.
Proof.
  unfold str_to_mpz, mpz_to_str, mpz_of_str. rewrite get_str_spec by auto.
  by rewrite set_str_numeral_16.
Qed.

Lemma str_to_mpz_empty : str_to_mpz [] = Fault InvalidArgument.
Proof. unfold str_to_mpz, mpz_of_str. by rewrite set_str_empty. Qed.

(** A coordinate written in hexadecimal is read back. *)
Lemma coordinate_roundtrip x :
  0 <= BIG_val x < 256 ^ MODBYTES ->
  BIG_to_mpz x = Ok (BIG_val x)
  /\ Forall (fun c => is_digit 16 c = true) (mpz_to_str (BIG_val x))
  /\ mpz_to_str (BIG_val x) <> [] /\ vec_size (mpz_to_str (BIG_val x)) <= 96
  /\ str_to_BIG (mpz_to_str (BIG_val x)) ⇓ fun x' => BIG_val x' = BIG_val x.
Proof.
  intros Hx. unfold mpz_to_str. rewrite get_str_spec by auto.
  destruct (numeral_nonneg 16 ltac:(lia) (BIG_val x) ltac:(lia)) as (Hv & Hf & Hne).
  assert (Hlen : vec_size (numeral 16 (BIG_val x)) <= 96).
  { unfold vec_size. apply (numeral_length 16); [lia| |lia].
    change (16 ^ 96) with (256 ^ MODBYTES). lia. }
  split_and!; [|done|done|done|].
  - pose proof (BIG_to_mpz_spec x Hx) as Hb. apply returns_ok in Hb as (t & -> & ->). done.
  - call str_to_BIG_spec; [done|done|]. intros x' ->. done.
Qed.

(** A finite point survives. *)
Lemma ECP_roundtrip P :
  ECP_isinf P = false ->
  ECP_to_str P ⇓ fun s => s <> [] /\ ";"%char ∉ s /\ vec_size s <= 193
    /\ str_to_ECP s ⇓ fun P' => P' =1= P.
Proof.
  intros HP. unfold ECP_to_str. destruct (ECP_get P) as [[sg x] y] eqn:Hget.
  destruct (ECP_get_set P sg x y x y HP Hget) as (Hx & Hy & _).
  destruct (coordinate_roundtrip x Hx) as (-> & Hdx & Hnx & Hlx & Hrx).
  destruct (coordinate_roundtrip y Hy) as (-> & Hdy & Hny & Hly & Hry).
  step. step. step. step. step.
  set (sx := mpz_to_str (BIG_val x)) in *. set (sy := mpz_to_str (BIG_val y)) in *.
  split_and!.
  - by destruct sx.
  - rewrite !not_elem_of_app. split_and!.
    + by apply (digits_without 16).
    + by intros [=]%list_elem_of_singleton.
    + by apply (digits_without 16).
  - unfold vec_size in *. rewrite !length_app. simpl. lia.
  - unfold str_to_ECP. assert (find_from ","%char (sx ++ lit "," ++ sy) 0 = Some (vec_size sx)) as ->.
    { rewrite (find_from_some _ _ 0 sx sy); [done|done|]. by apply (digits_without 16). }
    simpl default. assert ((vec_size sx <? 0) = false) as -> by (apply Z.ltb_ge; unfold vec_size; lia).
    pose proof (substr_middle [] sx (lit "," ++ sy)) as Hpre. rewrite app_nil_l in Hpre.
    change (vec_size []) with 0 in Hpre. rewrite Hpre. step. step. step. call Hrx. intros x' Hx'. step.
    replace (vec_size sx + 1) with (vec_size (sx ++ lit ",")) by (unfold vec_size; rewrite length_app; simpl; lia).
    rewrite app_assoc, substr_suffix. step. step.
    call Hry. intros y' Hy'. step. by apply (ECP_get_set P sg x y x' y' HP Hget).
Qed.
End NumberFacts.

(** ** Octets *)

Lemma HEX_byte_pair b :
  is_byte b -> exists c1 c2, HEX_byte b = [c1; c2] /\ is_digit 16 c1 = true /\ is_digit 16 c2 = true
    /\ scan_byte [c1; c2] = Ok b.
Proof.
  intros Hb. unfold is_byte in Hb. unfold HEX_byte. do 2 eexists. split; [done|].
  assert (0 <= b / 16 < 16) by (split; [apply Z.div_pos; lia|apply Z.div_lt_upper_bound; lia]).
  pose proof (Z.mod_pos_bound b 16 ltac:(lia)).
  assert (Hd : forall d, 0 <= d < 16 -> is_digit 16 (digit_char_upper d) = true).
  { intros d Hd. unfold is_digit. rewrite char_digit_char_upper by done. apply Z.ltb_lt. lia. }
  split_and!; [by apply Hd..|]. rewrite scan_byte_pair by (by apply Hd). f_equal.
  unfold digits_val, pos_val, dval. simpl. rewrite !char_digit_char_upper by done. simpl.
  pose proof (Z.div_mod b 16). lia.
Qed.

Lemma octet_to_hex_spec S :
  Forall is_byte S ->
  octet_to_hex S = Ok (concat (map HEX_byte S)).
Proof.
  intros HS. unfold octet_to_hex.
  enough (H : for_ (vec_size S) (fun i hex_string =>
    b ← vec_at S i; mret (hex_string ++ HEX_byte (to_uchar b))) []
    ⇓ fun s => s = concat (map HEX_byte S)) by (by apply returns_ok in H as (s & -> & ->)).
  apply (for_inv (fun n s => s = concat (map HEX_byte (take (Z.to_nat n) S))));
    [unfold vec_size; lia|done| |].
  - intros i s Hi ->. step. apply returns_vec_at; [done|]. intros b Hb. step.
    replace (Z.to_nat (i + 1)) with (Datatypes.S (Z.to_nat i)) by lia.
    rewrite (take_S_r _ _ b) by done. rewrite map_app, concat_app. simpl. f_equal.
    rewrite to_uchar_id; [done|]. rewrite Forall_lookup in HS. by eapply HS.
  - intros s ->. unfold vec_size. by rewrite Nat2Z.id, take_ge by done.
Qed.

Lemma length_hex (S : list Z) : length (concat (map HEX_byte S)) = (2 * length S)%nat.
Proof. induction S as [|x S IH]; [done|]. simpl. rewrite IH. lia. Qed.

(** Reading the printed octet gives its bytes. *)
Lemma read_hex_spec S :
  Forall is_byte S ->
  vec_size (concat (map HEX_byte S)) / 2 = vec_size S
  /\ read_pairs (vec_size S) scan_byte (concat (map HEX_byte S)) = Ok S.
Proof.
  intros HS. pose proof length_hex as Hlen. split.
  { unfold vec_size. rewrite Hlen, Nat2Z.inj_mul, Z.mul_comm. by apply Z.div_mul. }
  enough (H : read_pairs (vec_size S) scan_byte (concat (map HEX_byte S)) ⇓ fun l => l = S)
    by (by apply returns_ok in H as (s & -> & ->)).
  unfold read_pairs. apply (for_inv (fun n l => l = take (Z.to_nat n) S));
    [unfold vec_size; lia|done| |].
  - intros i l Hi ->. unfold vec_size in Hi.
    destruct (lookup_lt_is_Some_2 S (Z.to_nat i)) as [b Hb]; [lia|].
    assert (Hbb : is_byte b) by (rewrite Forall_lookup in HS; by eapply HS).
    destruct (HEX_byte_pair b Hbb) as (c1 & c2 & Hx & _ & _ & Hsc).
    pose proof (substr_middle (concat (map HEX_byte (take (Z.to_nat i) S))) [c1; c2]
      (concat (map HEX_byte (drop (Datatypes.S (Z.to_nat i)) S)))) as Hsub.
    rewrite <- Hx in Hsub.
    replace (concat (map HEX_byte (take (Z.to_nat i) S)) ++ HEX_byte b ++
      concat (map HEX_byte (drop (Datatypes.S (Z.to_nat i)) S))) with (concat (map HEX_byte S)) in Hsub.
    2:{ rewrite <- (take_drop (Z.to_nat i) S) at 1. rewrite (drop_S _ b) by done.
        by rewrite map_app, concat_app. }
    replace (vec_size (concat (map HEX_byte (take (Z.to_nat i) S)))) with (2 * i) in Hsub.
    2:{ unfold vec_size. rewrite Hlen, length_take. lia. }
    change (vec_size (HEX_byte b)) with 2 in Hsub. rewrite Hsub. step. step. rewrite Hx, Hsc.
    step. step. step. replace (Z.to_nat (i + 1)) with (Datatypes.S (Z.to_nat i)) by lia.
    by rewrite (take_S_r _ _ b).
  - intros l ->. unfold vec_size. by rewrite Nat2Z.id, take_ge by done.
Qed.

Lemma hex_without S c : is_digit 16 c = false -> Forall is_byte S -> c ∉ concat (map HEX_byte S).
Proof.
  intros Hc. induction 1 as [|b S Hb HS IH]; [by intros ?%elem_of_nil|].
  change (concat (map HEX_byte (b :: S))) with (HEX_byte b ++ concat (map HEX_byte S)).
  destruct (HEX_byte_pair b Hb) as (c1 & c2 & -> & H1 & H2 & _). simpl.
  rewrite !not_elem_of_cons. split_and!; [congruence..|done].
Qed.

Section PointFacts.
Context `{GL : GmpLaws} `{BL : BigLaws} `{CL : !CurveLaws CO}.

Lemma in_buffer_ok max S : vec_size S <= max -> in_buffer max S = Ok S.
Proof. intros H. unfold in_buffer. by rewrite (proj2 (Z.leb_le _ _)). Qed.

Lemma ECP2_roundtrip P :
  ~ P =2= ECP2_inf ->
  ECP2_to_str P true ⇓ fun s => s <> [] /\ ";"%char ∉ s /\ vec_size s <= 194
    /\ exists P', P' =2= P /\ forall w, str_to_ECP2 s w = Ok (P', w).
Proof.
  intros HP. destruct (ECP2_octet P true HP) as (Hb & Hne & Hsz & H1 & HPe). unfold ECP2_to_str.
  rewrite in_buffer_ok by (unfold MODBYTES in Hsz; lia). cbn [mbind outcome_bind]. rewrite octet_to_hex_spec by done. step.
  destruct (read_hex_spec _ Hb) as [Hl Hr]. split_and!.
  - destruct (ECP2_toOctet P true); [done|]. done.
  - by apply hex_without.
  - unfold MODBYTES, vec_size in *. rewrite length_hex. lia.
  - exists (snd (ECP2_fromOctet (ECP2_toOctet P true))). split; [done|]. intros w.
    unfold str_to_ECP2. rewrite Hl, Hr. simpl lift.
    destruct (ECP2_fromOctet (ECP2_toOctet P true)) as [ok P'] eqn:Hf. simpl in H1, HPe. subst ok.
    unfold mbind, stm_bind, lift. by rewrite Hf.
Qed.

Lemma FP12_roundtrip x :
  FP12_to_str x ⇓ fun s => str_to_FP12 s ⇓ fun x' => x' =t= x.
Proof.
  destruct (FP12_octet x) as (Hb & Hsz & Hx). unfold FP12_to_str.
  rewrite in_buffer_ok by (unfold MODBYTES in Hsz; lia). cbn [mbind outcome_bind]. rewrite octet_to_hex_spec by done.
  step. destruct (read_hex_spec _ Hb) as [Hl Hr]. unfold str_to_FP12. rewrite Hl, Hr.
  step. step. by step.
Qed.
End PointFacts.

(** ** Arrays *)

(** The elements with a separator between two of them. *)
Fixpoint join (sep : ascii) (items : list str) : str :=
  match items with
  | [] => []
  | [x] => x
  | x :: items' => x ++ sep :: join sep items'
  end.

Lemma join_cons sep x y items : join sep (x :: y :: items) = x ++ sep :: join sep (y :: items).
Proof. done. Qed.

Lemma join_snoc sep items x :
  join sep (items ++ [x]) = if decide (items = []) then x else join sep items ++ [sep] ++ x.
Proof.
  induction items as [|y [|z items] IH]; [done|done|]. simpl app in *.
  rewrite !join_cons. rewrite IH. simpl. by rewrite <- app_assoc.
Qed.

Lemma join_size {A} sep B (l : list A) items :
  0 <= B -> Forall2 (fun _ x => vec_size x <= B) l items ->
  vec_size (join sep items) <= (B + 1) * vec_size l.
Proof.
  intros HB. unfold vec_size. induction 1 as [|a x l items Hx HR IH]; [simpl; lia|].
  destruct items as [|y items]; [cbn [join length] in *; lia|].
  rewrite join_cons, length_app. cbn [length] in *. lia.
Qed.

(** Writing an array joins the encodings of its elements. *)
Lemma arr_to_str_spec {A} (conv : A -> outcome str) (R : A -> str -> Prop) (l : list A) :
  Forall (fun a => conv a ⇓ R a) l ->
  arr_to_str conv l ⇓ fun s => exists items, s = join ";"%char items /\ Forall2 R l items.
Proof.
  intros Hl. unfold arr_to_str.
  apply (for_inv (fun n s => exists items, s = join ";"%char items
    /\ Forall2 R (take (Z.to_nat n) l) items)); [unfold vec_size; lia|by exists []| |].
  - intros i s Hi (items & -> & HR). step. apply returns_vec_at; [done|]. intros a Ha. step.
    rewrite Forall_lookup in Hl. call (Hl _ _ Ha). intros x Hx. step.
    exists (items ++ [x]). replace (Z.to_nat (i + 1)) with (S (Z.to_nat i)) by lia.
    rewrite (take_S_r _ _ a) by done. split; [|by apply Forall2_app; [|constructor]].
    apply Forall2_length in HR. rewrite length_take in HR. unfold vec_size in Hi.
    rewrite join_snoc. destruct (Z.eqb_spec i 0) as [->|Hi0].
    + destruct items; [done|]. simpl in HR. lia.
    + destruct items; [simpl in HR; lia|]. rewrite decide_False by done. by rewrite <- app_assoc.
  - intros s (items & -> & HR). exists items. unfold vec_size in HR.
    by rewrite Nat2Z.id, take_ge in HR by done.
Qed.

(** What [arr_loop] can split: items without separator, none empty. *)
Definition item_ok (x : str) : Prop := x <> [] /\ ";"%char ∉ x.

Section ArrayLoop.
Context `{G : GmpOps} {A : Type} (conv : str -> prog A) (R : str -> A -> Prop).
Hypothesis Hconv : forall x w, (exists a, R x a) -> conv x @ w ⇓ fun a w' => R x a /\ w' = w.

(** Walk over the items, the last one being left to the caller. *)
Lemma arr_loop_spec : forall items x pre acc fuel w,
  Forall item_ok (x :: items) -> Forall (fun x => exists a, R x a) (x :: items) ->
  (length items <= fuel)%nat ->
  let s := pre ++ join ";"%char (x :: items) in
  arr_loop fuel conv s (vec_size pre) (find_from ";"%char s (vec_size pre)) acc @ w ⇓
    fun r w' => w' = w /\ exists l rest, fst r = acc ++ l
      /\ Forall2 R (take (length items) (x :: items)) l
      /\ s = rest ++ List.last (x :: items) [] /\ snd r = vec_size rest.
Proof.
  induction items as [|y items IH]; intros x pre acc fuel w Hok HR Hf s.
  - apply Forall_cons in Hok as [[Hx0 Hx] _].
    rewrite find_from_none.
    + destruct fuel; simpl; apply runs_ret; (split; [done|]); exists [], pre;
        rewrite app_nil_r; by split_and!.
    + unfold s, vec_size. rewrite Nat2Z.id, drop_app_length. simpl. by intros z Hz ->.
  - destruct fuel as [|fuel]; [simpl in Hf; lia|].
    apply Forall_cons in Hok as [[Hx0 Hx] Hok]. apply Forall_cons in HR as [Hx1 HR].
    assert (Hs : s = pre ++ x ++ ";"%char :: join ";"%char (y :: items)) by done.
    rewrite (find_from_some _ _ _ x (join ";"%char (y :: items))); [|..|done].
    2:{ rewrite Hs. unfold vec_size. by rewrite Nat2Z.id, drop_app_length. }
    cbn [arr_loop]. step. step. replace (vec_size pre + Z.of_nat (length x) - vec_size pre)
      with (vec_size x) by (unfold vec_size; lia).
    rewrite Hs, substr_middle. step. step. call Hconv; [done|]. intros a w' [Ha ->].
    replace (vec_size pre + Z.of_nat (length x) + 1) with (vec_size (pre ++ x ++ [";"%char]))
      by (unfold vec_size; rewrite !length_app; simpl; lia).
    replace (pre ++ x ++ ";"%char :: join ";"%char (y :: items))
      with ((pre ++ x ++ [";"%char]) ++ join ";"%char (y :: items))
      by (by rewrite <- !app_assoc).
    call IH; [done|done|simpl in Hf; lia|].
    intros r w' (-> & l & rest & Hl & HRl & Hrest & Hsnd). split; [done|].
    exists (a :: l), rest. rewrite Hl, <- app_assoc. split_and!; [done| |done|done].
    simpl. constructor; [done|]. exact HRl.
Qed.

Lemma str_to_arr_spec items w :
  Forall item_ok items -> Forall (fun x => exists a, R x a) items ->
  str_to_arr conv (join ";"%char items) @ w ⇓ fun l w' => Forall2 R items l /\ w' = w.
Proof.
  intros Hok HR. unfold str_to_arr. destruct items as [|x items]; [by split|].
  assert (Hlen : forall l, Forall item_ok l -> (length l <= S (length (join ";"%char l)))%nat).
  { intros l Hl. induction Hl as [|z [|z' l] Hz Hl IH]; simpl in *; [lia|lia|].
    rewrite length_app. simpl in *. lia. }
  step. pose proof (arr_loop_spec items x [] [] (length (join ";"%char (x :: items))) w Hok HR) as Hloop.
  specialize (Hlen _ Hok). cbn [length] in Hlen. specialize (Hloop ltac:(lia)).
  rewrite app_nil_l in Hloop. change (vec_size []) with 0 in Hloop.
  call Hloop. intros [l start] w' (-> & l' & rest & Hl & HRl & Hs & Hst).
  simpl fst in Hl. simpl snd in Hst. simpl in Hl. subst l start.
  assert (Hlast : x :: items = take (length items) (x :: items) ++ [List.last (x :: items) []]).
  { clear. revert x. induction items as [|y items IH]; intros x; [done|].
    change (take (length (y :: items)) (x :: y :: items)) with (x :: take (length items) (y :: items)).
    simpl app. f_equal. apply IH. }
  set (z := List.last (x :: items) []) in *.
  assert (Hz : z ∈ x :: items).
  { rewrite Hlast. apply elem_of_app. right. by apply list_elem_of_singleton. }
  rewrite Forall_forall in Hok, HR. destruct (Hok z Hz) as [Hz0 _]. rewrite Hs.
  assert ((vec_size rest <? vec_size (rest ++ z)) = true) as ->.
  { apply Z.ltb_lt. unfold vec_size. rewrite length_app. destruct z; [done|]. simpl. lia. }
  step. step. rewrite substr_suffix. step. step. call Hconv; [by apply HR|].
  intros a w' [Ha ->]. step. split; [|done]. rewrite Hlast.
  by apply Forall2_app; [|constructor].
Qed.
End ArrayLoop.

Section ArrayFacts.
Context `{GL : GmpLaws} `{BL : BigLaws} `{CL : !CurveLaws CO}.

Lemma Forall2_compose {X Y} (P : X -> Y -> Prop) (Q : Y -> X -> Prop) (E : X -> X -> Prop) l items l' :
  (forall a x b, P a x -> Q x b -> E b a) -> Forall2 P l items -> Forall2 Q items l' -> Forall2 E l' l.
Proof.
  intros HE HP. revert l'. induction HP as [|a x l items Ha HP IH]; intros l' HQ.
  - apply Forall2_nil_inv_l in HQ as ->. done.
  - apply Forall2_cons_inv_l in HQ as (b & l'' & Hb & HQ & ->). constructor; [by eapply HE|auto].
Qed.

(** An array of finite points of the curve survives; an array of finite
    points of the twist survives. *)
Lemma ECPArr_roundtrip ecps :
  Forall (fun P => ECP_isinf P = false) ecps ->
  ECPArr_to_str ecps ⇓ fun s => vec_size s <= 194 * vec_size ecps
    /\ forall w, str_to_ECPArr s @ w ⇓ fun ecps' w' => Forall2 ecp_eq ecps' ecps /\ w' = w.
Proof.
  intros Hf. unfold ECPArr_to_str. call (arr_to_str_spec ECP_to_str (fun P s =>
    s <> [] /\ ";"%char ∉ s /\ vec_size s <= 193 /\ str_to_ECP s ⇓ fun P' => P' =1= P)).
  { eapply Forall_impl; [exact Hf|]. intros P HP. by apply ECP_roundtrip. }
  intros s (items & -> & HR). split.
  { apply (join_size ";"%char 193 ecps); [lia|]. eapply Forall2_impl; [exact HR|]. naive_solver. }
  intros w. unfold str_to_ECPArr.
  set (R := fun (x : str) (P : ECP) => str_to_ECP x = Ok P).
  call (str_to_arr_spec (fun x => lift (str_to_ECP x)) R).
  - intros x w' [P HP]. unfold R in HP. rewrite HP. step. step. done.
  - clear - HR. induction HR as [|P x l items (H1 & H2 & _) HR IH]; constructor; [by split|done].
  - clear - HR. induction HR as [|P x l items (_ & _ & _ & H) HR IH]; constructor; [|done].
    apply returns_ok in H as (P' & H & _). by exists P'.
  - intros l w' [Hl ->]. split; [|done]. eapply Forall2_compose; [|exact HR|exact Hl].
    unfold R. intros P x P' (_ & _ & _ & H) Hx. by rewrite Hx in H.
Qed.

Lemma ECP2Arr_roundtrip ecp2s :
  Forall (fun P => ~ P =2= ECP2_inf) ecp2s ->
  ECP2Arr_to_str ecp2s true ⇓ fun s => vec_size s <= 195 * vec_size ecp2s
    /\ forall w, str_to_ECP2Arr s @ w ⇓ fun ecp2s' w' => Forall2 ecp2_eq ecp2s' ecp2s /\ w' = w.
Proof.
  intros Hf. unfold ECP2Arr_to_str. call (arr_to_str_spec (fun P => ECP2_to_str P true) (fun P s =>
    s <> [] /\ ";"%char ∉ s /\ vec_size s <= 194 /\ exists P', P' =2= P /\ forall w, str_to_ECP2 s w = Ok (P', w))).
  { eapply Forall_impl; [exact Hf|]. intros P HP. by apply ECP2_roundtrip. }
  intros s (items & -> & HR). split.
  { apply (join_size ";"%char 194 ecp2s); [lia|]. eapply Forall2_impl; [exact HR|]. naive_solver. }
  intros w. unfold str_to_ECP2Arr.
  set (R := fun (x : str) (P : ECP2) => forall w, str_to_ECP2 x w = Ok (P, w)).
  call (str_to_arr_spec str_to_ECP2 R).
  - intros x w' [P HP]. unfold runs. by rewrite HP.
  - clear - HR. induction HR as [|P x l items (H1 & H2 & _) HR IH]; constructor; [by split|done].
  - clear - HR. induction HR as [|P x l items (_ & _ & _ & P' & _ & HP') HR IH]; constructor; [|done].
    by exists P'.
  - intros l w' [Hl ->]. split; [|done]. eapply Forall2_compose; [|exact HR|exact Hl].
    unfold R. intros P x P' (_ & _ & _ & P'' & HP & HP'') Hx. specialize (Hx w).
    rewrite HP'' in Hx. by simplify_eq.
Qed.
End ArrayFacts.

(** ** Arrays of numbers *)

Lemma getline_item delim x : forall acc s,
  delim ∉ x ->
  getline_items delim acc (x ++ delim :: s) = (rev acc ++ x) :: getline_items delim [] s.
Proof.
  induction x as [|c x IH]; intros acc s Hx; simpl.
  - rewrite decide_True by done. by rewrite app_nil_r.
  - apply not_elem_of_cons in Hx as [Hc Hx]. rewrite decide_False by done.
    rewrite IH by done. simpl. by rewrite <- app_assoc.
Qed.

Lemma numeral_without_comma z : ","%char ∉ numeral 10 z.
Proof.
  unfold numeral. destruct (Z.eqb_spec z 0).
  { by intros [=]%list_elem_of_singleton. }
  assert (Hd : forall n, 0 < n -> ","%char ∉ digits_of 10 n).
  { intros m Hm. apply (digits_without 10); [lia|done|].
    by destruct (digits_of_spec 10 ltac:(lia) m Hm) as (_ & Hf & _). }
  destruct (Z.ltb_spec z 0); [|apply Hd; lia].
  apply not_elem_of_app. split; [by intros [=]%list_elem_of_singleton|apply Hd; lia].
Qed.

Section NumberArrays.
Context `{GL : GmpLaws}.

Lemma mpzArr_to_str_spec l :
  mpzArr_to_str l = Ok (concat (map (fun z => numeral 10 z ++ [","%char]) l)).
Proof.
  enough (H : mpzArr_to_str l ⇓ fun s => s = concat (map (fun z => numeral 10 z ++ [","%char]) l))
    by (by apply returns_ok in H as (s & -> & ->)).
  unfold mpzArr_to_str. apply (for_inv (fun n s =>
    s = concat (map (fun z => numeral 10 z ++ [","%char]) (take (Z.to_nat n) l))));
    [unfold vec_size; lia|done| |].
  - intros i s Hi ->. step. apply returns_vec_at; [done|]. intros z Hz. step.
    replace (Z.to_nat (i + 1)) with (S (Z.to_nat i)) by lia. rewrite get_str_spec by auto.
    rewrite (take_S_r _ _ z) by done. rewrite map_app, concat_app. simpl. by rewrite app_nil_r.
  - intros s ->. unfold vec_size. by rewrite Nat2Z.id, take_ge by done.
Qed.

Lemma read_items_spec l acc : read_items (map (numeral 10) l) acc = Ok (acc ++ l).
Proof.
  revert acc. induction l as [|z l IH]; intros acc; simpl; [by rewrite app_nil_r|].
  unfold mpz_of_str. rewrite set_str_numeral_10. simpl. rewrite IH. by rewrite <- app_assoc.
Qed.

(** At most 78 digits and a comma for each number of 256 bits. *)
Lemma mpzArr_size l :
  Forall (fun z => 0 <= z < 2 ^ 256) l ->
  mpzArr_to_str l ⇓ fun s => vec_size s <= 79 * vec_size l.
Proof.
  intros Hl. rewrite mpzArr_to_str_spec. step. unfold vec_size.
  induction Hl as [|z l Hz Hl IH]; [done|]. cbn [map concat length].
  assert (Hz78 : 0 <= z < 10 ^ 78) by (split; [lia|]; transitivity (2 ^ 256); [lia|done]).
  pose proof (numeral_length 10 ltac:(lia) z 78 Hz78 ltac:(lia)).
  rewrite !length_app. simpl length. lia.
Qed.

(** Every array of integers survives, negative ones and the empty one too. *)
Lemma mpzArr_roundtrip l : mpzArr_to_str l ≫= str_to_mpzArr = Ok l.
Proof.
  rewrite mpzArr_to_str_spec. unfold mbind, outcome_bind, str_to_mpzArr, getline_all.
  assert (getline_items ","%char [] (concat (map (fun z => numeral 10 z ++ [","%char]) l))
    = map (numeral 10) l) as ->.
  { induction l as [|z l IH]; [done|]. simpl. rewrite <- app_assoc. simpl.
    rewrite getline_item by apply numeral_without_comma. by rewrite IH. }
  by rewrite read_items_spec.
Qed.
End NumberArrays.
