(* ===== verification/Wire.v ===== *)
(** * The protobuf runtime and the shape of generated code

    The classes under proto/output are generated by protoc; they call the
    protobuf runtime, which is not part of the repository.  [WireOps] lists
    what they call, [WireLaws] what the encoding documentation says of it:
    a field is a tag followed by its value, reading returns what was written
    and leaves the bytes after it.  The rest of the file is what all generated
    classes share: the has-bits word and the loop of [_InternalParse]. *)

From Stdlib Require Import ZArith Lia Ascii String.
From stdpp Require Import base list.
From S2P Require Import Prelude Text.

Open Scope Z_scope.

Class WireOps : Type := {
  (** Fields that the reader's schema does not know, kept for re-sending. *)
  UnknownFieldSet : Type;
  UFS_empty : UnknownFieldSet;
  UFS_have : UnknownFieldSet -> bool;
  UFS_merge : UnknownFieldSet -> UnknownFieldSet -> UnknownFieldSet;
  UFS_serialize : UnknownFieldSet -> str;
  UFS_size : UnknownFieldSet -> Z;
  UnknownFieldParse : Z -> UnknownFieldSet -> str -> option (UnknownFieldSet * str);
  (** Readers: the value and the bytes after it, [None] for a null pointer. *)
  ReadTag : str -> option (Z * str);
  ReadVarint32 : str -> option (Z * str);
  ReadString : str -> option (str * str);
  (** Writers: tag and value of a field with the given number. *)
  WriteBytes : Z -> str -> str;
  WriteInt32 : Z -> Z -> str;
  WriteMessage : Z -> str -> str;
  (** Sizes without the tag, and with it for an [int32]. *)
  BytesSize : str -> Z;
  MessageSize : Z -> Z;
  Int32SizePlusOne : Z -> Z;
}.

Definition is_int32 (v : Z) : Prop := - 2 ^ 31 <= v < 2 ^ 31.

(** Strings and messages of less than a gigabyte. *)
Definition small (s : str) : Prop := vec_size s < 2 ^ 30.

Class WireLaws (W : WireOps) : Prop := {
  read_write_bytes n s rest : 1 <= n <= 15 -> small s ->
    exists p, ReadTag (WriteBytes n s ++ rest) = Some (8 * n + 2, p)
      /\ ReadString p = Some (s, rest);
  read_write_int32 n v rest : 1 <= n <= 15 -> is_int32 v ->
    exists p, ReadTag (WriteInt32 n v ++ rest) = Some (8 * n, p)
      /\ ReadVarint32 p = Some (v, rest);
  read_write_message n s rest : 1 <= n <= 15 -> small s ->
    exists p, ReadTag (WriteMessage n s ++ rest) = Some (8 * n + 2, p)
      /\ ReadString p = Some (s, rest);
  bytes_size n s : 1 <= n <= 15 -> small s -> vec_size (WriteBytes n s) = 1 + BytesSize s;
  int32_size n v : 1 <= n <= 15 -> is_int32 v -> vec_size (WriteInt32 n v) = Int32SizePlusOne v;
  message_size n s : 1 <= n <= 15 -> small s ->
    vec_size (WriteMessage n s) = 1 + MessageSize (vec_size s);
  bytes_size_pos s : 0 < BytesSize s;
  int32_size_pos v : 0 < Int32SizePlusOne v;
  (** A varint has at most ten bytes. *)
  bytes_size_bound s : BytesSize s <= vec_size s + 10;
  int32_size_bound v : Int32SizePlusOne v <= 11;
  message_size_pos z : 0 <= z -> 0 < MessageSize z;
  ufs_have_empty : UFS_have UFS_empty = false;
  ufs_size_empty : UFS_size UFS_empty = 0;
  ufs_merge_empty u : UFS_merge UFS_empty u = u;
}.

(** ** The has-bits word *)

(** [(_has_bits_[0] & mask) != 0]. *)
Definition has_bit (h mask : Z) : bool := negb (Z.land h mask =? 0).

(** [_has_bits_[0] &= ~mask]. *)
Definition clear_bit (h mask : Z) : Z := Z.ldiff h mask.

(** ** Parsing *)

(** What one iteration of the [switch] does. *)
Inductive field_result (M : Type) : Type :=
| Parsed (m : M) (has_bits : Z) (ptr : str)   (** [continue] *)
| Unusual                                     (** [goto handle_unusual] *)
| Failure.                                    (** [goto failure] *)

Arguments Parsed {M} m has_bits ptr.
Arguments Unusual {M}.
Arguments Failure {M}.

Section Parse.
Context `{W : WireOps} {M : Type}.
Context (field : Z -> M -> Z -> str -> field_result M).
Context (unknown : M -> UnknownFieldSet) (set_unknown : UnknownFieldSet -> M -> M).

(** The [while] loop, from [ctx->Done] to [handle_unusual]: message, local
    has-bits, remaining bytes and the last tag, or a failure.  Every round
    reads at least one byte, so the length of the input is enough fuel. *)
Fixpoint parse_loop (fuel : nat) (m : M) (has_bits : Z) (ptr : str)
    : option (M * Z * str * Z) :=
  match ptr with
  | [] => Some (m, has_bits, [], 0)
  | _ =>
      match fuel with
      | O => None
      | S fuel' =>
          match ReadTag ptr with
          | None => None
          | Some (tag, ptr') =>
              match field tag m has_bits ptr' with
              | Parsed m' has_bits' ptr'' => parse_loop fuel' m' has_bits' ptr''
              | Failure => None
              | Unusual =>
                  if (tag =? 0) || (Z.land tag 7 =? 4) then Some (m, has_bits, ptr', tag)
                  else match UnknownFieldParse tag (unknown m) ptr' with
                       | None => None
                       | Some (u, ptr'') => parse_loop fuel' (set_unknown u m) has_bits ptr''
                       end
              end
          end
      end
  end.

(** The loop gives [R] from here, with any sufficient fuel. *)
Definition parses (m : M) (has_bits : Z) (ptr : str) (R : option (M * Z * str * Z)) : Prop :=
  forall fuel, (length ptr <= fuel)%nat -> parse_loop fuel m has_bits ptr = R.

Lemma parses_done m h : parses m h [] (Some (m, h, [], 0)).
Proof. intros [|fuel] _; done. Qed.

(** A field that the [switch] knows. *)
Lemma parses_field m h m' h' w rest tag p R :
  0 < vec_size w -> ReadTag (w ++ rest) = Some (tag, p) ->
  field tag m h p = Parsed m' h' rest -> parses m' h' rest R -> parses m h (w ++ rest) R.
Proof.
  unfold vec_size. intros Hw Ht Hf Hr fuel Hfuel. rewrite length_app in Hfuel.
  destruct fuel as [|fuel]; [lia|]. destruct w as [|c w]; [simpl in Hw; lia|].
  cbn [app parse_loop]. change (c :: w ++ rest) with ((c :: w) ++ rest).
  rewrite Ht, Hf. apply Hr. simpl in Hfuel. lia.
Qed.

(** A field that is written only when its bit [c] is set. *)
Lemma parses_optional (c : bool) m h m' h' w rest R :
  (c = true -> 0 < vec_size w /\ exists tag p, ReadTag (w ++ rest) = Some (tag, p)
     /\ field tag m h p = Parsed m' h' rest) ->
  parses (if c then m' else m) (if c then h' else h) rest R ->
  parses m h ((if c then w else []) ++ rest) R.
Proof.
  intros Hc Hr. destruct c; [|done]. destruct Hc as (Hw & tag & p & Ht & Hf); [done|].
  by apply (parses_field m h m' h' w rest tag p).
Qed.
End Parse.

(** The has-bits word of a message with few fields is one of a list. *)
Lemma small_range n h : 0 <= h < Z.of_nat n -> h ∈ map Z.of_nat (seq 0 n).
Proof.
  intros Hh. apply list_elem_of_fmap. exists (Z.to_nat h). split; [lia|]. apply elem_of_seq. lia.
Qed.

(** ** Bits *)

Lemma vec_size_app {A} (a b : list A) : vec_size (a ++ b) = vec_size a + vec_size b.
Proof. unfold vec_size. rewrite length_app. lia. Qed.

Lemma vec_size_if {A} (c : bool) (a : list A) :
  vec_size (if c then a else []) = if c then vec_size a else 0.
Proof. by destruct c. Qed.

Lemma vec_size_nil {A} : vec_size (@nil A) = 0.
Proof. done. Qed.

(** A word without the bits of [big] has none of its parts. *)
Lemma has_bit_absent h big k :
  has_bit h big = false -> Z.land big k = k -> has_bit h k = false.
Proof.
  unfold has_bit. rewrite !negb_false_iff, !Z.eqb_eq. intros Hb Hk.
  by rewrite <- Hk, Z.land_assoc, Hb.
Qed.

(** A word that covers [all] has each part of it. *)
Lemma has_bit_all h all k :
  Z.lxor (Z.land h all) all = 0 -> Z.land all k = k -> k <> 0 -> has_bit h k = true.
Proof.
  unfold has_bit. intros Ha%Z.lxor_eq Hk Hk0. rewrite negb_true_iff, Z.eqb_neq.
  by rewrite <- Hk, Z.land_assoc, Ha, Hk.
Qed.

Lemma has_bit_set h k : k <> 0 -> has_bit (Z.lor h k) k = true.
Proof.
  intros Hk. unfold has_bit. rewrite negb_true_iff, Z.eqb_neq.
  replace (Z.land (Z.lor h k) k) with k; [done|]. apply Z.bits_inj'. intros n _.
  rewrite Z.land_spec, Z.lor_spec. by destruct (Z.testbit h n), (Z.testbit k n).
Qed.

Lemma has_bit_set_other h k k' : Z.land k k' = 0 -> has_bit (Z.lor h k) k' = has_bit h k'.
Proof. intros Hk. unfold has_bit. by rewrite Z.land_lor_distr_l, Hk, Z.lor_0_r. Qed.

Lemma has_bit_clear h k : has_bit (clear_bit h k) k = false.
Proof. unfold has_bit, clear_bit. by rewrite Z.land_ldiff. Qed.

Lemma has_bit_clear_other h k k' : Z.land k k' = 0 -> has_bit (clear_bit h k) k' = has_bit h k'.
Proof.
  intros Hk. unfold has_bit, clear_bit. do 2 f_equal. apply Z.bits_inj'. intros n _.
  assert (Hn : Z.testbit (Z.land k k') n = false) by (by rewrite Hk, Z.bits_0).
  rewrite Z.land_spec in Hn. rewrite !Z.land_spec, Z.ldiff_spec.
  by destruct (Z.testbit h n), (Z.testbit k n), (Z.testbit k' n).
Qed.

Lemma bits_below x n : 0 <= n -> 0 <= x -> (forall m, n <= m -> Z.testbit x m = false) -> x < 2 ^ n.
Proof.
  intros Hn Hx Hm. assert (x = x mod 2 ^ n) as ->.
  { apply Z.bits_inj'. intros m Hm0. destruct (decide (m < n)).
    - by rewrite Z.mod_pow2_bits_low.
    - rewrite Z.mod_pow2_bits_high by lia. apply Hm. lia. }
  apply Z.mod_pos_bound. lia.
Qed.

Lemma bits_above x n m : 0 <= n <= m -> 0 <= x < 2 ^ n -> Z.testbit x m = false.
Proof. intros Hm Hx. rewrite <- (Z.mod_small x (2 ^ n)) by done. by apply Z.mod_pow2_bits_high. Qed.

Lemma set_range n h k : 0 <= n -> 0 <= h < 2 ^ n -> 0 <= k < 2 ^ n -> 0 <= Z.lor h k < 2 ^ n.
Proof.
  intros Hn Hh Hk. assert (H0 : 0 <= Z.lor h k) by (apply Z.lor_nonneg; lia).
  split; [done|]. apply bits_below; [done..|]. intros m Hm. rewrite Z.lor_spec.
  by rewrite (bits_above h n), (bits_above k n).
Qed.

Lemma clear_range n h k : 0 <= n -> 0 <= h < 2 ^ n -> 0 <= clear_bit h k < 2 ^ n.
Proof.
  intros Hn Hh. unfold clear_bit. assert (H0 : 0 <= Z.ldiff h k) by (apply Z.ldiff_nonneg; lia).
  split; [done|]. apply bits_below; [done..|]. intros m Hm. rewrite Z.ldiff_spec.
  by rewrite (bits_above h n).
Qed.

(** ** Automation for the generated classes *)

(** The size of what is written is the size announced, bit by bit. *)
Ltac sum_of_bits :=
  repeat match goal with
  | |- context [if Z.lxor (Z.land ?h ?all) ?all =? 0 then _ else _] =>
      let E := fresh in
      destruct (Z.eqb_spec (Z.lxor (Z.land h all) all) 0) as [E|E];
      [repeat match goal with
       | |- context [has_bit h ?k] => rewrite (has_bit_all h all k) by (done || reflexivity)
       end|]
  | |- context [if has_bit ?h ?big then ?x + ?y else 0] =>
      let E := fresh in
      destruct (has_bit h big) eqn:E;
      [|repeat match goal with
        | |- context [has_bit h ?k] => rewrite (has_bit_absent h big k) by (done || reflexivity)
        end]
  end; unfold vec_size; simpl length; lia.

(** Decide the tests of a [switch] on a known tag. *)
Ltac known_tag :=
  repeat match goal with
  | |- context [Z.shiftr ?a ?b =? ?c] =>
      let v := eval vm_compute in (Z.shiftr a b =? c) in change (Z.shiftr a b =? c) with v
  | |- context [Z.land ?a ?b =? ?c] =>
      let v := eval vm_compute in (Z.land a b =? c) in change (Z.land a b =? c) with v
  end; cbv iota.

Tactic Notation "read_bytes" reference(field) :=
  lazymatch goal with
  | |- 0 < vec_size (WriteBytes ?n ?s) /\ (exists tag p, ReadTag (_ ++ ?rest) = _ /\ _) =>
      let p := fresh in let Ht := fresh in let Hs := fresh in
      split; [rewrite bytes_size by (done || lia); pose proof (bytes_size_pos s); lia|];
      destruct (read_write_bytes n s rest) as (p & Ht & Hs); [lia|done|];
      exists (8 * n + 2), p; split; [exact Ht|]; unfold field; known_tag; by rewrite Hs
  end.

Tactic Notation "read_int32" reference(field) :=
  lazymatch goal with
  | |- 0 < vec_size (WriteInt32 ?n ?v) /\ (exists tag p, ReadTag (_ ++ ?rest) = _ /\ _) =>
      let p := fresh in let Ht := fresh in let Hs := fresh in
      split; [rewrite int32_size by (done || lia); apply int32_size_pos|];
      destruct (read_write_int32 n v rest) as (p & Ht & Hs); [lia|done|];
      exists (8 * n), p; split; [exact Ht|]; unfold field; known_tag; by rewrite Hs
  end.

(** One goal for each value of the has-bits word. *)
Ltac each_value Hin :=
  repeat (apply elem_of_cons in Hin as [->|Hin]); [..|by apply elem_of_nil in Hin].

(** Absent fields are their defaults, present ones were set. *)
Ltac rebuild Hf :=
  repeat match type of Hf with
  | _ /\ _ => let H := fresh in destruct Hf as [H Hf]; try specialize (H eq_refl)
  end; try specialize (Hf eq_refl);
  repeat match goal with
  | H : exists _, _ /\ _ |- _ => destruct H as (? & ? & ?)
  end; subst; reflexivity.

(** Laws of the accessors, from the laws of the bits; [n] is the number of
    fields. *)
Ltac accessors n Hf :=
  repeat match type of Hf with
  | _ /\ _ => let H := fresh in destruct Hf as [H Hf]
  end;
  repeat lazymatch goal with
  | |- 0 <= _ /\ _ < _ => fail
  | |- _ /\ _ => split
  | |- forall _, _ => intros ?
  end;
  cbn in *;
  repeat match goal with
  | H : has_bit (Z.lor _ _) _ = _ |- _ =>
      first [rewrite has_bit_set in H by done | rewrite has_bit_set_other in H by reflexivity]
  | H : has_bit (clear_bit _ _) _ = _ |- _ =>
      first [rewrite has_bit_clear in H | rewrite has_bit_clear_other in H by reflexivity]
  end;
  first [reflexivity | discriminate
        | apply has_bit_set; done | apply has_bit_set_other; reflexivity
        | apply has_bit_clear | apply has_bit_clear_other; reflexivity
        | apply (set_range n); lia | apply (clear_range n); lia
        | by auto].

(** Decide the tests on a known has-bits word. *)
Ltac known_bits :=
  repeat match goal with
  | |- context [has_bit ?h ?k] =>
      let v := eval vm_compute in (has_bit h k) in
      first [constr_eq v true | constr_eq v false]; change (has_bit h k) with v
  end; cbn.
