(* ===== verification/UAVMsg.v ===== *)
(** * The messages of UAV.proto

    [SignRequest] and [SignResponse], generated from proto/UAV.proto into
    proto/output/UAV.pb.h and UAV.pb.cc: one record per class with its has-bits
    word, its fields and its unknown fields, one definition per member
    function.  The theorems: what is sent is what is parsed, the announced
    size is the size sent, writing a field does not touch the others. *)

From Stdlib Require Import ZArith Lia.
From stdpp Require Import base list.
From S2P Require Import Prelude Text Wire.

Open Scope Z_scope.

Section Messages.
Context `{W : WireOps}.

(** ** SignRequest *)

Record SignRequest : Type := mkSignRequest {
  SignRequest_has_bits : Z;
  SignRequest_m_ : str;
  SignRequest_t_ : Z;
  SignRequest_unknown : UnknownFieldSet;
}.

(** [SharedCtor]: no field is present. *)
Definition SignRequest_default : SignRequest :=
  mkSignRequest 0 [] 0 UFS_empty.

(** Field [m] = 1. *)
Definition SignRequest_has_m (m : SignRequest) : bool := has_bit (SignRequest_has_bits m) 0x01.

Definition SignRequest_clear_m (m : SignRequest) : SignRequest :=
  mkSignRequest (clear_bit (SignRequest_has_bits m) 0x01) [] (SignRequest_t_ m) (SignRequest_unknown m).

Definition SignRequest_get_m (m : SignRequest) : str := SignRequest_m_ m.

Definition SignRequest_set_m (v : str) (m : SignRequest) : SignRequest :=
  mkSignRequest (Z.lor (SignRequest_has_bits m) 0x01) v (SignRequest_t_ m) (SignRequest_unknown m).

(** The string that the returned pointer denotes, and the message. *)
Definition SignRequest_mutable_m (m : SignRequest) : str * SignRequest :=
  (SignRequest_m_ m, mkSignRequest (Z.lor (SignRequest_has_bits m) 0x01) (SignRequest_m_ m) (SignRequest_t_ m) (SignRequest_unknown m)).

Definition SignRequest_release_m (m : SignRequest) : option str * SignRequest :=
  if negb (SignRequest_has_m m) then (None, m)
  else (Some (SignRequest_m_ m), mkSignRequest (clear_bit (SignRequest_has_bits m) 0x01) [] (SignRequest_t_ m) (SignRequest_unknown m)).

Definition SignRequest_set_allocated_m (v : option str) (m : SignRequest) : SignRequest :=
  match v with
  | Some s => mkSignRequest (Z.lor (SignRequest_has_bits m) 0x01) s (SignRequest_t_ m) (SignRequest_unknown m)
  | None => mkSignRequest (clear_bit (SignRequest_has_bits m) 0x01) [] (SignRequest_t_ m) (SignRequest_unknown m)
  end.

(** Field [t] = 2. *)
Definition SignRequest_has_t (m : SignRequest) : bool := has_bit (SignRequest_has_bits m) 0x02.

Definition SignRequest_clear_t (m : SignRequest) : SignRequest :=
  mkSignRequest (clear_bit (SignRequest_has_bits m) 0x02) (SignRequest_m_ m) 0 (SignRequest_unknown m).

Definition SignRequest_get_t (m : SignRequest) : Z := SignRequest_t_ m.

Definition SignRequest_set_t (v : Z) (m : SignRequest) : SignRequest :=
  mkSignRequest (Z.lor (SignRequest_has_bits m) 0x02) (SignRequest_m_ m) v (SignRequest_unknown m).

(** [_impl_.t_ = v], as the parser and the merge assign it. *)
Definition SignRequest_put_t (v : Z) (m : SignRequest) : SignRequest :=
  mkSignRequest (SignRequest_has_bits m) (SignRequest_m_ m) v (SignRequest_unknown m).

(** The copy constructor. *)
Definition SignRequest_copy (from : SignRequest) : SignRequest :=
  mkSignRequest (SignRequest_has_bits from)
    (if SignRequest_has_m from then SignRequest_m_ from else [])
    (SignRequest_t_ from)
    (UFS_merge UFS_empty (SignRequest_unknown from)).

Definition SignRequest_Clear (m : SignRequest) : SignRequest :=
  let cached_has_bits := SignRequest_has_bits m in
  let x_m := if has_bit cached_has_bits 0x01 then [] else SignRequest_m_ m in
  let x_t := 0 in
  mkSignRequest 0 x_m x_t UFS_empty.

(** The [switch] of [_InternalParse]; a [bytes] or message field sets its
    has-bit at once, an integer field in the local word. *)
Definition SignRequest_field (tag : Z) (m : SignRequest) (has_bits : Z) (ptr : str) : field_result SignRequest :=
  if Z.shiftr tag 3 =? 1 then
    if Z.land tag 255 =? 10 then
      match ReadString ptr with
      | Some (s, ptr') => Parsed (SignRequest_set_m s m) has_bits ptr'
      | None => Failure
      end
    else Unusual
  else
  if Z.shiftr tag 3 =? 2 then
    if Z.land tag 255 =? 16 then
      match ReadVarint32 ptr with
      | Some (v, ptr') =>
          Parsed (SignRequest_put_t v m) (Z.lor has_bits 0x02) ptr'
      | None => Failure
      end
    else Unusual
  else
  Unusual.

Definition SignRequest_set_unknown (u : UnknownFieldSet) (m : SignRequest) : SignRequest :=
  mkSignRequest (SignRequest_has_bits m) (SignRequest_m_ m) (SignRequest_t_ m) u.

(** [message_done] merges the local has-bits; [None] is the null pointer of a
    failure. *)
Definition SignRequest_InternalParse (m : SignRequest) (ptr : str) : option (SignRequest * str * Z) :=
  match parse_loop SignRequest_field SignRequest_unknown SignRequest_set_unknown (length ptr) m 0 ptr with
  | Some (m, has_bits, ptr', tag) => Some (mkSignRequest (Z.lor (SignRequest_has_bits m) has_bits) (SignRequest_m_ m) (SignRequest_t_ m) (SignRequest_unknown m), ptr', tag)
  | None => None
  end.

Definition SignRequest_InternalSerialize (m : SignRequest) : str :=
  let cached_has_bits := SignRequest_has_bits m in
  (if has_bit cached_has_bits 0x01 then WriteBytes 1 (SignRequest_m_ m) else []) ++
  (if has_bit cached_has_bits 0x02 then WriteInt32 2 (SignRequest_t_ m) else []) ++
  (if UFS_have (SignRequest_unknown m) then UFS_serialize (SignRequest_unknown m) else []).

Definition SignRequest_RequiredFieldsByteSizeFallback (m : SignRequest) : Z :=
  (if SignRequest_has_m m then 1 + BytesSize (SignRequest_m_ m) else 0) +
  (if SignRequest_has_t m then Int32SizePlusOne (SignRequest_t_ m) else 0).

Definition SignRequest_ByteSizeLong (m : SignRequest) : Z :=
  let total_size :=
    if Z.lxor (Z.land (SignRequest_has_bits m) 0x03) 0x03 =? 0 then
      (1 + BytesSize (SignRequest_m_ m)) +
      (Int32SizePlusOne (SignRequest_t_ m))
    else SignRequest_RequiredFieldsByteSizeFallback m in
  if UFS_have (SignRequest_unknown m) then total_size + UFS_size (SignRequest_unknown m) else total_size.

Definition SignRequest_MergeImpl (m from : SignRequest) : SignRequest :=
  let cached_has_bits := SignRequest_has_bits from in
  let m :=
    if has_bit cached_has_bits 0x03 then
      let m := if has_bit cached_has_bits 0x01 then SignRequest_set_m (SignRequest_m_ from) m else m in
      let m := if has_bit cached_has_bits 0x02 then SignRequest_put_t (SignRequest_t_ from) m else m in
      mkSignRequest (Z.lor (SignRequest_has_bits m) cached_has_bits) (SignRequest_m_ m) (SignRequest_t_ m) (SignRequest_unknown m)
    else m in
  SignRequest_set_unknown (UFS_merge (SignRequest_unknown m) (SignRequest_unknown from)) m.

(** [same] is the test [&from == this]. *)
Definition SignRequest_CopyFrom (same : bool) (m from : SignRequest) : SignRequest :=
  if same then m else SignRequest_MergeImpl (SignRequest_Clear m) from.

Definition SignRequest_IsInitialized (m : SignRequest) : bool :=
  Z.lxor (Z.land (SignRequest_has_bits m) 0x03) 0x03 =? 0.

Definition SignRequest_InternalSwap (m other : SignRequest) : SignRequest * SignRequest :=
  (mkSignRequest (SignRequest_has_bits other) (SignRequest_m_ other) (SignRequest_t_ other) (SignRequest_unknown other),
   mkSignRequest (SignRequest_has_bits m) (SignRequest_m_ m) (SignRequest_t_ m) (SignRequest_unknown m)).

(** ** SignResponse *)

Record SignResponse : Type := mkSignResponse {
  SignResponse_has_bits : Z;
  SignResponse_cj_ : str;
  SignResponse_sig_ : str;
  SignResponse_id_ : str;
  SignResponse_unknown : UnknownFieldSet;
}.

(** [SharedCtor]: no field is present. *)
Definition SignResponse_default : SignResponse :=
  mkSignResponse 0 [] [] [] UFS_empty.

(** Field [cj] = 1. *)
Definition SignResponse_has_cj (m : SignResponse) : bool := has_bit (SignResponse_has_bits m) 0x01.

Definition SignResponse_clear_cj (m : SignResponse) : SignResponse :=
  mkSignResponse (clear_bit (SignResponse_has_bits m) 0x01) [] (SignResponse_sig_ m) (SignResponse_id_ m) (SignResponse_unknown m).

Definition SignResponse_get_cj (m : SignResponse) : str := SignResponse_cj_ m.

Definition SignResponse_set_cj (v : str) (m : SignResponse) : SignResponse :=
  mkSignResponse (Z.lor (SignResponse_has_bits m) 0x01) v (SignResponse_sig_ m) (SignResponse_id_ m) (SignResponse_unknown m).

(** The string that the returned pointer denotes, and the message. *)
Definition SignResponse_mutable_cj (m : SignResponse) : str * SignResponse :=
  (SignResponse_cj_ m, mkSignResponse (Z.lor (SignResponse_has_bits m) 0x01) (SignResponse_cj_ m) (SignResponse_sig_ m) (SignResponse_id_ m) (SignResponse_unknown m)).

Definition SignResponse_release_cj (m : SignResponse) : option str * SignResponse :=
  if negb (SignResponse_has_cj m) then (None, m)
  else (Some (SignResponse_cj_ m), mkSignResponse (clear_bit (SignResponse_has_bits m) 0x01) [] (SignResponse_sig_ m) (SignResponse_id_ m) (SignResponse_unknown m)).

Definition SignResponse_set_allocated_cj (v : option str) (m : SignResponse) : SignResponse :=
  match v with
  | Some s => mkSignResponse (Z.lor (SignResponse_has_bits m) 0x01) s (SignResponse_sig_ m) (SignResponse_id_ m) (SignResponse_unknown m)
  | None => mkSignResponse (clear_bit (SignResponse_has_bits m) 0x01) [] (SignResponse_sig_ m) (SignResponse_id_ m) (SignResponse_unknown m)
  end.

(** Field [sig] = 2. *)
Definition SignResponse_has_sig (m : SignResponse) : bool := has_bit (SignResponse_has_bits m) 0x02.

Definition SignResponse_clear_sig (m : SignResponse) : SignResponse :=
  mkSignResponse (clear_bit (SignResponse_has_bits m) 0x02) (SignResponse_cj_ m) [] (SignResponse_id_ m) (SignResponse_unknown m).

Definition SignResponse_get_sig (m : SignResponse) : str := SignResponse_sig_ m.

Definition SignResponse_set_sig (v : str) (m : SignResponse) : SignResponse :=
  mkSignResponse (Z.lor (SignResponse_has_bits m) 0x02) (SignResponse_cj_ m) v (SignResponse_id_ m) (SignResponse_unknown m).

(** The string that the returned pointer denotes, and the message. *)
Definition SignResponse_mutable_sig (m : SignResponse) : str * SignResponse :=
  (SignResponse_sig_ m, mkSignResponse (Z.lor (SignResponse_has_bits m) 0x02) (SignResponse_cj_ m) (SignResponse_sig_ m) (SignResponse_id_ m) (SignResponse_unknown m)).

Definition SignResponse_release_sig (m : SignResponse) : option str * SignResponse :=
  if negb (SignResponse_has_sig m) then (None, m)
  else (Some (SignResponse_sig_ m), mkSignResponse (clear_bit (SignResponse_has_bits m) 0x02) (SignResponse_cj_ m) [] (SignResponse_id_ m) (SignResponse_unknown m)).

Definition SignResponse_set_allocated_sig (v : option str) (m : SignResponse) : SignResponse :=
  match v with
  | Some s => mkSignResponse (Z.lor (SignResponse_has_bits m) 0x02) (SignResponse_cj_ m) s (SignResponse_id_ m) (SignResponse_unknown m)
  | None => mkSignResponse (clear_bit (SignResponse_has_bits m) 0x02) (SignResponse_cj_ m) [] (SignResponse_id_ m) (SignResponse_unknown m)
  end.

(** Field [id] = 3. *)
Definition SignResponse_has_id (m : SignResponse) : bool := has_bit (SignResponse_has_bits m) 0x04.

Definition SignResponse_clear_id (m : SignResponse) : SignResponse :=
  mkSignResponse (clear_bit (SignResponse_has_bits m) 0x04) (SignResponse_cj_ m) (SignResponse_sig_ m) [] (SignResponse_unknown m).

Definition SignResponse_get_id (m : SignResponse) : str := SignResponse_id_ m.

Definition SignResponse_set_id (v : str) (m : SignResponse) : SignResponse :=
  mkSignResponse (Z.lor (SignResponse_has_bits m) 0x04) (SignResponse_cj_ m) (SignResponse_sig_ m) v (SignResponse_unknown m).

(** The string that the returned pointer denotes, and the message. *)
Definition SignResponse_mutable_id (m : SignResponse) : str * SignResponse :=
  (SignResponse_id_ m, mkSignResponse (Z.lor (SignResponse_has_bits m) 0x04) (SignResponse_cj_ m) (SignResponse_sig_ m) (SignResponse_id_ m) (SignResponse_unknown m)).

Definition SignResponse_release_id (m : SignResponse) : option str * SignResponse :=
  if negb (SignResponse_has_id m) then (None, m)
  else (Some (SignResponse_id_ m), mkSignResponse (clear_bit (SignResponse_has_bits m) 0x04) (SignResponse_cj_ m) (SignResponse_sig_ m) [] (SignResponse_unknown m)).

Definition SignResponse_set_allocated_id (v : option str) (m : SignResponse) : SignResponse :=
  match v with
  | Some s => mkSignResponse (Z.lor (SignResponse_has_bits m) 0x04) (SignResponse_cj_ m) (SignResponse_sig_ m) s (SignResponse_unknown m)
  | None => mkSignResponse (clear_bit (SignResponse_has_bits m) 0x04) (SignResponse_cj_ m) (SignResponse_sig_ m) [] (SignResponse_unknown m)
  end.

(** The copy constructor. *)
Definition SignResponse_copy (from : SignResponse) : SignResponse :=
  mkSignResponse (SignResponse_has_bits from)
    (if SignResponse_has_cj from then SignResponse_cj_ from else [])
    (if SignResponse_has_sig from then SignResponse_sig_ from else [])
    (if SignResponse_has_id from then SignResponse_id_ from else [])
    (UFS_merge UFS_empty (SignResponse_unknown from)).

Definition SignResponse_Clear (m : SignResponse) : SignResponse :=
  let cached_has_bits := SignResponse_has_bits m in
  let x_cj := if has_bit cached_has_bits 0x07 && has_bit cached_has_bits 0x01 then [] else SignResponse_cj_ m in
  let x_sig := if has_bit cached_has_bits 0x07 && has_bit cached_has_bits 0x02 then [] else SignResponse_sig_ m in
  let x_id := if has_bit cached_has_bits 0x07 && has_bit cached_has_bits 0x04 then [] else SignResponse_id_ m in
  mkSignResponse 0 x_cj x_sig x_id UFS_empty.

(** The [switch] of [_InternalParse]; a [bytes] or message field sets its
    has-bit at once, an integer field in the local word. *)
Definition SignResponse_field (tag : Z) (m : SignResponse) (has_bits : Z) (ptr : str) : field_result SignResponse :=
  if Z.shiftr tag 3 =? 1 then
    if Z.land tag 255 =? 10 then
      match ReadString ptr with
      | Some (s, ptr') => Parsed (SignResponse_set_cj s m) has_bits ptr'
      | None => Failure
      end
    else Unusual
  else
  if Z.shiftr tag 3 =? 2 then
    if Z.land tag 255 =? 18 then
      match ReadString ptr with
      | Some (s, ptr') => Parsed (SignResponse_set_sig s m) has_bits ptr'
      | None => Failure
      end
    else Unusual
  else
  if Z.shiftr tag 3 =? 3 then
    if Z.land tag 255 =? 26 then
      match ReadString ptr with
      | Some (s, ptr') => Parsed (SignResponse_set_id s m) has_bits ptr'
      | None => Failure
      end
    else Unusual
  else
  Unusual.

Definition SignResponse_set_unknown (u : UnknownFieldSet) (m : SignResponse) : SignResponse :=
  mkSignResponse (SignResponse_has_bits m) (SignResponse_cj_ m) (SignResponse_sig_ m) (SignResponse_id_ m) u.

(** [message_done] merges the local has-bits; [None] is the null pointer of a
    failure. *)
Definition SignResponse_InternalParse (m : SignResponse) (ptr : str) : option (SignResponse * str * Z) :=
  match parse_loop SignResponse_field SignResponse_unknown SignResponse_set_unknown (length ptr) m 0 ptr with
  | Some (m, has_bits, ptr', tag) => Some (mkSignResponse (Z.lor (SignResponse_has_bits m) has_bits) (SignResponse_cj_ m) (SignResponse_sig_ m) (SignResponse_id_ m) (SignResponse_unknown m), ptr', tag)
  | None => None
  end.

Definition SignResponse_InternalSerialize (m : SignResponse) : str :=
  let cached_has_bits := SignResponse_has_bits m in
  (if has_bit cached_has_bits 0x01 then WriteBytes 1 (SignResponse_cj_ m) else []) ++
  (if has_bit cached_has_bits 0x02 then WriteBytes 2 (SignResponse_sig_ m) else []) ++
  (if has_bit cached_has_bits 0x04 then WriteBytes 3 (SignResponse_id_ m) else []) ++
  (if UFS_have (SignResponse_unknown m) then UFS_serialize (SignResponse_unknown m) else []).

Definition SignResponse_RequiredFieldsByteSizeFallback (m : SignResponse) : Z :=
  (if SignResponse_has_cj m then 1 + BytesSize (SignResponse_cj_ m) else 0) +
  (if SignResponse_has_sig m then 1 + BytesSize (SignResponse_sig_ m) else 0) +
  (if SignResponse_has_id m then 1 + BytesSize (SignResponse_id_ m) else 0).

Definition SignResponse_ByteSizeLong (m : SignResponse) : Z :=
  let total_size :=
    if Z.lxor (Z.land (SignResponse_has_bits m) 0x07) 0x07 =? 0 then
      (1 + BytesSize (SignResponse_cj_ m)) +
      (1 + BytesSize (SignResponse_sig_ m)) +
      (1 + BytesSize (SignResponse_id_ m))
    else SignResponse_RequiredFieldsByteSizeFallback m in
  if UFS_have (SignResponse_unknown m) then total_size + UFS_size (SignResponse_unknown m) else total_size.

Definition SignResponse_MergeImpl (m from : SignResponse) : SignResponse :=
  let cached_has_bits := SignResponse_has_bits from in
  let m :=
    if has_bit cached_has_bits 0x07 then
      let m := if has_bit cached_has_bits 0x01 then SignResponse_set_cj (SignResponse_cj_ from) m else m in
      let m := if has_bit cached_has_bits 0x02 then SignResponse_set_sig (SignResponse_sig_ from) m else m in
      let m := if has_bit cached_has_bits 0x04 then SignResponse_set_id (SignResponse_id_ from) m else m in
      mkSignResponse (Z.lor (SignResponse_has_bits m) cached_has_bits) (SignResponse_cj_ m) (SignResponse_sig_ m) (SignResponse_id_ m) (SignResponse_unknown m)
    else m in
  SignResponse_set_unknown (UFS_merge (SignResponse_unknown m) (SignResponse_unknown from)) m.

(** [same] is the test [&from == this]. *)
Definition SignResponse_CopyFrom (same : bool) (m from : SignResponse) : SignResponse :=
  if same then m else SignResponse_MergeImpl (SignResponse_Clear m) from.

Definition SignResponse_IsInitialized (m : SignResponse) : bool :=
  Z.lxor (Z.land (SignResponse_has_bits m) 0x07) 0x07 =? 0.

Definition SignResponse_InternalSwap (m other : SignResponse) : SignResponse * SignResponse :=
  (mkSignResponse (SignResponse_has_bits other) (SignResponse_cj_ other) (SignResponse_sig_ other) (SignResponse_id_ other) (SignResponse_unknown other),
   mkSignResponse (SignResponse_has_bits m) (SignResponse_cj_ m) (SignResponse_sig_ m) (SignResponse_id_ m) (SignResponse_unknown m)).

End Messages.

(** * Properties *)

Section MessageFacts.
Context `{WL : WireLaws}.

(** ** SignRequest *)

(** Absent fields hold their default value. *)
Definition SignRequest_wf (m : SignRequest) : Prop :=
  0 <= SignRequest_has_bits m < 4
  /\ (SignRequest_has_m m = false -> SignRequest_m_ m = [])
  /\ (SignRequest_has_t m = false -> SignRequest_t_ m = 0).

(** Its fields can be sent: strings below a gigabyte, 32-bit integers, and no
    field of another version. *)
Definition SignRequest_sendable (m : SignRequest) : Prop :=
  SignRequest_unknown m = UFS_empty
  /\ small (SignRequest_m_ m)
  /\ is_int32 (SignRequest_t_ m).

Lemma SignRequest_byte_size_ok m : SignRequest_sendable m -> SignRequest_ByteSizeLong m = vec_size (SignRequest_InternalSerialize m).
Proof.
  intros (Hu & Hm & Ht). unfold SignRequest_ByteSizeLong, SignRequest_InternalSerialize. rewrite Hu, ufs_have_empty.
  rewrite ?vec_size_app, ?vec_size_if, ?vec_size_nil.
  rewrite ?bytes_size, ?int32_size, ?message_size by (done || lia).
  unfold SignRequest_RequiredFieldsByteSizeFallback, SignRequest_has_m, SignRequest_has_t. sum_of_bits.
Qed.

(** The message that the reader builds, field by field. *)
Definition SignRequest_built (m : SignRequest) : SignRequest * Z :=
  let h := SignRequest_has_bits m in
  let m0 := SignRequest_default in let h0 := 0 in
  let m1 := if has_bit h 0x01 then SignRequest_set_m (SignRequest_m_ m) m0 else m0 in
  let h1 := if has_bit h 0x01 then h0 else h0 in
  let m2 := if has_bit h 0x02 then SignRequest_put_t (SignRequest_t_ m) m1 else m1 in
  let h2 := if has_bit h 0x02 then Z.lor h1 0x02 else h1 in
  (m2, h2).

Lemma SignRequest_parses m :
  SignRequest_wf m -> SignRequest_sendable m ->
  parses SignRequest_field SignRequest_unknown SignRequest_set_unknown SignRequest_default 0
    ((if has_bit (SignRequest_has_bits m) 0x01 then WriteBytes 1 (SignRequest_m_ m) else []) ++
      (if has_bit (SignRequest_has_bits m) 0x02 then WriteInt32 2 (SignRequest_t_ m) else []) ++
      [])
    (Some (fst (SignRequest_built m), snd (SignRequest_built m), [], 0)).
Proof.
  intros Hwf (Hu & Hm & Ht). unfold SignRequest_built, fst, snd. cbv zeta.
  eapply parses_optional; [intros _; read_bytes SignRequest_field|].
  eapply parses_optional; [intros _; read_int32 SignRequest_field|].
  apply parses_done.
Qed.

Lemma SignRequest_rebuild m :
  SignRequest_wf m -> SignRequest_unknown m = UFS_empty ->
  let (r, has_bits) := SignRequest_built m in
  mkSignRequest (Z.lor (SignRequest_has_bits r) has_bits) (SignRequest_m_ r) (SignRequest_t_ r) (SignRequest_unknown r) = m.
Proof.
  destruct m as [h xm xt u]. unfold SignRequest_wf, SignRequest_has_m, SignRequest_has_t.
  intros (Hh & Hf) Hu. simpl in Hh, Hu. subst u. pose proof (small_range 4 h Hh) as Hin. simpl in Hin, Hf.
  each_value Hin; rebuild Hf.
Qed.

(** What is parsed from the serialised message is the message. *)
Lemma SignRequest_parse_serialize m :
  SignRequest_wf m -> SignRequest_sendable m ->
  SignRequest_InternalParse SignRequest_default (SignRequest_InternalSerialize m) = Some (m, [], 0).
Proof.
  intros Hwf Hs. pose proof (SignRequest_parses m Hwf Hs) as Hp. pose proof (SignRequest_rebuild m Hwf (proj1 Hs)) as Hr.
  unfold SignRequest_InternalParse, SignRequest_InternalSerialize. rewrite (proj1 Hs), ufs_have_empty.
  rewrite (Hp _ (Nat.le_refl _)). destruct (SignRequest_built m) as [r hb]. simpl. by rewrite Hr.
Qed.

(** Clearing gives the fresh message, copying the source. *)
Lemma SignRequest_Clear_ok m : SignRequest_wf m -> SignRequest_Clear m = SignRequest_default.
Proof.
  destruct m as [h xm xt u]. unfold SignRequest_wf, SignRequest_has_m, SignRequest_has_t.
  intros (Hh & Hf). simpl in Hh. pose proof (small_range 4 h Hh) as Hin. simpl in Hin, Hf.
  each_value Hin; rebuild Hf.
Qed.

Lemma SignRequest_CopyFrom_ok m from : SignRequest_wf m -> SignRequest_wf from -> SignRequest_CopyFrom false m from = from.
Proof.
  intros Hm. unfold SignRequest_CopyFrom. rewrite SignRequest_Clear_ok by done. clear m Hm.
  destruct from as [h xm xt u]. unfold SignRequest_wf, SignRequest_has_m, SignRequest_has_t.
  intros (Hh & Hf). simpl in Hh. pose proof (small_range 4 h Hh) as Hin. simpl in Hin, Hf.
  transitivity (mkSignRequest h xm xt (UFS_merge UFS_empty u)); [|by rewrite ufs_merge_empty].
  each_value Hin; rebuild Hf.
Qed.

(** Writing a field is what reading it returns; the other fields stay. *)
Lemma SignRequest_accessors_ok m : SignRequest_wf m ->
  (forall v : str, SignRequest_get_m (SignRequest_set_m v m) = v /\ SignRequest_has_m (SignRequest_set_m v m) = true /\ SignRequest_has_m (SignRequest_clear_m m) = false /\ SignRequest_get_m (SignRequest_clear_m m) = []
     /\ SignRequest_wf (SignRequest_set_m v m) /\ SignRequest_wf (SignRequest_clear_m m)
     /\ SignRequest_get_t (SignRequest_set_m v m) = SignRequest_get_t m /\ SignRequest_has_t (SignRequest_set_m v m) = SignRequest_has_t m)
  /\ (forall v : Z, SignRequest_get_t (SignRequest_set_t v m) = v /\ SignRequest_has_t (SignRequest_set_t v m) = true /\ SignRequest_has_t (SignRequest_clear_t m) = false /\ SignRequest_get_t (SignRequest_clear_t m) = 0
     /\ SignRequest_wf (SignRequest_set_t v m) /\ SignRequest_wf (SignRequest_clear_t m)
     /\ SignRequest_get_m (SignRequest_set_t v m) = SignRequest_get_m m /\ SignRequest_has_m (SignRequest_set_t v m) = SignRequest_has_m m).
Proof.
  destruct m as [h xm xt u].
  unfold SignRequest_wf, SignRequest_has_m, SignRequest_has_t, SignRequest_set_m, SignRequest_set_t, SignRequest_clear_m, SignRequest_clear_t.
  intros (Hh & Hf). accessors 2 Hf.
Qed.

(** ** SignResponse *)

(** Absent fields hold their default value. *)
Definition SignResponse_wf (m : SignResponse) : Prop :=
  0 <= SignResponse_has_bits m < 8
  /\ (SignResponse_has_cj m = false -> SignResponse_cj_ m = [])
  /\ (SignResponse_has_sig m = false -> SignResponse_sig_ m = [])
  /\ (SignResponse_has_id m = false -> SignResponse_id_ m = []).

(** Its fields can be sent: strings below a gigabyte, 32-bit integers, and no
    field of another version. *)
Definition SignResponse_sendable (m : SignResponse) : Prop :=
  SignResponse_unknown m = UFS_empty
  /\ small (SignResponse_cj_ m)
  /\ small (SignResponse_sig_ m)
  /\ small (SignResponse_id_ m).

Lemma SignResponse_byte_size_ok m : SignResponse_sendable m -> SignResponse_ByteSizeLong m = vec_size (SignResponse_InternalSerialize m).
Proof.
  intros (Hu & Hcj & Hsig & Hid). unfold SignResponse_ByteSizeLong, SignResponse_InternalSerialize. rewrite Hu, ufs_have_empty.
  rewrite ?vec_size_app, ?vec_size_if, ?vec_size_nil.
  rewrite ?bytes_size, ?int32_size, ?message_size by (done || lia).
  unfold SignResponse_RequiredFieldsByteSizeFallback, SignResponse_has_cj, SignResponse_has_sig, SignResponse_has_id. sum_of_bits.
Qed.

(** The message that the reader builds, field by field. *)
Definition SignResponse_built (m : SignResponse) : SignResponse * Z :=
  let h := SignResponse_has_bits m in
  let m0 := SignResponse_default in let h0 := 0 in
  let m1 := if has_bit h 0x01 then SignResponse_set_cj (SignResponse_cj_ m) m0 else m0 in
  let h1 := if has_bit h 0x01 then h0 else h0 in
  let m2 := if has_bit h 0x02 then SignResponse_set_sig (SignResponse_sig_ m) m1 else m1 in
  let h2 := if has_bit h 0x02 then h1 else h1 in
  let m3 := if has_bit h 0x04 then SignResponse_set_id (SignResponse_id_ m) m2 else m2 in
  let h3 := if has_bit h 0x04 then h2 else h2 in
  (m3, h3).

Lemma SignResponse_parses m :
  SignResponse_wf m -> SignResponse_sendable m ->
  parses SignResponse_field SignResponse_unknown SignResponse_set_unknown SignResponse_default 0
    ((if has_bit (SignResponse_has_bits m) 0x01 then WriteBytes 1 (SignResponse_cj_ m) else []) ++
      (if has_bit (SignResponse_has_bits m) 0x02 then WriteBytes 2 (SignResponse_sig_ m) else []) ++
      (if has_bit (SignResponse_has_bits m) 0x04 then WriteBytes 3 (SignResponse_id_ m) else []) ++
      [])
    (Some (fst (SignResponse_built m), snd (SignResponse_built m), [], 0)).
Proof.
  intros Hwf (Hu & Hcj & Hsig & Hid). unfold SignResponse_built, fst, snd. cbv zeta.
  eapply parses_optional; [intros _; read_bytes SignResponse_field|].
  eapply parses_optional; [intros _; read_bytes SignResponse_field|].
  eapply parses_optional; [intros _; read_bytes SignResponse_field|].
  apply parses_done.
Qed.

Lemma SignResponse_rebuild m :
  SignResponse_wf m -> SignResponse_unknown m = UFS_empty ->
  let (r, has_bits) := SignResponse_built m in
  mkSignResponse (Z.lor (SignResponse_has_bits r) has_bits) (SignResponse_cj_ r) (SignResponse_sig_ r) (SignResponse_id_ r) (SignResponse_unknown r) = m.
Proof.
  destruct m as [h xcj xsig xid u]. unfold SignResponse_wf, SignResponse_has_cj, SignResponse_has_sig, SignResponse_has_id.
  intros (Hh & Hf) Hu. simpl in Hh, Hu. subst u. pose proof (small_range 8 h Hh) as Hin. simpl in Hin, Hf.
  each_value Hin; rebuild Hf.
Qed.

(** What is parsed from the serialised message is the message. *)
Lemma SignResponse_parse_serialize m :
  SignResponse_wf m -> SignResponse_sendable m ->
  SignResponse_InternalParse SignResponse_default (SignResponse_InternalSerialize m) = Some (m, [], 0).
Proof.
  intros Hwf Hs. pose proof (SignResponse_parses m Hwf Hs) as Hp. pose proof (SignResponse_rebuild m Hwf (proj1 Hs)) as Hr.
  unfold SignResponse_InternalParse, SignResponse_InternalSerialize. rewrite (proj1 Hs), ufs_have_empty.
  rewrite (Hp _ (Nat.le_refl _)). destruct (SignResponse_built m) as [r hb]. simpl. by rewrite Hr.
Qed.

(** Clearing gives the fresh message, copying the source. *)
Lemma SignResponse_Clear_ok m : SignResponse_wf m -> SignResponse_Clear m = SignResponse_default.
Proof.
  destruct m as [h xcj xsig xid u]. unfold SignResponse_wf, SignResponse_has_cj, SignResponse_has_sig, SignResponse_has_id.
  intros (Hh & Hf). simpl in Hh. pose proof (small_range 8 h Hh) as Hin. simpl in Hin, Hf.
  each_value Hin; rebuild Hf.
Qed.

Lemma SignResponse_CopyFrom_ok m from : SignResponse_wf m -> SignResponse_wf from -> SignResponse_CopyFrom false m from = from.
Proof.
  intros Hm. unfold SignResponse_CopyFrom. rewrite SignResponse_Clear_ok by done. clear m Hm.
  destruct from as [h xcj xsig xid u]. unfold SignResponse_wf, SignResponse_has_cj, SignResponse_has_sig, SignResponse_has_id.
  intros (Hh & Hf). simpl in Hh. pose proof (small_range 8 h Hh) as Hin. simpl in Hin, Hf.
  transitivity (mkSignResponse h xcj xsig xid (UFS_merge UFS_empty u)); [|by rewrite ufs_merge_empty].
  each_value Hin; rebuild Hf.
Qed.

(** Writing a field is what reading it returns; the other fields stay. *)
Lemma SignResponse_accessors_ok m : SignResponse_wf m ->
  (forall v : str, SignResponse_get_cj (SignResponse_set_cj v m) = v /\ SignResponse_has_cj (SignResponse_set_cj v m) = true /\ SignResponse_has_cj (SignResponse_clear_cj m) = false /\ SignResponse_get_cj (SignResponse_clear_cj m) = []
     /\ SignResponse_wf (SignResponse_set_cj v m) /\ SignResponse_wf (SignResponse_clear_cj m)
     /\ SignResponse_get_sig (SignResponse_set_cj v m) = SignResponse_get_sig m /\ SignResponse_has_sig (SignResponse_set_cj v m) = SignResponse_has_sig m
     /\ SignResponse_get_id (SignResponse_set_cj v m) = SignResponse_get_id m /\ SignResponse_has_id (SignResponse_set_cj v m) = SignResponse_has_id m)
  /\ (forall v : str, SignResponse_get_sig (SignResponse_set_sig v m) = v /\ SignResponse_has_sig (SignResponse_set_sig v m) = true /\ SignResponse_has_sig (SignResponse_clear_sig m) = false /\ SignResponse_get_sig (SignResponse_clear_sig m) = []
     /\ SignResponse_wf (SignResponse_set_sig v m) /\ SignResponse_wf (SignResponse_clear_sig m)
     /\ SignResponse_get_cj (SignResponse_set_sig v m) = SignResponse_get_cj m /\ SignResponse_has_cj (SignResponse_set_sig v m) = SignResponse_has_cj m
     /\ SignResponse_get_id (SignResponse_set_sig v m) = SignResponse_get_id m /\ SignResponse_has_id (SignResponse_set_sig v m) = SignResponse_has_id m)
  /\ (forall v : str, SignResponse_get_id (SignResponse_set_id v m) = v /\ SignResponse_has_id (SignResponse_set_id v m) = true /\ SignResponse_has_id (SignResponse_clear_id m) = false /\ SignResponse_get_id (SignResponse_clear_id m) = []
     /\ SignResponse_wf (SignResponse_set_id v m) /\ SignResponse_wf (SignResponse_clear_id m)
     /\ SignResponse_get_cj (SignResponse_set_id v m) = SignResponse_get_cj m /\ SignResponse_has_cj (SignResponse_set_id v m) = SignResponse_has_cj m
     /\ SignResponse_get_sig (SignResponse_set_id v m) = SignResponse_get_sig m /\ SignResponse_has_sig (SignResponse_set_id v m) = SignResponse_has_sig m).
Proof.
  destruct m as [h xcj xsig xid u].
  unfold SignResponse_wf, SignResponse_has_cj, SignResponse_has_sig, SignResponse_has_id, SignResponse_set_cj, SignResponse_set_sig, SignResponse_set_id, SignResponse_clear_cj, SignResponse_clear_sig, SignResponse_clear_id.
  intros (Hh & Hf). accessors 3 Hf.
Qed.
End MessageFacts.
