(* ===== verification/TAMsg.v ===== *)
(** * The messages of TA.proto

    [UAVIDRequest], [Parameters] and [UAVIDResponse], generated from
    proto/TA.proto into proto/output/TA.pb.h and TA.pb.cc.  [Parameters] is a
    submessage of [UAVIDResponse], held by a pointer that may be null. *)

From Stdlib Require Import ZArith Lia.
From stdpp Require Import base list.
From S2P Require Import Prelude Text Wire.

Open Scope Z_scope.

Section Messages.
Context `{W : WireOps}.

(** ** UAVIDRequest *)

Record UAVIDRequest : Type := mkUAVIDRequest {
  UAVIDRequest_has_bits : Z;
  UAVIDRequest_uav_id_ : str;
  UAVIDRequest_unknown : UnknownFieldSet;
}.

(** [SharedCtor]: no field is present. *)
Definition UAVIDRequest_default : UAVIDRequest :=
  mkUAVIDRequest 0 [] UFS_empty.

(** Field [uav_id] = 1. *)
Definition UAVIDRequest_has_uav_id (m : UAVIDRequest) : bool := has_bit (UAVIDRequest_has_bits m) 0x01.

Definition UAVIDRequest_clear_uav_id (m : UAVIDRequest) : UAVIDRequest :=
  mkUAVIDRequest (clear_bit (UAVIDRequest_has_bits m) 0x01) [] (UAVIDRequest_unknown m).

Definition UAVIDRequest_get_uav_id (m : UAVIDRequest) : str := UAVIDRequest_uav_id_ m.

Definition UAVIDRequest_set_uav_id (v : str) (m : UAVIDRequest) : UAVIDRequest :=
  mkUAVIDRequest (Z.lor (UAVIDRequest_has_bits m) 0x01) v (UAVIDRequest_unknown m).

(** The string that the returned pointer denotes, and the message. *)
Definition UAVIDRequest_mutable_uav_id (m : UAVIDRequest) : str * UAVIDRequest :=
  (UAVIDRequest_uav_id_ m, mkUAVIDRequest (Z.lor (UAVIDRequest_has_bits m) 0x01) (UAVIDRequest_uav_id_ m) (UAVIDRequest_unknown m)).

Definition UAVIDRequest_release_uav_id (m : UAVIDRequest) : option str * UAVIDRequest :=
  if negb (UAVIDRequest_has_uav_id m) then (None, m)
  else (Some (UAVIDRequest_uav_id_ m), mkUAVIDRequest (clear_bit (UAVIDRequest_has_bits m) 0x01) [] (UAVIDRequest_unknown m)).

Definition UAVIDRequest_set_allocated_uav_id (v : option str) (m : UAVIDRequest) : UAVIDRequest :=
  match v with
  | Some s => mkUAVIDRequest (Z.lor (UAVIDRequest_has_bits m) 0x01) s (UAVIDRequest_unknown m)
  | None => mkUAVIDRequest (clear_bit (UAVIDRequest_has_bits m) 0x01) [] (UAVIDRequest_unknown m)
  end.

(** The copy constructor. *)
Definition UAVIDRequest_copy (from : UAVIDRequest) : UAVIDRequest :=
  mkUAVIDRequest (UAVIDRequest_has_bits from)
    (if UAVIDRequest_has_uav_id from then UAVIDRequest_uav_id_ from else [])
    (UFS_merge UFS_empty (UAVIDRequest_unknown from)).

Definition UAVIDRequest_Clear (m : UAVIDRequest) : UAVIDRequest :=
  let cached_has_bits := UAVIDRequest_has_bits m in
  let x_uav_id := if has_bit cached_has_bits 0x01 then [] else UAVIDRequest_uav_id_ m in
  mkUAVIDRequest 0 x_uav_id UFS_empty.

(** The [switch] of [_InternalParse]; a [bytes] or message field sets its
    has-bit at once, an integer field in the local word. *)
Definition UAVIDRequest_field (tag : Z) (m : UAVIDRequest) (has_bits : Z) (ptr : str) : field_result UAVIDRequest :=
  if Z.shiftr tag 3 =? 1 then
    if Z.land tag 255 =? 10 then
      match ReadString ptr with
      | Some (s, ptr') => Parsed (UAVIDRequest_set_uav_id s m) has_bits ptr'
      | None => Failure
      end
    else Unusual
  else
  Unusual.

Definition UAVIDRequest_set_unknown (u : UnknownFieldSet) (m : UAVIDRequest) : UAVIDRequest :=
  mkUAVIDRequest (UAVIDRequest_has_bits m) (UAVIDRequest_uav_id_ m) u.

(** [message_done] merges the local has-bits; [None] is the null pointer of a
    failure. *)
Definition UAVIDRequest_InternalParse (m : UAVIDRequest) (ptr : str) : option (UAVIDRequest * str * Z) :=
  match parse_loop UAVIDRequest_field UAVIDRequest_unknown UAVIDRequest_set_unknown (length ptr) m 0 ptr with
  | Some (m, has_bits, ptr', tag) => Some (mkUAVIDRequest (Z.lor (UAVIDRequest_has_bits m) has_bits) (UAVIDRequest_uav_id_ m) (UAVIDRequest_unknown m), ptr', tag)
  | None => None
  end.

Definition UAVIDRequest_InternalSerialize (m : UAVIDRequest) : str :=
  let cached_has_bits := UAVIDRequest_has_bits m in
  (if has_bit cached_has_bits 0x01 then WriteBytes 1 (UAVIDRequest_uav_id_ m) else []) ++
  (if UFS_have (UAVIDRequest_unknown m) then UFS_serialize (UAVIDRequest_unknown m) else []).

Definition UAVIDRequest_ByteSizeLong (m : UAVIDRequest) : Z :=
  let total_size := if has_bit (UAVIDRequest_has_bits m) 0x01 then 1 + BytesSize (UAVIDRequest_uav_id_ m) else 0 in
  if UFS_have (UAVIDRequest_unknown m) then total_size + UFS_size (UAVIDRequest_unknown m) else total_size.

Definition UAVIDRequest_MergeImpl (m from : UAVIDRequest) : UAVIDRequest :=
  let cached_has_bits := UAVIDRequest_has_bits from in
  let m := if has_bit cached_has_bits 0x01 then UAVIDRequest_set_uav_id (UAVIDRequest_uav_id_ from) m else m in
  UAVIDRequest_set_unknown (UFS_merge (UAVIDRequest_unknown m) (UAVIDRequest_unknown from)) m.

(** [same] is the test [&from == this]. *)
Definition UAVIDRequest_CopyFrom (same : bool) (m from : UAVIDRequest) : UAVIDRequest :=
  if same then m else UAVIDRequest_MergeImpl (UAVIDRequest_Clear m) from.

Definition UAVIDRequest_IsInitialized (m : UAVIDRequest) : bool :=
  Z.lxor (Z.land (UAVIDRequest_has_bits m) 0x01) 0x01 =? 0.

Definition UAVIDRequest_InternalSwap (m other : UAVIDRequest) : UAVIDRequest * UAVIDRequest :=
  (mkUAVIDRequest (UAVIDRequest_has_bits other) (UAVIDRequest_uav_id_ other) (UAVIDRequest_unknown other),
   mkUAVIDRequest (UAVIDRequest_has_bits m) (UAVIDRequest_uav_id_ m) (UAVIDRequest_unknown m)).

(** ** Parameters *)

Record Parameters : Type := mkParameters {
  Parameters_has_bits : Z;
  Parameters_q_ : str;
  Parameters_p2_ : str;
  Parameters_g_ : str;
  Parameters_beta_ : str;
  Parameters_pk_ : str;
  Parameters_n_ : Z;
  Parameters_tm_ : Z;
  Parameters_unknown : UnknownFieldSet;
}.

(** [SharedCtor]: no field is present. *)
Definition Parameters_default : Parameters :=
  mkParameters 0 [] [] [] [] [] 0 0 UFS_empty.

(** Field [q] = 3. *)
Definition Parameters_has_q (m : Parameters) : bool := has_bit (Parameters_has_bits m) 0x01.

Definition Parameters_clear_q (m : Parameters) : Parameters :=
  mkParameters (clear_bit (Parameters_has_bits m) 0x01) [] (Parameters_p2_ m) (Parameters_g_ m) (Parameters_beta_ m) (Parameters_pk_ m) (Parameters_n_ m) (Parameters_tm_ m) (Parameters_unknown m).

Definition Parameters_get_q (m : Parameters) : str := Parameters_q_ m.

Definition Parameters_set_q (v : str) (m : Parameters) : Parameters :=
  mkParameters (Z.lor (Parameters_has_bits m) 0x01) v (Parameters_p2_ m) (Parameters_g_ m) (Parameters_beta_ m) (Parameters_pk_ m) (Parameters_n_ m) (Parameters_tm_ m) (Parameters_unknown m).

(** The string that the returned pointer denotes, and the message. *)
Definition Parameters_mutable_q (m : Parameters) : str * Parameters :=
  (Parameters_q_ m, mkParameters (Z.lor (Parameters_has_bits m) 0x01) (Parameters_q_ m) (Parameters_p2_ m) (Parameters_g_ m) (Parameters_beta_ m) (Parameters_pk_ m) (Parameters_n_ m) (Parameters_tm_ m) (Parameters_unknown m)).

Definition Parameters_release_q (m : Parameters) : option str * Parameters :=
  if negb (Parameters_has_q m) then (None, m)
  else (Some (Parameters_q_ m), mkParameters (clear_bit (Parameters_has_bits m) 0x01) [] (Parameters_p2_ m) (Parameters_g_ m) (Parameters_beta_ m) (Parameters_pk_ m) (Parameters_n_ m) (Parameters_tm_ m) (Parameters_unknown m)).

Definition Parameters_set_allocated_q (v : option str) (m : Parameters) : Parameters :=
  match v with
  | Some s => mkParameters (Z.lor (Parameters_has_bits m) 0x01) s (Parameters_p2_ m) (Parameters_g_ m) (Parameters_beta_ m) (Parameters_pk_ m) (Parameters_n_ m) (Parameters_tm_ m) (Parameters_unknown m)
  | None => mkParameters (clear_bit (Parameters_has_bits m) 0x01) [] (Parameters_p2_ m) (Parameters_g_ m) (Parameters_beta_ m) (Parameters_pk_ m) (Parameters_n_ m) (Parameters_tm_ m) (Parameters_unknown m)
  end.

(** Field [p2] = 4. *)
Definition Parameters_has_p2 (m : Parameters) : bool := has_bit (Parameters_has_bits m) 0x02.

Definition Parameters_clear_p2 (m : Parameters) : Parameters :=
  mkParameters (clear_bit (Parameters_has_bits m) 0x02) (Parameters_q_ m) [] (Parameters_g_ m) (Parameters_beta_ m) (Parameters_pk_ m) (Parameters_n_ m) (Parameters_tm_ m) (Parameters_unknown m).

Definition Parameters_get_p2 (m : Parameters) : str := Parameters_p2_ m.

Definition Parameters_set_p2 (v : str) (m : Parameters) : Parameters :=
  mkParameters (Z.lor (Parameters_has_bits m) 0x02) (Parameters_q_ m) v (Parameters_g_ m) (Parameters_beta_ m) (Parameters_pk_ m) (Parameters_n_ m) (Parameters_tm_ m) (Parameters_unknown m).

(** The string that the returned pointer denotes, and the message. *)
Definition Parameters_mutable_p2 (m : Parameters) : str * Parameters :=
  (Parameters_p2_ m, mkParameters (Z.lor (Parameters_has_bits m) 0x02) (Parameters_q_ m) (Parameters_p2_ m) (Parameters_g_ m) (Parameters_beta_ m) (Parameters_pk_ m) (Parameters_n_ m) (Parameters_tm_ m) (Parameters_unknown m)).

Definition Parameters_release_p2 (m : Parameters) : option str * Parameters :=
  if negb (Parameters_has_p2 m) then (None, m)
  else (Some (Parameters_p2_ m), mkParameters (clear_bit (Parameters_has_bits m) 0x02) (Parameters_q_ m) [] (Parameters_g_ m) (Parameters_beta_ m) (Parameters_pk_ m) (Parameters_n_ m) (Parameters_tm_ m) (Parameters_unknown m)).

Definition Parameters_set_allocated_p2 (v : option str) (m : Parameters) : Parameters :=
  match v with
  | Some s => mkParameters (Z.lor (Parameters_has_bits m) 0x02) (Parameters_q_ m) s (Parameters_g_ m) (Parameters_beta_ m) (Parameters_pk_ m) (Parameters_n_ m) (Parameters_tm_ m) (Parameters_unknown m)
  | None => mkParameters (clear_bit (Parameters_has_bits m) 0x02) (Parameters_q_ m) [] (Parameters_g_ m) (Parameters_beta_ m) (Parameters_pk_ m) (Parameters_n_ m) (Parameters_tm_ m) (Parameters_unknown m)
  end.

(** Field [g] = 5. *)
Definition Parameters_has_g (m : Parameters) : bool := has_bit (Parameters_has_bits m) 0x04.

Definition Parameters_clear_g (m : Parameters) : Parameters :=
  mkParameters (clear_bit (Parameters_has_bits m) 0x04) (Parameters_q_ m) (Parameters_p2_ m) [] (Parameters_beta_ m) (Parameters_pk_ m) (Parameters_n_ m) (Parameters_tm_ m) (Parameters_unknown m).

Definition Parameters_get_g (m : Parameters) : str := Parameters_g_ m.

Definition Parameters_set_g (v : str) (m : Parameters) : Parameters :=
  mkParameters (Z.lor (Parameters_has_bits m) 0x04) (Parameters_q_ m) (Parameters_p2_ m) v (Parameters_beta_ m) (Parameters_pk_ m) (Parameters_n_ m) (Parameters_tm_ m) (Parameters_unknown m).

(** The string that the returned pointer denotes, and the message. *)
Definition Parameters_mutable_g (m : Parameters) : str * Parameters :=
  (Parameters_g_ m, mkParameters (Z.lor (Parameters_has_bits m) 0x04) (Parameters_q_ m) (Parameters_p2_ m) (Parameters_g_ m) (Parameters_beta_ m) (Parameters_pk_ m) (Parameters_n_ m) (Parameters_tm_ m) (Parameters_unknown m)).

Definition Parameters_release_g (m : Parameters) : option str * Parameters :=
  if negb (Parameters_has_g m) then (None, m)
  else (Some (Parameters_g_ m), mkParameters (clear_bit (Parameters_has_bits m) 0x04) (Parameters_q_ m) (Parameters_p2_ m) [] (Parameters_beta_ m) (Parameters_pk_ m) (Parameters_n_ m) (Parameters_tm_ m) (Parameters_unknown m)).

Definition Parameters_set_allocated_g (v : option str) (m : Parameters) : Parameters :=
  match v with
  | Some s => mkParameters (Z.lor (Parameters_has_bits m) 0x04) (Parameters_q_ m) (Parameters_p2_ m) s (Parameters_beta_ m) (Parameters_pk_ m) (Parameters_n_ m) (Parameters_tm_ m) (Parameters_unknown m)
  | None => mkParameters (clear_bit (Parameters_has_bits m) 0x04) (Parameters_q_ m) (Parameters_p2_ m) [] (Parameters_beta_ m) (Parameters_pk_ m) (Parameters_n_ m) (Parameters_tm_ m) (Parameters_unknown m)
  end.

(** Field [beta] = 6. *)
Definition Parameters_has_beta (m : Parameters) : bool := has_bit (Parameters_has_bits m) 0x08.

Definition Parameters_clear_beta (m : Parameters) : Parameters :=
  mkParameters (clear_bit (Parameters_has_bits m) 0x08) (Parameters_q_ m) (Parameters_p2_ m) (Parameters_g_ m) [] (Parameters_pk_ m) (Parameters_n_ m) (Parameters_tm_ m) (Parameters_unknown m).

Definition Parameters_get_beta (m : Parameters) : str := Parameters_beta_ m.

Definition Parameters_set_beta (v : str) (m : Parameters) : Parameters :=
  mkParameters (Z.lor (Parameters_has_bits m) 0x08) (Parameters_q_ m) (Parameters_p2_ m) (Parameters_g_ m) v (Parameters_pk_ m) (Parameters_n_ m) (Parameters_tm_ m) (Parameters_unknown m).

(** The string that the returned pointer denotes, and the message. *)
Definition Parameters_mutable_beta (m : Parameters) : str * Parameters :=
  (Parameters_beta_ m, mkParameters (Z.lor (Parameters_has_bits m) 0x08) (Parameters_q_ m) (Parameters_p2_ m) (Parameters_g_ m) (Parameters_beta_ m) (Parameters_pk_ m) (Parameters_n_ m) (Parameters_tm_ m) (Parameters_unknown m)).

Definition Parameters_release_beta (m : Parameters) : option str * Parameters :=
  if negb (Parameters_has_beta m) then (None, m)
  else (Some (Parameters_beta_ m), mkParameters (clear_bit (Parameters_has_bits m) 0x08) (Parameters_q_ m) (Parameters_p2_ m) (Parameters_g_ m) [] (Parameters_pk_ m) (Parameters_n_ m) (Parameters_tm_ m) (Parameters_unknown m)).

Definition Parameters_set_allocated_beta (v : option str) (m : Parameters) : Parameters :=
  match v with
  | Some s => mkParameters (Z.lor (Parameters_has_bits m) 0x08) (Parameters_q_ m) (Parameters_p2_ m) (Parameters_g_ m) s (Parameters_pk_ m) (Parameters_n_ m) (Parameters_tm_ m) (Parameters_unknown m)
  | None => mkParameters (clear_bit (Parameters_has_bits m) 0x08) (Parameters_q_ m) (Parameters_p2_ m) (Parameters_g_ m) [] (Parameters_pk_ m) (Parameters_n_ m) (Parameters_tm_ m) (Parameters_unknown m)
  end.

(** Field [pk] = 7. *)
Definition Parameters_has_pk (m : Parameters) : bool := has_bit (Parameters_has_bits m) 0x10.

Definition Parameters_clear_pk (m : Parameters) : Parameters :=
  mkParameters (clear_bit (Parameters_has_bits m) 0x10) (Parameters_q_ m) (Parameters_p2_ m) (Parameters_g_ m) (Parameters_beta_ m) [] (Parameters_n_ m) (Parameters_tm_ m) (Parameters_unknown m).

Definition Parameters_get_pk (m : Parameters) : str := Parameters_pk_ m.

Definition Parameters_set_pk (v : str) (m : Parameters) : Parameters :=
  mkParameters (Z.lor (Parameters_has_bits m) 0x10) (Parameters_q_ m) (Parameters_p2_ m) (Parameters_g_ m) (Parameters_beta_ m) v (Parameters_n_ m) (Parameters_tm_ m) (Parameters_unknown m).

(** The string that the returned pointer denotes, and the message. *)
Definition Parameters_mutable_pk (m : Parameters) : str * Parameters :=
  (Parameters_pk_ m, mkParameters (Z.lor (Parameters_has_bits m) 0x10) (Parameters_q_ m) (Parameters_p2_ m) (Parameters_g_ m) (Parameters_beta_ m) (Parameters_pk_ m) (Parameters_n_ m) (Parameters_tm_ m) (Parameters_unknown m)).

Definition Parameters_release_pk (m : Parameters) : option str * Parameters :=
  if negb (Parameters_has_pk m) then (None, m)
  else (Some (Parameters_pk_ m), mkParameters (clear_bit (Parameters_has_bits m) 0x10) (Parameters_q_ m) (Parameters_p2_ m) (Parameters_g_ m) (Parameters_beta_ m) [] (Parameters_n_ m) (Parameters_tm_ m) (Parameters_unknown m)).

Definition Parameters_set_allocated_pk (v : option str) (m : Parameters) : Parameters :=
  match v with
  | Some s => mkParameters (Z.lor (Parameters_has_bits m) 0x10) (Parameters_q_ m) (Parameters_p2_ m) (Parameters_g_ m) (Parameters_beta_ m) s (Parameters_n_ m) (Parameters_tm_ m) (Parameters_unknown m)
  | None => mkParameters (clear_bit (Parameters_has_bits m) 0x10) (Parameters_q_ m) (Parameters_p2_ m) (Parameters_g_ m) (Parameters_beta_ m) [] (Parameters_n_ m) (Parameters_tm_ m) (Parameters_unknown m)
  end.

(** Field [n] = 1. *)
Definition Parameters_has_n (m : Parameters) : bool := has_bit (Parameters_has_bits m) 0x20.

Definition Parameters_clear_n (m : Parameters) : Parameters :=
  mkParameters (clear_bit (Parameters_has_bits m) 0x20) (Parameters_q_ m) (Parameters_p2_ m) (Parameters_g_ m) (Parameters_beta_ m) (Parameters_pk_ m) 0 (Parameters_tm_ m) (Parameters_unknown m).

Definition Parameters_get_n (m : Parameters) : Z := Parameters_n_ m.

Definition Parameters_set_n (v : Z) (m : Parameters) : Parameters :=
  mkParameters (Z.lor (Parameters_has_bits m) 0x20) (Parameters_q_ m) (Parameters_p2_ m) (Parameters_g_ m) (Parameters_beta_ m) (Parameters_pk_ m) v (Parameters_tm_ m) (Parameters_unknown m).

(** [_impl_.n_ = v], as the parser and the merge assign it. *)
Definition Parameters_put_n (v : Z) (m : Parameters) : Parameters :=
  mkParameters (Parameters_has_bits m) (Parameters_q_ m) (Parameters_p2_ m) (Parameters_g_ m) (Parameters_beta_ m) (Parameters_pk_ m) v (Parameters_tm_ m) (Parameters_unknown m).

(** Field [tm] = 2. *)
Definition Parameters_has_tm (m : Parameters) : bool := has_bit (Parameters_has_bits m) 0x40.

Definition Parameters_clear_tm (m : Parameters) : Parameters :=
  mkParameters (clear_bit (Parameters_has_bits m) 0x40) (Parameters_q_ m) (Parameters_p2_ m) (Parameters_g_ m) (Parameters_beta_ m) (Parameters_pk_ m) (Parameters_n_ m) 0 (Parameters_unknown m).

Definition Parameters_get_tm (m : Parameters) : Z := Parameters_tm_ m.

Definition Parameters_set_tm (v : Z) (m : Parameters) : Parameters :=
  mkParameters (Z.lor (Parameters_has_bits m) 0x40) (Parameters_q_ m) (Parameters_p2_ m) (Parameters_g_ m) (Parameters_beta_ m) (Parameters_pk_ m) (Parameters_n_ m) v (Parameters_unknown m).

(** [_impl_.tm_ = v], as the parser and the merge assign it. *)
Definition Parameters_put_tm (v : Z) (m : Parameters) : Parameters :=
  mkParameters (Parameters_has_bits m) (Parameters_q_ m) (Parameters_p2_ m) (Parameters_g_ m) (Parameters_beta_ m) (Parameters_pk_ m) (Parameters_n_ m) v (Parameters_unknown m).

(** The copy constructor. *)
Definition Parameters_copy (from : Parameters) : Parameters :=
  mkParameters (Parameters_has_bits from)
    (if Parameters_has_q from then Parameters_q_ from else [])
    (if Parameters_has_p2 from then Parameters_p2_ from else [])
    (if Parameters_has_g from then Parameters_g_ from else [])
    (if Parameters_has_beta from then Parameters_beta_ from else [])
    (if Parameters_has_pk from then Parameters_pk_ from else [])
    (Parameters_n_ from)
    (Parameters_tm_ from)
    (UFS_merge UFS_empty (Parameters_unknown from)).

Definition Parameters_Clear (m : Parameters) : Parameters :=
  let cached_has_bits := Parameters_has_bits m in
  let x_q := if has_bit cached_has_bits 0x1f && has_bit cached_has_bits 0x01 then [] else Parameters_q_ m in
  let x_p2 := if has_bit cached_has_bits 0x1f && has_bit cached_has_bits 0x02 then [] else Parameters_p2_ m in
  let x_g := if has_bit cached_has_bits 0x1f && has_bit cached_has_bits 0x04 then [] else Parameters_g_ m in
  let x_beta := if has_bit cached_has_bits 0x1f && has_bit cached_has_bits 0x08 then [] else Parameters_beta_ m in
  let x_pk := if has_bit cached_has_bits 0x1f && has_bit cached_has_bits 0x10 then [] else Parameters_pk_ m in
  let x_n := if has_bit cached_has_bits 0x60 then 0 else Parameters_n_ m in
  let x_tm := if has_bit cached_has_bits 0x60 then 0 else Parameters_tm_ m in
  mkParameters 0 x_q x_p2 x_g x_beta x_pk x_n x_tm UFS_empty.

(** The [switch] of [_InternalParse]; a [bytes] or message field sets its
    has-bit at once, an integer field in the local word. *)
Definition Parameters_field (tag : Z) (m : Parameters) (has_bits : Z) (ptr : str) : field_result Parameters :=
  if Z.shiftr tag 3 =? 1 then
    if Z.land tag 255 =? 8 then
      match ReadVarint32 ptr with
      | Some (v, ptr') =>
          Parsed (Parameters_put_n v m) (Z.lor has_bits 0x20) ptr'
      | None => Failure
      end
    else Unusual
  else
  if Z.shiftr tag 3 =? 2 then
    if Z.land tag 255 =? 16 then
      match ReadVarint32 ptr with
      | Some (v, ptr') =>
          Parsed (Parameters_put_tm v m) (Z.lor has_bits 0x40) ptr'
      | None => Failure
      end
    else Unusual
  else
  if Z.shiftr tag 3 =? 3 then
    if Z.land tag 255 =? 26 then
      match ReadString ptr with
      | Some (s, ptr') => Parsed (Parameters_set_q s m) has_bits ptr'
      | None => Failure
      end
    else Unusual
  else
  if Z.shiftr tag 3 =? 4 then
    if Z.land tag 255 =? 34 then
      match ReadString ptr with
      | Some (s, ptr') => Parsed (Parameters_set_p2 s m) has_bits ptr'
      | None => Failure
      end
    else Unusual
  else
  if Z.shiftr tag 3 =? 5 then
    if Z.land tag 255 =? 42 then
      match ReadString ptr with
      | Some (s, ptr') => Parsed (Parameters_set_g s m) has_bits ptr'
      | None => Failure
      end
    else Unusual
  else
  if Z.shiftr tag 3 =? 6 then
    if Z.land tag 255 =? 50 then
      match ReadString ptr with
      | Some (s, ptr') => Parsed (Parameters_set_beta s m) has_bits ptr'
      | None => Failure
      end
    else Unusual
  else
  if Z.shiftr tag 3 =? 7 then
    if Z.land tag 255 =? 58 then
      match ReadString ptr with
      | Some (s, ptr') => Parsed (Parameters_set_pk s m) has_bits ptr'
      | None => Failure
      end
    else Unusual
  else
  Unusual.

Definition Parameters_set_unknown (u : UnknownFieldSet) (m : Parameters) : Parameters :=
  mkParameters (Parameters_has_bits m) (Parameters_q_ m) (Parameters_p2_ m) (Parameters_g_ m) (Parameters_beta_ m) (Parameters_pk_ m) (Parameters_n_ m) (Parameters_tm_ m) u.

(** [message_done] merges the local has-bits; [None] is the null pointer of a
    failure. *)
Definition Parameters_InternalParse (m : Parameters) (ptr : str) : option (Parameters * str * Z) :=
  match parse_loop Parameters_field Parameters_unknown Parameters_set_unknown (length ptr) m 0 ptr with
  | Some (m, has_bits, ptr', tag) => Some (mkParameters (Z.lor (Parameters_has_bits m) has_bits) (Parameters_q_ m) (Parameters_p2_ m) (Parameters_g_ m) (Parameters_beta_ m) (Parameters_pk_ m) (Parameters_n_ m) (Parameters_tm_ m) (Parameters_unknown m), ptr', tag)
  | None => None
  end.

Definition Parameters_InternalSerialize (m : Parameters) : str :=
  let cached_has_bits := Parameters_has_bits m in
  (if has_bit cached_has_bits 0x20 then WriteInt32 1 (Parameters_n_ m) else []) ++
  (if has_bit cached_has_bits 0x40 then WriteInt32 2 (Parameters_tm_ m) else []) ++
  (if has_bit cached_has_bits 0x01 then WriteBytes 3 (Parameters_q_ m) else []) ++
  (if has_bit cached_has_bits 0x02 then WriteBytes 4 (Parameters_p2_ m) else []) ++
  (if has_bit cached_has_bits 0x04 then WriteBytes 5 (Parameters_g_ m) else []) ++
  (if has_bit cached_has_bits 0x08 then WriteBytes 6 (Parameters_beta_ m) else []) ++
  (if has_bit cached_has_bits 0x10 then WriteBytes 7 (Parameters_pk_ m) else []) ++
  (if UFS_have (Parameters_unknown m) then UFS_serialize (Parameters_unknown m) else []).

Definition Parameters_ByteSizeLong (m : Parameters) : Z :=
  let cached_has_bits := Parameters_has_bits m in
  let total_size :=
    if has_bit cached_has_bits 0x7f then
      (if has_bit cached_has_bits 0x01 then 1 + BytesSize (Parameters_q_ m) else 0) +
      (if has_bit cached_has_bits 0x02 then 1 + BytesSize (Parameters_p2_ m) else 0) +
      (if has_bit cached_has_bits 0x04 then 1 + BytesSize (Parameters_g_ m) else 0) +
      (if has_bit cached_has_bits 0x08 then 1 + BytesSize (Parameters_beta_ m) else 0) +
      (if has_bit cached_has_bits 0x10 then 1 + BytesSize (Parameters_pk_ m) else 0) +
      (if has_bit cached_has_bits 0x20 then Int32SizePlusOne (Parameters_n_ m) else 0) +
      (if has_bit cached_has_bits 0x40 then Int32SizePlusOne (Parameters_tm_ m) else 0)
    else 0 in
  if UFS_have (Parameters_unknown m) then total_size + UFS_size (Parameters_unknown m) else total_size.

Definition Parameters_MergeImpl (m from : Parameters) : Parameters :=
  let cached_has_bits := Parameters_has_bits from in
  let m :=
    if has_bit cached_has_bits 0x7f then
      let m := if has_bit cached_has_bits 0x01 then Parameters_set_q (Parameters_q_ from) m else m in
      let m := if has_bit cached_has_bits 0x02 then Parameters_set_p2 (Parameters_p2_ from) m else m in
      let m := if has_bit cached_has_bits 0x04 then Parameters_set_g (Parameters_g_ from) m else m in
      let m := if has_bit cached_has_bits 0x08 then Parameters_set_beta (Parameters_beta_ from) m else m in
      let m := if has_bit cached_has_bits 0x10 then Parameters_set_pk (Parameters_pk_ from) m else m in
      let m := if has_bit cached_has_bits 0x20 then Parameters_put_n (Parameters_n_ from) m else m in
      let m := if has_bit cached_has_bits 0x40 then Parameters_put_tm (Parameters_tm_ from) m else m in
      mkParameters (Z.lor (Parameters_has_bits m) cached_has_bits) (Parameters_q_ m) (Parameters_p2_ m) (Parameters_g_ m) (Parameters_beta_ m) (Parameters_pk_ m) (Parameters_n_ m) (Parameters_tm_ m) (Parameters_unknown m)
    else m in
  Parameters_set_unknown (UFS_merge (Parameters_unknown m) (Parameters_unknown from)) m.

(** [same] is the test [&from == this]. *)
Definition Parameters_CopyFrom (same : bool) (m from : Parameters) : Parameters :=
  if same then m else Parameters_MergeImpl (Parameters_Clear m) from.

Definition Parameters_IsInitialized (m : Parameters) : bool := true.

Definition Parameters_InternalSwap (m other : Parameters) : Parameters * Parameters :=
  (mkParameters (Parameters_has_bits other) (Parameters_q_ other) (Parameters_p2_ other) (Parameters_g_ other) (Parameters_beta_ other) (Parameters_pk_ other) (Parameters_n_ other) (Parameters_tm_ other) (Parameters_unknown other),
   mkParameters (Parameters_has_bits m) (Parameters_q_ m) (Parameters_p2_ m) (Parameters_g_ m) (Parameters_beta_ m) (Parameters_pk_ m) (Parameters_n_ m) (Parameters_tm_ m) (Parameters_unknown m)).

(** ** UAVIDResponse *)

Record UAVIDResponse : Type := mkUAVIDResponse {
  UAVIDResponse_has_bits : Z;
  UAVIDResponse_cj_ : str;
  UAVIDResponse_sj_ : str;
  UAVIDResponse_m_ : str;
  UAVIDResponse_params_ : option Parameters;
  UAVIDResponse_t_ : Z;
  UAVIDResponse_unknown : UnknownFieldSet;
}.

(** [SharedCtor]: no field is present. *)
Definition UAVIDResponse_default : UAVIDResponse :=
  mkUAVIDResponse 0 [] [] [] None 0 UFS_empty.

(** Field [cj] = 2. *)
Definition UAVIDResponse_has_cj (m : UAVIDResponse) : bool := has_bit (UAVIDResponse_has_bits m) 0x01.

Definition UAVIDResponse_clear_cj (m : UAVIDResponse) : UAVIDResponse :=
  mkUAVIDResponse (clear_bit (UAVIDResponse_has_bits m) 0x01) [] (UAVIDResponse_sj_ m) (UAVIDResponse_m_ m) (UAVIDResponse_params_ m) (UAVIDResponse_t_ m) (UAVIDResponse_unknown m).

Definition UAVIDResponse_get_cj (m : UAVIDResponse) : str := UAVIDResponse_cj_ m.

Definition UAVIDResponse_set_cj (v : str) (m : UAVIDResponse) : UAVIDResponse :=
  mkUAVIDResponse (Z.lor (UAVIDResponse_has_bits m) 0x01) v (UAVIDResponse_sj_ m) (UAVIDResponse_m_ m) (UAVIDResponse_params_ m) (UAVIDResponse_t_ m) (UAVIDResponse_unknown m).

(** The string that the returned pointer denotes, and the message. *)
Definition UAVIDResponse_mutable_cj (m : UAVIDResponse) : str * UAVIDResponse :=
  (UAVIDResponse_cj_ m, mkUAVIDResponse (Z.lor (UAVIDResponse_has_bits m) 0x01) (UAVIDResponse_cj_ m) (UAVIDResponse_sj_ m) (UAVIDResponse_m_ m) (UAVIDResponse_params_ m) (UAVIDResponse_t_ m) (UAVIDResponse_unknown m)).

Definition UAVIDResponse_release_cj (m : UAVIDResponse) : option str * UAVIDResponse :=
  if negb (UAVIDResponse_has_cj m) then (None, m)
  else (Some (UAVIDResponse_cj_ m), mkUAVIDResponse (clear_bit (UAVIDResponse_has_bits m) 0x01) [] (UAVIDResponse_sj_ m) (UAVIDResponse_m_ m) (UAVIDResponse_params_ m) (UAVIDResponse_t_ m) (UAVIDResponse_unknown m)).

Definition UAVIDResponse_set_allocated_cj (v : option str) (m : UAVIDResponse) : UAVIDResponse :=
  match v with
  | Some s => mkUAVIDResponse (Z.lor (UAVIDResponse_has_bits m) 0x01) s (UAVIDResponse_sj_ m) (UAVIDResponse_m_ m) (UAVIDResponse_params_ m) (UAVIDResponse_t_ m) (UAVIDResponse_unknown m)
  | None => mkUAVIDResponse (clear_bit (UAVIDResponse_has_bits m) 0x01) [] (UAVIDResponse_sj_ m) (UAVIDResponse_m_ m) (UAVIDResponse_params_ m) (UAVIDResponse_t_ m) (UAVIDResponse_unknown m)
  end.

(** Field [sj] = 3. *)
Definition UAVIDResponse_has_sj (m : UAVIDResponse) : bool := has_bit (UAVIDResponse_has_bits m) 0x02.

Definition UAVIDResponse_clear_sj (m : UAVIDResponse) : UAVIDResponse :=
  mkUAVIDResponse (clear_bit (UAVIDResponse_has_bits m) 0x02) (UAVIDResponse_cj_ m) [] (UAVIDResponse_m_ m) (UAVIDResponse_params_ m) (UAVIDResponse_t_ m) (UAVIDResponse_unknown m).

Definition UAVIDResponse_get_sj (m : UAVIDResponse) : str := UAVIDResponse_sj_ m.

Definition UAVIDResponse_set_sj (v : str) (m : UAVIDResponse) : UAVIDResponse :=
  mkUAVIDResponse (Z.lor (UAVIDResponse_has_bits m) 0x02) (UAVIDResponse_cj_ m) v (UAVIDResponse_m_ m) (UAVIDResponse_params_ m) (UAVIDResponse_t_ m) (UAVIDResponse_unknown m).

(** The string that the returned pointer denotes, and the message. *)
Definition UAVIDResponse_mutable_sj (m : UAVIDResponse) : str * UAVIDResponse :=
  (UAVIDResponse_sj_ m, mkUAVIDResponse (Z.lor (UAVIDResponse_has_bits m) 0x02) (UAVIDResponse_cj_ m) (UAVIDResponse_sj_ m) (UAVIDResponse_m_ m) (UAVIDResponse_params_ m) (UAVIDResponse_t_ m) (UAVIDResponse_unknown m)).

Definition UAVIDResponse_release_sj (m : UAVIDResponse) : option str * UAVIDResponse :=
  if negb (UAVIDResponse_has_sj m) then (None, m)
  else (Some (UAVIDResponse_sj_ m), mkUAVIDResponse (clear_bit (UAVIDResponse_has_bits m) 0x02) (UAVIDResponse_cj_ m) [] (UAVIDResponse_m_ m) (UAVIDResponse_params_ m) (UAVIDResponse_t_ m) (UAVIDResponse_unknown m)).

Definition UAVIDResponse_set_allocated_sj (v : option str) (m : UAVIDResponse) : UAVIDResponse :=
  match v with
  | Some s => mkUAVIDResponse (Z.lor (UAVIDResponse_has_bits m) 0x02) (UAVIDResponse_cj_ m) s (UAVIDResponse_m_ m) (UAVIDResponse_params_ m) (UAVIDResponse_t_ m) (UAVIDResponse_unknown m)
  | None => mkUAVIDResponse (clear_bit (UAVIDResponse_has_bits m) 0x02) (UAVIDResponse_cj_ m) [] (UAVIDResponse_m_ m) (UAVIDResponse_params_ m) (UAVIDResponse_t_ m) (UAVIDResponse_unknown m)
  end.

(** Field [m] = 4. *)
Definition UAVIDResponse_has_m (m : UAVIDResponse) : bool := has_bit (UAVIDResponse_has_bits m) 0x04.

Definition UAVIDResponse_clear_m (m : UAVIDResponse) : UAVIDResponse :=
  mkUAVIDResponse (clear_bit (UAVIDResponse_has_bits m) 0x04) (UAVIDResponse_cj_ m) (UAVIDResponse_sj_ m) [] (UAVIDResponse_params_ m) (UAVIDResponse_t_ m) (UAVIDResponse_unknown m).

Definition UAVIDResponse_get_m (m : UAVIDResponse) : str := UAVIDResponse_m_ m.

Definition UAVIDResponse_set_m (v : str) (m : UAVIDResponse) : UAVIDResponse :=
  mkUAVIDResponse (Z.lor (UAVIDResponse_has_bits m) 0x04) (UAVIDResponse_cj_ m) (UAVIDResponse_sj_ m) v (UAVIDResponse_params_ m) (UAVIDResponse_t_ m) (UAVIDResponse_unknown m).

(** The string that the returned pointer denotes, and the message. *)
Definition UAVIDResponse_mutable_m (m : UAVIDResponse) : str * UAVIDResponse :=
  (UAVIDResponse_m_ m, mkUAVIDResponse (Z.lor (UAVIDResponse_has_bits m) 0x04) (UAVIDResponse_cj_ m) (UAVIDResponse_sj_ m) (UAVIDResponse_m_ m) (UAVIDResponse_params_ m) (UAVIDResponse_t_ m) (UAVIDResponse_unknown m)).

Definition UAVIDResponse_release_m (m : UAVIDResponse) : option str * UAVIDResponse :=
  if negb (UAVIDResponse_has_m m) then (None, m)
  else (Some (UAVIDResponse_m_ m), mkUAVIDResponse (clear_bit (UAVIDResponse_has_bits m) 0x04) (UAVIDResponse_cj_ m) (UAVIDResponse_sj_ m) [] (UAVIDResponse_params_ m) (UAVIDResponse_t_ m) (UAVIDResponse_unknown m)).

Definition UAVIDResponse_set_allocated_m (v : option str) (m : UAVIDResponse) : UAVIDResponse :=
  match v with
  | Some s => mkUAVIDResponse (Z.lor (UAVIDResponse_has_bits m) 0x04) (UAVIDResponse_cj_ m) (UAVIDResponse_sj_ m) s (UAVIDResponse_params_ m) (UAVIDResponse_t_ m) (UAVIDResponse_unknown m)
  | None => mkUAVIDResponse (clear_bit (UAVIDResponse_has_bits m) 0x04) (UAVIDResponse_cj_ m) (UAVIDResponse_sj_ m) [] (UAVIDResponse_params_ m) (UAVIDResponse_t_ m) (UAVIDResponse_unknown m)
  end.

(** Field [params] = 1. *)
Definition UAVIDResponse_has_params (m : UAVIDResponse) : bool := has_bit (UAVIDResponse_has_bits m) 0x08.

Definition UAVIDResponse_clear_params (m : UAVIDResponse) : UAVIDResponse :=
  mkUAVIDResponse (clear_bit (UAVIDResponse_has_bits m) 0x08) (UAVIDResponse_cj_ m) (UAVIDResponse_sj_ m) (UAVIDResponse_m_ m) (Parameters_Clear <$> UAVIDResponse_params_ m) (UAVIDResponse_t_ m) (UAVIDResponse_unknown m).

(** The default instance stands in for a null pointer. *)
Definition UAVIDResponse_get_params (m : UAVIDResponse) : Parameters := default Parameters_default (UAVIDResponse_params_ m).

(** [mutable_params()] creates the submessage if there is none; [f] is what the
    caller does through the pointer. *)
Definition UAVIDResponse_mutable_params (f : Parameters -> Parameters) (m : UAVIDResponse) : UAVIDResponse :=
  mkUAVIDResponse (Z.lor (UAVIDResponse_has_bits m) 0x08) (UAVIDResponse_cj_ m) (UAVIDResponse_sj_ m) (UAVIDResponse_m_ m) (Some (f (default Parameters_default (UAVIDResponse_params_ m)))) (UAVIDResponse_t_ m) (UAVIDResponse_unknown m).

Definition UAVIDResponse_release_params (m : UAVIDResponse) : option Parameters * UAVIDResponse :=
  (UAVIDResponse_params_ m, mkUAVIDResponse (clear_bit (UAVIDResponse_has_bits m) 0x08) (UAVIDResponse_cj_ m) (UAVIDResponse_sj_ m) (UAVIDResponse_m_ m) None (UAVIDResponse_t_ m) (UAVIDResponse_unknown m)).

Definition UAVIDResponse_set_allocated_params (v : option Parameters) (m : UAVIDResponse) : UAVIDResponse :=
  match v with
  | Some p => mkUAVIDResponse (Z.lor (UAVIDResponse_has_bits m) 0x08) (UAVIDResponse_cj_ m) (UAVIDResponse_sj_ m) (UAVIDResponse_m_ m) (Some p) (UAVIDResponse_t_ m) (UAVIDResponse_unknown m)
  | None => mkUAVIDResponse (clear_bit (UAVIDResponse_has_bits m) 0x08) (UAVIDResponse_cj_ m) (UAVIDResponse_sj_ m) (UAVIDResponse_m_ m) None (UAVIDResponse_t_ m) (UAVIDResponse_unknown m)
  end.

(** Field [t] = 5. *)
Definition UAVIDResponse_has_t (m : UAVIDResponse) : bool := has_bit (UAVIDResponse_has_bits m) 0x10.

Definition UAVIDResponse_clear_t (m : UAVIDResponse) : UAVIDResponse :=
  mkUAVIDResponse (clear_bit (UAVIDResponse_has_bits m) 0x10) (UAVIDResponse_cj_ m) (UAVIDResponse_sj_ m) (UAVIDResponse_m_ m) (UAVIDResponse_params_ m) 0 (UAVIDResponse_unknown m).

Definition UAVIDResponse_get_t (m : UAVIDResponse) : Z := UAVIDResponse_t_ m.

Definition UAVIDResponse_set_t (v : Z) (m : UAVIDResponse) : UAVIDResponse :=
  mkUAVIDResponse (Z.lor (UAVIDResponse_has_bits m) 0x10) (UAVIDResponse_cj_ m) (UAVIDResponse_sj_ m) (UAVIDResponse_m_ m) (UAVIDResponse_params_ m) v (UAVIDResponse_unknown m).

(** [_impl_.t_ = v], as the parser and the merge assign it. *)
Definition UAVIDResponse_put_t (v : Z) (m : UAVIDResponse) : UAVIDResponse :=
  mkUAVIDResponse (UAVIDResponse_has_bits m) (UAVIDResponse_cj_ m) (UAVIDResponse_sj_ m) (UAVIDResponse_m_ m) (UAVIDResponse_params_ m) v (UAVIDResponse_unknown m).

(** The copy constructor. *)
Definition UAVIDResponse_copy (from : UAVIDResponse) : UAVIDResponse :=
  mkUAVIDResponse (UAVIDResponse_has_bits from)
    (if UAVIDResponse_has_cj from then UAVIDResponse_cj_ from else [])
    (if UAVIDResponse_has_sj from then UAVIDResponse_sj_ from else [])
    (if UAVIDResponse_has_m from then UAVIDResponse_m_ from else [])
    (if UAVIDResponse_has_params from then Parameters_copy <$> UAVIDResponse_params_ from else None)
    (UAVIDResponse_t_ from)
    (UFS_merge UFS_empty (UAVIDResponse_unknown from)).

Definition UAVIDResponse_Clear (m : UAVIDResponse) : UAVIDResponse :=
  let cached_has_bits := UAVIDResponse_has_bits m in
  let x_cj := if has_bit cached_has_bits 0x0f && has_bit cached_has_bits 0x01 then [] else UAVIDResponse_cj_ m in
  let x_sj := if has_bit cached_has_bits 0x0f && has_bit cached_has_bits 0x02 then [] else UAVIDResponse_sj_ m in
  let x_m := if has_bit cached_has_bits 0x0f && has_bit cached_has_bits 0x04 then [] else UAVIDResponse_m_ m in
  let x_params := if has_bit cached_has_bits 0x0f && has_bit cached_has_bits 0x08 then Parameters_Clear <$> UAVIDResponse_params_ m else UAVIDResponse_params_ m in
  let x_t := 0 in
  mkUAVIDResponse 0 x_cj x_sj x_m x_params x_t UFS_empty.

(** The [switch] of [_InternalParse]; a [bytes] or message field sets its
    has-bit at once, an integer field in the local word. *)
Definition UAVIDResponse_field (tag : Z) (m : UAVIDResponse) (has_bits : Z) (ptr : str) : field_result UAVIDResponse :=
  if Z.shiftr tag 3 =? 1 then
    if Z.land tag 255 =? 10 then
      match ReadString ptr with
      | Some (payload, ptr') =>
          match Parameters_InternalParse (UAVIDResponse_get_params m) payload with
          | Some (p, [], 0) => Parsed (UAVIDResponse_mutable_params (fun _ => p) m) has_bits ptr'
          | _ => Failure
          end
      | None => Failure
      end
    else Unusual
  else
  if Z.shiftr tag 3 =? 2 then
    if Z.land tag 255 =? 18 then
      match ReadString ptr with
      | Some (s, ptr') => Parsed (UAVIDResponse_set_cj s m) has_bits ptr'
      | None => Failure
      end
    else Unusual
  else
  if Z.shiftr tag 3 =? 3 then
    if Z.land tag 255 =? 26 then
      match ReadString ptr with
      | Some (s, ptr') => Parsed (UAVIDResponse_set_sj s m) has_bits ptr'
      | None => Failure
      end
    else Unusual
  else
  if Z.shiftr tag 3 =? 4 then
    if Z.land tag 255 =? 34 then
      match ReadString ptr with
      | Some (s, ptr') => Parsed (UAVIDResponse_set_m s m) has_bits ptr'
      | None => Failure
      end
    else Unusual
  else
  if Z.shiftr tag 3 =? 5 then
    if Z.land tag 255 =? 40 then
      match ReadVarint32 ptr with
      | Some (v, ptr') =>
          Parsed (UAVIDResponse_put_t v m) (Z.lor has_bits 0x10) ptr'
      | None => Failure
      end
    else Unusual
  else
  Unusual.

Definition UAVIDResponse_set_unknown (u : UnknownFieldSet) (m : UAVIDResponse) : UAVIDResponse :=
  mkUAVIDResponse (UAVIDResponse_has_bits m) (UAVIDResponse_cj_ m) (UAVIDResponse_sj_ m) (UAVIDResponse_m_ m) (UAVIDResponse_params_ m) (UAVIDResponse_t_ m) u.

(** [message_done] merges the local has-bits; [None] is the null pointer of a
    failure. *)
Definition UAVIDResponse_InternalParse (m : UAVIDResponse) (ptr : str) : option (UAVIDResponse * str * Z) :=
  match parse_loop UAVIDResponse_field UAVIDResponse_unknown UAVIDResponse_set_unknown (length ptr) m 0 ptr with
  | Some (m, has_bits, ptr', tag) => Some (mkUAVIDResponse (Z.lor (UAVIDResponse_has_bits m) has_bits) (UAVIDResponse_cj_ m) (UAVIDResponse_sj_ m) (UAVIDResponse_m_ m) (UAVIDResponse_params_ m) (UAVIDResponse_t_ m) (UAVIDResponse_unknown m), ptr', tag)
  | None => None
  end.

Definition UAVIDResponse_InternalSerialize (m : UAVIDResponse) : str :=
  let cached_has_bits := UAVIDResponse_has_bits m in
  (if has_bit cached_has_bits 0x08 then WriteMessage 1 (Parameters_InternalSerialize (UAVIDResponse_get_params m)) else []) ++
  (if has_bit cached_has_bits 0x01 then WriteBytes 2 (UAVIDResponse_cj_ m) else []) ++
  (if has_bit cached_has_bits 0x02 then WriteBytes 3 (UAVIDResponse_sj_ m) else []) ++
  (if has_bit cached_has_bits 0x04 then WriteBytes 4 (UAVIDResponse_m_ m) else []) ++
  (if has_bit cached_has_bits 0x10 then WriteInt32 5 (UAVIDResponse_t_ m) else []) ++
  (if UFS_have (UAVIDResponse_unknown m) then UFS_serialize (UAVIDResponse_unknown m) else []).

Definition UAVIDResponse_ByteSizeLong (m : UAVIDResponse) : Z :=
  let cached_has_bits := UAVIDResponse_has_bits m in
  let total_size :=
    if has_bit cached_has_bits 0x1f then
      (if has_bit cached_has_bits 0x01 then 1 + BytesSize (UAVIDResponse_cj_ m) else 0) +
      (if has_bit cached_has_bits 0x02 then 1 + BytesSize (UAVIDResponse_sj_ m) else 0) +
      (if has_bit cached_has_bits 0x04 then 1 + BytesSize (UAVIDResponse_m_ m) else 0) +
      (if has_bit cached_has_bits 0x08 then 1 + MessageSize (Parameters_ByteSizeLong (UAVIDResponse_get_params m)) else 0) +
      (if has_bit cached_has_bits 0x10 then Int32SizePlusOne (UAVIDResponse_t_ m) else 0)
    else 0 in
  if UFS_have (UAVIDResponse_unknown m) then total_size + UFS_size (UAVIDResponse_unknown m) else total_size.

Definition UAVIDResponse_MergeImpl (m from : UAVIDResponse) : UAVIDResponse :=
  let cached_has_bits := UAVIDResponse_has_bits from in
  let m :=
    if has_bit cached_has_bits 0x1f then
      let m := if has_bit cached_has_bits 0x01 then UAVIDResponse_set_cj (UAVIDResponse_cj_ from) m else m in
      let m := if has_bit cached_has_bits 0x02 then UAVIDResponse_set_sj (UAVIDResponse_sj_ from) m else m in
      let m := if has_bit cached_has_bits 0x04 then UAVIDResponse_set_m (UAVIDResponse_m_ from) m else m in
      let m := if has_bit cached_has_bits 0x08 then UAVIDResponse_mutable_params (fun p => Parameters_MergeImpl p (UAVIDResponse_get_params from)) m else m in
      let m := if has_bit cached_has_bits 0x10 then UAVIDResponse_put_t (UAVIDResponse_t_ from) m else m in
      mkUAVIDResponse (Z.lor (UAVIDResponse_has_bits m) cached_has_bits) (UAVIDResponse_cj_ m) (UAVIDResponse_sj_ m) (UAVIDResponse_m_ m) (UAVIDResponse_params_ m) (UAVIDResponse_t_ m) (UAVIDResponse_unknown m)
    else m in
  UAVIDResponse_set_unknown (UFS_merge (UAVIDResponse_unknown m) (UAVIDResponse_unknown from)) m.

(** [same] is the test [&from == this]. *)
Definition UAVIDResponse_CopyFrom (same : bool) (m from : UAVIDResponse) : UAVIDResponse :=
  if same then m else UAVIDResponse_MergeImpl (UAVIDResponse_Clear m) from.

Definition UAVIDResponse_IsInitialized (m : UAVIDResponse) : bool := true.

Definition UAVIDResponse_InternalSwap (m other : UAVIDResponse) : UAVIDResponse * UAVIDResponse :=
  (mkUAVIDResponse (UAVIDResponse_has_bits other) (UAVIDResponse_cj_ other) (UAVIDResponse_sj_ other) (UAVIDResponse_m_ other) (UAVIDResponse_params_ other) (UAVIDResponse_t_ other) (UAVIDResponse_unknown other),
   mkUAVIDResponse (UAVIDResponse_has_bits m) (UAVIDResponse_cj_ m) (UAVIDResponse_sj_ m) (UAVIDResponse_m_ m) (UAVIDResponse_params_ m) (UAVIDResponse_t_ m) (UAVIDResponse_unknown m)).

End Messages.

(** * Properties *)

Section MessageFacts.
Context `{WL : WireLaws}.

(** ** UAVIDRequest *)

(** Absent fields hold their default value. *)
Definition UAVIDRequest_wf (m : UAVIDRequest) : Prop :=
  0 <= UAVIDRequest_has_bits m < 2
  /\ (UAVIDRequest_has_uav_id m = false -> UAVIDRequest_uav_id_ m = []).

(** Its fields can be sent: strings below a gigabyte, 32-bit integers, and no
    field of another version. *)
Definition UAVIDRequest_sendable (m : UAVIDRequest) : Prop :=
  UAVIDRequest_unknown m = UFS_empty
  /\ small (UAVIDRequest_uav_id_ m).

Lemma UAVIDRequest_byte_size_ok m : UAVIDRequest_sendable m -> UAVIDRequest_ByteSizeLong m = vec_size (UAVIDRequest_InternalSerialize m).
Proof.
  intros (Hu & Huav_id). unfold UAVIDRequest_ByteSizeLong, UAVIDRequest_InternalSerialize. rewrite Hu, ufs_have_empty.
  rewrite ?vec_size_app, ?vec_size_if, ?vec_size_nil.
  rewrite ?bytes_size, ?int32_size, ?message_size by (done || lia).
   sum_of_bits.
Qed.

(** The message that the reader builds, field by field. *)
Definition UAVIDRequest_built (m : UAVIDRequest) : UAVIDRequest * Z :=
  let h := UAVIDRequest_has_bits m in
  let m0 := UAVIDRequest_default in let h0 := 0 in
  let m1 := if has_bit h 0x01 then UAVIDRequest_set_uav_id (UAVIDRequest_uav_id_ m) m0 else m0 in
  let h1 := if has_bit h 0x01 then h0 else h0 in
  (m1, h1).

Lemma UAVIDRequest_parses m :
  UAVIDRequest_wf m -> UAVIDRequest_sendable m ->
  parses UAVIDRequest_field UAVIDRequest_unknown UAVIDRequest_set_unknown UAVIDRequest_default 0
    ((if has_bit (UAVIDRequest_has_bits m) 0x01 then WriteBytes 1 (UAVIDRequest_uav_id_ m) else []) ++
      [])
    (Some (fst (UAVIDRequest_built m), snd (UAVIDRequest_built m), [], 0)).
Proof.
  intros Hwf (Hu & Huav_id). unfold UAVIDRequest_built, fst, snd. cbv zeta.
  eapply parses_optional; [intros _; read_bytes UAVIDRequest_field|].
  apply parses_done.
Qed.

Lemma UAVIDRequest_rebuild m :
  UAVIDRequest_wf m -> UAVIDRequest_unknown m = UFS_empty ->
  let (r, has_bits) := UAVIDRequest_built m in
  mkUAVIDRequest (Z.lor (UAVIDRequest_has_bits r) has_bits) (UAVIDRequest_uav_id_ r) (UAVIDRequest_unknown r) = m.
Proof.
  destruct m as [h xuav_id u]. unfold UAVIDRequest_wf, UAVIDRequest_has_uav_id.
  intros (Hh & Hf) Hu. simpl in Hh, Hu. subst u. pose proof (small_range 2 h Hh) as Hin. simpl in Hin, Hf.
  each_value Hin; rebuild Hf.
Qed.

(** What is parsed from the serialised message is the message. *)
Lemma UAVIDRequest_parse_serialize m :
  UAVIDRequest_wf m -> UAVIDRequest_sendable m ->
  UAVIDRequest_InternalParse UAVIDRequest_default (UAVIDRequest_InternalSerialize m) = Some (m, [], 0).
Proof.
  intros Hwf Hs. pose proof (UAVIDRequest_parses m Hwf Hs) as Hp. pose proof (UAVIDRequest_rebuild m Hwf (proj1 Hs)) as Hr.
  unfold UAVIDRequest_InternalParse, UAVIDRequest_InternalSerialize. rewrite (proj1 Hs), ufs_have_empty.
  rewrite (Hp _ (Nat.le_refl _)). destruct (UAVIDRequest_built m) as [r hb]. simpl. by rewrite Hr.
Qed.

(** Clearing gives the fresh message, copying the source. *)
Lemma UAVIDRequest_Clear_ok m : UAVIDRequest_wf m -> UAVIDRequest_Clear m = UAVIDRequest_default.
Proof.
  destruct m as [h xuav_id u]. unfold UAVIDRequest_wf, UAVIDRequest_has_uav_id.
  intros (Hh & Hf). simpl in Hh. pose proof (small_range 2 h Hh) as Hin. simpl in Hin, Hf.
  each_value Hin; rebuild Hf.
Qed.

Lemma UAVIDRequest_CopyFrom_ok m from : UAVIDRequest_wf m -> UAVIDRequest_wf from -> UAVIDRequest_CopyFrom false m from = from.
Proof.
  intros Hm. unfold UAVIDRequest_CopyFrom. rewrite UAVIDRequest_Clear_ok by done. clear m Hm.
  destruct from as [h xuav_id u]. unfold UAVIDRequest_wf, UAVIDRequest_has_uav_id.
  intros (Hh & Hf). simpl in Hh. pose proof (small_range 2 h Hh) as Hin. simpl in Hin, Hf.
  transitivity (mkUAVIDRequest h xuav_id (UFS_merge UFS_empty u)); [|by rewrite ufs_merge_empty].
  each_value Hin; rebuild Hf.
Qed.

(** Writing a field is what reading it returns; the other fields stay. *)
Lemma UAVIDRequest_accessors_ok m : UAVIDRequest_wf m ->
  (forall v : str, UAVIDRequest_get_uav_id (UAVIDRequest_set_uav_id v m) = v /\ UAVIDRequest_has_uav_id (UAVIDRequest_set_uav_id v m) = true /\ UAVIDRequest_has_uav_id (UAVIDRequest_clear_uav_id m) = false /\ UAVIDRequest_get_uav_id (UAVIDRequest_clear_uav_id m) = []
     /\ UAVIDRequest_wf (UAVIDRequest_set_uav_id v m) /\ UAVIDRequest_wf (UAVIDRequest_clear_uav_id m)).
Proof.
  destruct m as [h xuav_id u].
  unfold UAVIDRequest_wf, UAVIDRequest_has_uav_id, UAVIDRequest_set_uav_id, UAVIDRequest_clear_uav_id.
  intros (Hh & Hf). accessors 1 Hf.
Qed.

(** ** Parameters *)

(** Absent fields hold their default value. *)
Definition Parameters_wf (m : Parameters) : Prop :=
  0 <= Parameters_has_bits m < 128
  /\ (Parameters_has_q m = false -> Parameters_q_ m = [])
  /\ (Parameters_has_p2 m = false -> Parameters_p2_ m = [])
  /\ (Parameters_has_g m = false -> Parameters_g_ m = [])
  /\ (Parameters_has_beta m = false -> Parameters_beta_ m = [])
  /\ (Parameters_has_pk m = false -> Parameters_pk_ m = [])
  /\ (Parameters_has_n m = false -> Parameters_n_ m = 0)
  /\ (Parameters_has_tm m = false -> Parameters_tm_ m = 0).

(** Its fields can be sent: strings below a gigabyte, 32-bit integers, and no
    field of another version. *)
Definition Parameters_sendable (m : Parameters) : Prop :=
  Parameters_unknown m = UFS_empty
  /\ small (Parameters_q_ m)
  /\ small (Parameters_p2_ m)
  /\ small (Parameters_g_ m)
  /\ small (Parameters_beta_ m)
  /\ small (Parameters_pk_ m)
  /\ is_int32 (Parameters_n_ m)
  /\ is_int32 (Parameters_tm_ m).

Lemma Parameters_byte_size_ok m : Parameters_sendable m -> Parameters_ByteSizeLong m = vec_size (Parameters_InternalSerialize m).
Proof.
  intros (Hu & Hq & Hp2 & Hg & Hbeta & Hpk & Hn & Htm). unfold Parameters_ByteSizeLong, Parameters_InternalSerialize. rewrite Hu, ufs_have_empty.
  rewrite ?vec_size_app, ?vec_size_if, ?vec_size_nil.
  rewrite ?bytes_size, ?int32_size, ?message_size by (done || lia).
   sum_of_bits.
Qed.

(** The message that the reader builds, field by field. *)
Definition Parameters_built (m : Parameters) : Parameters * Z :=
  let h := Parameters_has_bits m in
  let m0 := Parameters_default in let h0 := 0 in
  let m1 := if has_bit h 0x20 then Parameters_put_n (Parameters_n_ m) m0 else m0 in
  let h1 := if has_bit h 0x20 then Z.lor h0 0x20 else h0 in
  let m2 := if has_bit h 0x40 then Parameters_put_tm (Parameters_tm_ m) m1 else m1 in
  let h2 := if has_bit h 0x40 then Z.lor h1 0x40 else h1 in
  let m3 := if has_bit h 0x01 then Parameters_set_q (Parameters_q_ m) m2 else m2 in
  let h3 := if has_bit h 0x01 then h2 else h2 in
  let m4 := if has_bit h 0x02 then Parameters_set_p2 (Parameters_p2_ m) m3 else m3 in
  let h4 := if has_bit h 0x02 then h3 else h3 in
  let m5 := if has_bit h 0x04 then Parameters_set_g (Parameters_g_ m) m4 else m4 in
  let h5 := if has_bit h 0x04 then h4 else h4 in
  let m6 := if has_bit h 0x08 then Parameters_set_beta (Parameters_beta_ m) m5 else m5 in
  let h6 := if has_bit h 0x08 then h5 else h5 in
  let m7 := if has_bit h 0x10 then Parameters_set_pk (Parameters_pk_ m) m6 else m6 in
  let h7 := if has_bit h 0x10 then h6 else h6 in
  (m7, h7).

Lemma Parameters_parses m :
  Parameters_wf m -> Parameters_sendable m ->
  parses Parameters_field Parameters_unknown Parameters_set_unknown Parameters_default 0
    ((if has_bit (Parameters_has_bits m) 0x20 then WriteInt32 1 (Parameters_n_ m) else []) ++
      (if has_bit (Parameters_has_bits m) 0x40 then WriteInt32 2 (Parameters_tm_ m) else []) ++
      (if has_bit (Parameters_has_bits m) 0x01 then WriteBytes 3 (Parameters_q_ m) else []) ++
      (if has_bit (Parameters_has_bits m) 0x02 then WriteBytes 4 (Parameters_p2_ m) else []) ++
      (if has_bit (Parameters_has_bits m) 0x04 then WriteBytes 5 (Parameters_g_ m) else []) ++
      (if has_bit (Parameters_has_bits m) 0x08 then WriteBytes 6 (Parameters_beta_ m) else []) ++
      (if has_bit (Parameters_has_bits m) 0x10 then WriteBytes 7 (Parameters_pk_ m) else []) ++
      [])
    (Some (fst (Parameters_built m), snd (Parameters_built m), [], 0)).
Proof.
  intros Hwf (Hu & Hq & Hp2 & Hg & Hbeta & Hpk & Hn & Htm). unfold Parameters_built, fst, snd. cbv zeta.
  eapply parses_optional; [intros _; read_int32 Parameters_field|].
  eapply parses_optional; [intros _; read_int32 Parameters_field|].
  eapply parses_optional; [intros _; read_bytes Parameters_field|].
  eapply parses_optional; [intros _; read_bytes Parameters_field|].
  eapply parses_optional; [intros _; read_bytes Parameters_field|].
  eapply parses_optional; [intros _; read_bytes Parameters_field|].
  eapply parses_optional; [intros _; read_bytes Parameters_field|].
  apply parses_done.
Qed.

Lemma Parameters_rebuild m :
  Parameters_wf m -> Parameters_unknown m = UFS_empty ->
  let (r, has_bits) := Parameters_built m in
  mkParameters (Z.lor (Parameters_has_bits r) has_bits) (Parameters_q_ r) (Parameters_p2_ r) (Parameters_g_ r) (Parameters_beta_ r) (Parameters_pk_ r) (Parameters_n_ r) (Parameters_tm_ r) (Parameters_unknown r) = m.
Proof.
  destruct m as [h xq xp2 xg xbeta xpk xn xtm u]. unfold Parameters_wf, Parameters_has_q, Parameters_has_p2, Parameters_has_g, Parameters_has_beta, Parameters_has_pk, Parameters_has_n, Parameters_has_tm.
  intros (Hh & Hf) Hu. simpl in Hh, Hu. subst u. pose proof (small_range 128 h Hh) as Hin. simpl in Hin, Hf.
  each_value Hin; rebuild Hf.
Qed.

(** What is parsed from the serialised message is the message. *)
Lemma Parameters_parse_serialize m :
  Parameters_wf m -> Parameters_sendable m ->
  Parameters_InternalParse Parameters_default (Parameters_InternalSerialize m) = Some (m, [], 0).
Proof.
  intros Hwf Hs. pose proof (Parameters_parses m Hwf Hs) as Hp. pose proof (Parameters_rebuild m Hwf (proj1 Hs)) as Hr.
  unfold Parameters_InternalParse, Parameters_InternalSerialize. rewrite (proj1 Hs), ufs_have_empty.
  rewrite (Hp _ (Nat.le_refl _)). destruct (Parameters_built m) as [r hb]. simpl. by rewrite Hr.
Qed.

(** Clearing gives the fresh message, copying the source. *)
Lemma Parameters_Clear_ok m : Parameters_wf m -> Parameters_Clear m = Parameters_default.
Proof.
  destruct m as [h xq xp2 xg xbeta xpk xn xtm u]. unfold Parameters_wf, Parameters_has_q, Parameters_has_p2, Parameters_has_g, Parameters_has_beta, Parameters_has_pk, Parameters_has_n, Parameters_has_tm.
  intros (Hh & Hf). simpl in Hh. pose proof (small_range 128 h Hh) as Hin. simpl in Hin, Hf.
  each_value Hin; rebuild Hf.
Qed.

Lemma Parameters_CopyFrom_ok m from : Parameters_wf m -> Parameters_wf from -> Parameters_CopyFrom false m from = from.
Proof.
  intros Hm. unfold Parameters_CopyFrom. rewrite Parameters_Clear_ok by done. clear m Hm.
  destruct from as [h xq xp2 xg xbeta xpk xn xtm u]. unfold Parameters_wf, Parameters_has_q, Parameters_has_p2, Parameters_has_g, Parameters_has_beta, Parameters_has_pk, Parameters_has_n, Parameters_has_tm.
  intros (Hh & Hf). simpl in Hh. pose proof (small_range 128 h Hh) as Hin. simpl in Hin, Hf.
  transitivity (mkParameters h xq xp2 xg xbeta xpk xn xtm (UFS_merge UFS_empty u)); [|by rewrite ufs_merge_empty].
  each_value Hin; rebuild Hf.
Qed.

(** Writing a field is what reading it returns; the other fields stay. *)
Lemma Parameters_accessors_ok m : Parameters_wf m ->
  (forall v : str, Parameters_get_q (Parameters_set_q v m) = v /\ Parameters_has_q (Parameters_set_q v m) = true /\ Parameters_has_q (Parameters_clear_q m) = false /\ Parameters_get_q (Parameters_clear_q m) = []
     /\ Parameters_wf (Parameters_set_q v m) /\ Parameters_wf (Parameters_clear_q m)
     /\ Parameters_get_p2 (Parameters_set_q v m) = Parameters_get_p2 m /\ Parameters_has_p2 (Parameters_set_q v m) = Parameters_has_p2 m
     /\ Parameters_get_g (Parameters_set_q v m) = Parameters_get_g m /\ Parameters_has_g (Parameters_set_q v m) = Parameters_has_g m
     /\ Parameters_get_beta (Parameters_set_q v m) = Parameters_get_beta m /\ Parameters_has_beta (Parameters_set_q v m) = Parameters_has_beta m
     /\ Parameters_get_pk (Parameters_set_q v m) = Parameters_get_pk m /\ Parameters_has_pk (Parameters_set_q v m) = Parameters_has_pk m
     /\ Parameters_get_n (Parameters_set_q v m) = Parameters_get_n m /\ Parameters_has_n (Parameters_set_q v m) = Parameters_has_n m
     /\ Parameters_get_tm (Parameters_set_q v m) = Parameters_get_tm m /\ Parameters_has_tm (Parameters_set_q v m) = Parameters_has_tm m)
  /\ (forall v : str, Parameters_get_p2 (Parameters_set_p2 v m) = v /\ Parameters_has_p2 (Parameters_set_p2 v m) = true /\ Parameters_has_p2 (Parameters_clear_p2 m) = false /\ Parameters_get_p2 (Parameters_clear_p2 m) = []
     /\ Parameters_wf (Parameters_set_p2 v m) /\ Parameters_wf (Parameters_clear_p2 m)
     /\ Parameters_get_q (Parameters_set_p2 v m) = Parameters_get_q m /\ Parameters_has_q (Parameters_set_p2 v m) = Parameters_has_q m
     /\ Parameters_get_g (Parameters_set_p2 v m) = Parameters_get_g m /\ Parameters_has_g (Parameters_set_p2 v m) = Parameters_has_g m
     /\ Parameters_get_beta (Parameters_set_p2 v m) = Parameters_get_beta m /\ Parameters_has_beta (Parameters_set_p2 v m) = Parameters_has_beta m
     /\ Parameters_get_pk (Parameters_set_p2 v m) = Parameters_get_pk m /\ Parameters_has_pk (Parameters_set_p2 v m) = Parameters_has_pk m
     /\ Parameters_get_n (Parameters_set_p2 v m) = Parameters_get_n m /\ Parameters_has_n (Parameters_set_p2 v m) = Parameters_has_n m
     /\ Parameters_get_tm (Parameters_set_p2 v m) = Parameters_get_tm m /\ Parameters_has_tm (Parameters_set_p2 v m) = Parameters_has_tm m)
  /\ (forall v : str, Parameters_get_g (Parameters_set_g v m) = v /\ Parameters_has_g (Parameters_set_g v m) = true /\ Parameters_has_g (Parameters_clear_g m) = false /\ Parameters_get_g (Parameters_clear_g m) = []
     /\ Parameters_wf (Parameters_set_g v m) /\ Parameters_wf (Parameters_clear_g m)
     /\ Parameters_get_q (Parameters_set_g v m) = Parameters_get_q m /\ Parameters_has_q (Parameters_set_g v m) = Parameters_has_q m
     /\ Parameters_get_p2 (Parameters_set_g v m) = Parameters_get_p2 m /\ Parameters_has_p2 (Parameters_set_g v m) = Parameters_has_p2 m
     /\ Parameters_get_beta (Parameters_set_g v m) = Parameters_get_beta m /\ Parameters_has_beta (Parameters_set_g v m) = Parameters_has_beta m
     /\ Parameters_get_pk (Parameters_set_g v m) = Parameters_get_pk m /\ Parameters_has_pk (Parameters_set_g v m) = Parameters_has_pk m
     /\ Parameters_get_n (Parameters_set_g v m) = Parameters_get_n m /\ Parameters_has_n (Parameters_set_g v m) = Parameters_has_n m
     /\ Parameters_get_tm (Parameters_set_g v m) = Parameters_get_tm m /\ Parameters_has_tm (Parameters_set_g v m) = Parameters_has_tm m)
  /\ (forall v : str, Parameters_get_beta (Parameters_set_beta v m) = v /\ Parameters_has_beta (Parameters_set_beta v m) = true /\ Parameters_has_beta (Parameters_clear_beta m) = false /\ Parameters_get_beta (Parameters_clear_beta m) = []
     /\ Parameters_wf (Parameters_set_beta v m) /\ Parameters_wf (Parameters_clear_beta m)
     /\ Parameters_get_q (Parameters_set_beta v m) = Parameters_get_q m /\ Parameters_has_q (Parameters_set_beta v m) = Parameters_has_q m
     /\ Parameters_get_p2 (Parameters_set_beta v m) = Parameters_get_p2 m /\ Parameters_has_p2 (Parameters_set_beta v m) = Parameters_has_p2 m
     /\ Parameters_get_g (Parameters_set_beta v m) = Parameters_get_g m /\ Parameters_has_g (Parameters_set_beta v m) = Parameters_has_g m
     /\ Parameters_get_pk (Parameters_set_beta v m) = Parameters_get_pk m /\ Parameters_has_pk (Parameters_set_beta v m) = Parameters_has_pk m
     /\ Parameters_get_n (Parameters_set_beta v m) = Parameters_get_n m /\ Parameters_has_n (Parameters_set_beta v m) = Parameters_has_n m
     /\ Parameters_get_tm (Parameters_set_beta v m) = Parameters_get_tm m /\ Parameters_has_tm (Parameters_set_beta v m) = Parameters_has_tm m)
  /\ (forall v : str, Parameters_get_pk (Parameters_set_pk v m) = v /\ Parameters_has_pk (Parameters_set_pk v m) = true /\ Parameters_has_pk (Parameters_clear_pk m) = false /\ Parameters_get_pk (Parameters_clear_pk m) = []
     /\ Parameters_wf (Parameters_set_pk v m) /\ Parameters_wf (Parameters_clear_pk m)
     /\ Parameters_get_q (Parameters_set_pk v m) = Parameters_get_q m /\ Parameters_has_q (Parameters_set_pk v m) = Parameters_has_q m
     /\ Parameters_get_p2 (Parameters_set_pk v m) = Parameters_get_p2 m /\ Parameters_has_p2 (Parameters_set_pk v m) = Parameters_has_p2 m
     /\ Parameters_get_g (Parameters_set_pk v m) = Parameters_get_g m /\ Parameters_has_g (Parameters_set_pk v m) = Parameters_has_g m
     /\ Parameters_get_beta (Parameters_set_pk v m) = Parameters_get_beta m /\ Parameters_has_beta (Parameters_set_pk v m) = Parameters_has_beta m
     /\ Parameters_get_n (Parameters_set_pk v m) = Parameters_get_n m /\ Parameters_has_n (Parameters_set_pk v m) = Parameters_has_n m
     /\ Parameters_get_tm (Parameters_set_pk v m) = Parameters_get_tm m /\ Parameters_has_tm (Parameters_set_pk v m) = Parameters_has_tm m)
  /\ (forall v : Z, Parameters_get_n (Parameters_set_n v m) = v /\ Parameters_has_n (Parameters_set_n v m) = true /\ Parameters_has_n (Parameters_clear_n m) = false /\ Parameters_get_n (Parameters_clear_n m) = 0
     /\ Parameters_wf (Parameters_set_n v m) /\ Parameters_wf (Parameters_clear_n m)
     /\ Parameters_get_q (Parameters_set_n v m) = Parameters_get_q m /\ Parameters_has_q (Parameters_set_n v m) = Parameters_has_q m
     /\ Parameters_get_p2 (Parameters_set_n v m) = Parameters_get_p2 m /\ Parameters_has_p2 (Parameters_set_n v m) = Parameters_has_p2 m
     /\ Parameters_get_g (Parameters_set_n v m) = Parameters_get_g m /\ Parameters_has_g (Parameters_set_n v m) = Parameters_has_g m
     /\ Parameters_get_beta (Parameters_set_n v m) = Parameters_get_beta m /\ Parameters_has_beta (Parameters_set_n v m) = Parameters_has_beta m
     /\ Parameters_get_pk (Parameters_set_n v m) = Parameters_get_pk m /\ Parameters_has_pk (Parameters_set_n v m) = Parameters_has_pk m
     /\ Parameters_get_tm (Parameters_set_n v m) = Parameters_get_tm m /\ Parameters_has_tm (Parameters_set_n v m) = Parameters_has_tm m)
  /\ (forall v : Z, Parameters_get_tm (Parameters_set_tm v m) = v /\ Parameters_has_tm (Parameters_set_tm v m) = true /\ Parameters_has_tm (Parameters_clear_tm m) = false /\ Parameters_get_tm (Parameters_clear_tm m) = 0
     /\ Parameters_wf (Parameters_set_tm v m) /\ Parameters_wf (Parameters_clear_tm m)
     /\ Parameters_get_q (Parameters_set_tm v m) = Parameters_get_q m /\ Parameters_has_q (Parameters_set_tm v m) = Parameters_has_q m
     /\ Parameters_get_p2 (Parameters_set_tm v m) = Parameters_get_p2 m /\ Parameters_has_p2 (Parameters_set_tm v m) = Parameters_has_p2 m
     /\ Parameters_get_g (Parameters_set_tm v m) = Parameters_get_g m /\ Parameters_has_g (Parameters_set_tm v m) = Parameters_has_g m
     /\ Parameters_get_beta (Parameters_set_tm v m) = Parameters_get_beta m /\ Parameters_has_beta (Parameters_set_tm v m) = Parameters_has_beta m
     /\ Parameters_get_pk (Parameters_set_tm v m) = Parameters_get_pk m /\ Parameters_has_pk (Parameters_set_tm v m) = Parameters_has_pk m
     /\ Parameters_get_n (Parameters_set_tm v m) = Parameters_get_n m /\ Parameters_has_n (Parameters_set_tm v m) = Parameters_has_n m).
Proof.
  destruct m as [h xq xp2 xg xbeta xpk xn xtm u].
  unfold Parameters_wf, Parameters_has_q, Parameters_has_p2, Parameters_has_g, Parameters_has_beta, Parameters_has_pk, Parameters_has_n, Parameters_has_tm, Parameters_set_q, Parameters_set_p2, Parameters_set_g, Parameters_set_beta, Parameters_set_pk, Parameters_set_n, Parameters_set_tm, Parameters_clear_q, Parameters_clear_p2, Parameters_clear_g, Parameters_clear_beta, Parameters_clear_pk, Parameters_clear_n, Parameters_clear_tm.
  intros (Hh & Hf). accessors 7 Hf.
Qed.

(** ** UAVIDResponse *)

(** Absent fields hold their default value. *)
Definition UAVIDResponse_wf (m : UAVIDResponse) : Prop :=
  0 <= UAVIDResponse_has_bits m < 32
  /\ (UAVIDResponse_has_cj m = false -> UAVIDResponse_cj_ m = [])
  /\ (UAVIDResponse_has_sj m = false -> UAVIDResponse_sj_ m = [])
  /\ (UAVIDResponse_has_m m = false -> UAVIDResponse_m_ m = [])
  /\ (UAVIDResponse_has_params m = false -> UAVIDResponse_params_ m = None)
  /\ (UAVIDResponse_has_params m = true -> exists p, UAVIDResponse_params_ m = Some p /\ Parameters_wf p)
  /\ (UAVIDResponse_has_t m = false -> UAVIDResponse_t_ m = 0).

(** Its fields can be sent: strings below a gigabyte, 32-bit integers, and no
    field of another version. *)
Definition UAVIDResponse_sendable (m : UAVIDResponse) : Prop :=
  UAVIDResponse_unknown m = UFS_empty
  /\ small (UAVIDResponse_cj_ m)
  /\ small (UAVIDResponse_sj_ m)
  /\ small (UAVIDResponse_m_ m)
  /\ Parameters_sendable (UAVIDResponse_get_params m) /\ small (Parameters_InternalSerialize (UAVIDResponse_get_params m))
  /\ is_int32 (UAVIDResponse_t_ m).

Lemma UAVIDResponse_byte_size_ok m : UAVIDResponse_sendable m -> UAVIDResponse_ByteSizeLong m = vec_size (UAVIDResponse_InternalSerialize m).
Proof.
  intros (Hu & Hcj & Hsj & Hm & Hparams & Hsub & Ht). unfold UAVIDResponse_ByteSizeLong, UAVIDResponse_InternalSerialize. rewrite Hu, ufs_have_empty.
  rewrite ?vec_size_app, ?vec_size_if, ?vec_size_nil.
  rewrite ?bytes_size, ?int32_size, ?message_size by (done || lia). rewrite <- ?Parameters_byte_size_ok by done.
   sum_of_bits.
Qed.

(** The message that the reader builds, field by field. *)
Definition UAVIDResponse_built (m : UAVIDResponse) : UAVIDResponse * Z :=
  let h := UAVIDResponse_has_bits m in
  let m0 := UAVIDResponse_default in let h0 := 0 in
  let m1 := if has_bit h 0x08 then UAVIDResponse_mutable_params (fun _ => UAVIDResponse_get_params m) m0 else m0 in
  let h1 := if has_bit h 0x08 then h0 else h0 in
  let m2 := if has_bit h 0x01 then UAVIDResponse_set_cj (UAVIDResponse_cj_ m) m1 else m1 in
  let h2 := if has_bit h 0x01 then h1 else h1 in
  let m3 := if has_bit h 0x02 then UAVIDResponse_set_sj (UAVIDResponse_sj_ m) m2 else m2 in
  let h3 := if has_bit h 0x02 then h2 else h2 in
  let m4 := if has_bit h 0x04 then UAVIDResponse_set_m (UAVIDResponse_m_ m) m3 else m3 in
  let h4 := if has_bit h 0x04 then h3 else h3 in
  let m5 := if has_bit h 0x10 then UAVIDResponse_put_t (UAVIDResponse_t_ m) m4 else m4 in
  let h5 := if has_bit h 0x10 then Z.lor h4 0x10 else h4 in
  (m5, h5).

Lemma UAVIDResponse_parses m :
  UAVIDResponse_wf m -> UAVIDResponse_sendable m ->
  parses UAVIDResponse_field UAVIDResponse_unknown UAVIDResponse_set_unknown UAVIDResponse_default 0
    ((if has_bit (UAVIDResponse_has_bits m) 0x08 then WriteMessage 1 (Parameters_InternalSerialize (UAVIDResponse_get_params m)) else []) ++
      (if has_bit (UAVIDResponse_has_bits m) 0x01 then WriteBytes 2 (UAVIDResponse_cj_ m) else []) ++
      (if has_bit (UAVIDResponse_has_bits m) 0x02 then WriteBytes 3 (UAVIDResponse_sj_ m) else []) ++
      (if has_bit (UAVIDResponse_has_bits m) 0x04 then WriteBytes 4 (UAVIDResponse_m_ m) else []) ++
      (if has_bit (UAVIDResponse_has_bits m) 0x10 then WriteInt32 5 (UAVIDResponse_t_ m) else []) ++
      [])
    (Some (fst (UAVIDResponse_built m), snd (UAVIDResponse_built m), [], 0)).
Proof.
  intros Hwf (Hu & Hcj & Hsj & Hm & Hparams & Hsub & Ht). unfold UAVIDResponse_built, fst, snd. cbv zeta.
  eapply parses_optional; [intros Hbit|].
  { destruct Hwf as (_ & _ & _ & _ & _ & Hpar & _). destruct (Hpar Hbit) as (p0 & Hp0 & Hw).
    assert (Hg : UAVIDResponse_get_params m = p0) by (unfold UAVIDResponse_get_params; by rewrite Hp0).
    rewrite Hg in *. split.
    { rewrite message_size by (done || lia). unfold vec_size.
      pose proof (message_size_pos (Z.of_nat (length (Parameters_InternalSerialize p0)))). lia. }
    lazymatch goal with
    | |- exists tag p, ReadTag (_ ++ ?rest) = _ /\ _ =>
        destruct (read_write_message 1 (Parameters_InternalSerialize p0) rest) as (p & Ht' & Hp');
          [lia|done|]
    end.
    exists (8 * 1 + 2), p. split; [exact Ht'|]. unfold UAVIDResponse_field. known_tag. rewrite Hp'.
    change (UAVIDResponse_get_params UAVIDResponse_default) with Parameters_default.
    rewrite Parameters_parse_serialize by done. subst p0. reflexivity. }
  eapply parses_optional; [intros _; read_bytes UAVIDResponse_field|].
  eapply parses_optional; [intros _; read_bytes UAVIDResponse_field|].
  eapply parses_optional; [intros _; read_bytes UAVIDResponse_field|].
  eapply parses_optional; [intros _; read_int32 UAVIDResponse_field|].
  apply parses_done.
Qed.

Lemma UAVIDResponse_rebuild m :
  UAVIDResponse_wf m -> UAVIDResponse_unknown m = UFS_empty ->
  let (r, has_bits) := UAVIDResponse_built m in
  mkUAVIDResponse (Z.lor (UAVIDResponse_has_bits r) has_bits) (UAVIDResponse_cj_ r) (UAVIDResponse_sj_ r) (UAVIDResponse_m_ r) (UAVIDResponse_params_ r) (UAVIDResponse_t_ r) (UAVIDResponse_unknown r) = m.
Proof.
  destruct m as [h xcj xsj xm xparams xt u]. unfold UAVIDResponse_wf, UAVIDResponse_has_cj, UAVIDResponse_has_sj, UAVIDResponse_has_m, UAVIDResponse_has_params, UAVIDResponse_has_t.
  intros (Hh & Hf) Hu. simpl in Hh, Hu. subst u. pose proof (small_range 32 h Hh) as Hin. simpl in Hin, Hf.
  each_value Hin; rebuild Hf.
Qed.

(** What is parsed from the serialised message is the message. *)
Lemma UAVIDResponse_parse_serialize m :
  UAVIDResponse_wf m -> UAVIDResponse_sendable m ->
  UAVIDResponse_InternalParse UAVIDResponse_default (UAVIDResponse_InternalSerialize m) = Some (m, [], 0).
Proof.
  intros Hwf Hs. pose proof (UAVIDResponse_parses m Hwf Hs) as Hp. pose proof (UAVIDResponse_rebuild m Hwf (proj1 Hs)) as Hr.
  unfold UAVIDResponse_InternalParse, UAVIDResponse_InternalSerialize. rewrite (proj1 Hs), ufs_have_empty.
  rewrite (Hp _ (Nat.le_refl _)). destruct (UAVIDResponse_built m) as [r hb]. simpl. by rewrite Hr.
Qed.

(** Writing a field is what reading it returns; the other fields stay. *)
Lemma UAVIDResponse_accessors_ok m : UAVIDResponse_wf m ->
  (forall v : str, UAVIDResponse_get_cj (UAVIDResponse_set_cj v m) = v /\ UAVIDResponse_has_cj (UAVIDResponse_set_cj v m) = true /\ UAVIDResponse_has_cj (UAVIDResponse_clear_cj m) = false /\ UAVIDResponse_get_cj (UAVIDResponse_clear_cj m) = []
     /\ UAVIDResponse_wf (UAVIDResponse_set_cj v m) /\ UAVIDResponse_wf (UAVIDResponse_clear_cj m)
     /\ UAVIDResponse_get_sj (UAVIDResponse_set_cj v m) = UAVIDResponse_get_sj m /\ UAVIDResponse_has_sj (UAVIDResponse_set_cj v m) = UAVIDResponse_has_sj m
     /\ UAVIDResponse_get_m (UAVIDResponse_set_cj v m) = UAVIDResponse_get_m m /\ UAVIDResponse_has_m (UAVIDResponse_set_cj v m) = UAVIDResponse_has_m m
     /\ UAVIDResponse_get_params (UAVIDResponse_set_cj v m) = UAVIDResponse_get_params m /\ UAVIDResponse_has_params (UAVIDResponse_set_cj v m) = UAVIDResponse_has_params m
     /\ UAVIDResponse_get_t (UAVIDResponse_set_cj v m) = UAVIDResponse_get_t m /\ UAVIDResponse_has_t (UAVIDResponse_set_cj v m) = UAVIDResponse_has_t m)
  /\ (forall v : str, UAVIDResponse_get_sj (UAVIDResponse_set_sj v m) = v /\ UAVIDResponse_has_sj (UAVIDResponse_set_sj v m) = true /\ UAVIDResponse_has_sj (UAVIDResponse_clear_sj m) = false /\ UAVIDResponse_get_sj (UAVIDResponse_clear_sj m) = []
     /\ UAVIDResponse_wf (UAVIDResponse_set_sj v m) /\ UAVIDResponse_wf (UAVIDResponse_clear_sj m)
     /\ UAVIDResponse_get_cj (UAVIDResponse_set_sj v m) = UAVIDResponse_get_cj m /\ UAVIDResponse_has_cj (UAVIDResponse_set_sj v m) = UAVIDResponse_has_cj m
     /\ UAVIDResponse_get_m (UAVIDResponse_set_sj v m) = UAVIDResponse_get_m m /\ UAVIDResponse_has_m (UAVIDResponse_set_sj v m) = UAVIDResponse_has_m m
     /\ UAVIDResponse_get_params (UAVIDResponse_set_sj v m) = UAVIDResponse_get_params m /\ UAVIDResponse_has_params (UAVIDResponse_set_sj v m) = UAVIDResponse_has_params m
     /\ UAVIDResponse_get_t (UAVIDResponse_set_sj v m) = UAVIDResponse_get_t m /\ UAVIDResponse_has_t (UAVIDResponse_set_sj v m) = UAVIDResponse_has_t m)
  /\ (forall v : str, UAVIDResponse_get_m (UAVIDResponse_set_m v m) = v /\ UAVIDResponse_has_m (UAVIDResponse_set_m v m) = true /\ UAVIDResponse_has_m (UAVIDResponse_clear_m m) = false /\ UAVIDResponse_get_m (UAVIDResponse_clear_m m) = []
     /\ UAVIDResponse_wf (UAVIDResponse_set_m v m) /\ UAVIDResponse_wf (UAVIDResponse_clear_m m)
     /\ UAVIDResponse_get_cj (UAVIDResponse_set_m v m) = UAVIDResponse_get_cj m /\ UAVIDResponse_has_cj (UAVIDResponse_set_m v m) = UAVIDResponse_has_cj m
     /\ UAVIDResponse_get_sj (UAVIDResponse_set_m v m) = UAVIDResponse_get_sj m /\ UAVIDResponse_has_sj (UAVIDResponse_set_m v m) = UAVIDResponse_has_sj m
     /\ UAVIDResponse_get_params (UAVIDResponse_set_m v m) = UAVIDResponse_get_params m /\ UAVIDResponse_has_params (UAVIDResponse_set_m v m) = UAVIDResponse_has_params m
     /\ UAVIDResponse_get_t (UAVIDResponse_set_m v m) = UAVIDResponse_get_t m /\ UAVIDResponse_has_t (UAVIDResponse_set_m v m) = UAVIDResponse_has_t m)
  /\ (forall v : Z, UAVIDResponse_get_t (UAVIDResponse_set_t v m) = v /\ UAVIDResponse_has_t (UAVIDResponse_set_t v m) = true /\ UAVIDResponse_has_t (UAVIDResponse_clear_t m) = false /\ UAVIDResponse_get_t (UAVIDResponse_clear_t m) = 0
     /\ UAVIDResponse_wf (UAVIDResponse_set_t v m) /\ UAVIDResponse_wf (UAVIDResponse_clear_t m)
     /\ UAVIDResponse_get_cj (UAVIDResponse_set_t v m) = UAVIDResponse_get_cj m /\ UAVIDResponse_has_cj (UAVIDResponse_set_t v m) = UAVIDResponse_has_cj m
     /\ UAVIDResponse_get_sj (UAVIDResponse_set_t v m) = UAVIDResponse_get_sj m /\ UAVIDResponse_has_sj (UAVIDResponse_set_t v m) = UAVIDResponse_has_sj m
     /\ UAVIDResponse_get_m (UAVIDResponse_set_t v m) = UAVIDResponse_get_m m /\ UAVIDResponse_has_m (UAVIDResponse_set_t v m) = UAVIDResponse_has_m m
     /\ UAVIDResponse_get_params (UAVIDResponse_set_t v m) = UAVIDResponse_get_params m /\ UAVIDResponse_has_params (UAVIDResponse_set_t v m) = UAVIDResponse_has_params m).
Proof.
  destruct m as [h xcj xsj xm xparams xt u].
  unfold UAVIDResponse_wf, UAVIDResponse_has_cj, UAVIDResponse_has_sj, UAVIDResponse_has_m, UAVIDResponse_has_params, UAVIDResponse_has_t, UAVIDResponse_set_cj, UAVIDResponse_set_sj, UAVIDResponse_set_m, UAVIDResponse_set_t, UAVIDResponse_clear_cj, UAVIDResponse_clear_sj, UAVIDResponse_clear_m, UAVIDResponse_clear_t.
  intros (Hh & Hf). accessors 5 Hf.
Qed.
End MessageFacts.
