(* ===== verification/AggMsg.v ===== *)
(** * The messages of Agg.proto

    [verifyRequest] and [verifyResponse], generated from proto/Agg.proto into
    proto/output/Agg.pb.h and Agg.pb.cc. *)

From Stdlib Require Import ZArith Lia.
From stdpp Require Import base list.
From S2P Require Import Prelude Text Wire.

Open Scope Z_scope.

Section Messages.
Context `{W : WireOps}.

(** ** verifyRequest *)

Record verifyRequest : Type := mkverifyRequest {
  verifyRequest_has_bits : Z;
  verifyRequest_pk_v_ : str;
  verifyRequest_unknown : UnknownFieldSet;
}.

(** [SharedCtor]: no field is present. *)
Definition verifyRequest_default : verifyRequest :=
  mkverifyRequest 0 [] UFS_empty.

(** Field [pk_v] = 1. *)
Definition verifyRequest_has_pk_v (m : verifyRequest) : bool := has_bit (verifyRequest_has_bits m) 0x01.

Definition verifyRequest_clear_pk_v (m : verifyRequest) : verifyRequest :=
  mkverifyRequest (clear_bit (verifyRequest_has_bits m) 0x01) [] (verifyRequest_unknown m).

Definition verifyRequest_get_pk_v (m : verifyRequest) : str := verifyRequest_pk_v_ m.

Definition verifyRequest_set_pk_v (v : str) (m : verifyRequest) : verifyRequest :=
  mkverifyRequest (Z.lor (verifyRequest_has_bits m) 0x01) v (verifyRequest_unknown m).

(** The string that the returned pointer denotes, and the message. *)
Definition verifyRequest_mutable_pk_v (m : verifyRequest) : str * verifyRequest :=
  (verifyRequest_pk_v_ m, mkverifyRequest (Z.lor (verifyRequest_has_bits m) 0x01) (verifyRequest_pk_v_ m) (verifyRequest_unknown m)).

Definition verifyRequest_release_pk_v (m : verifyRequest) : option str * verifyRequest :=
  if negb (verifyRequest_has_pk_v m) then (None, m)
  else (Some (verifyRequest_pk_v_ m), mkverifyRequest (clear_bit (verifyRequest_has_bits m) 0x01) [] (verifyRequest_unknown m)).

Definition verifyRequest_set_allocated_pk_v (v : option str) (m : verifyRequest) : verifyRequest :=
  match v with
  | Some s => mkverifyRequest (Z.lor (verifyRequest_has_bits m) 0x01) s (verifyRequest_unknown m)
  | None => mkverifyRequest (clear_bit (verifyRequest_has_bits m) 0x01) [] (verifyRequest_unknown m)
  end.

(** The copy constructor. *)
Definition verifyRequest_copy (from : verifyRequest) : verifyRequest :=
  mkverifyRequest (verifyRequest_has_bits from)
    (if verifyRequest_has_pk_v from then verifyRequest_pk_v_ from else [])
    (UFS_merge UFS_empty (verifyRequest_unknown from)).

Definition verifyRequest_Clear (m : verifyRequest) : verifyRequest :=
  let cached_has_bits := verifyRequest_has_bits m in
  let x_pk_v := if has_bit cached_has_bits 0x01 then [] else verifyRequest_pk_v_ m in
  mkverifyRequest 0 x_pk_v UFS_empty.

(** The [switch] of [_InternalParse]; a [bytes] or message field sets its
    has-bit at once, an integer field in the local word. *)
Definition verifyRequest_field (tag : Z) (m : verifyRequest) (has_bits : Z) (ptr : str) : field_result verifyRequest :=
  if Z.shiftr tag 3 =? 1 then
    if Z.land tag 255 =? 10 then
      match ReadString ptr with
      | Some (s, ptr') => Parsed (verifyRequest_set_pk_v s m) has_bits ptr'
      | None => Failure
      end
    else Unusual
  else
  Unusual.

Definition verifyRequest_set_unknown (u : UnknownFieldSet) (m : verifyRequest) : verifyRequest :=
  mkverifyRequest (verifyRequest_has_bits m) (verifyRequest_pk_v_ m) u.

(** [message_done] merges the local has-bits; [None] is the null pointer of a
    failure. *)
Definition verifyRequest_InternalParse (m : verifyRequest) (ptr : str) : option (verifyRequest * str * Z) :=
  match parse_loop verifyRequest_field verifyRequest_unknown verifyRequest_set_unknown (length ptr) m 0 ptr with
  | Some (m, has_bits, ptr', tag) => Some (mkverifyRequest (Z.lor (verifyRequest_has_bits m) has_bits) (verifyRequest_pk_v_ m) (verifyRequest_unknown m), ptr', tag)
  | None => None
  end.

Definition verifyRequest_InternalSerialize (m : verifyRequest) : str :=
  let cached_has_bits := verifyRequest_has_bits m in
  (if has_bit cached_has_bits 0x01 then WriteBytes 1 (verifyRequest_pk_v_ m) else []) ++
  (if UFS_have (verifyRequest_unknown m) then UFS_serialize (verifyRequest_unknown m) else []).

Definition verifyRequest_ByteSizeLong (m : verifyRequest) : Z :=
  let total_size := if has_bit (verifyRequest_has_bits m) 0x01 then 1 + BytesSize (verifyRequest_pk_v_ m) else 0 in
  if UFS_have (verifyRequest_unknown m) then total_size + UFS_size (verifyRequest_unknown m) else total_size.

Definition verifyRequest_MergeImpl (m from : verifyRequest) : verifyRequest :=
  let cached_has_bits := verifyRequest_has_bits from in
  let m := if has_bit cached_has_bits 0x01 then verifyRequest_set_pk_v (verifyRequest_pk_v_ from) m else m in
  verifyRequest_set_unknown (UFS_merge (verifyRequest_unknown m) (verifyRequest_unknown from)) m.

(** [same] is the test [&from == this]. *)
Definition verifyRequest_CopyFrom (same : bool) (m from : verifyRequest) : verifyRequest :=
  if same then m else verifyRequest_MergeImpl (verifyRequest_Clear m) from.

Definition verifyRequest_IsInitialized (m : verifyRequest) : bool := true.

Definition verifyRequest_InternalSwap (m other : verifyRequest) : verifyRequest * verifyRequest :=
  (mkverifyRequest (verifyRequest_has_bits other) (verifyRequest_pk_v_ other) (verifyRequest_unknown other),
   mkverifyRequest (verifyRequest_has_bits m) (verifyRequest_pk_v_ m) (verifyRequest_unknown m)).

(** ** verifyResponse *)

Record verifyResponse : Type := mkverifyResponse {
  verifyResponse_has_bits : Z;
  verifyResponse_auxs_ : str;
  verifyResponse_sigs_ : str;
  verifyResponse_ids_ : str;
  verifyResponse_unknown : UnknownFieldSet;
}.

(** [SharedCtor]: no field is present. *)
Definition verifyResponse_default : verifyResponse :=
  mkverifyResponse 0 [] [] [] UFS_empty.

(** Field [auxs] = 1. *)
Definition verifyResponse_has_auxs (m : verifyResponse) : bool := has_bit (verifyResponse_has_bits m) 0x01.

Definition verifyResponse_clear_auxs (m : verifyResponse) : verifyResponse :=
  mkverifyResponse (clear_bit (verifyResponse_has_bits m) 0x01) [] (verifyResponse_sigs_ m) (verifyResponse_ids_ m) (verifyResponse_unknown m).

Definition verifyResponse_get_auxs (m : verifyResponse) : str := verifyResponse_auxs_ m.

Definition verifyResponse_set_auxs (v : str) (m : verifyResponse) : verifyResponse :=
  mkverifyResponse (Z.lor (verifyResponse_has_bits m) 0x01) v (verifyResponse_sigs_ m) (verifyResponse_ids_ m) (verifyResponse_unknown m).

(** The string that the returned pointer denotes, and the message. *)
Definition verifyResponse_mutable_auxs (m : verifyResponse) : str * verifyResponse :=
  (verifyResponse_auxs_ m, mkverifyResponse (Z.lor (verifyResponse_has_bits m) 0x01) (verifyResponse_auxs_ m) (verifyResponse_sigs_ m) (verifyResponse_ids_ m) (verifyResponse_unknown m)).

Definition verifyResponse_release_auxs (m : verifyResponse) : option str * verifyResponse :=
  if negb (verifyResponse_has_auxs m) then (None, m)
  else (Some (verifyResponse_auxs_ m), mkverifyResponse (clear_bit (verifyResponse_has_bits m) 0x01) [] (verifyResponse_sigs_ m) (verifyResponse_ids_ m) (verifyResponse_unknown m)).

Definition verifyResponse_set_allocated_auxs (v : option str) (m : verifyResponse) : verifyResponse :=
  match v with
  | Some s => mkverifyResponse (Z.lor (verifyResponse_has_bits m) 0x01) s (verifyResponse_sigs_ m) (verifyResponse_ids_ m) (verifyResponse_unknown m)
  | None => mkverifyResponse (clear_bit (verifyResponse_has_bits m) 0x01) [] (verifyResponse_sigs_ m) (verifyResponse_ids_ m) (verifyResponse_unknown m)
  end.

(** Field [sigs] = 2. *)
Definition verifyResponse_has_sigs (m : verifyResponse) : bool := has_bit (verifyResponse_has_bits m) 0x02.

Definition verifyResponse_clear_sigs (m : verifyResponse) : verifyResponse :=
  mkverifyResponse (clear_bit (verifyResponse_has_bits m) 0x02) (verifyResponse_auxs_ m) [] (verifyResponse_ids_ m) (verifyResponse_unknown m).

Definition verifyResponse_get_sigs (m : verifyResponse) : str := verifyResponse_sigs_ m.

Definition verifyResponse_set_sigs (v : str) (m : verifyResponse) : verifyResponse :=
  mkverifyResponse (Z.lor (verifyResponse_has_bits m) 0x02) (verifyResponse_auxs_ m) v (verifyResponse_ids_ m) (verifyResponse_unknown m).

(** The string that the returned pointer denotes, and the message. *)
Definition verifyResponse_mutable_sigs (m : verifyResponse) : str * verifyResponse :=
  (verifyResponse_sigs_ m, mkverifyResponse (Z.lor (verifyResponse_has_bits m) 0x02) (verifyResponse_auxs_ m) (verifyResponse_sigs_ m) (verifyResponse_ids_ m) (verifyResponse_unknown m)).

Definition verifyResponse_release_sigs (m : verifyResponse) : option str * verifyResponse :=
  if negb (verifyResponse_has_sigs m) then (None, m)
  else (Some (verifyResponse_sigs_ m), mkverifyResponse (clear_bit (verifyResponse_has_bits m) 0x02) (verifyResponse_auxs_ m) [] (verifyResponse_ids_ m) (verifyResponse_unknown m)).

Definition verifyResponse_set_allocated_sigs (v : option str) (m : verifyResponse) : verifyResponse :=
  match v with
  | Some s => mkverifyResponse (Z.lor (verifyResponse_has_bits m) 0x02) (verifyResponse_auxs_ m) s (verifyResponse_ids_ m) (verifyResponse_unknown m)
  | None => mkverifyResponse (clear_bit (verifyResponse_has_bits m) 0x02) (verifyResponse_auxs_ m) [] (verifyResponse_ids_ m) (verifyResponse_unknown m)
  end.

(** Field [ids] = 3. *)
Definition verifyResponse_has_ids (m : verifyResponse) : bool := has_bit (verifyResponse_has_bits m) 0x04.

Definition verifyResponse_clear_ids (m : verifyResponse) : verifyResponse :=
  mkverifyResponse (clear_bit (verifyResponse_has_bits m) 0x04) (verifyResponse_auxs_ m) (verifyResponse_sigs_ m) [] (verifyResponse_unknown m).

Definition verifyResponse_get_ids (m : verifyResponse) : str := verifyResponse_ids_ m.

Definition verifyResponse_set_ids (v : str) (m : verifyResponse) : verifyResponse :=
  mkverifyResponse (Z.lor (verifyResponse_has_bits m) 0x04) (verifyResponse_auxs_ m) (verifyResponse_sigs_ m) v (verifyResponse_unknown m).

(** The string that the returned pointer denotes, and the message. *)
Definition verifyResponse_mutable_ids (m : verifyResponse) : str * verifyResponse :=
  (verifyResponse_ids_ m, mkverifyResponse (Z.lor (verifyResponse_has_bits m) 0x04) (verifyResponse_auxs_ m) (verifyResponse_sigs_ m) (verifyResponse_ids_ m) (verifyResponse_unknown m)).

Definition verifyResponse_release_ids (m : verifyResponse) : option str * verifyResponse :=
  if negb (verifyResponse_has_ids m) then (None, m)
  else (Some (verifyResponse_ids_ m), mkverifyResponse (clear_bit (verifyResponse_has_bits m) 0x04) (verifyResponse_auxs_ m) (verifyResponse_sigs_ m) [] (verifyResponse_unknown m)).

Definition verifyResponse_set_allocated_ids (v : option str) (m : verifyResponse) : verifyResponse :=
  match v with
  | Some s => mkverifyResponse (Z.lor (verifyResponse_has_bits m) 0x04) (verifyResponse_auxs_ m) (verifyResponse_sigs_ m) s (verifyResponse_unknown m)
  | None => mkverifyResponse (clear_bit (verifyResponse_has_bits m) 0x04) (verifyResponse_auxs_ m) (verifyResponse_sigs_ m) [] (verifyResponse_unknown m)
  end.

(** The copy constructor. *)
Definition verifyResponse_copy (from : verifyResponse) : verifyResponse :=
  mkverifyResponse (verifyResponse_has_bits from)
    (if verifyResponse_has_auxs from then verifyResponse_auxs_ from else [])
    (if verifyResponse_has_sigs from then verifyResponse_sigs_ from else [])
    (if verifyResponse_has_ids from then verifyResponse_ids_ from else [])
    (UFS_merge UFS_empty (verifyResponse_unknown from)).

Definition verifyResponse_Clear (m : verifyResponse) : verifyResponse :=
  let cached_has_bits := verifyResponse_has_bits m in
  let x_auxs := if has_bit cached_has_bits 0x07 && has_bit cached_has_bits 0x01 then [] else verifyResponse_auxs_ m in
  let x_sigs := if has_bit cached_has_bits 0x07 && has_bit cached_has_bits 0x02 then [] else verifyResponse_sigs_ m in
  let x_ids := if has_bit cached_has_bits 0x07 && has_bit cached_has_bits 0x04 then [] else verifyResponse_ids_ m in
  mkverifyResponse 0 x_auxs x_sigs x_ids UFS_empty.

(** The [switch] of [_InternalParse]; a [bytes] or message field sets its
    has-bit at once, an integer field in the local word. *)
Definition verifyResponse_field (tag : Z) (m : verifyResponse) (has_bits : Z) (ptr : str) : field_result verifyResponse :=
  if Z.shiftr tag 3 =? 1 then
    if Z.land tag 255 =? 10 then
      match ReadString ptr with
      | Some (s, ptr') => Parsed (verifyResponse_set_auxs s m) has_bits ptr'
      | None => Failure
      end
    else Unusual
  else
  if Z.shiftr tag 3 =? 2 then
    if Z.land tag 255 =? 18 then
      match ReadString ptr with
      | Some (s, ptr') => Parsed (verifyResponse_set_sigs s m) has_bits ptr'
      | None => Failure
      end
    else Unusual
  else
  if Z.shiftr tag 3 =? 3 then
    if Z.land tag 255 =? 26 then
      match ReadString ptr with
      | Some (s, ptr') => Parsed (verifyResponse_set_ids s m) has_bits ptr'
      | None => Failure
      end
    else Unusual
  else
  Unusual.

Definition verifyResponse_set_unknown (u : UnknownFieldSet) (m : verifyResponse) : verifyResponse :=
  mkverifyResponse (verifyResponse_has_bits m) (verifyResponse_auxs_ m) (verifyResponse_sigs_ m) (verifyResponse_ids_ m) u.

(** [message_done] merges the local has-bits; [None] is the null pointer of a
    failure. *)
Definition verifyResponse_InternalParse (m : verifyResponse) (ptr : str) : option (verifyResponse * str * Z) :=
  match parse_loop verifyResponse_field verifyResponse_unknown verifyResponse_set_unknown (length ptr) m 0 ptr with
  | Some (m, has_bits, ptr', tag) => Some (mkverifyResponse (Z.lor (verifyResponse_has_bits m) has_bits) (verifyResponse_auxs_ m) (verifyResponse_sigs_ m) (verifyResponse_ids_ m) (verifyResponse_unknown m), ptr', tag)
  | None => None
  end.

Definition verifyResponse_InternalSerialize (m : verifyResponse) : str :=
  let cached_has_bits := verifyResponse_has_bits m in
  (if has_bit cached_has_bits 0x01 then WriteBytes 1 (verifyResponse_auxs_ m) else []) ++
  (if has_bit cached_has_bits 0x02 then WriteBytes 2 (verifyResponse_sigs_ m) else []) ++
  (if has_bit cached_has_bits 0x04 then WriteBytes 3 (verifyResponse_ids_ m) else []) ++
  (if UFS_have (verifyResponse_unknown m) then UFS_serialize (verifyResponse_unknown m) else []).

Definition verifyResponse_ByteSizeLong (m : verifyResponse) : Z :=
  let cached_has_bits := verifyResponse_has_bits m in
  let total_size :=
    if has_bit cached_has_bits 0x07 then
      (if has_bit cached_has_bits 0x01 then 1 + BytesSize (verifyResponse_auxs_ m) else 0) +
      (if has_bit cached_has_bits 0x02 then 1 + BytesSize (verifyResponse_sigs_ m) else 0) +
      (if has_bit cached_has_bits 0x04 then 1 + BytesSize (verifyResponse_ids_ m) else 0)
    else 0 in
  if UFS_have (verifyResponse_unknown m) then total_size + UFS_size (verifyResponse_unknown m) else total_size.

Definition verifyResponse_MergeImpl (m from : verifyResponse) : verifyResponse :=
  let cached_has_bits := verifyResponse_has_bits from in
  let m :=
    if has_bit cached_has_bits 0x07 then
      let m := if has_bit cached_has_bits 0x01 then verifyResponse_set_auxs (verifyResponse_auxs_ from) m else m in
      let m := if has_bit cached_has_bits 0x02 then verifyResponse_set_sigs (verifyResponse_sigs_ from) m else m in
      let m := if has_bit cached_has_bits 0x04 then verifyResponse_set_ids (verifyResponse_ids_ from) m else m in
      mkverifyResponse (Z.lor (verifyResponse_has_bits m) cached_has_bits) (verifyResponse_auxs_ m) (verifyResponse_sigs_ m) (verifyResponse_ids_ m) (verifyResponse_unknown m)
    else m in
  verifyResponse_set_unknown (UFS_merge (verifyResponse_unknown m) (verifyResponse_unknown from)) m.

(** [same] is the test [&from == this]. *)
Definition verifyResponse_CopyFrom (same : bool) (m from : verifyResponse) : verifyResponse :=
  if same then m else verifyResponse_MergeImpl (verifyResponse_Clear m) from.

Definition verifyResponse_IsInitialized (m : verifyResponse) : bool := true.

Definition verifyResponse_InternalSwap (m other : verifyResponse) : verifyResponse * verifyResponse :=
  (mkverifyResponse (verifyResponse_has_bits other) (verifyResponse_auxs_ other) (verifyResponse_sigs_ other) (verifyResponse_ids_ other) (verifyResponse_unknown other),
   mkverifyResponse (verifyResponse_has_bits m) (verifyResponse_auxs_ m) (verifyResponse_sigs_ m) (verifyResponse_ids_ m) (verifyResponse_unknown m)).

End Messages.

(** * Properties *)

Section MessageFacts.
Context `{WL : WireLaws}.

(** ** verifyRequest *)

(** Absent fields hold their default value. *)
Definition verifyRequest_wf (m : verifyRequest) : Prop :=
  0 <= verifyRequest_has_bits m < 2
  /\ (verifyRequest_has_pk_v m = false -> verifyRequest_pk_v_ m = []).

(** Its fields can be sent: strings below a gigabyte, 32-bit integers, and no
    field of another version. *)
Definition verifyRequest_sendable (m : verifyRequest) : Prop :=
  verifyRequest_unknown m = UFS_empty
  /\ small (verifyRequest_pk_v_ m).

Lemma verifyRequest_byte_size_ok m : verifyRequest_sendable m -> verifyRequest_ByteSizeLong m = vec_size (verifyRequest_InternalSerialize m).
Proof.
  intros (Hu & Hpk_v). unfold verifyRequest_ByteSizeLong, verifyRequest_InternalSerialize. rewrite Hu, ufs_have_empty.
  rewrite ?vec_size_app, ?vec_size_if, ?vec_size_nil.
  rewrite ?bytes_size, ?int32_size, ?message_size by (done || lia).
   sum_of_bits.
Qed.

(** The message that the reader builds, field by field. *)
Definition verifyRequest_built (m : verifyRequest) : verifyRequest * Z :=
  let h := verifyRequest_has_bits m in
  let m0 := verifyRequest_default in let h0 := 0 in
  let m1 := if has_bit h 0x01 then verifyRequest_set_pk_v (verifyRequest_pk_v_ m) m0 else m0 in
  let h1 := if has_bit h 0x01 then h0 else h0 in
  (m1, h1).

Lemma verifyRequest_parses m :
  verifyRequest_wf m -> verifyRequest_sendable m ->
  parses verifyRequest_field verifyRequest_unknown verifyRequest_set_unknown verifyRequest_default 0
    ((if has_bit (verifyRequest_has_bits m) 0x01 then WriteBytes 1 (verifyRequest_pk_v_ m) else []) ++
      [])
    (Some (fst (verifyRequest_built m), snd (verifyRequest_built m), [], 0)).
Proof.
  intros Hwf (Hu & Hpk_v). unfold verifyRequest_built, fst, snd. cbv zeta.
  eapply parses_optional; [intros _; read_bytes verifyRequest_field|].
  apply parses_done.
Qed.

Lemma verifyRequest_rebuild m :
  verifyRequest_wf m -> verifyRequest_unknown m = UFS_empty ->
  let (r, has_bits) := verifyRequest_built m in
  mkverifyRequest (Z.lor (verifyRequest_has_bits r) has_bits) (verifyRequest_pk_v_ r) (verifyRequest_unknown r) = m.
Proof.
  destruct m as [h xpk_v u]. unfold verifyRequest_wf, verifyRequest_has_pk_v.
  intros (Hh & Hf) Hu. simpl in Hh, Hu. subst u. pose proof (small_range 2 h Hh) as Hin. simpl in Hin, Hf.
  each_value Hin; rebuild Hf.
Qed.

(** What is parsed from the serialised message is the message. *)
Lemma verifyRequest_parse_serialize m :
  verifyRequest_wf m -> verifyRequest_sendable m ->
  verifyRequest_InternalParse verifyRequest_default (verifyRequest_InternalSerialize m) = Some (m, [], 0).
Proof.
  intros Hwf Hs. pose proof (verifyRequest_parses m Hwf Hs) as Hp. pose proof (verifyRequest_rebuild m Hwf (proj1 Hs)) as Hr.
  unfold verifyRequest_InternalParse, verifyRequest_InternalSerialize. rewrite (proj1 Hs), ufs_have_empty.
  rewrite (Hp _ (Nat.le_refl _)). destruct (verifyRequest_built m) as [r hb]. simpl. by rewrite Hr.
Qed.

(** Clearing gives the fresh message, copying the source. *)
Lemma verifyRequest_Clear_ok m : verifyRequest_wf m -> verifyRequest_Clear m = verifyRequest_default.
Proof.
  destruct m as [h xpk_v u]. unfold verifyRequest_wf, verifyRequest_has_pk_v.
  intros (Hh & Hf). simpl in Hh. pose proof (small_range 2 h Hh) as Hin. simpl in Hin, Hf.
  each_value Hin; rebuild Hf.
Qed.

Lemma verifyRequest_CopyFrom_ok m from : verifyRequest_wf m -> verifyRequest_wf from -> verifyRequest_CopyFrom false m from = from.
Proof.
  intros Hm. unfold verifyRequest_CopyFrom. rewrite verifyRequest_Clear_ok by done. clear m Hm.
  destruct from as [h xpk_v u]. unfold verifyRequest_wf, verifyRequest_has_pk_v.
  intros (Hh & Hf). simpl in Hh. pose proof (small_range 2 h Hh) as Hin. simpl in Hin, Hf.
  transitivity (mkverifyRequest h xpk_v (UFS_merge UFS_empty u)); [|by rewrite ufs_merge_empty].
  each_value Hin; rebuild Hf.
Qed.

(** Writing a field is what reading it returns; the other fields stay. *)
Lemma verifyRequest_accessors_ok m : verifyRequest_wf m ->
  (forall v : str, verifyRequest_get_pk_v (verifyRequest_set_pk_v v m) = v /\ verifyRequest_has_pk_v (verifyRequest_set_pk_v v m) = true /\ verifyRequest_has_pk_v (verifyRequest_clear_pk_v m) = false /\ verifyRequest_get_pk_v (verifyRequest_clear_pk_v m) = []
     /\ verifyRequest_wf (verifyRequest_set_pk_v v m) /\ verifyRequest_wf (verifyRequest_clear_pk_v m)).
Proof.
  destruct m as [h xpk_v u].
  unfold verifyRequest_wf, verifyRequest_has_pk_v, verifyRequest_set_pk_v, verifyRequest_clear_pk_v.
  intros (Hh & Hf). accessors 1 Hf.
Qed.

(** ** verifyResponse *)

(** Absent fields hold their default value. *)
Definition verifyResponse_wf (m : verifyResponse) : Prop :=
  0 <= verifyResponse_has_bits m < 8
  /\ (verifyResponse_has_auxs m = false -> verifyResponse_auxs_ m = [])
  /\ (verifyResponse_has_sigs m = false -> verifyResponse_sigs_ m = [])
  /\ (verifyResponse_has_ids m = false -> verifyResponse_ids_ m = []).

(** Its fields can be sent: strings below a gigabyte, 32-bit integers, and no
    field of another version. *)
Definition verifyResponse_sendable (m : verifyResponse) : Prop :=
  verifyResponse_unknown m = UFS_empty
  /\ small (verifyResponse_auxs_ m)
  /\ small (verifyResponse_sigs_ m)
  /\ small (verifyResponse_ids_ m).

Lemma verifyResponse_byte_size_ok m : verifyResponse_sendable m -> verifyResponse_ByteSizeLong m = vec_size (verifyResponse_InternalSerialize m).
Proof.
  intros (Hu & Hauxs & Hsigs & Hids). unfold verifyResponse_ByteSizeLong, verifyResponse_InternalSerialize. rewrite Hu, ufs_have_empty.
  rewrite ?vec_size_app, ?vec_size_if, ?vec_size_nil.
  rewrite ?bytes_size, ?int32_size, ?message_size by (done || lia).
   sum_of_bits.
Qed.

(** The message that the reader builds, field by field. *)
Definition verifyResponse_built (m : verifyResponse) : verifyResponse * Z :=
  let h := verifyResponse_has_bits m in
  let m0 := verifyResponse_default in let h0 := 0 in
  let m1 := if has_bit h 0x01 then verifyResponse_set_auxs (verifyResponse_auxs_ m) m0 else m0 in
  let h1 := if has_bit h 0x01 then h0 else h0 in
  let m2 := if has_bit h 0x02 then verifyResponse_set_sigs (verifyResponse_sigs_ m) m1 else m1 in
  let h2 := if has_bit h 0x02 then h1 else h1 in
  let m3 := if has_bit h 0x04 then verifyResponse_set_ids (verifyResponse_ids_ m) m2 else m2 in
  let h3 := if has_bit h 0x04 then h2 else h2 in
  (m3, h3).

Lemma verifyResponse_parses m :
  verifyResponse_wf m -> verifyResponse_sendable m ->
  parses verifyResponse_field verifyResponse_unknown verifyResponse_set_unknown verifyResponse_default 0
    ((if has_bit (verifyResponse_has_bits m) 0x01 then WriteBytes 1 (verifyResponse_auxs_ m) else []) ++
      (if has_bit (verifyResponse_has_bits m) 0x02 then WriteBytes 2 (verifyResponse_sigs_ m) else []) ++
      (if has_bit (verifyResponse_has_bits m) 0x04 then WriteBytes 3 (verifyResponse_ids_ m) else []) ++
      [])
    (Some (fst (verifyResponse_built m), snd (verifyResponse_built m), [], 0)).
Proof.
  intros Hwf (Hu & Hauxs & Hsigs & Hids). unfold verifyResponse_built, fst, snd. cbv zeta.
  eapply parses_optional; [intros _; read_bytes verifyResponse_field|].
  eapply parses_optional; [intros _; read_bytes verifyResponse_field|].
  eapply parses_optional; [intros _; read_bytes verifyResponse_field|].
  apply parses_done.
Qed.

Lemma verifyResponse_rebuild m :
  verifyResponse_wf m -> verifyResponse_unknown m = UFS_empty ->
  let (r, has_bits) := verifyResponse_built m in
  mkverifyResponse (Z.lor (verifyResponse_has_bits r) has_bits) (verifyResponse_auxs_ r) (verifyResponse_sigs_ r) (verifyResponse_ids_ r) (verifyResponse_unknown r) = m.
Proof.
  destruct m as [h xauxs xsigs xids u]. unfold verifyResponse_wf, verifyResponse_has_auxs, verifyResponse_has_sigs, verifyResponse_has_ids.
  intros (Hh & Hf) Hu. simpl in Hh, Hu. subst u. pose proof (small_range 8 h Hh) as Hin. simpl in Hin, Hf.
  each_value Hin; rebuild Hf.
Qed.

(** What is parsed from the serialised message is the message. *)
Lemma verifyResponse_parse_serialize m :
  verifyResponse_wf m -> verifyResponse_sendable m ->
  verifyResponse_InternalParse verifyResponse_default (verifyResponse_InternalSerialize m) = Some (m, [], 0).
Proof.
  intros Hwf Hs. pose proof (verifyResponse_parses m Hwf Hs) as Hp. pose proof (verifyResponse_rebuild m Hwf (proj1 Hs)) as Hr.
  unfold verifyResponse_InternalParse, verifyResponse_InternalSerialize. rewrite (proj1 Hs), ufs_have_empty.
  rewrite (Hp _ (Nat.le_refl _)). destruct (verifyResponse_built m) as [r hb]. simpl. by rewrite Hr.
Qed.

(** Clearing gives the fresh message, copying the source. *)
Lemma verifyResponse_Clear_ok m : verifyResponse_wf m -> verifyResponse_Clear m = verifyResponse_default.
Proof.
  destruct m as [h xauxs xsigs xids u]. unfold verifyResponse_wf, verifyResponse_has_auxs, verifyResponse_has_sigs, verifyResponse_has_ids.
  intros (Hh & Hf). simpl in Hh. pose proof (small_range 8 h Hh) as Hin. simpl in Hin, Hf.
  each_value Hin; rebuild Hf.
Qed.

Lemma verifyResponse_CopyFrom_ok m from : verifyResponse_wf m -> verifyResponse_wf from -> verifyResponse_CopyFrom false m from = from.
Proof.
  intros Hm. unfold verifyResponse_CopyFrom. rewrite verifyResponse_Clear_ok by done. clear m Hm.
  destruct from as [h xauxs xsigs xids u]. unfold verifyResponse_wf, verifyResponse_has_auxs, verifyResponse_has_sigs, verifyResponse_has_ids.
  intros (Hh & Hf). simpl in Hh. pose proof (small_range 8 h Hh) as Hin. simpl in Hin, Hf.
  transitivity (mkverifyResponse h xauxs xsigs xids (UFS_merge UFS_empty u)); [|by rewrite ufs_merge_empty].
  each_value Hin; rebuild Hf.
Qed.

(** Writing a field is what reading it returns; the other fields stay. *)
Lemma verifyResponse_accessors_ok m : verifyResponse_wf m ->
  (forall v : str, verifyResponse_get_auxs (verifyResponse_set_auxs v m) = v /\ verifyResponse_has_auxs (verifyResponse_set_auxs v m) = true /\ verifyResponse_has_auxs (verifyResponse_clear_auxs m) = false /\ verifyResponse_get_auxs (verifyResponse_clear_auxs m) = []
     /\ verifyResponse_wf (verifyResponse_set_auxs v m) /\ verifyResponse_wf (verifyResponse_clear_auxs m)
     /\ verifyResponse_get_sigs (verifyResponse_set_auxs v m) = verifyResponse_get_sigs m /\ verifyResponse_has_sigs (verifyResponse_set_auxs v m) = verifyResponse_has_sigs m
     /\ verifyResponse_get_ids (verifyResponse_set_auxs v m) = verifyResponse_get_ids m /\ verifyResponse_has_ids (verifyResponse_set_auxs v m) = verifyResponse_has_ids m)
  /\ (forall v : str, verifyResponse_get_sigs (verifyResponse_set_sigs v m) = v /\ verifyResponse_has_sigs (verifyResponse_set_sigs v m) = true /\ verifyResponse_has_sigs (verifyResponse_clear_sigs m) = false /\ verifyResponse_get_sigs (verifyResponse_clear_sigs m) = []
     /\ verifyResponse_wf (verifyResponse_set_sigs v m) /\ verifyResponse_wf (verifyResponse_clear_sigs m)
     /\ verifyResponse_get_auxs (verifyResponse_set_sigs v m) = verifyResponse_get_auxs m /\ verifyResponse_has_auxs (verifyResponse_set_sigs v m) = verifyResponse_has_auxs m
     /\ verifyResponse_get_ids (verifyResponse_set_sigs v m) = verifyResponse_get_ids m /\ verifyResponse_has_ids (verifyResponse_set_sigs v m) = verifyResponse_has_ids m)
  /\ (forall v : str, verifyResponse_get_ids (verifyResponse_set_ids v m) = v /\ verifyResponse_has_ids (verifyResponse_set_ids v m) = true /\ verifyResponse_has_ids (verifyResponse_clear_ids m) = false /\ verifyResponse_get_ids (verifyResponse_clear_ids m) = []
     /\ verifyResponse_wf (verifyResponse_set_ids v m) /\ verifyResponse_wf (verifyResponse_clear_ids m)
     /\ verifyResponse_get_auxs (verifyResponse_set_ids v m) = verifyResponse_get_auxs m /\ verifyResponse_has_auxs (verifyResponse_set_ids v m) = verifyResponse_has_auxs m
     /\ verifyResponse_get_sigs (verifyResponse_set_ids v m) = verifyResponse_get_sigs m /\ verifyResponse_has_sigs (verifyResponse_set_ids v m) = verifyResponse_has_sigs m).
Proof.
  destruct m as [h xauxs xsigs xids u].
  unfold verifyResponse_wf, verifyResponse_has_auxs, verifyResponse_has_sigs, verifyResponse_has_ids, verifyResponse_set_auxs, verifyResponse_set_sigs, verifyResponse_set_ids, verifyResponse_clear_auxs, verifyResponse_clear_sigs, verifyResponse_clear_ids.
  intros (Hh & Hf). accessors 3 Hf.
Qed.
End MessageFacts.
