(* ===== verification/Reference.v ===== *)
(** * A reference implementation of the library interfaces

    Small executable stand-ins for GMP, MIRACL Core and the clock that satisfy
    the laws of Gmp.v and Miracl.v: integers for [BIG], the additive group of
    integers modulo the curve order for all three groups, multiplication for
    the pairing.  They show that the laws are consistent and give the
    concrete runs of the witnesses something to run on; they are no
    cryptography. *)

From Stdlib Require Import ZArith Lia Ascii String Zcong Zpow_facts Setoid Morphisms.
From stdpp Require Import base list.
From S2P Require Import Prelude ModArith Primality Text Group Gmp Miracl Tools Scheme Wire.

Open Scope Z_scope.

(** ** Bytes of a number *)

Fixpoint be_bytes (n : nat) (z : Z) : list Z :=
  match n with
  | O => []
  | S n' => be_bytes n' (z / 256) ++ [z mod 256]
  end.

Lemma be_bytes_spec n : forall z,
  0 <= z < 256 ^ Z.of_nat n ->
  length (be_bytes n z) = n /\ Forall is_byte (be_bytes n z) /\ be_val (be_bytes n z) = z.
Proof.
  induction n as [|n IH]; intros z Hz.
  { simpl in *. split_and!; [done|done|]. unfold be_val, pos_val. simpl. lia. }
  rewrite Nat2Z.inj_succ, Z.pow_succ_r in Hz by lia. cbn [be_bytes].
  destruct (IH (z / 256)) as (Hl & Hb & Hv).
  { split; [apply Z.div_pos; lia|apply Z.div_lt_upper_bound; lia]. }
  split_and!.
  - rewrite length_app, Hl. simpl. lia.
  - apply Forall_app. split; [done|]. repeat constructor; apply Z.mod_pos_bound; lia.
  - rewrite be_val_snoc, Hv. pose proof (Z.div_mod z 256). lia.
Qed.

#[global] Arguments be_bytes : simpl never.

(** ** GMP *)

Definition ref_digits (s : str) (b : Z) : option Z :=
  let b' := if b =? 0 then 10 else b in
  match s with
  | [] => None
  | c :: s' =>
      if (b =? 0) && (c =? "0")%char && negb (bool_decide (s' = [])) then None
      else if forallb (is_digit b') s then Some (digits_val b' s) else None
  end.

Definition ref_set_str (s : str) (b : Z) : option Z :=
  match s with
  | c :: s' => if (c =? "-")%char then Z.opp <$> ref_digits s' b else ref_digits s b
  | [] => None
  end.

#[export] Instance ref_gmp : GmpOps := {
  randstate := Z;
  gmp_randseed_ui s := s;
  mpz_urandomm s n := (s mod n, s + 1);
  mpz_powm b e m := Zpow_mod b e m;
  mpz_invert _ a m := if Z.gcd a m =? 1 then (true, Z.invmod a m) else (false, 0);
  mpz_get_str b z := numeral b z;
  mpz_set_str := ref_set_str;
}.

Lemma forallb_digits b s :
  forallb (is_digit b) s = true <-> Forall (fun c => is_digit b c = true) s.
Proof. rewrite forallb_forall, Forall_forall. setoid_rewrite list_elem_of_In. done. Qed.

Lemma digit_not_minus c : is_digit 16 c = true -> (c =? "-")%char = false.
Proof. intros (_ & H & _)%hex_digit_not_special. by apply Ascii.eqb_neq. Qed.

Lemma ref_set_str_digits s b :
  Forall (fun c => is_digit 16 c = true) s -> ref_set_str s b = ref_digits s b.
Proof.
  intros Hs. destruct Hs as [|c s Hc Hs]; [by destruct b|]. simpl.
  by rewrite digit_not_minus.
Qed.

#[export] Instance ref_gmp_laws : GmpLaws ref_gmp.
Proof.
  split.
  - intros s n Hn. apply Z.mod_pos_bound. done.
  - intros b e m Hb He Hm. simpl. by apply Zpow_mod_correct; lia.
  - intros r a m Hm Hg. simpl. rewrite Hg. simpl. exists (Z.invmod a m). split_and!; [done|..].
    + rewrite <- Z.mod_invmod. apply Z.mod_pos_bound. lia.
    + rewrite <- Z.mod_invmod. apply Z.mod_pos_bound. lia.
    + rewrite Z.mul_comm. apply Z.invmod_coprime; [lia|done].
  - intros r a m Hm Hg. simpl. by destruct (Z.eqb_spec (Z.gcd a m) 1).
  - done.
  - intros s Hs Hd. change (ref_set_str s 16 = Some (digits_val 16 s)).
    rewrite ref_set_str_digits by done. unfold ref_digits. destruct s as [|c s]; [done|].
    simpl negb. cbv iota. rewrite andb_false_l. rewrite (proj2 (forallb_digits _ _)); done.
  - intros s Hd Hs. change (ref_set_str s 0 = Some (digits_val 10 s)).
    rewrite ref_set_str_digits.
    2:{ eapply Forall_impl; [exact Hd|]. intros c. apply digit_10_16. }
    destruct Hs as [->|(c & s' & -> & Hc)]; [done|]. unfold ref_digits.
    assert ((c =? "0")%char = false) as -> by (by apply Ascii.eqb_neq).
    rewrite andb_false_r. simpl (if 0 =? 0 then _ else _).
    rewrite (proj2 (forallb_digits _ _)); done.
  - intros s b Hs Hd. change (ref_set_str (lit "-" ++ s) b = Z.opp <$> ref_set_str s b).
    by rewrite (ref_set_str_digits s).
  - done.
Qed.

(** ** MIRACL Core *)

#[export] Instance ref_big : BigOps := {
  BIG := Z;
  BIG_val x := x;
  BIG_toBytes x := be_bytes 48 x;
  BIG_fromBytes l := be_val l;
  BIG_fromBytesLen l s := be_val (take (Z.to_nat s) l);
  BIG_zero := 0;
  BIG_one := 1;
  BIG_comp x y := Z.sgn (x - y);
  BIG_mod x n := x mod n;
  BIG_sdiv x n := x / n;
  BIG_modmul y z n := y * z mod n;
  BIG_modneg y n := - y mod n;
  BIG_modadd y z n := (y + z) mod n;
  CURVE_Order := curve_order;
}.

#[export] Instance ref_big_laws : BigLaws ref_big.
Proof.
  split; simpl; try done.
  - intros x Hx. destruct (be_bytes_spec 48 x) as (Hl & Hb & Hv); [done|].
    split_and!; [unfold vec_size; rewrite Hl; done|done|done].
  - intros y n Hy Hn. pose proof (Z.mod_pos_bound (- y) n Hn). split; [lia|apply cong_mod].
Qed.

Definition ref_digest (h : Z) : list Z := be_bytes 32 (h mod 256 ^ 32).

#[export] Instance ref_hash : HashOps := {
  hash256 := Z;
  HASH256_init := 5381;
  HASH256_process h b := h * 31 + b;
  HASH256_hash := ref_digest;
  csprng := Z;
  CREATE_CSPRNG l := be_val l;
  BIG_randtrunc n t r := (r mod Z.min n (2 ^ t), r + 1);
}.

#[export] Instance ref_hash_laws : HashLaws ref_hash.
Proof.
  split.
  - intros h. destruct (be_bytes_spec 32 (h mod 256 ^ 32)) as (Hl & Hb & _); [|done].
    by apply Z.mod_pos_bound.
  - intros n t r Hn Ht. simpl in *. apply Z.mod_pos_bound.
    pose proof (Z.pow_pos_nonneg 2 t). lia.
Qed.

(** The integers modulo the order, compared modulo the order. *)
Definition ref_eqb (x y : Z) : bool := (x - y) mod curve_order =? 0.

#[export] Instance ref_curve : CurveOps := {
  ECP := Z;
  ECP_equals := ref_eqb;
  ECP_isinf x := ref_eqb x 0;
  ECP_inf := 0;
  ECP_neg := Z.opp;
  ECP_add := Z.add;
  ECP_mul P b := P * b mod curve_order;
  ECP_generator := 1;
  ECP_get P := (1, P mod curve_order, P mod curve_order);
  ECP_set x y := (1, x);
  ECP2 := Z;
  ECP2_equals := ref_eqb;
  ECP2_inf := 0;
  ECP2_neg := Z.opp;
  ECP2_add := Z.add;
  ECP2_mul P b := P * b mod curve_order;
  ECP2_generator := 1;
  ECP2_toOctet P c := be_bytes (if c : bool then 97 else 193) (P mod curve_order);
  ECP2_fromOctet l := (1, be_val l);
  FP12 := Z;
  FP12_equals := ref_eqb;
  FP12_isunity x := ref_eqb x 0;
  FP12_iszilch _ := false;
  FP12_one := 0;
  FP12_inv := Z.opp;
  FP12_mul := Z.add;
  FP12_reduce x := x mod curve_order;
  FP12_toOctet x := be_bytes 48 (x mod curve_order);
  FP12_fromOctet l := be_val l;
  PAIR_ate Q P := P * Q;
  PAIR_fexp x := x;
}.

Lemma ref_eqb_spec x y : ref_eqb x y = true <-> x ≡[curve_order] y.
Proof.
  unfold ref_eqb. rewrite Z.eqb_eq, (cong_sub_0 _ x y). symmetry. apply unit_nz.
Qed.

Lemma ref_group : AbGroup (fun x y => ref_eqb x y = true) Z.add 0 Z.opp.
Proof.
  split.
  - split; red; setoid_rewrite ref_eqb_spec.
    + done.
    + by symmetry.
    + intros x y z Hxy Hyz. by transitivity y.
  - intros x x' Hx y y' Hy. rewrite ref_eqb_spec in *. by rewrite Hx, Hy.
  - intros x y z. apply ref_eqb_spec. cong_ring.
  - intros x y. apply ref_eqb_spec. cong_ring.
  - intros x. by apply ref_eqb_spec.
  - intros x. apply ref_eqb_spec. cong_ring.
Qed.

Lemma ref_zmul n x : 0 <= n -> zmul Z.add 0 n x = n * x.
Proof.
  intros Hn. unfold zmul. rewrite <- (Z2Nat.id n Hn) at 2. generalize (Z.to_nat n). clear n Hn.
  intros n. induction n as [|n IH]; [done|]. cbn [smul]. rewrite IH. lia.
Qed.

Lemma ref_order_bytes : curve_order < 256 ^ 48.
Proof. vm_compute. done. Qed.

Lemma ref_mod_bytes x : 0 <= x mod curve_order < 256 ^ 48.
Proof.
  pose proof ref_order_bytes. pose proof order_gt_1.
  pose proof (Z.mod_pos_bound x curve_order). lia.
Qed.

Lemma ref_octet n x : (48 <= n)%nat ->
  Forall is_byte (be_bytes n (x mod curve_order))
  /\ length (be_bytes n (x mod curve_order)) = n
  /\ be_val (be_bytes n (x mod curve_order)) ≡[curve_order] x.
Proof.
  intros Hn. pose proof (ref_mod_bytes x). pose proof (Z.pow_le_mono_r 256 48 (Z.of_nat n)).
  destruct (be_bytes_spec n (x mod curve_order)) as (Hl & Hb & Hv); [lia|].
  split_and!; [done|done|]. rewrite Hv. apply cong_mod.
Qed.

#[export] Instance ref_curve_laws : CurveLaws ref_curve.
Proof.
  pose proof order_gt_1 as Hq.
  assert (Hmul : forall P b, 0 <= b -> ref_eqb (P * b mod curve_order) (zmul Z.add 0 b P) = true).
  { intros P b Hb. apply ref_eqb_spec. rewrite ref_zmul by done. cong_ring. }
  assert (Hord : ref_eqb (zmul Z.add 0 curve_order 1) 0 = true).
  { apply ref_eqb_spec. rewrite ref_zmul by lia. exists 1. lia. }
  split.
  - exact ref_group.
  - exact ref_group.
  - exact ref_group.
  - intros P b Hb. exact (Hmul P b (proj1 Hb)).
  - intros P b Hb. exact (Hmul P b (proj1 Hb)).
  - intros b P P' HP. apply ref_eqb_spec. apply ref_eqb_spec in HP. simpl.
    by rewrite !cong_mod, HP.
  - exact Hord.
  - exact Hord.
  - intros P P' HP Q Q' HQ. unfold ecp_eq, ecp2_eq, fp12_eq in *. simpl in *.
    rewrite ref_eqb_spec in *. unfold pair; simpl.
    transitivity (P * Q); [apply cong_mod|]. transitivity (P' * Q'); [|symmetry; apply cong_mod].
    apply mul_cong; assumption.
  - intros. apply ref_eqb_spec. unfold pair; simpl. cong_ring.
  - intros. apply ref_eqb_spec. unfold pair; simpl. cong_ring.
  - intros H. apply ref_eqb_spec in H. revert H. unfold pair; simpl. rewrite cong_mod.
    intros H. apply (cong_small curve_order) in H; lia.
  - done.
  - intros P s x y x' y' _ [= <- <- <-]. simpl. split_and!; try apply ref_mod_bytes.
    intros -> ->. split; [done|]. apply ref_eqb_spec, cong_mod.
  - intros P c _. destruct (ref_octet (if c then 97 else 193) P) as (Hb & Hn & Hv); [by destruct c; lia|].
    split; [exact Hb|]. split; [intros He; change (be_bytes (if c then 97 else 193) (P mod curve_order) = []) in He;
      rewrite He in Hn; by destruct c|].
    split; [|split; [reflexivity|apply ref_eqb_spec; exact Hv]].
    change (Z.of_nat (length (be_bytes (if c then 97 else 193) (P mod curve_order))) <= (if c then 2 else 4) * 48 + 1).
    rewrite Hn. by destruct c.
  - intros x. destruct (ref_octet 48 x ltac:(lia)) as (Hb & Hn & Hv). split; [exact Hb|split].
    + change (Z.of_nat (length (be_bytes 48 (x mod curve_order))) <= 12 * 48). rewrite Hn. lia.
    + apply ref_eqb_spec. exact Hv.
Qed.

(** A clock whose [k]-th reading is [k]. *)
#[export] Instance ref_clock : ClockOps := {
  clock_ns k := Z.of_nat k;
  clock_s k := Z.of_nat k;
}.

(** The store at the start of a program. *)
Definition ref_world : World := mkWorld ref_gmp (fun _ => None) 0 [].

(** ** The protobuf runtime

    One byte of tag, then a fixed four-byte length or number: simpler than the
    real varints, with the same laws. *)

Definition chr (z : Z) : ascii := ascii_of_N (Z.to_N z).
Definition code (c : ascii) : Z := Z.of_N (N_of_ascii c).

Lemma code_chr z : is_byte z -> code (chr z) = z.
Proof.
  unfold is_byte, code, chr. intros Hz. rewrite N_ascii_embedding by lia. lia.
Qed.

Definition put4 (z : Z) : str := map chr (be_bytes 4 z).
Definition get4 (s : str) : option (Z * str) :=
  if vec_size s <? 4 then None else Some (be_val (map code (take 4 s)), drop 4 s).

#[global] Arguments put4 : simpl never.
#[global] Arguments get4 : simpl never.

Lemma get_put4 z rest : 0 <= z < 256 ^ 4 -> get4 (put4 z ++ rest) = Some (z, rest).
Proof.
  intros Hz. destruct (be_bytes_spec 4 z Hz) as (Hl & Hb & Hv). unfold get4, put4.
  assert (Hl' : length (map chr (be_bytes 4 z)) = 4%nat) by (by rewrite length_map).
  destruct (Z.ltb_spec (vec_size (map chr (be_bytes 4 z) ++ rest)) 4) as [Hlt|_].
  { rewrite vec_size_app in Hlt. unfold vec_size in Hlt. lia. }
  rewrite take_app_le, take_ge, drop_app_ge, Hl' by lia. rewrite drop_0, map_map.
  do 2 f_equal. rewrite <- Hv at 2. f_equal. clear Hv Hl Hl'.
  induction Hb as [|b l Hb Hl IH]; [done|]. simpl. by rewrite code_chr, IH.
Qed.

Lemma put4_size z : vec_size (put4 z) = 4.
Proof. done. Qed.

#[export] Instance ref_wire : WireOps := {
  UnknownFieldSet := unit;
  UFS_empty := tt;
  UFS_have _ := false;
  UFS_merge _ u := u;
  UFS_serialize _ := [];
  UFS_size _ := 0;
  UnknownFieldParse _ _ _ := None;
  ReadTag s := match s with [] => None | c :: s' => Some (code c, s') end;
  ReadVarint32 s := match get4 s with Some (z, s') => Some (z - 2 ^ 31, s') | None => None end;
  ReadString s :=
    match get4 s with
    | Some (n, s') =>
        if vec_size s' <? n then None else Some (take (Z.to_nat n) s', drop (Z.to_nat n) s')
    | None => None
    end;
  WriteBytes n s := chr (8 * n + 2) :: put4 (vec_size s) ++ s;
  WriteInt32 n v := chr (8 * n) :: put4 (v + 2 ^ 31);
  WriteMessage n s := chr (8 * n + 2) :: put4 (vec_size s) ++ s;
  BytesSize s := 4 + vec_size s;
  MessageSize n := 4 + n;
  Int32SizePlusOne _ := 5;
}.

Lemma ref_read_bytes n s rest :
  1 <= n <= 15 -> small s ->
  exists p, ReadTag ((chr (8 * n + 2) :: put4 (vec_size s) ++ s) ++ rest) = Some (8 * n + 2, p)
    /\ ReadString p = Some (s, rest).
Proof.
  intros Hn Hs. unfold small in Hs. assert (Hs0 : 0 <= vec_size s) by (unfold vec_size; lia).
  exists (put4 (vec_size s) ++ s ++ rest). split.
  { change (Some (code (chr (8 * n + 2)), (put4 (vec_size s) ++ s) ++ rest) =
      Some (8 * n + 2, put4 (vec_size s) ++ s ++ rest)).
    rewrite code_chr, app_assoc; [done|]. unfold is_byte. lia. }
  unfold ReadString, ref_wire. rewrite get_put4 by lia.
  destruct (Z.ltb_spec (vec_size (s ++ rest)) (vec_size s)) as [Hlt|_].
  { rewrite vec_size_app in Hlt. unfold vec_size in Hlt. lia. }
  unfold vec_size. by rewrite Nat2Z.id, take_app_length, drop_app_length.
Qed.

#[export] Instance ref_wire_laws : WireLaws ref_wire.
Proof.
  assert (Hsz : forall n s, vec_size (chr n :: put4 (vec_size s) ++ s) = 1 + (4 + vec_size s)).
  { intros n s. change (chr n :: put4 (vec_size s) ++ s) with ([chr n] ++ put4 (vec_size s) ++ s).
    by rewrite !vec_size_app, put4_size. }
  split.
  - apply ref_read_bytes.
  - intros n v rest Hn Hv. unfold is_int32 in Hv. exists (put4 (v + 2 ^ 31) ++ rest). split.
    { change (Some (code (chr (8 * n)), put4 (v + 2 ^ 31) ++ rest) =
        Some (8 * n, put4 (v + 2 ^ 31) ++ rest)).
      rewrite code_chr; [done|]. unfold is_byte. lia. }
    unfold ReadVarint32, ref_wire. rewrite get_put4 by lia. do 2 f_equal. lia.
  - apply ref_read_bytes.
  - intros n s _ _. apply Hsz.
  - done.
  - intros n s _ _. apply Hsz.
  - intros s. simpl. unfold vec_size. lia.
  - done.
  - intros s. simpl. lia.
  - done.
  - intros z Hz. simpl. lia.
  - done.
  - done.
  - done.
Qed.
