(* ===== verification/Rpc.v ===== *)
(** * Remote calls and servers

    What the four programs share of brpc: a stub call, which goes out into the
    network and comes back with a response or has failed; the test
    [IsAskedToQuit]; the start of a server.  brpc itself is linked, so its
    answers are arguments.  Logging ([LOG]) and the debugging callbacks
    [CallAfterRpc] write to the log only and are left out. *)

From Stdlib Require Import ZArith Lia Ascii String.
From stdpp Require Import base list.
From S2P Require Import Prelude ModArith Primality Text Group Gmp Miracl Tools Scheme.
From S2P Require Import BrpcTools Wire TAMsg.

Open Scope Z_scope.

(** A stub method: the network [N] carries the request away and returns the
    response, or nothing when [cntl.Failed()]. *)
Definition rpc (N Req Resp : Type) : Type := Req -> N -> option Resp * N.

(** ** Servers *)

Inductive EndPoint : Type :=
| AnyAddress (port : Z)      (** [EndPoint(IP_ANY, port)] *)
| Listen (addr : str).       (** parsed from the flag listen_addr *)

Class ServerOps : Type := {
  AddService : Z;                             (** its return code *)
  str2endpoint : str -> option EndPoint;      (** [None] for a negative code *)
  Start : EndPoint -> Z;                      (** its return code *)
}.

(** The body that [startServerTA], [startUAVServer] and [startServerTran] have
    in common, up to the port flag. *)
Definition start_server `{ServerOps} (listen_addr : str) (port : Z) : Z :=
  if negb (AddService =? 0) then -1
  else
    match (if bool_decide (listen_addr = []) then Some (AnyAddress port)
           else str2endpoint listen_addr) with
    | None => -1
    | Some point => if negb (Start point =? 0) then -1 else 1
    end.

Lemma start_server_spec `{ServerOps} listen_addr port :
  (start_server listen_addr port = 1 \/ start_server listen_addr port = -1)
  /\ (start_server listen_addr port = 1 <->
      AddService = 0 /\ exists point, Start point = 0
        /\ ((listen_addr = [] /\ point = AnyAddress port)
            \/ (listen_addr <> [] /\ str2endpoint listen_addr = Some point))).
Proof.
  unfold start_server. destruct (Z.eqb_spec AddService 0) as [Ha|Ha]; simpl; [|naive_solver lia].
  case_bool_decide as Hl.
  - destruct (Z.eqb_spec (Start (AnyAddress port)) 0); naive_solver lia.
  - destruct (str2endpoint listen_addr) as [point|]; [|naive_solver lia].
    destruct (Z.eqb_spec (Start point) 0); naive_solver lia.
Qed.

(** ** Reading the public parameters

    The three clients of the TA store the parameters with the same lines. *)
Definition read_params `{G : GmpOps} `{B : BigOps} `{!CurveOps} `{W : WireOps}
    (p : Parameters) : prog Params :=
  q ← lift (str_to_mpz (Parameters_get_q p));
  g ← lift (str_to_mpz (Parameters_get_g p));
  beta ← lift (str_to_mpz (Parameters_get_beta p));
  P2 ← str_to_ECP2 (Parameters_get_p2 p);
  PK ← str_to_ECP2Arr (Parameters_get_pk p);
  mret (mkParams (Parameters_get_n p) (Parameters_get_tm p) q P2 g beta PK).

(** ** Parameters up to the representation of points *)

Section ParamsEq.
Context `{GL : GmpLaws} `{BL : BigLaws} `{CL : !CurveLaws CO} `{W : WireOps}.

Record params_eqv (pp pp' : Params) : Prop := {
  pe_n : pp_n pp = pp_n pp';
  pe_tm : pp_tm pp = pp_tm pp';
  pe_q : pp_q pp = pp_q pp';
  pe_P2 : pp_P2 pp =2= pp_P2 pp';
  pe_g : pp_g pp = pp_g pp';
  pe_beta : pp_beta pp = pp_beta pp';
  pe_PK : Forall2 ecp2_eq (pp_PK pp) (pp_PK pp');
}.

Lemma params_eqv_wf pp pp' alpha : params_eqv pp pp' -> wf_params pp' alpha -> wf_params pp alpha.
Proof.
  intros [Hn Htm Hq HP2 Hg Hbeta _] [Wq WP2 Wg Wa Wb]. split; rewrite ?Hq, ?Hg, ?Hbeta; try done.
  by rewrite HP2.
Qed.

Lemma params_eqv_shares pp pp' b d uav :
  params_eqv pp pp' -> holds_shares pp' b d uav -> holds_shares pp b d uav.
Proof.
  intros He (H1 & H2 & H3). split_and!; [done..|]. intros i c1 c2 Hc1 Hc2.
  destruct (H3 i c1 c2 Hc1 Hc2) as (u & Hu). exists u.
  by rewrite (pe_g _ _ He), (pe_beta _ _ He).
Qed.

Lemma params_eqv_PK pp pp' i P :
  params_eqv pp pp' -> pp_PK pp' !! i = Some P ->
  exists P', pp_PK pp !! i = Some P' /\ P' =2= P.
Proof.
  intros He HP. destruct (Forall2_lookup_r _ _ _ _ _ (pe_PK _ _ He) HP) as (P' & HP' & Heq).
  by exists P'.
Qed.

(** Numbers of at most 256 bits make short strings. *)
Lemma mpz_str_size z : 0 <= z < 2 ^ 256 -> vec_size (mpz_to_str z) <= 64.
Proof.
  intros Hz. unfold mpz_to_str, vec_size. rewrite get_str_spec by auto.
  apply (numeral_length 16); [lia| |lia]. change (16 ^ 64) with (2 ^ 256). lia.
Qed.
End ParamsEq.
