(* ===== verification/Link.v ===== *)
(** * Messages on their way, and the services as interfaces

    A client calls a stub and sees the response, or a failure.  This file
    connects a stub with the handler on the other side: the request is
    written, read, checked for its required fields and handed to the handler
    in the server's world, and its response comes back the same way.

    A service is a class: what its stub promises as long as the server is up.
    The theorems on the clients use the class only; the handlers, behind
    [remote], are its instances. *)

From Stdlib Require Import ZArith Lia Ascii String.
From stdpp Require Import base list.
From S2P Require Import Prelude Text Gmp Miracl Tools Wire UAVMsg TAMsg AggMsg Rpc.

Open Scope Z_scope.

(** The part of a generated class that a transport uses. *)
Class Message (M : Type) : Type := {
  msg_default : M;
  msg_write : M -> str;
  msg_read : M -> str -> option (M * str * Z);
  msg_initialized : M -> bool;
  msg_ok : M -> Prop;
}.

Class MessageLaws (M : Type) `{Message M} : Prop :=
  msg_roundtrip m : msg_ok m -> msg_read msg_default (msg_write m) = Some (m, [], 0).

(** Writing fails when a required field is missing; reading fails on bytes
    that do not parse, stop early, or lack a required field. *)
Definition transmit `{Message M} (m : M) : option M :=
  if msg_initialized m then
    match msg_read msg_default (msg_write m) with
    | Some (m', [], 0) => if msg_initialized m' then Some m' else None
    | _ => None
    end
  else None.

Lemma transmit_ok `{MessageLaws M} m : msg_ok m -> msg_initialized m = true -> transmit m = Some m.
Proof. intros Hm Hi. unfold transmit. by rewrite Hi, msg_roundtrip, Hi. Qed.

Lemma transmit_missing `{Message M} m : msg_initialized m = false -> transmit m = None.
Proof. intros Hi. unfold transmit. by rewrite Hi. Qed.

Section Remote.
Context `{B : BigOps} `{!HashOps} `{!CurveOps} `{G : GmpOps}.
Context `{Message Req} `{Message Resp}.

(** The call of a handler in another process: the network is that process's
    world.  A handler that throws ends the call without a response. *)
Definition remote (handler : Req -> prog Resp) : rpc World Req Resp := fun request w =>
  match transmit request with
  | Some request' =>
      match handler request' w with
      | Ok (response, w') => (transmit response, w')
      | _ => (None, w)
      end
  | None => (None, w)
  end.

Lemma remote_ok `{!MessageLaws Req} `{!MessageLaws Resp} handler request w Q :
  msg_ok request -> msg_initialized request = true ->
  handler request @ w ⇓ (fun r w' => msg_ok r /\ msg_initialized r = true /\ Q r w') ->
  exists r w', remote handler request w = (Some r, w') /\ Q r w'.
Proof.
  intros Hok Hi Hrun. unfold remote. rewrite transmit_ok by done.
  apply runs_ok in Hrun as (r & w' & -> & Hr & Hri & HQ). exists r, w'.
  by rewrite transmit_ok.
Qed.
End Remote.

(** ** The messages of the three services *)

Section Messages.
Context `{W : WireOps}.

#[export] Instance UAVIDRequest_message : Message UAVIDRequest := {|
  msg_default := UAVIDRequest_default;
  msg_write := UAVIDRequest_InternalSerialize;
  msg_read := UAVIDRequest_InternalParse;
  msg_initialized := UAVIDRequest_IsInitialized;
  msg_ok m := UAVIDRequest_wf m /\ UAVIDRequest_sendable m |}.

#[export] Instance UAVIDResponse_message : Message UAVIDResponse := {|
  msg_default := UAVIDResponse_default;
  msg_write := UAVIDResponse_InternalSerialize;
  msg_read := UAVIDResponse_InternalParse;
  msg_initialized := UAVIDResponse_IsInitialized;
  msg_ok m := UAVIDResponse_wf m /\ UAVIDResponse_sendable m |}.

#[export] Instance SignRequest_message : Message SignRequest := {|
  msg_default := SignRequest_default;
  msg_write := SignRequest_InternalSerialize;
  msg_read := SignRequest_InternalParse;
  msg_initialized := SignRequest_IsInitialized;
  msg_ok m := SignRequest_wf m /\ SignRequest_sendable m |}.

#[export] Instance SignResponse_message : Message SignResponse := {|
  msg_default := SignResponse_default;
  msg_write := SignResponse_InternalSerialize;
  msg_read := SignResponse_InternalParse;
  msg_initialized := SignResponse_IsInitialized;
  msg_ok m := SignResponse_wf m /\ SignResponse_sendable m |}.

#[export] Instance verifyRequest_message : Message verifyRequest := {|
  msg_default := verifyRequest_default;
  msg_write := verifyRequest_InternalSerialize;
  msg_read := verifyRequest_InternalParse;
  msg_initialized := verifyRequest_IsInitialized;
  msg_ok m := verifyRequest_wf m /\ verifyRequest_sendable m |}.

#[export] Instance verifyResponse_message : Message verifyResponse := {|
  msg_default := verifyResponse_default;
  msg_write := verifyResponse_InternalSerialize;
  msg_read := verifyResponse_InternalParse;
  msg_initialized := verifyResponse_IsInitialized;
  msg_ok m := verifyResponse_wf m /\ verifyResponse_sendable m |}.

Context `{!WireLaws W}.

#[export] Instance UAVIDRequest_message_laws : MessageLaws UAVIDRequest.
Proof. intros m [? ?]. by apply UAVIDRequest_parse_serialize. Qed.

#[export] Instance UAVIDResponse_message_laws : MessageLaws UAVIDResponse.
Proof. intros m [? ?]. by apply UAVIDResponse_parse_serialize. Qed.

#[export] Instance SignRequest_message_laws : MessageLaws SignRequest.
Proof. intros m [? ?]. by apply SignRequest_parse_serialize. Qed.

#[export] Instance SignResponse_message_laws : MessageLaws SignResponse.
Proof. intros m [? ?]. by apply SignResponse_parse_serialize. Qed.

#[export] Instance verifyRequest_message_laws : MessageLaws verifyRequest.
Proof. intros m [? ?]. by apply verifyRequest_parse_serialize. Qed.

#[export] Instance verifyResponse_message_laws : MessageLaws verifyResponse.
Proof. intros m [? ?]. by apply verifyResponse_parse_serialize. Qed.
End Messages.
