(* ===== verification/TA.v ===== *)
(** * brpcTA.cpp: the trusted authority

    Its globals, their initialisation, the handler of the [Register] service
    and the start of the server. *)

From Stdlib Require Import ZArith Lia Ascii String.
From stdpp Require Import base list.
From S2P Require Import Prelude ModArith Primality Text Group Gmp Miracl Tools Coprime Scheme.
From S2P Require Import Verification BrpcTools Wire TAMsg Rpc Link.

Open Scope Z_scope.

Section TA.
Context `{G : GmpOps} `{B : BigOps} `{!HashOps} `{!CurveOps} `{!ClockOps} `{W : WireOps}.

Record TAState : Type := mkTA {
  ta_pp : Params;
  ta_sk : Z;        (** the head's private key *)
  ta_d : list Z;
  ta_b : list Z;
  ta_M : Z;
  ta_t : Z;
}.

(** [push_back] extends the global vectors, which are empty at the start. *)
Definition initParams (st : TAState) : prog TAState :=
  initState state_TA ≫= fun _ =>
  let n := 52 in
  let tm := 20 in
  pa ← Setup n tm;
  let (pp, sk) := pa : Params * Z in
  bd ← for_ (tm - 1) (fun _ (s : list Z * list Z) =>
         let (b, d) := s in
         bi ← rand_mpz state_TA;
         di ← rand_mpz state_TA;
         mret (b ++ [bi], d ++ [di])) (ta_b st, ta_d st);
  let (b, d) := bd : list Z * list Z in
  PK ← lift (getPK b);
  mret (mkTA (set_PK pp PK) sk d b 123456789 (tm / 2 + 1)).

(** The identity that stands for the cluster head. *)
Definition isUAVh : str := replicate 64 "6"%char.

(** The same identity where brpcAgg.cpp writes it as a number. *)
Definition head_id : Z := 0x6666666666666666666666666666666666666666666666666666666666666666.

(** The fields that every caller receives. *)
Definition issue_params (st : TAState) (response : UAVIDResponse) : outcome UAVIDResponse :=
  let pp := ta_pp st in
  let response := UAVIDResponse_mutable_params (Parameters_set_n (pp_n pp)) response in
  let response := UAVIDResponse_mutable_params (Parameters_set_tm (pp_tm pp)) response in
  let response := UAVIDResponse_mutable_params (Parameters_set_q (mpz_to_str (pp_q pp))) response in
  P2 ← ECP2_to_str (pp_P2 pp) true;
  let response := UAVIDResponse_mutable_params (Parameters_set_p2 P2) response in
  let response := UAVIDResponse_mutable_params (Parameters_set_g (mpz_to_str (pp_g pp))) response in
  let response :=
    UAVIDResponse_mutable_params (Parameters_set_beta (mpz_to_str (pp_beta pp))) response in
  PK ← ECP2Arr_to_str (pp_PK pp) true;
  let response := UAVIDResponse_mutable_params (Parameters_set_pk PK) response in
  let response := UAVIDResponse_set_m (mpz_to_str (ta_M st)) response in
  mret (UAVIDResponse_set_t (ta_t st) response).

Definition Register (st : TAState) (request : UAVIDRequest) : prog UAVIDResponse :=
  id ← lift (str_to_mpz (UAVIDRequest_get_uav_id request));
  response ← lift (issue_params st UAVIDResponse_default);
  if bool_decide (UAVIDRequest_get_uav_id request <> isUAVh) then
    uav ← getUAV (ta_pp st) (ta_d st) (ta_b st) id;
    cj ← lift (mpzArr_to_str (u_c1 uav));
    let response := UAVIDResponse_set_cj cj response in
    sj ← lift (mpzArr_to_str (u_c2 uav));
    mret (UAVIDResponse_set_sj sj response)
  else mret (UAVIDResponse_set_sj (mpz_to_str (ta_sk st)) response).

(** The default of the flag port_ta. *)
Definition FLAGS_port_ta : Z := 8000.

Definition startServerTA `{ServerOps} (listen_addr : str) : Z :=
  start_server listen_addr FLAGS_port_ta.
End TA.

(** * What the TA promises *)

Local Notation q := curve_order.

Section TAFacts.
Context `{GL : GmpLaws} `{BL : BigLaws} `{HL : !HashLaws HO} `{CL : !CurveLaws CO} `{!ClockOps}.
Context `{WL : WireLaws}.

(** The state after the initialisation: parameters over the curve, one public
    key for each prefix of the coefficients, a threshold they allow. *)
Record ta_ok (st : TAState) : Prop := {
  ta_wf : wf_params (ta_pp st) (ta_sk st);
  ta_sk_range : ta_sk st <= q;
  ta_b_range : in_range (ta_b st);
  ta_d_range : in_range (ta_d st);
  ta_b_len : (1 <= length (ta_b st) <= 1000)%nat;
  ta_d_len : length (ta_d st) = length (ta_b st);
  ta_PK_len : length (pp_PK (ta_pp st)) = length (ta_b st);
  ta_PK i P : pp_PK (ta_pp st) !! i = Some P -> P =2= mul2 (secret (ta_b st) (S i)) ECP2_generator;
  ta_n_int : is_int32 (pp_n (ta_pp st));
  ta_tm_int : is_int32 (pp_tm (ta_pp st));
  ta_t_range : 2 <= ta_t st <= Z.of_nat (length (ta_b st)) + 1;
  ta_M_range : 0 <= ta_M st < 2 ^ 256;
}.

Lemma initParams_spec st w :
  ta_b st = [] -> ta_d st = [] ->
  initParams st @ w ⇓ fun st' w' =>
    later w w' /\ ready state_gmp w' /\ ta_ok st' /\ pp_n (ta_pp st') = 52
    /\ pp_tm (ta_pp st') = 20 /\ ta_t st' = 11 /\ ta_M st' = 123456789
    /\ length (ta_b st') = 19%nat.
Proof.
  intros Hb0 Hd0. pose proof order_256. unfold initParams. rewrite Hb0, Hd0. step.
  apply runs_initState. intros w1 Hw1 _ Hr1. step.
  call Setup_spec. intros [pp sk] w2 (Hw2 & Hr2 & Hpp & Hg & Ha & Hn & Htm & _).
  unfold fst, snd in *. step.
  assert (Hready : ready state_TA w2) by (apply Hw2; by eexists).
  apply ready_rng_at in Hready as [s Hs].
  call (draw_coefficients_spec state_TA 20); [exact Hs|lia|].
  intros [b d] w3 (Hw3 & _ & Hb & Hd & Hlb & Hld). simpl in Hb, Hd, Hlb, Hld. step. step.
  call getPK_spec.
  { intros ->. simpl in Hlb. done. }
  { eapply Forall_impl; [exact Hb|]. simpl. intros. lia. }
  intros PK [HlPK HPK]. step.
  assert (Hready : ready state_gmp w3) by (apply Hw3; by eexists).
  split_and!; simpl; try done.
  - by transitivity w1; [|transitivity w2].
  - split; simpl; try done; try lia.
    + destruct Hpp. by split.
    + rewrite Ha. pose proof (draw_range (next_seed w1) 1). lia.
    + rewrite Hn. vm_compute. split; congruence.
    + rewrite Htm. vm_compute. split; congruence.
    + change (20 / 2 + 1) with 11. lia.
Qed.

(** ** Reading the issued parameters *)

Lemma G2_generator_finite : ~ ECP2_generator =2= ECP2_inf.
Proof.
  intros Hinf. apply pair_nondegenerate. rewrite Hinf.
  rewrite <- (zmul_0 ECP2_generator). fold (mul2 0 ECP2_generator).
  by rewrite pair_mul_r by (apply G1_generator || apply G2_generator).
Qed.

Definition finite_keys (st : TAState) : Prop :=
  Forall (fun P => ~ P =2= ECP2_inf) (pp_PK (ta_pp st)).

Lemma G1_generator_finite : ~ ECP_generator =1= ECP_inf.
Proof.
  intros Hinf. apply pair_nondegenerate. rewrite Hinf.
  rewrite <- (zmul_0 ECP_generator). fold (mul1 0 ECP_generator).
  by rewrite pair_mul_l by (apply G1_generator || apply G2_generator).
Qed.

Lemma key_finite s : 0 <= s -> ~ s ≡[q] 0 -> ~ mul2 s ECP2_generator =2= ECP2_inf.
Proof.
  intros Hs Hu Hinf. apply G1_generator_finite, (G1_mul_unit s); [done..|apply G1_generator|].
  apply pair_inj; [by apply G1_mul, G1_generator|apply G1_inf|].
  pose proof (zmul_0 (add:=ECP_add) ECP_generator) as H0. rewrite pair_mul_l by (apply G1_generator || apply G2_generator).
  rewrite <- pair_mul_r by (apply G1_generator || apply G2_generator). rewrite Hinf.
  rewrite <- (zmul_0 ECP2_generator), <- H0. fold (mul2 0 ECP2_generator) (mul1 0 ECP_generator).
  by rewrite pair_mul_r, pair_mul_l by (apply G1_generator || apply G2_generator).
Qed.

(** No public key is infinity when no coefficient is zero modulo [q]. *)
Lemma finite_keys_units st :
  ta_ok st -> Forall (fun b => ~ b ≡[q] 0) (ta_b st) -> finite_keys st.
Proof.
  intros Hta Hu. apply Forall_lookup. intros i P HP. rewrite (ta_PK _ Hta i P HP).
  pose proof (ta_PK_len _ Hta) as Hl. apply lookup_lt_Some in HP.
  apply key_finite.
  - apply bigprod_nonneg. intros j _. apply in_range_lookup, Hta.
  - apply bigprod_unit; [apply curve_order_prime|]. intros j Hj. rewrite Forall_lookup in Hu.
    apply (Hu j). apply list_lookup_lookup_total_lt. lia.
Qed.

(** A response that carries the TA's parameters, message and threshold. *)
Record issued (st : TAState) (r : UAVIDResponse) : Prop := {
  is_wf : UAVIDResponse_wf r;
  is_send : UAVIDResponse_sendable r;
  is_params w : read_params (UAVIDResponse_get_params r) @ w ⇓ fun pp w' =>
    params_eqv pp (ta_pp st) /\ w' = w;
  is_m : str_to_mpz (UAVIDResponse_get_m r) = Ok (ta_M st);
  is_t : UAVIDResponse_get_t r = ta_t st;
}.

Lemma small_le s n : vec_size s <= n -> n < 2 ^ 30 -> small s.
Proof. unfold small. lia. Qed.

(** The sub-message is as long as its strings, up to 72 bytes of tags. *)
Lemma Parameters_small p n :
  Parameters_sendable p ->
  vec_size (Parameters_q_ p) + vec_size (Parameters_p2_ p) + vec_size (Parameters_g_ p)
    + vec_size (Parameters_beta_ p) + vec_size (Parameters_pk_ p) <= n ->
  n < 2 ^ 29 -> small (Parameters_InternalSerialize p).
Proof.
  intros Hp Hle Hn. unfold small. rewrite <- (Parameters_byte_size_ok p Hp).
  unfold Parameters_ByteSizeLong. rewrite (proj1 Hp), ufs_have_empty.
  pose proof (bytes_size_bound (Parameters_q_ p)). pose proof (bytes_size_bound (Parameters_p2_ p)).
  pose proof (bytes_size_bound (Parameters_g_ p)). pose proof (bytes_size_bound (Parameters_beta_ p)).
  pose proof (bytes_size_bound (Parameters_pk_ p)).
  pose proof (int32_size_bound (Parameters_n_ p)). pose proof (int32_size_bound (Parameters_tm_ p)).
  unfold vec_size in *. repeat case_match; lia.
Qed.

Lemma issue_params_spec st :
  ta_ok st -> finite_keys st -> issue_params st UAVIDResponse_default ⇓ issued st.
Proof.
  intros Hta Hfin. pose proof order_256. pose proof order_gt_1.
  destruct Hta as [Hwf Hsk Hb Hd Hlb Hld HlPK HPK Hn Htm Ht HM].
  pose proof (wf_beta_range _ _ Hwf) as Hbeta. pose proof (wf_g _ _ Hwf) as Hg.
  assert (HP2 : ~ pp_P2 (ta_pp st) =2= ECP2_inf).
  { rewrite (wf_P2 _ _ Hwf). apply G2_generator_finite. }
  unfold issue_params. step. call (ECP2_roundtrip _ HP2).
  intros sP2 (_ & _ & HsP2 & P2' & HP2' & HrP2). step. call (ECP2Arr_roundtrip _ Hfin).
  intros sPK [HsPK HrPK]. step.
  assert (Hsm : forall z, 0 <= z < 2 ^ 256 -> small (mpz_to_str z)).
  { intros z Hz. apply (small_le _ 64); [by apply mpz_str_size|lia]. }
  split.
  - unfold UAVIDResponse_wf, Parameters_wf. cbn. split_and!; try done; try lia.
    intros _. eexists. split; [done|]. cbn. by split_and!.
  - unfold UAVIDResponse_sendable, Parameters_sendable. cbn.
    assert (Hq : 0 <= pp_q (ta_pp st) < 2 ^ 256) by (rewrite (wf_q _ _ Hwf); lia).
    assert (HsPK' : small sPK) by (apply (small_le _ (387 * 1000)); unfold vec_size in *; lia).
    assert (HsP2' : small sP2) by (apply (small_le _ 386); lia).
    assert (Hti : is_int32 (ta_t st)) by (unfold is_int32; lia).
    split_and!; try done; try (apply Hsm; lia).
    apply (Parameters_small _ (64 + 386 + 64 + 64 + 387 * 1000)); [|cbn|lia].
    + unfold Parameters_sendable. cbn. by split_and!; try apply Hsm; lia || done.
    + pose proof (mpz_str_size (pp_q (ta_pp st)) Hq).
      pose proof (mpz_str_size (pp_g (ta_pp st)) ltac:(lia)).
      pose proof (mpz_str_size (pp_beta (ta_pp st)) ltac:(lia)). unfold vec_size in *. lia.
  - intros w. unfold read_params. cbn. unfold Parameters_get_q, Parameters_get_g, Parameters_get_beta,
      Parameters_get_p2, Parameters_get_pk. cbn.
    step. rewrite !mpz_roundtrip. step. step. step. step. step. step. step. step. step.
    eapply runs_eq; [apply HrP2|]. step. call (HrPK w). intros PK' w' [HPK' ->]. step.
    split; [|done]. by split.
  - cbn. apply mpz_roundtrip.
  - done.
Qed.
(** The two fields that depend on the caller do not touch the others. *)
Lemma issued_cj st r c : small c -> issued st r -> issued st (UAVIDResponse_set_cj c r).
Proof.
  intros Hc [Hwf (Hu & _ & Hs) Hp Hm Ht].
  destruct (UAVIDResponse_accessors_ok r Hwf) as [Ha _]. destruct (Ha c) as (_ & _ & _ & _ & Hwf' & _).
  destruct r. by split.
Qed.

Lemma issued_sj st r c : small c -> issued st r -> issued st (UAVIDResponse_set_sj c r).
Proof.
  intros Hc [Hwf (Hu & Hcj & _ & Hs) Hp Hm Ht].
  destruct (UAVIDResponse_accessors_ok r Hwf) as (_ & Ha & _). destruct (Ha c) as (_ & _ & _ & _ & Hwf' & _).
  destruct r. by split.
Qed.

(** The ciphertexts of a UAV travel as lists of short numerals. *)
Lemma shares_str pp b d uav :
  holds_shares pp b d uav -> (length b <= 1000)%nat ->
  exists cj sj, mpzArr_to_str (u_c1 uav) = Ok cj /\ mpzArr_to_str (u_c2 uav) = Ok sj
    /\ small cj /\ small sj /\ str_to_mpzArr cj = Ok (u_c1 uav) /\ str_to_mpzArr sj = Ok (u_c2 uav).
Proof.
  intros (Hl1 & Hl2 & Henc) Hlb. pose proof order_256 as H256.
  assert (Hfit : forall l, length l = length b -> Forall (fun z => 0 <= z < 2 ^ 256) l ->
    exists s, mpzArr_to_str l = Ok s /\ small s /\ str_to_mpzArr s = Ok l).
  { intros l Hl Hf. destruct (proj1 (returns_ok _ _) (mpzArr_size l Hf)) as (s & Hs & Hlen).
    exists s. split_and!; [done| |].
    - apply (small_le _ (79 * 1000)); unfold vec_size in *; lia.
    - pose proof (mpzArr_roundtrip l) as Hr. by rewrite Hs in Hr. }
  destruct (Hfit (u_c1 uav)) as (cj & ? & ? & ?); [done| |].
  { apply Forall_lookup. intros i c1 Hc1. destruct (lookup_lt_is_Some_2 (u_c2 uav) i) as [c2 Hc2].
    { apply lookup_lt_Some in Hc1. lia. }
    destruct (Henc i c1 c2 Hc1 Hc2) as (u & _ & ? & _). lia. }
  destruct (Hfit (u_c2 uav)) as (sj & ? & ? & ?); [done| |by exists cj, sj].
  apply Forall_lookup. intros i c2 Hc2. destruct (lookup_lt_is_Some_2 (u_c1 uav) i) as [c1 Hc1].
  { apply lookup_lt_Some in Hc2. lia. }
  destruct (Henc i c1 c2 Hc1 Hc2) as (u & _ & _ & ? & _). lia.
Qed.

(** ** The [Register] service *)

(** The reply to a UAV or a verifier: its shares, under its own identity. *)
Definition reply_shares (st : TAState) (id : Z) (r : UAVIDResponse) : Prop :=
  issued st r /\ exists c1 c2,
    str_to_mpzArr (UAVIDResponse_get_cj r) = Ok c1 /\ str_to_mpzArr (UAVIDResponse_get_sj r) = Ok c2
    /\ holds_shares (ta_pp st) (ta_b st) (ta_d st) (mkUAV c1 c2 id).

(** The reply to the cluster head: the private key. *)
Definition reply_key (st : TAState) (r : UAVIDResponse) : Prop :=
  issued st r /\ str_to_mpz (UAVIDResponse_get_sj r) = Ok (ta_sk st).

Lemma Register_shares st request id w :
  ta_ok st -> finite_keys st -> ready state_gmp w ->
  str_to_mpz (UAVIDRequest_get_uav_id request) = Ok id -> 0 <= id ->
  UAVIDRequest_get_uav_id request <> isUAVh ->
  Register st request @ w ⇓ fun r w' => later w w' /\ reply_shares st id r.
Proof.
  intros Hta Hfin Hw Hid Hpos Hne. apply ready_rng_at in Hw as [s Hs]. pose proof Hta as Hta'.
  destruct Hta' as [Hwf _ Hb Hd Hlb Hld]. unfold Register. step. rewrite Hid. step. step. step. step.
  call issue_params_spec; [done|done|]. intros r Hr. rewrite bool_decide_eq_true_2 by done. step.
  call (getUAV_spec (ta_pp st) (ta_sk st)); [done|done|done|lia|done|exact Hs|].
  intros uav w' (Hw' & _ & Huid & Hsh). destruct (shares_str _ _ _ _ Hsh) as
    (cj & sj & Hcj & Hsj & Hscj & Hssj & Hrcj & Hrsj); [lia|].
  step. rewrite Hcj. step. step. rewrite Hsj. step. split; [done|]. split.
  - by apply issued_sj, issued_cj.
  - exists (u_c1 uav), (u_c2 uav). split_and!; [done|done|]. destruct uav. simpl in *. by subst.
Qed.

Lemma mpz_to_str_head : mpz_to_str head_id = isUAVh.
Proof. unfold mpz_to_str. rewrite get_str_spec by auto. reflexivity. Qed.

(** Whoever sends the head's identity receives the head's key; nothing else
    of the caller is checked. *)
Lemma Register_key st request w :
  ta_ok st -> finite_keys st -> UAVIDRequest_get_uav_id request = isUAVh ->
  Register st request @ w ⇓ fun r w' => w' = w /\ reply_key st r.
Proof.
  intros Hta Hfin Hid. unfold Register. rewrite Hid. step.
  rewrite <- mpz_to_str_head at 1. rewrite mpz_roundtrip. step. step. step. step. call issue_params_spec; [done|done|]. intros r Hr. rewrite bool_decide_eq_false_2 by tauto. step.
  split; [done|]. split; [|apply mpz_roundtrip]. apply issued_sj; [|done].
  pose proof order_256. destruct Hta. apply (small_le _ 64); [|lia].
  apply mpz_str_size. pose proof (wf_alpha _ _ ta_wf0). lia.
Qed.

(** An identity that is no hexadecimal number throws. *)
Lemma Register_malformed st request w e :
  str_to_mpz (UAVIDRequest_get_uav_id request) = Fault e ->
  Register st request w = Fault e.
Proof. intros E. unfold Register, mbind, stm_bind, lift. by rewrite E. Qed.

(** What the TA's stub promises its clients while the server is [up]. *)
Class RegisterService (st : TAState) {N} (up : N -> Prop)
    (stub : rpc N UAVIDRequest UAVIDResponse) : Prop := {
  register_shares net id : up net -> 0 <= id < 2 ^ 256 -> id <> head_id ->
    exists r net', stub (UAVIDRequest_set_uav_id (mpz_to_str id) UAVIDRequest_default) net
      = (Some r, net') /\ up net' /\ reply_shares st id r;
  register_key net : up net ->
    exists r net', stub (UAVIDRequest_set_uav_id (mpz_to_str head_id) UAVIDRequest_default) net
      = (Some r, net') /\ up net' /\ reply_key st r;
}.

Lemma id_request_ok id :
  0 <= id < 2 ^ 256 ->
  let request := UAVIDRequest_set_uav_id (mpz_to_str id) UAVIDRequest_default in
  msg_ok request /\ msg_initialized request = true
  /\ UAVIDRequest_get_uav_id request = mpz_to_str id.
Proof.
  intros Hid request. split_and!; [|done|done]. split.
  - unfold UAVIDRequest_wf. cbn. done.
  - split; [done|]. apply (small_le _ 64); [by apply mpz_str_size|lia].
Qed.

(** The handler, behind the wire, keeps the promise. *)
#[export] Instance Register_service st :
  ta_ok st -> finite_keys st -> RegisterService st (ready state_gmp) (remote (Register st)).
Proof.
  intros Hta Hfin. split.
  - intros w id Hw Hid Hne. destruct (id_request_ok id Hid) as (Hok & Hi & Hget).
    apply (remote_ok (Register st) _ w (fun r w' => ready state_gmp w' /\ reply_shares st id r));
      [done..|]. call Register_shares; [done..| | | |].
    + by rewrite Hget, mpz_roundtrip.
    + lia.
    + rewrite Hget, <- mpz_to_str_head. intros E. apply Hne.
      pose proof (mpz_roundtrip id) as Hr. rewrite E, mpz_roundtrip in Hr. congruence.
    + intros r w' [Hw' Hr]. split_and!; [|done|by apply Hw'|done]. split; apply Hr.
  - intros w Hw. destruct (id_request_ok head_id ltac:(done)) as (Hok & Hi & Hget).
    apply (remote_ok (Register st) _ w (fun r w' => ready state_gmp w' /\ reply_key st r));
      [done..|]. call Register_key; [done..| |].
    + by rewrite Hget, mpz_to_str_head.
    + intros r w' [-> Hr]. split_and!; [|done|done|done]. split; apply Hr.
Qed.
End TAFacts.
