(* ===== verification/UAVNode.v ===== *)
(** * brpcUAV.cpp: a UAV

    It registers with the TA, keeps its encrypted shares, and signs what the
    cluster head asks it to sign. *)

From Stdlib Require Import ZArith Lia Ascii String.
From stdpp Require Import base list.
From S2P Require Import Prelude ModArith Primality Text Group Gmp Miracl Tools Coprime Scheme.
From S2P Require Import Verification BrpcTools Wire UAVMsg TAMsg Rpc Link TA.

Open Scope Z_scope.

Section UAVNode.
Context `{G : GmpOps} `{B : BigOps} `{!HashOps} `{!CurveOps} `{!ClockOps} `{W : WireOps}.

Record UAVState : Type := mkUAVState {
  us_pp : Params;
  us_uav : UAV;
}.

(** The handler of the [sign] service. *)
Definition sign (st : UAVState) (request : SignRequest) : outcome SignResponse :=
  M ← str_to_mpz (SignRequest_get_m request);
  sig ← Sign (us_pp st) (us_uav st) (SignRequest_get_t request) M;
  let response := SignResponse_set_cj (mpz_to_str (ps_cj sig)) SignResponse_default in
  s ← ECP_to_str (ps_sig sig);
  let response := SignResponse_set_sig s response in
  mret (SignResponse_set_id (mpz_to_str (ps_ID sig)) response).

(** [init] is the result of [channel.Init], [quit] that of [IsAskedToQuit],
    [stub] the method [Register] of the stub. *)
Definition registerUAV {N} (init : Z) (quit : bool) (stub : rpc N UAVIDRequest UAVIDResponse)
    (st : UAVState) (net : N) : prog (Z * UAVState * N) :=
  if negb (init =? 0) then mret (-1, st, net)
  else if quit then mret (1, st, net)
  else
    initState state_UAV ≫= fun _ =>
    id ← rand_mpz state_UAV;
    let request := UAVIDRequest_set_uav_id (mpz_to_str id) UAVIDRequest_default in
    let (res, net') := stub request net in
    match res with
    | Some response =>
        pp ← read_params (UAVIDResponse_get_params response);
        c1 ← lift (str_to_mpzArr (UAVIDResponse_get_cj response));
        c2 ← lift (str_to_mpzArr (UAVIDResponse_get_sj response));
        mret (1, mkUAVState pp (mkUAV c1 c2 id), net')
    | None => mret (1, st, net')
    end.

(** The default of the flag port_UAV. *)
Definition FLAGS_port_UAV : Z := 8002.

Definition startUAVServer `{ServerOps} (listen_addr : str) : Z :=
  start_server listen_addr FLAGS_port_UAV.
End UAVNode.

(** * What a UAV does with its reply, and what it promises the head *)

Local Notation q := curve_order.

Section UAVFacts.
Context `{GL : GmpLaws} `{BL : BigLaws} `{HL : !HashLaws HO} `{CL : !CurveLaws CO} `{!ClockOps}.
Context `{WL : WireLaws}.
Context (ta : TAState).

Record registered (id : Z) (st : UAVState) : Prop := {
  rg_params : params_eqv (us_pp st) (ta_pp ta);
  rg_id : u_ID (us_uav st) = id;
  rg_shares : holds_shares (us_pp st) (ta_b ta) (ta_d ta) (us_uav st);
}.

Lemma registerUAV_spec `{RS : !RegisterService ta (N:=Net) up stub} st net w :
  up net -> draw (next_seed w) 0 <> head_id ->
  registerUAV 0 false stub st net @ w ⇓ fun r w' =>
    fst (fst r) = 1 /\ up (snd r) /\ later w w' /\ registered (draw (next_seed w) 0) (snd (fst r)).
Proof.
  intros Hup Hne. pose proof order_256. pose proof (draw_range (next_seed w) 0) as Hd.
  unfold registerUAV. simpl. step. apply runs_initState. intros w1 Hw1 _ Hr1. step.
  apply (runs_rand _ _ _ _ _ Hr1). intros w2 Hr2 Hw2.
  destruct (register_shares net (draw (next_seed w) 0)) as (r & net' & -> & Hup' & Hiss & Hsh);
    [done|lia|done|]. destruct Hsh as (c1 & c2 & Hc1 & Hc2 & Hsh).
  step. call (is_params _ _ Hiss w2). intros pp w3 [Hpp ->]. step. step. rewrite Hc1. step. step.
  step. rewrite Hc2. step. step. simpl. split_and!; [done|done|by transitivity w1|].
  split; simpl; [done|done|]. by eapply params_eqv_shares.
Qed.

(** A call that failed leaves the UAV as it was; the result is 1 all the same. *)
Lemma registerUAV_failed {N} (stub : rpc N UAVIDRequest UAVIDResponse) st net w :
  (forall request, fst (stub request net) = None) ->
  registerUAV 0 false stub st net @ w ⇓ fun r w' => fst r = (1, st) /\ later w w'
    /\ exists request, snd r = snd (stub request net).
Proof.
  intros Hf. unfold registerUAV. simpl. step. apply runs_initState. intros w1 Hw1 _ Hr1. step.
  apply (runs_rand _ _ _ _ _ Hr1). intros w2 Hr2 Hw2. set (request := UAVIDRequest_set_uav_id _ _).
  specialize (Hf request). destruct (stub request net) as [res net'] eqn:E. simpl in Hf. subst res.
  step. split_and!; [done|by transitivity w1|]. exists request. by rewrite E.
Qed.

(** ** The [sign] service *)

(** The degree of the polynomial that the threshold selects. *)
Definition degree : nat := Z.to_nat (ta_t ta - 1).
Definition share (id : Z) : Z := share_poly (ta_b ta) (ta_d ta) degree id.

(** A message whose hash is a finite point, and a generator that is a unit. *)
Record live (Hm : ECP) : Prop := {
  lv_ta : ta_ok ta;
  lv_g : ~ pp_g (ta_pp ta) ≡[q] 0;
  lv_hash : hashToPoint (ta_M ta) q = Ok Hm;
  lv_G1 : in_G1 Hm;
  lv_finite : ~ Hm =1= ECP_inf;
}.

Lemma degree_t : ta_ok ta -> ta_t ta = Z.of_nat degree + 1 /\ (1 <= degree <= length (ta_b ta))%nat.
Proof. intros Hta. pose proof (ta_t_range _ Hta). unfold degree. lia. Qed.

Lemma beta_unit Hm : live Hm -> ~ pp_beta (ta_pp ta) ≡[q] 0.
Proof.
  intros Hl. pose proof (ta_wf _ (lv_ta _ Hl)) as Hwf. rewrite (wf_beta _ _ Hwf), cong_mod.
  apply unit_pow; [apply curve_order_prime|apply (wf_alpha _ _ Hwf)|apply Hl].
Qed.

(** An encrypted share that is not zero gives a finite signature. *)
Lemma scaled_finite Hm V s f P :
  live Hm -> 0 <= V -> 0 <= s -> ~ f ≡[q] 0 -> P =1= mul1 s Hm ->
  s ≡[q] pp_beta (ta_pp ta) ^ V * f -> ECP_isinf P = false.
Proof.
  intros Hl HV Hs Hf HP Hsx. destruct (ECP_isinf P) eqn:E; [exfalso|done].
  apply ECP_isinf_spec in E. rewrite HP in E. apply (lv_finite _ Hl), (G1_mul_unit s); try done.
  - rewrite Hsx. apply unit_mul; [apply curve_order_prime| |done].
    apply unit_pow; [apply curve_order_prime|done|by eapply beta_unit].
  - apply Hl.
Qed.

Definition reply_sig (Hm : ECP) (id : Z) (r : SignResponse) : Prop :=
  exists cj P, str_to_mpz (SignResponse_get_cj r) = Ok cj
    /\ str_to_mpz (SignResponse_get_id r) = Ok id /\ str_to_ECP (SignResponse_get_sig r) = Ok P
    /\ parsig_ok (ta_pp ta) share Hm (mkParSig cj P id).

(** The request that the head sends. *)
Definition sign_request : SignRequest :=
  SignRequest_set_t (ta_t ta) (SignRequest_set_m (mpz_to_str (ta_M ta)) SignRequest_default).

Lemma sign_spec Hm id st :
  live Hm -> registered id st -> 0 <= id < 2 ^ 256 -> ~ share id ≡[q] 0 ->
  sign st sign_request ⇓ fun r =>
    msg_ok r /\ msg_initialized r = true /\ reply_sig Hm id r.
Proof.
  intros Hl [Hpp Hid Hsh] Hrange Hf. pose proof order_256. pose proof (lv_ta _ Hl) as Hta.
  destruct (degree_t Hta) as [Ht Hdeg].
  assert (Hwf : wf_params (us_pp st) (ta_sk ta)) by (eapply params_eqv_wf; [done|apply Hta]).
  unfold sign. step. change (SignRequest_get_m sign_request) with (mpz_to_str (ta_M ta)).
  rewrite mpz_roundtrip. step. step. change (SignRequest_get_t sign_request) with (ta_t ta).
  rewrite Ht. call (Sign_spec (us_pp st) (ta_sk ta)); [done|exact Hsh|lia|apply Hl|].
  intros ps [Hpid (U & s & HU & Hs & Hcj & Hcjx & Hsig & Hsx)].
  rewrite (pe_g _ _ Hpp) in Hcjx. rewrite (pe_beta _ _ Hpp) in Hsx.
  rewrite Hpid, Hid in Hsx. fold (share id) in Hsx.
  assert (Hfin : ECP_isinf (ps_sig ps) = false) by by eapply (scaled_finite Hm U s (share id)).
  step. call (ECP_roundtrip _ Hfin). intros sg (_ & _ & Hlen & Hback). step. rewrite Hpid, Hid.
  apply returns_ok in Hback as (P & HP & HPeq). split_and!; [|done|].
  - split; [unfold SignResponse_wf; cbn; done|]. split_and!; [done| | |]; cbn.
    + apply (small_le _ 64); [apply mpz_str_size; lia|lia].
    + apply (small_le _ 193); [done|lia].
    + apply (small_le _ 64); [by apply mpz_str_size|lia].
  - exists (ps_cj ps), P. cbn. split_and!; [apply mpz_roundtrip|apply mpz_roundtrip|done|].
    exists U, s. simpl. split_and!; try done; try lia. by rewrite HPeq.
Qed.

Lemma sign_request_ok :
  ta_ok ta -> msg_ok sign_request /\ msg_initialized sign_request = true.
Proof.
  intros []. split; [|done]. split; [unfold SignRequest_wf; cbn; done|]. split_and!; [done| |]; cbn.
  - apply (small_le _ 64); [by apply mpz_str_size|lia].
  - unfold is_int32. lia.
Qed.

(** What a UAV's stub promises the head. *)
Class SignService (Hm : ECP) (id : Z) {N} (up : N -> Prop) (stub : rpc N SignRequest SignResponse)
    : Prop :=
  sign_reply net : up net -> exists r net',
    stub sign_request net = (Some r, net') /\ up net' /\ reply_sig Hm id r.

#[export] Instance sign_service Hm id st :
  live Hm -> registered id st -> 0 <= id < 2 ^ 256 -> ~ share id ≡[q] 0 ->
  SignService Hm id (fun _ => True) (remote (fun request => lift (sign st request))).
Proof.
  intros Hl Hreg Hid Hf w _. destruct (sign_request_ok (lv_ta _ Hl)) as [Hok Hi].
  apply (remote_ok _ _ w (fun r w' => True /\ reply_sig Hm id r)); [done..|].
  step. call (sign_spec Hm id); [done..|]. naive_solver.
Qed.
End UAVFacts.
