(* ===== verification/Aggregator.v ===== *)
(** * brpcAgg.cpp: the cluster head

    It fetches its key from the TA, collects the partial signatures of [t]
    UAVs, and re-encrypts them for each verifier that asks. *)

From Stdlib Require Import ZArith Lia Ascii String.
From stdpp Require Import base list.
From S2P Require Import Prelude ModArith Primality Text Group Gmp Miracl Tools Coprime Scheme.
From S2P Require Import Verification BrpcTools Wire UAVMsg TAMsg AggMsg Rpc Link TA UAVNode.

Open Scope Z_scope.

Section Aggregator.
Context `{G : GmpOps} `{B : BigOps} `{!HashOps} `{!CurveOps} `{!ClockOps} `{W : WireOps}.
Context (fuel : nat).

Record AggState : Type := mkAgg {
  ag_pp : Params;
  ag_uavH : UAV_h;
  ag_M : Z;
  ag_t : Z;
  ag_sigmas : list parSig;
}.

(** The handler of the [Tran] service. *)
Definition Tran (st : AggState) (request : verifyRequest) : prog verifyResponse :=
  pk_v ← lift (str_to_mpz (verifyRequest_get_pk_v request));
  sig ← AggSig fuel (ag_sigmas st) (ag_pp st) (ag_uavH st) pk_v;
  auxs ← lift (mpzArr_to_str (sg_aux sig));
  let response := verifyResponse_set_auxs auxs verifyResponse_default in
  sigs ← lift (ECPArr_to_str (sg_sig sig));
  let response := verifyResponse_set_sigs sigs response in
  ids ← lift (mpzArr_to_str (sg_IDs sig));
  mret (verifyResponse_set_ids ids response).

Definition getPpAndSk {N} (init : Z) (quit : bool) (stub : rpc N UAVIDRequest UAVIDResponse)
    (st : AggState) (net : N) : prog (Z * AggState * N) :=
  if negb (init =? 0) then mret (-1, st, net)
  else if quit then mret (1, st, net)
  else
    initState state_Agg ≫= fun _ =>
    let request := UAVIDRequest_set_uav_id (mpz_to_str head_id) UAVIDRequest_default in
    let (res, net') := stub request net in
    match res with
    | Some response =>
        pp ← read_params (UAVIDResponse_get_params response);
        alpha ← lift (str_to_mpz (UAVIDResponse_get_sj response));
        M ← lift (str_to_mpz (UAVIDResponse_get_m response));
        mret (1, mkAgg pp (mkUAV_h head_id alpha) M (UAVIDResponse_get_t response)
                   (ag_sigmas st), net')
    | None => mret (1, st, net')
    end.

Definition server_address (i : Z) : str := lit "0.0.0.0:" ++ numeral 10 (8002 + i).

Definition push_sigma (sigma : parSig) (st : AggState) : AggState :=
  mkAgg (ag_pp st) (ag_uavH st) (ag_M st) (ag_t st) (ag_sigmas st ++ [sigma]).

(** The loop over the ports, from iteration [i] on, [k] of them left; [init],
    [quit] and [stub] may differ from one UAV to the next. *)
Fixpoint collect_loop {N} (k : nat) (i : Z) (init : str -> Z) (quit : Z -> bool)
    (stub : str -> rpc N SignRequest SignResponse) (st : AggState) (net : N)
    : prog (Z * AggState * N) :=
  match k with
  | O => mret (1, st, net)
  | S k' =>
      if negb (init (server_address i) =? 0) then mret (-1, st, net)
      else if quit i then collect_loop k' (i + 1) init quit stub st net
      else
        initState state_Agg ≫= fun _ =>
        let request := SignRequest_set_t (ag_t st)
                         (SignRequest_set_m (mpz_to_str (ag_M st)) SignRequest_default) in
        let (res, net') := stub (server_address i) request net in
        match res with
        | Some response =>
            cj ← lift (str_to_mpz (SignResponse_get_cj response));
            ID ← lift (str_to_mpz (SignResponse_get_id response));
            sig ← lift (str_to_ECP (SignResponse_get_sig response));
            collect_loop k' (i + 1) init quit stub (push_sigma (mkParSig cj sig ID) st) net'
        | None => collect_loop k' (i + 1) init quit stub st net'
        end
  end.

Definition collectParSigs {N} (init : str -> Z) (quit : Z -> bool)
    (stub : str -> rpc N SignRequest SignResponse) (st : AggState) (net : N)
    : prog (Z * AggState * N) :=
  collect_loop (Z.to_nat (ag_t st)) 0 init quit stub st net.

(** The default of the flag port_agg. *)
Definition FLAGS_port_agg : Z := 8001.

Definition startServerTran `{ServerOps} (listen_addr : str) : Z :=
  start_server listen_addr FLAGS_port_agg.
End Aggregator.

(** * What the head collects, and what it promises the verifiers *)

Local Notation q := curve_order.

Section AggFacts.
Context `{GL : GmpLaws} `{BL : BigLaws} `{HL : !HashLaws HO} `{CL : !CurveLaws CO} `{!ClockOps}.
Context `{WL : WireLaws}.
Context (ta : TAState) (Hm : ECP).

(** The head holds the TA's parameters, message and threshold, and its key. *)
Record head_ok (st : AggState) : Prop := {
  ho_params : params_eqv (ag_pp st) (ta_pp ta);
  ho_key : h_alpha (ag_uavH st) = ta_sk ta;
  ho_M : ag_M st = ta_M ta;
  ho_t : ag_t st = ta_t ta;
}.

Lemma getPpAndSk_spec `{RS : !RegisterService ta (N:=Net) up stub} st net w :
  up net ->
  getPpAndSk 0 false stub st net @ w ⇓ fun r w' =>
    fst (fst r) = 1 /\ up (snd r) /\ later w w' /\ head_ok (snd (fst r))
    /\ ag_sigmas (snd (fst r)) = ag_sigmas st.
Proof.
  intros Hup. unfold getPpAndSk. simpl. step. apply runs_initState. intros w1 Hw1 _ _.
  destruct (register_key net) as (r & net' & -> & Hup' & Hiss & Hsk); [done|].
  step. call (is_params _ _ Hiss w1). intros pp w2 [Hpp ->]. step. step. rewrite Hsk. step. step.
  step. rewrite (is_m _ _ Hiss). step. step. simpl. split_and!; try done.
  split; simpl; try done. apply Hiss.
Qed.

(** As for a UAV, a failed call changes nothing and is not reported. *)
Lemma getPpAndSk_failed {N} (stub : rpc N UAVIDRequest UAVIDResponse) st net w :
  (forall request, fst (stub request net) = None) ->
  getPpAndSk 0 false stub st net @ w ⇓ fun r w' => fst r = (1, st) /\ later w w'
    /\ exists request, snd r = snd (stub request net).
Proof.
  intros Hf. unfold getPpAndSk. simpl. step. apply runs_initState. intros w1 Hw1 _ _.
  set (request := UAVIDRequest_set_uav_id _ _).
  specialize (Hf request). destruct (stub request net) as [res net'] eqn:E. simpl in Hf. subst res.
  step. split_and!; [done|done|]. exists request. by rewrite E.
Qed.

(** ** Collecting *)

Definition collected (ids : list Z) (sigs : list parSig) : Prop :=
  map ps_ID sigs = ids /\ Forall (parsig_ok (ta_pp ta) (share ta) Hm) sigs.

Lemma collect_loop_spec {N} (up : N -> Prop) (stub : str -> rpc N SignRequest SignResponse)
    (ids : nat -> Z) st net w k i :
  (forall j, (i <= j < i + k)%nat ->
     SignService ta Hm (ids j) up (stub (server_address (Z.of_nat j)))) ->
  head_ok st -> up net ->
  collect_loop k (Z.of_nat i) (fun _ => 0) (fun _ => false) stub st net @ w ⇓ fun r w' =>
    fst (fst r) = 1 /\ up (snd r) /\ later w w' /\ head_ok (snd (fst r))
    /\ exists sigs, ag_sigmas (snd (fst r)) = ag_sigmas st ++ sigs
         /\ collected (map ids (seq i k)) sigs.
Proof.
  revert i st net w. induction k as [|k IH]; intros i st net w HS Hst Hup; simpl.
  { step. simpl. split_and!; try done. exists []. by rewrite app_nil_r. }
  step. apply runs_initState. intros w1 Hw1 _ _.
  rewrite (ho_t _ Hst), (ho_M _ Hst). fold (sign_request ta).
  destruct (HS i ltac:(lia) net Hup) as (r & net' & -> & Hup' & cj & P & Hcj & Hid & HP & Hok).
  step. step. rewrite Hcj. step. step. step. rewrite Hid. step. step. step. rewrite HP. step.
  replace (Z.of_nat i + 1) with (Z.of_nat (S i)) by lia.
  call IH; [intros j Hj; apply HS; lia|destruct Hst; by split|done|].
  intros [[rc st'] net''] w2 (Hrc & Hup2 & Hw2 & Hst' & sigs & Hsigs & Hids & Hoks).
  simpl in *. split_and!; try done; [by transitivity w1|].
  exists (mkParSig cj P (ids i) :: sigs). split; [by rewrite Hsigs, <- app_assoc|].
  split; [by simpl; rewrite Hids|by constructor].
Qed.

Lemma collectParSigs_spec {N} (up : N -> Prop) (stub : str -> rpc N SignRequest SignResponse)
    (ids : nat -> Z) st net w :
  (forall j, (j < Z.to_nat (ta_t ta))%nat ->
     SignService ta Hm (ids j) up (stub (server_address (Z.of_nat j)))) ->
  head_ok st -> ag_sigmas st = [] -> up net ->
  collectParSigs (fun _ => 0) (fun _ => false) stub st net @ w ⇓ fun r w' =>
    fst (fst r) = 1 /\ up (snd r) /\ later w w' /\ head_ok (snd (fst r))
    /\ collected (map ids (seq 0 (Z.to_nat (ta_t ta)))) (ag_sigmas (snd (fst r))).
Proof.
  intros HS Hst Hnil Hup. unfold collectParSigs. rewrite (ho_t _ Hst).
  call (collect_loop_spec up stub ids st net w _ 0); [|done|done|].
  { intros j Hj. apply HS. lia. }
  intros r w' (Hrc & Hup' & Hw' & Hst' & sigs & Hsigs & Hc). rewrite Hnil in Hsigs.
  simpl in Hsigs. split_and!; try done. by rewrite Hsigs.
Qed.

(** Whatever calls fail, what is collected is valid: if every response that
    arrives carries a partial signature of an identity in [P], so does every
    entry that is added. *)
Lemma collect_loop_sound {N} (stub : str -> rpc N SignRequest SignResponse) (P : Z -> Prop)
    st net w k i :
  (forall addr net r, fst (stub addr (sign_request ta) net) = Some r ->
     exists id, P id /\ reply_sig ta Hm id r) ->
  head_ok st ->
  collect_loop k i (fun _ => 0) (fun _ => false) stub st net @ w ⇓ fun r w' =>
    fst (fst r) = 1 /\ head_ok (snd (fst r))
    /\ exists sigs, ag_sigmas (snd (fst r)) = ag_sigmas st ++ sigs /\ (length sigs <= k)%nat
         /\ Forall (fun ps => P (ps_ID ps) /\ parsig_ok (ta_pp ta) (share ta) Hm ps) sigs.
Proof.
  intros Hstub. revert i st net w. induction k as [|k IH]; intros i st net w Hst; simpl.
  { step. simpl. split_and!; try done. exists []. by rewrite app_nil_r. }
  step. apply runs_initState. intros w1 _ _ _.
  rewrite (ho_t _ Hst), (ho_M _ Hst). fold (sign_request ta).
  pose proof (Hstub (server_address i) net) as Hr.
  destruct (stub (server_address i) (sign_request ta) net) as [[r|] net']; simpl in Hr.
  - destruct (Hr r eq_refl) as (id & HP & cj & X & Hcj & Hid & HX & Hok).
    step. step. rewrite Hcj. step. step. step. rewrite Hid. step. step. step. rewrite HX. step.
    call IH; [destruct Hst; by split|].
    intros [[rc st'] net''] w2 (Hrc & Hst' & sigs & Hsigs & Hlen & Hall). simpl in *.
    split_and!; [done|done|]. exists (mkParSig cj X id :: sigs).
    split_and!; [by rewrite Hsigs, <- app_assoc|simpl; lia|by constructor].
  - call IH; [done|]. intros r w2 (Hrc & Hst' & sigs & Hsigs & Hlen & Hall).
    split_and!; [done|done|]. exists sigs. split_and!; [done|lia|done].
Qed.

(** Calls that fail are skipped: with no UAV up nothing is collected, and the
    result is still 1. *)
Lemma collect_loop_failed {N} (stub : str -> rpc N SignRequest SignResponse) st net w k i :
  (forall addr request net, fst (stub addr request net) = None) ->
  collect_loop k i (fun _ => 0) (fun _ => false) stub st net @ w ⇓ fun r _ => fst r = (1, st).
Proof.
  intros Hf. revert i net w. induction k as [|k IH]; intros i net w; simpl; [by step|].
  step. apply runs_initState. intros w1 _ _ _.
  pose proof (Hf (server_address i) (SignRequest_set_t (ag_t st)
    (SignRequest_set_m (mpz_to_str (ag_M st)) SignRequest_default)) net) as Hn.
  destruct (stub _ _ net) as [res net']. simpl in Hn. subst res. apply IH.
Qed.
End AggFacts.

(** ** The [Tran] service *)

Section TranFacts.
Context `{GL : GmpLaws} `{BL : BigLaws} `{HL : !HashLaws HO} `{CL : !CurveLaws CO} `{!ClockOps}.
Context `{WL : WireLaws}.
Context (fuel : nat) (ta : TAState) (Hm : ECP).

(** A reply that carries a signature made for the hash [h]. *)
Definition reply_sigma (h : Z) (ids : list Z) (r : verifyResponse) : Prop :=
  exists aux, str_to_mpzArr (verifyResponse_get_auxs r) = Ok aux /\ length aux = length ids
    /\ str_to_mpzArr (verifyResponse_get_ids r) = Ok ids
    /\ forall w, str_to_ECPArr (verifyResponse_get_sigs r) @ w ⇓ fun sig w' => w' = w
         /\ length sig = length ids
         /\ forall i a s id, aux !! i = Some a -> sig !! i = Some s -> ids !! i = Some id ->
              sigma_ok_at (ta_pp ta) (share ta) Hm h a s id.

(** Identities that can be sent and whose shares are not zero. *)
Definition useful_ids (ids : list Z) : Prop :=
  Forall (fun id => 0 <= id < 2 ^ 256 /\ ~ share ta id ≡[q] 0) ids.

Lemma parsig_ok_eqv pp pp' F ps :
  params_eqv pp pp' -> parsig_ok pp' F Hm ps -> parsig_ok pp F Hm ps.
Proof.
  intros Hpp (U & s & Hps). exists U, s. by rewrite (pe_g _ _ Hpp), (pe_beta _ _ Hpp).
Qed.

Lemma sigma_ok_eqv pp pp' F h a s id :
  params_eqv pp pp' -> sigma_ok_at pp F Hm h a s id -> sigma_ok_at pp' F Hm h a s id.
Proof. intros Hpp (V & x & Hx). exists V, x. by rewrite <- (pe_beta _ _ Hpp). Qed.

(** Point lists that are equal entry by entry are interchangeable. *)
Lemma sigma_ok_points pp F h (aux : list Z) sig sig' (ids : list Z) :
  Forall2 ecp_eq sig' sig ->
  (forall i a s id, aux !! i = Some a -> sig !! i = Some s -> ids !! i = Some id ->
     sigma_ok_at pp F Hm h a s id) ->
  forall i a s id, aux !! i = Some a -> sig' !! i = Some s -> ids !! i = Some id ->
     sigma_ok_at pp F Hm h a s id.
Proof.
  intros Heq Hok i a s id Ha Hs Hid.
  destruct (Forall2_lookup_l _ _ _ _ _ Heq Hs) as (s0 & Hs0 & Hss).
  destruct (Hok i a s0 id Ha Hs0 Hid) as (V & x & ? & ? & ? & ? & Hx & ?).
  exists V, x. split_and!; try done; try lia. by rewrite Hss.
Qed.

Lemma entries_ok h ids (aux : list Z) (sig : list ECP) :
  live ta Hm -> useful_ids ids -> length aux = length ids -> length sig = length ids ->
  (forall i a s id, aux !! i = Some a -> sig !! i = Some s -> ids !! i = Some id ->
     sigma_ok_at (ta_pp ta) (share ta) Hm h a s id) ->
  Forall (fun z => 0 <= z < 2 ^ 256) aux /\ Forall (fun P => ECP_isinf P = false) sig.
Proof.
  intros Hl Hids Hla Hls Hok. pose proof order_256 as H256. rewrite !Forall_lookup.
  assert (Hat : forall A (l : list A) i, length l = length ids -> (i < length ids)%nat ->
    is_Some (l !! i)) by (intros A l i Hlen Hi; apply lookup_lt_is_Some_2; lia).
  split.
  - intros i a Ha. pose proof (lookup_lt_Some _ _ _ Ha) as Hi. rewrite Hla in Hi.
    destruct (Hat _ sig i Hls Hi) as [s Hs]. destruct (Hat _ ids i eq_refl Hi) as [id Hid].
    destruct (Hok i a s id Ha Hs Hid) as (V & x & _ & _ & ? & _). lia.
  - intros i s Hs. pose proof (lookup_lt_Some _ _ _ Hs) as Hi. rewrite Hls in Hi.
    destruct (Hat _ aux i Hla Hi) as [a Ha]. destruct (Hat _ ids i eq_refl Hi) as [id Hid].
    destruct (Hok i a s id Ha Hs Hid) as (V & x & HV & Hx & _ & _ & Hsx & Hxx).
    unfold useful_ids in Hids. rewrite Forall_lookup in Hids.
    eapply (scaled_finite ta Hm V x (share ta id)); try done. by apply (Hids i).
Qed.

(** Re-encryption for a verifier whose public key hashes to [h]. *)
Lemma Tran_spec st PK_v h ids w :
  live ta Hm -> head_ok ta st -> collected ta Hm ids (ag_sigmas st) -> useful_ids ids ->
  vec_size ids <= 10000 -> 0 <= PK_v -> 0 <= h -> Z.gcd h (q - 1) = 1 ->
  hashToCoprime fuel (PK_v ^ ta_sk ta mod q) (q - 1) order_factors = Ok h ->
  Tran fuel st (verifyRequest_set_pk_v (mpz_to_str PK_v) verifyRequest_default) @ w ⇓ fun r w' =>
    msg_ok r /\ msg_initialized r = true /\ reply_sigma h ids r.
Proof.
  intros Hl [Hpp Hk _ _] [Hid Hps] Hu Hlen HPK Hh Hg Hhash.
  assert (Hwf : wf_params (ag_pp st) (ta_sk ta)).
  { eapply params_eqv_wf; [done|]. apply (ta_wf _ (lv_ta _ _ Hl)). }
  unfold Tran. step. change (verifyRequest_get_pk_v _) with (mpz_to_str PK_v).
  rewrite mpz_roundtrip. step. step. step.
  assert (Hgu : ~ pp_g (ag_pp st) ≡[q] 0) by (rewrite (pe_g _ _ Hpp); apply Hl).
  call (AggSig_spec fuel (ag_pp st) (ta_sk ta) Hwf Hgu (ag_sigmas st) (ag_uavH st) PK_v h (share ta) Hm);
    [done..| |].
  { eapply Forall_impl; [exact Hps|]. intros ps. by apply parsig_ok_eqv. }
  intros sg w1 (_ & HIDs & Hla & Hls & Hok). rewrite Hid in HIDs.
  assert (Hli : length (ag_sigmas st) = length ids) by by rewrite <- Hid, length_map.
  rewrite Hli in Hla, Hls. rewrite HIDs in Hok |- *.
  assert (Hok' : forall i a s id, sg_aux sg !! i = Some a -> sg_sig sg !! i = Some s ->
    ids !! i = Some id -> sigma_ok_at (ta_pp ta) (share ta) Hm h a s id).
  { intros i a s id Ha Hs Hidi. eapply sigma_ok_eqv; [exact Hpp|by eapply Hok]. }
  destruct (entries_ok h ids _ _ Hl Hu Hla Hls Hok') as [Hfa Hfs].
  assert (Hfi : Forall (fun z => 0 <= z < 2 ^ 256) ids) by (eapply Forall_impl; [exact Hu|naive_solver]).
  step. pose proof (mpzArr_roundtrip (sg_aux sg)) as Hra. pose proof (mpzArr_roundtrip ids) as Hri.
  destruct (proj1 (returns_ok _ _) (mpzArr_size _ Hfa)) as (sa & Hsa & Hna).
  destruct (proj1 (returns_ok _ _) (mpzArr_size _ Hfi)) as (si & Hsi & Hni).
  rewrite Hsa in *. rewrite Hsi in *. step. step. step. step. call (ECPArr_roundtrip _ Hfs).
  intros ss [Hns Hback]. step. step. step. split_and!; [|done|].
  - split; [unfold verifyResponse_wf; cbn; done|]. unfold vec_size in *.
    split_and!; [done| | |]; cbn; apply (small_le _ (194 * 10000)); unfold vec_size; lia.
  - exists (sg_aux sg). cbn. split_and!; [done|done|done|]. intros w2. call (Hback w2).
    intros sig' w3 [Heq ->]. split_and!; [done|by rewrite (Forall2_length _ _ _ Heq)|].
    by apply (sigma_ok_points _ _ _ _ (sg_sig sg)).
Qed.

(** What the head's stub promises a verifier. *)
Class TranService (ids : list Z) {N} (up : N -> Prop) (stub : rpc N verifyRequest verifyResponse)
    : Prop :=
  tran_reply net PK_v h : up net -> 0 <= PK_v < q -> 0 <= h -> Z.gcd h (q - 1) = 1 ->
    hashToCoprime fuel (PK_v ^ ta_sk ta mod q) (q - 1) order_factors = Ok h ->
    exists r net', stub (verifyRequest_set_pk_v (mpz_to_str PK_v) verifyRequest_default) net
      = (Some r, net') /\ up net' /\ reply_sigma h ids r.

#[export] Instance Tran_service st ids :
  live ta Hm -> head_ok ta st -> collected ta Hm ids (ag_sigmas st) -> useful_ids ids ->
  vec_size ids <= 10000 -> TranService ids (fun _ => True) (remote (Tran fuel st)).
Proof.
  intros Hl Hst Hc Hu Hlen w PK_v h _ HPK Hh Hg Hhash. pose proof order_256.
  apply (remote_ok _ _ w (fun r _ => True /\ reply_sigma h ids r)).
  - split; [unfold verifyRequest_wf; cbn; done|]. split; [done|]. cbn.
    apply (small_le _ 64); [apply mpz_str_size; lia|lia].
  - done.
  - call (Tran_spec st PK_v h ids w); try done; [lia|]. naive_solver.
Qed.
End TranFacts.
