(* ===== verification/Verifier.v ===== *)
(** * brpcVerifier.cpp: the verifier

    It fetches the public parameters from the TA, asks the cluster head for a
    signature made for it, and prints the result of [Verify]. *)

From Stdlib Require Import ZArith Lia Ascii String.
From stdpp Require Import base list.
From S2P Require Import Prelude ModArith Primality Text Group Gmp Miracl Tools Coprime Scheme.
From S2P Require Import Verification BrpcTools Wire TAMsg AggMsg Rpc Link TA UAVNode Aggregator.

Open Scope Z_scope.

Section Verifier.
Context `{G : GmpOps} `{B : BigOps} `{!HashOps} `{!CurveOps} `{!ClockOps} `{W : WireOps}.
Context (fuel : nat).

Record VerState : Type := mkVer {
  vs_params : Params;
  vs_T : Z;
  vs_Msg : Z;
}.

Definition getParams {N} (init : Z) (quit : bool) (stub : rpc N UAVIDRequest UAVIDResponse)
    (st : VerState) (net : N) : prog (Z * VerState * N) :=
  if negb (init =? 0) then mret (-1, st, net)
  else if quit then mret (1, st, net)
  else
    initState state_ver ≫= fun _ =>
    id ← rand_mpz state_ver;
    let request := UAVIDRequest_set_uav_id (mpz_to_str id) UAVIDRequest_default in
    let (res, net') := stub request net in
    match res with
    | Some response =>
        pp ← read_params (UAVIDResponse_get_params response);
        Msg ← lift (str_to_mpz (UAVIDResponse_get_m response));
        mret (1, mkVer pp (UAVIDResponse_get_t response) Msg, net')
    | None => mret (1, st, net')
    end.

(** [cout << "verify result = " << res << endl] for the [int] result of
    [FP12_equals]. *)
Definition result_line (res : bool) : str :=
  lit "verify result = " ++ (if res then lit "1" else lit "0") ++ [newline].

Definition verifySignature {N} (init : Z) (quit : bool) (stub : rpc N verifyRequest verifyResponse)
    (st : VerState) (net : N) : prog (Z * N) :=
  if negb (init =? 0) then mret (-1, net)
  else if quit then mret (1, net)
  else
    initState state_ver ≫= fun _ =>
    sk_v ← rand_mpz state_ver;
    PK_v ← lift (pow_mpz (pp_g (vs_params st)) sk_v (pp_q (vs_params st)));
    let request := verifyRequest_set_pk_v (mpz_to_str PK_v) verifyRequest_default in
    let (res, net') := stub request net in
    match res with
    | Some response =>
        aux ← lift (str_to_mpzArr (verifyResponse_get_auxs response));
        IDs ← lift (str_to_mpzArr (verifyResponse_get_ids response));
        sig ← str_to_ECPArr (verifyResponse_get_sigs response);
        r ← Verify fuel (mkSigma aux sig IDs) sk_v (vs_params st) (vs_Msg st) (vs_T st);
        print (result_line r) ≫= fun _ =>
        mret (1, net')
    | None => mret (1, net')
    end.

(** [main]; the results of the two calls are ignored. *)
Definition main {N N'} (initTA : Z) (quitTA : bool) (stubTA : rpc N UAVIDRequest UAVIDResponse)
    (initAgg : Z) (quitAgg : bool) (stubAgg : rpc N' verifyRequest verifyResponse)
    (st : VerState) (net : N) (net' : N') : prog (Z * VerState * N * N') :=
  r ← getParams initTA quitTA stubTA st net;
  let '(_, st1, net1) := r : Z * VerState * N in
  r' ← verifySignature initAgg quitAgg stubAgg st1 net';
  mret (0, st1, net1, snd (r' : Z * N')).
End Verifier.

(** * What the verifier reports *)

Local Notation q := curve_order.

Section VerifierFacts.
Context `{GL : GmpLaws} `{BL : BigLaws} `{HL : !HashLaws HO} `{CL : !CurveLaws CO} `{!ClockOps}.
Context `{WL : WireLaws}.
Context (fuel : nat) (ta : TAState) (Hm : ECP).

Record verifier_ok (st : VerState) : Prop := {
  vo_params : params_eqv (vs_params st) (ta_pp ta);
  vo_T : vs_T st = ta_t ta;
  vo_Msg : vs_Msg st = ta_M ta;
}.

Lemma getParams_spec `{RS : !RegisterService ta (N:=Net) up stub} st net w :
  up net -> draw (next_seed w) 0 <> head_id ->
  getParams 0 false stub st net @ w ⇓ fun r w' =>
    fst (fst r) = 1 /\ up (snd r) /\ later w w' /\ w_tick w' = S (w_tick w)
    /\ verifier_ok (snd (fst r)).
Proof.
  intros Hup Hne. pose proof order_256. pose proof (draw_range (next_seed w) 0) as Hd.
  unfold getParams. simpl. step. apply runs_initState. intros w1 Hw1 Ht1 Hr1. step.
  apply (runs_rand_quiet _ _ _ _ _ Hr1). intros w2 Hr2 Hw2 Ht2 _.
  destruct (register_shares net (draw (next_seed w) 0)) as (r & net' & -> & Hup' & Hiss & _);
    [done|lia|done|].
  step. call (is_params _ _ Hiss w2). intros pp w3 [Hpp ->]. step. step.
  rewrite (is_m _ _ Hiss). step. step. simpl. split_and!; try done; [by transitivity w1|congruence|].
  split; simpl; try done. apply Hiss.
Qed.

(** The generator and the verifier's key are units, so the hashes agree and
    the honest case of [Verify] applies. *)
Lemma honest_verifier_ok st sk_v h :
  live ta Hm -> verifier_ok st -> 0 <= sk_v -> 0 <= h -> Z.gcd h (q - 1) = 1 ->
  hashToCoprime fuel (pp_beta (vs_params st) ^ sk_v mod q) (q - 1) order_factors = Ok h ->
  honest_verifier fuel (vs_params st) (ta_sk ta) sk_v (vs_Msg st) (ta_b ta) (degree ta) h Hm.
Proof.
  intros Hl [Hpp HT HMsg] Hsk Hh Hg Hhash. pose proof (lv_ta _ _ Hl) as Hta.
  destruct (degree_t _ Hta) as [Ht Hdeg].
  split; try done; try lia; try apply Hl; try apply Hta.
  - eapply params_eqv_wf; [done|apply Hta].
  - rewrite (pe_g _ _ Hpp). apply Hl.
  - rewrite HMsg. apply Hl.
  - pose proof (ta_PK_len _ Hta) as HlPK.
    destruct (lookup_lt_is_Some_2 (pp_PK (ta_pp ta)) (degree ta - 1)) as [P HP]; [lia|].
    destruct (params_eqv_PK _ _ _ _ Hpp HP) as (P' & HP' & Heq). exists P'. split; [done|].
    rewrite Heq, (ta_PK _ Hta _ _ HP). by replace (S (degree ta - 1)) with (degree ta) by lia.
Qed.

Lemma verifySignature_spec (ids : list Z) `{TS : !TranService fuel ta Hm ids (N:=Net) up stub} st net w :
  live ta Hm -> verifier_ok st -> up net -> (600 <= fuel)%nat ->
  good_ids ids (S (degree ta)) ->
  good_hash (pp_beta (ta_pp ta) ^ draw (next_seed w) 0 mod q) ->
  verifySignature fuel 0 false stub st net @ w ⇓ fun r w' =>
    fst r = 1 /\ up (snd r) /\ later w w' /\ last (w_out w') = Some (result_line true).
Proof.
  intros Hl Hst Hup Hf Hids Hgood. pose proof order_256. pose proof order_gt_1.
  pose proof Hst as [Hpp HT _]. pose proof (lv_ta _ _ Hl) as Hta. pose proof (ta_wf _ Hta) as Hwf.
  destruct (degree_t _ Hta) as [Ht Hdeg]. pose proof (wf_g _ _ Hwf). pose proof (wf_alpha _ _ Hwf).
  pose proof (draw_range (next_seed w) 0) as Hd. set (sk_v := draw (next_seed w) 0) in *.
  pose proof (Z.mod_pos_bound (pp_beta (ta_pp ta) ^ sk_v) q ltac:(lia)).
  pose proof (hashToCoprime_spec fuel (pp_beta (ta_pp ta) ^ sk_v mod q) ltac:(lia) Hgood Hf) as Hco.
  apply returns_ok in Hco as (h & Hh & Hh0 & Hgcd).
  unfold verifySignature. simpl. step. apply runs_initState. intros w1 Hw1 _ Hr1. step.
  apply (runs_rand _ _ _ _ _ Hr1). intros w2 Hr2 Hw2. fold sk_v. step. step.
  rewrite (pe_g _ _ Hpp), (pe_q _ _ Hpp), (wf_q _ _ Hwf). apply returns_pow; [lia..|].
  pose proof (Z.mod_pos_bound (pp_g (ta_pp ta) ^ sk_v) q ltac:(lia)).
  destruct (tran_reply fuel ta Hm net (pp_g (ta_pp ta) ^ sk_v mod q) h) as
    (r & net' & -> & Hup' & aux & Haux & Hla & Hri & Hsig); [done..| |].
  { rewrite shared_secret by lia. by rewrite <- (wf_beta _ _ Hwf). }
  step. step. rewrite Haux. step. step. step. rewrite Hri. step. step. call (Hsig w2).
  intros sig w3 (-> & Hls & Hok). step. rewrite HT, Ht.
  replace (Z.of_nat (degree ta) + 1) with (Z.of_nat (S (degree ta))) by lia.
  call (Verify_honest fuel (vs_params st) (ta_sk ta) sk_v (vs_Msg st) (ta_b ta) (ta_d ta) (degree ta) h Hm).
  - apply honest_verifier_ok; try done; [lia|]. by rewrite (pe_beta _ _ Hpp).
  - destruct Hids as (Hlen & Hids'). split; simpl; [by split|lia|lia|].
    intros i a s id Ha Hs Hid. destruct (Hok i a s id Ha Hs Hid) as (V & x & Hx).
    exists V, x. by rewrite (pe_beta _ _ Hpp).
  - intros res w4 [-> Hw4]. step. unfold print, runs. simpl. split_and!; [done|done| |].
    + transitivity w1; [done|]. transitivity w2; [done|]. transitivity w4; [done|].
      split; simpl; [done|lia|by apply prefix_app_r].
    + by rewrite last_snoc.
Qed.

(** The seed of the second [initState] of the program. *)
Definition second_seed (w : World) : randstate :=
  gmp_randseed_ui (clock_ns (S (w_tick w)) mod 2 ^ 64).

(** [main], with both servers up, prints that the signature is valid. *)
Lemma main_spec (ids : list Z) `{RS : !RegisterService ta (N:=Net) upT stubT}
    `{TS : !TranService fuel ta Hm ids (N:=Net') upA stubA} st netT netA w :
  live ta Hm -> upT netT -> upA netA -> (600 <= fuel)%nat -> good_ids ids (S (degree ta)) ->
  draw (next_seed w) 0 <> head_id ->
  good_hash (pp_beta (ta_pp ta) ^ draw (second_seed w) 0 mod q) ->
  main fuel 0 false stubT 0 false stubA st netT netA @ w ⇓ fun r w' =>
    later w w' /\ last (w_out w') = Some (result_line true).
Proof.
  intros Hl HT HA Hf Hids Hne Hgood. unfold main. step. call getParams_spec; [done..|].
  intros [[rc st1] net1] w1 (_ & _ & Hw1 & Ht1 & Hst1). simpl in Hst1. step.
  assert (Hseed : second_seed w = next_seed w1) by (unfold second_seed, next_seed; by rewrite Ht1).
  rewrite Hseed in Hgood. call (verifySignature_spec ids); [done..|].
  intros r w2 (_ & _ & Hw2 & Hout). step. split; [by transitivity w1|done].
Qed.

(** Without a response nothing is printed, and the result is 1 all the same. *)
Lemma verifySignature_failed {N} (stub : rpc N verifyRequest verifyResponse) st net w :
  (forall request, fst (stub request net) = None) ->
  0 <= pp_g (vs_params st) -> 1 < pp_q (vs_params st) ->
  verifySignature fuel 0 false stub st net @ w ⇓ fun r w' => fst r = 1 /\ w_out w' = w_out w.
Proof.
  intros Hnone Hg Hq. pose proof (draw_range (next_seed w) 0) as Hd.
  unfold verifySignature. simpl. step. apply runs_initState_quiet. intros w1 Hr1 Ho1. step.
  apply (runs_rand_quiet _ _ _ _ _ Hr1). intros w2 _ _ _ Ho2. step. step.
  apply returns_pow; [lia..|]. specialize (Hnone (verifyRequest_set_pk_v (mpz_to_str
    (pp_g (vs_params st) ^ draw (next_seed w) 0 mod pp_q (vs_params st))) verifyRequest_default)).
  destruct (stub _ net) as [res net']. simpl in Hnone. subst res. step. split; [done|congruence].
Qed.
End VerifierFacts.
