(* ===== verification/System.v ===== *)
(** * The four programs together

    A deployment: the TA serves, the UAVs register with it and serve, the head
    fetches its key and collects from the UAVs at the ports 8002, 8003, ...,
    and serves, and a verifier runs its [main].  Every process has its own
    world; every call crosses the wire through [remote]. *)

From Stdlib Require Import ZArith Lia Ascii String.
From stdpp Require Import base list.
From S2P Require Import Prelude ModArith Primality Text Group Gmp Miracl Tools Coprime Scheme.
From S2P Require Import Verification BrpcTools Wire UAVMsg TAMsg AggMsg Rpc Link TA UAVNode.
From S2P Require Import Aggregator Verifier.

Open Scope Z_scope.

Local Notation q := curve_order.

Section System.
Context `{G : GmpOps} `{B : BigOps} `{!HashOps} `{!CurveOps} `{!ClockOps} `{W : WireOps}.
Context (fuel : nat).

(** The UAVs register one after the other, UAV [i] in its world [wU i]. *)
Fixpoint register_uavs (ta : TAState) (st : UAVState) (wU : nat -> World) (k i : nat)
    (wT : World) : outcome (list UAVState * World) :=
  match k with
  | O => Ok ([], wT)
  | S k' =>
      '(r, _) ← registerUAV 0 false (remote (Register ta)) st wT (wU i);
      '(uavs, wT') ← register_uavs ta st wU k' (S i) (snd r);
      Ok (snd (fst r) :: uavs, wT')
  end.

(** The UAV that listens at an address. *)
Fixpoint uav_at (i : Z) (uavs : list UAVState) (addr : str) : option UAVState :=
  match uavs with
  | [] => None
  | uav :: uavs' => if bool_decide (server_address i = addr) then Some uav
                    else uav_at (i + 1) uavs' addr
  end.

Definition uav_stub (uavs : list UAVState) (addr : str) : rpc World SignRequest SignResponse :=
  fun request w =>
    match uav_at 0 uavs addr with
    | Some uav => remote (fun request => lift (sign uav request)) request w
    | None => (None, w)
    end.

(** What the verifier has printed in the end. *)
Definition network (ta : TAState) (su : UAVState) (sh : AggState) (sv : VerState)
    (wU : nat -> World) (wT wH wV : World) : outcome (list str) :=
  '(uavs, wT1) ← register_uavs ta su wU (Z.to_nat (ta_t ta)) 0 wT;
  '(r, wH1) ← getPpAndSk 0 false (remote (Register ta)) sh wT1 wH;
  '(r', wH2) ← collectParSigs (fun _ => 0) (fun _ => false) (uav_stub uavs) (snd (fst r)) (wU O) wH1;
  '(_, wV') ← main fuel 0 false (remote (Register ta)) 0 false (remote (Tran fuel (snd (fst r'))))
                sv (snd r) wH2 wV;
  Ok (w_out wV').
End System.

Section SystemFacts.
Context `{GL : GmpLaws} `{BL : BigLaws} `{HL : !HashLaws HO} `{CL : !CurveLaws CO} `{!ClockOps}.
Context `{WL : WireLaws}.
Context (fuel : nat) (ta : TAState) (Hm : ECP).

Lemma server_address_inj i j : 0 <= i -> 0 <= j -> server_address i = server_address j -> i = j.
Proof.
  intros Hi Hj E. unfold server_address in E. apply app_inv_head in E.
  destruct (numeral_nonneg 10 ltac:(lia) (8002 + i) ltac:(lia)) as [Hvi _].
  destruct (numeral_nonneg 10 ltac:(lia) (8002 + j) ltac:(lia)) as [Hvj _].
  rewrite E, Hvj in Hvi. lia.
Qed.

Lemma uav_at_lookup uavs j uav i :
  0 <= i -> uavs !! j = Some uav -> uav_at i uavs (server_address (i + Z.of_nat j)) = Some uav.
Proof.
  revert j i. induction uavs as [|u uavs IH]; intros [|j] i Hi Hj; simplify_eq/=.
  - by rewrite Z.add_0_r, bool_decide_eq_true_2.
  - rewrite bool_decide_eq_false_2.
    + replace (i + Z.of_nat (S j)) with (i + 1 + Z.of_nat j) by lia. apply IH; [lia|done].
    + intros E. apply server_address_inj in E; lia.
Qed.

(** The UAV behind a port serves that port. *)
Lemma uav_stub_service uavs j uav id :
  live ta Hm -> uavs !! j = Some uav -> registered ta id uav -> 0 <= id < 2 ^ 256 ->
  ~ share ta id ≡[q] 0 ->
  SignService ta Hm id (fun _ => True) (uav_stub uavs (server_address (Z.of_nat j))).
Proof.
  intros Hl Huav Hreg Hid Hf w _. unfold uav_stub.
  rewrite <- (Z.add_0_l (Z.of_nat j)), (uav_at_lookup uavs j uav 0) by done.
  by apply (sign_service ta Hm id uav).
Qed.

(** The identity that UAV [i] draws. *)
Definition uav_id (wU : nat -> World) (i : nat) : Z := draw (next_seed (wU i)) 0.

Lemma register_uavs_spec `{RS : !RegisterService ta (ready state_gmp) (remote (Register ta))}
    st wU k i wT :
  ready state_gmp wT -> (forall j, (i <= j < i + k)%nat -> uav_id wU j <> head_id) ->
  register_uavs ta st wU k i wT ⇓ fun r => ready state_gmp (snd r)
    /\ length (fst r) = k
    /\ forall j uav, fst r !! j = Some uav -> registered ta (uav_id wU (i + j)) uav.
Proof.
  revert i wT. induction k as [|k IH]; intros i wT HT Hne; cbn [register_uavs]; [by step|]. step.
  pose proof (registerUAV_spec ta st wT (wU i) HT (Hne i ltac:(lia))) as Hreg.
  apply runs_ok in Hreg as ([[rc uav] wT1] & w' & -> & _ & HT1 & _ & Hreg). simpl in HT1, Hreg. step. step.
  call (IH (S i) wT1); [done|intros j Hj; apply Hne; lia|]. intros [uavs wT2] (HT2 & Hlen & Hall).
  simpl in HT2, Hlen, Hall. step. simpl. split_and!; [done|by f_equal|]. intros [|j] u Hu; simplify_eq/=.
  - by rewrite Nat.add_0_r.
  - replace (i + S j)%nat with (S i + j)%nat by lia. by apply Hall.
Qed.

(** The random choices of a deployment that are not degenerate: no coefficient
    is zero, the identities differ and lie below the order, none is the head's
    and none is a root of the polynomial, and the verifier's key has a hash
    for which the coprime search ends. *)
Record good_deployment (wU : nat -> World) (wV : World) : Prop := {
  gd_b : Forall (fun b => ~ b ≡[q] 0) (ta_b ta);
  gd_id i : (i <= degree ta)%nat -> uav_id wU i <> q /\ uav_id wU i <> head_id
    /\ ~ share ta (uav_id wU i) ≡[q] 0;
  gd_distinct i j : (i < j <= degree ta)%nat -> uav_id wU i <> uav_id wU j;
  gd_verifier : draw (next_seed wV) 0 <> head_id;
  gd_hash : good_hash (pp_beta (ta_pp ta) ^ draw (second_seed wV) 0 mod q);
}.

Definition signers (wU : nat -> World) : list Z := map (uav_id wU) (seq 0 (S (degree ta))).

Lemma signers_lookup wU i : (i < S (degree ta))%nat -> signers wU !!! i = uav_id wU i.
Proof.
  intros Hi. apply list_lookup_total_correct. unfold signers.
  change (map ?f ?l) with (f <$> l). by rewrite list_lookup_fmap, lookup_seq_lt.
Qed.

Lemma signers_good wU wV : good_deployment wU wV -> good_ids (signers wU) (S (degree ta)).
Proof.
  intros [_ Hid Hd _ _]. split_and!.
  - unfold signers. by rewrite length_map, length_seq.
  - intros i Hi. rewrite signers_lookup by done. destruct (Hid i ltac:(lia)) as [Hq _].
    pose proof (draw_range (next_seed (wU i)) 0). unfold uav_id in *. lia.
  - intros i j Hi Hj Hij. rewrite !signers_lookup by done.
    destruct (decide (i < j)%nat); [apply Hd; lia|]. apply not_eq_sym, Hd. lia.
Qed.

Lemma signers_useful wU wV : good_deployment wU wV -> useful_ids ta (signers wU).
Proof.
  intros Hgd. pose proof order_256. apply Forall_lookup. intros i id Hi.
  pose proof (lookup_lt_Some _ _ _ Hi) as Hlt. unfold signers in Hlt.
  rewrite length_map, length_seq in Hlt.
  apply list_lookup_total_correct in Hi. rewrite signers_lookup in Hi by done. subst id.
  pose proof (draw_range (next_seed (wU i)) 0). split; [unfold uav_id; lia|].
  apply (gd_id _ _ Hgd). lia.
Qed.

(** A deployment ends with the verifier reporting a valid signature. *)
Lemma network_spec su sh sv wU wT wH wV :
  live ta Hm -> ready state_gmp wT -> good_deployment wU wV -> ag_sigmas sh = [] ->
  (600 <= fuel)%nat ->
  network fuel ta su sh sv wU wT wH wV ⇓ fun out => last out = Some (result_line true).
Proof.
  intros Hl HT Hgd Hnil Hf. pose proof (lv_ta _ _ Hl) as Hta. pose proof order_256.
  destruct (degree_t _ Hta) as [Ht Hdeg]. pose proof (ta_b_len _ Hta) as Hlb.
  pose proof (finite_keys_units _ Hta (gd_b _ _ Hgd)) as Hfin.
  pose proof (Register_service ta Hta Hfin) as RS.
  assert (HtS : Z.to_nat (ta_t ta) = S (degree ta)) by lia.
  unfold network. rewrite HtS. step. call register_uavs_spec; [done| |].
  { intros j Hj. apply (gd_id _ _ Hgd). lia. }
  intros [uavs wT1] (HT1 & Hlen & Hreg). simpl in HT1, Hlen, Hreg. step.
  pose proof (getPpAndSk_spec ta sh wT1 wH HT1) as Hhead.
  apply runs_ok in Hhead as ([[rc ag] wT2] & wH1 & -> & _ & HT2 & _ & Hho & Hag). simpl in HT2, Hho, Hag.
  step. step. cbn [fst snd]. rewrite Hnil in Hag.
  assert (HS : forall j, (j < Z.to_nat (ta_t ta))%nat ->
    SignService ta Hm (uav_id wU j) (fun _ => True) (uav_stub uavs (server_address (Z.of_nat j)))).
  { intros j Hj. destruct (lookup_lt_is_Some_2 uavs j) as [uav Huav]; [lia|].
    destruct (gd_id _ _ Hgd j ltac:(lia)) as (_ & _ & Hroot).
    pose proof (draw_range (next_seed (wU j)) 0).
    by apply (uav_stub_service uavs j uav); [done|done|apply Hreg|unfold uav_id; lia|]. }
  pose proof (collectParSigs_spec ta Hm _ _ _ ag (wU O) wH1 HS Hho Hag I) as Hcol.
  apply runs_ok in Hcol as ([[rc' ag'] net'] & wH2 & -> & _ & _ & _ & Hho' & Hcol). simpl in Hho', Hcol.
  rewrite HtS in Hcol. fold (signers wU) in Hcol. step. step. cbn [fst snd].
  pose proof (Tran_service fuel ta Hm ag' (signers wU) Hl Hho' Hcol
    (signers_useful _ _ Hgd)) as TS.
  pose proof (main_spec fuel ta Hm (signers wU) (TS:=TS ltac:(unfold signers, vec_size; rewrite length_map, length_seq; lia))
    sv wT2 wH2 wV Hl HT2 I Hf (signers_good _ _ Hgd) (gd_verifier _ _ Hgd) (gd_hash _ _ Hgd)) as Hmain.
  apply runs_ok in Hmain as (res & wV' & -> & _ & Hout). by step.
Qed.
End SystemFacts.
