(* ===== verification/Interleaving.v ===== *)
(** * Any order of operations

    The deployment of System.v runs its programs in one order.  Here they run
    in any: a UAV may register late, twice or never, the head may collect
    before it has its key or while UAVs are missing, and every call may fail.
    [step] is the transition relation; [spec_step] the protocol as a party
    sees it: who is registered, whether the head has its key, who has signed.
    Every step refines a step of the protocol, so in every reachable state the
    head holds valid partial signatures of registered UAVs only. *)

From Stdlib Require Import ZArith Lia Ascii String.
From stdpp Require Import base list relations.
From S2P Require Import Prelude ModArith Primality Text Group Gmp Miracl Tools Coprime Scheme.
From S2P Require Import Verification BrpcTools Wire UAVMsg TAMsg AggMsg Rpc Link TA UAVNode.
From S2P Require Import Aggregator Verifier System.

Open Scope Z_scope.

Local Notation q := curve_order.

(** A link that may be down. *)
Definition link {N Req Resp} (on : bool) (stub : rpc N Req Resp) : rpc N Req Resp :=
  fun request net => if on then stub request net else (None, net).

Section Steps.
Context `{G : GmpOps} `{B : BigOps} `{!HashOps} `{!CurveOps} `{!ClockOps} `{W : WireOps}.
Context (ta : TAState).

(** The TA's world, the UAVs in the order of their ports, and the head. *)
Record NetState : Type := mkNet {
  nt_ta : World;
  nt_uavs : list UAVState;
  nt_head : AggState;
}.

(** An identity that is neither the head's nor a root of the polynomial. *)
Definition useful (id : Z) : Prop := id <> head_id /\ ~ share ta id ≡[q] 0.

(** Each step runs one program's call in a world [w] of its own; a handler
    that faults does not answer. *)
Inductive step : NetState -> NetState -> Prop :=
| step_register s i on w w' uav rc uav' wT :
    nt_uavs s !! i = Some uav -> useful (draw (next_seed w) 0) ->
    registerUAV 0 false (link on (remote (Register ta))) uav (nt_ta s) w = Ok (rc, uav', wT, w') ->
    step s (mkNet wT (<[i := uav']> (nt_uavs s)) (nt_head s))
| step_key s on w w' rc head' wT :
    getPpAndSk 0 false (link on (remote (Register ta))) (nt_head s) (nt_ta s) w
      = Ok (rc, head', wT, w') ->
    step s (mkNet wT (nt_uavs s) head')
| step_collect s (on : str -> bool) w w' wN wN' rc head' :
    collectParSigs (fun _ => 0) (fun _ => false)
      (fun addr => link (on addr) (uav_stub (nt_uavs s) addr)) (nt_head s) wN w
      = Ok (rc, head', wN', w') ->
    step s (mkNet (nt_ta s) (nt_uavs s) head').
End Steps.

(** ** The protocol *)

Record Spec : Type := mkSpec {
  sp_ids : list (option Z);    (** the identity each UAV has registered *)
  sp_key : bool;               (** the head has its key *)
  sp_signed : list Z;          (** who signed, in order *)
}.

Inductive spec_step : Spec -> Spec -> Prop :=
| spec_skip a : spec_step a a
| spec_register a i id :
    (i < length (sp_ids a))%nat ->
    spec_step a (mkSpec (<[i := Some id]> (sp_ids a)) (sp_key a) (sp_signed a))
| spec_get_key a : spec_step a (mkSpec (sp_ids a) true (sp_signed a))
| spec_collect a ids :
    sp_key a = true -> Forall (fun id => Some id ∈ sp_ids a) ids ->
    spec_step a (mkSpec (sp_ids a) (sp_key a) (sp_signed a ++ ids)).

(** Nobody signs before the head has its key. *)
Lemma spec_key_first a a' :
  rtc spec_step a a' -> (sp_signed a <> [] -> sp_key a = true) ->
  sp_signed a' <> [] -> sp_key a' = true.
Proof.
  induction 1 as [a|a1 a2 a3 Hs _ IH]; [done|]. intros Ha. apply IH. by destruct Hs; simpl; auto.
Qed.

(** ** The refinement *)

Section Refinement.
Context `{GL : GmpLaws} `{BL : BigLaws} `{HL : !HashLaws HO} `{CL : !CurveLaws CO} `{!ClockOps}.
Context `{WL : WireLaws}.
Context (ta : TAState) (Hm : ECP).
Hypothesis Hlive : live ta Hm.
Hypothesis Hfin : finite_keys ta.

(** A UAV stands for its identity once it has registered; before that it has
    no shares. *)
Definition uav_rel (uav : UAVState) (o : option Z) : Prop :=
  match o with
  | Some id => registered ta id uav /\ useful ta id /\ 0 <= id < 2 ^ 256
  | None => u_c1 (us_uav uav) = []
  end.

Record refines (s : NetState) (a : Spec) : Prop := {
  rf_ta : ready state_gmp (nt_ta s);
  rf_uavs : Forall2 uav_rel (nt_uavs s) (sp_ids a);
  rf_head : if sp_key a then head_ok ta (nt_head s) else ag_t (nt_head s) = 0;
  rf_ids : map ps_ID (ag_sigmas (nt_head s)) = sp_signed a;
  rf_valid : Forall (parsig_ok (ta_pp ta) (share ta) Hm) (ag_sigmas (nt_head s));
}.

(** A UAV without shares does not sign. *)
Lemma sign_unregistered uav w :
  u_c1 (us_uav uav) = [] ->
  fst (remote (fun request => lift (sign uav request)) (sign_request ta) w) = None.
Proof.
  intros Hc. pose proof (lv_ta _ _ Hlive) as Hta. destruct (degree_t _ Hta) as [Ht Hdeg].
  assert (Hf : sign uav (sign_request ta) = Fault OutOfRange).
  { unfold sign. change (SignRequest_get_m (sign_request ta)) with (mpz_to_str (ta_M ta)).
    rewrite mpz_roundtrip. change (SignRequest_get_t (sign_request ta)) with (ta_t ta).
    unfold Sign, mbind, outcome_bind at 1 2 3. rewrite (for_fault _ OutOfRange 0); [done|lia|lia|].
    intros s. destruct s. by rewrite Hc. }
  destruct (sign_request_ok _ Hta) as [Hok Hi]. unfold remote. rewrite transmit_ok by done.
  unfold lift. by rewrite Hf.
Qed.

Lemma uav_at_elem uavs i addr uav : uav_at i uavs addr = Some uav -> exists j, uavs !! j = Some uav.
Proof.
  revert i. induction uavs as [|u uavs IH]; intros i Hu; [done|]. simpl in Hu.
  case_bool_decide; [simplify_eq; by exists O|]. destruct (IH _ Hu) as [j Hj]. by exists (S j).
Qed.

(** Whatever answers the head's request is a registered UAV, and its answer is
    a valid partial signature. *)
Lemma uav_stub_sound uavs ids addr w r :
  Forall2 uav_rel uavs ids -> fst (uav_stub uavs addr (sign_request ta) w) = Some r ->
  exists id, Some id ∈ ids /\ reply_sig ta Hm id r.
Proof.
  intros Hrel Hr. unfold uav_stub in Hr. destruct (uav_at 0 uavs addr) as [uav|] eqn:E; [|done].
  apply uav_at_elem in E as [j Hj].
  destruct (Forall2_lookup_l _ _ _ _ _ Hrel Hj) as ([id|] & Ho & Huav); simpl in Huav.
  - destruct Huav as (Hreg & [_ Hroot] & Hid). exists id.
    split; [by eapply list_elem_of_lookup_2|].
    destruct (sign_service ta Hm id uav Hlive Hreg Hid Hroot w I) as (r' & w' & Heq & _ & Hsig).
    rewrite Heq in Hr. simpl in Hr. by simplify_eq.
  - by rewrite sign_unregistered in Hr.
Qed.

(** ** Each step *)

Lemma register_refines s a i on w w' uav rc uav' wT :
  refines s a -> nt_uavs s !! i = Some uav -> useful ta (draw (next_seed w) 0) ->
  registerUAV 0 false (link on (remote (Register ta))) uav (nt_ta s) w = Ok (rc, uav', wT, w') ->
  exists a', spec_step a a' /\ refines (mkNet wT (<[i := uav']> (nt_uavs s)) (nt_head s)) a'.
Proof.
  intros [HT Hu Hh Hids Hval] Hi Huse Hrun. pose proof order_256.
  pose proof (draw_range (next_seed w) 0). destruct on.
  - pose proof (Register_service ta (lv_ta _ _ Hlive) Hfin) as RS.
    pose proof (registerUAV_spec ta uav (nt_ta s) w HT (proj1 Huse)) as Hspec.
    unfold runs in Hspec. change (link true (remote (Register ta))) with (remote (Register ta)) in Hrun.
    rewrite Hrun in Hspec. destruct Hspec as (_ & HT' & _ & Hreg). simpl in HT', Hreg.
    eexists. split; [apply (spec_register a i (draw (next_seed w) 0))|].
    { rewrite <- (Forall2_length _ _ _ Hu). by eapply lookup_lt_Some. }
    split; simpl; try done. apply Forall2_insert; [done|]. split_and!; [done|done|lia|lia].
  - pose proof (registerUAV_failed (link false (remote (Register ta))) uav (nt_ta s) w
      (fun _ => eq_refl)) as Hspec.
    unfold runs in Hspec. rewrite Hrun in Hspec. destruct Hspec as ([= -> ->] & _ & request & Hnet).
    simpl in Hnet. subst wT. exists a. split; [constructor|].
    split; simpl; try done. by rewrite list_insert_id.
Qed.

Lemma key_refines s a on w w' rc head' wT :
  refines s a ->
  getPpAndSk 0 false (link on (remote (Register ta))) (nt_head s) (nt_ta s) w
    = Ok (rc, head', wT, w') ->
  exists a', spec_step a a' /\ refines (mkNet wT (nt_uavs s) head') a'.
Proof.
  intros [HT Hu Hh Hids Hval] Hrun. destruct on.
  - pose proof (Register_service ta (lv_ta _ _ Hlive) Hfin) as RS.
    pose proof (getPpAndSk_spec ta (nt_head s) (nt_ta s) w HT) as Hspec.
    unfold runs in Hspec. change (link true (remote (Register ta))) with (remote (Register ta)) in Hrun.
    rewrite Hrun in Hspec. destruct Hspec as (_ & HT' & _ & Hho & Hsig). simpl in HT', Hho, Hsig.
    eexists. split; [apply spec_get_key|]. split; simpl; try done; by rewrite Hsig.
  - pose proof (getPpAndSk_failed (link false (remote (Register ta))) (nt_head s) (nt_ta s) w
      (fun _ => eq_refl)) as Hspec.
    unfold runs in Hspec. rewrite Hrun in Hspec. destruct Hspec as ([= -> ->] & _ & request & Hnet).
    simpl in Hnet. subst wT. exists a. split; [constructor|]. by split.
Qed.

Lemma collect_refines s a (on : str -> bool) w w' wN wN' rc head' :
  refines s a ->
  collectParSigs (fun _ => 0) (fun _ => false)
    (fun addr => link (on addr) (uav_stub (nt_uavs s) addr)) (nt_head s) wN w
    = Ok (rc, head', wN', w') ->
  exists a', spec_step a a' /\ refines (mkNet (nt_ta s) (nt_uavs s) head') a'.
Proof.
  intros [HT Hu Hh Hids Hval] Hrun. unfold collectParSigs in Hrun. destruct (sp_key a) eqn:Hk.
  - pose proof (collect_loop_sound ta Hm (fun addr => link (on addr) (uav_stub (nt_uavs s) addr))
      (fun id => Some id ∈ sp_ids a) (nt_head s) wN w (Z.to_nat (ag_t (nt_head s))) 0) as Hspec.
    unfold runs in Hspec. rewrite Hrun in Hspec. destruct Hspec as (_ & Hho & sigs & Hsig & _ & Hall).
    { intros addr net r Hr. unfold link in Hr. destruct (on addr); [|done].
      by eapply uav_stub_sound. }
    { done. }
    simpl in Hho, Hsig. apply Forall_and in Hall as [Hin Hok].
    exists (mkSpec (sp_ids a) (sp_key a) (sp_signed a ++ map ps_ID sigs)). split.
    { constructor; [done|]. by apply Forall_map. }
    split; simpl; [done|done|by rewrite Hk|by rewrite Hsig, map_app, Hids|].
    rewrite Hsig. by apply Forall_app.
  - rewrite Hh in Hrun. injection Hrun as _ <- _ _. exists a. split; [constructor|].
    split; simpl; try done. by rewrite Hk.
Qed.

Lemma refines_step s a s' :
  refines s a -> step ta s s' -> exists a', spec_step a a' /\ refines s' a'.
Proof.
  intros Hr Hs. destruct Hs.
  - by eapply register_refines.
  - by eapply key_refines.
  - by eapply collect_refines.
Qed.

Lemma refines_run s a s' :
  refines s a -> rtc (step ta) s s' -> exists a', rtc spec_step a a' /\ refines s' a'.
Proof.
  intros Hr Hs. revert a Hr. induction Hs as [s|s1 s2 s3 Hs12 _ IH]; intros a Hr.
  { by exists a. }
  destruct (refines_step _ _ _ Hr Hs12) as (a2 & Ha & Hr2).
  destruct (IH a2 Hr2) as (a3 & Ha3 & Hr3). exists a3. split; [by eapply rtc_l|done].
Qed.

(** Before anything has run. *)
Definition fresh_net (s : NetState) : Prop :=
  ready state_gmp (nt_ta s) /\ Forall (fun uav => u_c1 (us_uav uav) = []) (nt_uavs s)
  /\ ag_t (nt_head s) = 0 /\ ag_sigmas (nt_head s) = [].

Lemma fresh_refines s :
  fresh_net s -> refines s (mkSpec (replicate (length (nt_uavs s)) None) false []).
Proof.
  intros (HT & Hu & Ht & Hsig). split; simpl; try done; [|by rewrite Hsig..].
  clear -Hu. induction Hu as [|uav uavs Huav _ IH]; simpl; by constructor.
Qed.

Lemma reachable_ok s s' :
  fresh_net s -> rtc (step ta) s s' ->
  Forall (parsig_ok (ta_pp ta) (share ta) Hm) (ag_sigmas (nt_head s'))
  /\ (ag_sigmas (nt_head s') <> [] -> head_ok ta (nt_head s')).
Proof.
  intros Hf Hs. destruct (refines_run _ _ _ (fresh_refines _ Hf) Hs) as (a' & Ha & Hr).
  split; [apply (rf_valid _ _ Hr)|]. intros Hne. pose proof (rf_head _ _ Hr) as Hh.
  rewrite (spec_key_first _ _ Ha) in Hh; [done|done|]. rewrite <- (rf_ids _ _ Hr).
  by destruct (ag_sigmas (nt_head s')).
Qed.
End Refinement.
