(* ===== verification/Examples.v ===== *)
(** * Concrete inputs

    A small instance of the scheme over the reference implementation: two
    signers out of two, threshold 2, keys written out.  The witnesses of the
    properties run on it. *)

From Stdlib Require Import ZArith Lia Ascii String.
From stdpp Require Import base list.
From S2P Require Import Prelude ModArith Primality Text Group Gmp Miracl Tools Coprime Scheme.
From S2P Require Import Verification BrpcTools Wire Reference.

Open Scope Z_scope.

Local Notation q := curve_order.

(** Points of the reference groups are numbers. *)
Lemma ref_in_G1 P : 0 <= P -> in_G1 P.
Proof.
  intros HP. exists P. split; [done|]. apply ref_eqb_spec. unfold mul1.
  change (P ≡[q] zmul Z.add 0 P 1). rewrite ref_zmul by done. cong_ring.
Qed.

Lemma ref_mul n P Q : 0 <= n -> Q = n * P -> mul1 n P =1= Q.
Proof.
  intros Hn ->. apply ref_eqb_spec. change (zmul Z.add 0 n P ≡[q] n * P). by rewrite ref_zmul.
Qed.

(** Congruences between numbers are decided by their remainders. *)
Lemma cong_eval a b : (a mod q =? b mod q) = true -> a ≡[q] b.
Proof. rewrite Z.eqb_eq. apply cong_mod_eq. Qed.

Lemma not_cong_eval a b : (a mod q =? b mod q) = false -> ~ a ≡[q] b.
Proof. rewrite Z.eqb_neq. intros Hne Hc. by apply Hne, cong_mod_eq. Qed.

(** The message, its point, the polynomial [2 x + 5], two identities. *)
Definition ex_M : Z := 123456789.
Definition ex_Hm : ECP := match hashToPoint ex_M q with Ok P => P | _ => 0 end.
Definition ex_b : list Z := [5].
Definition ex_d : list Z := [2].
Definition ex_ids : list Z := [7; 9].

(** Generator 3, private key 2 of the head, private key 4 of the verifier. *)
Definition ex_alpha : Z := 2.
Definition ex_sk : Z := 4.
Definition ex_pp : Params := mkParams 2 2 q (1 : ECP2) 3 9 [5 : ECP2].
Definition ex_h : Z :=
  match hashToCoprime 600 (9 ^ 4 mod q) (q - 1) order_factors with Ok h => h | _ => 0 end.

(** Shares with random exponent 0: [F 7 = 19] and [F 9 = 23] in the clear. *)
Definition ex_uav (id : Z) : UAV := mkUAV [1] [2 * id + 5] id.
Definition ex_sigma_of (Hm : ECP) : Sigma := mkSigma [1; 1] [19 * Hm : ECP; 23 * Hm : ECP] ex_ids.
Definition ex_sigma : Sigma := ex_sigma_of ex_Hm.

Lemma ex_Hm_ok : hashToPoint ex_M q = Ok ex_Hm.
Proof. vm_compute. reflexivity. Qed.

Lemma ex_Hm_pos : 0 < ex_Hm.
Proof. vm_compute. reflexivity. Qed.

Lemma ex_hash_ok : hashToCoprime 600 (9 ^ 4 mod q) (q - 1) order_factors = Ok ex_h.
Proof. vm_compute. reflexivity. Qed.

Lemma ex_h_ok : 0 <= ex_h /\ Z.gcd ex_h (q - 1) = 1.
Proof. split; vm_compute; [discriminate|reflexivity]. Qed.

#[global] Opaque ex_Hm ex_h.

Lemma ex_good_ids : good_ids ex_ids 2.
Proof.
  pose proof order_gt_1. split_and!; [done| |].
  - intros [|[|i]] Hi; [| |lia]; simpl; split; done.
  - intros [|[|i]] [|[|j]] Hi Hj Hij; simpl; lia.
Qed.

Lemma ex_wf : wf_params ex_pp ex_alpha.
Proof.
  split; [done|by apply ref_eqb_spec|split; [done|vm_compute; discriminate]|done|vm_compute; done].
Qed.

Lemma ex_shares id : 0 <= id < 1000 -> holds_shares ex_pp ex_b ex_d (ex_uav id).
Proof.
  intros Hid. pose proof order_gt_1. assert (3000 < q) by done. split_and!; [done|done|].
  intros [|i] c1 c2 Hc1 Hc2; [|done]. simplify_eq/=. exists 0. split_and!; try lia.
  - done.
  - rewrite Z.pow_0_r. apply cong_eq. simpl. lia.
Qed.

Lemma ex_sigma_ok (Hm : Z) h i aux sig id :
  0 <= h ->
  sg_aux (ex_sigma_of Hm) !! i = Some aux -> sg_sig (ex_sigma_of Hm) !! i = Some sig ->
  sg_IDs (ex_sigma_of Hm) !! i = Some id -> sigma_ok_at ex_pp (share_poly ex_b ex_d 1) Hm h aux sig id.
Proof.
  intros Hh Ha Hs Hid.
  assert (aux = 1 /\ 0 <= 2 * id + 5 /\ sig = (2 * id + 5) * Hm) as (-> & Hf & ->).
  { destruct i as [|[|i]]; [injection Ha as <-; injection Hs as <-; injection Hid as <-..|].
    1,2: split; [reflexivity|split; [lia|reflexivity]]. discriminate Ha. }
  pose proof order_gt_1.
  exists 0, (2 * id + 5). split; [lia|]. split; [lia|]. split; [lia|]. split; [|split].
  - by rewrite Z.pow_1_l.
  - symmetry. by apply ref_mul.
  - rewrite Z.pow_0_r. apply cong_eq. unfold share_poly. simpl. lia.
Qed.

Lemma ex_honest_sigma : honest_sigma ex_pp ex_b ex_d 1 ex_h ex_Hm ex_sigma.
Proof.
  split; [exact ex_good_ids|simpl; lia|simpl; lia|].
  intros i aux sig id. apply ex_sigma_ok, ex_h_ok.
Qed.

Lemma ex_honest_verifier :
  honest_verifier 600 ex_pp ex_alpha ex_sk ex_M ex_b 1 ex_h ex_Hm.
Proof.
  pose proof ex_h_ok as [Hh Hg]. pose proof ex_Hm_pos. assert (5 <= q) by done.
  split; [exact ex_wf|by apply not_cong_eval|done|lia|done|done|exact ex_hash_ok|exact ex_Hm_ok|..].
  - apply ref_in_G1. lia.
  - repeat constructor; lia.
  - exists 5. split; [done|]. apply ref_eqb_spec. change (5 ≡[q] zmul Z.add 0 (secret ex_b 1) 1).
    by rewrite ref_zmul.
Qed.

(** A seeded world; what two UAVs send and the head that collects it. *)
Definition ex_world : World := mkWorld ref_gmp (fun _ => Some 10) 0 [].
Definition ex_parsig (Hm : ECP) (id : Z) : parSig := mkParSig 1 ((2 * id + 5) * Hm : ECP) id.
Definition ex_parsigs : list parSig := [ex_parsig ex_Hm 7; ex_parsig ex_Hm 9].
Definition ex_uavH : UAV_h := mkUAV_h 1 ex_alpha.

Lemma ex_parsig_ok (Hm : Z) id : 0 <= id -> parsig_ok ex_pp (share_poly ex_b ex_d 1) Hm (ex_parsig Hm id).
Proof.
  intros Hid. pose proof order_gt_1. exists 0, (2 * id + 5). simpl.
  split; [lia|]. split; [lia|]. split; [lia|]. split; [done|]. split.
  - symmetry. apply ref_mul; [lia|done].
  - rewrite Z.pow_0_r. apply cong_eq. unfold share_poly. simpl. lia.
Qed.

Lemma ex_parsigs_ok : Forall (parsig_ok ex_pp (share_poly ex_b ex_d 1) ex_Hm) ex_parsigs.
Proof. constructor; [|constructor; [|constructor]]; apply ex_parsig_ok; lia. Qed.
