(* ===== verification/Correctness.v ===== *)
(** * The scheme is correct

    The properties of fussion.cpp and Tools.cpp: an honest run verifies, a
    changed signature does not, each step computes what the next one needs,
    the loops end.  After each property a witness applies it to the inputs of
    Examples.v. *)

From Stdlib Require Import ZArith Lia Ascii String.
From stdpp Require Import base list.
From S2P Require Import Prelude ModArith Primality Text Group Gmp Miracl Tools Coprime Scheme.
From S2P Require Import Verification BrpcTools Wire Reference Examples.

Open Scope Z_scope.

Local Notation q := curve_order.

(** ** Whole runs *)

Section Runs.
Context `{GL : GmpLaws} `{BL : BigLaws} `{HL : !HashLaws HO} `{CL : !CurveLaws CO} `{!ClockOps}.

(** C2.  For every group size [n], largest threshold [tm] (at least 2, with
    enough UAVs for the threshold tm/2+1) and message of at most 256 bits, a
    run of setup, key generation, signing, re-encryption and verification
    terminates and verifies, unless a draw is degenerate (a draw equal to the
    group order, two equal identities, or a hash on which the coprime search
    does not end). *)
Theorem protocol_correct fuel n tm M w :
  2 <= tm -> tm / 2 < n -> 0 <= M < 2 ^ 256 -> (600 <= fuel)%nat -> good_run w n tm ->
  protocol fuel n tm M @ w ⇓ fun r w' => r = true /\ later w w'.
Proof. apply protocol_spec. Qed.

(** C3.  The function [fussion] itself (two UAVs, threshold 2, message
    123456789) terminates and returns true on every non-degenerate run. *)
Theorem fussion_correct fuel w :
  (600 <= fuel)%nat -> good_run w 2 2 ->
  fussion fuel @ w ⇓ fun r w' => r = true /\ later w w'.
Proof. intros Hf Hr. rewrite fussion_protocol. apply protocol_spec; done || lia. Qed.
End Runs.

(** The draws of a run that starts in [ref_world] are 3, 4, 5, ... *)
Lemma ref_good_run_2_2 : good_run ref_world 2 2.
Proof.
  split.
  - vm_compute. discriminate.
  - change (Z.to_nat (2 / 2)) with 1%nat. intros [|[|j]] Hj; [| |lia]; vm_compute; discriminate.
  - change (Z.to_nat (2 / 2)) with 1%nat. intros [|i] [|[|j]] Hij; try lia. vm_compute. discriminate.
  - apply good_hash_eval. vm_compute. reflexivity.
Qed.

Lemma ref_good_run_3_2 : good_run ref_world 3 2.
Proof.
  destruct ref_good_run_2_2 as [Hg Hq Hd _]. split; [exact Hg|exact Hq|exact Hd|].
  apply good_hash_eval. vm_compute. reflexivity.
Qed.

Lemma protocol_correct_witness :
  protocol 600 3 2 77 @ ref_world ⇓ fun r w' => r = true /\ later ref_world w'.
Proof.
  apply (protocol_correct 600 3 2 77 ref_world); [lia|reflexivity|lia|lia|exact ref_good_run_3_2].
Defined.

Lemma fussion_correct_witness :
  fussion 600 @ ref_world ⇓ fun r w' => r = true /\ later ref_world w'.
Proof. apply (fussion_correct 600 ref_world); [lia|exact ref_good_run_2_2]. Defined.

(** ** Verification *)

Section VerifyProperties.
Context `{GL : GmpLaws} `{BL : BigLaws} `{HL : !HashLaws HO} `{CL : !CurveLaws CO} `{!ClockOps}.

(** C4.  On every well-formed input for which the increment of the coprime
    search does not divide the verifier's first hash, [Verify] terminates and
    accepts exactly when the points of the signature, weighted with the unique
    factors [k_i] for which [k_i * aux_i^h] is the Lagrange weight of identity
    [i] at zero, add up to the shared secret [S] times the hash of the message;
    [h] is the hash that the search returns, for which 600 rounds are enough. *)
Theorem Verify_iff fuel sigma sk_v pp M t S Hm aux sg w :
  verify_data sigma sk_v pp M t S Hm aux sg -> good_hash (pp_beta pp ^ sk_v mod q) -> (600 <= fuel)%nat ->
  exists h, hashToCoprime fuel (pp_beta pp ^ sk_v mod q) (q - 1) order_factors = Ok h /\
    Verify fuel sigma sk_v pp M (Z.of_nat t) @ w ⇓ fun r w' =>
      w_rng w' = w_rng w /\ exists k, factors_ok (sg_IDs sigma) t h aux k
        /\ (forall k', factors_ok (sg_IDs sigma) t h aux k' -> forall i, (i < t)%nat -> k' i = k i)
        /\ (r = true <-> psum t (fun i => mul1 (k i) (sg i)) =1= mul1 S Hm).
Proof.
  intros Hd Hg Hf. destruct (verify_data_input fuel _ _ _ _ _ _ _ _ _ Hd Hg Hf) as [h Hin].
  exists h. split; [apply Hin|]. call Verify_spec; [exact Hin|]. intros r w' (_ & Hw' & k & Hk & Hr).
  split; [done|]. exists k. split; [done|]. split; [|done]. intros k' Hk' i Hi. destruct Hin as [[] ? ?].
  apply (factors_unique (sg_IDs sigma) t h aux); try done. intros j Hj. by apply vi_unit.
Qed.


(**  With fewer identities in the signature than the threshold, as after
    failed calls to UAVs, [Verify] does not return false: it reads past the
    end of the vector of identities, which is undefined behaviour. *)
Theorem Verify_out_of_range fuel sigma sk_v pp M t (w : World) :
  pp_q pp <> 0 -> vec_size (sg_IDs sigma) < t ->
  Verify fuel sigma sk_v pp M t w = Fault OutOfRange.
Proof. apply Verify_too_few. Qed.
End VerifyProperties.

(** The honest signature of Examples.v as an input of [Verify]. *)
Definition ex_aux (i : nat) : Z := default 0 (sg_aux ex_sigma !! i).
Definition ex_sg (i : nat) : ECP := default ex_Hm (sg_sig ex_sigma !! i).

Lemma ex_input :
  verify_input 600 ex_sigma ex_sk ex_pp ex_M 2 ex_h (secret ex_b 1) ex_Hm ex_aux ex_sg.
Proof. exact (honest_input 600 _ _ _ _ _ _ _ _ _ _ ex_honest_verifier ex_honest_sigma). Qed.


Lemma Verify_iff_witness :
  exists h, hashToCoprime 600 (pp_beta ex_pp ^ ex_sk mod q) (q - 1) order_factors = Ok h /\
    Verify 600 ex_sigma ex_sk ex_pp ex_M 2 @ ref_world ⇓ fun r w' =>
      w_rng w' = w_rng ref_world /\ exists k, factors_ok (sg_IDs ex_sigma) 2 h ex_aux k
        /\ (forall k', factors_ok (sg_IDs ex_sigma) 2 h ex_aux k' -> forall i, (i < 2)%nat -> k' i = k i)
        /\ (r = true <-> psum 2 (fun i => mul1 (k i) (ex_sg i)) =1= mul1 (secret ex_b 1) ex_Hm).
Proof.
  apply (Verify_iff 600 ex_sigma ex_sk ex_pp ex_M 2 (secret ex_b 1) ex_Hm ex_aux ex_sg ref_world);
    [exact (vi_data _ _ _ _ _ _ _ _ _ _ _ ex_input)|apply good_hash_eval; vm_compute; reflexivity|lia].
Defined.



Lemma Verify_out_of_range_witness :
  Verify 600 ex_sigma ex_sk ex_pp ex_M 3 ref_world = Fault OutOfRange.
Proof.
  apply (Verify_out_of_range 600 ex_sigma ex_sk ex_pp ex_M 3 ref_world); [discriminate|reflexivity].
Defined.

(** ** Signing and re-encryption *)

Section SchemeProperties.
Context `{GL : GmpLaws} `{BL : BigLaws} `{HL : !HashLaws HO} `{CL : !CurveLaws CO} `{!ClockOps}.

(** C6.  [AggSig] keeps the identities, in order, and turns partial signatures
    under the head's key into entries a verifier can open: [aux^h] is the
    power of beta that blinds the entry's point, where [h] is the coprime hash
    of the secret that head and verifier share. *)
Theorem AggSig_reencrypts fuel pp alpha parSigs uavH PK_v h F Hm w :
  wf_params pp alpha -> ~ pp_g pp ≡[q] 0 -> h_alpha uavH = alpha -> 0 <= PK_v -> 0 <= h ->
  Z.gcd h (q - 1) = 1 ->
  hashToCoprime fuel (PK_v ^ alpha mod q) (q - 1) order_factors = Ok h ->
  Forall (parsig_ok pp F Hm) parSigs ->
  AggSig fuel parSigs pp uavH PK_v @ w ⇓ fun sigma w' =>
    later w w' /\ sg_IDs sigma = map ps_ID parSigs
    /\ length (sg_aux sigma) = length parSigs /\ length (sg_sig sigma) = length parSigs
    /\ forall i aux sig id, sg_aux sigma !! i = Some aux -> sg_sig sigma !! i = Some sig ->
         sg_IDs sigma !! i = Some id -> sigma_ok_at pp F Hm h aux sig id.
Proof. intros Hpp Hg. by apply AggSig_spec. Qed.

(** C23.  [Sign] multiplies a UAV's ciphertexts: the partial signature is the
    hash of the message times an encryption, under beta, of the value at the
    UAV's identity of the polynomial that the threshold [t+1] selects. *)
Theorem Sign_encrypts pp alpha b d uav (t : nat) M Hm :
  wf_params pp alpha -> holds_shares pp b d uav -> (t <= length b)%nat ->
  hashToPoint M q = Ok Hm ->
  Sign pp uav (Z.of_nat t + 1) M ⇓ fun ps =>
    ps_ID ps = u_ID uav /\ parsig_ok pp (share_poly b d t) Hm ps.
Proof. intros Hpp. by apply (Sign_spec pp alpha). Qed.

(** C24.  [KeyGen] draws coefficients in [1, q], publishes one key for each
    prefix product of them, gives the head its private key and every UAV its
    encrypted share of each factor, and uses exactly the draws it should. *)
Theorem KeyGen_distributes pp alpha s k w :
  wf_params pp alpha -> 2 <= pp_tm pp -> 0 <= pp_n pp -> rng_at state_gmp s k w ->
  let k0 := (k + 2 * Z.to_nat (pp_tm pp - 1))%nat in
  let tm := Z.to_nat (pp_tm pp) in
  KeyGen pp alpha @ w ⇓ fun r w' =>
    later w w' /\ rng_at state_gmp s (k0 + Z.to_nat (pp_n pp) * tm + 1) w'
    /\ h_alpha (snd r) = alpha
    /\ map u_ID (snd (fst r)) = map (fun j => draw s (k0 + j * tm)) (seq 0 (Z.to_nat (pp_n pp)))
    /\ exists b d, keys_ok pp (fst (fst r)) b d (snd (fst r)).
Proof. apply KeyGen_spec. Qed.

(**  [getUAV] encrypts, under the head's key, the value [d_i * id + b_i]
    of every linear factor at the UAV's identity, with one fresh exponent per
    factor. *)
Theorem getUAV_shares pp alpha d b id s k w :
  wf_params pp alpha -> in_range b -> in_range d -> (length b <= length d)%nat ->
  0 <= id -> rng_at state_gmp s k w ->
  getUAV pp d b id @ w ⇓ fun uav w' =>
    later w w' /\ rng_at state_gmp s (k + length b) w'
    /\ u_ID uav = id /\ holds_shares pp b d uav.
Proof. apply getUAV_spec. Qed.

(**  [getPi_0] computes the Lagrange weights at zero for [t] distinct
    identities below the order: the [i]-th result times
    [prod_(j<>i) (x_j - x_i)] is [prod_(j<>i) x_j] modulo [q]. *)
Theorem getPi_0_lagrange pp ID t :
  pp_q pp = q -> good_ids ID t ->
  getPi_0 pp ID (Z.of_nat t) ⇓ fun Pis =>
    length Pis = t /\ forall i w, Pis !! i = Some w -> lagrange_weight ID t i w.
Proof. intros Hq Hids. by apply getPi_0_spec. Qed.

End SchemeProperties.

Lemma ex_g_unit : ~ pp_g ex_pp ≡[q] 0.
Proof. by apply not_cong_eval. Qed.

Lemma AggSig_reencrypts_witness :
  AggSig 600 ex_parsigs ex_pp ex_uavH 81 @ ref_world ⇓ fun sigma w' =>
    later ref_world w' /\ sg_IDs sigma = map ps_ID ex_parsigs
    /\ length (sg_aux sigma) = length ex_parsigs /\ length (sg_sig sigma) = length ex_parsigs
    /\ forall i aux sig id, sg_aux sigma !! i = Some aux -> sg_sig sigma !! i = Some sig ->
         sg_IDs sigma !! i = Some id ->
         sigma_ok_at ex_pp (share_poly ex_b ex_d 1) ex_Hm ex_h aux sig id.
Proof.
  apply (AggSig_reencrypts 600 ex_pp ex_alpha ex_parsigs ex_uavH 81 ex_h _ ex_Hm ref_world);
    [exact ex_wf|exact ex_g_unit|reflexivity|lia|exact (proj1 ex_h_ok)|exact (proj2 ex_h_ok)| |
     exact ex_parsigs_ok].
  change (81 ^ ex_alpha mod q) with (9 ^ 4 mod q). exact ex_hash_ok.
Defined.

Lemma Sign_encrypts_witness :
  Sign ex_pp (ex_uav 7) 2 ex_M ⇓ fun ps =>
    ps_ID ps = 7 /\ parsig_ok ex_pp (share_poly ex_b ex_d 1) ex_Hm ps.
Proof.
  exact (Sign_encrypts ex_pp ex_alpha ex_b ex_d (ex_uav 7) 1 ex_M ex_Hm ex_wf
    (ex_shares 7 ltac:(lia)) (le_n 1) ex_Hm_ok).
Defined.

Lemma KeyGen_distributes_witness :
  KeyGen ex_pp ex_alpha @ ex_world ⇓ fun r w' =>
    later ex_world w' /\ rng_at state_gmp 10 7 w' /\ h_alpha (snd r) = ex_alpha
    /\ map u_ID (snd (fst r)) = map (fun j => draw 10 (2 + j * 2)) (seq 0 2)
    /\ exists b d, keys_ok ex_pp (fst (fst r)) b d (snd (fst r)).
Proof.
  exact (KeyGen_distributes ex_pp ex_alpha 10 0 ex_world ex_wf (Z.le_refl 2) ltac:(vm_compute; discriminate)
    eq_refl).
Defined.

Lemma ex_in_range x : 0 <= x < 1000 -> in_range [x].
Proof. assert (1000 < q) by done. intros. repeat constructor; lia. Qed.

Lemma getUAV_shares_witness :
  getUAV ex_pp ex_d ex_b 7 @ ex_world ⇓ fun uav w' =>
    later ex_world w' /\ rng_at state_gmp 10 1 w' /\ u_ID uav = 7 /\ holds_shares ex_pp ex_b ex_d uav.
Proof.
  exact (getUAV_shares ex_pp ex_alpha ex_d ex_b 7 10 0 ex_world ex_wf (ex_in_range 5 ltac:(lia))
    (ex_in_range 2 ltac:(lia)) (le_n 1) ltac:(lia) eq_refl).
Defined.

Lemma getPi_0_lagrange_witness :
  getPi_0 ex_pp ex_ids 2 ⇓ fun Pis =>
    length Pis = 2%nat /\ forall i w, Pis !! i = Some w -> lagrange_weight ex_ids 2 i w.
Proof. exact (getPi_0_lagrange ex_pp ex_ids 2 eq_refl ex_good_ids). Defined.


(** ** Hashing to a number coprime to [q - 1] *)

Section HashProperties.
Context `{GL : GmpLaws} `{BL : BigLaws} `{HL : !HashLaws HO}.

(** C26.  When the first hash is not a multiple of the increment, the search
    of [hashToCoprime] ends within 600 rounds, with a number that is
    invertible modulo [q - 1]. *)
Theorem hashToCoprime_terminates fuel x :
  0 <= x < 2 ^ 256 -> good_hash x -> (600 <= fuel)%nat ->
  (factors ← getFactors; hashToCoprime fuel x (q - 1) factors) ⇓ fun h =>
    0 <= h /\ Z.gcd h (q - 1) = 1.
Proof. intros. rewrite getFactors_spec. by apply hashToCoprime_spec. Qed.

(**  The increment 254760293 is itself one of the factors, so when the
    first hash is a multiple of it every candidate is, and the search never
    ends: no number of rounds is enough. *)
Theorem hashToCoprime_never_ends x h :
  hashToZp256 x (q - 1) = Ok h -> (inc | h) ->
  forall fuel, (factors ← getFactors; hashToCoprime fuel x (q - 1) factors) = Diverge.
Proof. intros Hh Hd fuel. rewrite getFactors_spec. by apply (hashToCoprime_diverges fuel x h). Qed.
End HashProperties.

(**  Trial division by the listed factors decides coprimality with
    [q - 1], for every integer. *)
Theorem isCoprime_decides x :
  (factors ← getFactors; isCoprime x factors) = Ok (bool_decide (Z.gcd x (q - 1) = 1)).
Proof. rewrite getFactors_spec. apply isCoprime_order. Qed.

Lemma hashToCoprime_terminates_witness :
  (factors ← getFactors; hashToCoprime 600 (9 ^ 4 mod q) (q - 1) factors) ⇓ fun h =>
    0 <= h /\ Z.gcd h (q - 1) = 1.
Proof.
  apply (hashToCoprime_terminates 600 (9 ^ 4 mod q));
    [split; [discriminate|reflexivity]|apply good_hash_eval; vm_compute; reflexivity|lia].
Defined.

(** An input whose reference hash is a multiple of the increment. *)
Lemma hashToCoprime_never_ends_witness :
  (factors ← getFactors; hashToCoprime 100000 6623109126682 (q - 1) factors) = Diverge.
Proof.
  apply (hashToCoprime_never_ends 6623109126682
    (match hashToZp256 6623109126682 (q - 1) with Ok h => h | _ => 0 end)).
  - vm_compute. reflexivity.
  - apply Z.mod_divide; [discriminate|]. vm_compute. reflexivity.
Defined.

(** ** Numbers *)

Section NumberProperties.
Context `{GL : GmpLaws} `{BL : BigLaws} `{HL : !HashLaws HO} `{CL : !CurveLaws CO} `{!ClockOps}.

(** C30.  The extended Euclid loop of [BIG_inv] ends after at most [2 k] rounds
    for a modulus below [2^k] and returns the inverse of [a] in [0, m). *)
Theorem BIG_inv_correct a m fuel (k : nat) :
  1 < BIG_val m -> 0 <= BIG_val a -> Z.gcd (BIG_val a) (BIG_val m) = 1 ->
  BIG_val m < 2 ^ Z.of_nat k -> (2 * k <= fuel)%nat ->
  BIG_inv fuel a m ⇓ fun r =>
    0 <= BIG_val r < BIG_val m /\ BIG_val r * BIG_val a ≡[BIG_val m] 1.
Proof. intros Hm. by apply BIG_inv_spec. Qed.

(**  [mpz_to_BIG] is exact on numbers of at most 256 bits, and
    [BIG_to_mpz] reads the number back. *)
Theorem mpz_to_BIG_exact t :
  0 <= t < 2 ^ 256 -> mpz_to_BIG t ⇓ fun b => BIG_val b = t /\ BIG_to_mpz b = Ok t.
Proof.
  intros Ht. pose proof big_256. call mpz_to_BIG_spec; [done|]. intros b Hb. split; [done|].
  pose proof (BIG_to_mpz_spec b ltac:(lia)) as Hr. apply returns_ok in Hr as (t' & -> & ->).
  by rewrite Hb.
Qed.

(**  Messages of 65 hexadecimal digits that differ in the last digit hash
    to the same point, whatever the hash function: [mpz_to_BIG] reads the
    leading 64 digits only. *)
Theorem hashToPoint_collides t d d' :
  2 ^ 252 <= t < 2 ^ 256 -> 0 <= d < 16 -> 0 <= d' < 16 ->
  hashToPoint (16 * t + d) q = hashToPoint (16 * t + d') q.
Proof. by apply hashToPoint_truncates. Qed.

(**  [rand_mpz] returns a number in [1, q], the order included, and moves
    only the generator it draws from; without [initState] it reads a
    generator that was never initialised. *)
Theorem rand_mpz_range v (w : World) :
  (forall s, w_rng w v = Some s ->
     rand_mpz v @ w ⇓ fun r w' =>
       1 <= r <= q /\ w' = set_rng v (snd (mpz_urandomm s max_value)) w)
  /\ (w_rng w v = None -> rand_mpz v w = Fault Uninitialised).
Proof. split; [intros s; by apply rand_mpz_spec|by apply rand_mpz_uninitialised]. Qed.
End NumberProperties.

Lemma BIG_inv_correct_witness :
  BIG_inv (B:=ref_big) 6 3 7 ⇓ fun r => 0 <= r < 7 /\ r * 3 ≡[7] 1.
Proof.
  apply (BIG_inv_correct (B:=ref_big) 3 7 6 3);
    [reflexivity|discriminate|reflexivity|reflexivity|lia].
Defined.

Lemma mpz_to_BIG_exact_witness :
  mpz_to_BIG (q - 1) ⇓ fun b => BIG_val b = q - 1 /\ BIG_to_mpz b = Ok (q - 1).
Proof. apply (mpz_to_BIG_exact (q - 1)). split; [discriminate|reflexivity]. Defined.

Lemma hashToPoint_collides_witness :
  hashToPoint (16 * 2 ^ 252 + 1) q = hashToPoint (16 * 2 ^ 252 + 2) q.
Proof. apply (hashToPoint_collides (2 ^ 252) 1 2); [split; [discriminate|reflexivity]|lia|lia]. Defined.

Lemma rand_mpz_range_witness :
  (forall s, w_rng ex_world state_gmp = Some s ->
     rand_mpz state_gmp @ ex_world ⇓ fun r w' =>
       1 <= r <= q /\ w' = set_rng state_gmp (snd (mpz_urandomm s max_value)) ex_world)
  /\ (w_rng ex_world state_gmp = None -> rand_mpz state_gmp ex_world = Fault Uninitialised).
Proof. exact (rand_mpz_range state_gmp ex_world). Defined.
