(* ===== verification/Codecs.v ===== *)
(** * What is written is read back

    The properties of brpcTools.cpp (numbers, points and lists of them as
    strings) and of the generated message classes. *)

From Stdlib Require Import ZArith Lia Ascii String.
From stdpp Require Import base list.
From S2P Require Import Prelude ModArith Primality Text Group Gmp Miracl Tools Coprime Scheme.
From S2P Require Import BrpcTools Wire UAVMsg TAMsg AggMsg Reference Rpc Link Examples.

Open Scope Z_scope.

Local Notation q := curve_order.

(** ** Strings *)

Section StringProperties.
Context `{GL : GmpLaws} `{BL : BigLaws} `{CL : !CurveLaws CO} `{HO : !HashOps}.

(**  A finite point of the curve survives [ECP_to_str] and [str_to_ECP];
    its string has no semicolon and at most 193 characters. *)
Theorem ECP_str_roundtrip P :
  ECP_isinf P = false ->
  ECP_to_str P ⇓ fun s => s <> [] /\ ";"%char ∉ s /\ vec_size s <= 193
    /\ str_to_ECP s ⇓ fun P' => P' =1= P.
Proof. apply ECP_roundtrip. Qed.

(**  A finite point of the twist survives [ECP2_to_str], compressed, and
    [str_to_ECP2], and reading it changes nothing else. *)
Theorem ECP2_str_roundtrip P :
  ~ P =2= ECP2_inf ->
  ECP2_to_str P true ⇓ fun s => s <> [] /\ ";"%char ∉ s /\ vec_size s <= 194
    /\ exists P', P' =2= P /\ forall w, str_to_ECP2 s w = Ok (P', w).
Proof. apply ECP2_roundtrip. Qed.

(** C34.  A list of finite points of the twist survives [ECP2Arr_to_str] in the
    compressed format, the default and the only one that [str_to_ECP2] says it
    supports: same length, same points, same order, and no point is written
    past the buffer of 192 bytes. *)
Theorem ECP2Arr_str_roundtrip ecp2s :
  Forall (fun P => ~ P =2= ECP2_inf) ecp2s ->
  ECP2Arr_to_str ecp2s true ⇓ fun s => vec_size s <= 195 * vec_size ecp2s
    /\ forall w, str_to_ECP2Arr s @ w ⇓ fun ecp2s' w' => Forall2 ecp2_eq ecp2s' ecp2s /\ w' = w.
Proof. apply ECP2Arr_roundtrip. Qed.

(** An uncompressed point, whose octet is a byte and both coordinates, does not
    fit into the buffer. *)
Theorem ECP2_to_str_overflows P :
  4 * MODBYTES < vec_size (ECP2_toOctet P false) -> ECP2_to_str P false = Fault OutOfRange.
Proof.
  intros H. unfold ECP2_to_str, in_buffer. rewrite (proj2 (Z.leb_gt _ _)); [done|]. unfold MODBYTES in H. lia.
Qed.

(**  Every pairing value survives [FP12_to_str] and [str_to_FP12]. *)
Theorem FP12_str_roundtrip x :
  FP12_to_str x ⇓ fun s => str_to_FP12 s ⇓ fun x' => x' =t= x.
Proof. apply FP12_roundtrip. Qed.

(**  Every list of integers, of any size and sign, survives
    [mpzArr_to_str] and [str_to_mpzArr]; a single one survives [mpz_to_str]
    and [str_to_mpz]. *)
Theorem mpzArr_str_roundtrip l :
  mpzArr_to_str l ≫= str_to_mpzArr = Ok l
  /\ Forall (fun z => str_to_mpz (mpz_to_str z) = Ok z) l.
Proof.
  split; [apply mpzArr_roundtrip|]. apply Forall_forall. intros z _. apply mpz_roundtrip.
Qed.
End StringProperties.

Lemma ref_small_finite x : 0 < x < 1000 -> ~ (x : ECP2) =2= ECP2_inf.
Proof.
  intros Hx H. assert (Hc : x ≡[q] 0) by exact (proj1 (ref_eqb_spec x 0) H).
  assert (1000 < q) by done. apply (cong_small q) in Hc; lia.
Qed.

Lemma ECP_str_roundtrip_witness :
  ECP_to_str (19 : ECP) ⇓ fun s => s <> [] /\ ";"%char ∉ s /\ vec_size s <= 193
    /\ str_to_ECP s ⇓ fun P' => P' =1= (19 : ECP).
Proof. exact (ECP_str_roundtrip (19 : ECP) eq_refl). Defined.

Lemma ECP2_str_roundtrip_witness :
  ECP2_to_str (19 : ECP2) true ⇓ fun s => s <> [] /\ ";"%char ∉ s /\ vec_size s <= 194
    /\ exists P', P' =2= (19 : ECP2) /\ forall w, str_to_ECP2 s w = Ok (P', w).
Proof. exact (ECP2_str_roundtrip (19 : ECP2) (ref_small_finite 19 ltac:(lia))). Defined.

Lemma ECP2_to_str_overflows_witness : ECP2_to_str (19 : ECP2) false = Fault OutOfRange.
Proof. apply ECP2_to_str_overflows. by vm_compute. Defined.

Definition ex_points : list (@ECP2 ref_big ref_curve) := [5; 7].

Lemma ECP2Arr_str_roundtrip_witness :
  ECP2Arr_to_str ex_points true ⇓ fun s => vec_size s <= 195 * 2
    /\ forall w, str_to_ECP2Arr s @ w ⇓ fun l w' => Forall2 ecp2_eq l ex_points /\ w' = w.
Proof.
  apply (ECP2Arr_str_roundtrip ex_points).
  constructor; [|constructor; [|constructor]]; apply ref_small_finite; lia.
Defined.

Lemma FP12_str_roundtrip_witness :
  FP12_to_str (42 : FP12) ⇓ fun s => str_to_FP12 s ⇓ fun x' => x' =t= (42 : FP12).
Proof. exact (FP12_str_roundtrip (42 : FP12)). Defined.

Lemma mpzArr_str_roundtrip_witness :
  mpzArr_to_str [0; -5; q] ≫= str_to_mpzArr = Ok [0; -5; q]
  /\ Forall (fun z => str_to_mpz (mpz_to_str z) = Ok z) [0; -5; q].
Proof. exact (mpzArr_str_roundtrip [0; -5; q]). Defined.

(** ** Messages *)

Section MessageProperties.
Context `{WL : WireLaws}.

(** C31.  A [UAVIDResponse] whose has-bits agree with its fields, nested
    parameters included, is read back exactly as it was written. *)
Theorem UAVIDResponse_roundtrip m :
  UAVIDResponse_wf m -> UAVIDResponse_sendable m ->
  UAVIDResponse_InternalParse UAVIDResponse_default (UAVIDResponse_InternalSerialize m) = Some (m, [], 0).
Proof. apply UAVIDResponse_parse_serialize. Qed.

(**  [ByteSizeLong], from which the writer allocates its buffer, is the
    exact number of bytes that [_InternalSerialize] writes. *)
Theorem UAVIDResponse_size_exact m :
  UAVIDResponse_sendable m ->
  UAVIDResponse_ByteSizeLong m = vec_size (UAVIDResponse_InternalSerialize m).
Proof. apply UAVIDResponse_byte_size_ok. Qed.

(** The words below 8. *)
Lemma words_8 h :
  0 <= h < 8 -> h = 0 \/ h = 1 \/ h = 2 \/ h = 3 \/ h = 4 \/ h = 5 \/ h = 6 \/ h = 7.
Proof. lia. Qed.

(**  A [SignResponse] gets to the other side exactly when its three
    required fields are set, and then unchanged. *)
Theorem SignResponse_transmit m :
  SignResponse_wf m -> SignResponse_sendable m ->
  transmit m = if SignResponse_has_cj m && SignResponse_has_sig m && SignResponse_has_id m
               then Some m else None.
Proof.
  intros Hwf Hs. assert (Hi : msg_initialized m =
    SignResponse_has_cj m && SignResponse_has_sig m && SignResponse_has_id m).
  { destruct Hwf as [Hb%words_8 _]. destruct m as [h cj sig id u]. cbn in Hb.
    decompose [or] Hb; subst; reflexivity. }
  rewrite <- Hi. destruct (msg_initialized m) eqn:E; [by apply transmit_ok|by apply transmit_missing].
Qed.
End MessageProperties.

Definition ex_sign_response : SignResponse :=
  SignResponse_set_id (lit "7") (SignResponse_set_sig (lit "19,23")
    (SignResponse_set_cj (lit "1") SignResponse_default)).

Lemma ex_sign_response_ok : SignResponse_wf ex_sign_response /\ SignResponse_sendable ex_sign_response.
Proof. split; repeat split; try done; vm_compute; intros; congruence. Qed.

Definition ex_id_response : UAVIDResponse :=
  UAVIDResponse_set_t (-3) (UAVIDResponse_set_m (lit "ff")
    (UAVIDResponse_mutable_params (Parameters_set_tm 20)
      (UAVIDResponse_mutable_params (Parameters_set_q (lit "abc")) UAVIDResponse_default))).

Lemma ex_id_response_ok : UAVIDResponse_wf ex_id_response /\ UAVIDResponse_sendable ex_id_response.
Proof.
  split.
  - unfold UAVIDResponse_wf, Parameters_wf. cbn. split_and!; try done; try lia.
    intros _. eexists. split; [done|]. cbn. by split_and!.
  - unfold UAVIDResponse_sendable, Parameters_sendable. split_and!; try reflexivity;
      unfold is_int32; vm_compute; (split; congruence) || reflexivity.
Qed.

Lemma UAVIDResponse_roundtrip_witness :
  UAVIDResponse_InternalParse UAVIDResponse_default (UAVIDResponse_InternalSerialize ex_id_response)
  = Some (ex_id_response, [], 0).
Proof.
  exact (UAVIDResponse_roundtrip ex_id_response (proj1 ex_id_response_ok) (proj2 ex_id_response_ok)).
Defined.

Lemma UAVIDResponse_size_exact_witness :
  UAVIDResponse_ByteSizeLong ex_id_response
  = vec_size (UAVIDResponse_InternalSerialize ex_id_response).
Proof. exact (UAVIDResponse_size_exact ex_id_response (proj2 ex_id_response_ok)). Defined.

Lemma SignResponse_transmit_witness :
  transmit ex_sign_response = Some ex_sign_response.
Proof.
  exact (SignResponse_transmit ex_sign_response (proj1 ex_sign_response_ok)
    (proj2 ex_sign_response_ok)).
Defined.
