(* ===== verification/Nodes.v ===== *)
(** * The four programs are correct

    The properties of brpcTA.cpp, brpcUAV.cpp, brpcAgg.cpp and
    brpcVerifier.cpp, one by one against the services they use, and together
    in a deployment. *)

From Stdlib Require Import ZArith Lia Ascii String.
From stdpp Require Import base list relations.
From S2P Require Import Prelude ModArith Primality Text Group Gmp Miracl Tools Coprime Scheme.
From S2P Require Import Verification BrpcTools Wire UAVMsg TAMsg AggMsg Reference Rpc Link TA.
From S2P Require Import UAVNode Aggregator Verifier System Interleaving Examples.

Open Scope Z_scope.

Local Notation q := curve_order.

(** ** Deployments *)

Section DeploymentProperties.
Context `{GL : GmpLaws} `{BL : BigLaws} `{HL : !HashLaws HO} `{CL : !CurveLaws CO} `{!ClockOps}.
Context `{WL : WireLaws}.

(** C1.  From the TA's [initParams] on: the UAVs register, the head fetches its
    key and collects the partial signatures, and the verifier's [main], all
    over the wire, terminates and prints "verify result = 1" last, unless the
    random choices are degenerate. *)
Theorem deployment_accepts fuel st0 ta Hm su sh sv wU wT0 wT wH wV :
  ta_b st0 = [] -> ta_d st0 = [] -> initParams st0 wT0 = Ok (ta, wT) ->
  ~ pp_g (ta_pp ta) ≡[q] 0 -> hashToPoint 123456789 q = Ok Hm -> ~ Hm =1= ECP_inf ->
  good_deployment ta wU wV -> ag_sigmas sh = [] -> (600 <= fuel)%nat ->
  network fuel ta su sh sv wU wT wH wV ⇓ fun out => last out = Some (result_line true).
Proof.
  intros Hb Hd Hinit Hg HHm Hfin Hgd Hnil Hf. pose proof order_256. pose proof order_gt_1.
  pose proof (initParams_spec st0 wT0 Hb Hd) as Hi. unfold runs in Hi. rewrite Hinit in Hi.
  destruct Hi as (_ & HT & Hta & _ & _ & _ & HM & _).
  apply (network_spec fuel ta Hm); try done. split; try done; [by rewrite HM|].
  pose proof (hashToPoint_spec 123456789 q ltac:(lia) ltac:(lia)) as HG. by rewrite HHm in HG.
Qed.

(**  [initParams] leaves the TA with well-formed parameters for 52 UAVs,
    largest threshold 20 and threshold 11, with 19 coefficients in range and a
    public key for every prefix of them. *)
Theorem initParams_establishes st w :
  ta_b st = [] -> ta_d st = [] ->
  initParams st @ w ⇓ fun st' w' =>
    later w w' /\ ready state_gmp w' /\ ta_ok st' /\ pp_n (ta_pp st') = 52
    /\ pp_tm (ta_pp st') = 20 /\ ta_t st' = 11 /\ ta_M st' = 123456789
    /\ length (ta_b st') = 19%nat.
Proof. apply initParams_spec. Qed.
End DeploymentProperties.

(** Programs before they start, and the worlds of a deployment. *)
Definition no_params : Params := mkParams 0 0 0 (0 : ECP2) 0 0 [].
Definition ta_start : TAState := mkTA no_params 0 [] [] 0 0.
Definition uav_start : UAVState := mkUAVState no_params (mkUAV [] [] 0).
Definition head_start : AggState := mkAgg no_params (mkUAV_h 0 0) 0 0 [].
Definition ver_start : VerState := mkVer no_params 0 0.
Definition world_at (tick : nat) : World := mkWorld ref_gmp (fun _ => None) tick [].
Definition run_ta : TAState :=
  match initParams ta_start ref_world with Ok (st, _) => st | _ => ta_start end.
Definition run_w : World :=
  match initParams ta_start ref_world with Ok (_, w) => w | _ => ref_world end.
Definition run_wU (i : nat) : World := world_at (100 + i).

(** The conditions on a deployment, evaluated. *)
Definition nonzero (x : Z) : bool := negb (x mod q =? 0 mod q).
Definition deployment_check (ta : TAState) (wU : nat -> World) (wV : World) : bool :=
  forallb nonzero (ta_b ta)
  && forallb (fun i => negb (uav_id wU i =? q) && negb (uav_id wU i =? head_id)
       && nonzero (share ta (uav_id wU i))
       && forallb (fun j => (j <=? i)%nat || negb (uav_id wU i =? uav_id wU j))
            (seq 0 (S (degree ta)))) (seq 0 (S (degree ta)))
  && negb (draw (next_seed wV) 0 =? head_id)
  && match hashToZp256 (pp_beta (ta_pp ta) ^ draw (second_seed wV) 0 mod q) (q - 1) with
     | Ok h => negb (h mod inc =? 0) | _ => false end.

Lemma nonzero_ok x : nonzero x = true -> ~ x ≡[q] 0.
Proof. intros Hx%negb_true_iff. by apply not_cong_eval. Qed.

Lemma deployment_check_ok ta wU wV : deployment_check ta wU wV = true -> good_deployment ta wU wV.
Proof.
  unfold deployment_check. rewrite !andb_true_iff. intros (((Hb & Hid) & Hv) & Hh).
  rewrite forallb_forall in Hb, Hid.
  assert (Hi : forall i, (i <= degree ta)%nat -> In i (seq 0 (S (degree ta)))).
  { intros i Hle. apply in_seq. lia. }
  split.
  - apply Forall_forall. intros x Hx. apply nonzero_ok, Hb. by apply list_elem_of_In.
  - intros i Hle. specialize (Hid i (Hi i Hle)). rewrite !andb_true_iff, !negb_true_iff, !Z.eqb_neq in Hid.
    destruct Hid as (((? & ?) & ?) & _). split_and!; [done|done|by apply nonzero_ok].
  - intros i j Hij. specialize (Hid i (Hi i ltac:(lia))). rewrite !andb_true_iff in Hid.
    destruct Hid as (_ & Hd). rewrite forallb_forall in Hd. specialize (Hd j (Hi j ltac:(lia))).
    apply orb_true_iff in Hd as [Hd|Hd]; [apply Nat.leb_le in Hd; lia|].
    by apply negb_true_iff, Z.eqb_neq in Hd.
  - by apply negb_true_iff, Z.eqb_neq in Hv.
  - by apply good_hash_eval.
Qed.

Lemma ex_Hm_finite : ~ ex_Hm =1= ECP_inf.
Proof.
  intros H. assert (Hc : ex_Hm ≡[q] 0) by exact (proj1 (ref_eqb_spec ex_Hm 0) H).
  revert Hc. apply not_cong_eval. vm_compute. reflexivity.
Qed.

Lemma run_ok : initParams ta_start ref_world = Ok (run_ta, run_w).
Proof.
  pose proof (initParams_spec ta_start ref_world eq_refl eq_refl) as Hi. unfold runs in Hi.
  unfold run_ta, run_w. destruct (initParams ta_start ref_world) as [[st w]| |]; [done|contradiction..].
Qed.

Lemma deployment_accepts_witness :
  network 600 run_ta uav_start head_start ver_start run_wU run_w ref_world (world_at 200)
    ⇓ fun out => last out = Some (result_line true).
Proof.
  apply (deployment_accepts 600 ta_start run_ta ex_Hm uav_start head_start ver_start run_wU
    ref_world run_w ref_world (world_at 200));
    [reflexivity|reflexivity|exact run_ok| |exact ex_Hm_ok|exact ex_Hm_finite| |reflexivity|lia].
  - apply not_cong_eval. vm_compute. reflexivity.
  - apply deployment_check_ok. vm_compute. reflexivity.
Defined.

Lemma initParams_establishes_witness :
  initParams ta_start @ ref_world ⇓ fun st' w' =>
    later ref_world w' /\ ready state_gmp w' /\ ta_ok st' /\ pp_n (ta_pp st') = 52
    /\ pp_tm (ta_pp st') = 20 /\ ta_t st' = 11 /\ ta_M st' = 123456789
    /\ length (ta_b st') = 19%nat.
Proof. exact (initParams_establishes ta_start ref_world eq_refl eq_refl). Defined.

(** ** The TA *)

Section TAProperties.
Context `{GL : GmpLaws} `{BL : BigLaws} `{HL : !HashLaws HO} `{CL : !CurveLaws CO} `{!ClockOps}.
Context `{WL : WireLaws}.

(** C27.  [Register], asked with any identity but the head's, replies with the
    TA's parameters, message and threshold and with the caller's encrypted
    shares, all of which decode at the other end. *)
Theorem Register_replies_shares st request id w :
  ta_ok st -> finite_keys st -> ready state_gmp w ->
  str_to_mpz (UAVIDRequest_get_uav_id request) = Ok id -> 0 <= id ->
  UAVIDRequest_get_uav_id request <> isUAVh ->
  Register st request @ w ⇓ fun r w' => later w w' /\ reply_shares st id r.
Proof. apply Register_shares. Qed.

(**  [Register], asked with the 64 sixes, replies with the head's private
    key to whoever asks; an identity that is no number throws. *)
Theorem Register_replies_key st request w :
  ta_ok st -> finite_keys st ->
  (UAVIDRequest_get_uav_id request = isUAVh ->
     Register st request @ w ⇓ fun r w' => w' = w /\ reply_key st r)
  /\ (UAVIDRequest_get_uav_id request = [] -> Register st request w = Fault InvalidArgument).
Proof.
  intros Hta Hfin. split; [by apply Register_key|]. intros Hid.
  apply Register_malformed. rewrite Hid. apply str_to_mpz_empty.
Qed.
End TAProperties.

(** The small instance of Examples.v as a TA. *)
Definition ex_ta : TAState := mkTA ex_pp ex_alpha ex_d ex_b ex_M 2.
Definition ex_request (id : Z) : UAVIDRequest :=
  UAVIDRequest_set_uav_id (mpz_to_str id) UAVIDRequest_default.

Lemma ex_ta_ok : ta_ok ex_ta.
Proof.
  assert (1000 < q) by done. split.
  - exact ex_wf.
  - vm_compute. discriminate.
  - repeat constructor; lia.
  - repeat constructor; lia.
  - simpl. lia.
  - reflexivity.
  - reflexivity.
  - intros [|i] P HP; [|discriminate HP]. injection HP as <-. apply ref_eqb_spec.
    change (5 ≡[q] zmul Z.add 0 (secret ex_b 1) 1). by rewrite ref_zmul.
  - split; vm_compute; congruence.
  - split; vm_compute; congruence.
  - split; vm_compute; congruence.
  - split; vm_compute; congruence.
Qed.

Lemma ex_ta_finite : finite_keys ex_ta.
Proof.
  apply finite_keys_units; [exact ex_ta_ok|]. constructor; [|constructor].
  apply not_cong_eval. reflexivity.
Qed.

Lemma ex_world_ready v : ready v ex_world.
Proof. by exists 10. Qed.

Lemma Register_replies_shares_witness :
  Register ex_ta (ex_request 7) @ ex_world ⇓ fun r w' => later ex_world w' /\ reply_shares ex_ta 7 r.
Proof.
  apply (Register_replies_shares ex_ta (ex_request 7) 7 ex_world);
    [exact ex_ta_ok|exact ex_ta_finite|apply ex_world_ready|reflexivity|lia|discriminate].
Defined.

Lemma Register_replies_key_witness :
  Register ex_ta (ex_request head_id) @ ex_world ⇓ fun r w' => w' = ex_world /\ reply_key ex_ta r.
Proof.
  apply (Register_replies_key ex_ta (ex_request head_id) ex_world ex_ta_ok ex_ta_finite).
  vm_compute. reflexivity.
Defined.

(** ** A UAV *)

Section UAVProperties.
Context `{GL : GmpLaws} `{BL : BigLaws} `{HL : !HashLaws HO} `{CL : !CurveLaws CO} `{!ClockOps}.
Context `{WL : WireLaws}.

(**  Against any TA that keeps its promise, [registerUAV] returns 1 and
    leaves the UAV with the TA's parameters and its own shares under the
    identity it drew. *)
Theorem registerUAV_registers ta `{RS : !RegisterService ta (N:=Net) up stub} st net w :
  up net -> draw (next_seed w) 0 <> head_id ->
  registerUAV 0 false stub st net @ w ⇓ fun r w' =>
    fst (fst r) = 1 /\ up (snd r) /\ later w w'
    /\ registered ta (draw (next_seed w) 0) (snd (fst r)).
Proof. intros Hup Hne. by apply (registerUAV_spec ta). Qed.

(**  When the call fails, [registerUAV] leaves the UAV as it was and still
    returns 1; only a channel that cannot be set up makes it return -1. *)
Theorem registerUAV_ignores_failure {Net} (stub : rpc Net UAVIDRequest UAVIDResponse) st net w :
  (forall request, fst (stub request net) = None) ->
  registerUAV 0 false stub st net @ w ⇓ (fun r w' => fst r = (1, st) /\ later w w')
  /\ forall init quit, init <> 0 -> registerUAV init quit stub st net w = Ok (-1, st, net, w).
Proof.
  intros Hf. split; [call registerUAV_failed; [done|]; naive_solver|]. intros init quit Hi. unfold registerUAV.
  by destruct (Z.eqb_spec init 0).
Qed.

(**  The [sign] service of a registered UAV answers the head's request
    with a message that can be sent and decodes to a partial signature over
    the TA's polynomial at the UAV's identity. *)
Theorem sign_replies ta Hm id st :
  live ta Hm -> registered ta id st -> 0 <= id < 2 ^ 256 -> ~ share ta id ≡[q] 0 ->
  sign st (sign_request ta) ⇓ fun r =>
    msg_ok r /\ msg_initialized r = true /\ reply_sig ta Hm id r.
Proof. apply sign_spec. Qed.
End UAVProperties.

Lemma registerUAV_registers_witness :
  registerUAV 0 false (remote (Register ex_ta)) uav_start ex_world @ ref_world ⇓ fun r w' =>
    fst (fst r) = 1 /\ ready state_gmp (snd r) /\ later ref_world w'
    /\ registered ex_ta (draw (next_seed ref_world) 0) (snd (fst r)).
Proof.
  apply (registerUAV_registers ex_ta (RS := Register_service ex_ta ex_ta_ok ex_ta_finite));
    [apply ex_world_ready|vm_compute; discriminate].
Defined.

Lemma registerUAV_ignores_failure_witness :
  registerUAV 0 false (fun _ (net : unit) => (None, net)) uav_start tt @ ref_world
    ⇓ (fun r w' => fst r = (1, uav_start) /\ later ref_world w')
  /\ forall init quit, init <> 0 ->
       registerUAV init quit (fun _ (net : unit) => (None, net)) uav_start tt ref_world
       = Ok (-1, uav_start, tt, ref_world).
Proof.
  apply (registerUAV_ignores_failure (fun _ (net : unit) => (None, net)) uav_start tt ref_world).
  reflexivity.
Defined.

Definition ex_uav_state (id : Z) : UAVState := mkUAVState ex_pp (ex_uav id).

Lemma params_eqv_refl pp : params_eqv pp pp.
Proof. by split. Qed.

Lemma ex_registered id : 0 <= id < 1000 -> registered ex_ta id (ex_uav_state id).
Proof. intros Hid. split; [apply params_eqv_refl|done|by apply ex_shares]. Qed.

Lemma ex_live : live ex_ta ex_Hm.
Proof.
  pose proof ex_Hm_pos.
  split; [exact ex_ta_ok|by apply not_cong_eval|exact ex_Hm_ok|apply ref_in_G1; lia|exact ex_Hm_finite].
Qed.

Lemma sign_replies_witness :
  sign (ex_uav_state 7) (sign_request ex_ta) ⇓ fun r =>
    msg_ok r /\ msg_initialized r = true /\ reply_sig ex_ta ex_Hm 7 r.
Proof.
  apply (sign_replies ex_ta ex_Hm 7 (ex_uav_state 7));
    [exact ex_live|apply ex_registered; lia|lia|apply not_cong_eval; vm_compute; reflexivity].
Defined.

(** ** The head *)

Section HeadProperties.
Context `{GL : GmpLaws} `{BL : BigLaws} `{HL : !HashLaws HO} `{CL : !CurveLaws CO} `{!ClockOps}.
Context `{WL : WireLaws}.

(**  Against UAVs that keep their promise at the ports 8002, 8003, ...,
    [collectParSigs] returns 1 with one valid partial signature for each of
    the [t] identities, in the order of the ports. *)
Theorem collectParSigs_collects ta Hm {Net} (up : Net -> Prop)
    (stub : str -> rpc Net SignRequest SignResponse) (ids : nat -> Z) st net w :
  (forall j, (j < Z.to_nat (ta_t ta))%nat ->
     SignService ta Hm (ids j) up (stub (server_address (Z.of_nat j)))) ->
  head_ok ta st -> ag_sigmas st = [] -> up net ->
  collectParSigs (fun _ => 0) (fun _ => false) stub st net @ w ⇓ fun r w' =>
    fst (fst r) = 1 /\ up (snd r) /\ later w w' /\ head_ok ta (snd (fst r))
    /\ collected ta Hm (map ids (seq 0 (Z.to_nat (ta_t ta)))) (ag_sigmas (snd (fst r))).
Proof. apply collectParSigs_spec. Qed.

(**  With every UAV down [collectParSigs] collects nothing and still
    returns 1. *)
Theorem collectParSigs_ignores_failure {Net} (stub : str -> rpc Net SignRequest SignResponse) st net w :
  (forall addr request net, fst (stub addr request net) = None) ->
  collectParSigs (fun _ => 0) (fun _ => false) stub st net @ w ⇓ fun r _ => fst r = (1, st).
Proof. apply collect_loop_failed. Qed.

(** C28.  The [Tran] service re-encrypts what was collected for the verifier
    whose public key it is asked with: its reply can be sent and decodes to a
    signature that this verifier can open. *)
Theorem Tran_replies fuel ta Hm st PK_v h ids w :
  live ta Hm -> head_ok ta st -> collected ta Hm ids (ag_sigmas st) -> useful_ids ta ids ->
  vec_size ids <= 10000 -> 0 <= PK_v -> 0 <= h -> Z.gcd h (q - 1) = 1 ->
  hashToCoprime fuel (PK_v ^ ta_sk ta mod q) (q - 1) order_factors = Ok h ->
  Tran fuel st (verifyRequest_set_pk_v (mpz_to_str PK_v) verifyRequest_default) @ w ⇓ fun r w' =>
    msg_ok r /\ msg_initialized r = true /\ reply_sigma ta Hm h ids r.
Proof. apply Tran_spec. Qed.

(** C29.  The verifier's [main], against a TA and a head that keep their
    promises, terminates and prints "verify result = 1" last in every
    non-degenerate run: the identities of the signature are distinct and between 1 and q - 1, the
    verifier's identity is not the head's, and the increment of the coprime
    search does not divide the first hash of its key. *)
Theorem main_prints fuel ta Hm (ids : list Z) `{RS : !RegisterService ta (N:=Net) upT stubT}
    `{TS : !TranService fuel ta Hm ids (N:=Net') upA stubA} st netT netA w :
  live ta Hm -> upT netT -> upA netA -> (600 <= fuel)%nat -> good_ids ids (S (degree ta)) ->
  draw (next_seed w) 0 <> head_id ->
  good_hash (pp_beta (ta_pp ta) ^ draw (second_seed w) 0 mod q) ->
  main fuel 0 false stubT 0 false stubA st netT netA @ w ⇓ fun r w' =>
    later w w' /\ last (w_out w') = Some (result_line true).
Proof. intros. by apply (main_spec fuel ta Hm ids). Qed.
End HeadProperties.

(** The head of the small instance: asked to sign by ports 8002 and 8003. *)
Definition ex_head : AggState := mkAgg ex_pp (mkUAV_h head_id ex_alpha) ex_M 2 [].
Definition ex_uavs : list UAVState := [ex_uav_state 7; ex_uav_state 9].
Definition ex_id (j : nat) : Z := ex_ids !!! j.

Lemma ex_head_ok l : head_ok ex_ta (mkAgg ex_pp (mkUAV_h head_id ex_alpha) ex_M 2 l).
Proof. split; [apply params_eqv_refl|reflexivity..]. Qed.

Lemma ex_services j :
  (j < 2)%nat ->
  SignService ex_ta ex_Hm (ex_id j) (fun _ => True) (uav_stub ex_uavs (server_address (Z.of_nat j))).
Proof.
  intros Hj. destruct j as [|[|j]]; [| |lia].
  - apply (uav_stub_service ex_ta ex_Hm ex_uavs 0 (ex_uav_state 7));
      [exact ex_live|reflexivity|apply ex_registered; lia|split; [discriminate|reflexivity]|].
    apply not_cong_eval. vm_compute. reflexivity.
  - apply (uav_stub_service ex_ta ex_Hm ex_uavs 1 (ex_uav_state 9));
      [exact ex_live|reflexivity|apply ex_registered; lia|split; [discriminate|reflexivity]|].
    apply not_cong_eval. vm_compute. reflexivity.
Qed.

Lemma collectParSigs_collects_witness :
  collectParSigs (fun _ => 0) (fun _ => false) (uav_stub ex_uavs) ex_head ref_world @ ref_world
    ⇓ fun r w' => fst (fst r) = 1 /\ True /\ later ref_world w' /\ head_ok ex_ta (snd (fst r))
    /\ collected ex_ta ex_Hm [7; 9] (ag_sigmas (snd (fst r))).
Proof.
  exact (collectParSigs_collects ex_ta ex_Hm (fun _ => True) (uav_stub ex_uavs) ex_id ex_head
    ref_world ref_world ex_services (ex_head_ok []) eq_refl I).
Defined.

Lemma collectParSigs_ignores_failure_witness :
  collectParSigs (fun _ => 0) (fun _ => false) (fun _ _ (net : unit) => (None, net)) ex_head tt
    @ ref_world ⇓ fun r _ => fst r = (1, ex_head).
Proof.
  apply (collectParSigs_ignores_failure (fun _ _ (net : unit) => (None, net)) ex_head tt ref_world).
  reflexivity.
Defined.

Definition ex_full_head : AggState :=
  mkAgg ex_pp (mkUAV_h head_id ex_alpha) ex_M 2 ex_parsigs.

Lemma ex_collected : collected ex_ta ex_Hm ex_ids (ag_sigmas ex_full_head).
Proof. exact (conj eq_refl ex_parsigs_ok). Qed.

Lemma ex_useful : useful_ids ex_ta ex_ids.
Proof.
  constructor; [|constructor; [|constructor]]; (split; [lia|]); apply not_cong_eval; vm_compute;
    reflexivity.
Qed.

Lemma Tran_replies_witness :
  Tran 600 ex_full_head (verifyRequest_set_pk_v (mpz_to_str 81) verifyRequest_default) @ ref_world
    ⇓ fun r w' => msg_ok r /\ msg_initialized r = true /\ reply_sigma ex_ta ex_Hm ex_h ex_ids r.
Proof.
  apply (Tran_replies 600 ex_ta ex_Hm ex_full_head 81 ex_h ex_ids ref_world);
    [exact ex_live|apply ex_head_ok|exact ex_collected|exact ex_useful|discriminate|lia
    |exact (proj1 ex_h_ok)|exact (proj2 ex_h_ok)|].
  change (81 ^ ta_sk ex_ta mod q) with (9 ^ 4 mod q). exact ex_hash_ok.
Defined.

Lemma main_prints_witness :
  main 600 0 false (remote (Register ex_ta)) 0 false (remote (Tran 600 ex_full_head)) ver_start
    ex_world ref_world @ ref_world
    ⇓ fun r w' => later ref_world w' /\ last (w_out w') = Some (result_line true).
Proof.
  apply (main_prints 600 ex_ta ex_Hm ex_ids
    (RS := Register_service ex_ta ex_ta_ok ex_ta_finite)
    (TS := Tran_service 600 ex_ta ex_Hm ex_full_head ex_ids ex_live (ex_head_ok _) ex_collected
             ex_useful ltac:(discriminate)));
    [exact ex_live|apply ex_world_ready|exact I|lia|exact ex_good_ids|vm_compute; discriminate|].
  apply good_hash_eval. vm_compute. reflexivity.
Defined.

(** ** Any order of operations *)

Section OrderProperties.
Context `{GL : GmpLaws} `{BL : BigLaws} `{HL : !HashLaws HO} `{CL : !CurveLaws CO} `{!ClockOps}.
Context `{WL : WireLaws}.

(** C32.  Every step of the programs (a registration, a key request or a
    collection, with any of its calls failing) is a step of the abstract
    protocol, in which only registered identities sign and only after the
    head has its key.  A call is one step; a registration draws an identity
    other than the head's whose share is not zero, which the code does not
    check. *)
Theorem step_refines_protocol ta Hm s a s' :
  live ta Hm -> finite_keys ta -> refines ta Hm s a -> step ta s s' ->
  exists a', spec_step a a' /\ refines ta Hm s' a'.
Proof. intros Hl Hfin. by apply refines_step. Qed.

(** C33.  In every state reachable from a fresh start, by any interleaving of
    registrations, key requests and collections with any failures, the head
    holds valid partial signatures only, and none before it has its key.
    Registrations draw identities other than the head's whose share is not
    zero; a call whose handler fails is a call without an answer. *)
Theorem reachable_signatures_valid ta Hm s s' :
  live ta Hm -> finite_keys ta -> fresh_net s -> rtc (step ta) s s' ->
  Forall (parsig_ok (ta_pp ta) (share ta) Hm) (ag_sigmas (nt_head s'))
  /\ (ag_sigmas (nt_head s') <> [] -> head_ok ta (nt_head s')).
Proof. intros Hl Hfin. by apply reachable_ok. Qed.
End OrderProperties.

(** One UAV registers, then the head fetches its key. *)
Definition ex_net : NetState := mkNet ex_world [uav_start; uav_start] head_start.

Lemma ex_net_fresh : fresh_net ex_net.
Proof. split_and!; [apply ex_world_ready|by repeat constructor|done|done]. Qed.

Lemma ex_register_step :
  exists s, step ex_ta ex_net s /\ ready state_gmp (nt_ta s) /\ nt_head s = head_start.
Proof.
  pose proof (Register_service ex_ta ex_ta_ok ex_ta_finite) as RS.
  assert (Hne : draw (next_seed ref_world) 0 <> head_id) by (vm_compute; discriminate).
  pose proof (registerUAV_spec ex_ta uav_start ex_world ref_world (ex_world_ready _) Hne) as Hr.
  destruct (proj1 (runs_ok _ _ _) Hr) as ([[rc uav] wT] & w' & Hrun & _ & HT & _).
  exists (mkNet wT (<[0%nat := uav]> (nt_uavs ex_net)) head_start). split; [|exact (conj HT eq_refl)].
  apply (step_register ex_ta ex_net 0 true ref_world w' uav_start rc uav wT);
    [reflexivity|split|].
  - vm_compute. discriminate.
  - apply not_cong_eval. vm_compute. reflexivity.
  - change (link true (remote (Register ex_ta))) with (remote (Register ex_ta)). exact Hrun.
Qed.

Lemma ex_key_step s :
  ready state_gmp (nt_ta s) -> nt_head s = head_start -> exists s', step ex_ta s s'.
Proof.
  intros HT Hh. pose proof (Register_service ex_ta ex_ta_ok ex_ta_finite) as RS.
  pose proof (getPpAndSk_spec ex_ta (nt_head s) (nt_ta s) ref_world HT) as Hr.
  destruct (proj1 (runs_ok _ _ _) Hr) as ([[rc head] wT] & w' & Hrun & _).
  exists (mkNet wT (nt_uavs s) head). apply (step_key ex_ta s true ref_world w' rc head wT).
  change (link true (remote (Register ex_ta))) with (remote (Register ex_ta)). exact Hrun.
Qed.

Lemma step_refines_protocol_witness :
  exists s', step ex_ta ex_net s' /\ exists a',
    spec_step (mkSpec [None; None] false []) a' /\ refines ex_ta ex_Hm s' a'.
Proof.
  destruct ex_register_step as (s' & Hs & _). exists s'. split; [exact Hs|].
  exact (step_refines_protocol ex_ta ex_Hm ex_net _ s' ex_live ex_ta_finite
    (fresh_refines ex_ta ex_Hm ex_net ex_net_fresh) Hs).
Defined.

Lemma reachable_signatures_valid_witness :
  exists s s', step ex_ta ex_net s /\ step ex_ta s s'
    /\ Forall (parsig_ok (ta_pp ex_ta) (share ex_ta) ex_Hm) (ag_sigmas (nt_head s'))
    /\ (ag_sigmas (nt_head s') <> [] -> head_ok ex_ta (nt_head s')).
Proof.
  destruct ex_register_step as (s & Hs & HT & Hh). destruct (ex_key_step s HT Hh) as (s' & Hs').
  exists s, s'. split; [exact Hs|]. split; [exact Hs'|].
  exact (reachable_signatures_valid ex_ta ex_Hm ex_net s' ex_live ex_ta_finite ex_net_fresh
    (rtc_l _ _ _ _ Hs (rtc_once _ _ Hs'))).
Defined.

(** ** Servers *)

(**  Each of the three servers returns 1 exactly when the service was
    added and a server was started at the listen address, or at any address
    and the program's own port when the address is empty; otherwise -1. *)
Theorem servers_start_codes `{ServerOps} addr :
  Forall (fun rp => (fst rp = 1 \/ fst rp = -1)
    /\ (fst rp = 1 <-> AddService = 0 /\ exists point, Start point = 0
          /\ ((addr = [] /\ point = AnyAddress (snd rp))
              \/ (addr <> [] /\ str2endpoint addr = Some point))))
    [(startServerTA addr, 8000); (startServerTran addr, 8001); (startUAVServer addr, 8002)].
Proof.
  repeat (apply Forall_cons; split; [apply start_server_spec|]). apply Forall_nil. exact I.
Qed.
