(* ===== verification/Numerics.v ===== *)
(** * Checked integer arithmetic (libsh/butil/numerics)

    The integer part of safe_conversions_impl.h, safe_conversions.h,
    safe_math_impl.h and safe_math.h, for every integer type of one, two, four
    or eight bytes.  A template parameter is an argument [T : ity]; a
    [RangeConstraint*] argument is a second result.  C++ promotes operands
    below [int] before it computes; [promote] says where that matters. *)

From Stdlib Require Import ZArith Lia.
From stdpp Require Import base list.
From S2P Require Import Prelude.

Open Scope Z_scope.

(** ** Integer types *)

Record ity : Type := mkIty { sizeof : Z; is_signed : bool }.

#[export] Instance ity_eq_dec : EqDecision ity.
Proof. solve_decision. Defined.

Definition int8 : ity := mkIty 1 true.
Definition uint8 : ity := mkIty 1 false.
Definition int32 : ity := mkIty 4 true.
Definition uint32 : ity := mkIty 4 false.
Definition int64 : ity := mkIty 8 true.
Definition uint64 : ity := mkIty 8 false.

Definition ity_ok (T : ity) : Prop :=
  sizeof T = 1 \/ sizeof T = 2 \/ sizeof T = 4 \/ sizeof T = 8.

Definition bits (T : ity) : Z := 8 * sizeof T.
Definition imax (T : ity) : Z := if is_signed T then 2 ^ (bits T - 1) - 1 else 2 ^ bits T - 1.
Definition imin (T : ity) : Z := if is_signed T then - 2 ^ (bits T - 1) else 0.
Definition in_ity (T : ity) (z : Z) : Prop := imin T <= z <= imax T.

(** [static_cast<T>]: reduction modulo [2 ^ bits]. *)
Definition cast (T : ity) (z : Z) : Z :=
  if is_signed T then (z + 2 ^ (bits T - 1)) mod 2 ^ bits T - 2 ^ (bits T - 1)
  else z mod 2 ^ bits T.

(** A signed result at type [T], undefined when it does not fit. *)
Definition exact (T : ity) (z : Z) : outcome Z :=
  if (imin T <=? z) && (z <=? imax T) then Ok z else Fault SignedOverflow.

(** The type an operand has in an expression. *)
Definition promote (T : ity) : ity := if sizeof T <? 4 then int32 else T.

(** An arithmetic result in an expression over [T]: wraps when unsigned. *)
Definition arith (T : ity) (z : Z) : outcome Z :=
  if is_signed (promote T) then exact (promote T) z else Ok (cast (promote T) z).

(** ** safe_conversions_impl.h *)

Definition MaxExponent (T : ity) : Z := sizeof T * 8 + 1 - (if is_signed T then 1 else 0).

Inductive NumericRangeRepresentation : Type :=
| NUMERIC_RANGE_NOT_CONTAINED
| NUMERIC_RANGE_CONTAINED.

Definition StaticDstRangeRelationToSrcRange (Dst Src : ity) : NumericRangeRepresentation :=
  match is_signed Dst, is_signed Src with
  | true, false =>
      if MaxExponent Src <? MaxExponent Dst then NUMERIC_RANGE_CONTAINED
      else NUMERIC_RANGE_NOT_CONTAINED
  | false, true => NUMERIC_RANGE_NOT_CONTAINED
  | _, _ =>
      if MaxExponent Src <=? MaxExponent Dst then NUMERIC_RANGE_CONTAINED
      else NUMERIC_RANGE_NOT_CONTAINED
  end.

Inductive RangeConstraint : Type :=
| RANGE_VALID
| RANGE_UNDERFLOW
| RANGE_OVERFLOW
| RANGE_INVALID.

#[export] Instance RangeConstraint_eq_dec : EqDecision RangeConstraint.
Proof. solve_decision. Defined.

Definition rc_code (r : RangeConstraint) : Z :=
  match r with RANGE_VALID => 0 | RANGE_UNDERFLOW => 1 | RANGE_OVERFLOW => 2 | RANGE_INVALID => 3 end.

(** The coercion from [int]; its [DCHECK] asks for a code from 0 to 3. *)
Definition GetRangeConstraint_int (c : Z) : RangeConstraint :=
  if c =? 0 then RANGE_VALID else if c =? 1 then RANGE_UNDERFLOW
  else if c =? 2 then RANGE_OVERFLOW else RANGE_INVALID.

Definition GetRangeConstraint (is_in_upper_bound is_in_lower_bound : bool) : RangeConstraint :=
  GetRangeConstraint_int (Z.lor (if is_in_upper_bound then 0 else rc_code RANGE_OVERFLOW)
                            (if is_in_lower_bound then 0 else rc_code RANGE_UNDERFLOW)).

Definition Check_signed_signed (Dst : ity) (value : Z) : RangeConstraint :=
  GetRangeConstraint (value <=? imax Dst) (imin Dst <=? value).

Definition Check_unsigned_unsigned (Dst : ity) (value : Z) : RangeConstraint :=
  GetRangeConstraint (value <=? imax Dst) true.

Definition Check_signed_unsigned (Dst Src : ity) (value : Z) : RangeConstraint :=
  if sizeof Src <? sizeof Dst then RANGE_VALID
  else GetRangeConstraint (value <=? cast Src (imax Dst)) true.

Definition Check_unsigned_signed (Dst Src : ity) (value : Z) : RangeConstraint :=
  if MaxExponent Src <=? MaxExponent Dst then GetRangeConstraint true (cast Src 0 <=? value)
  else GetRangeConstraint (value <=? cast Src (imax Dst)) (cast Src 0 <=? value).

(** The specialisation that the template arguments select. *)
Definition DstRangeRelationToSrcRange (Dst Src : ity) (value : Z) : RangeConstraint :=
  match StaticDstRangeRelationToSrcRange Dst Src with
  | NUMERIC_RANGE_CONTAINED => RANGE_VALID
  | NUMERIC_RANGE_NOT_CONTAINED =>
      match is_signed Dst, is_signed Src with
      | true, true => Check_signed_signed Dst value
      | false, false => Check_unsigned_unsigned Dst value
      | true, false => Check_signed_unsigned Dst Src value
      | false, true => Check_unsigned_signed Dst Src value
      end
  end.

(** ** safe_conversions.h *)

Definition IsValueInRangeForNumericType (Dst Src : ity) (value : Z) : bool :=
  bool_decide (DstRangeRelationToSrcRange Dst Src value = RANGE_VALID).

(** A failed [CHECK] ends the program: no value. *)
Definition checked_cast (Dst Src : ity) (value : Z) : option Z :=
  if IsValueInRangeForNumericType Dst Src value then Some (cast Dst value) else None.

Definition saturated_cast (Dst Src : ity) (value : Z) : option Z :=
  match DstRangeRelationToSrcRange Dst Src value with
  | RANGE_VALID => Some (cast Dst value)
  | RANGE_UNDERFLOW => Some (imin Dst)
  | RANGE_OVERFLOW => Some (imax Dst)
  | RANGE_INVALID => None
  end.

(** ** safe_math_impl.h *)

Definition UnsignedIntegerForSize (T : ity) : ity := mkIty (sizeof T) false.
Definition SignedIntegerForSize (T : ity) : ity := mkIty (sizeof T) true.
Definition TwiceWiderInteger (T : ity) : ity := mkIty (sizeof T * 2) (is_signed T).
Definition PositionOfSignBit (T : ity) : Z := 8 * sizeof T - 1.

Definition HasSignBit (T : ity) (x : Z) : bool :=
  negb (Z.shiftr (cast (UnsignedIntegerForSize T) x) (PositionOfSignBit T) =? 0).

Definition BinaryComplement (T : ity) (x : Z) : Z := cast T (Z.lnot x).

(** [(uresult ^ ux) & (uresult ^ uy)] has the promoted type, so that is the
    type at which [BinaryComplement] and [HasSignBit] work. *)
Definition CheckedAdd (T : ity) (x y : Z) : Z * RangeConstraint :=
  let U := UnsignedIntegerForSize T in
  let ux := cast U x in
  let uy := cast U y in
  let uresult := cast U (ux + uy) in
  let E := promote U in
  let validity :=
    if is_signed T then
      if HasSignBit E (BinaryComplement E (Z.land (Z.lxor uresult ux) (Z.lxor uresult uy)))
      then RANGE_VALID
      else if HasSignBit U uresult then RANGE_OVERFLOW else RANGE_UNDERFLOW
    else if y <=? BinaryComplement T x then RANGE_VALID else RANGE_OVERFLOW in
  (cast T uresult, validity).

Definition CheckedSub (T : ity) (x y : Z) : Z * RangeConstraint :=
  let U := UnsignedIntegerForSize T in
  let ux := cast U x in
  let uy := cast U y in
  let uresult := cast U (ux - uy) in
  let E := promote U in
  let validity :=
    if is_signed T then
      if HasSignBit E (BinaryComplement E (Z.land (Z.lxor uresult ux) (Z.lxor ux uy)))
      then RANGE_VALID
      else if HasSignBit U uresult then RANGE_OVERFLOW else RANGE_UNDERFLOW
    else if y <=? x then RANGE_VALID else RANGE_UNDERFLOW in
  (cast T uresult, validity).

(** Types of at most half the width of [uintmax_t]. *)
Definition CheckedMul_narrow (T : ity) (x y : Z) : outcome (Z * RangeConstraint) :=
  let I := TwiceWiderInteger T in
  product ← arith I (cast I x * cast I y);
  let tmp := cast I product in
  Ok (cast T tmp, DstRangeRelationToSrcRange T I tmp).

(** [a / b] of C++: towards zero, undefined for a zero divisor. *)
Definition cdiv (T : ity) (a b : Z) : outcome Z :=
  if b =? 0 then Fault DivByZero else arith T (Z.quot a b).

Definition cmod (T : ity) (a b : Z) : outcome Z :=
  if b =? 0 then Fault DivByZero
  else _ ← arith T (Z.quot a b); Ok (Z.rem a b).

(** The out-parameter keeps its value [validity] on the first branch. *)
Definition CheckedMul_signed64 (T : ity) (x y : Z) (validity : RangeConstraint)
    : outcome (Z * RangeConstraint) :=
  if (x =? 0) && (y =? 0) then Ok (rc_code RANGE_VALID, validity)
  else
    validity ←
      (if 0 <? x then
         if 0 <? y then
           bound ← cdiv T (imax T) y; Ok (if x <=? bound then RANGE_VALID else RANGE_OVERFLOW)
         else
           bound ← cdiv T (imin T) x; Ok (if bound <=? y then RANGE_VALID else RANGE_UNDERFLOW)
       else
         if 0 <? y then
           bound ← cdiv T (imin T) y; Ok (if bound <=? x then RANGE_VALID else RANGE_UNDERFLOW)
         else
           bound ← cdiv T (imax T) x; Ok (if bound <=? y then RANGE_VALID else RANGE_OVERFLOW));
    product ← arith T (x * y);
    Ok (product, validity).

Definition CheckedMul_unsigned64 (T : ity) (x y : Z) : outcome (Z * RangeConstraint) :=
  let validity := if (y =? 0) || (x <=? imax T / y) then RANGE_VALID else RANGE_OVERFLOW in
  product ← arith T (x * y);
  Ok (product, validity).

(** Overload resolution on the width and sign. *)
Definition CheckedMul (T : ity) (x y : Z) (validity : RangeConstraint)
    : outcome (Z * RangeConstraint) :=
  if sizeof T * 2 <=? 8 then CheckedMul_narrow T x y
  else if is_signed T then CheckedMul_signed64 T x y validity
  else CheckedMul_unsigned64 T x y.

Definition CheckedDiv (T : ity) (x y : Z) : outcome (Z * RangeConstraint) :=
  if is_signed T && (x =? imin T) && (y =? cast T (-1)) then Ok (imin T, RANGE_OVERFLOW)
  else quotient ← cdiv T x y; Ok (cast T quotient, RANGE_VALID).

Definition CheckedMod (T : ity) (x y : Z) : outcome (Z * RangeConstraint) :=
  let validity := if is_signed T then if 0 <? y then RANGE_VALID else RANGE_INVALID
                  else RANGE_VALID in
  remainder ← cmod T x y;
  Ok (cast T remainder, validity).

Definition CheckedNeg (T : ity) (value : Z) : outcome (Z * RangeConstraint) :=
  if is_signed T then
    let validity := if negb (value =? imin T) then RANGE_VALID else RANGE_OVERFLOW in
    negated ← arith T (- value);
    Ok (cast T negated, validity)
  else
    let validity := if negb (value =? 0) then RANGE_UNDERFLOW else RANGE_VALID in
    let S := SignedIntegerForSize T in
    negated ← arith S (- cast S value);
    Ok (cast T negated, validity).

Definition CheckedAbs (T : ity) (value : Z) : outcome (Z * RangeConstraint) :=
  if is_signed T then
    let validity := if negb (value =? imin T) then RANGE_VALID else RANGE_OVERFLOW in
    absolute ← arith T (Z.abs value);
    Ok (cast T absolute, validity)
  else Ok (value, RANGE_VALID).

(** The integer specialisation of the state, and its constructors. *)
Record CheckedNumericState : Type := mkState { st_value : Z; st_validity : RangeConstraint }.

Definition rc_or (a b : RangeConstraint) : RangeConstraint :=
  GetRangeConstraint_int (Z.lor (rc_code a) (rc_code b)).

Definition State_default : CheckedNumericState := mkState 0 RANGE_VALID.

Definition State_with (T Src : ity) (value : Z) (validity : RangeConstraint) : CheckedNumericState :=
  mkState (cast T value) (rc_or validity (DstRangeRelationToSrcRange T Src value)).

Definition State_copy (T Src : ity) (rhs : CheckedNumericState) : CheckedNumericState :=
  mkState (cast T (st_value rhs))
    (rc_or (st_validity rhs) (DstRangeRelationToSrcRange T Src (st_value rhs))).

Definition State_of (T Src : ity) (value : Z) : CheckedNumericState :=
  mkState (cast T value) (DstRangeRelationToSrcRange T Src value).

Inductive ArithmeticPromotionCategory : Type :=
| LEFT_PROMOTION
| RIGHT_PROMOTION
| DEFAULT_PROMOTION.

Definition promotion_category (Lhs Rhs : ity) : ArithmeticPromotionCategory :=
  if MaxExponent Rhs <? MaxExponent Lhs then
    if MaxExponent int32 <? MaxExponent Lhs then LEFT_PROMOTION else DEFAULT_PROMOTION
  else if MaxExponent int32 <? MaxExponent Rhs then RIGHT_PROMOTION else DEFAULT_PROMOTION.

Definition ArithmeticPromotion (Lhs Rhs : ity) : ity :=
  match promotion_category Lhs Rhs with
  | LEFT_PROMOTION => Lhs
  | RIGHT_PROMOTION => Rhs
  | DEFAULT_PROMOTION => int32
  end.

Definition contained (r : NumericRangeRepresentation) : bool :=
  match r with NUMERIC_RANGE_CONTAINED => true | NUMERIC_RANGE_NOT_CONTAINED => false end.

Definition IsIntegerArithmeticSafe (T Lhs Rhs : ity) : bool :=
  contained (StaticDstRangeRelationToSrcRange T Lhs)
  && (2 * sizeof Lhs <=? sizeof T)
  && negb (contained (StaticDstRangeRelationToSrcRange T Rhs))
  && (2 * sizeof Rhs <=? sizeof T).

(** ** safe_math.h

    [CheckedNumeric<T>] holds a [CheckedNumericState<T>] and nothing else. *)

Definition IsValid (s : CheckedNumericState) : bool := bool_decide (st_validity s = RANGE_VALID).

Definition ValueOrDie (s : CheckedNumericState) : option Z :=
  if IsValid s then Some (st_value s) else None.

Definition ValueOrDefault (default_value : Z) (s : CheckedNumericState) : Z :=
  if IsValid s then st_value s else default_value.

Definition Numeric_neg (T : ity) (s : CheckedNumericState) : outcome CheckedNumericState :=
  '(value, validity) ← CheckedNeg T (st_value s);
  Ok (State_with T T value (rc_or (st_validity s) validity)).

Definition Numeric_Abs (T : ity) (s : CheckedNumericState) : outcome CheckedNumericState :=
  '(value, validity) ← CheckedAbs T (st_value s);
  Ok (State_with T T value (rc_or (st_validity s) validity)).

Inductive binop : Type := OpAdd | OpSub | OpMul | OpDiv | OpMod.

(** The function [Checked##NAME] at one type. *)
Definition Checked (op : binop) (T : ity) (x y : Z) (validity : RangeConstraint)
    : outcome (Z * RangeConstraint) :=
  match op with
  | OpAdd => Ok (CheckedAdd T x y)
  | OpSub => Ok (CheckedSub T x y)
  | OpMul => CheckedMul T x y validity
  | OpDiv => CheckedDiv T x y
  | OpMod => CheckedMod T x y
  end.

(** The built-in operator: the usual arithmetic conversions, then the
    operation at the common type. *)
Definition common_type (A B : ity) : ity :=
  let a := promote A in
  let b := promote B in
  if eqb (is_signed a) (is_signed b) then if sizeof a <? sizeof b then b else a
  else
    let u := if is_signed a then b else a in
    let s := if is_signed a then a else b in
    if sizeof s <=? sizeof u then u else s.

Definition raw_op (op : binop) (A B : ity) (x y : Z) : outcome Z :=
  let C := common_type A B in
  let a := cast C x in
  let b := cast C y in
  match op with
  | OpAdd => arith C (a + b)
  | OpSub => arith C (a - b)
  | OpMul => arith C (a * b)
  | OpDiv => cdiv C a b
  | OpMod => cmod C a b
  end.

(** [CheckedNumeric<T>::cast]. *)
Definition Numeric_cast (T Src : ity) (s : CheckedNumericState) : CheckedNumericState :=
  if decide (Src = T) then s else State_with T Src (st_value s) (st_validity s).

(** Two operands of the same type; [T result] narrows what was computed at the
    promoted type. *)
Definition op_same (op : binop) (T : ity) (lhs rhs : CheckedNumericState)
    : outcome CheckedNumericState :=
  let Promotion := ArithmeticPromotion T T in
  if IsIntegerArithmeticSafe Promotion T T then
    v ← raw_op op T T (st_value lhs) (st_value rhs);
    Ok (State_with Promotion (common_type T T) v (rc_or (st_validity rhs) (st_validity lhs)))
  else
    '(r, validity) ← Checked op Promotion (cast Promotion (st_value lhs))
                       (cast Promotion (st_value rhs)) RANGE_VALID;
    let result := cast T r in
    Ok (State_with Promotion T result
          (rc_or (rc_or validity (st_validity lhs)) (st_validity rhs))).

(** Operands [CheckedNumeric<Src>] and [CheckedNumeric<T>]. *)
Definition op_mixed (op : binop) (T Src : ity) (lhs rhs : CheckedNumericState)
    : outcome CheckedNumericState :=
  let Promotion := ArithmeticPromotion T Src in
  if IsIntegerArithmeticSafe Promotion T Src then
    v ← raw_op op Src T (st_value lhs) (st_value rhs);
    Ok (State_with Promotion (common_type Src T) v (rc_or (st_validity rhs) (st_validity lhs)))
  else op_same op Promotion (Numeric_cast Promotion Src lhs) (Numeric_cast Promotion T rhs).

(** [lhs OP rhs] for two checked numbers: overload resolution takes the first
    operator when the types are the same. *)
Definition op_checked (op : binop) (T Src : ity) (lhs rhs : CheckedNumericState)
    : outcome CheckedNumericState :=
  if decide (T = Src) then op_same op T lhs rhs else op_mixed op T Src lhs rhs.

(** A [CheckedNumeric<T>] on the left, a plain [Src] on the right; and the
    other way round. *)
Definition op_left (op : binop) (T Src : ity) (lhs : CheckedNumericState) (rhs : Z)
    : outcome CheckedNumericState :=
  let Promotion := ArithmeticPromotion T Src in
  if IsIntegerArithmeticSafe Promotion T Src then
    v ← raw_op op T Src (st_value lhs) rhs;
    Ok (State_with Promotion (common_type T Src) v (st_validity lhs))
  else op_same op Promotion (Numeric_cast Promotion T lhs) (State_of Promotion Src rhs).

Definition op_right (op : binop) (T Src : ity) (lhs : Z) (rhs : CheckedNumericState)
    : outcome CheckedNumericState :=
  let Promotion := ArithmeticPromotion T Src in
  if IsIntegerArithmeticSafe Promotion T Src then
    v ← raw_op op Src T lhs (st_value rhs);
    Ok (State_with Promotion (common_type Src T) v (st_validity rhs))
  else op_same op Promotion (State_of Promotion Src lhs) (Numeric_cast Promotion T rhs).

(** [lhs OP= rhs] with a plain [rhs]. *)
Definition op_assign (op : binop) (T Src : ity) (lhs : CheckedNumericState) (rhs : Z)
    : outcome CheckedNumericState :=
  if decide (Src = T) then
    r ← op_same op T lhs (State_of Src Src rhs);
    Ok (Numeric_cast T (ArithmeticPromotion T T) r)
  else
    r ← op_mixed op Src T lhs (State_of Src Src rhs);
    Ok (Numeric_cast T (ArithmeticPromotion Src T) r).

Definition Numeric_increment (T : ity) (s : CheckedNumericState) : outcome CheckedNumericState :=
  op_assign OpAdd T int32 s 1.

Definition Numeric_decrement (T : ity) (s : CheckedNumericState) : outcome CheckedNumericState :=
  op_assign OpSub T int32 s 1.

(** * Properties *)

(** ** Ranges and casts *)

Ltac each_size H := destruct H as [H|[H|[H|H]]].

Lemma ity_cases T : ity_ok T ->
  T = mkIty 1 (is_signed T) \/ T = mkIty 2 (is_signed T) \/ T = mkIty 4 (is_signed T)
  \/ T = mkIty 8 (is_signed T).
Proof. destruct T as [n s]. intros H. each_size H; simpl in *; subst; auto. Qed.

Lemma pow_bits T : ity_ok T -> 2 ^ bits T = 2 * 2 ^ (bits T - 1) /\ 0 < 2 ^ (bits T - 1).
Proof.
  intros H. assert (1 <= sizeof T) by (each_size H; lia). unfold bits.
  rewrite <- Z.pow_succ_r by lia. split; [f_equal; lia|]. apply Z.pow_pos_nonneg; lia.
Qed.

Lemma cast_range T z : ity_ok T -> in_ity T (cast T z).
Proof.
  intros H. destruct (pow_bits T H) as [Hp Hh]. unfold in_ity, imin, imax, cast.
  destruct (is_signed T).
  - pose proof (Z.mod_pos_bound (z + 2 ^ (bits T - 1)) (2 ^ bits T)). lia.
  - pose proof (Z.mod_pos_bound z (2 ^ bits T)). lia.
Qed.

Lemma cast_id T z : ity_ok T -> in_ity T z -> cast T z = z.
Proof.
  intros H. destruct (pow_bits T H) as [Hp Hh]. unfold in_ity, imin, imax, cast. intros Hz.
  destruct (is_signed T); [rewrite Z.mod_small by lia; lia|apply Z.mod_small; lia].
Qed.

(** A cast changes a number by a multiple of [2 ^ bits]. *)
Lemma cast_shift T z : ity_ok T -> exists k, cast T z = z + k * 2 ^ bits T.
Proof.
  intros H. destruct (pow_bits T H) as [Hp Hh]. unfold cast.
  destruct (is_signed T).
  - pose proof (Z.div_mod (z + 2 ^ (bits T - 1)) (2 ^ bits T)).
    exists (- ((z + 2 ^ (bits T - 1)) / 2 ^ bits T)). lia.
  - pose proof (Z.div_mod z (2 ^ bits T)). exists (- (z / 2 ^ bits T)). lia.
Qed.

(** ** The range check *)

Definition rc_spec (T : ity) (z : Z) : RangeConstraint :=
  if z <? imin T then RANGE_UNDERFLOW else if imax T <? z then RANGE_OVERFLOW else RANGE_VALID.

Lemma imax_exponent T : imax T = 2 ^ (MaxExponent T - 1) - 1.
Proof. unfold imax, MaxExponent, bits. destruct (is_signed T); do 2 f_equal; lia. Qed.

Lemma imin_signed T : imin T = if is_signed T then - (imax T + 1) else 0.
Proof. unfold imin, imax. destruct (is_signed T); lia. Qed.

Lemma imax_mono S D : ity_ok S -> MaxExponent S <= MaxExponent D -> 0 <= imax S <= imax D.
Proof.
  intros HS Hle. rewrite !imax_exponent.
  assert (2 <= MaxExponent S).
  { unfold MaxExponent. destruct (is_signed S); each_size HS; lia. }
  pose proof (Z.pow_le_mono_r 2 (MaxExponent S - 1) (MaxExponent D - 1)).
  pose proof (Z.pow_pos_nonneg 2 (MaxExponent S - 1)). lia.
Qed.

(** Both flags at once decide the result. *)
Lemma GetRange_spec T z upper lower :
  upper = (z <=? imax T) -> lower = (imin T <=? z) -> imin T <= imax T ->
  GetRangeConstraint upper lower = rc_spec T z.
Proof.
  intros -> -> Hle. unfold rc_spec.
  destruct (Z.leb_spec z (imax T)), (Z.leb_spec (imin T) z), (Z.ltb_spec z (imin T)),
    (Z.ltb_spec (imax T) z); try lia; done.
Qed.

Lemma imin_le_imax T : ity_ok T -> imin T <= imax T.
Proof.
  intros H. pose proof (imax_mono T T H ltac:(lia)). rewrite imin_signed. destruct (is_signed T); lia.
Qed.

Lemma rc_spec_valid T z : in_ity T z -> rc_spec T z = RANGE_VALID.
Proof.
  unfold in_ity, rc_spec. intros Hz. destruct (Z.ltb_spec z (imin T)); [lia|].
  by destruct (Z.ltb_spec (imax T) z); [lia|].
Qed.

Lemma rc_spec_valid_inv T z : rc_spec T z = RANGE_VALID -> in_ity T z.
Proof.
  unfold in_ity, rc_spec. destruct (Z.ltb_spec z (imin T)); [done|].
  destruct (Z.ltb_spec (imax T) z); [done|lia].
Qed.

Lemma DstRange_spec Dst Src z :
  ity_ok Dst -> ity_ok Src -> in_ity Src z ->
  DstRangeRelationToSrcRange Dst Src z = rc_spec Dst z.
Proof.
  intros HD HS Hz. pose proof (imin_le_imax Dst HD) as Hmm.
  pose proof (imax_mono Src Src HS ltac:(lia)) as HmS.
  pose proof (imax_mono Dst Dst HD ltac:(lia)) as HmD.
  pose proof (imin_signed Dst) as HiD. pose proof (imin_signed Src) as HiS.
  pose proof (imax_mono Src Dst HS) as HSD. pose proof (imax_mono Dst Src HD) as HDS.
  unfold in_ity in Hz. unfold DstRangeRelationToSrcRange, StaticDstRangeRelationToSrcRange.
  destruct (is_signed Dst) eqn:SD, (is_signed Src) eqn:SS.
  - destruct (Z.leb_spec (MaxExponent Src) (MaxExponent Dst)).
    + symmetry. apply rc_spec_valid. unfold in_ity. lia.
    + by apply GetRange_spec.
  - destruct (Z.ltb_spec (MaxExponent Src) (MaxExponent Dst)).
    + symmetry. apply rc_spec_valid. unfold in_ity. lia.
    + unfold Check_signed_unsigned. destruct (Z.ltb_spec (sizeof Src) (sizeof Dst)).
      { unfold MaxExponent in *. rewrite SD, SS in *. lia. }
      rewrite (cast_id Src) by (done || unfold in_ity; lia).
      apply GetRange_spec; [done|symmetry; apply Z.leb_le; lia|done].
  - unfold Check_unsigned_signed. rewrite (cast_id Src 0) by (done || unfold in_ity; lia).
    destruct (Z.leb_spec (MaxExponent Src) (MaxExponent Dst)).
    + apply GetRange_spec; [symmetry; apply Z.leb_le; lia|by rewrite HiD|done].
    + rewrite (cast_id Src) by (done || unfold in_ity; lia).
      apply GetRange_spec; [done|by rewrite HiD|done].
  - destruct (Z.leb_spec (MaxExponent Src) (MaxExponent Dst)).
    + symmetry. apply rc_spec_valid. unfold in_ity. lia.
    + apply GetRange_spec; [done|symmetry; apply Z.leb_le; lia|done].
Qed.

Lemma saturated_cast_spec Dst Src z :
  ity_ok Dst -> ity_ok Src -> in_ity Src z ->
  saturated_cast Dst Src z = Some (Z.max (imin Dst) (Z.min z (imax Dst))).
Proof.
  intros HD HS Hz. unfold saturated_cast. rewrite DstRange_spec by done.
  pose proof (imin_le_imax Dst HD). unfold rc_spec.
  destruct (Z.ltb_spec z (imin Dst)); [f_equal; lia|].
  destruct (Z.ltb_spec (imax Dst) z); [f_equal; lia|].
  rewrite cast_id by (done || unfold in_ity; lia). f_equal. lia.
Qed.

Lemma checked_cast_spec Dst Src z :
  ity_ok Dst -> ity_ok Src -> in_ity Src z ->
  checked_cast Dst Src z = if decide (imin Dst <= z <= imax Dst) then Some z else None.
Proof.
  intros HD HS Hz. unfold checked_cast, IsValueInRangeForNumericType.
  rewrite DstRange_spec by done. case_decide as Hin.
  - rewrite rc_spec_valid by done. rewrite bool_decide_eq_true_2 by done.
    by rewrite cast_id.
  - rewrite bool_decide_eq_false_2; [done|]. by intros ?%rc_spec_valid_inv.
Qed.

(** ** Addition and subtraction

    The sign tests, at a type of [k + 1] bits that is not promoted. *)

Lemma testbit_top k z : 0 <= k -> 0 <= z < 2 * 2 ^ k -> Z.testbit z k = (2 ^ k <=? z).
Proof.
  intros Hk Hz. rewrite Z.testbit_odd, Z.shiftr_div_pow2 by done.
  destruct (Z.leb_spec (2 ^ k) z).
  - replace (z / 2 ^ k) with 1; [done|].
    apply (Z.div_unique_pos z (2 ^ k) 1 (z - 2 ^ k)); lia.
  - by rewrite Z.div_small by lia.
Qed.

Lemma HasSignBit_spec T z :
  ity_ok T -> 0 <= z < 2 ^ bits T -> HasSignBit T z = (2 ^ (bits T - 1) <=? z).
Proof.
  intros H Hz. destruct (pow_bits T H) as [Hp Hh]. unfold HasSignBit, PositionOfSignBit.
  assert (cast (UnsignedIntegerForSize T) z = z) as ->.
  { apply cast_id; [exact H|]. unfold in_ity, imin, imax. simpl. unfold bits in *. simpl. lia. }
  rewrite Z.shiftr_div_pow2 by (each_size H; lia). fold (bits T).
  destruct (Z.leb_spec (2 ^ (bits T - 1)) z).
  - replace (z / 2 ^ (bits T - 1)) with 1; [done|].
    apply (Z.div_unique_pos z _ 1 (z - 2 ^ (bits T - 1))); lia.
  - by rewrite Z.div_small by lia.
Qed.

(** The complement has the sign bit when the argument lacks it. *)
Lemma complement_sign T z :
  ity_ok T -> is_signed T = false -> 0 <= z < 2 ^ bits T ->
  HasSignBit T (BinaryComplement T z) = negb (Z.testbit z (bits T - 1)).
Proof.
  intros H Hs Hz. destruct (pow_bits T H) as [Hp Hh].
  assert (BinaryComplement T z = 2 ^ bits T - 1 - z) as ->.
  { unfold BinaryComplement, Z.lnot, cast. rewrite Hs.
    rewrite (Z.mod_eq _ (2 ^ bits T)) by lia.
    replace (Z.pred (- z) / 2 ^ bits T) with (-1); [lia|].
    apply (Z.div_unique_pos _ _ (-1) (2 ^ bits T - 1 - z)); lia. }
  rewrite HasSignBit_spec by (done || lia).
  rewrite testbit_top by (lia || (each_size H; unfold bits; lia)).
  destruct (Z.leb_spec (2 ^ (bits T - 1)) (2 ^ bits T - 1 - z)), (Z.leb_spec (2 ^ (bits T - 1)) z);
    done || lia.
Qed.

(** A value and its unsigned image, and their sign. *)
Lemma unsigned_image T x :
  ity_ok T -> is_signed T = true -> in_ity T x ->
  cast (UnsignedIntegerForSize T) x = if x <? 0 then x + 2 ^ bits T else x.
Proof.
  intros H Hs Hx. destruct (pow_bits T H) as [Hp Hh]. unfold in_ity, imin, imax in Hx. rewrite Hs in Hx.
  unfold cast. simpl. change (bits (UnsignedIntegerForSize T)) with (bits T).
  destruct (Z.ltb_spec x 0).
  - symmetry. apply (Z.mod_unique_pos _ _ (-1)); lia.
  - apply Z.mod_small. lia.
Qed.

(** A wrapped unsigned result, read as signed again. *)
Lemma wrapped T z :
  ity_ok T -> is_signed T = true -> - 2 ^ bits T <= z < 2 * 2 ^ bits T ->
  let u := cast (UnsignedIntegerForSize T) z in
  0 <= u < 2 ^ bits T
  /\ (u = z \/ u = z + 2 ^ bits T \/ u = z - 2 ^ bits T)
  /\ cast T u = if 2 ^ (bits T - 1) <=? u then u - 2 ^ bits T else u.
Proof.
  intros H Hs Hz u. destruct (pow_bits T H) as [Hp Hh].
  assert (Hu : 0 <= u < 2 ^ bits T) by (apply Z.mod_pos_bound; change (0 < 2 ^ bits T); lia).
  split; [done|]. split.
  - destruct (cast_shift (UnsignedIntegerForSize T) z H) as [k Hk]. fold u in Hk.
    change (bits (UnsignedIntegerForSize T)) with (bits T) in Hk.
    assert (k = 0 \/ k = 1 \/ k = -1) as [->|[->| ->]] by nia; lia.
  - destruct (Z.leb_spec (2 ^ (bits T - 1)) u).
    + unfold cast. rewrite Hs. rewrite <- (Z.mod_unique_pos _ (2 ^ bits T) 1 (u - 2 ^ (bits T - 1))); lia.
    + apply cast_id; [done|]. unfold in_ity, imin, imax. rewrite Hs. lia.
Qed.

Lemma promote_wide T : 4 <= sizeof T -> promote T = T.
Proof. unfold promote. intros. by destruct (Z.ltb_spec (sizeof T) 4); [lia|]. Qed.

Lemma land_lxor_small k a b c d :
  0 <= k -> 0 <= a < 2 ^ k -> 0 <= b < 2 ^ k -> 0 <= c < 2 ^ k -> 0 <= d < 2 ^ k ->
  0 <= Z.land (Z.lxor a b) (Z.lxor c d) < 2 ^ k.
Proof.
  intros Hk Ha Hb Hc Hd.
  assert (Hlow : forall z, 0 <= z < 2 ^ k -> Z.land z (Z.ones k) = z)
    by (intros; rewrite Z.land_ones, Z.mod_small; lia).
  assert (Z.land (Z.land (Z.lxor a b) (Z.lxor c d)) (Z.ones k) = Z.land (Z.lxor a b) (Z.lxor c d)) as Hm.
  { rewrite <- (Hlow a Ha), <- (Hlow b Hb). apply Z.bits_inj'. intros n _.
    rewrite !Z.land_spec, !Z.lxor_spec, !Z.land_spec.
    by destruct (Z.testbit a n), (Z.testbit b n), (Z.testbit (Z.ones k) n), (Z.testbit c n), (Z.testbit d n). }
  rewrite <- Hm, Z.land_ones by done. apply Z.mod_pos_bound. lia.
Qed.

(** The sign bit of a combination of words is the combination of their sign
    bits. *)
Lemma sign_bits T a b c d :
  ity_ok T -> is_signed T = true -> 0 <= a < 2 ^ bits T -> 0 <= b < 2 ^ bits T ->
  0 <= c < 2 ^ bits T -> 0 <= d < 2 ^ bits T ->
  let neg z := 2 ^ (bits T - 1) <=? z in
  let U := UnsignedIntegerForSize T in
  HasSignBit U (BinaryComplement U (Z.land (Z.lxor a b) (Z.lxor c d)))
  = negb (xorb (neg a) (neg b) && xorb (neg c) (neg d)).
Proof.
  intros H Hs Ha Hb Hc Hd neg U. destruct (pow_bits T H) as [Hp Hh].
  assert (Hb0 : 0 < bits T) by (unfold bits; each_size H; lia).
  assert (Hl := land_lxor_small (bits T) a b c d ltac:(lia) Ha Hb Hc Hd).
  rewrite (complement_sign U) by done. change (bits U) with (bits T). f_equal.
  rewrite Z.land_spec, !Z.lxor_spec. unfold neg. rewrite !testbit_top by lia. done.
Qed.

(** The outcome of a checked operation whose exact result is [z]. *)
Definition checked (T : ity) (z : Z) : Z * RangeConstraint := (cast T z, rc_spec T z).

(** Sign of an unsigned word that stands for a signed number. *)
Lemma image_sign T x :
  ity_ok T -> is_signed T = true -> in_ity T x ->
  let u := cast (UnsignedIntegerForSize T) x in
  0 <= u < 2 ^ bits T /\ (2 ^ (bits T - 1) <=? u) = (x <? 0).
Proof.
  intros H Hs Hx u. destruct (pow_bits T H) as [Hp Hh]. subst u. rewrite unsigned_image by done.
  unfold in_ity, imin, imax in Hx. rewrite Hs in Hx. destruct (Z.ltb_spec x 0).
  - split; [lia|]. apply Z.leb_le. lia.
  - split; [lia|]. apply Z.leb_gt. lia.
Qed.

(** Casts only depend on the residue. *)
Lemma cast_mod T a b : ity_ok T -> a mod 2 ^ bits T = b mod 2 ^ bits T -> cast T a = cast T b.
Proof.
  intros H Heq. unfold cast. destruct (is_signed T); [|done]. f_equal.
  by rewrite <- Zplus_mod_idemp_l, Heq, Zplus_mod_idemp_l.
Qed.

Lemma cast_residue T z : ity_ok T -> cast T z mod 2 ^ bits T = z mod 2 ^ bits T.
Proof.
  intros H. destruct (cast_shift T z H) as [k ->]. by rewrite Z_mod_plus_full.
Qed.

(** A computation on the unsigned images gives the image of the result. *)
Lemma cast_images T x y :
  ity_ok T ->
  let U := UnsignedIntegerForSize T in
  cast U (cast U x + cast U y) = cast U (x + y) /\ cast U (cast U x - cast U y) = cast U (x - y)
  /\ forall z, cast T (cast U z) = cast T z.
Proof.
  intros H U.
  assert (HU : forall z, cast U z mod 2 ^ bits T = z mod 2 ^ bits T) by (intros; by apply (cast_residue U)).
  split; [|split].
  - apply (cast_mod U); [done|]. by rewrite Zplus_mod, !HU, <- Zplus_mod.
  - apply (cast_mod U); [done|]. by rewrite Zminus_mod, !HU, <- Zminus_mod.
  - intros z. by apply cast_mod.
Qed.

(** The word [cast U z] when [z] is at most one bit too wide. *)
Lemma image_wide T z :
  ity_ok T -> is_signed T = true -> - 2 ^ bits T <= z < 2 ^ bits T ->
  let u := cast (UnsignedIntegerForSize T) z in
  0 <= u < 2 ^ bits T /\ (u = z \/ u = z + 2 ^ bits T).
Proof.
  intros H Hs Hz u. destruct (pow_bits T H) as [Hp Hh].
  destruct (wrapped T z H Hs ltac:(lia)) as (Hu & [E|[E|E]] & _); fold u in Hu, E; lia.
Qed.

(** Sign test of the complement: the wrapped result [u] of the exact [z]. *)
Lemma signed_validity T (u z : Z) (sx sy : bool) :
  ity_ok T -> is_signed T = true ->
  0 <= u < 2 ^ bits T -> u = z \/ u = z + 2 ^ bits T ->
  (sx = true -> sy = true -> - 2 ^ bits T <= z < 0) ->
  (sx = false -> sy = false -> 0 <= z < 2 ^ bits T) ->
  (sx <> sy -> - 2 ^ (bits T - 1) <= z < 2 ^ (bits T - 1)) ->
  let neg := 2 ^ (bits T - 1) <=? u in
  (if negb (xorb neg sx && xorb neg sy) then RANGE_VALID
   else if neg then RANGE_OVERFLOW else RANGE_UNDERFLOW) = rc_spec T z.
Proof.
  intros H Hs Hu Hz H1 H2 H3 neg. destruct (pow_bits T H) as [Hp Hh].
  unfold rc_spec, imin, imax. rewrite Hs. subst neg.
  destruct sx, sy;
    try (specialize (H3 ltac:(done))); try (specialize (H1 eq_refl eq_refl));
    try (specialize (H2 eq_refl eq_refl));
    destruct (Z.leb_spec (2 ^ (bits T - 1)) u); simpl;
    destruct (Z.ltb_spec z (- 2 ^ (bits T - 1))), (Z.ltb_spec (2 ^ (bits T - 1) - 1) z);
    done || lia.
Qed.

Lemma wide_sign T : ity_ok T -> 4 <= sizeof T ->
  promote (UnsignedIntegerForSize T) = UnsignedIntegerForSize T.
Proof. intros _ H. by apply promote_wide. Qed.

Lemma unsigned_complement T x : ity_ok T -> is_signed T = false -> in_ity T x ->
  BinaryComplement T x = imax T - x.
Proof.
  intros H Hs Hx. destruct (pow_bits T H) as [Hp Hh].
  unfold in_ity, imin, imax in *. rewrite Hs in *. unfold BinaryComplement, cast. rewrite Hs.
  symmetry. apply (Z.mod_unique_pos _ _ (-1)); unfold Z.lnot; lia.
Qed.

Lemma CheckedAdd_spec T x y :
  ity_ok T -> 4 <= sizeof T -> in_ity T x -> in_ity T y -> CheckedAdd T x y = checked T (x + y).
Proof.
  intros H H4 Hx Hy. destruct (pow_bits T H) as [Hp Hh].
  destruct (cast_images T x y H) as (HA & _ & HC). unfold CheckedAdd, checked.
  rewrite wide_sign, HA, HC by done. f_equal. destruct (is_signed T) eqn:Hs.
  - destruct (image_sign T x H Hs Hx) as [Bx Sx], (image_sign T y H Hs Hy) as [By Sy].
    unfold in_ity, imin, imax in Hx, Hy. rewrite Hs in Hx, Hy.
    destruct (image_wide T (x + y) H Hs ltac:(lia)) as [Bu Eu].
    rewrite (sign_bits T), (HasSignBit_spec (UnsignedIntegerForSize T)) by done.
    change (bits (UnsignedIntegerForSize T)) with (bits T). rewrite Sx, Sy.
    apply signed_validity; try done; intros;
      destruct (Z.ltb_spec x 0), (Z.ltb_spec y 0); done || lia.
  - rewrite unsigned_complement by done. unfold rc_spec, in_ity, imin in *. rewrite Hs in *.
    destruct (Z.leb_spec y (imax T - x)), (Z.ltb_spec (x + y) 0), (Z.ltb_spec (imax T) (x + y));
      done || lia.
Qed.

Lemma CheckedSub_spec T x y :
  ity_ok T -> 4 <= sizeof T -> in_ity T x -> in_ity T y -> CheckedSub T x y = checked T (x - y).
Proof.
  intros H H4 Hx Hy. destruct (pow_bits T H) as [Hp Hh].
  destruct (cast_images T x y H) as (_ & HA & HC). unfold CheckedSub, checked.
  rewrite wide_sign, HA, HC by done. f_equal. destruct (is_signed T) eqn:Hs.
  - destruct (image_sign T x H Hs Hx) as [Bx Sx], (image_sign T y H Hs Hy) as [By Sy].
    unfold in_ity, imin, imax in Hx, Hy. rewrite Hs in Hx, Hy.
    destruct (image_wide T (x - y) H Hs ltac:(lia)) as [Bu Eu].
    rewrite (sign_bits T), (HasSignBit_spec (UnsignedIntegerForSize T)) by done.
    change (bits (UnsignedIntegerForSize T)) with (bits T). rewrite Sx, Sy.
    rewrite <- (signed_validity T _ (x - y) (x <? 0) (negb (y <? 0)) H Hs Bu Eu);
      [by destruct (2 ^ (bits T - 1) <=? cast _ (x - y)), (x <? 0), (y <? 0)|..]; intros;
      destruct (Z.ltb_spec x 0), (Z.ltb_spec y 0); done || lia.
  - unfold rc_spec, in_ity, imin in *. rewrite Hs in *.
    destruct (Z.leb_spec y x), (Z.ltb_spec (x - y) 0), (Z.ltb_spec (imax T) (x - y)); done || lia.
Qed.

Lemma int32_ok : ity_ok int32.
Proof. unfold ity_ok. simpl. tauto. Qed.

Lemma int32_range z : in_ity int32 z <-> - 2 ^ 31 <= z <= 2 ^ 31 - 1.
Proof. reflexivity. Qed.

(** Below [int] the sign test looks at bit 31 of the promoted value and never
    fails. *)
Lemma small_sign_bit w : 0 <= w < 2 ^ 31 -> HasSignBit int32 (BinaryComplement int32 w) = true.
Proof.
  intros Hw. unfold BinaryComplement. assert (Hr : in_ity int32 (Z.lnot w)).
  { apply int32_range. unfold Z.lnot. lia. }
  rewrite cast_id by (exact int32_ok || exact Hr). unfold HasSignBit.
  rewrite unsigned_image by (exact int32_ok || reflexivity || exact Hr).
  unfold Z.lnot. destruct (Z.ltb_spec (Z.pred (- w)) 0); [|lia].
  rewrite Z.shiftr_div_pow2 by done. change (bits int32) with 32. change (PositionOfSignBit int32) with 31.
  replace ((Z.pred (- w) + 2 ^ 32) / 2 ^ 31) with 1; [done|].
  apply (Z.div_unique_pos _ _ 1 (2 ^ 31 - 1 - w)); lia.
Qed.

Lemma unsigned_small T z : ity_ok T -> sizeof T < 4 ->
  0 <= cast (UnsignedIntegerForSize T) z < 2 ^ 16.
Proof.
  intros H H4. pose proof (Z.mod_pos_bound z (2 ^ bits T)).
  change (cast (UnsignedIntegerForSize T) z) with (z mod 2 ^ bits T).
  unfold bits in *. destruct H as [E|[E|[E|E]]]; rewrite E in *; simpl in *; lia.
Qed.

Lemma small_promote T : sizeof T < 4 -> promote (UnsignedIntegerForSize T) = int32.
Proof. intros H. unfold promote. simpl. by destruct (Z.ltb_spec (sizeof T) 4); [|lia]. Qed.

Lemma CheckedAdd_small T x y :
  ity_ok T -> sizeof T < 4 -> is_signed T = true ->
  CheckedAdd T x y = (cast T (x + y), RANGE_VALID)
  /\ CheckedSub T x y = (cast T (x - y), RANGE_VALID).
Proof.
  intros H H4 Hs. destruct (cast_images T x y H) as (HA & HS & HC).
  unfold CheckedAdd, CheckedSub. rewrite small_promote, Hs, HA, HS, !HC by done.
  assert (Hb : forall a b c d, let U := UnsignedIntegerForSize T in
    HasSignBit int32 (BinaryComplement int32
      (Z.land (Z.lxor (cast U a) (cast U b)) (Z.lxor (cast U c) (cast U d)))) = true).
  { intros a b c d U. apply small_sign_bit. pose proof (unsigned_small T) as Hu.
    pose proof (land_lxor_small 16 (cast U a) (cast U b) (cast U c) (cast U d) ltac:(lia)
      (Hu a H H4) (Hu b H H4) (Hu c H H4) (Hu d H H4)). lia. }
  by rewrite !Hb.
Qed.

(** ** Multiplication *)

Lemma exact_fits T z : in_ity T z -> exact T z = Ok z.
Proof.
  unfold in_ity, exact. intros [Hl Hu]. apply Z.leb_le in Hl, Hu. by rewrite Hl, Hu.
Qed.

Lemma exact_overflow T z : ~ in_ity T z -> exact T z = Fault SignedOverflow.
Proof.
  unfold in_ity, exact. intros Hn.
  destruct (Z.leb_spec (imin T) z), (Z.leb_spec z (imax T)); simpl; done || lia.
Qed.

Lemma promote_ok T : ity_ok T -> ity_ok (promote T) /\ (forall z, in_ity T z -> in_ity (promote T) z).
Proof.
  intros H. unfold promote. destruct (Z.ltb_spec (sizeof T) 4) as [H4|]; [|done].
  split; [exact int32_ok|]. intros z. rewrite int32_range.
  destruct (ity_cases T H) as [E|[E|[E|E]]]; rewrite E in *; simpl in H4; try lia;
    destruct (is_signed T); unfold in_ity, imin, imax, bits; simpl; lia.
Qed.

Lemma arith_fits T z : ity_ok T -> in_ity T z -> arith T z = Ok z.
Proof.
  intros H Hz. destruct (promote_ok T H) as [Hok Hin]. unfold arith.
  destruct (is_signed (promote T)); [by apply exact_fits, Hin|].
  by rewrite cast_id by auto.
Qed.

Lemma twice_wider T x y :
  ity_ok T -> sizeof T * 2 <= 8 -> in_ity T x -> in_ity T y ->
  let I := TwiceWiderInteger T in
  ity_ok I /\ in_ity I x /\ in_ity I y /\ in_ity I (x * y).
Proof.
  intros H H8 Hx Hy I. split; [unfold ity_ok in *; simpl; lia|].
  destruct (pow_bits T H) as [Hp Hh].
  assert (Hsq : 2 ^ bits I = 2 ^ bits T * 2 ^ bits T).
  { rewrite <- Z.pow_add_r by (unfold bits; each_size H; lia). f_equal. unfold bits. simpl. lia. }
  assert (Hhalf : 2 ^ (bits I - 1) = 2 * (2 ^ (bits T - 1) * 2 ^ (bits T - 1))).
  { destruct (pow_bits I) as [Hp' _]; [unfold ity_ok in *; simpl; lia|]. nia. }
  unfold in_ity, imin, imax in *. change (is_signed I) with (is_signed T).
  destruct (is_signed T); nia.
Qed.

Lemma CheckedMul_narrow_spec T x y :
  ity_ok T -> sizeof T * 2 <= 8 -> in_ity T x -> in_ity T y ->
  CheckedMul_narrow T x y = Ok (checked T (x * y)).
Proof.
  intros H H8 Hx Hy. destruct (twice_wider T x y H H8 Hx Hy) as (HI & HIx & HIy & HIp).
  unfold CheckedMul_narrow. rewrite (cast_id _ x), (cast_id _ y), arith_fits by done.
  simpl. by rewrite (cast_id _ (x * y)), DstRange_spec by done.
Qed.

Lemma CheckedMul_unsigned64_spec T x y :
  ity_ok T -> 4 <= sizeof T -> is_signed T = false -> in_ity T x -> in_ity T y ->
  CheckedMul_unsigned64 T x y = Ok (checked T (x * y)).
Proof.
  intros H H4 Hs Hx Hy. unfold CheckedMul_unsigned64, arith. rewrite promote_wide, Hs by done.
  unfold checked. simpl. do 2 f_equal. unfold rc_spec, in_ity, imin in *. rewrite Hs in *.
  destruct (Z.eqb_spec y 0) as [->|]; simpl.
  - rewrite Z.mul_0_r. simpl. by destruct (Z.ltb_spec (imax T) 0); [lia|].
  - destruct (Z.ltb_spec (x * y) 0); [nia|]. pose proof (Z.mul_div_le (imax T) y ltac:(lia)).
    pose proof (Z.mul_succ_div_gt (imax T) y ltac:(lia)).
    destruct (Z.leb_spec x (imax T / y)), (Z.ltb_spec (imax T) (x * y)); nia || done.
Qed.

(** The bounds of the 64-bit signed multiplication, by the sign of the
    divisor. *)
Lemma quot_bound_pos a x y : 0 <= a -> 0 < y -> (x <=? Z.quot a y) = (x * y <=? a).
Proof.
  intros Ha Hy. rewrite Z.quot_div_nonneg by lia. pose proof (Z.mul_div_le a y Hy).
  pose proof (Z.mul_succ_div_gt a y Hy).
  destruct (Z.leb_spec x (a / y)), (Z.leb_spec (x * y) a); nia || done.
Qed.

Lemma quot_bound_neg a x y : 0 <= a -> 0 < x -> (Z.quot (- a) x <=? y) = (- a <=? x * y).
Proof.
  intros Ha Hx. rewrite Z.quot_opp_l by lia. pose proof (quot_bound_pos a (- y) x Ha Hx) as E.
  destruct (Z.leb_spec (- y) (Z.quot a x)), (Z.leb_spec (- y * x) a); try done;
    destruct (Z.leb_spec (- Z.quot a x) y), (Z.leb_spec (- a) (x * y)); nia || done.
Qed.

Lemma quot_bound_negneg a x y : 0 <= a -> x < 0 -> (Z.quot a x <=? y) = (x * y <=? a).
Proof.
  intros Ha Hx. replace x with (- (- x)) at 1 by lia. rewrite Z.quot_opp_r by lia.
  pose proof (quot_bound_pos a (- y) (- x) Ha ltac:(lia)) as E.
  destruct (Z.leb_spec (- y) (Z.quot a (- x))), (Z.leb_spec (- y * - x) a); try done;
    destruct (Z.leb_spec (- Z.quot a (- x)) y), (Z.leb_spec (x * y) a); nia || done.
Qed.

Lemma quot_in T a b : ity_ok T -> is_signed T = true -> in_ity T a -> b <> 0 ->
  (a = imin T -> b <> -1) -> in_ity T (Z.quot a b).
Proof.
  intros H Hs Ha Hb Hex. destruct (pow_bits T H) as [Hp Hh]. unfold in_ity, imin, imax in *.
  rewrite Hs in *. pose proof (Z.quot_abs a b Hb) as Habs.
  pose proof (Z.quot_div_nonneg (Z.abs a) (Z.abs b) ltac:(lia) ltac:(lia)) as Hq.
  pose proof (Z.div_le_upper_bound (Z.abs a) (Z.abs b) (Z.abs a) ltac:(lia) ltac:(nia)).
  rewrite Hq in Habs.
  assert (Hle : Z.abs (Z.quot a b) <= Z.abs a) by (rewrite <- Habs; done).
  destruct (decide (a = - 2 ^ (bits T - 1))) as [->|]; [|lia].
  destruct (decide (b = 1)) as [->|]; [rewrite Z.quot_1_r; lia|].
  assert (2 <= Z.abs b) by lia.
  pose proof (Z.div_le_upper_bound (Z.abs (- 2 ^ (bits T - 1))) (Z.abs b) (2 ^ (bits T - 1) - 1)
    ltac:(lia)) as Hlt. rewrite Habs in Hlt.
  assert (2 <= 2 ^ (bits T - 1)) by (unfold bits; each_size H; rewrite H; done).
  specialize (Hlt ltac:(nia)). lia.
Qed.

Lemma cdiv_ok T a b : ity_ok T -> in_ity T a -> in_ity T b -> b <> 0 ->
  (is_signed T = true -> a = imin T -> b <> -1) -> cdiv T a b = Ok (Z.quot a b).
Proof.
  intros H Ha Hbi Hb Hex. unfold cdiv. rewrite (proj2 (Z.eqb_neq b 0) Hb).
  apply arith_fits; [done|]. destruct (is_signed T) eqn:Hs; [apply quot_in; auto|].
  unfold in_ity, imin, imax in *. rewrite Hs in *. rewrite Z.quot_div_nonneg by lia.
  pose proof (Z.div_pos a b). pose proof (Z.div_le_upper_bound a b a ltac:(lia) ltac:(nia)). lia.
Qed.

(** What remains after the check: the product itself, undefined when it does
    not fit. *)
Definition product (T : ity) (x y : Z) (validity : RangeConstraint) : outcome (Z * RangeConstraint) :=
  p ← arith T (x * y); Ok (p, validity).

Lemma product_spec T x y validity :
  ity_ok T -> 4 <= sizeof T -> is_signed T = true -> validity = rc_spec T (x * y) ->
  product T x y validity = match rc_spec T (x * y) with
                           | RANGE_VALID => Ok (x * y, RANGE_VALID)
                           | _ => Fault SignedOverflow
                           end.
Proof.
  intros H H4 Hs ->. unfold product, arith. rewrite promote_wide, Hs by done.
  destruct (rc_spec T (x * y)) eqn:E.
  - by rewrite exact_fits by (by apply rc_spec_valid_inv).
  - rewrite exact_overflow; [done|]. by intros Hv%rc_spec_valid; rewrite Hv in E.
  - rewrite exact_overflow; [done|]. by intros Hv%rc_spec_valid; rewrite Hv in E.
  - rewrite exact_overflow; [done|]. by intros Hv%rc_spec_valid; rewrite Hv in E.
Qed.

Lemma signed_limits T : ity_ok T -> is_signed T = true ->
  in_ity T (imax T) /\ in_ity T (imin T) /\ 0 < imax T /\ imin T = - (imax T + 1).
Proof.
  intros H Hs. destruct (pow_bits T H) as [Hp Hh]. pose proof (imin_signed T) as Hi. rewrite Hs in Hi.
  assert (0 < imax T); [|unfold in_ity; lia]. unfold imax, bits. rewrite Hs. each_size H; rewrite H; done.
Qed.

Ltac bool_cases :=
  repeat match goal with
  | |- context [?a <=? ?b] => destruct (Z.leb_spec a b)
  | |- context [?a <? ?b] => destruct (Z.ltb_spec a b)
  end; first [reflexivity | exfalso; nia].

Lemma CheckedMul_signed64_spec T x y validity :
  ity_ok T -> 4 <= sizeof T -> is_signed T = true -> in_ity T x -> in_ity T y ->
  CheckedMul_signed64 T x y validity =
    if (x =? 0) && (y =? 0) then Ok (0, validity)
    else if (x =? 0) && (y <? 0) then Fault DivByZero
    else match rc_spec T (x * y) with
         | RANGE_VALID => Ok (x * y, RANGE_VALID)
         | _ => Fault SignedOverflow
         end.
Proof.
  intros H H4 Hs Hx Hy. destruct (signed_limits T H Hs) as (Hmax & Hmin & Hpos & Hm).
  unfold CheckedMul_signed64. destruct (Z.eqb_spec x 0) as [Hx0|Hx0], (Z.eqb_spec y 0) as [Hy0|Hy0];
    cbn [andb]; try reflexivity.
  - subst x. cbn [Z.ltb Z.compare]. destruct (Z.ltb_spec 0 y), (Z.ltb_spec y 0); try lia; [|reflexivity].
    rewrite cdiv_ok by (done || lia). cbn [mbind outcome_bind].
    rewrite Hm, quot_bound_neg by lia. apply product_spec; try done. unfold rc_spec. rewrite Hm. bool_cases.
  - subst y. destruct (Z.ltb_spec 0 x); change (0 <? 0) with false; cbv iota;
      rewrite cdiv_ok by (done || lia); cbn [mbind outcome_bind];
      [rewrite Hm, quot_bound_neg by lia|rewrite quot_bound_negneg by lia];
      apply product_spec; try done; unfold rc_spec; rewrite Hm; bool_cases.
  - destruct (Z.ltb_spec 0 x), (Z.ltb_spec 0 y);
      rewrite cdiv_ok by (done || lia); cbn [mbind outcome_bind];
      [rewrite quot_bound_pos by lia|rewrite Hm, quot_bound_neg by lia
      |rewrite Hm, quot_bound_neg by lia; rewrite (Z.mul_comm y x)|rewrite quot_bound_negneg by lia];
      apply product_spec; try done; unfold rc_spec; rewrite ?Hm; bool_cases.
Qed.

(** ** Division, remainder, negation, absolute value *)

Lemma quot_unsigned T a b : ity_ok T -> is_signed T = false -> in_ity T a -> in_ity T b -> b <> 0 ->
  in_ity T (Z.quot a b).
Proof.
  intros H Hs Ha Hb Hb0. unfold in_ity, imin, imax in *. rewrite Hs in *.
  rewrite Z.quot_div_nonneg by lia. pose proof (Z.div_pos a b).
  pose proof (Z.div_le_upper_bound a b a ltac:(lia) ltac:(nia)). lia.
Qed.

Lemma CheckedDiv_spec T x y :
  ity_ok T -> in_ity T x -> in_ity T y ->
  CheckedDiv T x y = if y =? 0 then Fault DivByZero else Ok (checked T (Z.quot x y)).
Proof.
  intros H Hx Hy. unfold CheckedDiv, checked.
  destruct (is_signed T && (x =? imin T) && (y =? cast T (-1))) eqn:E.
  - apply andb_prop in E as [[Hs ->%Z.eqb_eq]%andb_prop Ey%Z.eqb_eq].
    destruct (signed_limits T H Hs) as (Hmax & Hmin & Hpos & Hm).
    rewrite cast_id in Ey by (done || unfold in_ity; lia). subst y. cbn [Z.eqb].
    assert (Z.quot (imin T) (-1) = imax T + 1) as ->.
    { change (-1) with (Z.opp 1). rewrite Z.quot_opp_r, Z.quot_1_r; lia. }
    do 2 f_equal.
    + assert (imax T + 1 = imin T + 1 * 2 ^ bits T) as ->.
      { destruct (pow_bits T H). unfold imax, imin in *. rewrite Hs in *. lia. }
      rewrite (cast_mod T _ (imin T)) by (done || apply Z_mod_plus_full). by rewrite cast_id.
    + unfold rc_spec. destruct (Z.ltb_spec (imax T + 1) (imin T)); [lia|].
      by destruct (Z.ltb_spec (imax T) (imax T + 1)); [|lia].
  - destruct (Z.eqb_spec y 0) as [->|Hy0]; [done|].
    assert (Hex : is_signed T = true -> x = imin T -> y <> -1).
    { intros Hs -> ->. rewrite Hs, Z.eqb_refl in E. simpl in E.
      destruct (signed_limits T H Hs) as (Hmax & Hmin & Hpos & Hm).
      by rewrite cast_id in E by (done || unfold in_ity; lia). }
    rewrite cdiv_ok by auto. simpl. rewrite rc_spec_valid; [done|].
    destruct (is_signed T) eqn:Hs; [by apply quot_in; auto|by apply quot_unsigned].
Qed.

Lemma CheckedMod_spec T x y :
  ity_ok T -> in_ity T x -> in_ity T y -> 0 < y ->
  CheckedMod T x y = Ok (Z.rem x y, RANGE_VALID).
Proof.
  intros H Hx Hy Hpos. unfold CheckedMod, cmod. destruct (Z.eqb_spec y 0); [lia|].
  rewrite arith_fits; [|done|].
  2:{ destruct (is_signed T) eqn:Hs; [apply quot_in; auto; lia|apply quot_unsigned; done]. }
  simpl. rewrite cast_id; [|done|].
  - destruct (Z.ltb_spec 0 y); [|lia]. by destruct (is_signed T).
  - pose proof (Z.rem_bound_abs x y ltac:(lia)). pose proof (Z.rem_sign_nz x y ltac:(lia)) as Hsg.
    pose proof (imin_signed T) as Hi. unfold in_ity in *.
    destruct (decide (Z.rem x y = 0)) as [E|Hn]; [rewrite E; destruct (is_signed T); lia|].
    specialize (Hsg Hn). destruct (is_signed T); lia.
Qed.

(** The most negative number: of a type as wide as [int] its negation is
    undefined, below [int] the check reports it. *)
Lemma CheckedNeg_signed T v :
  ity_ok T -> is_signed T = true -> in_ity T v ->
  CheckedNeg T v = if (v =? imin T) && (4 <=? sizeof T) then Fault SignedOverflow
                   else Ok (checked T (- v)).
Proof.
  intros H Hs Hv. destruct (signed_limits T H Hs) as (Hmax & Hmin & Hpos & Hm).
  unfold CheckedNeg, checked. rewrite Hs. destruct (Z.eqb_spec v (imin T)) as [->|Hne]; simpl.
  - destruct (Z.leb_spec 4 (sizeof T)).
    + unfold arith. rewrite promote_wide, Hs by done. rewrite exact_overflow; [done|unfold in_ity; lia].
    + destruct (ity_cases T H) as [E|[E|[E|E]]]; rewrite E in *; simpl in *; try lia; by rewrite Hs.
  - assert (Hn : in_ity T (- v)) by (unfold in_ity in *; lia).
    by rewrite arith_fits, rc_spec_valid.
Qed.

Lemma CheckedAbs_signed T v :
  ity_ok T -> is_signed T = true -> in_ity T v ->
  CheckedAbs T v = if (v =? imin T) && (4 <=? sizeof T) then Fault SignedOverflow
                   else Ok (checked T (Z.abs v)).
Proof.
  intros H Hs Hv. destruct (signed_limits T H Hs) as (Hmax & Hmin & Hpos & Hm).
  unfold CheckedAbs, checked. rewrite Hs. destruct (Z.eqb_spec v (imin T)) as [->|Hne]; simpl.
  - destruct (Z.leb_spec 4 (sizeof T)).
    + unfold arith. rewrite promote_wide, Hs by done. rewrite exact_overflow; [done|unfold in_ity; lia].
    + destruct (ity_cases T H) as [E|[E|[E|E]]]; rewrite E in *; simpl in *; try lia; by rewrite Hs.
  - assert (Hn : in_ity T (Z.abs v)) by (unfold in_ity in *; lia).
    by rewrite arith_fits, rc_spec_valid.
Qed.

(** ** The operations of [CheckedNumeric] *)

Definition exact_op (op : binop) (x y : Z) : Z :=
  match op with
  | OpAdd => x + y
  | OpSub => x - y
  | OpMul => x * y
  | OpDiv => Z.quot x y
  | OpMod => Z.rem x y
  end.

Lemma checked_valid T z r : checked T z = (r, RANGE_VALID) -> ity_ok T -> r = z /\ in_ity T z.
Proof.
  unfold checked. intros [= <- Hv%rc_spec_valid_inv] H. by rewrite cast_id.
Qed.

Lemma CheckedMod_sound T x y r :
  ity_ok T -> in_ity T x -> in_ity T y -> CheckedMod T x y = Ok (r, RANGE_VALID) ->
  r = Z.rem x y /\ in_ity T r.
Proof.
  intros H Hx Hy HE. assert (0 < y) as Hpos.
  { revert HE. unfold CheckedMod, cmod. destruct (Z.eqb_spec y 0) as [->|Hy0]; [done|].
    destruct (arith T _); simpl; try done. intros [= _ Hv]. destruct (is_signed T) eqn:Hs.
    - by destruct (Z.ltb_spec 0 y).
    - unfold in_ity, imin in Hy. rewrite Hs in Hy. lia. }
  assert (Hin : in_ity T r).
  { revert HE. unfold CheckedMod. destruct (cmod T x y); simpl; try done. intros [= <- _].
    by apply cast_range. }
  rewrite CheckedMod_spec in HE by done. by injection HE as <-.
Qed.

(** A result reported valid is the exact one. *)
Lemma Checked_sound op T x y r :
  ity_ok T -> 4 <= sizeof T -> in_ity T x -> in_ity T y ->
  Checked op T x y RANGE_VALID = Ok (r, RANGE_VALID) -> r = exact_op op x y /\ in_ity T r.
Proof.
  intros H H4 Hx Hy. assert (Hc : forall z, Ok (checked T z) = Ok (r, RANGE_VALID) -> r = z /\ in_ity T r).
  { intros z HE. assert (checked T z = (r, RANGE_VALID)) as HE' by congruence.
    destruct (checked_valid T z r HE' H) as [-> ?]. done. }
  destruct op; simpl.
  - rewrite CheckedAdd_spec by done. apply Hc.
  - rewrite CheckedSub_spec by done. apply Hc.
  - unfold CheckedMul. destruct (Z.leb_spec (sizeof T * 2) 8).
    { rewrite CheckedMul_narrow_spec by done. apply Hc. }
    destruct (is_signed T) eqn:Hs; [|rewrite CheckedMul_unsigned64_spec by done; apply Hc].
    rewrite CheckedMul_signed64_spec by done.
    destruct ((x =? 0) && (y =? 0)) eqn:E0; [|destruct ((x =? 0) && (y <? 0)); [done|]].
    + apply andb_prop in E0 as [->%Z.eqb_eq ->%Z.eqb_eq]. intros [= <-]. done.
    + destruct (rc_spec T (x * y)) eqn:E; try done. intros [= <-]. split; [done|].
      by apply rc_spec_valid_inv.
  - rewrite CheckedDiv_spec by done. destruct (y =? 0); [done|]. apply Hc.
  - by apply CheckedMod_sound.
Qed.

Lemma rc_or_valid a b : rc_or a b = RANGE_VALID <-> a = RANGE_VALID /\ b = RANGE_VALID.
Proof. destruct a, b; split; (done || by intros []). Qed.

Lemma promotion_ok L R : ity_ok L -> ity_ok R ->
  ity_ok (ArithmeticPromotion L R) /\ 4 <= sizeof (ArithmeticPromotion L R)
  /\ IsIntegerArithmeticSafe (ArithmeticPromotion L R) L R = false.
Proof.
  intros HL HR. destruct (ity_cases L HL) as [E|[E|[E|E]]]; rewrite E; clear E;
    destruct (ity_cases R HR) as [E|[E|[E|E]]]; rewrite E; clear E;
    destruct (is_signed L), (is_signed R); unfold ity_ok; vm_compute; repeat split; auto; discriminate.
Qed.

Lemma promotion_same T : ity_ok T -> 4 <= sizeof T -> ArithmeticPromotion T T = T.
Proof.
  intros H H4. destruct (ity_cases T H) as [E|[E|[E|E]]]; rewrite E in *; simpl in H4; try lia;
    by destruct (is_signed T).
Qed.

Lemma State_with_valid T Src z v :
  ity_ok T -> ity_ok Src -> in_ity Src z ->
  ValueOrDie (State_with T Src z v) =
    if bool_decide (v = RANGE_VALID) && bool_decide (rc_spec T z = RANGE_VALID) then Some z else None.
Proof.
  intros H HS Hz. unfold ValueOrDie, IsValid, State_with. simpl. rewrite DstRange_spec by done.
  destruct (decide (rc_spec T z = RANGE_VALID)) as [E|E].
  - rewrite E. rewrite (bool_decide_eq_true_2 (RANGE_VALID = RANGE_VALID)) by done.
    rewrite andb_true_r, cast_id by (done || by apply rc_spec_valid_inv).
    erewrite (bool_decide_ext (rc_or v RANGE_VALID = _)); [done|]. rewrite rc_or_valid. naive_solver.
  - rewrite (bool_decide_eq_false_2 (rc_spec T z = _)), andb_false_r by done.
    rewrite bool_decide_eq_false_2; [done|]. rewrite rc_or_valid. naive_solver.
Qed.

Definition state_ok (T : ity) (s : CheckedNumericState) : Prop := in_ity T (st_value s).

Definition in_rangeb (T : ity) (z : Z) : bool := (imin T <=? z) && (z <=? imax T).

(** The abstract value: [None] once anything went wrong. *)
Definition convert (T : ity) (a : option Z) : option Z :=
  match a with
  | Some x => if in_rangeb T x then Some x else None
  | None => None
  end.

Definition abs_op (op : binop) (T : ity) (a b : option Z) : option Z :=
  match a, b with
  | Some x, Some y => convert T (Some (exact_op op x y))
  | _, _ => None
  end.

Lemma rc_spec_rangeb T z : bool_decide (rc_spec T z = RANGE_VALID) = in_rangeb T z.
Proof.
  unfold in_rangeb. destruct (Z.leb_spec (imin T) z), (Z.leb_spec z (imax T)); simpl.
  1: apply bool_decide_eq_true_2, rc_spec_valid; unfold in_ity; lia.
  all: apply bool_decide_eq_false_2; intros Hv%rc_spec_valid_inv; unfold in_ity in Hv; lia.
Qed.

Lemma state_ok_with T Src z v : ity_ok T -> state_ok T (State_with T Src z v).
Proof. intros H. by apply cast_range. Qed.

Lemma ValueOrDie_Some s z : ValueOrDie s = Some z <-> st_validity s = RANGE_VALID /\ st_value s = z.
Proof.
  unfold ValueOrDie, IsValid. case_bool_decide; split; [intros [= <-]|intros [_ ->]|..]; naive_solver.
Qed.

Lemma op_same_unfold op T l r :
  ity_ok T -> 4 <= sizeof T -> state_ok T l -> state_ok T r ->
  op_same op T l r =
    ('(v, validity) ← Checked op T (st_value l) (st_value r) RANGE_VALID;
     Ok (State_with T T (cast T v) (rc_or (rc_or validity (st_validity l)) (st_validity r)))).
Proof.
  intros H H4 Hl Hr. unfold op_same. pose proof (promotion_ok T T H H) as (_ & _ & Hsafe).
  rewrite promotion_same in * by done. rewrite Hsafe. by rewrite !(cast_id T) by done.
Qed.

Lemma valid_or3 a b c : bool_decide (rc_or (rc_or a b) c = RANGE_VALID) =
  bool_decide (a = RANGE_VALID) && bool_decide (b = RANGE_VALID) && bool_decide (c = RANGE_VALID).
Proof. by destruct a, b, c. Qed.

Lemma ValueOrDie_result T x v :
  ity_ok T ->
  ValueOrDie (State_with T T (cast T x) v) = if bool_decide (v = RANGE_VALID) then Some (cast T x) else None.
Proof.
  intros H. rewrite State_with_valid by (done || by apply cast_range).
  rewrite (bool_decide_eq_true_2 (rc_spec T (cast T x) = _)) by (apply rc_spec_valid, cast_range, H).
  by rewrite andb_true_r.
Qed.

Lemma op_same_refines op T l r :
  ity_ok T -> 4 <= sizeof T -> state_ok T l -> state_ok T r -> op = OpAdd \/ op = OpSub ->
  exists s, op_same op T l r = Ok s /\ state_ok T s
    /\ ValueOrDie s = abs_op op T (ValueOrDie l) (ValueOrDie r).
Proof.
  intros H H4 Hl Hr Hop. rewrite op_same_unfold by done.
  assert (Checked op T (st_value l) (st_value r) RANGE_VALID
          = Ok (checked T (exact_op op (st_value l) (st_value r)))) as ->.
  { destruct Hop as [-> | ->]; simpl; [by rewrite CheckedAdd_spec|by rewrite CheckedSub_spec]. }
  set (z := exact_op op _ _). eexists. split; [reflexivity|]. split; [by apply state_ok_with|].
  rewrite ValueOrDie_result, valid_or3, rc_spec_rangeb by done.
  unfold ValueOrDie, IsValid. destruct (bool_decide (st_validity l = RANGE_VALID));
    [|by rewrite andb_false_r]. destruct (bool_decide (st_validity r = RANGE_VALID));
    [|by rewrite !andb_false_r]. rewrite !andb_true_r. simpl. fold z.
  destruct (in_rangeb T z) eqn:Hz; [|done]. rewrite <- rc_spec_rangeb in Hz.
  apply bool_decide_eq_true_1, rc_spec_valid_inv in Hz. by rewrite !(cast_id T z) by done.
Qed.

Lemma op_same_sound op T l r s z :
  ity_ok T -> 4 <= sizeof T -> state_ok T l -> state_ok T r ->
  op_same op T l r = Ok s -> ValueOrDie s = Some z ->
  exists x y, ValueOrDie l = Some x /\ ValueOrDie r = Some y /\ z = exact_op op x y.
Proof.
  intros H H4 Hl Hr. rewrite op_same_unfold by done.
  destruct (Checked op T _ _ _) as [[v validity]| |] eqn:HC; simpl; try done.
  intros [= <-]. rewrite ValueOrDie_result, valid_or3 by done.
  destruct (bool_decide (validity = _)) eqn:Hv, (bool_decide (st_validity l = _)) eqn:Hvl,
    (bool_decide (st_validity r = _)) eqn:Hvr; simpl; try done. intros [= <-].
  apply bool_decide_eq_true_1 in Hv as ->. destruct (Checked_sound op T _ _ v H H4 Hl Hr HC) as [-> Hin].
  exists (st_value l), (st_value r). unfold ValueOrDie, IsValid. rewrite Hvl, Hvr.
  by rewrite cast_id by (done || by rewrite cast_id).
Qed.

Lemma convert_id T z : in_ity T z -> convert T (Some z) = Some z.
Proof. intros Hz. simpl. by rewrite <- rc_spec_rangeb, rc_spec_valid, bool_decide_eq_true_2 by done. Qed.

Lemma Numeric_cast_view T Src s :
  ity_ok T -> ity_ok Src -> state_ok Src s ->
  state_ok T (Numeric_cast T Src s) /\ ValueOrDie (Numeric_cast T Src s) = convert T (ValueOrDie s).
Proof.
  intros H HS Hs. unfold Numeric_cast. case_decide as E.
  - subst Src. split; [done|]. unfold ValueOrDie. destruct (IsValid s); [|done].
    by rewrite convert_id.
  - split; [by apply state_ok_with|]. rewrite State_with_valid by done. rewrite rc_spec_rangeb.
    unfold ValueOrDie, IsValid. by destruct (bool_decide _).
Qed.

Lemma State_of_view T Src z :
  ity_ok T -> ity_ok Src -> in_ity Src z ->
  state_ok T (State_of T Src z) /\ ValueOrDie (State_of T Src z) = convert T (Some z).
Proof.
  intros H HS Hz. split; [by apply cast_range|]. simpl. unfold ValueOrDie, IsValid, State_of. simpl.
  rewrite DstRange_spec, rc_spec_rangeb by done. destruct (in_rangeb T z) eqn:E; [|done].
  rewrite <- rc_spec_rangeb in E. apply bool_decide_eq_true_1, rc_spec_valid_inv in E. by rewrite cast_id.
Qed.

(** Operands of any two types: the promoted type is at least as wide as
    [int]. *)
Lemma op_mixed_refines op T Src l r :
  ity_ok T -> ity_ok Src -> state_ok Src l -> state_ok T r -> op = OpAdd \/ op = OpSub ->
  let P := ArithmeticPromotion T Src in
  exists s, op_mixed op T Src l r = Ok s /\ state_ok P s
    /\ ValueOrDie s = abs_op op P (convert P (ValueOrDie l)) (convert P (ValueOrDie r)).
Proof.
  intros H HS Hl Hr Hop P. destruct (promotion_ok T Src H HS) as (HP & HP4 & Hsafe).
  unfold op_mixed. fold P in HP, HP4, Hsafe |- *. rewrite Hsafe.
  destruct (Numeric_cast_view P Src l HP HS Hl) as [Hl' <-].
  destruct (Numeric_cast_view P T r HP H Hr) as [Hr' <-]. by apply op_same_refines.
Qed.

Lemma op_checked_refines op T Src l r :
  ity_ok T -> ity_ok Src -> (T = Src -> 4 <= sizeof T) -> state_ok Src l -> state_ok T r -> op = OpAdd \/ op = OpSub ->
  let P := ArithmeticPromotion T Src in
  exists s, op_checked op T Src l r = Ok s /\ state_ok P s
    /\ ValueOrDie s = abs_op op P (convert P (ValueOrDie l)) (convert P (ValueOrDie r)).
Proof.
  intros H HS H4 Hl Hr Hop. unfold op_checked. case_decide as E; [|by apply op_mixed_refines].
  subst Src. specialize (H4 eq_refl). cbv zeta. rewrite promotion_same by done.
  destruct (Numeric_cast_view T T l H H Hl) as [_ <-]. destruct (Numeric_cast_view T T r H H Hr) as [_ <-].
  unfold Numeric_cast. rewrite !decide_True by done. by apply op_same_refines.
Qed.

Lemma convert_Some T a z : convert T a = Some z -> a = Some z.
Proof. destruct a as [x|]; simpl; [|done]. by destruct (in_rangeb T x). Qed.

Lemma op_mixed_exact op T Src l r s z :
  ity_ok T -> ity_ok Src -> state_ok Src l -> state_ok T r ->
  op_mixed op T Src l r = Ok s -> ValueOrDie s = Some z ->
  exists x y, ValueOrDie l = Some x /\ ValueOrDie r = Some y /\ z = exact_op op x y.
Proof.
  intros H HS Hl Hr. destruct (promotion_ok T Src H HS) as (HP & HP4 & Hsafe).
  unfold op_mixed. rewrite Hsafe. set (P := ArithmeticPromotion T Src) in *.
  destruct (Numeric_cast_view P Src l HP HS Hl) as [Hl' El].
  destruct (Numeric_cast_view P T r HP H Hr) as [Hr' Er]. intros Hs Hz.
  destruct (op_same_sound op P _ _ s z HP HP4 Hl' Hr' Hs Hz) as (x & y & Hx & Hy & ->).
  rewrite El in Hx. rewrite Er in Hy. apply convert_Some in Hx, Hy. by exists x, y.
Qed.

(** The promoted type contains both [int] and the type itself. *)
Lemma promotion_int T : ity_ok T ->
  let P := ArithmeticPromotion int32 T in
  imin P <= imin T /\ imax T <= imax P /\ in_ity P 1 /\ (T = int32 -> P = int32).
Proof.
  intros H. destruct (ity_cases T H) as [E|[E|[E|E]]]; rewrite E; clear E;
    destruct (is_signed T); unfold in_ity; vm_compute; repeat split; discriminate || done.
Qed.

Lemma increment_spec T s x :
  ity_ok T -> state_ok T s -> ValueOrDie s = Some x ->
  exists s', Numeric_increment T s = Ok s' /\ state_ok T s'
    /\ ValueOrDie s' = if x <? imax T then Some (x + 1) else None.
Proof.
  intros H Hs Hx. destruct (promotion_int T H) as (Hmin & Hmax & H1 & Heq).
  assert (Hin : in_ity T x) by (apply ValueOrDie_Some in Hx as [_ <-]; done).
  pose proof (promotion_ok int32 T int32_ok H) as (HP & HP4 & _).
  set (P := ArithmeticPromotion int32 T) in *.
  destruct (State_of_view int32 int32 1 int32_ok int32_ok) as [Hone Vone];
    [apply int32_range; lia|].
  assert (exists r, (if decide (int32 = T) then op_same OpAdd T s (State_of int32 int32 1)
                     else op_mixed OpAdd int32 T s (State_of int32 int32 1)) = Ok r
    /\ state_ok P r /\ ValueOrDie r = abs_op OpAdd P (Some x) (Some 1)) as (r & Hr & Hok & Vr).
  { case_decide as E.
    - rewrite (Heq (eq_sym E)). rewrite <- E in *. rewrite <- Hx.
      change (Some 1) with (convert int32 (Some 1)). rewrite <- Vone.
      apply op_same_refines; first [done | exact int32_ok | by left].
    - destruct (op_mixed_refines OpAdd int32 T s (State_of int32 int32 1) int32_ok H Hs Hone ltac:(by left))
        as (r & Hr & Hok & Vr).
      exists r. split; [done|]. split; [done|]. fold P in Vr. rewrite Vr, Hx, Vone.
      assert (in_ity P x) by (unfold in_ity in *; lia).
      rewrite (convert_id int32) by (apply int32_range; lia). by rewrite !(convert_id P) by done. }
  exists (Numeric_cast T P r). destruct (Numeric_cast_view T P r H HP Hok) as [Hok' V'].
  split; [|split; [done|]].
  - unfold Numeric_increment, op_assign. case_decide as E; rewrite Hr; simpl; [|done].
    by rewrite <- E, (Heq (eq_sym E)).
  - rewrite V', Vr. unfold abs_op, convert, in_rangeb, in_ity in *. simpl.
    destruct (Z.ltb_spec x (imax T)).
    + assert ((imin P <=? x + 1) = true /\ (x + 1 <=? imax P) = true /\ (imin T <=? x + 1) = true
              /\ (x + 1 <=? imax T) = true) as (E1 & E2 & E3 & E4) by (rewrite !Z.leb_le; lia).
      rewrite E1, E2. simpl. by rewrite E3, E4.
    + assert ((x + 1 <=? imax T) = false) as E by (apply Z.leb_gt; lia).
      destruct ((imin P <=? x + 1) && (x + 1 <=? imax P)); [|done]. by rewrite E, andb_false_r.
Qed.

Lemma small_sum T x y : ity_ok T -> sizeof T < 4 -> in_ity T x -> in_ity T y ->
  in_ity int32 x /\ in_ity int32 y /\ in_ity int32 (x + y).
Proof.
  intros H H4. rewrite !int32_range.
  destruct (ity_cases T H) as [E|[E|[E|E]]]; rewrite E in *; simpl in H4; try lia;
    destruct (is_signed T); unfold in_ity, imin, imax, bits; simpl; lia.
Qed.

Lemma promotion_small T : ity_ok T -> sizeof T < 4 -> ArithmeticPromotion T T = int32.
Proof.
  intros H H4. destruct (ity_cases T H) as [E|[E|[E|E]]]; rewrite E in *; simpl in H4; try lia;
    by destruct (is_signed T).
Qed.

(** ** Main statements *)

(** C22. Adding or subtracting two checked numbers, of different integer types
    or of one type of at least four bytes, never fails and computes the abstract
    result: both operands converted to the promoted type, the exact sum or
    difference when everything fits, and an invalid number otherwise.  For two
    numbers of one shorter type this is false: [small_sum_unreported]. *)
Theorem CheckedNumeric_refines op T Src l r :
  ity_ok T -> ity_ok Src -> (T = Src -> 4 <= sizeof T) -> state_ok Src l -> state_ok T r -> op = OpAdd \/ op = OpSub ->
  let P := ArithmeticPromotion T Src in
  exists s, op_checked op T Src l r = Ok s /\ state_ok P s
    /\ ValueOrDie s = abs_op op P (convert P (ValueOrDie l)) (convert P (ValueOrDie r)).
Proof. apply op_checked_refines. Qed.

(** The largest [int64] plus an [int32], and the difference of two [int32]. *)
Lemma CheckedNumeric_refines_witness :
  (exists s, op_checked OpAdd int32 int64 (State_of int64 int64 (2 ^ 63 - 1)) (State_of int32 int32 1) = Ok s
    /\ state_ok int64 s /\ ValueOrDie s = None) /\
  (exists s, op_checked OpSub int32 int32 (State_of int32 int32 5) (State_of int32 int32 7) = Ok s
    /\ state_ok int32 s /\ ValueOrDie s = Some (-2)).
Proof.
  split.
  - apply (CheckedNumeric_refines OpAdd int32 int64 (State_of int64 int64 (2 ^ 63 - 1))
      (State_of int32 int32 1)); [unfold ity_ok; simpl; tauto|unfold ity_ok; simpl; tauto|discriminate
      |split; vm_compute; discriminate|split; vm_compute; discriminate|by left].
  - apply (CheckedNumeric_refines OpSub int32 int32 (State_of int32 int32 5)
      (State_of int32 int32 7)); [unfold ity_ok; simpl; tauto|unfold ity_ok; simpl; tauto|by intros _
      |split; vm_compute; discriminate|split; vm_compute; discriminate|by right].
Defined.

(** Whatever the operation, a valid result is the exact one and both
    operands were valid: no overflow of addition, subtraction, multiplication,
    division or remainder goes unreported between numbers of different types. *)
Theorem CheckedNumeric_sound op T Src l r s z :
  ity_ok T -> ity_ok Src -> state_ok Src l -> state_ok T r ->
  op_mixed op T Src l r = Ok s -> ValueOrDie s = Some z ->
  exists x y, ValueOrDie l = Some x /\ ValueOrDie r = Some y /\ z = exact_op op x y.
Proof. apply op_mixed_exact. Qed.

Lemma CheckedNumeric_sound_witness :
  exists x y, ValueOrDie (State_of uint32 uint32 70000) = Some x
    /\ ValueOrDie (State_of int32 int32 60000) = Some y /\ 4200000000 = exact_op OpMul x y.
Proof.
  apply (CheckedNumeric_sound OpMul int32 uint32 (State_of uint32 uint32 70000)
    (State_of int32 int32 60000) (mkState 4200000000 RANGE_VALID));
    [unfold ity_ok; simpl; tauto|unfold ity_ok; simpl; tauto
    |split; vm_compute; discriminate|split; vm_compute; discriminate|vm_compute; reflexivity
    |vm_compute; reflexivity].
Defined.

(** Two numbers of the same one- or two-byte type are the exception: their
    sum is narrowed back to that type before its range is checked, so it wraps
    and is still reported valid, for every pair of operands. *)
Theorem small_sum_unreported T x y :
  ity_ok T -> sizeof T < 4 -> in_ity T x -> in_ity T y ->
  op_same OpAdd T (mkState x RANGE_VALID) (mkState y RANGE_VALID)
  = Ok (mkState (cast T (x + y)) RANGE_VALID).
Proof.
  intros H H4 Hx Hy. destruct (small_sum T x y H H4 Hx Hy) as (Ix & Iy & Is).
  pose proof (promotion_ok T T H H) as (_ & _ & Hsafe). unfold op_same. rewrite Hsafe.
  rewrite promotion_small by done. cbn [st_value st_validity Checked].
  rewrite !(cast_id int32) by (done || exact int32_ok).
  rewrite CheckedAdd_spec by (done || exact int32_ok). unfold checked.
  rewrite rc_spec_valid, (cast_id int32) by (done || exact int32_ok).
  cbn [mbind outcome_bind]. unfold State_with. pose proof (cast_range T (x + y) H) as Hr.
  assert (in_ity int32 (cast T (x + y))) by (by destruct (small_sum T _ _ H H4 Hr Hr)).
  rewrite DstRange_spec, rc_spec_valid, cast_id by (done || exact int32_ok). done.
Qed.

Lemma small_sum_unreported_witness :
  op_same OpAdd int8 (mkState 100 RANGE_VALID) (mkState 100 RANGE_VALID)
  = Ok (mkState (-56) RANGE_VALID).
Proof.
  apply (small_sum_unreported int8 100 100); [unfold ity_ok; simpl; tauto|reflexivity
    |split; vm_compute; discriminate|split; vm_compute; discriminate].
Defined.

(** The 64-bit signed product: right when it fits, but zero times a
    negative number divides by zero (the guard tests for both being zero), and
    a product that does not fit is computed after its overflow was detected. *)
Theorem CheckedMul_signed64_behaviour T x y validity :
  ity_ok T -> 4 <= sizeof T -> is_signed T = true -> in_ity T x -> in_ity T y ->
  CheckedMul_signed64 T x y validity =
    if (x =? 0) && (y =? 0) then Ok (0, validity)
    else if (x =? 0) && (y <? 0) then Fault DivByZero
    else match rc_spec T (x * y) with
         | RANGE_VALID => Ok (x * y, RANGE_VALID)
         | _ => Fault SignedOverflow
         end.
Proof. apply CheckedMul_signed64_spec. Qed.

Lemma CheckedMul_signed64_behaviour_witness :
  CheckedMul_signed64 int64 0 (-5) RANGE_VALID = Fault DivByZero.
Proof.
  apply (CheckedMul_signed64_behaviour int64 0 (-5)); [unfold ity_ok; simpl; tauto|vm_compute; discriminate
    |reflexivity|split; vm_compute; discriminate|split; vm_compute; discriminate].
Defined.

(** Conversions between integer types: [saturated_cast] clamps to the
    destination's range and never reaches its unreachable case; [checked_cast]
    gives the number itself or stops the program. *)
Theorem casts_spec Dst Src z :
  ity_ok Dst -> ity_ok Src -> in_ity Src z ->
  saturated_cast Dst Src z = Some (Z.max (imin Dst) (Z.min z (imax Dst)))
  /\ checked_cast Dst Src z = if decide (imin Dst <= z <= imax Dst) then Some z else None.
Proof. intros HD HS Hz. split; [by apply saturated_cast_spec|by apply checked_cast_spec]. Qed.

Lemma casts_spec_witness :
  saturated_cast uint8 int32 300 = Some 255 /\ checked_cast uint8 int32 300 = None.
Proof.
  apply (casts_spec uint8 int32 300); [unfold ity_ok; simpl; tauto|unfold ity_ok; simpl; tauto
    |split; vm_compute; discriminate].
Defined.

(** Incrementing a valid number of any integer type is exact, and invalid
    precisely at the type's maximum. *)
Theorem increment_exact T s x :
  ity_ok T -> state_ok T s -> ValueOrDie s = Some x ->
  exists s', Numeric_increment T s = Ok s' /\ state_ok T s'
    /\ ValueOrDie s' = if x <? imax T then Some (x + 1) else None.
Proof. apply increment_spec. Qed.

Lemma increment_exact_witness :
  exists s', Numeric_increment int8 (State_of int8 int8 127) = Ok s' /\ state_ok int8 s'
    /\ ValueOrDie s' = None.
Proof.
  apply (increment_exact int8 (State_of int8 int8 127) 127); [unfold ity_ok; simpl; tauto
    |split; vm_compute; discriminate|vm_compute; reflexivity].
Defined.
