(* ===== verification/BoundedQueue.v ===== *)
(** * The bounded queue (libsh/butil/containers/bounded_queue.h)

    A ring buffer in a block of memory that the queue owns or borrows.  A
    block is a list of slots, a slot without an object is [None]; a null
    block is [None].  [_count], [_cap] and [_start] are 32-bit unsigned
    numbers and wrap as such.  A returned address is the slot it points to.
    A queue represents the list of its items, topmost first. *)

From Stdlib Require Import ZArith Lia.
From stdpp Require Import base list.
From S2P Require Import Prelude Numerics.

Open Scope Z_scope.

Inductive StorageOwnership : Type := OWNS_STORAGE | NOT_OWN_STORAGE.

Record BoundedQueue (T : Type) : Type := mkQueue {
  q_count : Z;
  q_cap : Z;
  q_start : Z;
  q_ownership : StorageOwnership;
  q_items : option (list (option T))
}.
Arguments mkQueue {T}.
Arguments q_count {T}.
Arguments q_cap {T}.
Arguments q_start {T}.
Arguments q_ownership {T}.
Arguments q_items {T}.

Definition u32 (z : Z) : Z := cast uint32 z.
Definition u64 (z : Z) : Z := cast uint64 z.

(** [_mod]: the loop subtracts [cap]; it never ends when [cap] is zero. *)
Fixpoint mod_loop (fuel : nat) (off cap : Z) : outcome Z :=
  match fuel with
  | O => Diverge
  | S fuel => if cap <=? off then mod_loop fuel (u32 (off - cap)) cap else Ok off
  end.

Definition q_mod (off cap : Z) : outcome Z := mod_loop (S (Z.to_nat (off / cap))) off cap.

Section Queue.
Context {T : Type}.

(** Memory accesses through [(T * )_items + i]. *)
Definition slot (q : BoundedQueue T) (i : Z) : outcome (option T) :=
  match q_items q with
  | Some slots => vec_at slots i
  | None => Fault OutOfRange
  end.

Definition store (q : BoundedQueue T) (i : Z) (v : option T) : outcome (option (list (option T))) :=
  _ ← slot q i; Ok (fmap (fun slots => <[Z.to_nat i := v]> slots) (q_items q)).

Definition load (q : BoundedQueue T) (i : Z) : outcome T :=
  s ← slot q i;
  match s with Some v => Ok v | None => Fault Uninitialised end.

(** Construction in place, assignment to a live object, destruction. *)
Definition construct (q : BoundedQueue T) (i : Z) (v : T) : outcome (BoundedQueue T) :=
  items ← store q i (Some v);
  Ok (mkQueue (q_count q) (q_cap q) (q_start q) (q_ownership q) items).

Definition assign (q : BoundedQueue T) (i : Z) (v : T) : outcome (BoundedQueue T) :=
  _ ← load q i; construct q i v.

Definition destroy (q : BoundedQueue T) (i : Z) : outcome (BoundedQueue T) :=
  _ ← load q i; items ← store q i None;
  Ok (mkQueue (q_count q) (q_cap q) (q_start q) (q_ownership q) items).

Definition set_count (q : BoundedQueue T) (c : Z) : BoundedQueue T :=
  mkQueue (u32 c) (q_cap q) (q_start q) (q_ownership q) (q_items q).

Definition set_start (q : BoundedQueue T) (s : Z) : BoundedQueue T :=
  mkQueue (q_count q) (q_cap q) (u32 s) (q_ownership q) (q_items q).

(** ** Constructors and destructor

    [sz] is [sizeof(T)]; the borrowed block holds [memsize / sz] slots.
    [malloc] gives an uninitialised block or a null one. *)
Definition BoundedQueue_mem (sz : Z) (mem : option (list (option T))) (memsize : Z)
    (ownership : StorageOwnership) : BoundedQueue T :=
  mkQueue 0 (u32 (memsize / sz)) 0 ownership mem.

Definition BoundedQueue_cap (sz : Z) (malloc_ok : bool) (capacity : Z) : BoundedQueue T :=
  mkQueue 0 (u32 capacity) 0 OWNS_STORAGE
    (if malloc_ok then Some (replicate (Z.to_nat (u64 (capacity * sz) / sz)) None) else None).

Definition BoundedQueue_default : BoundedQueue T := mkQueue 0 0 0 NOT_OWN_STORAGE None.

(** ** Operations *)

Definition push (q : BoundedQueue T) (item : T) : outcome (bool * BoundedQueue T) :=
  if q_count q <? q_cap q then
    i ← q_mod (u32 (q_start q + q_count q)) (q_cap q);
    q ← construct q i item;
    Ok (true, set_count q (q_count q + 1))
  else Ok (false, q).

Definition elim_push (q : BoundedQueue T) (item : T) : outcome (BoundedQueue T) :=
  if q_count q <? q_cap q then
    i ← q_mod (u32 (q_start q + q_count q)) (q_cap q);
    q ← construct q i item;
    Ok (set_count q (q_count q + 1))
  else
    q ← assign q (q_start q) item;
    s ← q_mod (u32 (q_start q + 1)) (q_cap q);
    Ok (set_start q s).

(** [T()] is the argument [dflt]. *)
Definition push_default (dflt : T) (q : BoundedQueue T) : outcome (option Z * BoundedQueue T) :=
  if q_count q <? q_cap q then
    i ← q_mod (u32 (q_start q + q_count q)) (q_cap q);
    q ← construct (set_count q (q_count q + 1)) i dflt;
    Ok (Some i, q)
  else Ok (None, q).

Definition step_back (q : BoundedQueue T) : Z :=
  if q_start q =? 0 then q_cap q - 1 else q_start q - 1.

Definition push_top (q : BoundedQueue T) (item : T) : outcome (bool * BoundedQueue T) :=
  if q_count q <? q_cap q then
    let q := set_start q (step_back q) in
    let q := set_count q (q_count q + 1) in
    q ← construct q (q_start q) item;
    Ok (true, q)
  else Ok (false, q).

Definition push_top_default (dflt : T) (q : BoundedQueue T) : outcome (option Z * BoundedQueue T) :=
  if q_count q <? q_cap q then
    let q := set_start q (step_back q) in
    let q := set_count q (q_count q + 1) in
    q' ← construct q (q_start q) dflt;
    Ok (Some (q_start q), q')
  else Ok (None, q).

Definition pop (q : BoundedQueue T) : outcome (bool * BoundedQueue T) :=
  if negb (q_count q =? 0) then
    let q := set_count q (q_count q - 1) in
    q ← destroy q (q_start q);
    s ← q_mod (u32 (q_start q + 1)) (q_cap q);
    Ok (true, set_start q s)
  else Ok (false, q).

(** The popped item goes to the output argument, unchanged on failure. *)
Definition pop_item (q : BoundedQueue T) (item : T) : outcome (bool * T * BoundedQueue T) :=
  if negb (q_count q =? 0) then
    let q := set_count q (q_count q - 1) in
    item ← load q (q_start q);
    q ← destroy q (q_start q);
    s ← q_mod (u32 (q_start q + 1)) (q_cap q);
    Ok (true, item, set_start q s)
  else Ok (false, item, q).

Definition pop_bottom (q : BoundedQueue T) : outcome (bool * BoundedQueue T) :=
  if negb (q_count q =? 0) then
    let q := set_count q (q_count q - 1) in
    i ← q_mod (u32 (q_start q + q_count q)) (q_cap q);
    q ← destroy q i;
    Ok (true, q)
  else Ok (false, q).

Definition pop_bottom_item (q : BoundedQueue T) (item : T) : outcome (bool * T * BoundedQueue T) :=
  if negb (q_count q =? 0) then
    let q := set_count q (q_count q - 1) in
    p ← q_mod (u32 (q_start q + q_count q)) (q_cap q);
    item ← load q p;
    q ← destroy q p;
    Ok (true, item, q)
  else Ok (false, item, q).

Definition clear (q : BoundedQueue T) : outcome (BoundedQueue T) :=
  q ← for_ (q_count q) (fun i q =>
        j ← q_mod (u32 (q_start q + i)) (q_cap q); destroy q j) q;
  Ok (set_start (set_count q 0) 0).

(** The destructor; a freed block is gone. *)
Definition destructor (q : BoundedQueue T) : outcome (BoundedQueue T) :=
  q ← clear q;
  Ok (match q_ownership q with
      | OWNS_STORAGE => mkQueue (q_count q) (q_cap q) (q_start q) OWNS_STORAGE None
      | NOT_OWN_STORAGE => q
      end).

Definition top (q : BoundedQueue T) : option Z :=
  if negb (q_count q =? 0) then Some (q_start q) else None.

(** [index] is a [size_t]: the sum has 64 bits, [_mod] takes 32 of them. *)
Definition top_at (q : BoundedQueue T) (index : Z) : outcome (option Z) :=
  if index <? q_count q then
    i ← q_mod (u32 (u64 (q_start q + index))) (q_cap q); Ok (Some i)
  else Ok None.

Definition bottom (q : BoundedQueue T) : outcome (option Z) :=
  if negb (q_count q =? 0) then
    i ← q_mod (u32 (u32 (q_start q + q_count q) - 1)) (q_cap q); Ok (Some i)
  else Ok None.

Definition bottom_at (q : BoundedQueue T) (index : Z) : outcome (option Z) :=
  if index <? q_count q then
    i ← q_mod (u32 (u64 (u64 (u32 (q_start q + q_count q) - index) - 1))) (q_cap q); Ok (Some i)
  else Ok None.

Definition empty (q : BoundedQueue T) : bool := q_count q =? 0.
Definition full (q : BoundedQueue T) : bool := q_cap q =? q_count q.
Definition size (q : BoundedQueue T) : Z := q_count q.
Definition capacity (q : BoundedQueue T) : Z := q_cap q.
Definition max_capacity : Z := Z.shiftl 1 (4 * 8) - 1.
Definition initialized (q : BoundedQueue T) : bool :=
  match q_items q with Some _ => true | None => false end.
Definition swap (q rhs : BoundedQueue T) : BoundedQueue T * BoundedQueue T :=
  (mkQueue (q_count rhs) (q_cap rhs) (q_start rhs) (q_ownership rhs) (q_items rhs),
   mkQueue (q_count q) (q_cap q) (q_start q) (q_ownership q) (q_items q)).

(** * Properties *)

(** Position [i] from the top is slot [pos q i]; past the last item the slot
    is empty. *)
Definition pos (q : BoundedQueue T) (i : nat) : nat :=
  Z.to_nat ((q_start q + Z.of_nat i) mod q_cap q).

(** The sum of two offsets stays below [2 ^ 32] for the capacities considered. *)
Definition max_safe_capacity : Z := 2 ^ 31.

Record holds (q : BoundedQueue T) (l : list T) : Prop := {
  h_cap : 0 <= q_cap q <= max_safe_capacity;
  h_start : 0 <= q_start q /\ (q_start q < q_cap q \/ (q_cap q = 0 /\ q_start q = 0));
  h_count : q_count q = Z.of_nat (length l) /\ q_count q <= q_cap q;
  h_items : exists slots, q_items q = Some slots /\ q_cap q <= Z.of_nat (length slots)
    /\ forall i, Z.of_nat i < q_cap q -> slots !! pos q i = Some (l !! i)
}.

Lemma u32_id z : 0 <= z < 2 ^ 32 -> u32 z = z.
Proof. intros H. unfold u32. apply Z.mod_small. exact H. Qed.

Lemma u64_id z : 0 <= z < 2 ^ 64 -> u64 z = z.
Proof. intros H. unfold u64. apply Z.mod_small. exact H. Qed.
End Queue.

(** The loop computes the remainder, in as many rounds as the quotient. *)
Lemma mod_loop_spec fuel off cap :
  0 < cap -> 0 <= off < 2 ^ 32 -> off < Z.of_nat fuel * cap -> mod_loop fuel off cap = Ok (off mod cap).
Proof.
  revert off. induction fuel as [|fuel IH]; intros off Hc Ho Hf; [lia|]. cbn [mod_loop].
  destruct (Z.leb_spec cap off).
  - rewrite u32_id by lia. rewrite IH by lia. f_equal.
    rewrite <- (Z_mod_plus_full (off - cap) 1 cap). f_equal. lia.
  - by rewrite Z.mod_small by lia.
Qed.

Lemma q_mod_spec off cap : 0 < cap -> 0 <= off < 2 ^ 32 -> q_mod off cap = Ok (off mod cap).
Proof.
  intros Hc Ho. unfold q_mod. apply mod_loop_spec; [done|done|].
  pose proof (Z.mul_succ_div_gt off cap Hc). pose proof (Z.div_pos off cap ltac:(lia) Hc). nia.
Qed.

Lemma mod_loop_diverges fuel off : 0 <= off < 2 ^ 32 -> mod_loop fuel off 0 = Diverge.
Proof.
  intros Ho. induction fuel as [|fuel IH]; [done|]. cbn [mod_loop].
  destruct (Z.leb_spec 0 off); [|lia]. by rewrite Z.sub_0_r, u32_id.
Qed.

Section QueueFacts.
Context {T : Type}.
Implicit Types (q : BoundedQueue T) (l : list T).

(** ** Positions *)

Lemma mod_inj c s i j : 0 < c -> 0 <= i < c -> 0 <= j < c -> (s + i) mod c = (s + j) mod c -> i = j.
Proof.
  intros Hc Hi Hj HE. pose proof (Z.div_mod (s + i) c ltac:(lia)).
  pose proof (Z.div_mod (s + j) c ltac:(lia)). rewrite HE in *.
  assert ((s + i) / c = (s + j) / c) by nia. lia.
Qed.

Lemma pos_lt q i : 0 < q_cap q -> Z.of_nat (pos q i) < q_cap q.
Proof.
  intros Hc. pose proof (Z.mod_pos_bound (q_start q + Z.of_nat i) (q_cap q) Hc).
  unfold pos. rewrite Z2Nat.id by lia. lia.
Qed.

Lemma pos_inj q i j :
  Z.of_nat i < q_cap q -> Z.of_nat j < q_cap q -> pos q i = pos q j -> i = j.
Proof.
  intros Hi Hj HE. pose proof (Z.mod_pos_bound (q_start q + Z.of_nat i) (q_cap q) ltac:(lia)).
  pose proof (Z.mod_pos_bound (q_start q + Z.of_nat j) (q_cap q) ltac:(lia)).
  unfold pos in HE. apply Z2Nat.inj in HE; [|lia..]. apply mod_inj in HE; lia.
Qed.

Lemma pos_surj q j : (Z.of_nat j < q_cap q) -> exists i, Z.of_nat i < q_cap q /\ pos q i = j.
Proof.
  intros Hj. exists (Z.to_nat ((Z.of_nat j - q_start q) mod q_cap q)).
  pose proof (Z.mod_pos_bound (Z.of_nat j - q_start q) (q_cap q) ltac:(lia)).
  split; [lia|]. unfold pos. rewrite Z2Nat.id by lia. rewrite Zplus_mod_idemp_r.
  replace (q_start q + (Z.of_nat j - q_start q)) with (Z.of_nat j) by lia.
  rewrite Z.mod_small by lia. lia.
Qed.

(** A change of one position, seen through all positions. *)
Lemma slots_insert q l (slots : list (option T)) k v :
  q_cap q <= Z.of_nat (length slots) -> Z.of_nat k < q_cap q ->
  (forall i, Z.of_nat i < q_cap q -> slots !! pos q i = Some (l !! i)) ->
  forall i, Z.of_nat i < q_cap q ->
    <[pos q k := v]> slots !! pos q i = Some (if decide (i = k) then v else l !! i).
Proof.
  intros Hlen Hk Hs i Hi. case_decide as E.
  - subst i. apply list_lookup_insert_eq. pose proof (pos_lt q k ltac:(lia)). lia.
  - rewrite list_lookup_insert_ne; [by apply Hs|]. intros HE. apply E. symmetry. by apply (pos_inj q).
Qed.

(** ** Memory *)

Lemma slot_at q slots i v : q_items q = Some slots -> slots !! i = Some v ->
  slot q (Z.of_nat i) = Ok v.
Proof.
  intros Hq Hv. unfold slot. rewrite Hq. apply vec_at_some; [lia|]. by rewrite Nat2Z.id.
Qed.

Lemma construct_ok q slots i v :
  q_items q = Some slots -> (i < length slots)%nat ->
  construct q (Z.of_nat i) v
  = Ok (mkQueue (q_count q) (q_cap q) (q_start q) (q_ownership q) (Some (<[i := Some v]> slots))).
Proof.
  intros Hq Hi. destruct (lookup_lt_is_Some_2 slots i Hi) as [w Hw].
  unfold construct, store. erewrite slot_at by done. simpl. by rewrite Hq, Nat2Z.id.
Qed.

Lemma load_ok q slots i v :
  q_items q = Some slots -> slots !! i = Some (Some v) -> load q (Z.of_nat i) = Ok v.
Proof. intros Hq Hv. unfold load. by erewrite slot_at by done. Qed.

Lemma assign_ok q slots i w v :
  q_items q = Some slots -> slots !! i = Some (Some w) ->
  assign q (Z.of_nat i) v
  = Ok (mkQueue (q_count q) (q_cap q) (q_start q) (q_ownership q) (Some (<[i := Some v]> slots))).
Proof.
  intros Hq Hw. unfold assign. erewrite load_ok by done. simpl.
  apply construct_ok; [done|]. by eapply lookup_lt_Some.
Qed.

Lemma destroy_ok q slots i w :
  q_items q = Some slots -> slots !! i = Some (Some w) ->
  destroy q (Z.of_nat i)
  = Ok (mkQueue (q_count q) (q_cap q) (q_start q) (q_ownership q) (Some (<[i := None]> slots))).
Proof.
  intros Hq Hw. unfold destroy. erewrite load_ok by done. unfold store. erewrite slot_at by done.
  simpl. by rewrite Hq, Nat2Z.id.
Qed.

(** The slot the code computes for position [i]. *)
Lemma q_mod_pos q l i :
  holds q l -> Z.of_nat i < q_cap q ->
  q_mod (u32 (q_start q + Z.of_nat i)) (q_cap q) = Ok (Z.of_nat (pos q i)).
Proof.
  intros [Hcap Hst _ _] Hi. unfold max_safe_capacity in Hcap.
  rewrite u32_id, q_mod_spec by lia. f_equal. unfold pos.
  pose proof (Z.mod_pos_bound (q_start q + Z.of_nat i) (q_cap q)). lia.
Qed.

Lemma pos_zero q l : holds q l -> 0 < q_cap q -> Z.of_nat (pos q 0) = q_start q.
Proof.
  intros [_ Hst _ _] Hc. unfold pos. rewrite Z.add_0_r, Z.mod_small by lia. lia.
Qed.

(** Moving the start forward renumbers the positions. *)
Lemma pos_next q q' i :
  q_cap q' = q_cap q -> q_start q' = (q_start q + 1) mod q_cap q -> pos q' i = pos q (S i).
Proof.
  intros Hc Hs. unfold pos. rewrite Hc, Hs, Zplus_mod_idemp_l. do 2 f_equal. lia.
Qed.

Lemma pos_wrap q i : 0 < q_cap q -> Z.of_nat i = q_cap q -> pos q i = pos q 0.
Proof.
  intros Hc Hi. unfold pos. rewrite Hi. f_equal.
  by rewrite <- (Z_mod_plus_full (q_start q + Z.of_nat 0) 1), Z.mul_1_l, Z.add_0_r.
Qed.

Lemma next_start q l : holds q l -> 0 < q_cap q ->
  q_mod (u32 (q_start q + 1)) (q_cap q) = Ok ((q_start q + 1) mod q_cap q)
  /\ 0 <= (q_start q + 1) mod q_cap q < q_cap q.
Proof.
  intros [Hcap Hst _ _] Hc. unfold max_safe_capacity in Hcap.
  rewrite u32_id, q_mod_spec by lia. split; [done|]. apply Z.mod_pos_bound. lia.
Qed.

(** ** Each operation on the represented list

    [after q q' l]: the queue [q'] represents [l] in the same block. *)
Definition after q q' l : Prop :=
  holds q' l /\ q_cap q' = q_cap q /\ q_ownership q' = q_ownership q.

Lemma nonempty_cap q x l : holds q (x :: l) -> 0 < q_cap q.
Proof. intros [_ _ Hn _]. simpl in Hn. lia. Qed.

Lemma count_small q l : holds q l -> 0 <= q_count q < 2 ^ 32 /\ q_count q + 1 < 2 ^ 32.
Proof. intros [Hc _ Hn _]. unfold max_safe_capacity in Hc. lia. Qed.

(** Writing the first free position. *)
Lemma holds_push q l slots x n :
  holds q l -> q_items q = Some slots -> Z.of_nat (length l) < q_cap q -> n = Z.of_nat (length l) + 1 ->
  holds (mkQueue n (q_cap q) (q_start q) (q_ownership q) (Some (<[pos q (length l) := Some x]> slots)))
        (l ++ [x]).
Proof.
  intros [Hcap Hst Hn (s' & Hs' & Hlen & Hs)] Hq Hlt ->. rewrite Hq in Hs'. injection Hs' as <-.
  constructor; [done|done|simpl; rewrite length_app; simpl; lia|].
  eexists. split; [reflexivity|]. simpl. rewrite length_insert. split; [done|]. intros i Hi.
  etrans; [apply (slots_insert q l slots); [done..|exact Hi]|]. f_equal. case_decide as E.
  - subst i. by rewrite lookup_app_r, Nat.sub_diag by lia.
  - destruct (decide (i < length l)%nat).
    + by rewrite lookup_app_l.
    + rewrite !lookup_ge_None_2; [done|rewrite length_app; simpl; lia|lia].
Qed.

Lemma push_spec q l x : holds q l ->
  exists q', push q x = Ok (bool_decide (Z.of_nat (length l) < q_cap q), q')
    /\ after q q' (if bool_decide (Z.of_nat (length l) < q_cap q) then l ++ [x] else l).
Proof.
  intros Hh. pose proof Hh as [Hcap Hst Hn (slots & Hq & Hlen & Hs)].
  unfold push. destruct (Z.ltb_spec (q_count q) (q_cap q)).
  - rewrite bool_decide_eq_true_2 by lia. rewrite (proj1 Hn), (q_mod_pos q l) by (done || lia). simpl.
    rewrite (construct_ok _ slots) by (done || (pose proof (pos_lt q (length l)); lia)). simpl.
    eexists. split; [reflexivity|]. split; [|done]. unfold set_count. simpl.
    pose proof (count_small q l Hh). apply holds_push; [done|done|lia|]. rewrite u32_id; lia.
  - rewrite bool_decide_eq_false_2 by lia. by exists q.
Qed.

Lemma push_default_spec dflt q l : holds q l ->
  exists q', push_default dflt q
      = Ok (if bool_decide (Z.of_nat (length l) < q_cap q) then Some (Z.of_nat (pos q (length l))) else None, q')
    /\ after q q' (if bool_decide (Z.of_nat (length l) < q_cap q) then l ++ [dflt] else l).
Proof.
  intros Hh. pose proof Hh as [Hcap Hst Hn (slots & Hq & Hlen & Hs)].
  unfold push_default. destruct (Z.ltb_spec (q_count q) (q_cap q)).
  - rewrite bool_decide_eq_true_2 by lia. rewrite (proj1 Hn), (q_mod_pos q l) by (done || lia). simpl.
    rewrite (construct_ok _ slots) by (done || (pose proof (pos_lt q (length l)); lia)). simpl.
    eexists. split; [reflexivity|]. split; [|done].
    pose proof (count_small q l Hh). apply holds_push; [done|done|lia|]. rewrite u32_id; lia.
  - rewrite bool_decide_eq_false_2 by lia. by exists q.
Qed.

(** Freeing or reusing the top slot and moving the start. *)
Lemma holds_next q l l' slots v q' :
  holds q l -> q_items q = Some slots -> 0 < q_cap q ->
  q_cap q' = q_cap q -> q_start q' = (q_start q + 1) mod q_cap q ->
  q_count q' = Z.of_nat (length l') -> q_count q' <= q_cap q ->
  q_items q' = Some (<[pos q 0 := v]> slots) ->
  (forall i, Z.of_nat (S i) < q_cap q -> l' !! i = l !! S i) ->
  (forall i, Z.of_nat (S i) = q_cap q -> l' !! i = v) -> holds q' l'.
Proof.
  intros Hh Hq Hpos Hc Hs Hn Hle Hi Hshift Hlast.
  pose proof Hh as [Hcap Hst _ (s' & Hs' & Hlen & Hsl)]. rewrite Hq in Hs'. injection Hs' as <-.
  destruct (next_start q l Hh Hpos) as [_ Hb].
  constructor; [by rewrite Hc|rewrite Hc, Hs; lia|rewrite Hc; lia|].
  eexists. split; [exact Hi|]. rewrite length_insert, Hc. split; [done|]. intros i Hi'.
  rewrite (pos_next q q') by done. destruct (decide (Z.of_nat (S i) = q_cap q)) as [E|E].
  - rewrite (pos_wrap q (S i)), (slots_insert q l slots 0 v), decide_True by (done || lia).
    by rewrite Hlast.
  - rewrite (slots_insert q l slots 0 v), decide_False by (done || lia). by rewrite Hshift by lia.
Qed.

Lemma elim_push_spec q l x : holds q l -> 0 < q_cap q ->
  exists q', elim_push q x = Ok q'
    /\ after q q' (if bool_decide (Z.of_nat (length l) < q_cap q) then l ++ [x] else drop 1 l ++ [x]).
Proof.
  intros Hh Hpos. pose proof Hh as [Hcap Hst Hn (slots & Hq & Hlen & Hs)].
  unfold elim_push. destruct (Z.ltb_spec (q_count q) (q_cap q)).
  - rewrite bool_decide_eq_true_2 by lia. rewrite (proj1 Hn), (q_mod_pos q l) by (done || lia). simpl.
    rewrite (construct_ok _ slots) by (done || (pose proof (pos_lt q (length l)); lia)). simpl.
    eexists. split; [reflexivity|]. split; [|done]. unfold set_count. simpl.
    pose proof (count_small q l Hh). apply holds_push; [done|done|lia|]. rewrite u32_id; lia.
  - rewrite bool_decide_eq_false_2 by lia. destruct l as [|y l]; [simpl in Hn; lia|].
    pose proof (Hs 0%nat ltac:(lia)) as H0. rewrite <- (pos_zero q _ Hh Hpos).
    rewrite (assign_ok q slots _ y) by done. simpl. rewrite (proj1 (next_start q _ Hh Hpos)). simpl.
    eexists. split; [reflexivity|]. split; [|done]. destruct (next_start q _ Hh Hpos) as [_ Hb].
    unfold max_safe_capacity in Hcap. simpl in Hn.
    eapply (holds_next q (y :: l) _ slots (Some x)); try done; simpl; rewrite ?drop_0.
    + apply u32_id. lia.
    + rewrite length_app. simpl. lia.
    + lia.
    + intros i Hi. apply lookup_app_l. lia.
    + intros i Hi. rewrite lookup_app_r by lia. by replace (i - length l)%nat with 0%nat by lia.
Qed.

(** Moving the start back: the last position becomes the first. *)
Lemma step_back_spec q l : holds q l -> 0 < q_cap q ->
  u32 (step_back q) = (q_start q - 1) mod q_cap q /\ 0 <= (q_start q - 1) mod q_cap q < q_cap q.
Proof.
  intros [Hcap Hst _ _] Hc. unfold max_safe_capacity in Hcap. split; [|apply Z.mod_pos_bound; lia].
  unfold step_back. destruct (Z.eqb_spec (q_start q) 0) as [E|E].
  - rewrite E, u32_id by lia. apply (Z.mod_unique_pos _ _ (-1)); lia.
  - rewrite u32_id by lia. by rewrite Z.mod_small by lia.
Qed.

Lemma pos_prev q q' i :
  q_cap q' = q_cap q -> q_start q' = (q_start q - 1) mod q_cap q -> pos q' (S i) = pos q i.
Proof.
  intros Hc Hs. unfold pos. rewrite Hc, Hs, Zplus_mod_idemp_l. do 2 f_equal. lia.
Qed.

Lemma holds_push_top q l slots x q' :
  holds q l -> q_items q = Some slots -> Z.of_nat (length l) < q_cap q ->
  q_cap q' = q_cap q -> q_start q' = (q_start q - 1) mod q_cap q ->
  q_count q' = Z.of_nat (length l) + 1 -> q_items q' = Some (<[pos q' 0 := Some x]> slots) ->
  holds q' (x :: l).
Proof.
  intros Hh Hq Hlt Hc Hs Hn Hi. pose proof Hh as [Hcap Hst Hcount (s' & Hs' & Hlen & Hsl)].
  rewrite Hq in Hs'. injection Hs' as <-. destruct (step_back_spec q l Hh ltac:(lia)) as [_ Hb].
  constructor; [by rewrite Hc|rewrite Hc, Hs; lia|rewrite Hc; simpl; lia|].
  eexists. split; [exact Hi|]. rewrite length_insert, Hc. split; [done|]. intros [|i] Hi'.
  - apply list_lookup_insert_eq. pose proof (pos_lt q' 0). rewrite Hc in *. lia.
  - rewrite list_lookup_insert_ne.
    + rewrite (pos_prev q q') by done. simpl. apply Hsl. lia.
    + intros HE. apply (pos_inj q') in HE; [done|rewrite Hc; lia|rewrite Hc; lia].
Qed.

Lemma pos_start q : 0 <= q_start q < q_cap q -> Z.of_nat (pos q 0) = q_start q.
Proof. intros H. unfold pos. rewrite Z.add_0_r, Z.mod_small by lia. lia. Qed.

(** Both forms of [push_top] construct at the new start. *)
Lemma construct_top q l slots x : holds q l -> q_items q = Some slots -> Z.of_nat (length l) < q_cap q ->
  let q1 := set_count (set_start q (step_back q)) (q_count (set_start q (step_back q)) + 1) in
  exists q', construct q1 (q_start q1) x = Ok q' /\ after q q' (x :: l).
Proof.
  intros Hh Hq Hlt q1. pose proof Hh as [Hcap Hst Hn (s' & Hs' & Hlen & Hs)].
  rewrite Hq in Hs'. injection Hs' as <-. destruct (step_back_spec q l Hh ltac:(lia)) as [HE Hb].
  assert (Hs1 : q_start q1 = (q_start q - 1) mod q_cap q) by exact HE.
  rewrite <- (pos_start q1) by (rewrite Hs1; exact Hb).
  rewrite (construct_ok q1 slots);
    [|exact Hq|pose proof (pos_lt q1 0); change (q_cap q1) with (q_cap q) in *; lia].
  eexists. split; [reflexivity|]. split; [|done]. pose proof (count_small q l Hh).
  apply (holds_push_top q l slots x); simpl; try done. rewrite u32_id; lia.
Qed.

Lemma push_top_spec q l x : holds q l ->
  exists q', push_top q x = Ok (bool_decide (Z.of_nat (length l) < q_cap q), q')
    /\ after q q' (if bool_decide (Z.of_nat (length l) < q_cap q) then x :: l else l).
Proof.
  intros Hh. pose proof Hh as [Hcap Hst Hn (slots & Hq & Hlen & Hs)].
  unfold push_top. destruct (Z.ltb_spec (q_count q) (q_cap q)).
  - rewrite bool_decide_eq_true_2 by lia.
    destruct (construct_top q l slots x Hh Hq ltac:(lia)) as (q' & -> & Ha). by exists q'.
  - rewrite bool_decide_eq_false_2 by lia. by exists q.
Qed.

Lemma push_top_default_spec dflt q l : holds q l ->
  exists p q', push_top_default dflt q = Ok (p, q')
    /\ (p = if bool_decide (Z.of_nat (length l) < q_cap q) then Some (q_start q') else None)
    /\ after q q' (if bool_decide (Z.of_nat (length l) < q_cap q) then dflt :: l else l).
Proof.
  intros Hh. pose proof Hh as [Hcap Hst Hn (slots & Hq & Hlen & Hs)].
  unfold push_top_default. destruct (Z.ltb_spec (q_count q) (q_cap q)).
  - rewrite bool_decide_eq_true_2 by lia.
    destruct (construct_top q l slots dflt Hh Hq ltac:(lia)) as (q' & HE & Ha). rewrite HE. simpl.
    eexists _, q'. split; [reflexivity|]. split; [|done]. revert HE. unfold construct.
    destruct (store _ _ _); simpl; [|done..]. by intros [= <-].
  - rewrite bool_decide_eq_false_2 by lia. by eexists _, q.
Qed.

(** Both forms of [pop]. *)
Lemma pop_item_spec q l d : holds q l ->
  exists q', pop_item q d = Ok (match l with x :: _ => (true, x, q') | [] => (false, d, q') end)
    /\ pop q = Ok (match l with _ :: _ => true | [] => false end, q') /\ after q q' (drop 1 l).
Proof.
  intros Hh. pose proof Hh as [Hcap Hst Hn (slots & Hq & Hlen & Hs)].
  unfold pop_item, pop. destruct l as [|x l]; simpl in Hn.
  - destruct (Z.eqb_spec (q_count q) 0); [|lia]. by exists q.
  - destruct (Z.eqb_spec (q_count q) 0); [lia|]. cbn [negb].
    pose proof (nonempty_cap q x l Hh) as Hpos. pose proof (Hs 0%nat ltac:(lia)) as H0.
    set (q1 := set_count q (q_count q - 1)). change (q_start q1) with (q_start q).
    rewrite <- (pos_zero q _ Hh Hpos).
    rewrite (load_ok q1 slots _ x), (destroy_ok q1 slots _ x) by done. simpl.
    rewrite (proj1 (next_start q _ Hh Hpos)). simpl. eexists. split; [reflexivity|].
    split; [reflexivity|]. split; [|done]. destruct (next_start q _ Hh Hpos) as [_ Hb].
    unfold max_safe_capacity in Hcap.
    eapply (holds_next q (x :: l) _ slots None); try done; simpl; rewrite ?drop_0.
    + apply u32_id. lia.
    + rewrite u32_id; lia.
    + rewrite u32_id; lia.
    + intros i Hi. apply lookup_ge_None_2. lia.
Qed.

Lemma pop_bottom_item_spec q l d : holds q l ->
  exists q', pop_bottom_item q d
      = Ok (match last l with Some x => (true, x, q') | None => (false, d, q') end)
    /\ pop_bottom q = Ok (match l with _ :: _ => true | [] => false end, q')
    /\ after q q' (take (length l - 1) l).
Proof.
  intros Hh. pose proof Hh as [Hcap Hst Hn (slots & Hq & Hlen & Hs)].
  unfold pop_bottom_item, pop_bottom. destruct (decide (l = [])) as [->|Hne].
  - simpl in Hn. destruct (Z.eqb_spec (q_count q) 0); [|lia]. by exists q.
  - assert (0 < length l)%nat by (destruct l; simpl; [done|lia]).
    destruct (Z.eqb_spec (q_count q) 0); [lia|]. cbn [negb].
    set (k := (length l - 1)%nat). destruct (lookup_lt_is_Some_2 l k) as [x Hx]; [lia|].
    rewrite last_lookup. replace (pred (length l)) with k by lia. rewrite Hx.
    set (q1 := set_count q (q_count q - 1)).
    assert (Hk : q_count q1 = Z.of_nat k).
    { unfold q1, set_count. simpl. unfold max_safe_capacity in *. rewrite u32_id; lia. }
    rewrite Hk. change (q_start q1) with (q_start q). change (q_cap q1) with (q_cap q).
    rewrite (q_mod_pos q l) by (done || lia). simpl.
    pose proof (Hs k ltac:(lia)) as Hsk. rewrite Hx in Hsk.
    rewrite (load_ok q1 slots _ x), (destroy_ok q1 slots _ x) by done. simpl.
    eexists. split; [reflexivity|]. split; [by destruct l|]. split; [|done].
    constructor; simpl; [done|done|rewrite length_take; change (u32 (q_count q - 1)) with (q_count q1); lia|].
    eexists. split; [reflexivity|]. rewrite length_insert. split; [done|]. intros i Hi.
    etrans; [apply (slots_insert q l slots k None); [done|lia|done|exact Hi]|]. f_equal. case_decide.
    + subst i. by rewrite lookup_take_ge by lia.
    + destruct (decide (i < k)%nat); [by rewrite lookup_take_lt|].
      rewrite lookup_take_ge by lia. apply lookup_ge_None_2. lia.
Qed.

(** [clear] after [k] rounds. *)
Definition cleared q (slots : list (option T)) l (k : Z) (q' : BoundedQueue T) : Prop :=
  exists slots', q' = mkQueue (q_count q) (q_cap q) (q_start q) (q_ownership q) (Some slots')
    /\ length slots' = length slots
    /\ forall i, Z.of_nat i < q_cap q ->
         slots' !! pos q i = Some (if decide (Z.of_nat i < k) then None else l !! i).

Lemma clear_round q l slots j q' :
  holds q l -> q_items q = Some slots -> 0 <= j < q_count q -> cleared q slots l j q' ->
  (i ← q_mod (u32 (q_start q' + j)) (q_cap q'); destroy q' i) ⇓ cleared q slots l (j + 1).
Proof.
  intros Hh Hq Hj (slots' & -> & Hlen & Hs). pose proof Hh as [Hcap Hst Hn (s' & Hs' & Hl & _)].
  rewrite Hq in Hs'. injection Hs' as <-. cbn [q_start q_cap].
  replace j with (Z.of_nat (Z.to_nat j)) by lia. set (k := Z.to_nat j) in *.
  rewrite (q_mod_pos q l) by (done || lia). cbn [mbind outcome_bind].
  destruct (lookup_lt_is_Some_2 l k) as [x Hx]; [lia|].
  rewrite (destroy_ok _ slots' _ x);
    [|done|rewrite Hs by lia; rewrite decide_False by lia; by rewrite Hx].
  simpl. eexists. split; [reflexivity|]. rewrite length_insert. split; [done|]. intros i Hi.
  destruct (decide (i = k)) as [->|Hne].
  - rewrite decide_True by lia. apply list_lookup_insert_eq. pose proof (pos_lt q k ltac:(lia)). lia.
  - rewrite list_lookup_insert_ne by (intros HE; apply Hne; symmetry; by apply (pos_inj q); [lia|..]).
    rewrite Hs by done. f_equal. destruct (decide (Z.of_nat i < Z.of_nat k + 1)).
    + by rewrite decide_True by lia.
    + by rewrite decide_False by lia.
Qed.

Lemma clear_spec q l : holds q l -> exists q', clear q = Ok q' /\ after q q' [].
Proof.
  intros Hh. pose proof Hh as [Hcap Hst Hn (slots & Hq & Hlen & Hs)].
  apply returns_ok. unfold clear. step.
  apply (for_inv (cleared q slots l)); [lia|..].
  - exists slots. split; [by destruct q; simpl in *; subst|]. split; [done|]. intros i Hi.
    rewrite decide_False by lia. by apply Hs.
  - intros j q' Hj Hc. by apply clear_round.
  - intros q' (slots' & -> & Hl & Hs'). simpl. split; [|done].
    unfold set_start, set_count. simpl. change (u32 0) with 0.
    constructor; simpl; [done|lia|lia|]. exists slots'. split; [done|]. split; [lia|].
    intros i Hi. set (q0 := mkQueue _ _ _ _ _).
    destruct (pos_surj q (pos q0 i)) as (j & Hj & HE); [by apply (pos_lt q0); simpl; lia|].
    rewrite <- HE, Hs' by done. f_equal. case_decide; [done|]. rewrite lookup_ge_None_2; [done|lia].
Qed.

Lemma destructor_spec q l : holds q l ->
  exists q', destructor q = Ok q'
    /\ match q_ownership q with
       | OWNS_STORAGE => q_items q' = None
       | NOT_OWN_STORAGE => after q q' []
       end.
Proof.
  intros Hh. destruct (clear_spec q l Hh) as (q' & HE & Ha & Hc & Ho). unfold destructor. rewrite HE. simpl.
  eexists. split; [reflexivity|]. rewrite Ho. destruct (q_ownership q) eqn:E; [done|].
  split; [done|]. split; [done|]. congruence.
Qed.

(** ** Addresses *)

Definition points q (p : option Z) (o : option T) : Prop :=
  match p, o with
  | Some a, Some x => load q a = Ok x
  | None, None => True
  | _, _ => False
  end.

Lemma points_pos q l i : holds q l -> (i < length l)%nat -> points q (Some (Z.of_nat (pos q i))) (l !! i).
Proof.
  intros [Hcap Hst Hn (slots & Hq & Hlen & Hs)] Hi. destruct (lookup_lt_is_Some_2 l i Hi) as [x Hx].
  rewrite Hx. apply (load_ok q slots); [done|]. rewrite Hs by lia. by rewrite Hx.
Qed.

Lemma top_spec q l : holds q l -> points q (top q) (l !! 0%nat).
Proof.
  intros Hh. pose proof Hh as [Hcap Hst Hn _]. unfold top. destruct (Z.eqb_spec (q_count q) 0); cbn [negb].
  - by rewrite lookup_ge_None_2 by lia.
  - rewrite <- (pos_zero q l) by (done || lia). apply points_pos; [done|lia].
Qed.

Lemma top_at_spec q l i : holds q l -> top_at q (Z.of_nat i) ⇓ (fun p => points q p (l !! i)).
Proof.
  intros Hh. pose proof Hh as [Hcap Hst Hn _]. unfold max_safe_capacity in Hcap. unfold top_at.
  destruct (Z.ltb_spec (Z.of_nat i) (q_count q)).
  - rewrite u64_id by lia. rewrite (q_mod_pos q l) by (done || lia). apply points_pos; [done|lia].
  - simpl. by rewrite lookup_ge_None_2 by lia.
Qed.

Lemma bottom_pos q l i : holds q l -> (i < length l)%nat ->
  q_mod (u32 (u64 (u64 (u32 (q_start q + q_count q) - Z.of_nat i) - 1))) (q_cap q)
  = Ok (Z.of_nat (pos q (length l - S i))).
Proof.
  intros Hh Hi. pose proof Hh as [Hcap Hst Hn _]. unfold max_safe_capacity in Hcap.
  rewrite (u32_id (_ + _)), (u64_id (_ - Z.of_nat i)), u64_id by lia.
  rewrite <- (q_mod_pos q l) by (done || lia). do 2 f_equal. lia.
Qed.

Lemma bottom_at_spec q l i :
  holds q l -> bottom_at q (Z.of_nat i) ⇓ (fun p => points q p (reverse l !! i)).
Proof.
  intros Hh. pose proof Hh as [Hcap Hst Hn _]. unfold bottom_at.
  destruct (Z.ltb_spec (Z.of_nat i) (q_count q)).
  - rewrite (bottom_pos q l) by (done || lia). rewrite reverse_lookup by lia. apply points_pos; [done|lia].
  - simpl. by rewrite lookup_ge_None_2 by (rewrite length_reverse; lia).
Qed.

Lemma bottom_spec q l : holds q l -> bottom q ⇓ (fun p => points q p (last l)).
Proof.
  intros Hh. pose proof Hh as [Hcap Hst Hn _]. unfold max_safe_capacity in Hcap. unfold bottom.
  rewrite last_lookup. destruct (Z.eqb_spec (q_count q) 0); cbn [negb].
  - simpl. by rewrite lookup_ge_None_2 by lia.
  - rewrite (u32_id (_ + _)) by lia.
    replace (q_start q + q_count q - 1) with (q_start q + Z.of_nat (pred (length l))) by lia.
    rewrite (q_mod_pos q l) by (done || lia). apply points_pos; [done|lia].
Qed.

(** ** Construction *)

Lemma new_holds n (slots : list (option T)) ownership :
  0 <= n <= max_safe_capacity -> n <= Z.of_nat (length slots) ->
  (forall i, (i < length slots)%nat -> slots !! i = Some None) ->
  holds (mkQueue 0 n 0 ownership (Some slots)) [].
Proof.
  intros Hn Hlen Hs. constructor; simpl; [done|lia|lia|]. exists slots. split; [done|]. split; [done|].
  intros i Hi. apply Hs. pose proof (pos_lt (mkQueue 0 n 0 ownership (Some slots)) i) as Hp.
  simpl in Hp. lia.
Qed.

Lemma BoundedQueue_cap_holds sz n : 0 < sz -> 0 <= n <= max_safe_capacity -> n * sz < 2 ^ 64 ->
  holds (T:=T) (BoundedQueue_cap sz true n) [].
Proof.
  intros Hsz Hn Hm. unfold BoundedQueue_cap. rewrite u32_id by (unfold max_safe_capacity in Hn; lia).
  rewrite u64_id by nia. rewrite Z.div_mul by lia.
  apply new_holds; [done|rewrite length_replicate; lia|].
  intros i Hi. rewrite length_replicate in Hi. by apply lookup_replicate_2.
Qed.

Lemma BoundedQueue_mem_holds sz memsize ownership : 0 < sz -> 0 <= memsize ->
  memsize / sz <= max_safe_capacity ->
  holds (T:=T) (BoundedQueue_mem sz (Some (replicate (Z.to_nat (memsize / sz)) None)) memsize ownership) [].
Proof.
  intros Hsz Hn Hm. pose proof (Z.div_pos memsize sz Hn Hsz). unfold BoundedQueue_mem.
  rewrite u32_id by (unfold max_safe_capacity in Hm; lia).
  apply new_holds; [lia|rewrite length_replicate; lia|].
  intros i Hi. rewrite length_replicate in Hi. by apply lookup_replicate_2.
Qed.
End QueueFacts.

(** ** Refinement of a bounded deque *)

Inductive qop (T : Type) : Type :=
| QPush (x : T)
| QElimPush (x : T)
| QPushTop (x : T)
| QPop
| QPopBottom
| QClear.
Arguments QPush {T}.
Arguments QElimPush {T}.
Arguments QPushTop {T}.
Arguments QPop {T}.
Arguments QPopBottom {T}.
Arguments QClear {T}.

Section Refinement.
Context {T : Type} (d : T).

(** One call: what it returns and the item it hands out. *)
Definition qexec (q : BoundedQueue T) (o : qop T) : outcome ((bool * option T) * BoundedQueue T) :=
  match o with
  | QPush x => '(b, q) ← push q x; Ok ((b, None), q)
  | QElimPush x => q ← elim_push q x; Ok ((true, None), q)
  | QPushTop x => '(b, q) ← push_top q x; Ok ((b, None), q)
  | QPop => '(b, x, q) ← pop_item q d; Ok ((b, if b : bool then Some x else None), q)
  | QPopBottom => '(b, x, q) ← pop_bottom_item q d; Ok ((b, if b : bool then Some x else None), q)
  | QClear => q ← clear q; Ok ((true, None), q)
  end.

Fixpoint qrun (q : BoundedQueue T) (os : list (qop T)) : outcome (list (bool * option T) * BoundedQueue T) :=
  match os with
  | [] => Ok ([], q)
  | o :: os => '(r, q) ← qexec q o; '(rs, q) ← qrun q os; Ok (r :: rs, q)
  end.

(** The specification: a list that never grows past the capacity. *)
Definition dspec (cap : Z) (l : list T) (o : qop T) : (bool * option T) * list T :=
  let room := bool_decide (Z.of_nat (length l) < cap) in
  match o with
  | QPush x => ((room, None), if room then l ++ [x] else l)
  | QElimPush x => ((true, None), if room then l ++ [x] else drop 1 l ++ [x])
  | QPushTop x => ((room, None), if room then x :: l else l)
  | QPop => ((bool_decide (l <> []), head l), drop 1 l)
  | QPopBottom => ((bool_decide (l <> []), last l), take (length l - 1) l)
  | QClear => ((true, None), [])
  end.

Fixpoint drun (cap : Z) (l : list T) (os : list (qop T)) : list (bool * option T) * list T :=
  match os with
  | [] => ([], l)
  | o :: os => let '(r, l) := dspec cap l o in let '(rs, l) := drun cap l os in (r :: rs, l)
  end.

Lemma qexec_spec q l o : holds q l -> 0 < q_cap q ->
  exists q', qexec q o = Ok (fst (dspec (q_cap q) l o), q') /\ after q q' (snd (dspec (q_cap q) l o)).
Proof.
  intros Hh Hc. destruct o; simpl.
  - destruct (push_spec q l x Hh) as (q' & -> & Ha). by exists q'.
  - destruct (elim_push_spec q l x Hh Hc) as (q' & -> & Ha). by exists q'.
  - destruct (push_top_spec q l x Hh) as (q' & -> & Ha). by exists q'.
  - destruct (pop_item_spec q l d Hh) as (q' & -> & _ & Ha). exists q'. by destruct l.
  - destruct (pop_bottom_item_spec q l d Hh) as (q' & -> & _ & Ha). exists q'. split; [|done].
    destruct (decide (l = [])) as [->|Hne]; [done|]. rewrite bool_decide_eq_true_2 by done.
    destruct (last l) eqn:E; [done|]. by apply last_None in E.
  - destruct (clear_spec q l Hh) as (q' & -> & Ha). by exists q'.
Qed.

Lemma qrun_spec os : forall q l, holds q l -> 0 < q_cap q ->
  exists q', qrun q os = Ok (fst (drun (q_cap q) l os), q') /\ after q q' (snd (drun (q_cap q) l os)).
Proof.
  induction os as [|o os IH]; intros q l Hh Hc; [by exists q|]. simpl.
  destruct (qexec_spec q l o Hh Hc) as (q1 & -> & Ha & Hcap & Ho).
  destruct (dspec (q_cap q) l o) as [r l1]. simpl in *.
  destruct (IH q1 l1 Ha) as (q2 & -> & Ha2 & Hcap2 & Ho2); [by rewrite Hcap|]. rewrite Hcap in *.
  destruct (drun (q_cap q) l1 os) as [rs l2]. simpl in *. exists q2. split; [done|].
  split; [done|]. split; congruence.
Qed.
End Refinement.

(** A queue past the safe capacity: the offset of a push wraps and lands on an
    item that is still in the queue. *)
Lemma wrapped_offset cap start count :
  0 <= start < cap -> 0 <= count < cap -> cap < 2 ^ 32 -> 2 ^ 32 <= start + count ->
  exists i, 0 <= i < count /\ q_mod (u32 (start + count)) cap = Ok ((start + i) mod cap).
Proof.
  intros Hs Hn Hc Hw. exists (count + cap - 2 ^ 32). split; [lia|].
  assert (u32 (start + count) = start + count - 2 ^ 32) as ->.
  { unfold u32. symmetry. apply (Z.mod_unique_pos _ (2 ^ 32) 1); lia. }
  rewrite q_mod_spec by lia. f_equal.
  rewrite <- (Z_mod_plus_full (start + count - 2 ^ 32) 1 cap). f_equal. lia.
Qed.

(** ** Main statements *)

(** C10. Any sequence of pushes, pops and clears on a queue of positive capacity
    up to [2 ^ 31] runs without touching memory outside the block or a slot
    without an object, and returns exactly what the same calls return on a
    list of at most that many items. *)
Theorem queue_refines_deque {T : Type} (d : T) q l os :
  holds q l -> 0 < q_cap q ->
  exists q', qrun d q os = Ok (fst (drun (q_cap q) l os), q') /\ holds q' (snd (drun (q_cap q) l os)).
Proof.
  intros Hh Hc. destruct (qrun_spec d os q l Hh Hc) as (q' & HE & Ha & _). by exists q'.
Qed.

Lemma queue_refines_deque_witness :
  exists q', qrun 0 (BoundedQueue_cap 4 true 2)
      [QPush 1; QPush 2; QPush 3; QElimPush 4; QPushTop 5; QPop; QPopBottom; QPop]
    = Ok ([(true, None); (true, None); (false, None); (true, None); (false, None);
           (true, Some 2); (true, Some 4); (false, None)], q') /\ holds q' [].
Proof.
  apply (queue_refines_deque 0 (BoundedQueue_cap 4 true 2) []
    [QPush 1; QPush 2; QPush 3; QElimPush 4; QPushTop 5; QPop; QPopBottom; QPop]); [|reflexivity].
  apply BoundedQueue_cap_holds; [reflexivity|split; vm_compute; discriminate|reflexivity].
Defined.

(** The addresses handed out: [top(i)] points to the [i]-th item from the
    top, [bottom(i)] to the [i]-th from the bottom, [top()] and [bottom()] to
    the first and the last; each is null exactly when there is no such item. *)
Theorem queue_addresses {T : Type} (q : BoundedQueue T) l i :
  holds q l ->
  points q (top q) (l !! 0%nat) /\ (bottom q ⇓ fun p => points q p (last l))
  /\ (top_at q (Z.of_nat i) ⇓ fun p => points q p (l !! i))
  /\ (bottom_at q (Z.of_nat i) ⇓ fun p => points q p (reverse l !! i)).
Proof.
  intros Hh. split; [by apply top_spec|]. split; [by apply bottom_spec|].
  split; [by apply top_at_spec|by apply bottom_at_spec].
Qed.

Lemma queue_addresses_witness :
  points (mkQueue 1 3 2 OWNS_STORAGE (Some [None; None; Some 7])) (Some 2) (Some 7).
Proof.
  apply (queue_addresses (mkQueue 1 3 2 OWNS_STORAGE (Some [None; None; Some 7])) [7] 0).
  constructor; [split; vm_compute; discriminate|simpl; lia|simpl; lia|].
  eexists. split; [reflexivity|]. split; [vm_compute; discriminate|].
  intros [|[|[|i]]] Hi; [reflexivity..|simpl in Hi; lia].
Defined.

(** A capacity above [2 ^ 31], which [max_capacity()] allows, breaks the
    queue: once [_start + _count] reaches [2 ^ 32] the slot a push writes is
    that of an item still queued, not the free one. *)
Theorem queue_overwrites cap start count :
  0 <= start < cap -> 0 <= count < cap -> cap <= max_capacity -> 2 ^ 32 <= start + count ->
  exists i, 0 <= i < count /\ q_mod (u32 (start + count)) cap = Ok ((start + i) mod cap)
    /\ (start + i) mod cap <> (start + count) mod cap.
Proof.
  intros Hs Hn Hc Hw. change max_capacity with (2 ^ 32 - 1) in Hc.
  destruct (wrapped_offset cap start count Hs Hn ltac:(lia) Hw) as (i & Hi & HE).
  exists i. split; [done|]. split; [done|]. intros Heq. apply mod_inj in Heq; lia.
Qed.

Lemma queue_overwrites_witness :
  exists i, 0 <= i < 2 ^ 31 /\ q_mod (u32 (2 ^ 31 + 2 ^ 31)) (2 ^ 31 + 1) = Ok ((2 ^ 31 + i) mod (2 ^ 31 + 1))
    /\ (2 ^ 31 + i) mod (2 ^ 31 + 1) <> (2 ^ 31 + 2 ^ 31) mod (2 ^ 31 + 1).
Proof.
  apply (queue_overwrites (2 ^ 31 + 1) (2 ^ 31) (2 ^ 31)); [split; vm_compute; (discriminate || reflexivity)
    |split; vm_compute; (discriminate || reflexivity)|vm_compute; discriminate|vm_compute; discriminate].
Defined.
