(* ===== verification/BitArray.v ===== *)
(** * Bit arrays (libsh/butil/bit_array.h)

    An array is a list of 64-bit words; [size_t] arithmetic wraps at 64 bits.
    Bit [i] is bit [i mod 64] of word [i / 64]. *)

From Stdlib Require Import ZArith Lia.
From stdpp Require Import base list.
From S2P Require Import Prelude Numerics.

Open Scope Z_scope.

Definition w64 (z : Z) : Z := cast uint64 z.

Definition BIT_ARRAY_LEN (nbit : Z) : Z := w64 (w64 (nbit + 63) / 64 * 8).

(** The number of bytes asked of [malloc]; no block for no bits. *)
Definition bit_array_malloc (nbit : Z) : option Z :=
  if nbit =? 0 then None else Some (BIT_ARRAY_LEN nbit).

Definition word_set (a : list Z) (i : Z) (v : Z) : outcome (list Z) :=
  _ ← vec_at a i; Ok (<[Z.to_nat i := v]> a).

(** [memset(array, 0, n * 8)]. *)
Definition zero_words (a : list Z) (n : Z) : outcome (list Z) :=
  if n <=? vec_size a then Ok (replicate (Z.to_nat n) 0 ++ drop (Z.to_nat n) a) else Fault OutOfRange.

Definition bit_array_clear (array : list Z) (nbit : Z) : outcome (list Z) :=
  let off := Z.shiftr nbit 6 in
  array ← zero_words array off;
  let last := w64 (Z.shiftl off 6) in
  if negb (last =? nbit) then
    w ← vec_at array off;
    word_set array off (Z.land w (w64 (Z.lnot (w64 (w64 (Z.shiftl 1 (nbit - last)) - 1)))))
  else Ok array.

Definition bit_array_set (array : list Z) (i : Z) : outcome (list Z) :=
  let off := Z.shiftr i 6 in
  w ← vec_at array off;
  word_set array off (Z.lor w (w64 (Z.shiftl 1 (w64 (i - w64 (Z.shiftl off 6)))))).

Definition bit_array_unset (array : list Z) (i : Z) : outcome (list Z) :=
  let off := Z.shiftr i 6 in
  w ← vec_at array off;
  word_set array off (Z.land w (w64 (Z.lnot (w64 (Z.shiftl 1 (w64 (i - w64 (Z.shiftl off 6)))))))).

Definition bit_array_get (array : list Z) (i : Z) : outcome Z :=
  let off := Z.shiftr i 6 in
  w ← vec_at array off;
  Ok (Z.land w (w64 (Z.shiftl 1 (w64 (i - w64 (Z.shiftl off 6)))))).

(** [__builtin_ctzl] of a nonzero word: its lowest set bit. *)
Fixpoint ctz_from (fuel : nat) (v i : Z) : Z :=
  match fuel with
  | O => i
  | S fuel => if Z.testbit v i then i else ctz_from fuel v (i + 1)
  end.

Definition ctzl (v : Z) : Z := ctz_from 64 v 0.

(** The loop over whole words; the argument counts the words left. *)
Fixpoint first1_loop (array : list Z) (n : nat) (i : Z) : outcome (option Z) :=
  match n with
  | O => Ok None
  | S n =>
      w ← vec_at array i;
      if negb (w =? 0) then Ok (Some (w64 (i * 64 + ctzl w))) else first1_loop array n (i + 1)
  end.

Definition first1_tail (array : list Z) (off1 end_ : Z) : outcome Z :=
  let off2 := Z.shiftr end_ 6 in
  r ← first1_loop array (Z.to_nat (off2 - off1)) off1;
  match r with
  | Some p => Ok p
  | None =>
      let last := w64 (Z.shiftl off2 6) in
      if negb (last =? end_) then
        w ← vec_at array off2;
        if negb (w =? 0) then Ok (Z.min (w64 (last + ctzl w)) end_) else Ok end_
      else Ok end_
  end.

Definition bit_array_first1 (array : list Z) (begin end_ : Z) : outcome Z :=
  let off1 := Z.shiftr begin 6 in
  let first := w64 (Z.shiftl off1 6) in
  if negb (first =? begin) then
    w ← vec_at array off1;
    let v := Z.land w (w64 (Z.lnot (w64 (w64 (Z.shiftl 1 (w64 (begin - first))) - 1)))) in
    if negb (v =? 0) then Ok (Z.min (w64 (first + ctzl v)) end_)
    else first1_tail array (off1 + 1) end_
  else first1_tail array off1 end_.

(** * Properties *)

Definition words_ok (a : list Z) : Prop := forall k w, a !! k = Some w -> 0 <= w < 2 ^ 64.

(** Bit [i] of the array, false past its end. *)
Definition bit (a : list Z) (i : Z) : bool :=
  match a !! Z.to_nat (i / 64) with
  | Some w => Z.testbit w (i mod 64)
  | None => false
  end.

Definition nbits (a : list Z) : Z := 64 * vec_size a.

Lemma w64_id z : 0 <= z < 2 ^ 64 -> w64 z = z.
Proof. intros H. apply Z.mod_small. exact H. Qed.

(** The offsets of bit [i]. *)
Lemma offsets i : 0 <= i < 2 ^ 64 ->
  Z.shiftr i 6 = i / 64 /\ w64 (Z.shiftl (Z.shiftr i 6) 6) = 64 * (i / 64)
  /\ w64 (i - w64 (Z.shiftl (Z.shiftr i 6) 6)) = i mod 64.
Proof.
  intros Hi. pose proof (Z.div_mod i 64 ltac:(lia)). pose proof (Z.mod_pos_bound i 64 ltac:(lia)).
  rewrite Z.shiftr_div_pow2, Z.shiftl_mul_pow2 by lia. change (2 ^ 6) with 64.
  rewrite (w64_id (i / 64 * 64)) by lia. split; [done|]. split; [lia|]. rewrite w64_id by lia. lia.
Qed.

(** The one-bit mask and its complement. *)
Lemma mask_bits k j : 0 <= k < 64 -> 0 <= j < 64 ->
  Z.testbit (w64 (Z.shiftl 1 k)) j = bool_decide (j = k)
  /\ Z.testbit (w64 (Z.lnot (w64 (Z.shiftl 1 k)))) j = negb (bool_decide (j = k)).
Proof.
  intros Hk Hj. assert (w64 (Z.shiftl 1 k) = 2 ^ k) as ->.
  { rewrite Z.shiftl_1_l. apply w64_id. pose proof (Z.pow_pos_nonneg 2 k).
    pose proof (Z.pow_lt_mono_r 2 k 64). lia. }
  unfold w64, cast. change (is_signed uint64) with false. cbv iota. change (bits uint64) with 64.
  rewrite Z.mod_pow2_bits_low, Z.lnot_spec, Z.pow2_bits_eqb by lia.
  destruct (Z.eqb_spec k j); case_bool_decide; done || lia.
Qed.

(** The complement of the mask of the [k] lowest bits. *)
Lemma high_mask k j : 0 <= k < 64 -> 0 <= j < 64 ->
  Z.testbit (w64 (Z.lnot (w64 (w64 (Z.shiftl 1 k) - 1)))) j = (k <=? j).
Proof.
  intros Hk Hj. pose proof (Z.pow_pos_nonneg 2 k). pose proof (Z.pow_lt_mono_r 2 k 64).
  rewrite Z.shiftl_1_l, (w64_id (2 ^ k)), (w64_id (2 ^ k - 1)) by lia.
  replace (2 ^ k - 1) with (Z.ones k) by (rewrite Z.ones_equiv; lia).
  unfold w64, cast. change (is_signed uint64) with false. cbv iota. change (bits uint64) with 64.
  rewrite Z.mod_pow2_bits_low, Z.lnot_spec, Z.testbit_ones_nonneg by lia.
  destruct (Z.ltb_spec j k), (Z.leb_spec k j); done || lia.
Qed.

Lemma word_at a i : 0 <= i < nbits a ->
  exists w, a !! Z.to_nat (i / 64) = Some w /\ vec_at a (i / 64) = Ok w.
Proof.
  intros Hi. apply vec_at_in_range. unfold nbits in Hi. split; [apply Z.div_pos; lia|].
  apply Z.div_lt_upper_bound; lia.
Qed.

Lemma word_set_ok a i w : 0 <= i < nbits a -> word_set a (i / 64) w = Ok (<[Z.to_nat (i / 64) := w]> a).
Proof. intros Hi. destruct (word_at a i Hi) as (v & _ & Hv). unfold word_set. by rewrite Hv. Qed.

Lemma land_ok x y : 0 <= x < 2 ^ 64 -> 0 <= y -> 0 <= Z.land x y < 2 ^ 64.
Proof.
  intros Hx Hy. split; [apply Z.land_nonneg; lia|]. destruct (decide (Z.land x y = 0)) as [->|]; [lia|].
  apply Z.log2_lt_cancel. rewrite Z.log2_pow2 by lia.
  pose proof (Z.log2_land x y ltac:(lia) Hy). destruct (decide (x = 0)) as [->|]; [done|].
  pose proof (Z.log2_lt_pow2 x 64). lia.
Qed.

Lemma lor_ok x y : 0 <= x < 2 ^ 64 -> 0 <= y < 2 ^ 64 -> 0 <= Z.lor x y < 2 ^ 64.
Proof.
  intros Hx Hy. split; [apply Z.lor_nonneg; lia|]. destruct (decide (Z.lor x y = 0)) as [->|]; [lia|].
  apply Z.log2_lt_cancel. rewrite Z.log2_pow2, Z.log2_lor by lia.
  destruct (decide (x = 0)) as [->|], (decide (y = 0)) as [->|]; simpl; try done.
  - pose proof (Z.log2_lt_pow2 y 64). pose proof (Z.log2_nonneg y). lia.
  - pose proof (Z.log2_lt_pow2 x 64). pose proof (Z.log2_nonneg x). lia.
  - pose proof (Z.log2_lt_pow2 y 64). pose proof (Z.log2_lt_pow2 x 64). lia.
Qed.

Lemma w64_range z : 0 <= w64 z < 2 ^ 64.
Proof. apply Z.mod_pos_bound. reflexivity. Qed.

Lemma words_insert a k w : words_ok a -> 0 <= w < 2 ^ 64 -> words_ok (<[k := w]> a).
Proof.
  intros Ha Hw j v Hj. apply list_lookup_insert_Some in Hj as [(_ & <- & _)|[_ Hj]]; [done|].
  by apply (Ha j).
Qed.

Lemma index_eq i j : i / 64 = j / 64 -> i mod 64 = j mod 64 -> i = j.
Proof.
  intros Hd Hm. rewrite (Z.div_mod i 64), (Z.div_mod j 64) by lia. congruence.
Qed.

(** A word replaced, seen through the bits. *)
Lemma bit_insert a i w j :
  0 <= i < nbits a -> 0 <= j ->
  bit (<[Z.to_nat (i / 64) := w]> a) j
  = if decide (j / 64 = i / 64) then Z.testbit w (j mod 64) else bit a j.
Proof.
  intros Hi Hj. destruct (word_at a i Hi) as (v & Hv & _). apply lookup_lt_Some in Hv.
  unfold bit. pose proof (Z.div_pos i 64). pose proof (Z.div_pos j 64). case_decide as E.
  - by rewrite E, list_lookup_insert_eq.
  - rewrite list_lookup_insert_ne; [done|]. intros HE. apply E. lia.
Qed.

Lemma bit_word a i w : a !! Z.to_nat (i / 64) = Some w -> bit a i = Z.testbit w (i mod 64).
Proof. unfold bit. by intros ->. Qed.

Lemma bit_array_set_spec a i :
  words_ok a -> 0 <= i < nbits a -> i < 2 ^ 64 ->
  bit_array_set a i ⇓ fun a' => length a' = length a /\ words_ok a'
    /\ forall j, 0 <= j -> bit a' j = bool_decide (j = i) || bit a j.
Proof.
  intros Ha Hi Hm. destruct (offsets i ltac:(lia)) as (Ho & Hl & Hb). unfold bit_array_set. rewrite Hb, Ho.
  destruct (word_at a i Hi) as (w & Hw & ->). simpl. rewrite word_set_ok by done. simpl.
  rewrite length_insert. split; [done|]. split.
  - apply words_insert; [done|]. apply lor_ok; [by apply (Ha _ _ Hw)|apply w64_range].
  - intros j Hj. rewrite bit_insert by done. pose proof (Z.mod_pos_bound i 64 ltac:(lia)).
    pose proof (Z.mod_pos_bound j 64 ltac:(lia)). case_decide as E.
    + rewrite Z.lor_spec, (proj1 (mask_bits (i mod 64) (j mod 64) ltac:(lia) ltac:(lia))).
      rewrite (bit_word a j w) by (by rewrite E). rewrite orb_comm. f_equal.
      apply bool_decide_ext. split; [by apply index_eq|by intros ->].
    + rewrite bool_decide_eq_false_2; [done|]. by intros ->.
Qed.

Lemma bit_array_unset_spec a i :
  words_ok a -> 0 <= i < nbits a -> i < 2 ^ 64 ->
  bit_array_unset a i ⇓ fun a' => length a' = length a /\ words_ok a'
    /\ forall j, 0 <= j -> bit a' j = negb (bool_decide (j = i)) && bit a j.
Proof.
  intros Ha Hi Hm. destruct (offsets i ltac:(lia)) as (Ho & Hl & Hb). unfold bit_array_unset. rewrite Hb, Ho.
  destruct (word_at a i Hi) as (w & Hw & ->). simpl. rewrite word_set_ok by done. simpl.
  rewrite length_insert. split; [done|]. split.
  - apply words_insert; [done|]. apply land_ok; [by apply (Ha _ _ Hw)|apply w64_range].
  - intros j Hj. rewrite bit_insert by done. pose proof (Z.mod_pos_bound i 64 ltac:(lia)).
    pose proof (Z.mod_pos_bound j 64 ltac:(lia)). case_decide as E.
    + rewrite Z.land_spec, (proj2 (mask_bits (i mod 64) (j mod 64) ltac:(lia) ltac:(lia))).
      rewrite (bit_word a j w) by (by rewrite E). rewrite andb_comm. do 2 f_equal.
      apply bool_decide_ext. split; [by apply index_eq|by intros ->].
    + rewrite bool_decide_eq_false_2; [done|]. by intros ->.
Qed.

Lemma bit_array_get_spec a i :
  words_ok a -> 0 <= i < nbits a -> i < 2 ^ 64 ->
  bit_array_get a i ⇓ fun v => negb (v =? 0) = bit a i.
Proof.
  intros Ha Hi Hm. destruct (offsets i ltac:(lia)) as (Ho & Hl & Hb). unfold bit_array_get. rewrite Hb, Ho.
  destruct (word_at a i Hi) as (w & Hw & ->). simpl. rewrite (bit_word a i w Hw).
  pose proof (Z.mod_pos_bound i 64 ltac:(lia)) as Hk. set (k := i mod 64) in *.
  set (m := w64 (Z.shiftl 1 k)).
  assert (Hbit : forall j, 0 <= j < 64 -> Z.testbit (Z.land w m) j = Z.testbit w j && bool_decide (j = k)).
  { intros j Hj. rewrite Z.land_spec. f_equal. exact (proj1 (mask_bits k j ltac:(lia) Hj)). }
  destruct (Z.eqb_spec (Z.land w m) 0) as [E|E]; simpl.
  - specialize (Hbit k ltac:(lia)). rewrite E, Z.bits_0, bool_decide_eq_true_2, andb_true_r in Hbit by done.
    done.
  - destruct (Z.testbit w k) eqn:Hwk; [done|]. exfalso. apply E. apply Z.bits_inj'. intros j Hj.
    rewrite Z.bits_0. destruct (decide (j < 64)).
    + rewrite Hbit by lia. case_bool_decide; [subst; by rewrite Hwk|by rewrite andb_false_r].
    + pose proof (land_ok w m (Ha _ _ Hw) (proj1 (w64_range _))) as Hr.
      destruct (decide (Z.land w m = 0)) as [->|]; [apply Z.bits_0|].
      apply Z.bits_above_log2; [lia|]. pose proof (Z.log2_lt_pow2 (Z.land w m) 64). lia.
Qed.

Lemma zeroed_bits a n j : 0 <= n <= vec_size a -> 0 <= j ->
  bit (replicate (Z.to_nat n) 0 ++ drop (Z.to_nat n) a) j = negb (j <? 64 * n) && bit a j.
Proof.
  intros Hn Hj. unfold bit. pose proof (Z.div_pos j 64 Hj). pose proof (Z.div_mod j 64 ltac:(lia)).
  pose proof (Z.mod_pos_bound j 64 ltac:(lia)). destruct (Z.ltb_spec j (64 * n)); simpl.
  - rewrite lookup_app_l by (rewrite length_replicate; lia).
    rewrite lookup_replicate_2 by lia. apply Z.bits_0.
  - rewrite lookup_app_r, length_replicate, lookup_drop by (rewrite length_replicate; lia).
    by replace (Z.to_nat n + (Z.to_nat (j / 64) - Z.to_nat n))%nat with (Z.to_nat (j / 64)) by lia.
Qed.

Lemma bit_array_clear_spec a n :
  words_ok a -> 0 <= n <= nbits a -> n < 2 ^ 64 ->
  bit_array_clear a n ⇓ fun a' => length a' = length a
    /\ forall j, 0 <= j -> bit a' j = negb (j <? n) && bit a j.
Proof.
  intros Ha Hn Hm. destruct (offsets n ltac:(lia)) as (Ho & Hl & Hb). unfold bit_array_clear.
  rewrite Ho, <- Ho, Hl, Ho. pose proof (Z.div_mod n 64 ltac:(lia)). pose proof (Z.div_pos n 64).
  pose proof (Z.mod_pos_bound n 64 ltac:(lia)). unfold nbits, vec_size in Hn.
  set (a0 := replicate (Z.to_nat (n / 64)) 0 ++ drop (Z.to_nat (n / 64)) a).
  assert (Hlen : length a0 = length a) by (unfold a0; rewrite length_app, length_replicate, length_drop; lia).
  assert (zero_words a (n / 64) = Ok a0) as ->.
  { unfold zero_words, vec_size. by destruct (Z.leb_spec (n / 64) (Z.of_nat (length a))); [|lia]. }
  assert (Hz : forall j, 0 <= j -> bit a0 j = negb (j <? 64 * (n / 64)) && bit a j).
  { intros j Hj. apply zeroed_bits; [unfold vec_size; lia|done]. }
  simpl. destruct (Z.eqb_spec (64 * (n / 64)) n) as [E|E]; simpl; [split; [done|]; intros j Hj; rewrite Hz, E by done; done|].
  assert (Hi : 0 <= n < nbits a0) by (unfold nbits, vec_size; rewrite Hlen; lia).
  destruct (word_at a0 n Hi) as (w & Hw & ->). simpl. rewrite word_set_ok by done. simpl.
  rewrite length_insert. split; [done|]. intros j Hj. rewrite bit_insert by done.
  pose proof (Z.div_mod j 64 ltac:(lia)). pose proof (Z.mod_pos_bound j 64 ltac:(lia)).
  replace (n - 64 * (n / 64)) with (n mod 64) by lia.
  case_decide as Ej.
  - rewrite Z.land_spec, high_mask by lia.
    assert (Z.testbit w (j mod 64) = bit a j) as ->.
    { rewrite <- (bit_word a0 j w) by (by rewrite Ej). rewrite Hz by done.
      by destruct (Z.ltb_spec j (64 * (n / 64))); [lia|]. }
    rewrite andb_comm. f_equal. destruct (Z.leb_spec (n mod 64) (j mod 64)), (Z.ltb_spec j n); done || lia.
  - rewrite Hz by done. f_equal. f_equal.
    destruct (Z.ltb_spec j (64 * (n / 64))), (Z.ltb_spec j n); done || lia.
Qed.

(** ** Searching *)

Lemma ctz_from_spec fuel : forall v i, 0 <= i ->
  (exists j, i <= j < i + Z.of_nat fuel /\ Z.testbit v j = true) ->
  let r := ctz_from fuel v i in
  i <= r < i + Z.of_nat fuel /\ Z.testbit v r = true /\ forall j, i <= j < r -> Z.testbit v j = false.
Proof.
  induction fuel as [|fuel IH]; intros v i Hi (j & Hj & Hv); [lia|]. simpl.
  destruct (Z.testbit v i) eqn:E; [split; [lia|]; split; [done|lia]|].
  destruct (IH v (i + 1) ltac:(lia)) as (Hr & Hb & Hf).
  { exists j. split; [|done]. destruct (decide (j = i)); [congruence|lia]. }
  split; [lia|]. split; [done|]. intros k Hk. destruct (decide (k = i)); [congruence|apply Hf; lia].
Qed.

Lemma ctzl_spec w : 0 < w < 2 ^ 64 ->
  0 <= ctzl w < 64 /\ Z.testbit w (ctzl w) = true /\ forall j, 0 <= j < ctzl w -> Z.testbit w j = false.
Proof.
  intros Hw. apply (ctz_from_spec 64 w 0); [lia|]. exists (Z.log2 w).
  split; [|apply Z.bit_log2; lia]. pose proof (Z.log2_nonneg w).
  pose proof (proj1 (Z.log2_lt_pow2 w 64 ltac:(lia)) ltac:(lia)). lia.
Qed.

(** [r] is the first set bit of [begin, end), or [end]. *)
Definition first_set (a : list Z) (b e r : Z) : Prop :=
  b <= r <= e /\ (forall j, b <= j < r -> bit a j = false) /\ (r < e -> bit a r = true).

(** Bits of one word. *)
Lemma bit_of_word a k w j : a !! Z.to_nat k = Some w -> 0 <= k -> 64 * k <= j < 64 * k + 64 ->
  bit a j = Z.testbit w (j - 64 * k).
Proof.
  intros Hw Hk Hj. assert (j / 64 = k) as E by (symmetry; apply (Z.div_unique_pos j 64 k (j - 64 * k)); lia).
  rewrite (bit_word a j w) by (by rewrite E). f_equal. pose proof (Z.div_mod j 64 ltac:(lia)). lia.
Qed.

Lemma first1_loop_spec a (Ha : words_ok a) n : forall i,
  0 <= i -> (n = 0%nat \/ i + Z.of_nat n <= vec_size a) -> 64 * vec_size a <= 2 ^ 64 ->
  first1_loop a n i ⇓ fun r =>
    match r with
    | Some p => 64 * i <= p < 64 * (i + Z.of_nat n) /\ bit a p = true
                /\ forall j, 64 * i <= j < p -> bit a j = false
    | None => forall j, 64 * i <= j < 64 * (i + Z.of_nat n) -> bit a j = false
    end.
Proof.
  induction n as [|n IH]; intros i Hi Hn Hm; [simpl; lia|]. cbn [first1_loop].
  destruct (vec_at_in_range a i ltac:(lia)) as (w & Hw & ->). cbn [mbind outcome_bind].
  pose proof (bit_of_word a i w) as Hbw. pose proof (Ha _ _ Hw) as Hwr.
  destruct (Z.eqb_spec w 0) as [->|Hne]; cbn [negb].
  - assert (Hz : forall j, 64 * i <= j < 64 * i + 64 -> bit a j = false)
      by (intros j Hj; rewrite Hbw by done; apply Z.bits_0).
    eapply returns_mono; [apply IH; lia|]. intros [p|].
    + intros (Hp & Hb & Hf). split; [lia|]. split; [done|]. intros j Hj.
      destruct (decide (j < 64 * i + 64)); [apply Hz; lia|apply Hf; lia].
    + intros Hf j Hj. destruct (decide (j < 64 * i + 64)); [apply Hz; lia|apply Hf; lia].
  - destruct (ctzl_spec w ltac:(lia)) as (Hc & Hb & Hf). simpl. rewrite w64_id by lia.
    split; [lia|]. split; [rewrite Hbw by (done || lia); rewrite <- Hb; f_equal; lia|].
    intros j Hj. rewrite Hbw by (done || lia). apply Hf. lia.
Qed.

Lemma first1_tail_spec a off1 e :
  words_ok a -> 0 <= off1 <= e / 64 + 1 -> 0 <= e <= nbits a -> nbits a <= 2 ^ 64 -> e < 2 ^ 64 ->
  first1_tail a off1 e ⇓ first_set a (Z.min (64 * off1) (64 * (e / 64))) e.
Proof.
  intros Ha Ho He Hm He64. destruct (offsets e ltac:(lia)) as (Hs & Hl & _). unfold first1_tail.
  rewrite Hl, Hs. pose proof (Z.div_mod e 64 ltac:(lia)). pose proof (Z.mod_pos_bound e 64 ltac:(lia)).
  unfold nbits in He, Hm. step. eapply returns_mono; [apply first1_loop_spec; [done|lia|lia|lia]|].
  intros [p|].
  - intros (Hp & Hb & Hf). simpl. split; [lia|]. split; [|done]. intros j Hj. apply Hf. lia.
  - intros Hf. assert (Hf' : forall j, Z.min (64 * off1) (64 * (e / 64)) <= j < 64 * (e / 64) -> bit a j = false)
      by (intros; apply Hf; lia). clear Hf.
    destruct (Z.eqb_spec (64 * (e / 64)) e) as [E|E]; cbn [negb].
    { simpl. split; [lia|]. split; [intros j Hj; apply Hf'; lia|lia]. }
    destruct (vec_at_in_range a (e / 64) ltac:(lia)) as (w & Hw & ->). cbn [mbind outcome_bind].
    pose proof (fun j => bit_of_word a (e / 64) w j Hw ltac:(lia)) as Hbw. pose proof (Ha _ _ Hw) as Hwr.
    destruct (Z.eqb_spec w 0) as [->|Hne]; simpl.
    + split; [lia|]. split; [|lia]. intros j Hj. destruct (decide (j < 64 * (e / 64))); [apply Hf'; lia|].
      rewrite Hbw by lia. apply Z.bits_0.
    + destruct (ctzl_spec w ltac:(lia)) as (Hc & Hb & Hf). rewrite w64_id by lia.
      split; [lia|]. split.
      * intros j Hj. destruct (decide (j < 64 * (e / 64))); [apply Hf'; lia|]. rewrite Hbw by lia. apply Hf. lia.
      * intros Hlt. rewrite Z.min_l by lia. rewrite Hbw by lia. rewrite <- Hb. f_equal. lia.
Qed.

(** The masked first word. *)
Lemma masked_word a b w :
  words_ok a -> 0 <= b -> a !! Z.to_nat (b / 64) = Some w -> b mod 64 <> 0 ->
  let v := Z.land w (w64 (Z.lnot (w64 (w64 (Z.shiftl 1 (b mod 64)) - 1)))) in
  0 <= v < 2 ^ 64
  /\ forall j, 64 * (b / 64) <= j < 64 * (b / 64) + 64 -> Z.testbit v (j - 64 * (b / 64)) = (b <=? j) && bit a j.
Proof.
  intros Ha Hb Hw Hne v. split; [apply land_ok; [by apply (Ha _ _ Hw)|apply w64_range]|].
  intros j Hj. pose proof (Z.div_mod b 64 ltac:(lia)). pose proof (Z.mod_pos_bound b 64 ltac:(lia)).
  unfold v. rewrite Z.land_spec, high_mask, <- (bit_of_word a (b / 64) w) by (done || (pose proof (Z.div_pos b 64); lia)).
  rewrite andb_comm. f_equal. destruct (Z.leb_spec (b mod 64) (j - 64 * (b / 64))), (Z.leb_spec b j); done || lia.
Qed.

Lemma masked_zero a b w :
  words_ok a -> 0 <= b -> a !! Z.to_nat (b / 64) = Some w -> b mod 64 <> 0 ->
  Z.land w (w64 (Z.lnot (w64 (w64 (Z.shiftl 1 (b mod 64)) - 1)))) = 0 <->
  forall j, b <= j < 64 * (b / 64) + 64 -> bit a j = false.
Proof.
  intros Ha Hb Hw Hne. destruct (masked_word a b w Ha Hb Hw Hne) as [Hr Hv].
  pose proof (Z.div_mod b 64 ltac:(lia)). pose proof (Z.mod_pos_bound b 64 ltac:(lia)). split.
  - intros E j Hj. rewrite E in Hv. specialize (Hv j ltac:(lia)). rewrite Z.bits_0 in Hv.
    by destruct (Z.leb_spec b j); [|lia].
  - intros Hz. apply Z.bits_inj'. intros k Hk. rewrite Z.bits_0. set (v := Z.land _ _) in *.
    destruct (decide (k < 64)).
    + replace k with (64 * (b / 64) + k - 64 * (b / 64)) by lia. rewrite Hv by lia.
      destruct (Z.leb_spec b (64 * (b / 64) + k)); [|done]. simpl. apply Hz. lia.
    + destruct (decide (v = 0)) as [->|]; [apply Z.bits_0|]. apply Z.bits_above_log2; [lia|].
      pose proof (proj1 (Z.log2_lt_pow2 v 64 ltac:(lia))). lia.
Qed.

(** What the search returns: the first set bit, except that a range within one
    word whose bits from [begin] on are clear is searched again from the start
    of that word. *)
Lemma first1_cases a b e :
  words_ok a -> 0 <= b <= e -> e <= nbits a -> nbits a <= 2 ^ 64 -> e < 2 ^ 64 ->
  bit_array_first1 a b e ⇓ fun r =>
    (b mod 64 <> 0 /\ b / 64 = e / 64
      /\ (forall j, b <= j < 64 * (b / 64) + 64 -> bit a j = false)
      /\ first_set a (64 * (b / 64)) e r)
    \/ first_set a b e r.
Proof.
  intros Ha Hb He Hm He64. destruct (offsets b ltac:(lia)) as (Hs & Hl & Hw). unfold bit_array_first1.
  rewrite Hw, Hl, Hs. pose proof (Z.div_mod b 64 ltac:(lia)). pose proof (Z.mod_pos_bound b 64 ltac:(lia)).
  pose proof (Z.div_mod e 64 ltac:(lia)). pose proof (Z.mod_pos_bound e 64 ltac:(lia)).
  pose proof (Z.div_pos b 64). pose proof (Z.div_le_mono b e 64 ltac:(lia) ltac:(lia)).
  destruct (Z.eqb_spec (64 * (b / 64)) b) as [E|E]; cbn [negb].
  - eapply returns_mono; [apply first1_tail_spec; done || lia|]. intros r Hr. right.
    by rewrite Z.min_l, E in Hr by lia.
  - destruct (vec_at_in_range a (b / 64) ltac:(unfold nbits in *; lia)) as (w & Hwd & ->).
    cbn [mbind outcome_bind]. pose proof (masked_zero a b w Ha ltac:(lia) Hwd ltac:(lia)) as Hzero.
    destruct (masked_word a b w Ha ltac:(lia) Hwd ltac:(lia)) as [Hvr Hv]. set (v := Z.land _ _) in *.
    destruct (Z.eqb_spec v 0) as [Ev|Ev]; cbn [negb].
    + pose proof (proj1 Hzero Ev) as Hclear. eapply returns_mono; [apply first1_tail_spec; done || lia|].
      intros r (Hr & Hf & Ht). destruct (decide (b / 64 = e / 64)) as [Eq|Ne].
      * left. rewrite Z.min_r in Hr, Hf by lia. rewrite <- Eq in *. split; [lia|]. by split_and!.
      * right. rewrite Z.min_l in Hr, Hf by lia. split; [lia|]. split; [|done]. intros j Hj.
        destruct (decide (j < 64 * (b / 64) + 64)); [apply Hclear; lia|apply Hf; lia].
    + destruct (ctzl_spec v ltac:(lia)) as (Hc & Ht & Hf). simpl. right.
      assert (Hb0 : b <= 64 * (b / 64) + ctzl v).
      { destruct (Z.leb_spec b (64 * (b / 64) + ctzl v)) as [|Hgt]; [done|].
        specialize (Hv (64 * (b / 64) + ctzl v) ltac:(lia)).
        replace (64 * (b / 64) + ctzl v - 64 * (b / 64)) with (ctzl v) in Hv by lia.
        rewrite Ht, (proj2 (Z.leb_gt b _) Hgt) in Hv. done. }
      unfold nbits in *. rewrite w64_id by lia. split; [lia|]. split.
      * intros j Hj. specialize (Hv j ltac:(lia)). rewrite Hf in Hv by lia.
        by destruct (Z.leb_spec b j); [|lia].
      * intros Hlt. rewrite Z.min_l by lia. specialize (Hv (64 * (b / 64) + ctzl v) ltac:(lia)).
        replace (64 * (b / 64) + ctzl v - 64 * (b / 64)) with (ctzl v) in Hv by lia.
        rewrite Ht in Hv. symmetry in Hv. by apply andb_prop in Hv as [_ ->].
Qed.

(** ** Main statements *)

(** Setting, unsetting, clearing and reading: a set or unset changes one
    bit and no other, a clear changes exactly the bits below its count, and a
    read is nonzero exactly on a set bit; none leaves the array. *)
Theorem bit_array_operations a i :
  words_ok a -> 0 <= i < nbits a -> i < 2 ^ 64 ->
  (bit_array_set a i ⇓ fun a' => forall j, 0 <= j -> bit a' j = bool_decide (j = i) || bit a j)
  /\ (bit_array_unset a i ⇓ fun a' => forall j, 0 <= j -> bit a' j = negb (bool_decide (j = i)) && bit a j)
  /\ (bit_array_clear a i ⇓ fun a' => forall j, 0 <= j -> bit a' j = negb (j <? i) && bit a j)
  /\ (bit_array_get a i ⇓ fun v => negb (v =? 0) = bit a i).
Proof.
  intros Ha Hi Hm. split_and!.
  - eapply returns_mono; [by apply bit_array_set_spec|]. by intros a' (_ & _ & ?).
  - eapply returns_mono; [by apply bit_array_unset_spec|]. by intros a' (_ & _ & ?).
  - eapply returns_mono; [apply bit_array_clear_spec; done || lia|]. by intros a' (_ & ?).
  - by apply bit_array_get_spec.
Qed.

Lemma bit_array_operations_witness :
  bit_array_get [5; 8] 67 ⇓ fun v => negb (v =? 0) = bit [5; 8] 67.
Proof.
  apply (bit_array_operations [5; 8] 67); [|split; vm_compute; (discriminate || reflexivity)|reflexivity].
  intros [|[|k]] w Hw; [injection Hw as <-; lia|injection Hw as <-; lia|done].
Defined.

(** The search for the first set bit of [begin, end) is right when [begin]
    is a multiple of 64, when [end] is in a later word, or when no bit of
    [begin]'s word below it is set. *)
Theorem bit_array_first1_correct a b e :
  words_ok a -> 0 <= b <= e -> e <= nbits a -> nbits a <= 2 ^ 64 -> e < 2 ^ 64 ->
  b mod 64 = 0 \/ b / 64 < e / 64 \/ (forall j, 64 * (b / 64) <= j < b -> bit a j = false) ->
  bit_array_first1 a b e ⇓ first_set a b e.
Proof.
  intros Ha Hb He Hm He64 Hc. eapply returns_mono; [by apply first1_cases|].
  intros r [(Hne & Heq & Hz & Hr & Hf & Ht)|Hr]; [|done].
  destruct Hc as [Hc|[Hc|Hc]]; [done|lia|]. pose proof (Z.div_mod b 64 ltac:(lia)).
  pose proof (Z.mod_pos_bound b 64 ltac:(lia)). pose proof (Z.div_mod e 64 ltac:(lia)).
  pose proof (Z.mod_pos_bound e 64 ltac:(lia)).
  assert (r = e) as ->.
  { destruct (decide (r = e)); [done|]. specialize (Ht ltac:(lia)).
    destruct (decide (r < b)); [rewrite Hc in Ht by lia|rewrite Hz in Ht by lia]; done. }
  split; [lia|]. split; [intros j Hj; apply Hz; lia|lia].
Qed.

Lemma bit_array_first1_correct_witness : bit_array_first1 [0; 8] 3 128 ⇓ first_set [0; 8] 3 128.
Proof.
  apply (bit_array_first1_correct [0; 8] 3 128); [|lia|vm_compute; discriminate|vm_compute; discriminate
    |reflexivity|right; left; reflexivity].
  intros [|[|k]] w Hw; [injection Hw as <-; lia|injection Hw as <-; lia|done].
Defined.

(** In the remaining case the search returns a position before [begin]:
    [begin] and [end] in one word, no set bit from [begin] to the end of that
    word, and a set bit before [begin]. *)
Theorem bit_array_first1_below a b e :
  words_ok a -> 0 <= b <= e -> e <= nbits a -> nbits a <= 2 ^ 64 -> e < 2 ^ 64 ->
  b mod 64 <> 0 -> b / 64 = e / 64 ->
  (forall j, b <= j < 64 * (b / 64) + 64 -> bit a j = false) ->
  (exists j, 64 * (b / 64) <= j < b /\ bit a j = true) ->
  bit_array_first1 a b e ⇓ fun r => r < b.
Proof.
  intros Ha Hb He Hm He64 Hne Heq Hz (j & Hj & Hbit). destruct (offsets b ltac:(lia)) as (Hs & Hl & Hw).
  unfold bit_array_first1. rewrite Hw, Hl, Hs. pose proof (Z.div_mod b 64 ltac:(lia)).
  pose proof (Z.mod_pos_bound b 64 ltac:(lia)). pose proof (Z.div_mod e 64 ltac:(lia)).
  pose proof (Z.mod_pos_bound e 64 ltac:(lia)). pose proof (Z.div_pos b 64).
  destruct (Z.eqb_spec (64 * (b / 64)) b) as [E|E]; [lia|]. cbn [negb].
  destruct (vec_at_in_range a (b / 64) ltac:(unfold nbits in *; lia)) as (w & Hwd & ->).
  cbn [mbind outcome_bind]. rewrite (proj2 (masked_zero a b w Ha ltac:(lia) Hwd Hne) Hz).
  change (negb (0 =? 0)) with false. cbv iota.
  eapply returns_mono; [apply first1_tail_spec; done || lia|]. intros r (Hr & Hf & _).
  destruct (decide (r < b)); [done|]. rewrite Hf in Hbit by lia. done.
Qed.

Lemma bit_array_first1_below_witness : bit_array_first1 [1] 5 10 ⇓ fun r => r < 5.
Proof.
  apply (bit_array_first1_below [1] 5 10); [|lia|vm_compute; discriminate|vm_compute; discriminate
    |reflexivity|discriminate|reflexivity| |exists 0; split; [vm_compute; split; (discriminate || reflexivity)|reflexivity]].
  - intros [|k] w Hw; [injection Hw as <-; lia|done].
  - intros j Hj. change (64 * (5 / 64) + 64) with 64 in Hj. unfold bit.
    rewrite Z.div_small, Z.mod_small by lia. simpl.
    apply Z.bits_above_log2; simpl; lia.
Defined.
