(* ===== verification/Splitter.v ===== *)
(** * String splitters (libsh/butil/string_splitter.h, string_splitter_inl.h)

    [StringSplitter] cuts at one character, [StringMultiSplitter] at any of
    several, [KeyValuePairsSplitter] cuts fields into a key and a value.  The
    text lies in a block of memory [mem], a list of bytes; a pointer into it is
    an offset, a null pointer [None].  Reading outside the block is a fault.
    Bytes are signed or unsigned 8-bit numbers as [char] is; only equality and
    the ASCII codes of digits, signs and blanks matter.  The float conversions
    are left out. *)

From Stdlib Require Import ZArith Lia.
From stdpp Require Import base list.
From S2P Require Import Prelude Numerics.

Open Scope Z_scope.

Inductive EmptyFieldAction : Type := SKIP_EMPTY_FIELD | ALLOW_EMPTY_FIELD.

#[export] Instance EmptyFieldAction_eq_dec : EqDecision EmptyFieldAction.
Proof. solve_decision. Defined.

Section Memory.
Context (mem : list Z).

(** [not_end], the same in both classes. *)
Definition not_end (str_tail : option Z) (p : Z) : outcome bool :=
  match str_tail with
  | None => c ← vec_at mem p; Ok (negb (c =? 0))
  | Some t => Ok (negb (p =? t))
  end.

(** [for (; cond( *p) && not_end(p); ++p)]: the byte is read before the end is
    tested. *)
Fixpoint scan (fuel : nat) (str_tail : option Z) (cond : Z -> outcome bool) (p : Z) : outcome Z :=
  match fuel with
  | O => Diverge
  | S fuel =>
      c ← vec_at mem p;
      b ← cond c;
      if b : bool then
        ne ← not_end str_tail p;
        if ne : bool then scan fuel str_tail cond (p + 1) else Ok p
      else Ok p
  end.

(** Every round reads inside the block, so this many rounds are enough. *)
Definition scan_fuel : nat := S (S (length mem)).

Definition negate (cond : Z -> outcome bool) (c : Z) : outcome bool := b ← cond c; Ok (negb b).

(** The bodies of [init] and [operator++], for a separator test. *)
Definition init_at (is_sep : Z -> outcome bool) (str_tail : option Z) (action : EmptyFieldAction)
    (head : option Z) : outcome (option Z * option Z) :=
  match head with
  | Some h =>
      h ← (if decide (action = SKIP_EMPTY_FIELD) then scan scan_fuel str_tail is_sep h else Ok h);
      t ← scan scan_fuel str_tail (negate is_sep) h;
      Ok (Some h, Some t)
  | None => Ok (None, None)
  end.

Definition next_at (is_sep : Z -> outcome bool) (str_tail : option Z) (action : EmptyFieldAction)
    (head tail : option Z) : outcome (option Z * option Z) :=
  match tail with
  | Some t =>
      ne ← not_end str_tail t;
      t ← (if ne : bool then
             if decide (action = SKIP_EMPTY_FIELD) then scan scan_fuel str_tail is_sep (t + 1)
             else Ok (t + 1)
           else Ok t);
      t' ← scan scan_fuel str_tail (negate is_sep) t;
      Ok (Some t, Some t')
  | None => Ok (head, tail)
  end.

Definition valid_at (str_tail : option Z) (head : option Z) : outcome (option Z) :=
  match head with
  | Some h => ne ← not_end str_tail h; Ok (if ne : bool then Some h else None)
  | None => Ok None
  end.

(** ** [strtol] and its unsigned form, base 10

    Blanks, a sign, digits; the result is cut off at the limits of the type.
    Without digits the end pointer is the start. *)

Definition is_blank (c : Z) : bool := (c =? 32) || ((9 <=? c) && (c <=? 13)).
Definition is_digit (c : Z) : bool := (48 <=? c) && (c <=? 57).

Fixpoint skip_blanks (fuel : nat) (p : Z) : outcome Z :=
  match fuel with
  | O => Diverge
  | S fuel => c ← vec_at mem p; if is_blank c then skip_blanks fuel (p + 1) else Ok p
  end.

Fixpoint digits (fuel : nat) (p acc : Z) : outcome (Z * Z) :=
  match fuel with
  | O => Diverge
  | S fuel =>
      c ← vec_at mem p;
      if is_digit c then digits fuel (p + 1) (acc * 10 + (c - 48)) else Ok (acc, p)
  end.

(** The sign, the magnitude and the end. *)
Definition number (nptr : Z) : outcome (bool * Z * Z) :=
  p ← skip_blanks scan_fuel nptr;
  c ← vec_at mem p;
  let neg := c =? 45 in
  let start := if neg || (c =? 43) then p + 1 else p in
  '(v, q) ← digits scan_fuel start 0;
  Ok (if q =? start then (false, 0, nptr) else (neg, v, q)).

Definition strtol (nptr : Z) : outcome (Z * Z) :=
  '(neg, v, endptr) ← number nptr;
  let z := if neg : bool then - v else v in
  Ok (Z.max (imin int64) (Z.min z (imax int64)), endptr).

Definition strtoul (nptr : Z) : outcome (Z * Z) :=
  '(neg, v, endptr) ← number nptr;
  Ok (if imax uint64 <? v then imax uint64 else cast uint64 (if neg : bool then - v else v), endptr).

(** The conversions of a field: the code returned and the value stored.  On
    [long] the value is stored even when the code is -1; the others store on
    success only. *)
Definition long_at (head tail : Z) : outcome (Z * Z) :=
  '(v, endptr) ← strtol head;
  Ok (if endptr =? head + (tail - head) then 0 else -1, v).

Definition ulong_at (head tail : Z) : outcome (Z * Z) :=
  '(v, endptr) ← strtoul head;
  Ok (if endptr =? head + (tail - head) then 0 else -1, v).

Definition signed_at (T : ity) (head tail pv : Z) : outcome (Z * Z) :=
  '(code, v) ← long_at head tail;
  Ok (if (code =? 0) && (imin T <=? v) && (v <=? imax T) then (0, cast T v) else (-1, pv)).

Definition unsigned_at (T : ity) (head tail pv : Z) : outcome (Z * Z) :=
  '(code, v) ← ulong_at head tail;
  Ok (if (code =? 0) && (v <=? imax T) then (0, cast T v) else (-1, pv)).
End Memory.

(** ** StringSplitter *)

Record StringSplitter : Type := mkSplitter {
  s_head : option Z;
  s_tail : option Z;
  s_str_tail : option Z;
  s_sep : Z;
  s_action : EmptyFieldAction
}.

Definition s_is_sep (sep c : Z) : outcome bool := Ok (sep =? c).

Definition StringSplitter_range (mem : list Z) (str_begin str_end : option Z) (sep : Z)
    (action : EmptyFieldAction) : outcome StringSplitter :=
  '(h, t) ← init_at mem (s_is_sep sep) str_end action str_begin;
  Ok (mkSplitter h t str_end sep action).

Definition StringSplitter_str (mem : list Z) (str : option Z) (sep : Z) (action : EmptyFieldAction)
    : outcome StringSplitter := StringSplitter_range mem str None sep action.

(** A [StringPiece] is an address and a length. *)
Definition StringSplitter_piece (mem : list Z) (data length : Z) (sep : Z) (action : EmptyFieldAction)
    : outcome StringSplitter := StringSplitter_range mem (Some data) (Some (data + length)) sep action.

Definition Splitter_next (mem : list Z) (s : StringSplitter) : outcome StringSplitter :=
  '(h, t) ← next_at mem (s_is_sep (s_sep s)) (s_str_tail s) (s_action s) (s_head s) (s_tail s);
  Ok (mkSplitter h t (s_str_tail s) (s_sep s) (s_action s)).

(** [s++]: the old splitter and the moved one. *)
Definition Splitter_post_next (mem : list Z) (s : StringSplitter) : outcome (StringSplitter * StringSplitter) :=
  s' ← Splitter_next mem s; Ok (s, s').

Definition Splitter_valid (mem : list Z) (s : StringSplitter) : outcome (option Z) :=
  valid_at mem (s_str_tail s) (s_head s).

Definition Splitter_field (s : StringSplitter) : option Z := s_head s.

(** Meaningful only on a splitter with a text. *)
Definition Splitter_length (s : StringSplitter) : Z :=
  match s_head s, s_tail s with
  | Some h, Some t => cast uint64 (t - h)
  | _, _ => 0
  end.

Definition Splitter_field_sp (s : StringSplitter) : option Z * Z := (Splitter_field s, Splitter_length s).

Definition on_field {A} (s : StringSplitter) (f : Z -> Z -> outcome A) : outcome A :=
  match s_head s, s_tail s with
  | Some h, Some t => f h t
  | _, _ => Fault OutOfRange
  end.

Definition to_int8 (mem : list Z) (s : StringSplitter) (pv : Z) : outcome (Z * Z) :=
  on_field s (fun h t => signed_at mem int8 h t pv).
Definition to_uint8 (mem : list Z) (s : StringSplitter) (pv : Z) : outcome (Z * Z) :=
  on_field s (fun h t => unsigned_at mem uint8 h t pv).
Definition to_int (mem : list Z) (s : StringSplitter) (pv : Z) : outcome (Z * Z) :=
  on_field s (fun h t => signed_at mem int32 h t pv).
Definition to_uint (mem : list Z) (s : StringSplitter) (pv : Z) : outcome (Z * Z) :=
  on_field s (fun h t => unsigned_at mem uint32 h t pv).
Definition to_long (mem : list Z) (s : StringSplitter) : outcome (Z * Z) := on_field s (long_at mem).
Definition to_ulong (mem : list Z) (s : StringSplitter) : outcome (Z * Z) := on_field s (ulong_at mem).
Definition to_longlong (mem : list Z) (s : StringSplitter) : outcome (Z * Z) := on_field s (long_at mem).
Definition to_ulonglong (mem : list Z) (s : StringSplitter) : outcome (Z * Z) := on_field s (ulong_at mem).

(** ** StringMultiSplitter

    [m_seps] is the text at the pointer to the separators, up to the end of
    its block. *)

Record StringMultiSplitter : Type := mkMulti {
  m_head : option Z;
  m_tail : option Z;
  m_str_tail : option Z;
  m_seps : list Z;
  m_action : EmptyFieldAction
}.

Fixpoint is_sep (seps : list Z) (c : Z) : outcome bool :=
  match seps with
  | [] => Fault OutOfRange
  | p :: rest => if p =? 0 then Ok false else if c =? p then Ok true else is_sep rest c
  end.

Definition Multi_init (mem : list Z) (head str_tail : option Z) (seps : list Z) (action : EmptyFieldAction)
    : outcome StringMultiSplitter :=
  '(h, t) ← init_at mem (is_sep seps) str_tail action head;
  Ok (mkMulti h t str_tail seps action).

Definition StringMultiSplitter_str (mem : list Z) (str : option Z) (seps : list Z) (action : EmptyFieldAction)
    : outcome StringMultiSplitter := Multi_init mem str None seps action.

Definition StringMultiSplitter_range (mem : list Z) (str_begin str_end : option Z) (seps : list Z)
    (action : EmptyFieldAction) : outcome StringMultiSplitter := Multi_init mem str_begin str_end seps action.

Definition Multi_next (mem : list Z) (s : StringMultiSplitter) : outcome StringMultiSplitter :=
  '(h, t) ← next_at mem (is_sep (m_seps s)) (m_str_tail s) (m_action s) (m_head s) (m_tail s);
  Ok (mkMulti h t (m_str_tail s) (m_seps s) (m_action s)).

Definition Multi_post_next (mem : list Z) (s : StringMultiSplitter)
    : outcome (StringMultiSplitter * StringMultiSplitter) :=
  s' ← Multi_next mem s; Ok (s, s').

Definition Multi_valid (mem : list Z) (s : StringMultiSplitter) : outcome (option Z) :=
  valid_at mem (m_str_tail s) (m_head s).

Definition Multi_field (s : StringMultiSplitter) : option Z := m_head s.

Definition Multi_length (s : StringMultiSplitter) : Z :=
  match m_head s, m_tail s with
  | Some h, Some t => cast uint64 (t - h)
  | _, _ => 0
  end.

Definition Multi_field_sp (s : StringMultiSplitter) : option Z * Z := (Multi_field s, Multi_length s).

Definition on_multi {A} (s : StringMultiSplitter) (f : Z -> Z -> outcome A) : outcome A :=
  match m_head s, m_tail s with
  | Some h, Some t => f h t
  | _, _ => Fault OutOfRange
  end.

Definition Multi_to_int8 (mem : list Z) (s : StringMultiSplitter) (pv : Z) : outcome (Z * Z) :=
  on_multi s (fun h t => signed_at mem int8 h t pv).
Definition Multi_to_uint8 (mem : list Z) (s : StringMultiSplitter) (pv : Z) : outcome (Z * Z) :=
  on_multi s (fun h t => unsigned_at mem uint8 h t pv).
Definition Multi_to_int (mem : list Z) (s : StringMultiSplitter) (pv : Z) : outcome (Z * Z) :=
  on_multi s (fun h t => signed_at mem int32 h t pv).
Definition Multi_to_uint (mem : list Z) (s : StringMultiSplitter) (pv : Z) : outcome (Z * Z) :=
  on_multi s (fun h t => unsigned_at mem uint32 h t pv).
Definition Multi_to_long (mem : list Z) (s : StringMultiSplitter) : outcome (Z * Z) := on_multi s (long_at mem).
Definition Multi_to_ulong (mem : list Z) (s : StringMultiSplitter) : outcome (Z * Z) := on_multi s (ulong_at mem).
Definition Multi_to_longlong (mem : list Z) (s : StringMultiSplitter) : outcome (Z * Z) :=
  on_multi s (long_at mem).
Definition Multi_to_ulonglong (mem : list Z) (s : StringMultiSplitter) : outcome (Z * Z) :=
  on_multi s (ulong_at mem).

(** ** KeyValuePairsSplitter

    [StringPiece::find] and [StringPiece::substr] are linked, not part of the
    sources: they are the parameters [sp_find] (the position of a character,
    or [None] for [npos]) and [sp_substr] (a position and a length, [None] for
    [npos]). *)

Section KeyValue.
Context (mem : list Z) (sp_find : list Z -> Z -> option Z)
  (sp_substr : list Z -> Z -> option Z -> list Z).

Record KeyValuePairsSplitter : Type := mkPairs {
  kv_sp : StringSplitter;
  kv_delim_pos : Z;
  kv_delim : Z
}.

(** The bytes of the current field. *)
Definition key_and_value (sp : StringSplitter) : list Z :=
  match Splitter_field sp with
  | Some h => take (Z.to_nat (Splitter_length sp)) (drop (Z.to_nat h) mem)
  | None => []
  end.

Definition UpdateDelimiterPosition (sp : StringSplitter) (delim : Z) : KeyValuePairsSplitter :=
  let key_value_pair := key_and_value sp in
  mkPairs sp (match sp_find key_value_pair delim with
              | Some i => i
              | None => Z.of_nat (length key_value_pair)
              end) delim.

Definition Pairs_range (str_begin str_end : option Z) (pair_delimiter key_value_delimiter : Z)
    : outcome KeyValuePairsSplitter :=
  sp ← StringSplitter_range mem str_begin str_end pair_delimiter SKIP_EMPTY_FIELD;
  Ok (UpdateDelimiterPosition sp key_value_delimiter).

Definition Pairs_str (str_begin : option Z) (pair_delimiter key_value_delimiter : Z)
    : outcome KeyValuePairsSplitter := Pairs_range str_begin None pair_delimiter key_value_delimiter.

Definition Pairs_piece (data length pair_delimiter key_value_delimiter : Z)
    : outcome KeyValuePairsSplitter :=
  Pairs_range (Some data) (Some (data + length)) pair_delimiter key_value_delimiter.

Definition Pairs_key (s : KeyValuePairsSplitter) : list Z :=
  sp_substr (key_and_value (kv_sp s)) 0 (Some (kv_delim_pos s)).

Definition Pairs_value (s : KeyValuePairsSplitter) : list Z :=
  sp_substr (key_and_value (kv_sp s)) (kv_delim_pos s + 1) None.

Definition Pairs_next (s : KeyValuePairsSplitter) : outcome KeyValuePairsSplitter :=
  sp ← Splitter_next mem (kv_sp s);
  Ok (UpdateDelimiterPosition sp (kv_delim s)).

Definition Pairs_post_next (s : KeyValuePairsSplitter)
    : outcome (KeyValuePairsSplitter * KeyValuePairsSplitter) :=
  s' ← Pairs_next s; Ok (s, s').

Definition Pairs_valid (s : KeyValuePairsSplitter) : outcome (option Z) := Splitter_valid mem (kv_sp s).
End KeyValue.

(** ** The loop of a client

    [for (S s(...); s; ++s) use(s.field_sp())]: the fields it sees, as bytes. *)
Section Client.
Context (mem : list Z) {S : Type} (valid : S -> outcome (option Z)) (next : S -> outcome S)
  (field : S -> option Z) (len : S -> Z).

Definition field_bytes (s : S) : list Z :=
  match field s with
  | Some h => take (Z.to_nat (len s)) (drop (Z.to_nat h) mem)
  | None => []
  end.

Fixpoint collect (fuel : nat) (s : S) : outcome (list (list Z)) :=
  match fuel with
  | O => Diverge
  | Datatypes.S fuel =>
      v ← valid s;
      match v with
      | Some _ => s' ← next s; fs ← collect fuel s'; Ok (field_bytes s :: fs)
      | None => Ok []
      end
  end.
End Client.

(** * Properties *)

(** ** Splitting, as a function on lists *)

Section Split.
Context (sep : Z -> bool).

Fixpoint split (l : list Z) : list (list Z) :=
  match l with
  | [] => [[]]
  | c :: l =>
      if sep c then [] :: split l
      else match split l with
           | f :: fs => (c :: f) :: fs
           | [] => [[c]]
           end
  end.

Definition nonempty_fields (l : list Z) : list (list Z) := List.filter (fun f => negb (bool_decide (f = []))) (split l).

(** A final empty field is not a field. *)
Fixpoint trim (fs : list (list Z)) : list (list Z) :=
  match fs with
  | [] => []
  | [[]] => []
  | f :: fs => f :: trim fs
  end.

Definition all_fields (l : list Z) : list (list Z) := trim (split l).

Fixpoint span (p : Z -> bool) (l : list Z) : list Z * list Z :=
  match l with
  | [] => ([], [])
  | c :: l => if p c then let '(a, b) := span p l in (c :: a, b) else ([], c :: l)
  end.

Lemma span_app p l : fst (span p l) ++ snd (span p l) = l.
Proof. induction l as [|c l IH]; [done|]. simpl. destruct (p c); [|done]. destruct (span p l). simpl in *. congruence. Qed.

Lemma span_stop p l c r : snd (span p l) = c :: r -> p c = false.
Proof.
  induction l as [|d l IH]; [done|]. simpl. destruct (p d) eqn:E.
  - by destruct (span p l).
  - by intros [= <- <-].
Qed.

Lemma split_span l :
  split l = fst (span (fun c => negb (sep c)) l)
            :: match snd (span (fun c => negb (sep c)) l) with [] => [] | _ :: r => split r end.
Proof.
  induction l as [|c l IH]; [done|]. simpl. destruct (sep c); [done|]. simpl. rewrite IH.
  by destruct (span _ l).
Qed.
End Split.

(** ** Scanning a text *)

Section Text.
Context (mem : list Z) (str_tail : option Z) (b e : Z).

(** The text is [b, e), and one more byte is readable at [e]: the terminator
    when there is no end pointer; with one, a condition that the code needs and
    the header does not state. *)
Record text : Prop := {
  t_order : 0 <= b <= e;
  t_room : e < vec_size mem;
  t_small : vec_size mem <= 2 ^ 63;
  t_end : match str_tail with
          | Some t => t = e
          | None => mem !! Z.to_nat e = Some 0
                    /\ forall i, b <= i < e -> mem !! Z.to_nat i <> Some 0
          end
}.

Definition from (p : Z) : list Z := take (Z.to_nat (e - p)) (drop (Z.to_nat p) mem).

Hypothesis Htext : text.

Lemma from_end : from e = [].
Proof. unfold from. by rewrite Z.sub_diag. Qed.

Lemma from_step p : b <= p < e -> exists c, mem !! Z.to_nat p = Some c /\ from p = c :: from (p + 1).
Proof.
  destruct Htext as [Ho Hr Hs _]. intros Hp. unfold vec_size in *.
  destruct (lookup_lt_is_Some_2 mem (Z.to_nat p)) as [c Hc]; [lia|]. exists c. split; [done|].
  unfold from. rewrite (drop_S mem c (Z.to_nat p)) by done.
  replace (Z.to_nat (e - p)) with (S (Z.to_nat (e - (p + 1)))) by lia.
  replace (Z.to_nat (p + 1)) with (S (Z.to_nat p)) by lia. done.
Qed.

Lemma from_length p : b <= p <= e -> Z.of_nat (length (from p)) = e - p.
Proof.
  destruct Htext as [Ho Hr Hs _]. intros Hp. unfold from, vec_size in *. rewrite length_take, length_drop. lia.
Qed.

Lemma not_end_spec p : b <= p <= e -> not_end mem str_tail p = Ok (negb (p =? e)).
Proof.
  destruct Htext as [Ho Hr Hs He]. intros Hp. unfold not_end. destruct str_tail as [t|]; [by rewrite He|].
  destruct He as [He Hn]. destruct (Z.eqb_spec p e) as [->|Hne].
  - rewrite (vec_at_some mem e 0) by (done || lia). done.
  - destruct (vec_at_in_range mem p ltac:(lia)) as (c & Hc & ->). simpl.
    destruct (Z.eqb_spec c 0) as [->|]; [|done]. by destruct (Hn p ltac:(lia)).
Qed.

Context (cond : Z -> outcome bool) (pc : Z -> bool).
Hypothesis Hcond : forall c, cond c = Ok (pc c).

Lemma scan_spec fuel : forall p, b <= p <= e -> e - p < Z.of_nat fuel ->
  scan mem fuel str_tail cond p = Ok (p + Z.of_nat (length (fst (span pc (from p))))).
Proof.
  induction fuel as [|fuel IH]; intros p Hp Hf; [lia|]. cbn [scan].
  pose proof Htext as [Ho Hr Hs _]. destruct (vec_at_in_range mem p ltac:(lia)) as (c & Hc & ->).
  cbn [mbind outcome_bind]. rewrite Hcond. cbn [mbind outcome_bind]. rewrite not_end_spec by done.
  destruct (Z.eqb_spec p e) as [->|Hne].
  - rewrite from_end. simpl. rewrite Z.add_0_r. by destruct (pc c).
  - destruct (from_step p ltac:(lia)) as (c' & Hc' & ->). rewrite Hc in Hc'. injection Hc' as <-. simpl.
    destruct (pc c); simpl; [|by rewrite Z.add_0_r]. rewrite IH by lia. f_equal.
    destruct (span pc (from (p + 1))). simpl. lia.
Qed.

(** The part after the scanned one. *)
Lemma from_span p : b <= p <= e ->
  let q := p + Z.of_nat (length (fst (span pc (from p)))) in
  p <= q <= e /\ from q = snd (span pc (from p)).
Proof.
  intros Hp q. pose proof (span_app pc (from p)) as Happ. pose proof (from_length p Hp) as Hl.
  rewrite <- Happ, length_app in Hl. split; [lia|]. unfold from at 1.
  set (n := length (fst (span pc (from p)))) in *.
  replace (Z.to_nat q) with (Z.to_nat p + n)%nat by (destruct Htext; lia).
  replace (Z.to_nat (e - q)) with (Z.to_nat (e - p) - n)%nat by lia.
  rewrite <- drop_drop, take_drop_commute.
  replace (n + (Z.to_nat (e - p) - n))%nat with (Z.to_nat (e - p)) by lia.
  change (take (Z.to_nat (e - p)) (drop (Z.to_nat p) mem)) with (from p).
  unfold n. rewrite <- Happ at 2. by rewrite drop_app_length.
Qed.
End Text.

(** ** The fields a client sees *)

Lemma u64_cast z : 0 <= z < 2 ^ 64 -> cast uint64 z = z.
Proof. intros H. apply Z.mod_small. exact H. Qed.

Section Iterate.
Context (mem : list Z) (str_tail : option Z) (b e : Z) (Htext : text mem str_tail b e).
Context (is_sep : Z -> outcome bool) (sep : Z -> bool) (Hsep : forall c, is_sep c = Ok (sep c)).
Context (action : EmptyFieldAction).

Local Notation fromp := (from mem e).
Local Notation nsep := (fun c => negb (sep c)).

Definition fields (l : list Z) : list (list Z) :=
  if decide (action = SKIP_EMPTY_FIELD) then nonempty_fields sep l else all_fields sep l.

Definition at_field (h t : Z) : Prop :=
  b <= h <= e /\ t = h + Z.of_nat (length (fst (span nsep (fromp h))))
  /\ (action = SKIP_EMPTY_FIELD -> match fromp h with c :: _ => sep c = false | [] => True end).

Lemma negate_spec c : negate is_sep c = Ok (nsep c).
Proof. unfold negate. by rewrite Hsep. Qed.

Lemma fuel_ok p : b <= p <= e -> e - p < Z.of_nat (scan_fuel mem).
Proof. destruct Htext as [Ho Hr _ _]. unfold scan_fuel, vec_size in *. lia. Qed.

(** Skipping separators first does not change the nonempty fields. *)
Lemma skip_seps l : nonempty_fields sep (snd (span sep l)) = nonempty_fields sep l.
Proof.
  unfold nonempty_fields. induction l as [|c l IH]; [done|]. simpl. destruct (sep c) eqn:E.
  - destruct (span sep l) eqn:Hs. simpl in *. done.
  - simpl. by rewrite E.
Qed.

Definition start_of (p : Z) : Z :=
  if decide (action = SKIP_EMPTY_FIELD) then p + Z.of_nat (length (fst (span sep (fromp p)))) else p.

Lemma start_spec p : b <= p <= e ->
  (if decide (action = SKIP_EMPTY_FIELD) then scan mem (scan_fuel mem) str_tail is_sep p else Ok p)
  = Ok (start_of p)
  /\ p <= start_of p <= e /\ fields (fromp (start_of p)) = fields (fromp p)
  /\ at_field (start_of p) (start_of p + Z.of_nat (length (fst (span nsep (fromp (start_of p)))))).
Proof.
  intros Hp. unfold start_of, at_field, fields. case_decide as E.
  - rewrite (scan_spec mem str_tail b e Htext is_sep sep Hsep) by (done || by apply fuel_ok).
    destruct (from_span mem str_tail b e Htext sep p Hp) as [Hq Hf]. split; [done|]. split; [done|].
    rewrite Hf. split; [apply skip_seps|]. split; [lia|]. split; [done|]. intros _.
    destruct (snd (span sep (fromp p))) as [|c r] eqn:Es; [done|]. by apply span_stop in Es.
  - split; [done|]. split; [lia|]. split; [done|]. split; [lia|]. split; [done|]. by intros ?.
Qed.

Lemma field_scan h : b <= h <= e ->
  scan mem (scan_fuel mem) str_tail (negate is_sep) h
  = Ok (h + Z.of_nat (length (fst (span nsep (fromp h))))).
Proof.
  intros Hh. apply (scan_spec mem str_tail b e Htext (negate is_sep) nsep negate_spec); [done|].
  by apply fuel_ok.
Qed.

Lemma init_spec : exists h t,
  init_at mem is_sep str_tail action (Some b) = Ok (Some h, Some t) /\ at_field h t
  /\ fields (fromp h) = fields (fromp b).
Proof.
  pose proof (t_order _ _ _ _ Htext) as Ho. destruct (start_spec b ltac:(lia)) as (HE & Hb & Hf & Ha).
  exists (start_of b), (start_of b + Z.of_nat (length (fst (span nsep (fromp (start_of b)))))).
  split; [|done]. unfold init_at. rewrite HE. cbn [mbind outcome_bind]. by rewrite field_scan by lia.
Qed.

(** The field itself. *)
Lemma field_take h t : at_field h t ->
  take (Z.to_nat (cast uint64 (t - h))) (drop (Z.to_nat h) mem) = fst (span nsep (fromp h)).
Proof.
  intros (Hh & -> & _). pose proof Htext as [Ho Hr Hs _].
  destruct (from_span mem str_tail b e Htext nsep h Hh) as [Hq _].
  rewrite u64_cast by lia.
  replace (h + Z.of_nat (length (fst (span nsep (fromp h)))) - h)
    with (Z.of_nat (length (fst (span nsep (fromp h))))) by lia. rewrite Nat2Z.id.
  pose proof (span_app nsep (fromp h)) as Happ. pose proof (from_length mem str_tail b e Htext h Hh) as Hl.
  rewrite <- Happ, length_app in Hl.
  assert (take (length (fst (span nsep (fromp h)))) (fromp h) = fst (span nsep (fromp h))) as HE.
  { rewrite <- Happ at 2. by rewrite take_app_length. }
  etrans; [|exact HE]. generalize dependent (length (fst (span nsep (fromp h)))). intros n.
  unfold from. rewrite take_take. intros. f_equal. lia.
Qed.

Lemma fields_cons l c r : span nsep l = (l, []) \/ snd (span nsep l) = c :: r ->
  l <> [] -> (action = SKIP_EMPTY_FIELD -> fst (span nsep l) <> []) ->
  fields l = fst (span nsep l) :: match snd (span nsep l) with [] => [] | _ :: r => fields r end.
Proof.
  intros Hcase Hne Hskip. unfold fields, nonempty_fields, all_fields. rewrite split_span.
  case_decide as E.
  - cbn [List.filter]. rewrite bool_decide_eq_false_2 by auto. cbn [negb].
    by destruct (snd (span nsep l)).
  - destruct Hcase as [HE|HE].
    + rewrite HE. simpl. by destruct l.
    + rewrite HE. pose proof (split_span sep r) as Hs. destruct (split sep r) as [|f fs]; [done|].
      simpl. by destruct (fst (span nsep l)).
Qed.

Lemma span_cases l : span nsep l = (l, []) \/ exists c r, snd (span nsep l) = c :: r.
Proof.
  pose proof (span_app nsep l) as Happ. destruct (span nsep l) as [f [|c r]]; simpl in *.
  - left. by rewrite app_nil_r in Happ; subst.
  - right. eauto.
Qed.

(** Moving on from a field that is not the end. *)
Lemma next_spec h t : at_field h t -> h < e -> exists h' t',
  next_at mem is_sep str_tail action (Some h) (Some t) = Ok (Some h', Some t') /\ at_field h' t' /\ h < h'
  /\ fields (fromp h) = fst (span nsep (fromp h)) :: fields (fromp h').
Proof.
  intros (Hh & -> & Hskip) Hlt. destruct (from_span mem str_tail b e Htext nsep h Hh) as [Hq Hf].
  set (t := h + Z.of_nat (length (fst (span nsep (fromp h))))) in *.
  destruct (from_step mem str_tail b e Htext h ltac:(lia)) as (c0 & _ & Hc0).
  assert (Hne : fromp h <> []) by (rewrite Hc0; done).
  assert (Hfirst : action = SKIP_EMPTY_FIELD -> fst (span nsep (fromp h)) <> []).
  { intros Ha. specialize (Hskip Ha). rewrite Hc0 in *. simpl. rewrite Hskip. simpl.
    by destruct (span nsep (fromp (h + 1))). }
  unfold next_at. rewrite (not_end_spec mem str_tail b e Htext) by lia. cbn [mbind outcome_bind].
  destruct (span_cases (fromp h)) as [Hs|(c & r & Hs)].
  - assert (fromp t = []) as Ht by (rewrite Hf, Hs; done).
    assert (t = e) as Hte by (pose proof (from_length mem str_tail b e Htext t ltac:(lia)) as Hl;
      rewrite Ht in Hl; simpl in Hl; lia).
    rewrite (proj2 (Z.eqb_eq t e) Hte). cbn [negb mbind outcome_bind]. rewrite field_scan by lia.
    exists t, (t + Z.of_nat (length (fst (span nsep (fromp t))))). split; [done|].
    split; [split; [lia|]; split; [done|]; by rewrite Ht|]. split; [lia|].
    rewrite Ht, (fields_cons (fromp h) 0 []), Hs by auto. unfold fields. by case_decide.
  - assert (t <> e) as Hte by (intros E; rewrite E, from_end, Hs in Hf; done).
    destruct (from_step mem str_tail b e Htext t ltac:(lia)) as (c' & _ & Hc').
    rewrite Hf, Hs in Hc'. injection Hc' as <- Hr.
    rewrite (proj2 (Z.eqb_neq t e) Hte). cbn [negb].
    destruct (start_spec (t + 1) ltac:(lia)) as (HE & Hb & Hfe & Ha). rewrite HE. cbn [mbind outcome_bind].
    rewrite field_scan by lia. eexists _, _. split; [reflexivity|]. split; [done|]. split; [lia|].
    rewrite Hfe, (fields_cons (fromp h) c r), Hs by auto. by rewrite <- Hr.
Qed.

Context {S : Type} (valid : S -> outcome (option Z)) (next : S -> outcome S)
  (field : S -> option Z) (len : S -> Z) (at_pos : Z -> Z -> S -> Prop).
Hypothesis Hvalid : forall h t s, at_pos h t s -> valid s = valid_at mem str_tail (Some h).
Hypothesis Hfield : forall h t s, at_pos h t s -> field s = Some h /\ len s = cast uint64 (t - h).
Hypothesis Hnext : forall h t s h' t', at_pos h t s ->
  next_at mem is_sep str_tail action (Some h) (Some t) = Ok (Some h', Some t') ->
  exists s', next s = Ok s' /\ at_pos h' t' s'.

Lemma collect_spec fuel : forall h t s, at_pos h t s -> at_field h t -> e - h < Z.of_nat fuel ->
  collect mem valid next field len fuel s = Ok (fields (fromp h)).
Proof.
  induction fuel as [|fuel IH]; intros h t s Hs Ha Hf; [pose proof (proj1 Ha); lia|]. cbn [collect].
  rewrite (Hvalid h t s Hs). unfold valid_at. destruct Ha as [Hh Ha'] eqn:Hdup.
  rewrite (not_end_spec mem str_tail b e Htext) by lia. cbn [mbind outcome_bind].
  destruct (Z.eqb_spec h e) as [->|Hne]; cbn [negb].
  - rewrite from_end. unfold fields. by case_decide.
  - destruct (next_spec h t Ha ltac:(lia)) as (h' & t' & HE & Hat & Hlt & Hfs).
    destruct (Hnext h t s h' t' Hs HE) as (s' & -> & Hs'). cbn [mbind outcome_bind].
    rewrite (IH h' t' s' Hs' Hat) by lia. cbn [mbind outcome_bind]. rewrite Hfs. do 2 f_equal.
    unfold field_bytes. destruct (Hfield h t s Hs) as [-> ->]. by apply field_take.
Qed.
End Iterate.

(** ** The two splitters *)

Definition collect_fuel (mem : list Z) : nat := S (S (length mem)).

Definition split_fields (mem : list Z) (s : StringSplitter) : outcome (list (list Z)) :=
  collect mem (Splitter_valid mem) (Splitter_next mem) Splitter_field Splitter_length (collect_fuel mem) s.

Definition multi_fields (mem : list Z) (s : StringMultiSplitter) : outcome (list (list Z)) :=
  collect mem (Multi_valid mem) (Multi_next mem) Multi_field Multi_length (collect_fuel mem) s.

Lemma splitter_collect mem str_tail b e sep action :
  text mem str_tail b e ->
  (s ← StringSplitter_range mem (Some b) str_tail sep action; split_fields mem s)
  = Ok (fields (fun c => sep =? c) action (from mem e b)).
Proof.
  intros Htext. set (psep := fun c => sep =? c).
  destruct (init_spec mem str_tail b e Htext (s_is_sep sep) psep ltac:(done) action) as (h & t & HE & Ha & <-).
  unfold StringSplitter_range. rewrite HE. cbn [mbind outcome_bind].
  apply (collect_spec mem str_tail b e Htext (s_is_sep sep) psep ltac:(done) action _ _ _ _
    (fun h t s => s = mkSplitter (Some h) (Some t) str_tail sep action)) with (t := t); try done.
  - by intros h0 t0 s ->.
  - by intros h0 t0 s ->.
  - intros h0 t0 s h1 t1 -> HE1. unfold Splitter_next. cbn [s_sep s_str_tail s_action s_head s_tail].
    rewrite HE1. cbn [mbind outcome_bind]. by eexists.
  - destruct Ha as [Hh _]. destruct Htext as [Ho Hr _ _]. unfold collect_fuel, vec_size in *. lia.
Qed.

(** The separators before the terminator. *)
Fixpoint in_seps (seps : list Z) (c : Z) : bool :=
  match seps with
  | [] => false
  | p :: rest => if p =? 0 then false else (c =? p) || in_seps rest c
  end.

Lemma is_sep_spec seps c : In 0 seps -> is_sep seps c = Ok (in_seps seps c).
Proof.
  induction seps as [|p seps IH]; [done|]. intros H. simpl. destruct (Z.eqb_spec p 0); [done|].
  destruct (c =? p); [done|]. apply IH. by destruct H.
Qed.

Lemma multi_collect mem str_tail b e seps action :
  text mem str_tail b e -> In 0 seps ->
  (s ← Multi_init mem (Some b) str_tail seps action; multi_fields mem s)
  = Ok (fields (in_seps seps) action (from mem e b)).
Proof.
  intros Htext Hz. pose proof (fun c => is_sep_spec seps c Hz) as Hs.
  destruct (init_spec mem str_tail b e Htext (is_sep seps) (in_seps seps) Hs action) as (h & t & HE & Ha & <-).
  unfold Multi_init. rewrite HE. cbn [mbind outcome_bind].
  apply (collect_spec mem str_tail b e Htext (is_sep seps) (in_seps seps) Hs action _ _ _ _
    (fun h t s => s = mkMulti (Some h) (Some t) str_tail seps action)) with (t := t); try done.
  - by intros h0 t0 s ->.
  - by intros h0 t0 s ->.
  - intros h0 t0 s h1 t1 -> HE1. unfold Multi_next. cbn [m_seps m_str_tail m_action m_head m_tail].
    rewrite HE1. cbn [mbind outcome_bind]. by eexists.
  - destruct Ha as [Hh _]. destruct Htext as [Ho Hr _ _]. unfold collect_fuel, vec_size in *. lia.
Qed.

(** A field without separators that ends with the block: the scan reads past
    the end before it tests for it. *)
Lemma scan_overruns mem cond p fuel :
  0 <= p <= vec_size mem ->
  (forall i c, p <= i < vec_size mem -> mem !! Z.to_nat i = Some c -> cond c = Ok true) ->
  vec_size mem - p < Z.of_nat fuel ->
  scan mem fuel (Some (vec_size mem)) cond p = Fault OutOfRange.
Proof.
  revert p. induction fuel as [|fuel IH]; intros p Hp Hc Hf; [lia|]. cbn [scan].
  destruct (decide (p = vec_size mem)) as [->|Hne].
  - by rewrite vec_at_out_of_range by lia.
  - destruct (vec_at_in_range mem p ltac:(lia)) as (c & Hl & ->). cbn [mbind outcome_bind].
    rewrite (Hc p c) by (done || lia). cbn [mbind outcome_bind not_end].
    rewrite (proj2 (Z.eqb_neq _ _) Hne). cbn [negb]. apply IH; [lia| |lia].
    intros i c' Hi. apply Hc. lia.
Qed.

(** ** Keys and values *)

Section Pairs.
Context (mem : list Z) (sp_find : list Z -> Z -> option Z) (sp_substr : list Z -> Z -> option Z -> list Z).
Hypothesis find_some : forall l c i, sp_find l c = Some i ->
  0 <= i /\ l !! Z.to_nat i = Some c /\ c ∉ take (Z.to_nat i) l.
Hypothesis find_none : forall l c, sp_find l c = None -> c ∉ l.
Hypothesis substr_spec : forall l pos n, 0 <= pos ->
  sp_substr l pos n = match n with
                      | Some k => take (Z.to_nat k) (drop (Z.to_nat pos) l)
                      | None => drop (Z.to_nat pos) l
                      end.

Lemma pairs_spec sp d :
  let s := UpdateDelimiterPosition mem sp_find sp d in
  let f := key_and_value mem sp in
  d ∉ Pairs_key mem sp_substr s
  /\ ((d ∈ f /\ f = Pairs_key mem sp_substr s ++ d :: Pairs_value mem sp_substr s)
      \/ (d ∉ f /\ f = Pairs_key mem sp_substr s /\ Pairs_value mem sp_substr s = [])).
Proof.
  intros s f. unfold Pairs_key, Pairs_value, s, UpdateDelimiterPosition. cbn [kv_sp kv_delim_pos]. fold f.
  rewrite (substr_spec f 0) by lia. rewrite drop_0.
  destruct (sp_find f d) as [i|] eqn:E.
  - destruct (find_some f d i E) as (Hi & Hl & Hn). rewrite substr_spec by lia.
    split; [done|]. left. split; [by eapply list_elem_of_lookup_2|].
    replace (Z.to_nat (i + 1)) with (S (Z.to_nat i)) by lia. by rewrite (take_drop_middle f).
  - pose proof (find_none f d E) as Hn. rewrite substr_spec by lia. rewrite Nat2Z.id, firstn_all.
    split; [done|]. right. split; [done|]. split; [done|]. apply drop_ge. lia.
Qed.
End Pairs.

(** ** Numbers *)

Definition value_of (ds : list Z) : Z := fold_left (fun acc c => acc * 10 + (c - 48)) ds 0.

Lemma digits_spec mem ds : forall p acc fuel c,
  0 <= p -> take (length ds) (drop (Z.to_nat p) mem) = ds -> Forall (fun c => is_digit c = true) ds ->
  mem !! (Z.to_nat p + length ds)%nat = Some c -> is_digit c = false -> (length ds < fuel)%nat ->
  digits mem fuel p acc = Ok (fold_left (fun acc c => acc * 10 + (c - 48)) ds acc, p + Z.of_nat (length ds)).
Proof.
  induction ds as [|d ds IH]; intros p acc fuel c Hp Htake Hall Hc Hnd Hf;
    (destruct fuel as [|fuel]; [simpl in Hf; lia|]); cbn [digits].
  - simpl in Hc. rewrite Nat.add_0_r in Hc. rewrite (vec_at_some mem p c) by done. simpl. rewrite Hnd.
    by rewrite Z.add_0_r.
  - assert (mem !! Z.to_nat p = Some d) as Hd.
    { pose proof (f_equal (fun l => l !! 0%nat) Htake) as H0. simpl in H0.
      rewrite <- H0. destruct (drop (Z.to_nat p) mem) eqn:E; simpl in *; [done|].
      rewrite <- (Nat.add_0_r (Z.to_nat p)), <- lookup_drop, E. done. }
    rewrite (vec_at_some mem p d) by done. apply Forall_cons in Hall as [Hdd Hall]. simpl. rewrite Hdd.
    rewrite (drop_S mem d) in Htake by done. simpl in Htake. injection Htake as Htake.
    rewrite (IH (p + 1) _ fuel c); try done.
    + f_equal. f_equal. lia.
    + lia.
    + by replace (Z.to_nat (p + 1)) with (S (Z.to_nat p)) by lia.
    + simpl in Hc. rewrite <- Hc. f_equal. lia.
    + simpl in Hf. lia.
Qed.

Lemma number_decimal mem h ds c :
  0 <= h -> take (length ds) (drop (Z.to_nat h) mem) = ds -> ds <> [] ->
  Forall (fun c => is_digit c = true) ds -> mem !! (Z.to_nat h + length ds)%nat = Some c ->
  is_digit c = false -> number mem h = Ok (false, value_of ds, h + Z.of_nat (length ds)).
Proof.
  intros Hh Htake Hne Hall Hc Hnd. destruct ds as [|d ds]; [done|].
  assert (mem !! Z.to_nat h = Some d) as Hd.
  { pose proof (f_equal (fun l => l !! 0%nat) Htake) as H0. simpl in H0.
    rewrite <- H0. destruct (drop (Z.to_nat h) mem) eqn:E; simpl in *; [done|].
    rewrite <- (Nat.add_0_r (Z.to_nat h)), <- lookup_drop, E. done. }
  assert (Hdd : is_digit d = true) by (by apply Forall_cons in Hall as [? _]).
  assert (48 <= d <= 57) as Hr.
  { unfold is_digit in Hdd. apply andb_prop in Hdd as [?%Z.leb_le ?%Z.leb_le]. lia. }
  unfold number, scan_fuel. cbn [skip_blanks]. rewrite (vec_at_some mem h d) by done. cbn [mbind outcome_bind].
  assert (is_blank d = false) as ->.
  { unfold is_blank. destruct (Z.eqb_spec d 32), (Z.leb_spec 9 d), (Z.leb_spec d 13); simpl; done || lia. }
  cbn [mbind outcome_bind]. rewrite (vec_at_some mem h d) by done. cbn [mbind outcome_bind].
  destruct (Z.eqb_spec d 45); [lia|]. destruct (Z.eqb_spec d 43); [lia|]. cbn [orb].
  apply lookup_lt_Some in Hc as Hlen. rewrite (digits_spec mem (d :: ds) h 0 _ c) by (done || lia).
  cbn [mbind outcome_bind]. destruct (Z.eqb_spec (h + Z.of_nat (length (d :: ds))) h); [simpl in *; lia|done].
Qed.

Lemma value_nonneg ds acc : 0 <= acc -> Forall (fun c => is_digit c = true) ds ->
  0 <= fold_left (fun acc c => acc * 10 + (c - 48)) ds acc.
Proof.
  revert acc. induction ds as [|d ds IH]; intros acc Ha Hall; [done|]. simpl.
  apply Forall_cons in Hall as [Hd Hall]. apply IH; [|done]. unfold is_digit in Hd.
  apply andb_prop in Hd as [?%Z.leb_le ?%Z.leb_le]. lia.
Qed.

(** An empty field whose next byte starts no number. *)
Lemma number_none mem h c :
  0 <= h -> mem !! Z.to_nat h = Some c -> is_blank c = false -> is_digit c = false ->
  c <> 45 -> c <> 43 -> number mem h = Ok (false, 0, h).
Proof.
  intros Hh Hc Hb Hd Hm Hp. unfold number, scan_fuel. cbn [skip_blanks].
  rewrite (vec_at_some mem h c) by done. cbn [mbind outcome_bind]. rewrite Hb. cbn [mbind outcome_bind].
  rewrite (vec_at_some mem h c) by done. cbn [mbind outcome_bind].
  rewrite (proj2 (Z.eqb_neq _ _) Hm), (proj2 (Z.eqb_neq _ _) Hp). cbn [orb digits].
  rewrite (vec_at_some mem h c) by done. cbn [mbind outcome_bind]. rewrite Hd. cbn [mbind outcome_bind].
  by rewrite Z.eqb_refl.
Qed.

(** ** Main statements *)

(** C21. On a terminated text, and on a text given by two pointers when the byte
    at the end pointer can be read, the client's loop over either splitter ends
    and sees exactly the fields of the text: its nonempty fields when empty ones
    are skipped; otherwise all fields, except that an empty field at the very
    end is not one.  The header does not ask for that byte; without it the loop
    reads outside the text, see [splitter_reads_past_end]. *)
Theorem splitters_enumerate_fields mem str_tail b e sep seps action :
  text mem str_tail b e -> In 0 seps ->
  (s ← StringSplitter_range mem (Some b) str_tail sep action; split_fields mem s)
  = Ok (fields (fun c => sep =? c) action (from mem e b))
  /\ (s ← Multi_init mem (Some b) str_tail seps action; multi_fields mem s)
     = Ok (fields (in_seps seps) action (from mem e b)).
Proof. intros Ht Hz. split; [by apply splitter_collect|by apply multi_collect]. Qed.

(** The text "a,,b," with separators ",;". *)
Lemma splitters_enumerate_fields_witness :
  (s ← StringSplitter_range [97; 44; 44; 98; 44; 0] (Some 0) None 44 ALLOW_EMPTY_FIELD;
   split_fields [97; 44; 44; 98; 44; 0] s) = Ok [[97]; []; [98]]
  /\ (s ← Multi_init [97; 44; 44; 98; 44; 0] (Some 0) None [44; 59; 0] ALLOW_EMPTY_FIELD;
      multi_fields [97; 44; 44; 98; 44; 0] s) = Ok [[97]; []; [98]].
Proof.
  apply (splitters_enumerate_fields [97; 44; 44; 98; 44; 0] None 0 5 44 [44; 59; 0] ALLOW_EMPTY_FIELD);
    [|simpl; tauto].
  constructor; [lia|reflexivity|vm_compute; discriminate|]. split; [reflexivity|].
  intros i Hi. assert (i = 0 \/ i = 1 \/ i = 2 \/ i = 3 \/ i = 4) as [->|[->|[->|[->| ->]]]] by lia; discriminate.
Defined.

(** A text given by two pointers whose last field ends with the block is
    read one byte past its end: the loops test the byte before the position. *)
Theorem splitter_reads_past_end mem b sep action :
  0 <= b < vec_size mem ->
  (forall i, b <= i < vec_size mem -> mem !! Z.to_nat i <> Some sep) ->
  StringSplitter_range mem (Some b) (Some (vec_size mem)) sep action = Fault OutOfRange.
Proof.
  intros Hb Hn. unfold StringSplitter_range, init_at.
  assert ((if decide (action = SKIP_EMPTY_FIELD)
           then scan mem (scan_fuel mem) (Some (vec_size mem)) (s_is_sep sep) b else Ok b) = Ok b) as ->.
  { case_decide; [|done]. unfold scan_fuel. cbn [scan].
    destruct (vec_at_in_range mem b ltac:(lia)) as (c & Hc & ->). cbn [mbind outcome_bind s_is_sep].
    destruct (Z.eqb_spec sep c) as [->|]; [by destruct (Hn b ltac:(lia))|done]. }
  cbn [mbind outcome_bind]. rewrite scan_overruns; [done|lia| |unfold scan_fuel, vec_size; lia].
  intros i c Hi Hc. unfold negate, s_is_sep. cbn [mbind outcome_bind].
  destruct (Z.eqb_spec sep c) as [->|]; [by destruct (Hn i Hi)|done].
Qed.

Lemma splitter_reads_past_end_witness :
  StringSplitter_range [97; 98] (Some 0) (Some 2) 44 SKIP_EMPTY_FIELD = Fault OutOfRange.
Proof.
  apply (splitter_reads_past_end [97; 98] 0 44 SKIP_EMPTY_FIELD); [split; reflexivity || discriminate|].
  intros i Hi. change (vec_size [97; 98]) with 2 in Hi.
  assert (i = 0 \/ i = 1) as [->| ->] by lia; discriminate.
Defined.

(** Key and value of a pair: the key holds no delimiter, and the pair is the
    key, the delimiter and the value, or the key alone with an empty value. *)
Theorem pairs_decompose mem sp_find sp_substr sp d :
  (forall l c i, sp_find l c = Some i -> 0 <= i /\ l !! Z.to_nat i = Some c /\ c ∉ take (Z.to_nat i) l) ->
  (forall l c, sp_find l c = None -> c ∉ l) ->
  (forall l pos n, 0 <= pos -> sp_substr l pos n = match n with
     | Some k => take (Z.to_nat k) (drop (Z.to_nat pos) l)
     | None => drop (Z.to_nat pos) l end) ->
  let s := UpdateDelimiterPosition mem sp_find sp d in
  let f := key_and_value mem sp in
  d ∉ Pairs_key mem sp_substr s
  /\ ((d ∈ f /\ f = Pairs_key mem sp_substr s ++ d :: Pairs_value mem sp_substr s)
      \/ (d ∉ f /\ f = Pairs_key mem sp_substr s /\ Pairs_value mem sp_substr s = [])).
Proof. intros H1 H2 H3. exact (pairs_spec mem sp_find sp_substr H1 H2 H3 sp d). Qed.

(** A search and a cut that behave as documented. *)
Fixpoint find_char (l : list Z) (c : Z) : option Z :=
  match l with
  | [] => None
  | x :: l => if decide (x = c) then Some 0 else Z.succ <$> find_char l c
  end.

Definition cut (l : list Z) (pos : Z) (n : option Z) : list Z :=
  match n with
  | Some k => take (Z.to_nat k) (drop (Z.to_nat pos) l)
  | None => drop (Z.to_nat pos) l
  end.

Lemma find_char_some l c : forall i, find_char l c = Some i ->
  0 <= i /\ l !! Z.to_nat i = Some c /\ c ∉ take (Z.to_nat i) l.
Proof.
  induction l as [|x l IH]; intros i; [done|]. simpl. case_decide as E.
  - intros [= <-]. subst. split; [done|]. split; [done|]. simpl. apply not_elem_of_nil.
  - destruct (find_char l c) as [j|] eqn:Hj; [|done]. intros [= <-]. destruct (IH j eq_refl) as (H0 & Hl & Hn).
    rewrite Z2Nat.inj_succ by done. simpl. split; [lia|]. split; [done|].
    rewrite not_elem_of_cons. split; [congruence|done].
Qed.

Lemma find_char_none l c : find_char l c = None -> c ∉ l.
Proof.
  induction l as [|x l IH]; [intros _; apply not_elem_of_nil|]. simpl. case_decide as E; [done|].
  destruct (find_char l c); [done|]. intros _. rewrite not_elem_of_cons. split; [congruence|by apply IH].
Qed.

(** "k=v=w" cut at "=". *)
Lemma pairs_decompose_witness :
  let s := UpdateDelimiterPosition [107; 61; 118; 61; 119; 0] find_char
             (mkSplitter (Some 0) (Some 5) None 38 SKIP_EMPTY_FIELD) 61 in
  61 ∉ Pairs_key [107; 61; 118; 61; 119; 0] cut s
  /\ ((61 ∈ [107; 61; 118; 61; 119] /\ [107; 61; 118; 61; 119] = [107] ++ 61 :: [118; 61; 119])
      \/ (61 ∉ [107; 61; 118; 61; 119] /\ [107; 61; 118; 61; 119] = [107] /\ [118; 61; 119] = [])).
Proof.
  apply (pairs_decompose [107; 61; 118; 61; 119; 0] find_char cut
    (mkSplitter (Some 0) (Some 5) None 38 SKIP_EMPTY_FIELD) 61).
  - intros l c i. apply find_char_some.
  - exact find_char_none.
  - intros l pos n _. reflexivity.
Defined.

(** A field of decimal digits followed by anything but a digit converts to
    its value when that fits, and to the code -1 with the output untouched when
    it does not, for [to_int] and [to_uint8] alike. *)
Theorem decimal_fields_convert mem s h t ds c pv :
  s_head s = Some h -> s_tail s = Some t -> 0 <= h -> t = h + Z.of_nat (length ds) ->
  take (length ds) (drop (Z.to_nat h) mem) = ds -> ds <> [] -> Forall (fun c => is_digit c = true) ds ->
  mem !! Z.to_nat t = Some c -> is_digit c = false ->
  to_int mem s pv = Ok (if value_of ds <=? 2 ^ 31 - 1 then (0, value_of ds) else (-1, pv))
  /\ to_uint8 mem s pv = Ok (if value_of ds <=? 255 then (0, value_of ds) else (-1, pv)).
Proof.
  intros Hh Ht Hpos -> Htake Hne Hall Hc Hnd. pose proof (value_nonneg ds 0 ltac:(lia) Hall) as Hv.
  fold (value_of ds) in Hv. assert (number mem h = Ok (false, value_of ds, h + Z.of_nat (length ds))) as Hnum.
  { apply (number_decimal mem h ds c); try done. rewrite <- Hc. f_equal. lia. }
  unfold to_int, to_uint8, on_field. rewrite Hh, Ht.
  unfold signed_at, unsigned_at, long_at, ulong_at, strtol, strtoul. rewrite Hnum. cbn [mbind outcome_bind].
  replace (h + (h + Z.of_nat (length ds) - h)) with (h + Z.of_nat (length ds)) by lia.
  rewrite Z.eqb_refl. change (0 =? 0) with true. cbn [andb].
  change (imax int32) with (2 ^ 31 - 1). change (imin int32) with (- 2 ^ 31).
  change (imax int64) with (2 ^ 63 - 1). change (imin int64) with (- 2 ^ 63).
  change (imax uint8) with 255. change (imax uint64) with (2 ^ 64 - 1). split; f_equal.
  - destruct (Z.leb_spec (value_of ds) (2 ^ 31 - 1)).
    + rewrite (Z.min_l (value_of ds)), Z.max_r by lia.
      rewrite (proj2 (Z.leb_le _ _)), (proj2 (Z.leb_le _ _)) by lia. cbn [andb].
      rewrite cast_id; [done|exact int32_ok|apply int32_range; lia].
    + rewrite (proj2 (Z.leb_gt (Z.max _ _) _)) by lia. by rewrite andb_false_r.
  - destruct (Z.ltb_spec (2 ^ 64 - 1) (value_of ds)), (Z.leb_spec (value_of ds) 255); try lia.
    + done.
    + rewrite u64_cast by lia. rewrite (proj2 (Z.leb_le _ _)) by lia. f_equal.
      apply Z.mod_small. change (0 <= value_of ds < 256). lia.
    + rewrite u64_cast by lia. by rewrite (proj2 (Z.leb_gt _ _)) by lia.
Qed.

Lemma decimal_fields_convert_witness :
  to_int [50; 57; 57; 44; 0] (mkSplitter (Some 0) (Some 3) None 44 SKIP_EMPTY_FIELD) 7 = Ok (0, 299)
  /\ to_uint8 [50; 57; 57; 44; 0] (mkSplitter (Some 0) (Some 3) None 44 SKIP_EMPTY_FIELD) 7 = Ok (-1, 7).
Proof.
  apply (decimal_fields_convert [50; 57; 57; 44; 0] (mkSplitter (Some 0) (Some 3) None 44 SKIP_EMPTY_FIELD)
    0 3 [50; 57; 57] 44 7); first [reflexivity | discriminate | repeat constructor].
Defined.

(** An empty field converts to zero with the success code: no digit is
    needed, only that the conversion stops where the field does. *)
Theorem empty_field_converts mem s h c pv :
  s_head s = Some h -> s_tail s = Some h -> 0 <= h -> mem !! Z.to_nat h = Some c ->
  is_blank c = false -> is_digit c = false -> c <> 45 -> c <> 43 ->
  to_long mem s = Ok (0, 0) /\ to_ulong mem s = Ok (0, 0) /\ to_int mem s pv = Ok (0, 0)
  /\ to_uint8 mem s pv = Ok (0, 0).
Proof.
  intros Hh Ht Hpos Hc Hb Hd Hm Hp. pose proof (number_none mem h c Hpos Hc Hb Hd Hm Hp) as Hnum.
  unfold to_long, to_ulong, to_int, to_uint8, on_field. rewrite Hh, Ht.
  unfold signed_at, unsigned_at, long_at, ulong_at, strtol, strtoul. rewrite Hnum. cbn [mbind outcome_bind].
  replace (h + (h - h)) with h by lia. rewrite Z.eqb_refl. by repeat split.
Qed.

(** The first field of ",5". *)
Lemma empty_field_converts_witness :
  let s := mkSplitter (Some 0) (Some 0) None 44 ALLOW_EMPTY_FIELD in
  to_long [44; 53; 0] s = Ok (0, 0) /\ to_ulong [44; 53; 0] s = Ok (0, 0)
  /\ to_int [44; 53; 0] s 9 = Ok (0, 0) /\ to_uint8 [44; 53; 0] s 9 = Ok (0, 0).
Proof.
  apply (empty_field_converts [44; 53; 0] (mkSplitter (Some 0) (Some 0) None 44 ALLOW_EMPTY_FIELD) 0 44 9);
    first [reflexivity | discriminate].
Defined.

(** Negative numbers convert to unsigned ones: "-18446744073709551615" to 1,
    and a number past [long] to its maximum, both with the success code. *)
Lemma conversions_wrap :
  let minus := [45; 49; 56; 52; 52; 54; 55; 52; 52; 48; 55; 51; 55; 48; 57; 53; 53; 49; 54; 49; 53; 0] in
  to_uint8 minus (mkSplitter (Some 0) (Some 21) None 44 SKIP_EMPTY_FIELD) 9 = Ok (0, 1)
  /\ to_long (drop 1 minus) (mkSplitter (Some 0) (Some 20) None 44 SKIP_EMPTY_FIELD) = Ok (0, 2 ^ 63 - 1).
Proof. vm_compute. auto. Qed.
