(* ===== verification/FlatMap.v ===== *)
(** * The hash map (libsh/butil/containers/flat_map.h, flat_map_inl.h)

    [FlatMap] keeps an array of buckets, each with one element in place and a
    chain of further nodes.  The key type, the hash, the equality test, the
    default value and the flag [_Sparse] are template arguments, here
    arguments of the section; [alloc] says for which numbers of buckets the
    allocator succeeds, [talloc] the same for thumbnails, [nodes] whether the
    pool has nodes to give, and [raw] gives the words of a fresh thumbnail,
    which nobody initialised.  A table that cannot be allocated is logged as
    FATAL, which ends the program; constructing a node at the null pointer of
    an empty pool is a fault.  An address is a bucket and a depth in its chain.
    Other logging is left out. *)

From Stdlib Require Import ZArith Lia.
From stdpp Require Import base list.
From S2P Require Import Prelude Numerics BitArray.

Open Scope Z_scope.

(** ** Sizes *)

Definition prime_list : list Z :=
  [29; 53; 97; 193; 389; 769; 1543; 3079; 6151; 12289; 24593; 49157; 98317; 196613; 393241; 786433;
   1572869; 3145739; 6291469; 12582917; 25165843; 50331653; 100663319; 201326611; 402653189;
   805306457; 1610612741; 3221225473; 4294967291].

Fixpoint next_prime_in (primes : list Z) (nbucket : Z) : Z :=
  match primes with
  | [] => nbucket
  | p :: rest => if nbucket <=? p then cast uint32 p else next_prime_in rest nbucket
  end.

Definition find_next_prime (nbucket : Z) : Z := next_prime_in prime_list nbucket.

Definition find_power2 (b : Z) : Z :=
  let b := w64 (b - 1) in
  let b := Z.lor b (Z.shiftr b 1) in
  let b := Z.lor b (Z.shiftr b 2) in
  let b := Z.lor b (Z.shiftr b 4) in
  let b := Z.lor b (Z.shiftr b 8) in
  let b := Z.lor b (Z.shiftr b 16) in
  let b := Z.lor b (Z.shiftr b 32) in
  w64 (b + 1).

(** The configuration without [FLAT_MAP_ROUND_BUCKET_BY_USE_NEXT_PRIME]. *)
Definition flatmap_round (nbucket : Z) : Z := if nbucket <=? 8 then 8 else find_power2 nbucket.

Definition flatmap_mod (hash_code nbucket : Z) : Z := Z.land hash_code (w64 (nbucket - 1)).

Definition is_too_crowded (size nbucket load_factor : Z) : bool :=
  w64 (nbucket * load_factor) <=? w64 (size * 100).

(** ** Data *)

(** [next] of an invalid bucket is the address -1; the extra bucket at the end
    has a null [next] and no element. *)
Inductive Bucket (K T : Type) : Type :=
| Invalid
| Sentinel
| Node (element : K * T) (next : list (K * T)).
Arguments Invalid {K T}.
Arguments Sentinel {K T}.
Arguments Node {K T}.

Record FlatMap (K T : Type) : Type := mkMap {
  fm_size : Z;
  fm_nbucket : Z;
  fm_buckets : option (list (Bucket K T));
  fm_thumbnail : option (list Z);
  fm_load_factor : Z
}.
Arguments mkMap {K T}.
Arguments fm_size {K T}.
Arguments fm_nbucket {K T}.
Arguments fm_buckets {K T}.
Arguments fm_thumbnail {K T}.
Arguments fm_load_factor {K T}.

Record NewBucketsInfo (K T : Type) : Type := mkInfo {
  nb_buckets : option (list (Bucket K T));
  nb_thumbnail : option (list Z);
  nb_nbucket : Z
}.
Arguments mkInfo {K T}.
Arguments nb_buckets {K T}.
Arguments nb_thumbnail {K T}.
Arguments nb_nbucket {K T}.

Definition addr : Type := Z * nat.

Section FlatMap.
Context {K T : Type} (hashfn : K -> Z) (eql : K -> K -> bool) (dflt : T) (Sparse : bool).
Context (alloc talloc : Z -> bool) (nodes : bool) (raw : nat -> list Z).

Definition is_valid (b : Bucket K T) : bool :=
  match b with Invalid => false | _ => true end.

(** The elements of a bucket, in chain order. *)
Definition chain (b : Bucket K T) : list (K * T) :=
  match b with Node e next => e :: next | _ => [] end.

Definition of_chain (l : list (K * T)) : Bucket K T :=
  match l with [] => Invalid | e :: next => Node e next end.

Definition FlatMap_new : FlatMap K T := mkMap 0 0 None None 0.

Definition map_initialized (m : FlatMap K T) : bool :=
  match fm_buckets m with Some _ => true | None => false end.
Definition map_empty (m : FlatMap K T) : bool := fm_size m =? 0.
Definition bucket_count (m : FlatMap K T) : Z := fm_nbucket m.
Definition load_factor (m : FlatMap K T) : Z := fm_load_factor m.

Definition crowded (m : FlatMap K T) (size : Z) : bool :=
  is_too_crowded size (fm_nbucket m) (fm_load_factor m).

(** Reading and writing [_buckets[i]] and the thumbnail. *)
Definition bucket_at (m : FlatMap K T) (i : Z) : outcome (Bucket K T) :=
  match fm_buckets m with
  | Some bs => vec_at bs i
  | None => Fault OutOfRange
  end.

Definition set_bucket (m : FlatMap K T) (i : Z) (b : Bucket K T) : outcome (FlatMap K T) :=
  _ ← bucket_at m i;
  Ok (mkMap (fm_size m) (fm_nbucket m) ((fun bs => <[Z.to_nat i := b]> bs) <$> fm_buckets m)
        (fm_thumbnail m) (fm_load_factor m)).

Definition set_size (m : FlatMap K T) (n : Z) : FlatMap K T :=
  mkMap (w64 n) (fm_nbucket m) (fm_buckets m) (fm_thumbnail m) (fm_load_factor m).

Definition on_thumbnail (f : list Z -> outcome (list Z)) (m : FlatMap K T) : outcome (FlatMap K T) :=
  if Sparse then
    match fm_thumbnail m with
    | Some t =>
        t ← f t; Ok (mkMap (fm_size m) (fm_nbucket m) (fm_buckets m) (Some t) (fm_load_factor m))
    | None => Fault OutOfRange
    end
  else Ok m.

(** ** Allocation *)

Definition init_buckets_and_thumbnail (thumbnail : option (list Z)) (nbucket : Z)
    : outcome (list (Bucket K T) * option (list Z)) :=
  let buckets := replicate (Z.to_nat nbucket) Invalid ++ [Sentinel] in
  if Sparse then
    match thumbnail with
    | Some t => t ← bit_array_clear t nbucket; Ok (buckets, Some t)
    | None => Fault OutOfRange
    end
  else Ok (buckets, thumbnail).

(** The do-while loop rounds again while the table is too crowded. *)
Fixpoint round_loop (fuel : nat) (size load_factor new_nbucket : Z) : outcome Z :=
  match fuel with
  | O => Diverge
  | S fuel =>
      let n := flatmap_round new_nbucket in
      if is_too_crowded size n load_factor then round_loop fuel size load_factor n else Ok n
  end.

(** [LOG(FATAL)] does not return, so the empty results after it are never seen. *)
Definition new_buckets_and_thumbnail (m : FlatMap K T) (size new_nbucket : Z)
    : outcome (NewBucketsInfo K T) :=
  n ← round_loop 64 size (fm_load_factor m) new_nbucket;
  if alloc (n + 1) then
    if Sparse && negb (talloc n) then Fault Terminated
    else
      let thumbnail :=
        if Sparse then (fun bytes => raw (Z.to_nat (bytes / 8))) <$> bit_array_malloc n else None in
      '(bs, t) ← init_buckets_and_thumbnail thumbnail n;
      Ok (mkInfo (Some bs) t n)
  else Fault Terminated.

(** The checks on a new table, the same in [init] and in the assignment. *)
Definition table_missing (info : NewBucketsInfo K T) : bool :=
  (nb_nbucket info =? 0)
  || match nb_buckets info with Some _ => false | None => true end
  || (Sparse && match nb_thumbnail info with Some _ => false | None => true end).

Definition map_init (m : FlatMap K T) (nbucket lf : Z) : outcome (Z * FlatMap K T) :=
  if map_initialized m then Ok (-1, m)
  else if nbucket =? 0 then Ok (-1, m)
  else if (lf <? 10) || (100 <? lf) then Ok (-1, m)
  else
    let m := mkMap 0 (fm_nbucket m) (fm_buckets m) (fm_thumbnail m) lf in
    info ← new_buckets_and_thumbnail m 0 nbucket;
    if table_missing info then Ok (-1, m)
    else
      let m := mkMap (fm_size m) (nb_nbucket info) (nb_buckets info)
                 (if Sparse then nb_thumbnail info else fm_thumbnail m) lf in
      m ← on_thumbnail (fun t => bit_array_clear t (fm_nbucket m)) m;
      Ok (0, m).

(** ** Iterators

    The position of the node and its entry; a null iterator is [None]. *)
Record Iter : Type := mkIter { it_entry : Z; it_depth : nat }.

#[local] Instance Iter_eq_dec : EqDecision Iter.
Proof. solve_decision. Defined.

Fixpoint find_valid (fuel : nat) (m : FlatMap K T) (entry : Z) : outcome Z :=
  match fuel with
  | O => Diverge
  | S fuel =>
      b ← bucket_at m entry;
      if is_valid b then Ok entry else find_valid fuel m (entry + 1)
  end.

(** The search of the sparse iterator, through the thumbnail. *)
Definition find_sparse (m : FlatMap K T) (pos : Z) : outcome Z :=
  b ← bucket_at m pos;
  if is_valid b then Ok pos
  else match fm_thumbnail m with
       | Some t => bit_array_first1 t (w64 (pos + 1)) (fm_nbucket m)
       | None => Fault OutOfRange
       end.

Definition find_and_set_valid_node (m : FlatMap K T) (pos : Z) : outcome Iter :=
  e ← (if Sparse then find_sparse m pos else find_valid (S (S (Z.to_nat (fm_nbucket m)))) m pos);
  Ok (mkIter e 0).

Definition iterator_at (m : FlatMap K T) (pos : Z) : outcome (option Iter) :=
  if map_initialized m then it ← find_and_set_valid_node m pos; Ok (Some it) else Ok None.

Definition map_begin (m : FlatMap K T) : outcome (option Iter) := iterator_at m 0.
Definition map_end (m : FlatMap K T) : outcome (option Iter) := iterator_at m (fm_nbucket m).

(** [++it]; the depth of the last node of a chain has no successor. *)
Definition iter_next (m : FlatMap K T) (it : Iter) : outcome Iter :=
  b ← bucket_at m (it_entry it);
  match chain b !! S (it_depth it) with
  | Some _ => Ok (mkIter (it_entry it) (S (it_depth it)))
  | None => find_and_set_valid_node m (it_entry it + 1)
  end.

Definition iter_deref (m : FlatMap K T) (it : Iter) : outcome (K * T) :=
  b ← bucket_at m (it_entry it);
  match chain b !! it_depth it with
  | Some e => Ok e
  | None => Fault Uninitialised
  end.

(** [for (it = begin(); it != end(); ++it) s = body( *it, s)]. *)
Fixpoint traverse {S : Type} (fuel : nat) (m : FlatMap K T) (body : K * T -> S -> outcome S)
    (it : option Iter) (s : S) : outcome S :=
  match fuel with
  | O => Diverge
  | Datatypes.S fuel =>
      last ← map_end m;
      if decide (it = last) then Ok s
      else match it with
           | Some i =>
               e ← iter_deref m i;
               s ← body e s;
               i ← iter_next m i;
               traverse fuel m body (Some i) s
           | None => Fault OutOfRange
           end
  end.

Definition for_each {S : Type} (m : FlatMap K T) (body : K * T -> S -> outcome S) (s : S) : outcome S :=
  it ← map_begin m; traverse (Datatypes.S (Z.to_nat (fm_size m))) m body it s.

(** ** Access *)

Definition read (m : FlatMap K T) (a : addr) : outcome T :=
  b ← bucket_at m (fst a);
  match chain b !! snd a with
  | Some e => Ok (snd e)
  | None => Fault Uninitialised
  end.

Definition write (m : FlatMap K T) (a : addr) (v : T) : outcome (FlatMap K T) :=
  b ← bucket_at m (fst a);
  match chain b !! snd a with
  | Some e => set_bucket m (fst a) (of_chain (<[snd a := (fst e, v)]> (chain b)))
  | None => Fault Uninitialised
  end.

(** The depth of the first node whose key equals the argument. *)
Fixpoint find_node (l : list (K * T)) (key : K) : option nat :=
  match l with
  | [] => None
  | e :: rest => if eql (fst e) key then Some O else S <$> find_node rest key
  end.

Definition index_of (m : FlatMap K T) (key : K) : Z := flatmap_mod (hashfn key) (fm_nbucket m).

Definition seek (m : FlatMap K T) (key : K) : outcome (option addr) :=
  if negb (map_initialized m) then Ok None
  else
    first ← bucket_at m (index_of m key);
    match first with
    | Invalid => Ok None
    | Sentinel => Fault Uninitialised
    | Node e next =>
        if eql (fst e) key then Ok (Some (index_of m key, O))
        else Ok ((fun d => (index_of m key, S d)) <$> find_node next key)
    end.

Fixpoint nodes_with (l : list (K * T)) (key : K) (d : nat) : list nat :=
  match l with
  | [] => []
  | e :: rest => if eql (fst e) key then d :: nodes_with rest key (S d) else nodes_with rest key (S d)
  end.

Definition seek_all (m : FlatMap K T) (key : K) : outcome (list addr) :=
  if negb (map_initialized m) then Ok []
  else
    first ← bucket_at m (index_of m key);
    match first with
    | Invalid => Ok []
    | Sentinel => Fault Uninitialised
    | Node e next => Ok ((fun d => (index_of m key, d)) <$> nodes_with (e :: next) key 0)
    end.

(** [resize], given the insertion [put] that it calls on the new table. *)
Definition resize_with (put : FlatMap K T -> K -> outcome (addr * FlatMap K T)) (m : FlatMap K T)
    (nbucket2 : Z) : outcome (bool * FlatMap K T) :=
  let nbucket2 := flatmap_round nbucket2 in
  if fm_nbucket m =? nbucket2 then Ok (false, m)
  else
    '(code, new_map) ← map_init FlatMap_new nbucket2 (fm_load_factor m);
    if negb (code =? 0) then Ok (false, m)
    else
      new_map ← for_each m (fun e new_map =>
                  '(a, new_map) ← put new_map (fst e); write new_map a (snd e)) new_map;
      Ok (true, new_map).

(** The first branch of both forms of [operator[]]. *)
Definition fill_bucket (m : FlatMap K T) (index : Z) (key : K) : outcome (addr * FlatMap K T) :=
  let m := set_size m (fm_size m + 1) in
  m ← on_thumbnail (fun t => bit_array_set t index) m;
  m ← set_bucket m index (Node (key, dflt) []);
  Ok ((index, O), m).

(** [new (_pool.get()) Bucket(...)]. *)
Definition pool_get : outcome unit := if nodes then Ok tt else Fault OutOfRange.

(** [operator[]] for [_Multi = false].  Each resizing gives the map at least
    twice the buckets; the fuel bounds how often. *)
Fixpoint index_op (fuel : nat) (m : FlatMap K T) (key : K) : outcome (addr * FlatMap K T) :=
  match fuel with
  | O => Diverge
  | S fuel =>
      let index := index_of m key in
      first ← bucket_at m index;
      match first with
      | Invalid => fill_bucket m index key
      | Sentinel => Fault Uninitialised
      | Node e next =>
          match find_node (e :: next) key with
          | Some d => Ok ((index, d), m)
          | None =>
              '(resized, m) ← (if crowded m (fm_size m)
                               then resize_with (index_op fuel) m (w64 (fm_nbucket m + 1))
                               else Ok (false, m));
              if resized : bool then index_op fuel m key
              else
                let m := set_size m (fm_size m + 1) in
                _ ← pool_get;
                m ← set_bucket m index (Node e (next ++ [(key, dflt)]));
                Ok ((index, S (length next)), m)
          end
      end
  end.

Definition map_fuel : nat := 64.

Definition resize (m : FlatMap K T) (nbucket2 : Z) : outcome (bool * FlatMap K T) :=
  resize_with (index_op map_fuel) m nbucket2.

Definition insert (m : FlatMap K T) (key : K) (value : T) : outcome (addr * FlatMap K T) :=
  '(p, m) ← index_op map_fuel m key; m ← write m p value; Ok (p, m).

Definition insert_pair (m : FlatMap K T) (kv : K * T) : outcome (addr * FlatMap K T) :=
  insert m (fst kv) (snd kv).

(** ** Removal

    The number of removed elements, the old value handed out, the map. *)

(** A node after the first is unlinked. *)
Fixpoint unlink (l : list (K * T)) (key : K) : option (T * list (K * T)) :=
  match l with
  | [] => None
  | e :: rest =>
      if eql (fst e) key then Some (snd e, rest)
      else '(v, rest) ← unlink rest key; Some (v, e :: rest)
  end.

Definition erase (m : FlatMap K T) (key : K) : outcome (Z * option T * FlatMap K T) :=
  if negb (map_initialized m) then Ok (0, None, m)
  else
    let index := index_of m key in
    first ← bucket_at m index;
    match first with
    | Invalid => Ok (0, None, m)
    | Sentinel => Fault Uninitialised
    | Node e next =>
        if eql (fst e) key then
          m ← match next with
              | [] =>
                  m ← set_bucket m index Invalid;
                  on_thumbnail (fun t => bit_array_unset t index) m
              | p :: next => set_bucket m index (Node p next)
              end;
          Ok (1, Some (snd e), set_size m (fm_size m - 1))
        else
          match unlink next key with
          | Some (v, next) =>
              m ← set_bucket m index (Node e next);
              Ok (1, Some v, set_size m (fm_size m - 1))
          | None => Ok (0, None, m)
          end
    end.

(** [_Multi = true]: all elements with the key.  The element of the first node
    is destroyed in the loop and then assigned to when another node takes its
    place. *)
Definition erase_multi (m : FlatMap K T) (key : K) : outcome (Z * list T * FlatMap K T) :=
  if negb (map_initialized m) then Ok (0, [], m)
  else
    let index := index_of m key in
    first ← bucket_at m index;
    match first with
    | Invalid => Ok (0, [], m)
    | Sentinel => Fault Uninitialised
    | Node e next =>
        let same := List.filter (fun x => eql (fst x) key) (e :: next) in
        let kept := List.filter (fun x => negb (eql (fst x) key)) (e :: next) in
        let total := fm_size m in
        let m := set_size m (fm_size m - Z.of_nat (length same)) in
        m ← match kept with
            | [] =>
                m ← set_bucket m index Invalid;
                on_thumbnail (fun t => bit_array_unset t index) m
            | head :: rest =>
                if eql (fst e) key then Fault Uninitialised
                else set_bucket m index (Node head rest)
            end;
        Ok (w64 (total - fm_size m), snd <$> same, m)
    end.

(** [operator[]] for [_Multi = true]: always a new element, after the first. *)
Fixpoint index_op_multi (fuel : nat) (m : FlatMap K T) (key : K) : outcome (addr * FlatMap K T) :=
  match fuel with
  | O => Diverge
  | S fuel =>
      let index := index_of m key in
      first ← bucket_at m index;
      match first with
      | Invalid => fill_bucket m index key
      | Sentinel => Fault Uninitialised
      | Node e next =>
          let need_scale := existsb (fun x => negb (eql (fst x) key)) (e :: next) in
          '(resized, m) ← (if crowded m (fm_size m) && need_scale
                           then resize_with (index_op_multi fuel) m (w64 (fm_nbucket m + 1))
                           else Ok (false, m));
          if resized : bool then index_op_multi fuel m key
          else
            let m := set_size m (fm_size m + 1) in
            _ ← pool_get;
            m ← set_bucket m index (Node e ((key, dflt) :: next));
            Ok ((index, 1%nat), m)
      end
  end.

(** ** Clearing, copying, swapping *)

Definition map_clear (m : FlatMap K T) : outcome (FlatMap K T) :=
  if fm_size m =? 0 then Ok m
  else
    let m := set_size m 0 in
    m ← (if map_initialized m then
           for_ (fm_nbucket m) (fun i m =>
             b ← bucket_at m i; if is_valid b then set_bucket m i Invalid else Ok m) m
         else Ok m);
    match fm_thumbnail m with
    | Some t =>
        t ← bit_array_clear t (fm_nbucket m);
        Ok (mkMap (fm_size m) (fm_nbucket m) (fm_buckets m) (Some t) (fm_load_factor m))
    | None => Ok m
    end.

(** The pool is emptied too; it is not part of the state. *)
Definition clear_and_reset_pool (m : FlatMap K T) : outcome (FlatMap K T) := map_clear m.

Definition FlatMap_destructor (m : FlatMap K T) : outcome (FlatMap K T) :=
  m ← map_clear m; Ok (mkMap (fm_size m) 0 None None 0).

Definition map_swap (m rhs : FlatMap K T) : FlatMap K T * FlatMap K T := (rhs, m).

(** One round of the copy of equally many buckets. *)
Definition copy_bucket (rhs : FlatMap K T) (i : Z) (m : FlatMap K T) : outcome (FlatMap K T) :=
  b ← bucket_at rhs i;
  if is_valid b then
    m ← on_thumbnail (fun t => bit_array_set t i) m;
    _ ← (match chain b with _ :: _ :: _ => pool_get | _ => Ok tt end);
    set_bucket m i b
  else set_bucket m i Invalid.

(** [operator=] between two different objects. *)
Definition map_assign (m rhs : FlatMap K T) : outcome (FlatMap K T) :=
  m ← map_clear m;
  if negb (map_initialized rhs) then Ok m
  else
    let m := mkMap (fm_size m) (fm_nbucket m) (fm_buckets m) (fm_thumbnail m) (fm_load_factor rhs) in
    '(ready, m) ←
      (if negb (map_initialized m) || crowded m (fm_size rhs) then
         info ← new_buckets_and_thumbnail m (fm_size m) (fm_nbucket rhs);
         if table_missing info then Ok (false, m)
         else Ok (true, mkMap (fm_size m) (nb_nbucket info) (nb_buckets info)
                          (if Sparse then nb_thumbnail info else fm_thumbnail m) (fm_load_factor m))
       else Ok (true, m));
    if negb ready then Ok m
    else if map_empty rhs then Ok m
    else if fm_nbucket m =? fm_nbucket rhs then
      m ← for_ (fm_nbucket rhs) (copy_bucket rhs) m;
      m ← set_bucket m (fm_nbucket rhs) Sentinel;
      Ok (mkMap (fm_size rhs) (fm_nbucket m) (fm_buckets m) (fm_thumbnail m) (fm_load_factor m))
    else
      for_each rhs (fun e m => '(a, m) ← index_op map_fuel m (fst e); write m a (snd e)) m.

Definition FlatMap_copy (rhs : FlatMap K T) : outcome (FlatMap K T) :=
  map_assign (mkMap 0 0 None None (fm_load_factor rhs)) rhs.

(** [bucket_info]: the longest chain, and the two numbers whose quotient is the
    average. *)
Definition bucket_info (m : FlatMap K T) : outcome (Z * (Z * Z)) :=
  '(max_n, nentry) ← for_ (fm_nbucket m) (fun i '(max_n, nentry) =>
     b ← bucket_at m i;
     Ok (if is_valid b then (Z.max max_n (Z.of_nat (length (chain b))), nentry + 1)
         else (max_n, nentry))) (0, 0);
  Ok (max_n, (fm_size m, nentry)).

(** ** Positions kept across critical sections *)

Record PositionHint : Type := mkHint {
  hint_nbucket : Z;
  hint_offset : Z;
  hint_at_entry : bool;
  hint_key : option K   (** [None] for the default key *)
}.

Definition save_iterator (m : FlatMap K T) (it : Iter) : outcome PositionHint :=
  last ← map_end m;
  if decide (Some it = last) then Ok (mkHint (fm_nbucket m) (it_entry it) false None)
  else
    e ← iter_deref m it;
    Ok (mkHint (fm_nbucket m) (it_entry it) (bool_decide (it_depth it = O)) (Some (fst e))).

Definition restore_iterator (m : FlatMap K T) (default_key : K) (hint : PositionHint) : outcome (option Iter) :=
  if negb (hint_nbucket hint =? fm_nbucket m) then map_begin m
  else if fm_nbucket m <=? hint_offset hint then map_end m
  else
    first ← bucket_at m (hint_offset hint);
    if hint_at_entry hint then iterator_at m (hint_offset hint)
    else if negb (is_valid first) then iterator_at m (hint_offset hint + 1)
    else
      let key := match hint_key hint with Some k => k | None => default_key end in
      match find_node (chain first) key with
      | Some d => Ok (Some (mkIter (hint_offset hint) d))
      | None => iterator_at m (hint_offset hint)
      end.
End FlatMap.

(** * Properties *)

(** ** Sizes *)

Definition smear (b : Z) : Z :=
  let b := Z.lor b (Z.shiftr b 1) in
  let b := Z.lor b (Z.shiftr b 2) in
  let b := Z.lor b (Z.shiftr b 4) in
  let b := Z.lor b (Z.shiftr b 8) in
  let b := Z.lor b (Z.shiftr b 16) in
  Z.lor b (Z.shiftr b 32).

(** Bit [i] of the smeared word is set when any of the 64 bits from [i] up is. *)
Lemma lor_shift_bits b k n (i : Z) (P : Z -> Prop) : 0 <= i -> 0 <= k ->
  (forall j, 0 <= j -> Z.testbit b j = true <-> exists d, 0 <= d < n /\ P (j + d)) ->
  k = n ->
  (Z.testbit (Z.lor b (Z.shiftr b k)) i = true <-> exists d, 0 <= d < 2 * n /\ P (i + d)).
Proof.
  intros Hi Hk Hb ->. rewrite Z.lor_spec, Z.shiftr_spec, orb_true_iff by done.
  rewrite !Hb by lia. split.
  - intros [(d & Hd & HP)|(d & Hd & HP)]; [exists d; split; [lia|done]|].
    exists (n + d). split; [lia|]. by replace (i + (n + d)) with (i + n + d) by lia.
  - intros (d & Hd & HP). destruct (decide (d < n)); [left; exists d; split; [lia|done]|].
    right. exists (d - n). split; [lia|]. by replace (i + n + (d - n)) with (i + d) by lia.
Qed.

Lemma smear_bits b i : 0 <= i ->
  Z.testbit (smear b) i = true <-> exists d, 0 <= d < 64 /\ Z.testbit b (i + d) = true.
Proof.
  intros Hi. unfold smear. set (P := fun j => Z.testbit b j = true).
  assert (H1 : forall j, 0 <= j -> Z.testbit b j = true <-> exists d, 0 <= d < 1 /\ P (j + d)).
  { intros j Hj. unfold P. split; [intros H; exists 0; by rewrite Z.add_0_r|].
    intros (d & Hd & H). by replace (j + d) with j in H by lia. }
  assert (H2 := fun j Hj => lor_shift_bits b 1 1 j P Hj ltac:(lia) H1 eq_refl).
  assert (H4 := fun j Hj => lor_shift_bits _ 2 2 j P Hj ltac:(lia) H2 eq_refl).
  assert (H8 := fun j Hj => lor_shift_bits _ 4 4 j P Hj ltac:(lia) H4 eq_refl).
  assert (H16 := fun j Hj => lor_shift_bits _ 8 8 j P Hj ltac:(lia) H8 eq_refl).
  assert (H32 := fun j Hj => lor_shift_bits _ 16 16 j P Hj ltac:(lia) H16 eq_refl).
  exact (lor_shift_bits _ 32 32 i P Hi ltac:(lia) H32 eq_refl).
Qed.

Lemma smear_spec b k : 0 <= k < 64 -> 2 ^ k <= b < 2 ^ (k + 1) -> smear b = 2 ^ (k + 1) - 1.
Proof.
  intros Hk Hb. pose proof (Z.pow_pos_nonneg 2 k). assert (Hlog : Z.log2 b = k) by (apply Z.log2_unique; lia).
  replace (2 ^ (k + 1) - 1) with (Z.ones (k + 1)) by (rewrite Z.ones_equiv; lia).
  apply Z.bits_inj'. intros i Hi. rewrite Z.testbit_ones_nonneg by lia.
  apply eq_true_iff_eq. rewrite smear_bits by done. rewrite Z.ltb_lt. split.
  - intros (d & Hd & Hbit). destruct (decide (i < k + 1)); [done|].
    rewrite Z.bits_above_log2 in Hbit; [done|lia|lia].
  - intros Hlt. exists (k - i). split; [lia|]. replace (i + (k - i)) with k by lia.
    rewrite <- Hlog. apply Z.bit_log2. lia.
Qed.

Lemma find_power2_spec n k : 0 <= k < 62 -> 2 ^ k < n <= 2 ^ (k + 1) -> find_power2 n = 2 ^ (k + 1).
Proof.
  intros Hk Hn. pose proof (Z.pow_pos_nonneg 2 k). pose proof (Z.pow_le_mono_r 2 (k + 1) 63).
  change (find_power2 n) with (w64 (smear (w64 (n - 1)) + 1)).
  rewrite (w64_id (n - 1)) by lia. rewrite (smear_spec (n - 1) k) by lia. rewrite w64_id by lia. lia.
Qed.

Definition pow2 (n : Z) : Prop := exists k, 3 <= k <= 50 /\ n = 2 ^ k.

Lemma pow2_bounds n : pow2 n -> 8 <= n <= 2 ^ 50.
Proof.
  intros (k & Hk & ->). pose proof (Z.pow_le_mono_r 2 3 k). pose proof (Z.pow_le_mono_r 2 k 50). lia.
Qed.

Lemma round_pow2 n : pow2 n -> flatmap_round n = n /\ flatmap_round (n + 1) = 2 * n.
Proof.
  intros (k & Hk & ->). unfold flatmap_round. pose proof (Z.pow_le_mono_r 2 3 k).
  assert (Hs : 2 ^ (k + 1) = 2 * 2 ^ k) by (rewrite Z.pow_add_r by lia; lia).
  assert (Hp : 2 ^ k = 2 * 2 ^ (k - 1)) by (rewrite <- Z.pow_succ_r by lia; f_equal; lia).
  pose proof (Z.pow_pos_nonneg 2 (k - 1)). split.
  - destruct (Z.leb_spec (2 ^ k) 8).
    + lia.
    + rewrite (find_power2_spec _ (k - 1)); [f_equal; lia|lia|]. replace (k - 1 + 1) with k by lia. lia.
  - destruct (Z.leb_spec (2 ^ k + 1) 8); [lia|]. rewrite (find_power2_spec _ k); lia.
Qed.

Lemma round_bounds n : 1 <= n <= 2 ^ 50 -> pow2 (flatmap_round n) /\ n <= flatmap_round n.
Proof.
  intros Hn. unfold flatmap_round. destruct (Z.leb_spec n 8); [split; [by exists 3|lia]|].
  pose proof (Z.log2_up_spec n ltac:(lia)) as Hl. pose proof (Z.log2_up_pos n ltac:(lia)).
  set (u := Z.log2_up n) in *. replace (Z.pred u) with (u - 1) in Hl by lia.
  assert (u <= 50).
  { unfold u. rewrite <- (Z.log2_up_pow2 50) by lia. apply Z.log2_up_le_mono. lia. }
  assert (3 < u).
  { apply (Z.pow_lt_mono_r_iff 2); [lia..|]. change (2 ^ 3) with 8. lia. }
  rewrite (find_power2_spec n (u - 1)); [|lia|replace (u - 1 + 1) with u by lia; lia].
  replace (u - 1 + 1) with u by lia. split; [exists u; split; [lia|done]|lia].
Qed.

Lemma flatmap_mod_spec h n : 0 <= h -> pow2 n -> flatmap_mod h n = h mod n /\ 0 <= flatmap_mod h n < n.
Proof.
  intros Hh Hp. pose proof (pow2_bounds n Hp). destruct Hp as (k & Hk & ->). unfold flatmap_mod.
  rewrite w64_id by lia. replace (2 ^ k - 1) with (Z.ones k) by (rewrite Z.ones_equiv; lia).
  rewrite Z.land_ones by lia. split; [done|]. apply Z.mod_pos_bound. lia.
Qed.

(** ** Sequences of calls, and what they do to a finite function *)

Inductive mop (K T : Type) : Type :=
| MInsert (k : K) (v : T)
| MErase (k : K)
| MSeek (k : K)
| MClear.
Arguments MInsert {K T}.
Arguments MErase {K T}.
Arguments MSeek {K T}.
Arguments MClear {K T}.

Section Runs.
Context {K T : Type} (hashfn : K -> Z) (eql : K -> K -> bool) (dflt : T) (Sparse : bool).
Context (alloc talloc : Z -> bool) (nodes : bool) (raw : nat -> list Z).

(** One call, with the value it hands out: the erased one, or the one found. *)
Definition mexec (m : FlatMap K T) (o : mop K T) : outcome (option T * FlatMap K T) :=
  match o with
  | MInsert k v => '(_, m) ← insert hashfn eql dflt Sparse alloc talloc nodes raw m k v; Ok (None, m)
  | MErase k => '(_, old, m) ← erase hashfn eql Sparse m k; Ok (old, m)
  | MSeek k =>
      p ← seek hashfn eql m k;
      match p with
      | Some a => v ← read m a; Ok (Some v, m)
      | None => Ok (None, m)
      end
  | MClear => m ← map_clear m; Ok (None, m)
  end.

Fixpoint mrun (m : FlatMap K T) (os : list (mop K T)) : outcome (list (option T) * FlatMap K T) :=
  match os with
  | [] => Ok ([], m)
  | o :: os => '(r, m) ← mexec m o; '(rs, m) ← mrun m os; Ok (r :: rs, m)
  end.

Definition mspec (s : K -> option T) (o : mop K T) : option T * (K -> option T) :=
  match o with
  | MInsert k v => (None, fun k' => if eql k k' then Some v else s k')
  | MErase k => (s k, fun k' => if eql k k' then None else s k')
  | MSeek k => (s k, s)
  | MClear => (None, fun _ => None)
  end.

Fixpoint mspecs (s : K -> option T) (os : list (mop K T)) : list (option T) * (K -> option T) :=
  match os with
  | [] => ([], s)
  | o :: os => let '(r, s) := mspec s o in let '(rs, s) := mspecs s os in (r :: rs, s)
  end.
End Runs.

(** ** The dense map as a list of elements *)

Section Facts.
Context {K T : Type} (hashfn : K -> Z) (eql : K -> K -> bool) (dflt : T).
Context (alloc talloc : Z -> bool) (nodes : bool) (raw : nat -> list Z).
Hypothesis eql_refl : forall k, eql k k = true.
Hypothesis eql_sym : forall a b, eql a b = eql b a.
Hypothesis eql_trans : forall a b c, eql a b = true -> eql b c = true -> eql a c = true.
Hypothesis eql_hash : forall a b, eql a b = true -> hashfn a = hashfn b.
Hypothesis hash_nonneg : forall k, 0 <= hashfn k.
Hypothesis alloc_ok : forall n, alloc n = true.
Hypothesis nodes_ok : nodes = true.

Local Notation FMap := (FlatMap K T).
Local Notation index_op := (index_op hashfn eql dflt false alloc talloc nodes raw).
Local Notation resize_with := (resize_with false alloc talloc raw).
Local Notation index_of := (index_of hashfn).

(** The value of a key in a list of elements. *)
Fixpoint assoc (l : list (K * T)) (k : K) : option T :=
  match l with
  | [] => None
  | e :: l => if eql (fst e) k then Some (snd e) else assoc l k
  end.

Fixpoint distinct (l : list (K * T)) : Prop :=
  match l with
  | [] => True
  | e :: l => assoc l (fst e) = None /\ distinct l
  end.

Definition buckets_elems (bs : list (Bucket K T)) : list (K * T) := concat (chain <$> bs).

Definition elems (m : FMap) : list (K * T) :=
  match fm_buckets m with Some bs => buckets_elems bs | None => [] end.

Definition lookup_map (m : FMap) (k : K) : option T :=
  match fm_buckets m with
  | Some bs => match bs !! Z.to_nat (index_of m k) with Some b => assoc (chain b) k | None => None end
  | None => None
  end.

(** A chain that belongs in bucket [i]. *)
Definition chain_ok (n : Z) (i : nat) (b : Bucket K T) : Prop :=
  b <> Sentinel /\ distinct (chain b)
  /\ Forall (fun e => flatmap_mod (hashfn (fst e)) n = Z.of_nat i) (chain b).

Record wf (m : FMap) : Prop := {
  wf_nb : pow2 (fm_nbucket m);
  wf_lf : 10 <= fm_load_factor m <= 100;
  wf_size : fm_size m = Z.of_nat (length (elems m)) /\ fm_size m < 2 ^ 40;
  wf_buckets : exists bs, fm_buckets m = Some (bs ++ [Sentinel])
    /\ Z.of_nat (length bs) = fm_nbucket m
    /\ forall i b, bs !! i = Some b -> chain_ok (fm_nbucket m) i b;
  wf_thumb : fm_thumbnail m = None
}.

Lemma assoc_app l1 l2 k :
  assoc (l1 ++ l2) k = match assoc l1 k with Some v => Some v | None => assoc l2 k end.
Proof. induction l1 as [|e l1 IH]; [done|]. simpl. by destruct (eql (fst e) k). Qed.

Lemma assoc_eql l k k' : eql k k' = true -> assoc l k = assoc l k'.
Proof.
  intros Hk. induction l as [|e l IH]; [done|]. simpl. rewrite IH.
  assert (eql (fst e) k = eql (fst e) k') as ->; [|done].
  apply eq_true_iff_eq. split; intros H; eapply eql_trans; [exact H|exact Hk|exact H|].
  by rewrite eql_sym.
Qed.

Lemma find_node_spec l k :
  match find_node eql l k with
  | Some d => exists e, l !! d = Some e /\ eql (fst e) k = true /\ assoc l k = Some (snd e)
  | None => assoc l k = None
  end.
Proof.
  induction l as [|e l IH]; [done|]. simpl. destruct (eql (fst e) k) eqn:E; [by exists e|].
  by destruct (find_node eql l k) as [d|].
Qed.

(** Writing the value of a node. *)
Lemma assoc_write l k d e v k' :
  find_node eql l k = Some d -> l !! d = Some e ->
  assoc (<[d := (fst e, v)]> l) k' = if eql k k' then Some v else assoc l k'.
Proof.
  revert d. induction l as [|x l IH]; intros d; [done|]. simpl. destruct (eql (fst x) k) eqn:E.
  - intros [= <-] [= ->]. simpl. destruct (eql k k') eqn:E'.
    + by rewrite (eql_trans _ _ _ E E').
    + destruct (eql (fst e) k') eqn:E2; [|done]. rewrite eql_sym in E.
      by rewrite (eql_trans _ _ _ E E2) in E'.
  - destruct (find_node eql l k) as [d'|] eqn:Hf; [|done]. intros [= <-]. simpl. intros Hl.
    rewrite (IH d' eq_refl Hl). destruct (eql (fst x) k') eqn:E2; [|done].
    destruct (eql k k') eqn:E'; [|done]. rewrite eql_sym in E'.
    by rewrite (eql_trans _ _ _ E2 E') in E.
Qed.

Lemma distinct_keys l l' : fst <$> l = fst <$> l' -> distinct l -> distinct l'.
Proof.
  revert l'. induction l as [|e l IH]; intros [|e' l']; try done. simpl. intros [= He Hl] [Hn Hd].
  split; [|by apply IH]. rewrite <- He. clear IH Hd He. revert l' Hl Hn.
  induction l as [|x l IH]; intros [|x' l']; try done. simpl. intros [= Hx Hl]. rewrite Hx.
  destruct (eql (fst x') (fst e)); [done|]. by apply IH.
Qed.

Lemma distinct_snoc l k v : distinct l -> assoc l k = None -> distinct (l ++ [(k, v)]).
Proof.
  induction l as [|e l IH]; [done|]. simpl. intros [Hn Hd] Ha. destruct (eql (fst e) k) eqn:E; [done|].
  split; [|by apply IH]. rewrite assoc_app, Hn. simpl. rewrite eql_sym, E. done.
Qed.

(** ** Buckets and lookups *)

Lemma index_range (m : FMap) k : pow2 (fm_nbucket m) -> 0 <= index_of m k < fm_nbucket m.
Proof. intros Hp. by apply flatmap_mod_spec. Qed.

Lemma assoc_elsewhere n i l k :
  Forall (fun e => flatmap_mod (hashfn (fst e)) n = Z.of_nat i) l ->
  flatmap_mod (hashfn k) n <> Z.of_nat i -> assoc l k = None.
Proof.
  intros Hall Hk. induction Hall as [|e l He Hall IH]; [done|]. simpl.
  destruct (eql (fst e) k) eqn:E; [|done]. by rewrite (eql_hash _ _ E) in He.
Qed.

Lemma buckets_cons (b : Bucket K T) bs : buckets_elems (b :: bs) = chain b ++ buckets_elems bs.
Proof. done. Qed.

Lemma buckets_assoc n bs off k :
  (forall i b, bs !! i = Some b -> chain_ok n (off + i) b) ->
  assoc (buckets_elems bs) k =
    match bs !! Z.to_nat (flatmap_mod (hashfn k) n - Z.of_nat off) with
    | Some b => if Z.of_nat off <=? flatmap_mod (hashfn k) n then assoc (chain b) k else None
    | None => None
    end.
Proof.
  revert off. induction bs as [|b bs IH]; intros off Hok; [done|].
  rewrite buckets_cons, assoc_app.
  destruct (Hok 0%nat b eq_refl) as (_ & _ & Hb). rewrite Nat.add_0_r in Hb.
  rewrite (IH (S off)) by (intros i b' Hi; rewrite Nat.add_succ_comm; by apply (Hok (S i))).
  set (x := flatmap_mod (hashfn k) n) in *.
  destruct (decide (x = Z.of_nat off)) as [E|E].
  - rewrite E, Z.sub_diag, Z.leb_refl. simpl. destruct (assoc (chain b) k); [done|].
    destruct (bs !! _); [|done]. by destruct (Z.leb_spec (Z.of_nat (S off)) (Z.of_nat off)); [lia|].
  - rewrite (assoc_elsewhere n off (chain b) k Hb E).
    destruct (Z.leb_spec (Z.of_nat off) x), (Z.leb_spec (Z.of_nat (S off)) x); try lia.
    + replace (Z.to_nat (x - Z.of_nat off)) with (S (Z.to_nat (x - Z.of_nat (S off)))) by lia. done.
    + by destruct (bs !! _), ((b :: bs) !! _).
Qed.

Lemma assoc_lookup_none l k v : assoc l k = None -> In v l -> eql (fst v) k = false.
Proof.
  induction l as [|e l IH]; [done|]. simpl. destruct (eql (fst e) k) eqn:E; [done|].
  intros Ha [->|Hin]; [done|by apply IH].
Qed.

Lemma assoc_none l k : (forall v, In v l -> eql (fst v) k = false) -> assoc l k = None.
Proof.
  induction l as [|e l IH]; [done|]. simpl. intros H. rewrite (H e) by auto. apply IH. auto.
Qed.

Lemma distinct_app l1 l2 : distinct l1 -> distinct l2 ->
  (forall e, In e l1 -> assoc l2 (fst e) = None) -> distinct (l1 ++ l2).
Proof.
  induction l1 as [|e l1 IH]; [done|]. simpl. intros [Hn Hd] Hd2 H.
  split; [rewrite assoc_app, Hn; by apply H; left|]. apply IH; [done|done|]. intros; apply H; auto.
Qed.

Lemma buckets_distinct n bs off :
  (forall i b, bs !! i = Some b -> chain_ok n (off + i) b) -> distinct (buckets_elems bs).
Proof.
  revert off. induction bs as [|b bs IH]; intros off Hok; [done|].
  rewrite buckets_cons.
  assert (Hok' : forall i b, bs !! i = Some b -> chain_ok n (S off + i) b)
    by (intros i b' Hi; rewrite Nat.add_succ_comm; by apply (Hok (S i))).
  destruct (Hok 0%nat b eq_refl) as (_ & Hd & Hb). rewrite Nat.add_0_r in Hb.
  apply distinct_app; [done|by apply (IH (S off))|]. intros e He.
  rewrite (buckets_assoc n bs (S off)) by done.
  assert (flatmap_mod (hashfn (fst e)) n = Z.of_nat off) as ->.
  { rewrite Forall_forall in Hb. apply Hb. by apply list_elem_of_In. }
  destruct (bs !! _); [|done]. by destruct (Z.leb_spec (Z.of_nat (S off)) (Z.of_nat off)); [lia|].
Qed.

Lemma elems_sentinel (bs : list (Bucket K T)) : buckets_elems (bs ++ [Sentinel]) = buckets_elems bs.
Proof. unfold buckets_elems. rewrite fmap_app, concat_app. simpl. by rewrite app_nil_r. Qed.

Lemma wf_elems m : wf m -> distinct (elems m) /\ forall k, assoc (elems m) k = lookup_map m k.
Proof.
  intros [Hnb _ _ (bs & Hb & Hlen & Hok) _]. unfold elems, lookup_map. rewrite Hb, elems_sentinel.
  split; [by apply (buckets_distinct (fm_nbucket m) bs 0)|]. intros k.
  rewrite (buckets_assoc (fm_nbucket m) bs 0) by done. rewrite Z.sub_0_r.
  pose proof (index_range m k Hnb) as Hi. unfold FlatMap.index_of in *.
  rewrite (proj2 (Z.leb_le _ _)) by lia. rewrite lookup_app_l by lia. done.
Qed.

(** The bucket of a key. *)
Lemma wf_bucket m k : wf m -> exists bs b,
  fm_buckets m = Some (bs ++ [Sentinel]) /\ bs !! Z.to_nat (index_of m k) = Some b
  /\ bucket_at m (index_of m k) = Ok b /\ chain_ok (fm_nbucket m) (Z.to_nat (index_of m k)) b
  /\ lookup_map m k = assoc (chain b) k.
Proof.
  intros [Hnb _ _ (bs & Hb & Hlen & Hok) _]. pose proof (index_range m k Hnb) as Hi.
  destruct (lookup_lt_is_Some_2 bs (Z.to_nat (index_of m k))) as [b Hl]; [lia|].
  assert (Hl' : (bs ++ [Sentinel]) !! Z.to_nat (index_of m k) = Some b) by (by apply lookup_app_l_Some).
  exists bs, b. split; [done|]. split; [done|]. split; [|split; [by apply Hok|]].
  - unfold bucket_at. rewrite Hb. by apply vec_at_some; [lia|].
  - unfold lookup_map. by rewrite Hb, Hl'.
Qed.

Lemma buckets_length (bs : list (Bucket K T)) i b b' : bs !! i = Some b ->
  (length (buckets_elems (<[i := b']> bs)) + length (chain b)
   = length (buckets_elems bs) + length (chain b'))%nat.
Proof.
  revert i. induction bs as [|x bs IH]; intros [|i]; [done|done|..]; intros Hi; simpl in Hi.
  - injection Hi as ->. change (<[0%nat := b']> (b :: bs)) with (b' :: bs).
    rewrite !buckets_cons, !length_app. lia.
  - specialize (IH i Hi). change (<[S i := b']> (x :: bs)) with (x :: <[i := b']> bs).
    rewrite !buckets_cons, !length_app. lia.
Qed.

(** Replacing the bucket of a key. *)
Definition with_bucket (m : FMap) (i : Z) (b : Bucket K T) (size : Z) : FMap :=
  mkMap size (fm_nbucket m) ((fun bs => <[Z.to_nat i := b]> bs) <$> fm_buckets m) (fm_thumbnail m)
    (fm_load_factor m).

Lemma with_bucket_ok m k b b' size :
  wf m -> bucket_at m (index_of m k) = Ok b -> chain_ok (fm_nbucket m) (Z.to_nat (index_of m k)) b' ->
  size = fm_size m - Z.of_nat (length (chain b)) + Z.of_nat (length (chain b')) -> size < 2 ^ 40 ->
  let m' := with_bucket m (index_of m k) b' size in
  wf m' /\ bucket_at m' (index_of m k) = Ok b'
  /\ forall k', lookup_map m' k' = if decide (index_of m k' = index_of m k) then assoc (chain b') k'
                                   else lookup_map m k'.
Proof.
  intros Hwf Hb Hok Hs Hlt m'. destruct (wf_bucket m k Hwf) as (bs & b0 & Hbs & Hl & Hat & _ & _).
  rewrite Hb in Hat. injection Hat as <-. pose proof Hwf as [Hnb Hlf Hsize (bs' & Hbs' & Hlen & Hall) Hthumb].
  rewrite Hbs in Hbs'. injection Hbs' as Hbs'. apply app_inj_tail in Hbs' as [-> _].
  pose proof (index_range m k Hnb) as Hi. pose proof (lookup_lt_Some _ _ _ Hl) as Hlt'.
  assert (Hm' : fm_buckets m' = Some (<[Z.to_nat (index_of m k) := b']> bs' ++ [Sentinel])).
  { unfold m', with_bucket. simpl. rewrite Hbs. simpl. by rewrite insert_app_l. }
  split; [|split].
  - constructor; [done|done| | |done].
    + unfold elems in *. rewrite Hm', elems_sentinel. rewrite Hbs, elems_sentinel in Hsize. simpl.
      pose proof (buckets_length bs' _ b b' Hl). lia.
    + eexists. split; [exact Hm'|]. rewrite length_insert. split; [done|]. intros i x Hx.
      apply list_lookup_insert_Some in Hx as [(<- & <- & _)|[_ Hx]]; [done|by apply Hall].
  - unfold bucket_at. rewrite Hm'. apply vec_at_some; [lia|].
    apply lookup_app_l_Some. by apply list_lookup_insert_eq.
  - intros k'. unfold lookup_map. rewrite Hm', Hbs. pose proof (index_range m k' Hnb) as Hi'.
    change (index_of m' k') with (index_of m k').
    rewrite !lookup_app_l by (rewrite ?length_insert; lia). case_decide as E.
    + by rewrite E, list_lookup_insert_eq.
    + by rewrite list_lookup_insert_ne by (intros HE; apply E; lia).
Qed.

Lemma set_bucket_eq (m : FMap) i b b' : bucket_at m i = Ok b -> set_bucket m i b' = Ok (with_bucket m i b' (fm_size m)).
Proof. intros Hb. unfold set_bucket. by rewrite Hb. Qed.

Lemma wf_node m k b : wf m -> bucket_at m (index_of m k) = Ok b -> b = of_chain (chain b).
Proof.
  intros Hwf Hb. destruct (wf_bucket m k Hwf) as (bs & b0 & _ & _ & Hat & (Hs & _) & _).
  rewrite Hb in Hat. injection Hat as ->. by destruct b0.
Qed.

(** [a] is the address of [k]'s node. *)
Definition located (m : FMap) (a : addr) (k : K) : Prop :=
  fst a = index_of m k
  /\ exists b, bucket_at m (fst a) = Ok b /\ find_node eql (chain b) k = Some (snd a).

Lemma located_read m a k : wf m -> located m a k ->
  exists v, read m a = Ok v /\ lookup_map m k = Some v.
Proof.
  intros Hwf (Ha & b & Hb & Hf). destruct (wf_bucket m k Hwf) as (bs & b0 & _ & _ & Hat & _ & ->).
  rewrite Ha, Hat in Hb. injection Hb as <-. pose proof (find_node_spec (chain b0) k) as Hn. rewrite Hf in Hn.
  destruct Hn as (e & He & _ & ->). exists (snd e). split; [|done]. unfold read. by rewrite Ha, Hat; simpl; rewrite He.
Qed.

Lemma seek_spec m k : wf m ->
  exists r, seek hashfn eql m k = Ok r
    /\ match r with Some a => located m a k | None => lookup_map m k = None end.
Proof.
  intros Hwf. destruct (wf_bucket m k Hwf) as (bs & b & Hbs & _ & Hat & (Hs & _) & Hl). unfold seek.
  unfold map_initialized. rewrite Hbs. cbn [negb]. rewrite Hat. cbn [mbind outcome_bind].
  pose proof (find_node_spec (chain b) k) as Hn.
  assert (Hloc : forall d, find_node eql (chain b) k = Some d -> located m (index_of m k, d) k).
  { intros d Hd. split; [done|]. by exists b. }
  destruct b as [| |e next]; [|done|].
  - exists None. split; [done|]. by rewrite Hl.
  - simpl in Hn, Hloc. destruct (eql (fst e) k) eqn:E.
    + eexists. split; [reflexivity|]. by apply Hloc.
    + eexists. split; [reflexivity|]. destruct (find_node eql next k) as [d|].
      * by apply Hloc.
      * simpl. rewrite Hl. simpl. by rewrite E.
Qed.

Lemma find_node_keys (l l' : list (K * T)) k : fst <$> l = fst <$> l' -> find_node eql l k = find_node eql l' k.
Proof.
  revert l'. induction l as [|e l IH]; intros [|e' l']; try done. simpl. intros [= -> Hl]. by rewrite (IH l').
Qed.

Lemma write_spec m a k v : wf m -> located m a k ->
  exists m', write m a v = Ok m' /\ wf m' /\ fm_size m' = fm_size m /\ fm_nbucket m' = fm_nbucket m
    /\ fm_load_factor m' = fm_load_factor m /\ located m' a k
    /\ forall k', lookup_map m' k' = if eql k k' then Some v else lookup_map m k'.
Proof.
  intros Hwf (Ha & b & Hb & Hf). rewrite Ha in Hb.
  pose proof (find_node_spec (chain b) k) as Hn. rewrite Hf in Hn. destruct Hn as (e & He & Hek & _).
  unfold write. rewrite Ha, Hb. cbn [mbind outcome_bind]. rewrite He.
  set (l := <[snd a := (fst e, v)]> (chain b)).
  assert (Hch : chain (of_chain l) = l) by (by destruct l).
  assert (Hfst : fst <$> chain b = fst <$> l).
  { unfold l. rewrite list_fmap_insert. symmetry. apply list_insert_id. by rewrite list_lookup_fmap, He. }
  destruct (wf_bucket m k Hwf) as (bs & b0 & _ & _ & Hat & (Hs & Hd & Hall) & _).
  rewrite Hb in Hat. injection Hat as <-.
  erewrite set_bucket_eq by done. eexists. split; [reflexivity|].
  destruct (with_bucket_ok m k b (of_chain l) (fm_size m) Hwf Hb) as (Hwf' & Hb' & Hlk).
  - split; [by destruct l|]. rewrite Hch. split; [by apply (distinct_keys (chain b))|].
    rewrite Forall_forall in Hall |- *. intros x Hx. assert (Hin : fst x ∈ fst <$> l) by (apply list_elem_of_fmap; eauto).
    rewrite <- Hfst in Hin. apply list_elem_of_fmap in Hin as (y & -> & Hy). by apply Hall.
  - rewrite Hch. unfold l. rewrite length_insert. lia.
  - apply Hwf.
  - split; [done|]. split; [done|]. split; [done|]. split; [done|].
    split; [split; [done|]; eexists; rewrite Ha; split; [exact Hb'|]; by rewrite Hch, <- (find_node_keys _ _ k Hfst)|].
    intros k'. rewrite Hlk, Hch. unfold l. case_decide as E.
    + rewrite (assoc_write _ k) by done. destruct (eql k k'); [done|].
      destruct (wf_bucket m k' Hwf) as (? & b1 & _ & _ & Hat1 & _ & ->). rewrite E, Hb in Hat1. by injection Hat1 as <-.
    + destruct (eql k k') eqn:E'; [|done]. exfalso. apply E. unfold FlatMap.index_of. by rewrite (eql_hash _ _ E').
Qed.

(** ** Iteration *)

Fixpoint fold_out {S : Type} (body : K * T -> S -> outcome S) (l : list (K * T)) (s : S) : outcome S :=
  match l with
  | [] => Ok s
  | e :: l => s ← body e s; fold_out body l s
  end.

(** Where the iterator can stand: the elements from there on. *)
Definition rest_of (bs : list (Bucket K T)) (it : Iter) : list (K * T) :=
  match bs !! Z.to_nat (it_entry it) with
  | Some b => drop (it_depth it) (chain b) ++ buckets_elems (drop (S (Z.to_nat (it_entry it))) bs)
  | None => []
  end.

Definition at_elem (bs : list (Bucket K T)) (it : Iter) : Prop :=
  0 <= it_entry it <= Z.of_nat (length bs)
  /\ (it_entry it = Z.of_nat (length bs) /\ it_depth it = 0%nat
      \/ exists b e, bs !! Z.to_nat (it_entry it) = Some b /\ chain b !! it_depth it = Some e).

Lemma find_valid_spec (m : FMap) bs fuel : forall p,
  fm_buckets m = Some (bs ++ [Sentinel]) -> (forall b, b ∈ bs -> b <> Sentinel) ->
  0 <= p <= Z.of_nat (length bs) -> Z.of_nat (length bs) - p < Z.of_nat fuel ->
  exists q, find_valid fuel m p = Ok q /\ at_elem bs (mkIter q 0)
    /\ rest_of bs (mkIter q 0) = buckets_elems (drop (Z.to_nat p) bs).
Proof.
  induction fuel as [|fuel IH]; intros p Hb Hns Hp Hf; [lia|]. cbn [find_valid].
  unfold bucket_at. rewrite Hb. destruct (decide (p = Z.of_nat (length bs))) as [E|E].
  - exists p. rewrite (vec_at_some _ _ Sentinel); [|lia|rewrite E, Nat2Z.id; by rewrite lookup_app_r, Nat.sub_diag].
    split; [done|]. split; [split; [simpl; lia|by left]|]. unfold rest_of. simpl.
    rewrite E, Nat2Z.id, lookup_ge_None_2 by lia. by rewrite drop_all.
  - destruct (lookup_lt_is_Some_2 bs (Z.to_nat p)) as [b Hbp]; [lia|].
    rewrite (vec_at_some _ _ b); [|lia|by apply lookup_app_l_Some]. cbn [mbind outcome_bind].
    rewrite (drop_S bs b) by done. destruct b as [| |e next].
    + cbn [is_valid]. destruct (IH (p + 1) Hb Hns ltac:(lia) ltac:(lia)) as (q & -> & Hq & Hr).
      exists q. split; [done|]. split; [done|]. rewrite Hr, buckets_cons. simpl.
      by replace (Z.to_nat (p + 1)) with (S (Z.to_nat p)) by lia.
    + destruct (Hns Sentinel); [by eapply list_elem_of_lookup_2|done].
    + exists p. split; [done|]. split; [split; [simpl; lia|right; by exists (Node e next), e]|].
      unfold rest_of. simpl. rewrite Hbp. by rewrite drop_0.
Qed.

Lemma wf_no_sentinel m bs : wf m -> fm_buckets m = Some (bs ++ [Sentinel]) ->
  Z.of_nat (length bs) = fm_nbucket m /\ forall b, b ∈ bs -> b <> Sentinel.
Proof.
  intros [_ _ _ (bs' & Hb & Hlen & Hall) _] Hb'. rewrite Hb in Hb'. injection Hb' as Hb'.
  apply app_inj_tail in Hb' as [-> _]. split; [done|]. intros b (i & Hi)%list_elem_of_lookup.
  by destruct (Hall i b Hi).
Qed.

Lemma begin_end_spec m bs : wf m -> fm_buckets m = Some (bs ++ [Sentinel]) ->
  map_end false m = Ok (Some (mkIter (Z.of_nat (length bs)) 0))
  /\ exists it, map_begin false m = Ok (Some it) /\ at_elem bs it /\ rest_of bs it = elems m.
Proof.
  intros Hwf Hb. destruct (wf_no_sentinel m bs Hwf Hb) as [Hlen Hns].
  unfold map_end, map_begin, iterator_at, map_initialized, find_and_set_valid_node. rewrite Hb. cbv iota.
  rewrite <- Hlen, Nat2Z.id. split.
  - cbn [find_valid]. unfold bucket_at. rewrite Hb.
    rewrite (vec_at_some _ (Z.of_nat (length bs)) Sentinel); [done|lia|]. by rewrite Nat2Z.id, lookup_app_r, Nat.sub_diag.
  - destruct (find_valid_spec m bs (S (S (length bs))) 0 Hb Hns ltac:(lia) ltac:(lia)) as (q & -> & Hq & Hr).
    eexists. split; [reflexivity|]. split; [done|]. rewrite Hr. unfold elems. rewrite Hb, elems_sentinel. done.
Qed.

Lemma next_elem m bs it e : wf m -> fm_buckets m = Some (bs ++ [Sentinel]) ->
  at_elem bs it -> iter_deref m it = Ok e ->
  exists it', iter_next false m it = Ok it' /\ at_elem bs it' /\ rest_of bs it = e :: rest_of bs it'.
Proof.
  intros Hwf Hb [Hr Hat] Hd. destruct (wf_no_sentinel m bs Hwf Hb) as [Hlen Hns].
  revert Hd. unfold iter_deref, iter_next, bucket_at. rewrite Hb. destruct Hat as [[He Hz]|(b & e' & Hbp & He)].
  - rewrite (vec_at_some _ _ Sentinel); [done|lia|]. by rewrite He, Nat2Z.id, lookup_app_r, Nat.sub_diag.
  - rewrite (vec_at_some _ _ b); [|lia|by apply lookup_app_l_Some]. cbn [mbind outcome_bind]. rewrite He.
    intros [= <-]. assert (Hrest : rest_of bs it = e' :: drop (S (it_depth it)) (chain b)
                                   ++ buckets_elems (drop (S (Z.to_nat (it_entry it))) bs)).
    { unfold rest_of. rewrite Hbp. by rewrite (drop_S _ _ _ He). }
    destruct (chain b !! S (it_depth it)) as [e2|] eqn:E2.
    + eexists. split; [reflexivity|]. split; [split; [done|right; by exists b, e2]|].
      rewrite Hrest. unfold rest_of. simpl. by rewrite Hbp.
    + unfold find_and_set_valid_node. apply lookup_lt_Some in Hbp as Hlt.
      destruct (find_valid_spec m bs (S (S (Z.to_nat (fm_nbucket m)))) (it_entry it + 1) Hb Hns ltac:(lia) ltac:(lia))
        as (q & -> & Hq & Hrq). eexists. split; [reflexivity|]. split; [done|].
      rewrite Hrest, Hrq. rewrite drop_ge by (by apply lookup_ge_None). simpl.
      by replace (Z.to_nat (it_entry it + 1)) with (S (Z.to_nat (it_entry it))) by lia.
Qed.

Lemma traverse_spec {S : Type} m bs (body : K * T -> S -> outcome S) fuel : forall it s,
  wf m -> fm_buckets m = Some (bs ++ [Sentinel]) -> at_elem bs it ->
  (length (rest_of bs it) < fuel)%nat ->
  traverse false fuel m body (Some it) s = fold_out body (rest_of bs it) s.
Proof.
  induction fuel as [|fuel IH]; intros it s Hwf Hb Hat Hf; [lia|]. cbn [traverse].
  destruct (begin_end_spec m bs Hwf Hb) as [-> _]. cbn [mbind outcome_bind]. case_decide as E.
  - injection E as ->. unfold rest_of. simpl. rewrite Nat2Z.id. by rewrite lookup_ge_None_2 by lia.
  - pose proof Hat as [Hr [[He Hz]|(b & e & Hbp & He)]].
    { destruct E. destruct it as [en dep]. simpl in *. by subst. }
    assert (Hd : iter_deref m it = Ok e).
    { unfold iter_deref, bucket_at. rewrite Hb.
      rewrite (vec_at_some _ _ b); [|lia|by apply lookup_app_l_Some]. cbn [mbind outcome_bind]. by rewrite He. }
    rewrite Hd. cbn [mbind outcome_bind].
    destruct (next_elem m bs it e Hwf Hb Hat Hd) as (it' & HE & Hat' & Hrest).
    rewrite Hrest in *. cbn [fold_out]. destruct (body e s) as [s'| |]; [|done|done]. cbn [mbind outcome_bind].
    rewrite HE. cbn [mbind outcome_bind]. apply IH; [done..|]. simpl in Hf. lia.
Qed.

Lemma for_each_spec {S : Type} m (body : K * T -> S -> outcome S) s : wf m ->
  for_each false m body s = fold_out body (elems m) s.
Proof.
  intros Hwf. pose proof Hwf as [_ _ [Hsz _] (bs & Hb & _ & _) _]. unfold for_each.
  destruct (begin_end_spec m bs Hwf Hb) as [_ (it & -> & Hat & Hr)]. cbn [mbind outcome_bind].
  rewrite (traverse_spec m bs) by (done || (rewrite Hr; lia)). by rewrite Hr.
Qed.

(** ** A fresh table *)

Lemma round_loop_fresh n lf : pow2 n -> 10 <= lf <= 100 -> round_loop 64 0 lf n = Ok n.
Proof.
  intros Hp Hlf. pose proof (pow2_bounds n Hp). cbn [round_loop].
  rewrite (proj1 (round_pow2 n Hp)). unfold is_too_crowded. rewrite !w64_id by nia.
  by destruct (Z.leb_spec (n * lf) (0 * 100)); [nia|].
Qed.

Lemma fresh_wf n lf : pow2 n -> 10 <= lf <= 100 ->
  let m := mkMap 0 n (Some (replicate (Z.to_nat n) Invalid ++ [Sentinel])) None lf : FMap in
  wf m /\ (forall k, lookup_map m k = None).
Proof.
  intros Hp Hlf m. pose proof (pow2_bounds n Hp).
  assert (Hwf : wf m).
  { constructor; [done|done| | |done].
    - unfold elems. simpl. rewrite elems_sentinel.
      assert (forall j, buckets_elems (replicate j (Invalid : Bucket K T)) = []) as Hz
        by (induction j as [|j IH]; [done|]; simpl; rewrite buckets_cons, IH; done).
      rewrite Hz. simpl. lia.
    - eexists. split; [reflexivity|]. rewrite length_replicate. split; [simpl; lia|].
      intros i b [-> _]%lookup_replicate. split; [done|]. split; [done|constructor]. }
  split; [done|]. intros k. destruct (wf_bucket m k Hwf) as (bs & b & Hb & Hl & _ & _ & ->).
  simpl in Hb. injection Hb as Hb. apply app_inj_tail in Hb as [<- _].
  by apply lookup_replicate in Hl as [-> _].
Qed.

Lemma map_init_fresh n lf : pow2 n -> 10 <= lf <= 100 ->
  map_init false alloc talloc raw (FlatMap_new (K:=K) (T:=T)) n lf
  = Ok (0, mkMap 0 n (Some (replicate (Z.to_nat n) Invalid ++ [Sentinel])) None lf).
Proof.
  intros Hp Hlf. pose proof (pow2_bounds n Hp). unfold map_init, FlatMap_new, map_initialized.
  cbn [fm_buckets fm_nbucket fm_thumbnail].
  destruct (Z.eqb_spec n 0); [lia|]. destruct (Z.ltb_spec lf 10), (Z.ltb_spec 100 lf); try lia. cbn [orb].
  unfold new_buckets_and_thumbnail. cbn [fm_load_factor]. rewrite round_loop_fresh by done.
  cbn [mbind outcome_bind]. rewrite alloc_ok. simpl.
  unfold table_missing. simpl. by destruct (Z.eqb_spec n 0); [lia|].
Qed.

(** ** Insertion *)

(** The result of [operator[]]: the key is there, nothing else changed. *)
Definition indexed (m : FMap) (k : K) (a : addr) (m' : FMap) : Prop :=
  wf m' /\ located m' a k /\ fm_load_factor m' = fm_load_factor m /\ fm_nbucket m <= fm_nbucket m'
  /\ fm_size m' = fm_size m + (match lookup_map m k with Some _ => 0 | None => 1 end)
  /\ forall k', lookup_map m' k' = if eql k k'
       then Some (match lookup_map m k with Some v => v | None => dflt end) else lookup_map m k'.

Lemma lookup_eql m k k' : wf m -> eql k k' = true -> lookup_map m k = lookup_map m k'.
Proof.
  intros Hwf Hk. destruct (wf_elems m Hwf) as [_ <-]. destruct (wf_elems m Hwf) as [_ <-]. by apply assoc_eql.
Qed.

Lemma find_node_snoc l k v : assoc l k = None -> find_node eql (l ++ [(k, v)]) k = Some (length l).
Proof.
  induction l as [|e l IH]; simpl; [by rewrite eql_refl|]. destruct (eql (fst e) k); [done|].
  intros Ha. by rewrite IH.
Qed.

(** Adding the key at the end of its chain. *)
Lemma append_spec m k b : wf m -> fm_size m + 1 < 2 ^ 40 ->
  bucket_at m (index_of m k) = Ok b -> lookup_map m k = None ->
  indexed m k (index_of m k, length (chain b))
    (with_bucket m (index_of m k) (of_chain (chain b ++ [(k, dflt)])) (fm_size m + 1)).
Proof.
  intros Hwf Hsz Hb Hn. destruct (wf_bucket m k Hwf) as (bs & b0 & _ & _ & Hat & (Hs & Hd & Hall) & Hl).
  rewrite Hb in Hat. injection Hat as <-. rewrite Hn in Hl. symmetry in Hl.
  assert (Hch : chain (of_chain (chain b ++ [(k, dflt)])) = chain b ++ [(k, dflt)]) by (by destruct (chain b)).
  destruct (with_bucket_ok m k b (of_chain (chain b ++ [(k, dflt)])) (fm_size m + 1) Hwf Hb)
    as (Hwf' & Hb' & Hlk).
  - split; [by destruct (chain b)|]. rewrite Hch. split; [by apply distinct_snoc|].
    apply Forall_app. split; [done|]. constructor; [|done].
    pose proof (index_range m k (wf_nb _ Hwf)) as Hi. unfold FlatMap.index_of in *. simpl. lia.
  - rewrite Hch, length_app. simpl. lia.
  - lia.
  - split; [done|]. split; [split; [done|]; eexists; split; [exact Hb'|]; rewrite Hch; by apply find_node_snoc|].
    split; [done|]. split; [simpl; lia|]. rewrite Hn. split; [done|]. intros k'. rewrite Hlk, Hch.
    case_decide as E.
    + rewrite assoc_app. destruct (wf_bucket m k' Hwf) as (? & b1 & _ & _ & Hat1 & _ & ->).
      rewrite E, Hb in Hat1. injection Hat1 as <-. simpl.
      destruct (eql k k') eqn:Ek; [|by destruct (assoc (chain b) k')].
      by rewrite <- (assoc_eql (chain b) k k' Ek), Hl.
    + destruct (eql k k') eqn:Ek; [|done]. exfalso. apply E. unfold FlatMap.index_of. by rewrite (eql_hash _ _ Ek).
Qed.

(** An insertion that works while [2 ^ f] times the buckets are enough. *)
Definition good_put (f : nat) (put : FMap -> K -> outcome (addr * FMap)) : Prop :=
  forall n k, wf n -> fm_size n + 1 < 2 ^ 40 ->
    fm_size n * 100 < fm_nbucket n * fm_load_factor n * 2 ^ Z.of_nat f ->
    exists a n', put n k = Ok (a, n') /\ indexed n k a n'.

Lemma rehash_spec put f l : good_put f put -> forall n, wf n -> distinct l ->
  (forall e, In e l -> lookup_map n (fst e) = None) ->
  fm_size n + Z.of_nat (length l) < 2 ^ 40 ->
  (fm_size n + Z.of_nat (length l)) * 100 < fm_nbucket n * fm_load_factor n * 2 ^ Z.of_nat f ->
  exists n', fold_out (fun e n => '(a, n) ← put n (fst e); write n a (snd e)) l n = Ok n'
    /\ wf n' /\ fm_load_factor n' = fm_load_factor n /\ fm_nbucket n <= fm_nbucket n'
    /\ fm_size n' = fm_size n + Z.of_nat (length l)
    /\ forall k, lookup_map n' k = match lookup_map n k with Some v => Some v | None => assoc l k end.
Proof.
  intros Hput. induction l as [|e l IH]; intros n Hwf Hd Hnew Hsz Hroom.
  { exists n. simpl. split; [done|]. split; [done|]. split; [done|]. split; [lia|]. split; [lia|].
    intros k. by destruct (lookup_map n k). }
  cbn [fold_out]. simpl in Hd, Hsz, Hroom. destruct Hd as [Hn Hd].
  pose proof (pow2_bounds _ (wf_nb _ Hwf)) as Hnb. pose proof (wf_lf _ Hwf) as Hlf.
  pose proof (Z.pow_pos_nonneg 2 (Z.of_nat f)).
  destruct (Hput n (fst e) Hwf) as (a & n1 & -> & Hwf1 & Hloc & Hlf1 & Hnb1 & Hsz1 & Hlk1); [destruct l; simpl in *; lia|lia|].
  cbn [mbind outcome_bind].
  destruct (write_spec n1 a (fst e) (snd e) Hwf1 Hloc) as (n2 & -> & Hwf2 & Hsz2 & Hnb2 & Hlf2 & _ & Hlk2).
  cbn [mbind outcome_bind]. rewrite (Hnew e) in Hsz1 by (by left).
  destruct (IH n2 Hwf2 Hd) as (n' & -> & Hwf' & Hlf' & Hnb' & Hsz' & Hlk').
  - intros e' He'. rewrite Hlk2, Hlk1. pose proof (assoc_lookup_none l (fst e) e' Hn He') as Hne.
    rewrite eql_sym in Hne. rewrite Hne. by apply Hnew; right.
  - lia.
  - rewrite Hlf2, Hlf1, Hnb2, Hsz2, Hsz1. nia.
  - exists n'. split; [done|]. split; [done|]. split; [congruence|]. split; [lia|]. split; [simpl; lia|].
    intros k. rewrite Hlk', Hlk2, Hlk1. simpl. destruct (eql (fst e) k) eqn:Ek; [|done].
    by rewrite <- (lookup_eql n (fst e) k Hwf Ek), (Hnew e) by (by left).
Qed.

Lemma crowded_spec m : wf m ->
  crowded m (fm_size m) = (fm_nbucket m * fm_load_factor m <=? fm_size m * 100).
Proof.
  intros [Hnb Hlf Hsz _ _]. pose proof (pow2_bounds _ Hnb). unfold crowded, is_too_crowded.
  rewrite !w64_id by nia. done.
Qed.

Lemma pow2_double n : pow2 n -> n < 2 ^ 50 -> pow2 (2 * n).
Proof.
  intros (k & Hk & ->) Hlt. apply Z.pow_lt_mono_r_iff in Hlt; [|lia..]. exists (k + 1). split; [lia|].
  rewrite Z.pow_add_r by lia. lia.
Qed.

Lemma resize_spec put f m : good_put f put -> wf m ->
  fm_nbucket m * fm_load_factor m <= fm_size m * 100 ->
  fm_size m * 100 < fm_nbucket m * fm_load_factor m * 2 ^ Z.of_nat (S f) ->
  exists m', resize_with put m (w64 (fm_nbucket m + 1)) = Ok (true, m') /\ wf m'
     /\ fm_load_factor m' = fm_load_factor m /\ 2 * fm_nbucket m <= fm_nbucket m'
     /\ fm_size m' = fm_size m /\ forall k, lookup_map m' k = lookup_map m k.
Proof.
  intros Hput Hwf Hcr Hroom. pose proof Hwf as [Hnb Hlf Hsz _ _]. pose proof (pow2_bounds _ Hnb) as Hb.
  unfold FlatMap.resize_with. rewrite w64_id by lia. rewrite (proj2 (round_pow2 _ Hnb)).
  destruct (Z.eqb_spec (fm_nbucket m) (2 * fm_nbucket m)); [lia|].
  assert (Hlt : fm_nbucket m < 2 ^ 50) by nia. pose proof (pow2_double _ Hnb Hlt) as Hp2.
  rewrite map_init_fresh by done. cbn [mbind outcome_bind].
  change (negb (0 =? 0)) with false. cbv iota.
  rewrite for_each_spec by done. destruct (wf_elems m Hwf) as [Hd Hlk].
  destruct (fresh_wf (2 * fm_nbucket m) (fm_load_factor m) Hp2 Hlf) as [Hwf0 Hlk0].
  destruct (rehash_spec put f (elems m) Hput _ Hwf0 Hd) as (m' & -> & Hwf' & Hlf' & Hnb' & Hsz' & Hlk').
  - intros e _. apply Hlk0.
  - simpl. lia.
  - simpl. rewrite Nat2Z.inj_succ, Z.pow_succ_r in Hroom by lia. nia.
  - exists m'. split; [done|]. split; [done|]. split; [done|]. split; [done|]. split; [simpl in Hsz'; lia|].
    intros k. by rewrite Hlk', Hlk0.
Qed.

Lemma fill_spec m k : wf m -> fm_size m + 1 < 2 ^ 40 -> bucket_at m (index_of m k) = Ok Invalid ->
  lookup_map m k = None ->
  exists a m', fill_bucket dflt false m (index_of m k) k = Ok (a, m') /\ indexed m k a m'.
Proof.
  intros Hwf Hsz Hb Hn. pose proof (append_spec m k Invalid Hwf Hsz Hb Hn) as Hi.
  unfold fill_bucket, on_thumbnail. cbn [mbind outcome_bind].
  erewrite set_bucket_eq; [|exact Hb]. eexists _, _. split; [reflexivity|].
  unfold with_bucket, set_size in *. simpl in *. rewrite w64_id; [exact Hi|].
  pose proof (wf_size _ Hwf). lia.
Qed.

Lemma index_op_S f m k : index_op (S f) m k =
  (first ← bucket_at m (index_of m k);
   match first with
   | Invalid => fill_bucket dflt false m (index_of m k) k
   | Sentinel => Fault Uninitialised
   | Node e next =>
       match find_node eql (e :: next) k with
       | Some d => Ok ((index_of m k, d), m)
       | None =>
           '(resized, m') ← (if crowded m (fm_size m)
                             then resize_with (index_op f) m (w64 (fm_nbucket m + 1)) else Ok (false, m));
           if resized : bool then index_op f m' k
           else
             _ ← pool_get nodes;
             m'' ← set_bucket (set_size m' (fm_size m' + 1)) (index_of m k) (Node e (next ++ [(k, dflt)]));
             Ok ((index_of m k, S (length next)), m'')
       end
   end).
Proof. reflexivity. Qed.

Lemma found_spec m k b d : wf m -> bucket_at m (index_of m k) = Ok b -> find_node eql (chain b) k = Some d ->
  indexed m k (index_of m k, d) m.
Proof.
  intros Hwf Hb Hf. assert (Hloc : located m (index_of m k, d) k) by (split; [done|]; by exists b).
  destruct (located_read m _ k Hwf Hloc) as (v & _ & Hl).
  split; [done|]. split; [done|]. split; [done|]. split; [lia|]. rewrite Hl. split; [lia|].
  intros k'. destruct (eql k k') eqn:Ek; [by rewrite <- (lookup_eql m k k' Hwf Ek)|done].
Qed.

Lemma chained_spec m k e next : wf m -> fm_size m + 1 < 2 ^ 40 ->
  bucket_at m (index_of m k) = Ok (Node e next) -> lookup_map m k = None ->
  exists a m', (_ ← pool_get nodes;
                m'' ← set_bucket (set_size m (fm_size m + 1)) (index_of m k) (Node e (next ++ [(k, dflt)]));
                Ok ((index_of m k, S (length next)), m'')) = Ok (a, m') /\ indexed m k a m'.
Proof.
  intros Hwf Hsz Hb Hn. pose proof (append_spec m k (Node e next) Hwf Hsz Hb Hn) as Happ.
  unfold pool_get. rewrite nodes_ok. cbn [mbind outcome_bind].
  erewrite set_bucket_eq; [|exact Hb]. eexists _, _. split; [reflexivity|].
  unfold with_bucket, set_size in *. simpl in *. rewrite w64_id; [exact Happ|]. pose proof (wf_size _ Hwf). lia.
Qed.

Lemma index_op_step f m k : wf m -> fm_size m + 1 < 2 ^ 40 ->
  (fm_nbucket m * fm_load_factor m <= fm_size m * 100 -> exists g, f = S g /\ good_put g (index_op f)) ->
  fm_size m * 100 < fm_nbucket m * fm_load_factor m * 2 ^ Z.of_nat f ->
  exists a m', index_op (S f) m k = Ok (a, m') /\ indexed m k a m'.
Proof.
  intros Hwf Hsz Hcase Hroom. destruct (wf_bucket m k Hwf) as (bs & b & _ & _ & Hat & (Hs & _) & Hl).
  rewrite index_op_S, Hat. cbn [mbind outcome_bind]. pose proof (find_node_spec (chain b) k) as Hn.
  destruct b as [| |e next]; [by apply fill_spec|done|]. cbn [chain] in *.
  destruct (find_node eql (e :: next) k) as [d|] eqn:Hf; [eexists _, m; split; [done|]; by eapply found_spec|].
  rewrite Hn in Hl. rewrite crowded_spec by done.
  destruct (Z.leb_spec (fm_nbucket m * fm_load_factor m) (fm_size m * 100)) as [Hcr|Hcr];
    [|cbn [mbind outcome_bind]; by apply chained_spec].
  destruct (Hcase Hcr) as (g & -> & Hput).
  destruct (resize_spec _ g m Hput Hwf Hcr Hroom) as (m' & -> & Hwf' & Hlf' & Hnb' & Hsz' & Hlk').
  cbn [mbind outcome_bind]. pose proof (wf_lf _ Hwf) as Hlf.
  destruct (Hput m' k Hwf') as (a & m2 & HE2 & Hw2 & Hloc2 & Hlf2 & Hnb2 & Hsz2 & Hlk2); [lia| |].
  { rewrite Hsz', Hlf'. rewrite Nat2Z.inj_succ, Z.pow_succ_r in Hroom by lia.
    pose proof (Z.pow_pos_nonneg 2 (Z.of_nat g) ltac:(lia) ltac:(lia)).
    pose proof (Z.mul_le_mono_nonneg_r (2 * fm_nbucket m) (fm_nbucket m')
      (fm_load_factor m * 2 ^ Z.of_nat g) ltac:(nia) Hnb'). lia. }
  exists a, m2. split; [done|]. rewrite Hlk', Hl in Hsz2. unfold indexed. rewrite Hl.
  split; [done|]. split; [done|]. split; [congruence|]. split; [pose proof (pow2_bounds _ (wf_nb _ Hwf)); lia|].
  split; [lia|]. intros k'. by rewrite Hlk2, !Hlk', Hl.
Qed.

Lemma index_op_spec f : good_put f (index_op (S f)).
Proof.
  induction f as [|f IH]; intros m k Hwf Hsz Hroom; apply index_op_step; try done.
  - intros Hcr. change (2 ^ Z.of_nat 0) with 1 in Hroom. lia.
  - intros _. by exists f.
Qed.

Lemma insert_spec m k v : wf m -> fm_size m + 1 < 2 ^ 40 ->
  exists a m', insert hashfn eql dflt false alloc talloc nodes raw m k v = Ok (a, m') /\ wf m' /\ located m' a k
    /\ fm_size m' = fm_size m + (match lookup_map m k with Some _ => 0 | None => 1 end)
    /\ forall k', lookup_map m' k' = if eql k k' then Some v else lookup_map m k'.
Proof.
  intros Hwf Hsz. pose proof (pow2_bounds _ (wf_nb _ Hwf)) as Hb. pose proof (wf_lf _ Hwf) as Hlf.
  assert (Hput : good_put 63 (index_op map_fuel)) by apply index_op_spec.
  destruct (Hput m k Hwf Hsz) as (a & m1 & HE & Hwf1 & Hloc & _ & _ & Hsz1 & Hlk1).
  { pose proof (wf_size _ Hwf). change (2 ^ Z.of_nat 63) with 9223372036854775808.
    change (2 ^ 40) with 1099511627776 in *. nia. }
  unfold insert. rewrite HE. cbn [mbind outcome_bind].
  destruct (write_spec m1 a k v Hwf1 Hloc) as (m2 & HE2 & Hwf2 & Hsz2 & Hnb2 & Hlf2 & Hloc2 & Hlk2).
  rewrite HE2. cbn [mbind outcome_bind]. exists a, m2. split; [done|]. split; [done|]. split; [done|].
  split; [lia|]. intros k'. rewrite Hlk2, Hlk1. by destruct (eql k k').
Qed.

(** ** Removal *)

Lemma unlink_spec l k :
  match unlink eql l k with
  | Some (v, l') => assoc l k = Some v /\ length l = S (length l') /\ (forall x, In x l' -> In x l)
      /\ (distinct l -> distinct l' /\ forall k', assoc l' k' = if eql k k' then None else assoc l k')
  | None => assoc l k = None
  end.
Proof.
  induction l as [|e l IH]; [done|]. simpl. destruct (eql (fst e) k) eqn:E.
  - split; [done|]. split; [done|]. split; [by right|]. intros [Hn Hd]. split; [done|]. intros k'.
    destruct (eql k k') eqn:Ek.
    + by rewrite <- (assoc_eql l (fst e) k' (eql_trans _ _ _ E Ek)).
    + destruct (eql (fst e) k') eqn:Ek'; [|done]. rewrite eql_sym in E. by rewrite (eql_trans _ _ _ E Ek') in Ek.
  - destruct (unlink eql l k) as [[v l']|]; [|done]. simpl. destruct IH as (Ha & Hlen & Hsub & Hd').
    split; [done|]. split; [lia|]. split; [intros x [->|Hx]; [by left|right; by apply Hsub]|]. intros [Hn Hd]. destruct (Hd' Hd) as [Hd2 Hlk].
    split.
    + split; [|done]. rewrite Hlk. by destruct (eql k (fst e)).
    + intros k'. rewrite Hlk. destruct (eql (fst e) k') eqn:Ek; [|done].
      destruct (eql k k') eqn:Ek2; [|done]. rewrite eql_sym in Ek2. by rewrite (eql_trans _ _ _ Ek Ek2) in E.
Qed.

Lemma removed_spec m k b v l' : wf m -> bucket_at m (index_of m k) = Ok b -> unlink eql (chain b) k = Some (v, l') ->
  let m' := with_bucket m (index_of m k) (of_chain l') (fm_size m - 1) in
  wf m' /\ lookup_map m k = Some v
  /\ forall k', lookup_map m' k' = if eql k k' then None else lookup_map m k'.
Proof.
  intros Hwf Hb Hu m'. destruct (wf_bucket m k Hwf) as (bs & b0 & _ & _ & Hat & (Hs & Hd & Hall) & Hl).
  rewrite Hb in Hat. injection Hat as <-. pose proof (unlink_spec (chain b) k) as Hn. rewrite Hu in Hn.
  destruct Hn as (Ha & Hlen & Hsub & Hd'). destruct (Hd' Hd) as [Hd2 Hlk].
  assert (Hch : chain (of_chain l') = l') by (by destruct l'). pose proof (wf_size _ Hwf).
  destruct (with_bucket_ok m k b (of_chain l') (fm_size m - 1) Hwf Hb) as (Hwf' & _ & Hlk').
  - split; [by destruct l'|]. rewrite Hch. split; [done|]. rewrite List.Forall_forall in Hall |- *.
    intros x Hx. apply Hall. by apply Hsub.
  - rewrite Hch. lia.
  - lia.
  - split; [done|]. split; [by rewrite Hl|]. intros k'. unfold m'. rewrite Hlk', Hch. case_decide as E.
    + rewrite Hlk. destruct (eql k k'); [done|]. destruct (wf_bucket m k' Hwf) as (? & b1 & _ & _ & Hat1 & _ & ->).
      rewrite E, Hb in Hat1. by injection Hat1 as <-.
    + destruct (eql k k') eqn:Ek; [|done]. exfalso. apply E. unfold FlatMap.index_of. by rewrite (eql_hash _ _ Ek).
Qed.

Lemma erase_spec m k : wf m ->
  exists m', erase hashfn eql false m k
    = Ok (match lookup_map m k with Some _ => 1 | None => 0 end, lookup_map m k, m')
    /\ wf m' /\ fm_size m' <= fm_size m
    /\ forall k', lookup_map m' k' = if eql k k' then None else lookup_map m k'.
Proof.
  intros Hwf. destruct (wf_bucket m k Hwf) as (bs & b & Hbs & _ & Hat & (Hs & _) & Hl).
  unfold erase, map_initialized. rewrite Hbs. cbn [negb]. rewrite Hat. cbn [mbind outcome_bind].
  assert (Hnone : lookup_map m k = None -> wf m /\ fm_size m <= fm_size m
    /\ forall k', lookup_map m k' = if eql k k' then None else lookup_map m k').
  { intros Hn. split; [done|]. split; [lia|]. intros k'. destruct (eql k k') eqn:Ek; [|done].
    by rewrite <- (lookup_eql m k k' Hwf Ek). }
  pose proof (removed_spec m k b) as Hrem. pose proof (unlink_spec (chain b) k) as Hun. pose proof (wf_size _ Hwf) as Hsz.
  destruct b as [| |e next]; [exists m; by rewrite Hl; apply (conj eq_refl), Hnone; rewrite Hl|done|].
  assert (Hset : forall b', set_bucket m (index_of m k) b' = Ok (with_bucket m (index_of m k) b' (fm_size m)))
    by (intros b'; by apply (set_bucket_eq m _ (Node e next))).
  assert (Hpos : lookup_map m k <> None -> 0 < fm_size m).
  { intros Hn. destruct (wf_elems m Hwf) as [_ He]. destruct (elems m) eqn:Ee; [|simpl in Hsz; lia].
    by rewrite <- He in Hn. }
  cbn [chain] in *. simpl in Hun, Hrem. destruct (eql (fst e) k) eqn:E.
  - destruct (Hrem (snd e) next Hwf Hat eq_refl) as (Hwf' & Hv & Hlk'). rewrite Hv in *.
    exists (with_bucket m (index_of m k) (of_chain next) (fm_size m - 1)).
    split; [|split; [done|split; [simpl; lia|done]]].
    specialize (Hpos ltac:(done)). unfold on_thumbnail.
    destruct next; rewrite Hset; cbn [mbind outcome_bind]; unfold set_size, with_bucket; simpl;
      rewrite w64_id by lia; done.
  - destruct (unlink eql next k) as [[v next']|].
    + destruct (Hrem v (e :: next') Hwf Hat eq_refl) as (Hwf' & Hv & Hlk'). rewrite Hv in *.
      exists (with_bucket m (index_of m k) (of_chain (e :: next')) (fm_size m - 1)).
      split; [|split; [done|split; [simpl; lia|done]]]. specialize (Hpos ltac:(done)).
      rewrite Hset. cbn [mbind outcome_bind]. unfold set_size, with_bucket. simpl. by rewrite w64_id by lia.
    + assert (lookup_map m k = None) as Hn by (rewrite Hl; simpl; by rewrite E).
      exists m. rewrite Hn. split; [done|]. by apply Hnone.
Qed.

(** ** Clearing and copying *)

(** After [j] rounds of [clear]. *)
Definition cleared_to (m : FMap) (bs : list (Bucket K T)) (j : Z) (m' : FMap) : Prop :=
  m' = mkMap 0 (fm_nbucket m) (Some (replicate (Z.to_nat j) Invalid ++ drop (Z.to_nat j) bs ++ [Sentinel]))
         None (fm_load_factor m).

Lemma step_list {A} (l : list A) (x : A) (z : list A) (j : nat) :
  (j < length l)%nat ->
  <[j := x]> (replicate j x ++ drop j l ++ z) = replicate (S j) x ++ drop (S j) l ++ z.
Proof.
  intros Hj. destruct (lookup_lt_is_Some_2 l j Hj) as [b Hb]. rewrite (drop_S l b j Hb).
  rewrite insert_app_r_alt by (rewrite length_replicate; lia). rewrite length_replicate, Nat.sub_diag.
  rewrite replicate_S_end. by rewrite <- app_assoc.
Qed.

Lemma map_clear_spec m : wf m ->
  exists m', map_clear m = Ok m' /\ wf m' /\ fm_size m' = 0 /\ forall k, lookup_map m' k = None.
Proof.
  intros Hwf. pose proof Hwf as [Hnb Hlf Hsz (bs & Hb & Hlen & Hall) Hth]. unfold map_clear.
  destruct (Z.eqb_spec (fm_size m) 0) as [E|E].
  - exists m. split; [done|]. split; [done|]. split; [done|]. intros k.
    destruct (wf_elems m Hwf) as [_ <-]. destruct (elems m); [done|]. simpl in Hsz. lia.
  - destruct (fresh_wf (fm_nbucket m) (fm_load_factor m) Hnb Hlf) as [Hwf' Hlk].
    eexists. split; [|split; [exact Hwf'|split; [done|exact Hlk]]].
    unfold map_initialized, set_size. cbn [fm_buckets fm_nbucket]. rewrite Hb. change (w64 0) with 0.
    assert (Hloop : for_ (fm_nbucket m) (fun i m => b ← bucket_at m i;
        if is_valid b then set_bucket m i Invalid else Ok m)
        (mkMap 0 (fm_nbucket m) (Some (bs ++ [Sentinel])) (fm_thumbnail m) (fm_load_factor m))
      ⇓ cleared_to m bs (fm_nbucket m)).
    { apply (for_inv (cleared_to m bs)); [pose proof (pow2_bounds _ Hnb); lia| | |done].
      - unfold cleared_to. by rewrite Hth.
      - intros j m1 Hj Hm1. unfold cleared_to in Hm1. subst m1.
        destruct (lookup_lt_is_Some_2 bs (Z.to_nat j)) as [b Hbj]; [lia|].
        assert (Hat : bucket_at (mkMap 0 (fm_nbucket m) (Some (replicate (Z.to_nat j) Invalid
            ++ drop (Z.to_nat j) bs ++ [Sentinel])) None (fm_load_factor m)) j = Ok b).
        { unfold bucket_at. simpl. apply vec_at_some; [lia|].
          rewrite lookup_app_r, length_replicate, Nat.sub_diag by (rewrite length_replicate; lia).
          by rewrite (drop_S bs b _ Hbj). }
        rewrite Hat. cbn [mbind outcome_bind]. unfold cleared_to.
        replace (Z.to_nat (j + 1)) with (S (Z.to_nat j)) by lia.
        rewrite <- (step_list bs Invalid [Sentinel]) by lia.
        destruct (is_valid b) eqn:Hv; [by rewrite (set_bucket_eq _ _ b)|]. destruct b; try done. simpl. do 2 f_equal.
        symmetry. apply list_insert_id.
        rewrite lookup_app_r, length_replicate, Nat.sub_diag by (rewrite length_replicate; lia).
        by rewrite (drop_S bs Invalid _ Hbj). }
    apply returns_ok in Hloop as (m1 & HE & ->). rewrite HE. cbn [mbind outcome_bind fm_thumbnail].
    do 3 f_equal. rewrite <- Hlen, Nat2Z.id, drop_all. done.
Qed.

(** The copy of an initialised map, after [j] buckets. *)
Definition copied_to (bs : list (Bucket K T)) (n lf : Z) (j : Z) : FMap :=
  mkMap 0 n (Some (take (Z.to_nat j) bs ++ replicate (Z.to_nat (n - j)) Invalid ++ [Sentinel])) None lf.

Lemma copied_set bs n lf j b : 0 <= j < n -> Z.of_nat (length bs) = n ->
  set_bucket (copied_to bs n lf j) j b
  = Ok (mkMap 0 n (Some ((take (Z.to_nat j) bs ++ [b]) ++ replicate (Z.to_nat (n - (j + 1))) Invalid
                         ++ [Sentinel])) None lf).
Proof.
  intros Hj Hlen. assert (Htake : length (take (Z.to_nat j) bs) = Z.to_nat j) by (rewrite length_take; lia).
  unfold copied_to, set_bucket, bucket_at. cbn [fm_buckets].
  replace (Z.to_nat (n - j)) with (S (Z.to_nat (n - (j + 1)))) by lia.
  rewrite (vec_at_some _ j Invalid); [|lia|by rewrite lookup_app_r, Htake, Nat.sub_diag by lia].
  cbn [mbind outcome_bind]. simpl. do 3 f_equal. rewrite insert_app_r_alt by lia.
  rewrite Htake, Nat.sub_diag. simpl. by rewrite <- app_assoc.
Qed.

Lemma copy_round rhs bs lf j : fm_buckets rhs = Some (bs ++ [Sentinel]) ->
  Z.of_nat (length bs) = fm_nbucket rhs -> 0 <= j < fm_nbucket rhs ->
  copy_bucket false nodes rhs j (copied_to bs (fm_nbucket rhs) lf j) = Ok (copied_to bs (fm_nbucket rhs) lf (j + 1)).
Proof.
  intros Hb Hlen Hj. destruct (lookup_lt_is_Some_2 bs (Z.to_nat j)) as [b Hbj]; [lia|].
  unfold copy_bucket, bucket_at at 1. rewrite Hb.
  rewrite (vec_at_some _ _ b) by (lia || by apply lookup_app_l_Some). cbn [mbind outcome_bind].
  unfold on_thumbnail, pool_get. rewrite nodes_ok. cbn [mbind outcome_bind].
  assert ((match chain b with _ :: _ :: _ => Ok tt | _ => Ok tt end) = Ok tt) as -> by (by destruct (chain b) as [|? []]).
  cbn [mbind outcome_bind]. rewrite !copied_set by done.
  unfold copied_to. replace (Z.to_nat (j + 1)) with (S (Z.to_nat j)) by lia.
  rewrite (take_S_r bs _ b Hbj). by destruct b.
Qed.

Lemma copy_spec rhs : wf rhs ->
  exists m', FlatMap_copy hashfn eql dflt false alloc talloc nodes raw rhs = Ok m' /\ wf m'
    /\ forall k, lookup_map m' k = lookup_map rhs k.
Proof.
  intros Hwf. pose proof Hwf as [Hnb Hlf Hsz (bs & Hb & Hlen & Hall) Hth].
  pose proof (pow2_bounds _ Hnb) as Hbd. unfold FlatMap_copy, map_assign, map_clear.
  cbn [fm_size mbind outcome_bind]. change (0 =? 0) with true. cbn [mbind outcome_bind].
  unfold map_initialized. rewrite Hb. cbn [negb fm_buckets fm_size fm_nbucket fm_thumbnail orb].
  unfold new_buckets_and_thumbnail. cbn [fm_load_factor]. rewrite round_loop_fresh by done.
  cbn [mbind outcome_bind]. rewrite alloc_ok. cbn [andb init_buckets_and_thumbnail mbind outcome_bind].
  unfold table_missing. cbn [nb_nbucket nb_buckets]. destruct (Z.eqb_spec (fm_nbucket rhs) 0); [lia|].
  cbn [orb andb negb]. unfold map_empty.
  destruct (Z.eqb_spec (fm_size rhs) 0) as [E|E].
  - eexists. split; [reflexivity|]. destruct (fresh_wf (fm_nbucket rhs) (fm_load_factor rhs) Hnb Hlf) as [Hwf' Hlk].
    split; [exact Hwf'|]. intros k. etrans; [apply Hlk|]. destruct (wf_elems rhs Hwf) as [_ <-].
    destruct (elems rhs); [done|]. simpl in Hsz. lia.
  - cbn [mbind outcome_bind negb fm_nbucket]. rewrite Z.eqb_refl.
    assert (Hloop : for_ (fm_nbucket rhs) (copy_bucket false nodes rhs)
        (copied_to bs (fm_nbucket rhs) (fm_load_factor rhs) 0)
      ⇓ fun m' => m' = copied_to bs (fm_nbucket rhs) (fm_load_factor rhs) (fm_nbucket rhs)).
    { apply (for_inv (fun j m' => m' = copied_to bs (fm_nbucket rhs) (fm_load_factor rhs) j)); [lia|done| |done].
      intros j m1 Hj ->. by rewrite copy_round. }
    apply returns_ok in Hloop as (m1 & HE & ->). unfold copied_to at 1 in HE. rewrite Z.sub_0_r in HE.
    change (Z.to_nat 0) with 0%nat in HE. rewrite take_0 in HE. cbn [app] in HE. rewrite HE. cbn [mbind outcome_bind].
    unfold copied_to. rewrite Z.sub_diag, take_ge by lia. change (Z.to_nat 0) with 0%nat. cbn [replicate app].
    unfold set_bucket, bucket_at. cbn [fm_buckets].
    assert (Hlast : (bs ++ [Sentinel]) !! Z.to_nat (fm_nbucket rhs) = Some Sentinel)
      by (rewrite <- Hlen, Nat2Z.id; by rewrite lookup_app_r, Nat.sub_diag).
    rewrite (vec_at_some _ _ Sentinel) by (done || lia). cbn [mbind outcome_bind].
    eexists. split; [reflexivity|]. simpl. rewrite list_insert_id by done.
    destruct rhs as [sz nb bks th lf]. simpl in *. subst bks th. by split.
Qed.
Lemma mexec_spec m s o : wf m -> (forall k, lookup_map m k = s k) -> fm_size m + 1 < 2 ^ 40 ->
  exists m', mexec hashfn eql dflt false alloc talloc nodes raw m o = Ok (fst (mspec eql s o), m')
    /\ wf m' /\ fm_size m' <= fm_size m + 1
    /\ forall k, lookup_map m' k = snd (mspec eql s o) k.
Proof.
  intros Hwf Hs Hsz. destruct o as [k v|k|k|]; simpl.
  - destruct (insert_spec m k v Hwf Hsz)
      as (a & m' & -> & Hwf' & _ & Hsz' & Hlk). exists m'. split; [done|]. split; [done|].
    split; [destruct (lookup_map m k); lia|]. intros k'. rewrite Hlk, Hs. done.
  - destruct (erase_spec m k Hwf)
      as (m' & -> & Hwf' & Hsz' & Hlk). exists m'. rewrite Hs. split; [done|]. split; [done|]. split; [lia|].
    intros k'. by rewrite Hlk, Hs.
  - destruct (seek_spec m k Hwf)
      as (r & -> & Hr). cbn [mbind outcome_bind]. exists m. destruct r as [a|].
    + destruct (located_read m a k Hwf Hr)
        as (v & -> & Hv). rewrite <- Hs, Hv. split; [done|]. split; [done|]. split; [lia|done].
    + rewrite <- Hs, Hr. split; [done|]. split; [done|]. split; [lia|done].
  - destruct (map_clear_spec m Hwf)
      as (m' & -> & Hwf' & Hsz' & Hlk). exists m'. split; [done|]. split; [done|]. split; [|done].
    pose proof (wf_size _ Hwf). lia.
Qed.

Lemma mrun_spec os : forall m s, wf m -> (forall k, lookup_map m k = s k) ->
  fm_size m + Z.of_nat (length os) < 2 ^ 40 ->
  exists m', mrun hashfn eql dflt false alloc talloc nodes raw m os = Ok (fst (mspecs eql s os), m')
    /\ wf m' /\ forall k, lookup_map m' k = snd (mspecs eql s os) k.
Proof.
  induction os as [|o os IH]; intros m s Hwf Hs Hsz; [by exists m|]. simpl in Hsz. cbn [mrun mspecs].
  destruct (mexec_spec m s o Hwf Hs ltac:(lia)) as (m1 & -> & Hwf1 & Hsz1 & Hlk1).
  destruct (mspec eql s o) as [r s1]. simpl in Hlk1. cbn [mbind outcome_bind fst].
  destruct (IH m1 s1 Hwf1 Hlk1 ltac:(lia)) as (m2 & -> & Hwf2 & Hlk2).
  destruct (mspecs eql s1 os) as [rs s2]. simpl in Hlk2. cbn [mbind outcome_bind fst]. by exists m2.
Qed.
End Facts.

(** ** Sparse maps of fewer than 64 buckets *)

(** The search after the only valid bucket [p] of a small table comes back to
    it. *)
Lemma first1_wraps nb p : nb = 8 \/ nb = 16 \/ nb = 32 -> 0 <= p < nb - 1 ->
  bit_array_first1 [2 ^ p] (p + 2) nb = Ok p.
Proof.
  intros Hnb Hp.
  assert (Hall : forallb (fun nb => forallb (fun p =>
    match bit_array_first1 [2 ^ Z.of_nat p] (Z.of_nat p + 2) nb with Ok q => q =? Z.of_nat p | _ => false end)
    (seq 0 (Z.to_nat (nb - 1)))) [8; 16; 32] = true) by (vm_compute; reflexivity).
  rewrite forallb_forall in Hall.
  assert (Hin : In nb [8; 16; 32]) by (simpl; destruct Hnb as [->|[->| ->]]; auto).
  specialize (Hall nb Hin). rewrite forallb_forall in Hall.
  specialize (Hall (Z.to_nat p) ltac:(apply in_seq; lia)). cbv beta in Hall. rewrite Z2Nat.id in Hall by lia.
  destruct (bit_array_first1 [2 ^ p] (p + 2) nb) as [q| |]; try done. apply Z.eqb_eq in Hall. by rewrite Hall.
Qed.

Lemma sparse_stuck {K T} (m : FlatMap K T) bs nb p e :
  nb = 8 \/ nb = 16 \/ nb = 32 -> 0 <= p < nb - 1 -> fm_nbucket m = nb ->
  fm_buckets m = Some (bs ++ [Sentinel]) -> Z.of_nat (length bs) = nb ->
  bs !! Z.to_nat p = Some (Node e []) -> bs !! Z.to_nat (p + 1) = Some Invalid ->
  fm_thumbnail m = Some [2 ^ p] -> iter_next true m (mkIter p 0) = Ok (mkIter p 0).
Proof.
  intros Hnb Hp Hn Hb Hlen Hbp Hbq Ht. unfold iter_next, bucket_at. cbn [it_entry it_depth]. rewrite Hb.
  rewrite (vec_at_some _ _ (Node e [])) by (lia || by apply lookup_app_l_Some). cbn [mbind outcome_bind chain].
  cbn [lookup list_lookup]. unfold find_and_set_valid_node, find_sparse, bucket_at. rewrite Hb.
  rewrite (vec_at_some _ _ Invalid) by (lia || by apply lookup_app_l_Some). cbn [mbind outcome_bind is_valid].
  rewrite Ht, Hn. rewrite w64_id by (destruct Hnb as [->|[->| ->]]; lia).
  replace (p + 1 + 1) with (p + 2) by lia. by rewrite first1_wraps.
Qed.

(** ** Main statements *)

(** C9. Any sequence of fewer than [2 ^ 40] insertions, removals, searches and
    clears on a dense map, with any hash that agrees with the equality test,
    returns what the same calls return on a finite function, as long as every
    allocation succeeds; resizing and nested resizing change nothing of that,
    and every call ends within 64 levels of resizing. *)
Theorem flatmap_refines {K T : Type} (hashfn : K -> Z) (eql : K -> K -> bool) (dflt : T)
    (alloc talloc : Z -> bool) (raw : nat -> list Z) os m s :
  (forall k, eql k k = true) -> (forall a b, eql a b = eql b a) ->
  (forall a b c, eql a b = true -> eql b c = true -> eql a c = true) ->
  (forall a b, eql a b = true -> hashfn a = hashfn b) -> (forall k, 0 <= hashfn k) ->
  (forall n, alloc n = true) -> wf hashfn eql m -> (forall k, lookup_map hashfn eql m k = s k) ->
  fm_size m + Z.of_nat (length os) < 2 ^ 40 ->
  exists m', mrun hashfn eql dflt false alloc talloc true raw m os = Ok (fst (mspecs eql s os), m')
    /\ wf hashfn eql m' /\ forall k, lookup_map hashfn eql m' k = snd (mspecs eql s os) k.
Proof. intros H1 H2 H3 H4 H5 H6. by apply mrun_spec. Qed.

Lemma flatmap_refines_witness :
  exists m', mrun Z.abs Z.eqb 0 false (fun _ => true) (fun _ => true) true (fun _ => [])
      (mkMap 0 8 (Some (replicate 8 Invalid ++ [Sentinel])) None 10)
      [MInsert 3 30; MInsert 11 110; MInsert 3 31; MSeek 11; MErase 3; MSeek 3; MInsert 19 190; MSeek 19]
    = Ok ([None; None; None; Some 110; Some 31; None; None; Some 190], m')
    /\ wf Z.abs Z.eqb m'
    /\ forall k, lookup_map Z.abs Z.eqb m' k
       = if 19 =? k then Some 190 else if 3 =? k then None else if 3 =? k then Some 31
         else if 11 =? k then Some 110 else if 3 =? k then Some 30 else None.
Proof.
  assert (Hfresh := fresh_wf (T:=Z) Z.abs Z.eqb Z.abs_nonneg 8 10 ltac:(by exists 3) ltac:(lia)).
  apply (flatmap_refines Z.abs Z.eqb 0 (fun _ => true) (fun _ => true) (fun _ => [])
    [MInsert 3 30; MInsert 11 110; MInsert 3 31; MSeek 11; MErase 3; MSeek 3; MInsert 19 190; MSeek 19]
    (mkMap 0 8 (Some (replicate 8 Invalid ++ [Sentinel])) None 10) (fun _ => None)).
  - apply Z.eqb_refl.
  - apply Z.eqb_sym.
  - intros a b c H1%Z.eqb_eq H2%Z.eqb_eq. apply Z.eqb_eq. congruence.
  - by intros a b ->%Z.eqb_eq.
  - apply Z.abs_nonneg.
  - done.
  - exact (proj1 Hfresh).
  - exact (proj2 Hfresh).
  - reflexivity.
Defined.

(** A table that cannot be allocated ends the program, where the comment in
    [operator[]] says that it is all right when resizing fails: the second key
    of a bucket, in a map at its load factor. *)
Example flatmap_resize_fatal :
  mrun Z.abs Z.eqb 0 false (fun _ => false) (fun _ => true) true (fun _ => [])
    (mkMap 0 8 (Some (replicate 8 Invalid ++ [Sentinel])) None 10) [MInsert 3 30; MInsert 11 110] = Fault Terminated.
Proof. by vm_compute. Qed.

(** The copy of a map has the same elements, provided its table and nodes can
    be allocated. *)
Theorem flatmap_copy_equal {K T : Type} (hashfn : K -> Z) (eql : K -> K -> bool) (dflt : T)
    (alloc talloc : Z -> bool) (raw : nat -> list Z) rhs :
  (forall a b, eql a b = true -> hashfn a = hashfn b) -> (forall k, 0 <= hashfn k) ->
  (forall n, alloc n = true) -> wf hashfn eql rhs ->
  exists m', FlatMap_copy hashfn eql dflt false alloc talloc true raw rhs = Ok m' /\ wf hashfn eql m'
    /\ forall k, lookup_map hashfn eql m' k = lookup_map hashfn eql rhs k.
Proof. intros H1 H2 H3. by apply copy_spec. Qed.

Lemma flatmap_copy_equal_witness :
  exists m', FlatMap_copy Z.abs Z.eqb 0 false (fun _ => true) (fun _ => true) true (fun _ => [])
      (mkMap 0 8 (Some (replicate 8 Invalid ++ [Sentinel])) None 10) = Ok m'
    /\ wf Z.abs Z.eqb m'
    /\ forall k, lookup_map Z.abs Z.eqb m' k
       = lookup_map Z.abs Z.eqb (mkMap 0 8 (Some (replicate 8 Invalid ++ [Sentinel])) None 10) k.
Proof.
  apply (flatmap_copy_equal Z.abs Z.eqb 0 (fun _ => true) (fun _ => true) (fun _ => [])
    (mkMap 0 8 (Some (replicate 8 Invalid ++ [Sentinel])) None 10)); [by intros a b ->%Z.eqb_eq
    |apply Z.abs_nonneg|done|].
  apply (fresh_wf (T:=Z) Z.abs Z.eqb Z.abs_nonneg 8 10); [by exists 3|lia].
Defined.

(** A sparse map of 8, 16 or 32 buckets cannot be walked: after its only
    bucket, unless that is the last, the iterator returns to that bucket, and
    the loop from [begin()] to [end()] never ends, whatever its body does. *)
Theorem sparse_walk_never_ends {K T S : Type} (m : FlatMap K T) bs nb p e
    (body : K * T -> S -> outcome S) fuel s :
  nb = 8 \/ nb = 16 \/ nb = 32 -> 0 <= p < nb - 1 -> fm_nbucket m = nb ->
  fm_buckets m = Some (bs ++ [Sentinel]) -> Z.of_nat (length bs) = nb ->
  bs !! Z.to_nat p = Some (Node e []) -> bs !! Z.to_nat (p + 1) = Some Invalid ->
  fm_thumbnail m = Some [2 ^ p] -> (forall e s, exists s', body e s = Ok s') ->
  traverse true fuel m body (Some (mkIter p 0)) s = Diverge.
Proof.
  intros Hnb Hp Hn Hb Hlen Hbp Hbq Ht Hbody. revert s. induction fuel as [|fuel IH]; intros s; [done|].
  cbn [traverse]. assert (map_end true m = Ok (Some (mkIter nb 0))) as ->.
  { unfold map_end, iterator_at, map_initialized, find_and_set_valid_node, find_sparse, bucket_at. rewrite Hb, Hn.
    rewrite (vec_at_some _ _ Sentinel) by (lia || (rewrite <- Hlen, Nat2Z.id; by rewrite lookup_app_r, Nat.sub_diag)).
    done. }
  cbn [mbind outcome_bind]. rewrite decide_False by (intros [= E]; lia).
  assert (iter_deref m (mkIter p 0) = Ok e) as ->.
  { unfold iter_deref, bucket_at. cbn [it_entry it_depth]. rewrite Hb.
    by rewrite (vec_at_some _ _ (Node e [])) by (lia || by apply lookup_app_l_Some). }
  cbn [mbind outcome_bind]. destruct (Hbody e s) as [s' ->]. cbn [mbind outcome_bind].
  rewrite (sparse_stuck m bs nb p e) by done. cbn [mbind outcome_bind]. apply IH.
Qed.

(** A sparse map of 8 buckets with key 2. *)
Definition sparse_example : FlatMap Z Z :=
  mkMap 1 8 (Some ([Invalid; Invalid; Node (2, 20) []; Invalid; Invalid; Invalid; Invalid; Invalid] ++ [Sentinel]))
    (Some [4]) 80.

Lemma sparse_example_built :
  ('(code, m) ← map_init true (fun _ => true) (fun _ => true) (fun n => replicate n 0) FlatMap_new 8 80;
   '(a, m) ← insert Z.abs Z.eqb 0 true (fun _ => true) (fun _ => true) true (fun n => replicate n 0) m 2 20;
   Ok (code, a, m)) = Ok (0, (2, 0%nat), sparse_example).
Proof. vm_compute. reflexivity. Qed.

Lemma sparse_walk_never_ends_witness :
  traverse true 1000 sparse_example (fun e n => Ok (n + snd e)) (Some (mkIter 2 0)) 0 = Diverge.
Proof.
  apply (sparse_walk_never_ends sparse_example
    [Invalid; Invalid; Node (2, 20) []; Invalid; Invalid; Invalid; Invalid; Invalid] 8 2 (2, 20)
    (fun e n => Ok (n + snd e)) 1000 0); try reflexivity; [by left|lia|].
  intros e n. by eexists.
Defined.

(** Removing a key from a map with several values per key: when the first
    element of the bucket has the key and another element does not, the code
    assigns to the element it has just destroyed. *)
Theorem erase_multi_destroyed {K T : Type} (hashfn : K -> Z) (eql : K -> K -> bool) (m : FlatMap K T) key e next x :
  bucket_at m (flatmap_mod (hashfn key) (fm_nbucket m)) = Ok (Node e next) ->
  eql (fst e) key = true -> In x next -> eql (fst x) key = false ->
  erase_multi hashfn eql false m key = Fault Uninitialised.
Proof.
  intros Hb He Hx Hn. unfold erase_multi.
  destruct (map_initialized m) eqn:Hi; [|unfold bucket_at in Hb; unfold map_initialized in Hi;
    by destruct (fm_buckets m)].
  cbn [negb]. unfold index_of. rewrite Hb. cbn [mbind outcome_bind].
  assert (In x (List.filter (fun x => negb (eql (fst x) key)) (e :: next))) as Hin.
  { apply filter_In. split; [by right|by rewrite Hn]. }
  destruct (List.filter (fun x => negb (eql (fst x) key)) (e :: next)); [done|]. by rewrite He.
Qed.

Lemma erase_multi_destroyed_witness :
  erase_multi Z.abs Z.eqb false
    (mkMap 2 8 (Some ([Invalid; Node (1, 10) [(9, 90)]; Invalid; Invalid; Invalid; Invalid; Invalid; Invalid]
                      ++ [Sentinel])) None 80) 1 = Fault Uninitialised.
Proof.
  apply (erase_multi_destroyed Z.abs Z.eqb
    (mkMap 2 8 (Some ([Invalid; Node (1, 10) [(9, 90)]; Invalid; Invalid; Invalid; Invalid; Invalid; Invalid]
                      ++ [Sentinel])) None 80) 1 (1, 10) [(9, 90)] (9, 90)); try reflexivity. by left.
Defined.
