(* ===== verification/WorkStealing.v ===== *)
(** * The work-stealing queue (libsh/bthread/work_stealing_queue.h)

    One owner pushes and pops at the bottom, any number of thieves steal at
    the top, all at the same time.  Each access to [_bottom], [_top] or a slot
    of [_buffer] is one step of its thread; the steps of all threads interleave
    in any order (one total order of the accesses: the [memory_order] arguments
    and the fence are not modelled).  A thread in the middle of a function is a
    program counter with the local variables that are still used.

    The contract is a deque with atomic operations: a call is pending, takes
    effect at one instant between call and return, and returns what it did
    then.  [abs] maps the state of the program to the state of the contract. *)

From Stdlib Require Import ZArith Lia.
From stdpp Require Import base list numbers relations.
From S2P Require Import Prelude Numerics BoundedQueue.

Open Scope Z_scope.

Record WorkStealingQueue (T : Type) : Type := mkWSQ {
  ws_bottom : Z;
  ws_capacity : Z;
  ws_buffer : option (list T);
  ws_top : Z
}.
Arguments mkWSQ {T}.
Arguments ws_bottom {T}.
Arguments ws_capacity {T}.
Arguments ws_buffer {T}.
Arguments ws_top {T}.

Section WorkStealing.
Context {T : Type} (dflt : T).

Notation wsq := (WorkStealingQueue T).

Definition WorkStealingQueue_ctor : wsq := mkWSQ 1 0 None 1.

(** [delete [] _buffer; _buffer = NULL]. *)
Definition WorkStealingQueue_dtor (q : wsq) : wsq :=
  mkWSQ (ws_bottom q) (ws_capacity q) None (ws_top q).

(** [alloc n] tells whether [new(std::nothrow) T[n]] succeeds. *)
Definition init (alloc : Z -> bool) (q : wsq) (capacity : Z) : Z * wsq :=
  if negb (ws_capacity q =? 0) then (-1, q)
  else if capacity =? 0 then (-1, q)
  else if negb (Z.land capacity (u64 (capacity - 1)) =? 0) then (-1, q)
  else if alloc capacity
       then (0, mkWSQ (ws_bottom q) capacity
                  (Some (replicate (Z.to_nat capacity) dflt)) (ws_top q))
       else (-1, mkWSQ (ws_bottom q) (ws_capacity q) None (ws_top q)).

Definition volatile_size (q : wsq) : Z :=
  if ws_bottom q <=? ws_top q then 0 else u64 (ws_bottom q - ws_top q).

Definition capacity (q : wsq) : Z := ws_capacity q.

(** Accesses to the shared state. *)
Definition ws_slot (q : wsq) (i : Z) : Z := Z.land i (u64 (ws_capacity q - 1)).

Definition read_slot (q : wsq) (i : Z) : outcome T :=
  match ws_buffer q with
  | Some buf => vec_at buf (ws_slot q i)
  | None => Fault OutOfRange
  end.

Definition write_slot (q : wsq) (i : Z) (x : T) : outcome wsq :=
  _ ← read_slot q i;
  mret (mkWSQ (ws_bottom q) (ws_capacity q)
          (fmap (fun buf => <[Z.to_nat (ws_slot q i) := x]> buf) (ws_buffer q)) (ws_top q)).

Definition store_bottom (q : wsq) (b : Z) : wsq :=
  mkWSQ b (ws_capacity q) (ws_buffer q) (ws_top q).

(** [_top.compare_exchange_strong(t, t + 1)]: success and the value left in [t]. *)
Definition cas_top (q : wsq) (t : Z) : bool * Z * wsq :=
  if ws_top q =? t
  then (true, t, mkWSQ (ws_bottom q) (ws_capacity q) (ws_buffer q) (u64 (t + 1)))
  else (false, ws_top q, q).

(** What a finished call of the owner returns; a failed pop leaves [*val]
    without meaning. *)
Inductive owner_ret : Type :=
| RPush (x : T) (pushed : bool)
| RPop (r : option T).

Inductive owner_pc : Type :=
| OIdle
| OPushB (x : T)                  (** load [_bottom] *)
| OPushT (x : T) (b : Z)          (** load [_top], compare *)
| OPushW (x : T) (b : Z)          (** write the slot *)
| OPushS (x : T) (b : Z)          (** store [_bottom] *)
| OPopB                           (** load [_bottom] *)
| OPopT (b : Z)                   (** load [_top], fast check *)
| OPopS (b : Z)                   (** store [newb] *)
| OPopT2 (b : Z)                  (** load [_top] again, compare *)
| OPopR (b t : Z)                 (** read the slot *)
| OPopCas (b t : Z) (v : T)       (** compete for the last element *)
| OPopRestore (b : Z) (r : option T) (** store [b] back *)
| ORet (r : owner_ret).

Definition push_next (q : wsq) (pc : owner_pc) : outcome (wsq * owner_pc) :=
  match pc with
  | OPushB x => mret (q, OPushT x (ws_bottom q))
  | OPushT x b =>
      let t := ws_top q in
      if u64 (t + ws_capacity q) <=? b then mret (q, ORet (RPush x false))
      else mret (q, OPushW x b)
  | OPushW x b => q' ← write_slot q b x; mret (q', OPushS x b)
  | OPushS x b => mret (store_bottom q (u64 (b + 1)), ORet (RPush x true))
  | _ => mret (q, pc)
  end.

Definition pop_next (q : wsq) (pc : owner_pc) : outcome (wsq * owner_pc) :=
  match pc with
  | OPopB => mret (q, OPopT (ws_bottom q))
  | OPopT b =>
      let t := ws_top q in
      if b <=? t then mret (q, ORet (RPop None)) else mret (q, OPopS b)
  | OPopS b => mret (store_bottom q (u64 (b - 1)), OPopT2 b)
  | OPopT2 b =>
      let t := ws_top q in
      if u64 (b - 1) <? t then mret (q, OPopRestore b None) else mret (q, OPopR b t)
  | OPopR b t =>
      let newb := u64 (b - 1) in
      v ← read_slot q newb;
      if negb (t =? newb) then mret (q, ORet (RPop (Some v))) else mret (q, OPopCas b t v)
  | OPopCas b t v =>
      let '(popped, _, q') := cas_top q t in
      mret (q', OPopRestore b (if popped then Some v else None))
  | OPopRestore b r => mret (store_bottom q b, ORet (RPop r))
  | _ => mret (q, pc)
  end.

Definition owner_next (q : wsq) (pc : owner_pc) : outcome (wsq * owner_pc) :=
  match pc with
  | OPushB _ | OPushT _ _ | OPushW _ _ | OPushS _ _ => push_next q pc
  | _ => pop_next q pc
  end.

Inductive thief_pc : Type :=
| TIdle
| TLoadT                          (** load [_top] *)
| TLoadB (t : Z)                  (** load [_bottom], first check *)
| TLoop (t : Z)                   (** head of the loop: load [_bottom], check *)
| TRead (t : Z)                   (** read the slot *)
| TCas (t : Z) (v : T)            (** compete for the element *)
| TRet (r : option T).

Definition thief_next (q : wsq) (pc : thief_pc) : outcome (wsq * thief_pc) :=
  match pc with
  | TLoadT => mret (q, TLoadB (ws_top q))
  | TLoadB t =>
      let b := ws_bottom q in
      if b <=? t then mret (q, TRet None) else mret (q, TLoop t)
  | TLoop t =>
      let b := ws_bottom q in
      if b <=? t then mret (q, TRet None) else mret (q, TRead t)
  | TRead t => v ← read_slot q t; mret (q, TCas t v)
  | TCas t v =>
      let '(stolen, t', q') := cas_top q t in
      mret (q', if stolen then TRet (Some v) else TLoop t')
  | _ => mret (q, pc)
  end.

(** ** Whole calls, with no other thread in between *)

Fixpoint owner_run (fuel : nat) (q : wsq) (pc : owner_pc) : outcome (wsq * owner_ret) :=
  match fuel with
  | O => Diverge
  | S fuel =>
      match pc with
      | ORet r => mret (q, r)
      | _ => '(q', pc') ← owner_next q pc; owner_run fuel q' pc'
      end
  end.

Definition push (q : wsq) (x : T) : outcome (wsq * owner_ret) := owner_run 5 q (OPushB x).
Definition pop (q : wsq) : outcome (wsq * owner_ret) := owner_run 8 q OPopB.

Fixpoint thief_run (fuel : nat) (q : wsq) (pc : thief_pc) : outcome (wsq * option T) :=
  match fuel with
  | O => Diverge
  | S fuel =>
      match pc with
      | TRet r => mret (q, r)
      | _ => '(q', pc') ← thief_next q pc; thief_run fuel q' pc'
      end
  end.

Definition steal (fuel : nat) (q : wsq) : outcome (wsq * option T) := thief_run fuel q TLoadT.

(** ** All threads *)

Record config : Type := mkConfig {
  c_queue : wsq;
  c_owner : owner_pc;
  c_thieves : list thief_pc
}.

Inductive label : Type :=
| Tau
| CallPush (x : T)
| CallPop
| CallSteal (i : nat)
| RetOwner (r : owner_ret)
| RetSteal (i : nat) (r : option T).

Inductive step : config -> label -> config -> Prop :=
| step_call_push q ths x :
    step (mkConfig q OIdle ths) (CallPush x) (mkConfig q (OPushB x) ths)
| step_call_pop q ths :
    step (mkConfig q OIdle ths) CallPop (mkConfig q OPopB ths)
| step_owner q q' pc pc' ths :
    owner_next q pc = Ok (q', pc') -> step (mkConfig q pc ths) Tau (mkConfig q' pc' ths)
| step_ret_owner q r ths :
    step (mkConfig q (ORet r) ths) (RetOwner r) (mkConfig q OIdle ths)
| step_call_steal q o ths i :
    ths !! i = Some TIdle ->
    step (mkConfig q o ths) (CallSteal i) (mkConfig q o (<[i := TLoadT]> ths))
| step_thief q q' o ths i pc pc' :
    ths !! i = Some pc -> thief_next q pc = Ok (q', pc') ->
    step (mkConfig q o ths) Tau (mkConfig q' o (<[i := pc']> ths))
| step_ret_steal q o ths i r :
    ths !! i = Some (TRet r) ->
    step (mkConfig q o ths) (RetSteal i r) (mkConfig q o (<[i := TIdle]> ths)).

(** [exec n c tr c']: [n] steps lead from [c] to [c'] with the labels [tr]. *)
Inductive exec : nat -> config -> list label -> config -> Prop :=
| exec_nil c : exec 0 c [] c
| exec_snoc n c tr c' l c'' : exec n c tr c' -> step c' l c'' -> exec (S n) c (tr ++ [l]) c''.

Definition start (q : wsq) (thieves : nat) : config :=
  mkConfig q OIdle (replicate thieves TIdle).

(** ** The contract *)

Inductive owner_status : Type :=
| OsIdle
| OsPush (x : T)
| OsPop
| OsDone (r : owner_ret).

Inductive thief_status : Type := TsIdle | TsCalled | TsDone (r : option T).

Record deque : Type := mkDeque {
  d_items : list T;
  d_owner : owner_status;
  d_thieves : list thief_status
}.

(** A steal may also come away empty when the owner is popping the only item. *)
Inductive spec (cap : Z) : deque -> label -> deque -> Prop :=
| spec_stutter d : spec cap d Tau d
| spec_call_push l ths x :
    spec cap (mkDeque l OsIdle ths) (CallPush x) (mkDeque l (OsPush x) ths)
| spec_call_pop l ths : spec cap (mkDeque l OsIdle ths) CallPop (mkDeque l OsPop ths)
| spec_push l ths x :
    Z.of_nat (length l) < cap ->
    spec cap (mkDeque l (OsPush x) ths) Tau (mkDeque (l ++ [x]) (OsDone (RPush x true)) ths)
| spec_full l ths x :
    Z.of_nat (length l) = cap ->
    spec cap (mkDeque l (OsPush x) ths) Tau (mkDeque l (OsDone (RPush x false)) ths)
| spec_pop l ths x :
    spec cap (mkDeque (l ++ [x]) OsPop ths) Tau (mkDeque l (OsDone (RPop (Some x))) ths)
| spec_pop_empty ths :
    spec cap (mkDeque [] OsPop ths) Tau (mkDeque [] (OsDone (RPop None)) ths)
| spec_ret_owner l r ths :
    spec cap (mkDeque l (OsDone r) ths) (RetOwner r) (mkDeque l OsIdle ths)
| spec_call_steal l o ths i :
    ths !! i = Some TsIdle ->
    spec cap (mkDeque l o ths) (CallSteal i) (mkDeque l o (<[i := TsCalled]> ths))
| spec_steal l o ths i x :
    ths !! i = Some TsCalled ->
    spec cap (mkDeque (x :: l) o ths) Tau (mkDeque l o (<[i := TsDone (Some x)]> ths))
| spec_steal_empty o ths i :
    ths !! i = Some TsCalled ->
    spec cap (mkDeque [] o ths) Tau (mkDeque [] o (<[i := TsDone None]> ths))
| spec_steal_busy x ths i :
    ths !! i = Some TsCalled ->
    spec cap (mkDeque [x] OsPop ths) Tau (mkDeque [x] OsPop (<[i := TsDone None]> ths))
| spec_ret_steal l o ths i r :
    ths !! i = Some (TsDone r) ->
    spec cap (mkDeque l o ths) (RetSteal i r) (mkDeque l o (<[i := TsIdle]> ths)).

(** ** The abstraction *)

(** The item at position [i] and the items at the positions from [lo] below [hi]. *)
Definition item (q : wsq) (i : Z) : T :=
  match ws_buffer q with
  | Some buf => nth (Z.to_nat (i mod ws_capacity q)) buf dflt
  | None => dflt
  end.

Definition items (q : wsq) (lo hi : Z) : list T := map (item q) (seqZ lo (hi - lo)).

(** While a pop is undecided its item still belongs to the queue although
    [_bottom] is below it. *)
Definition lbottom (q : wsq) (pc : owner_pc) : Z :=
  match pc with
  | OPopT2 b | OPopCas b _ _ | OPopRestore b _ => b
  | OPopR b t => if t <? b - 1 then b - 1 else b
  | _ => ws_bottom q
  end.

Definition abs_owner (q : wsq) (pc : owner_pc) : owner_status :=
  match pc with
  | OIdle => OsIdle
  | OPushB x | OPushT x _ | OPushW x _ | OPushS x _ => OsPush x
  | OPopB | OPopT _ | OPopS _ | OPopT2 _ | OPopCas _ _ _ => OsPop
  | OPopR b t => if t <? b - 1 then OsDone (RPop (Some (item q (b - 1)))) else OsPop
  | OPopRestore _ r => OsDone (RPop r)
  | ORet r => OsDone r
  end.

Definition abs_thief (pc : thief_pc) : thief_status :=
  match pc with
  | TIdle => TsIdle
  | TRet r => TsDone r
  | _ => TsCalled
  end.

Definition abs (c : config) : deque :=
  let q := c_queue c in
  mkDeque (items q (ws_top q) (lbottom q (c_owner c))) (abs_owner q (c_owner c))
    (map abs_thief (c_thieves c)).

(** ** The invariant *)

(** An initialised queue. *)
Definition ws_wf (q : wsq) : Prop :=
  exists k buf, 0 <= k < 64 /\ ws_capacity q = 2 ^ k /\ ws_buffer q = Some buf /\
    vec_size buf = ws_capacity q.

Definition owner_ok (q : wsq) (pc : owner_pc) : Prop :=
  let b0 := ws_bottom q in
  match pc with
  | OPushT _ b => b = b0
  | OPushW _ b => b = b0 /\ b < ws_top q + ws_capacity q
  | OPushS x b => b = b0 /\ b < ws_top q + ws_capacity q /\ item q b = x
  | OPopT b => b = b0
  | OPopS b => b = b0 /\ 1 < b
  | OPopT2 b => b0 = b - 1 /\ 1 < b
  | OPopR b t => b0 = b - 1 /\ 1 < b /\ 1 <= t <= b - 1 /\ t <= ws_top q
  | OPopCas b t v => b0 = b - 1 /\ 1 < b /\ t = b - 1 /\ t <= ws_top q /\ v = item q t
  | OPopRestore b r => b0 = b - 1 /\ 1 < b /\ ws_top q = b
  | _ => True
  end.

Definition thief_ok (q : wsq) (lb : Z) (pc : thief_pc) : Prop :=
  match pc with
  | TLoadB t | TLoop t => 1 <= t <= ws_top q
  | TRead t => 1 <= t <= ws_top q /\ (t = ws_top q -> t < lb)
  | TCas t v => 1 <= t <= ws_top q /\ (t = ws_top q -> t < lb /\ item q t = v)
  | _ => True
  end.

Record inv (n : Z) (c : config) : Prop := {
  inv_wf : ws_wf (c_queue c);
  inv_top : 1 <= ws_top (c_queue c) <= lbottom (c_queue c) (c_owner c);
  inv_len : lbottom (c_queue c) (c_owner c) - ws_top (c_queue c) <= ws_capacity (c_queue c);
  inv_bound : lbottom (c_queue c) (c_owner c) <= n + 1;
  inv_owner : owner_ok (c_queue c) (c_owner c);
  inv_thieves : Forall (thief_ok (c_queue c) (lbottom (c_queue c) (c_owner c))) (c_thieves c)
}.

Implicit Types q : wsq.

(** ** Lemmas on items *)

Lemma items_nil q lo hi : hi <= lo -> items q lo hi = [].
Proof. intros. unfold items. by rewrite seqZ_nil by lia. Qed.

Lemma items_cons q lo hi : lo < hi -> items q lo hi = item q lo :: items q (lo + 1) hi.
Proof.
  intros. unfold items. rewrite seqZ_cons by lia. cbn [map]. repeat f_equal; lia.
Qed.

Lemma items_snoc q lo hi : lo <= hi -> items q lo (hi + 1) = items q lo hi ++ [item q hi].
Proof.
  intros. unfold items. replace (hi + 1 - lo) with (hi - lo + 1) by lia.
  rewrite seqZ_app by lia. rewrite map_app. do 2 f_equal.
  rewrite seqZ_cons, seqZ_nil by lia. cbn [map]. repeat f_equal; lia.
Qed.

Lemma items_unsnoc q lo hi : lo < hi -> items q lo hi = items q lo (hi - 1) ++ [item q (hi - 1)].
Proof. intros. rewrite <- items_snoc by lia. f_equal. lia. Qed.

Lemma items_length q lo hi : lo <= hi -> Z.of_nat (length (items q lo hi)) = hi - lo.
Proof. intros. unfold items. rewrite length_map, length_seqZ. lia. Qed.

Lemma items_ext q q' lo hi :
  (forall i, lo <= i < hi -> item q i = item q' i) -> items q lo hi = items q' lo hi.
Proof.
  intros H. unfold items. apply map_ext_in. intros i Hi. apply H.
  apply list_elem_of_In, elem_of_seqZ in Hi. lia.
Qed.

(** Slots: in a well-formed queue with a buffer, [i & (_capacity - 1)] is the
    remainder of [i]. *)
Lemma ws_wf_buffer q :
  ws_wf q -> 0 < ws_capacity q ->
  exists buf, ws_buffer q = Some buf /\ vec_size buf = ws_capacity q /\
    (forall i, 0 <= i -> ws_slot q i = i mod ws_capacity q).
Proof.
  intros (k & buf & Hk & Hc & Hb & Hl) Hpos. exists buf. repeat split; [done..|]. intros i Hi. unfold ws_slot.
  assert (Hk64 : 2 ^ k < 2 ^ 64) by (apply Z.pow_lt_mono_r; lia).
  rewrite <- Hc in Hk64. rewrite u64_id by lia. rewrite Hc, <- Z.land_ones by lia.
  f_equal. rewrite Z.ones_equiv. lia.
Qed.

Lemma read_slot_ok q i :
  ws_wf q -> 0 < ws_capacity q -> 0 <= i -> read_slot q i = Ok (item q i).
Proof.
  intros Hwf Hpos Hi. destruct (ws_wf_buffer q Hwf Hpos) as (buf & Hb & Hl & Hs).
  unfold read_slot, item. rewrite Hb, Hs by done.
  assert (Hr := Z.mod_pos_bound i (ws_capacity q) Hpos).
  destruct (vec_at_in_range buf (i mod ws_capacity q)) as (a & Ha & ->); [lia|].
  f_equal. symmetry. by apply nth_lookup_Some.
Qed.

Lemma write_slot_ok q i x :
  ws_wf q -> 0 < ws_capacity q -> 0 <= i ->
  exists q', write_slot q i x = Ok q' /\ ws_wf q' /\
    ws_bottom q' = ws_bottom q /\ ws_top q' = ws_top q /\ ws_capacity q' = ws_capacity q /\
    item q' i = x /\
    (forall j, j mod ws_capacity q <> i mod ws_capacity q -> item q' j = item q j).
Proof.
  intros Hwf Hpos Hi. destruct (ws_wf_buffer q Hwf Hpos) as (buf & Hb & Hl & Hs).
  unfold write_slot. rewrite read_slot_ok by done. cbn [mbind outcome_bind]. eexists.
  split; [reflexivity|]. rewrite Hb, Hs by done. cbn [fmap option_fmap option_map].
  assert (Hr := Z.mod_pos_bound i (ws_capacity q) Hpos). unfold vec_size in Hl.
  split; [|split; [done|split; [done|split; [done|split]]]].
  - destruct Hwf as (k & ? & Hk & Hc & _ & _). exists k. eexists. split; [exact Hk|]. split; [exact Hc|]. split; [reflexivity|].
    cbn. unfold vec_size. by rewrite length_insert.
  - unfold item. cbn. apply nth_lookup_Some. apply list_lookup_insert_eq. lia.
  - intros j Hj. unfold item. cbn. rewrite Hb. assert (Hr' := Z.mod_pos_bound j _ Hpos).
    rewrite !nth_lookup. rewrite list_lookup_insert_ne; [done|].
    intros E. apply Hj. lia.
Qed.

Lemma slots_differ q i j :
  0 < ws_capacity q -> i <> j -> Z.abs (i - j) < ws_capacity q ->
  i mod ws_capacity q <> j mod ws_capacity q.
Proof.
  intros Hpos Hne Habs E. set (c := ws_capacity q) in *.
  assert (Hi := Z.div_mod i c ltac:(lia)). assert (Hj := Z.div_mod j c ltac:(lia)).
  rewrite E in Hi. generalize dependent (i / c). generalize dependent (j / c). intros y Hy x Hx.
  assert (Hd : i - j = c * (x - y)) by (rewrite Z.mul_sub_distr_l; lia).
  destruct (Z.eq_dec x y) as [->|]; nia.
Qed.

Lemma ws_wf_cap q : ws_wf q -> 0 < ws_capacity q.
Proof. intros (k & buf & Hk & -> & _). lia. Qed.

Lemma item_store q b t i :
  item (mkWSQ b (ws_capacity q) (ws_buffer q) t) i = item q i.
Proof. done. Qed.

(** ** Every step keeps the invariant and follows the contract *)

(** A thief that holds a stale [_top] is not disturbed; one that holds the
    current one needs its item to stay in place. *)
Lemma thief_ok_mono q q' lb lb' pc :
  ws_top q <= ws_top q' -> ws_capacity q' = ws_capacity q ->
  (ws_top q' = ws_top q -> ws_top q < lb ->
   ws_top q < lb' /\ item q' (ws_top q) = item q (ws_top q)) ->
  thief_ok q lb pc -> thief_ok q' lb' pc.
Proof.
  intros Htop Hcap Hlb. destruct pc as [| |t|t|t|t v|]; cbn; try done; try lia.
  intros (Ht & Ht'). split; [lia|]. intros ->. assert (E : ws_top q' = ws_top q) by lia.
  destruct (Ht' E) as [Hlt Hit]. rewrite E in *. destruct Hlb as [? Hi]; [done..|].
  by rewrite Hi.
Qed.

Lemma thieves_mono q q' lb lb' ths :
  ws_top q <= ws_top q' -> ws_capacity q' = ws_capacity q ->
  (ws_top q' = ws_top q -> ws_top q < lb ->
   ws_top q < lb' /\ item q' (ws_top q) = item q (ws_top q)) ->
  Forall (thief_ok q lb) ths -> Forall (thief_ok q' lb') ths.
Proof. intros ??? Hf. eapply Forall_impl; [exact Hf|]. intros pc. by apply thief_ok_mono. Qed.

(** What the owner's next access does to the shared state and the contract. *)
Definition follows (q : wsq) (pc : owner_pc) (ths : list thief_pc) (m : outcome (wsq * owner_pc)) (n : Z) : Prop :=
  exists q' pc', m = Ok (q', pc') /\ inv (n + 1) (mkConfig q' pc' ths) /\
    spec (ws_capacity q) (abs (mkConfig q pc ths)) Tau (abs (mkConfig q' pc' ths)) /\
    ws_capacity q' = ws_capacity q.

(** A step that only moves the program counter. *)
Lemma follows_local n q pc ths pc' :
  inv n (mkConfig q pc ths) -> lbottom q pc' = lbottom q pc -> owner_ok q pc' ->
  spec (ws_capacity q) (abs (mkConfig q pc ths)) Tau (abs (mkConfig q pc' ths)) ->
  follows q pc ths (Ok (q, pc')) n.
Proof.
  intros [Hwf Htop Hlen Hb Ho Ht] Hlb Hok Hspec. cbn in *. exists q, pc'.
  split; [done|]. split; [|done]. constructor; cbn; rewrite ?Hlb; try done. lia.
Qed.

Lemma spec_same cap c c' :
  d_items (abs c) = d_items (abs c') -> d_owner (abs c) = d_owner (abs c') ->
  d_thieves (abs c) = d_thieves (abs c') -> spec cap (abs c) Tau (abs c').
Proof.
  intros H1 H2 H3. replace (abs c') with (abs c); [constructor|].
  destruct (abs c), (abs c'); cbn in *; congruence.
Qed.

Lemma push_follows n q pc ths :
  inv n (mkConfig q pc ths) -> n + 2 + ws_capacity q < 2 ^ 64 ->
  match pc with OPushB _ | OPushT _ _ | OPushW _ _ | OPushS _ _ => True | _ => False end ->
  follows q pc ths (push_next q pc) n.
Proof.
  intros Hinv Hn Hpc. pose proof Hinv as [Hwf Htop Hlen Hb Ho Ht]. pose proof (ws_wf_cap _ Hwf) as Hcap.
  cbn in Hcap, Hwf, Htop, Hlen, Hb, Ho, Ht.
  destruct pc as [|x|x b|x b|x b| | | | | | | |]; try done; cbn [push_next lbottom owner_ok] in *.
  - apply follows_local; try done. by apply spec_same.
  - subst b. rewrite u64_id by lia. destruct (Z.leb_spec (ws_top q + ws_capacity q) (ws_bottom q)).
    + apply follows_local; try done. unfold abs; cbn. apply spec_full.
      rewrite items_length; lia.
    + apply follows_local; try done. by apply spec_same.
  - destruct Ho as [-> Hlt].
    destruct (write_slot_ok q (ws_bottom q) x) as (q' & -> & Hwf' & Hb' & Ht' & Hc' & Hi & Hj);
      [done|lia..|].
    assert (Hsame : forall i, ws_top q <= i < ws_bottom q -> item q' i = item q i).
    { intros i Hi'. apply Hj, slots_differ; lia. }
    exists q', (OPushS x (ws_bottom q)). split; [done|]. split; [|split; [|done]].
    + constructor; cbn [c_queue c_owner c_thieves lbottom owner_ok];
        rewrite ?Hb', ?Ht', ?Hc'; try done; try lia.
      eapply thieves_mono; [..|exact Ht]; [lia|done|]. intros _ Hl. split; [done|].
      apply Hsame. lia.
    + apply spec_same; cbn; [|done..]. rewrite Hb', Ht'. symmetry. by apply items_ext.
  - destruct Ho as (-> & Hlt & Hx). rewrite u64_id by lia.
    eexists _, _. split; [reflexivity|]. split; [|split; [|done]].
    + constructor; cbn; try done; try lia.
      eapply thieves_mono; [..|exact Ht]; cbn; [lia|done|]. intros _ Hl. split; [lia|done].
    + unfold abs; cbn. rewrite items_snoc by lia.
      change (item (store_bottom q (ws_bottom q + 1)) (ws_bottom q)) with (item q (ws_bottom q)).
      rewrite Hx. apply spec_push. rewrite items_length; lia.
Qed.

(** A step that stores [_bottom] and leaves the items as they are. *)
Lemma follows_store n q pc ths b pc' :
  inv n (mkConfig q pc ths) -> lbottom (store_bottom q b) pc' = lbottom q pc ->
  owner_ok (store_bottom q b) pc' ->
  abs_owner (store_bottom q b) pc' = abs_owner q pc ->
  follows q pc ths (Ok (store_bottom q b, pc')) n.
Proof.
  intros [Hwf Htop Hlen Hb Ho Ht] Hlb Hok Habs. cbn in *. eexists _, _.
  split; [reflexivity|]. split; [|split; [|done]].
  - constructor; cbn; rewrite ?Hlb; try done; lia.
  - apply spec_same; cbn; [|done..]. by rewrite Hlb.
Qed.

(** The second load of [_top] decides a pop unless one item is left. *)
Lemma pop_decides n q b ths :
  inv n (mkConfig q (OPopT2 b) ths) -> n + 2 + ws_capacity q < 2 ^ 64 ->
  follows q (OPopT2 b) ths (pop_next q (OPopT2 b)) n.
Proof.
  intros Hinv Hn. pose proof Hinv as [Hwf Htop Hlen Hb Ho Ht]. pose proof (ws_wf_cap _ Hwf) as Hcap.
  cbn in Hcap, Hwf, Htop, Hlen, Hb, Ho, Ht. destruct Ho as (Hb0 & Hb1). cbn [pop_next].
  rewrite u64_id by lia. destruct (Z.ltb_spec (b - 1) (ws_top q)) as [Hlt|Hge].
  - apply follows_local; [done|done|cbn; lia|]. unfold abs; cbn.
    rewrite items_nil by lia. constructor.
  - exists q, (OPopR b (ws_top q)). split; [done|].
    destruct (Z.ltb_spec (ws_top q) (b - 1)) as [Hlt|Hge'].
    + split; [|split; [|done]].
      * constructor; cbn; destruct (Z.ltb_spec (ws_top q) (b - 1)); try done; try lia.
        eapply thieves_mono; [..|exact Ht]; [lia|done|]. intros _ _. split; [lia|done].
      * unfold abs; cbn. destruct (Z.ltb_spec (ws_top q) (b - 1)); [|lia].
        rewrite (items_unsnoc q (ws_top q) b) by lia. constructor.
    + split; [|split; [|done]].
      * constructor; cbn; destruct (Z.ltb_spec (ws_top q) (b - 1)); try done; lia.
      * unfold abs; cbn. destruct (Z.ltb_spec (ws_top q) (b - 1)); [lia|]. constructor.
Qed.

(** The owner and the thieves compete for the last item. *)
Lemma pop_competes n q b t v ths :
  inv n (mkConfig q (OPopCas b t v) ths) -> n + 2 + ws_capacity q < 2 ^ 64 ->
  follows q (OPopCas b t v) ths (pop_next q (OPopCas b t v)) n.
Proof.
  intros Hinv Hn. pose proof Hinv as [Hwf Htop Hlen Hb Ho Ht]. pose proof (ws_wf_cap _ Hwf) as Hcap.
  cbn in Hcap, Hwf, Htop, Hlen, Hb, Ho, Ht. destruct Ho as (Hb0 & Hb1 & -> & Htt & ->).
  cbn [pop_next]. unfold cas_top. destruct (Z.eqb_spec (ws_top q) (b - 1)) as [E|Hne].
  - rewrite u64_id by lia. eexists _, _. split; [reflexivity|]. split; [|split; [|done]].
    + constructor; cbn; try done; try lia.
      eapply thieves_mono; [..|exact Ht]; cbn; [lia|done|lia].
    + unfold abs; cbn. rewrite (items_unsnoc q (ws_top q) b) by lia.
      rewrite E, !items_nil by lia. apply (spec_pop _ []).
  - apply follows_local; [done|done|cbn; lia|]. unfold abs; cbn.
    rewrite items_nil by lia. constructor.
Qed.

Lemma pop_follows n q pc ths :
  inv n (mkConfig q pc ths) -> n + 2 + ws_capacity q < 2 ^ 64 ->
  match pc with OPushB _ | OPushT _ _ | OPushW _ _ | OPushS _ _ => False | _ => True end ->
  follows q pc ths (pop_next q pc) n.
Proof.
  intros Hinv Hn Hpc. pose proof Hinv as [Hwf Htop Hlen Hb Ho Ht]. pose proof (ws_wf_cap _ Hwf) as Hcap.
  cbn in Hcap, Hwf, Htop, Hlen, Hb, Ho, Ht.
  destruct pc as [| | | | | |b|b|b|b t|b t v|b r|r]; try done.
  - apply follows_local; try done. by apply spec_same.
  - apply follows_local; try done. by apply spec_same.
  - cbn in Ho. subst b. cbn [pop_next lbottom] in *.
    destruct (Z.leb_spec (ws_bottom q) (ws_top q)).
    + apply follows_local; try done. unfold abs; cbn. rewrite items_nil by lia. constructor.
    + apply follows_local; [done|done|cbn; lia|by apply spec_same].
  - destruct Ho as (-> & Hb1). cbn [pop_next lbottom] in *. rewrite u64_id by lia.
    apply follows_store; [done|done|cbn; lia|done].
  - by apply pop_decides.
  - destruct Ho as (Hb0 & Hb1 & Ht1 & Ht2). cbn [pop_next lbottom] in *.
    rewrite u64_id by (destruct (Z.ltb_spec t (b - 1)); lia).
    rewrite read_slot_ok by (done || lia). cbn [mbind outcome_bind].
    destruct (Z.eqb_spec t (b - 1)) as [->|Hne]; cbn [negb].
    + apply follows_local; [done|cbn; by rewrite Z.ltb_irrefl|cbn; repeat split; (lia || done)|].
      apply spec_same; cbn; by rewrite ?Z.ltb_irrefl.
    + assert (E : (t <? b - 1) = true) by lia.
      apply follows_local; [done|cbn; by rewrite E|done|].
      apply spec_same; cbn; rewrite ?E, ?Hb0; done.
  - by apply pop_competes.
  - destruct Ho as (Hb0 & Hb1 & Ht2). cbn [pop_next].
    apply follows_store; done.
  - apply follows_local; try done. by apply spec_same.
Qed.

(** [_bottom] is at [_top] or below: nothing is queued, or the one item that the
    owner is popping. *)
Lemma bottom_at_top n c :
  inv n c -> ws_bottom (c_queue c) <= ws_top (c_queue c) ->
  d_items (abs c) = [] \/
  (exists x, d_items (abs c) = [x] /\ d_owner (abs c) = OsPop).
Proof.
  destruct c as [q o ths]. intros [Hwf Htop Hlen Hb Ho Ht] Hle. cbn in *.
  destruct (Z.le_gt_cases (lbottom q o) (ws_top q)) as [?|Hgt]; [left; by apply items_nil|].
  right. assert (E : lbottom q o = ws_top q + 1 /\ abs_owner q o = OsPop).
  { destruct o; cbn in *; try lia; try (split; [lia|done]).
    destruct (Z.ltb_spec t (b - 1)); [lia|]. split; [lia|done]. }
  destruct E as [E Eo]. exists (item q (ws_top q)). split; [|done].
  rewrite E, items_cons, items_nil by lia. done.
Qed.

Lemma abs_thieves_insert ths i pc :
  map abs_thief (<[i := pc]> ths) = <[i := abs_thief pc]> (map abs_thief ths).
Proof. apply (list_fmap_insert abs_thief). Qed.

Lemma abs_thieves_lookup ths i pc :
  ths !! i = Some pc -> map abs_thief ths !! i = Some (abs_thief pc).
Proof. intros H. etransitivity; [apply (list_lookup_fmap abs_thief)|]. by rewrite H. Qed.

(** The program counter of one thief changes. *)
Lemma inv_thief n q o ths i pc :
  inv n (mkConfig q o ths) -> thief_ok q (lbottom q o) pc ->
  inv (n + 1) (mkConfig q o (<[i := pc]> ths)).
Proof.
  intros [Hwf Htop Hlen Hb Ho Ht] Hpc. cbn in *. constructor; cbn; try done; [lia|].
  by apply Forall_insert.
Qed.

Definition thief_follows (q : wsq) (o : owner_pc) (ths : list thief_pc) (i : nat)
    (m : outcome (wsq * thief_pc)) (n : Z) : Prop :=
  exists q' pc', m = Ok (q', pc') /\ inv (n + 1) (mkConfig q' o (<[i := pc']> ths)) /\
    spec (ws_capacity q) (abs (mkConfig q o ths)) Tau (abs (mkConfig q' o (<[i := pc']> ths))) /\
    ws_capacity q' = ws_capacity q.

Lemma thief_local n q o ths i pc pc' :
  inv n (mkConfig q o ths) -> ths !! i = Some pc -> abs_thief pc' = abs_thief pc ->
  thief_ok q (lbottom q o) pc' ->
  thief_follows q o ths i (Ok (q, pc')) n.
Proof.
  intros Hinv Hi Habs Hok. exists q, pc'. split; [done|]. split; [by apply inv_thief|].
  split; [|done]. apply spec_same; [done..|]. cbn. rewrite abs_thieves_insert, Habs.
  symmetry. apply list_insert_id. by apply abs_thieves_lookup.
Qed.

Lemma steal_gives_up n q o ths i pc :
  inv n (mkConfig q o ths) -> ths !! i = Some pc -> abs_thief pc = TsCalled ->
  ws_bottom q <= ws_top q -> thief_follows q o ths i (Ok (q, TRet None)) n.
Proof.
  intros Hinv Hi Habs Hle. exists q, (TRet None). split; [done|]. split; [by apply inv_thief|].
  split; [|done]. apply abs_thieves_lookup in Hi. rewrite Habs in Hi.
  destruct (bottom_at_top n _ Hinv Hle) as [E|(x & E & Eo)]; unfold abs in *; cbn in *;
    rewrite abs_thieves_insert, E; [|rewrite Eo]; by constructor.
Qed.

Lemma steal_competes n q o ths i t v :
  inv n (mkConfig q o ths) -> n + 2 + ws_capacity q < 2 ^ 64 -> ths !! i = Some (TCas t v) ->
  thief_follows q o ths i (thief_next q (TCas t v)) n.
Proof.
  intros Hinv Hn Hi. pose proof Hinv as [Hwf Htop Hlen Hb Ho Ht]. pose proof (ws_wf_cap _ Hwf) as Hcap.
  cbn in Hcap, Hwf, Htop, Hlen, Hb, Ho, Ht.
  destruct (proj1 (Forall_lookup _ _) Ht i _ Hi) as [Htt Hv].
  cbn [thief_next]. unfold cas_top. destruct (Z.eqb_spec (ws_top q) t) as [<-|Hne].
  - destruct (Hv eq_refl) as [Hlt <-]. rewrite u64_id by lia. eexists _, _.
    split; [reflexivity|]. set (q' := mkWSQ _ _ _ _).
    assert (Hlb : lbottom q' o = lbottom q o) by done.
    split; [|split; [|done]].
    + constructor; cbn [c_queue c_owner c_thieves]; rewrite ?Hlb; subst q'; cbn; try lia.
      * exact Hwf.
      * destruct o; cbn in *; try done; try lia.
        -- destruct Ho as (? & ? & ?). repeat split; (done || lia).
        -- destruct Ho as (? & ? & ? & ? & ?). repeat split; (done || lia).
      * apply Forall_insert; [|done]. eapply thieves_mono; [..|exact Ht]; cbn; [lia|done|lia].
    + unfold abs. cbn [c_queue c_owner c_thieves]. rewrite Hlb, abs_thieves_insert.
      rewrite (items_cons q (ws_top q)) by lia. apply spec_steal.
      by apply (abs_thieves_lookup _ _ (TCas (ws_top q) (item q (ws_top q)))).
  - apply (thief_local n q o ths i (TCas t v)); [done..|cbn; lia].
Qed.

Lemma steal_follows n q o ths i pc :
  inv n (mkConfig q o ths) -> n + 2 + ws_capacity q < 2 ^ 64 -> ths !! i = Some pc ->
  thief_follows q o ths i (thief_next q pc) n.
Proof.
  intros Hinv Hn Hi. pose proof Hinv as [Hwf Htop Hlen Hb Ho Ht]. pose proof (ws_wf_cap _ Hwf) as Hcap.
  cbn in Hcap, Hwf, Htop, Hlen, Hb, Ho, Ht.
  pose proof (proj1 (Forall_lookup _ _) Ht i _ Hi) as Hok.
  destruct pc as [| |t|t|t|t v|r]; cbn in Hok.
  - by apply (thief_local n q o ths i TIdle).
  - apply (thief_local n q o ths i TLoadT); try done. cbn. lia.
  - cbn [thief_next]. destruct (Z.leb_spec (ws_bottom q) t).
    + apply (steal_gives_up n q o ths i (TLoadB t)); try done. lia.
    + by apply (thief_local n q o ths i (TLoadB t)).
  - cbn [thief_next]. destruct (Z.leb_spec (ws_bottom q) t).
    + apply (steal_gives_up n q o ths i (TLoop t)); try done. lia.
    + apply (thief_local n q o ths i (TLoop t)); try done. cbn.
      split; [lia|]. intros ->. destruct o; cbn in *; try lia.
      destruct (Z.ltb_spec t (b - 1)); lia.
  - destruct Hok as (Ht1 & Ht2). cbn [thief_next]. rewrite read_slot_ok by (done || lia).
    apply (thief_local n q o ths i (TRead t)); try done. cbn. split; [lia|].
    intros E. split; [by apply Ht2|done].
  - by apply steal_competes.
  - by apply (thief_local n q o ths i (TRet r)).
Qed.

Lemma owner_follows n q pc ths :
  inv n (mkConfig q pc ths) -> n + 2 + ws_capacity q < 2 ^ 64 ->
  follows q pc ths (owner_next q pc) n.
Proof. intros Hinv Hn. destruct pc; (by apply push_follows) || by apply pop_follows. Qed.

(** Calls and returns only touch program counters. *)
Lemma inv_owner_pc n q pc pc' ths :
  inv n (mkConfig q pc ths) -> lbottom q pc' = lbottom q pc -> owner_ok q pc' ->
  inv (n + 1) (mkConfig q pc' ths).
Proof.
  intros [Hwf Htop Hlen Hb Ho Ht] Hlb Hok. cbn in *.
  constructor; cbn; rewrite ?Hlb; try done. lia.
Qed.

Lemma step_follows n c l c' :
  inv n c -> n + 2 + ws_capacity (c_queue c) < 2 ^ 64 -> step c l c' ->
  inv (n + 1) c' /\ spec (ws_capacity (c_queue c)) (abs c) l (abs c') /\
  ws_capacity (c_queue c') = ws_capacity (c_queue c).
Proof.
  intros Hinv Hn Hstep.
  destruct Hstep as [q ths x|q ths|q q' pc pc' ths H|q r ths|q o ths i Hi|q q' o ths i pc pc' Hi H|q o ths i r Hi].
  - split; [by eapply inv_owner_pc|]. split; [constructor|done].
  - split; [by eapply inv_owner_pc|]. split; [constructor|done].
  - destruct (owner_follows n q pc ths Hinv Hn) as (q2 & pc2 & E & Hf). rewrite H in E.
    by simplify_eq.
  - split; [by eapply inv_owner_pc|]. split; [constructor|done].
  - split; [by apply inv_thief|]. split; [|done]. unfold abs; cbn. rewrite abs_thieves_insert.
    constructor. by apply (abs_thieves_lookup _ _ TIdle).
  - destruct (steal_follows n q o ths i pc Hinv Hn Hi) as (q2 & pc2 & E & Hf). rewrite H in E.
    by simplify_eq.
  - split; [by apply inv_thief|]. split; [|done]. unfold abs; cbn. rewrite abs_thieves_insert.
    constructor. by apply (abs_thieves_lookup _ _ (TRet r)).
Qed.

(** ** Executions *)

Inductive spec_exec (cap : Z) : deque -> list label -> deque -> Prop :=
| spec_nil d : spec_exec cap d [] d
| spec_snoc d tr d' l d'' :
    spec_exec cap d tr d' -> spec cap d' l d'' -> spec_exec cap d (tr ++ [l]) d''.

(** A queue that was initialised and not used yet. *)
Definition ready (q : wsq) : Prop := ws_wf q /\ ws_bottom q = 1 /\ ws_top q = 1.

Lemma inv_start q k : ready q -> inv 0 (start q k).
Proof.
  intros (Hwf & Hb & Ht). constructor; cbn; rewrite ?Hb, ?Ht; try done; try lia.
  - apply ws_wf_cap in Hwf. lia.
  - by apply Forall_replicate.
Qed.

Lemma exec_cons n c l c' tr c'' :
  step c l c' -> exec n c' tr c'' -> exec (S n) c (l :: tr) c''.
Proof.
  intros Hl Hexec. induction Hexec as [c'|n c' tr d l' d' Hexec IH Hstep].
  - apply (exec_snoc 0 c [] c l c'); [constructor|done].
  - apply (exec_snoc (S n) c (l :: tr) d l' d'); [by apply IH|done].
Qed.

Lemma exec_follows q k n tr c :
  ready q -> exec n (start q k) tr c -> Z.of_nat n + 2 + ws_capacity q < 2 ^ 64 ->
  inv (Z.of_nat n) c /\ spec_exec (ws_capacity q) (abs (start q k)) tr (abs c) /\
  ws_capacity (c_queue c) = ws_capacity q.
Proof.
  intros Hq Hexec. remember (start q k) as c0 eqn:E0.
  induction Hexec as [c|n c tr c' l c'' Hexec IH Hstep]; intros Hn; subst.
  - split; [by apply inv_start|]. split; [constructor|done].
  - destruct IH as (Hinv & Hs & Hc); [done|lia|].
    destruct (step_follows (Z.of_nat n) c' l c'' Hinv) as (Hinv' & Hs' & Hc'); [lia|done|].
    split; [|split; [|congruence]].
    + by replace (Z.of_nat (S n)) with (Z.of_nat n + 1) by lia.
    + econstructor; [done|]. by rewrite <- Hc.
Qed.

(** ** Conservation of items *)

Definition pushed_by (l : label) : list T :=
  match l with RetOwner (RPush x true) => [x] | _ => [] end.

Definition taken_by (l : label) : list T :=
  match l with
  | RetOwner (RPop (Some x)) | RetSteal _ (Some x) => [x]
  | _ => []
  end.

Definition pushed (tr : list label) : list T := tr ≫= pushed_by.
Definition taken (tr : list label) : list T := tr ≫= taken_by.

(** Items of calls that took effect and have not returned yet. *)
Definition owner_pushed (o : owner_status) : list T :=
  match o with OsDone r => pushed_by (RetOwner r) | _ => [] end.
Definition owner_taken (o : owner_status) : list T :=
  match o with OsDone r => taken_by (RetOwner r) | _ => [] end.
Definition thief_taken (t : thief_status) : list T :=
  match t with TsDone (Some x) => [x] | _ => [] end.

Definition balanced (d : deque) (tr : list label) : Prop :=
  pushed tr ++ owner_pushed (d_owner d) ≡ₚ
  taken tr ++ owner_taken (d_owner d) ++ (d_thieves d ≫= thief_taken) ++ d_items d.

Lemma thief_taken_insert (ths : list thief_status) i old new :
  ths !! i = Some old ->
  (<[i := new]> ths ≫= thief_taken) ++ thief_taken old ≡ₚ (ths ≫= thief_taken) ++ thief_taken new.
Proof.
  intros Hi. assert (Hl := lookup_lt_Some _ _ _ Hi).
  rewrite insert_take_drop by done. rewrite <- (take_drop_middle ths i old) at 3 by done.
  rewrite !bind_app, !bind_cons. solve_Permutation.
Qed.

Lemma pushed_snoc tr l : pushed (tr ++ [l]) = pushed tr ++ pushed_by l.
Proof. unfold pushed. rewrite bind_app, bind_cons. cbn. by rewrite app_nil_r. Qed.

Lemma taken_snoc tr l : taken (tr ++ [l]) = taken tr ++ taken_by l.
Proof. unfold taken. rewrite bind_app, bind_cons. cbn. by rewrite app_nil_r. Qed.

Lemma spec_balanced cap d l d' tr :
  spec cap d l d' -> balanced d tr -> balanced d' (tr ++ [l]).
Proof.
  unfold balanced. rewrite pushed_snoc, taken_snoc.
  destruct 1;
    try match goal with
        | H : ?ths !! ?i = Some ?old |- context [<[?i := ?new]> ?ths] =>
            pose proof (thief_taken_insert ths i old new H) as Hth
        | r : owner_ret |- _ => destruct r as [? []|[]]
        end;
    try match goal with r : option T |- _ => destruct r end;
    cbn in *; rewrite ?app_nil_r in *; intros Hb; try done;
    try (rewrite Hb; rewrite ?Hth; solve_Permutation).
  rewrite Hb, <- Hth. solve_Permutation.
Qed.

Lemma exec_balanced q k n tr c :
  ready q -> exec n (start q k) tr c -> Z.of_nat n + 2 + ws_capacity q < 2 ^ 64 ->
  balanced (abs c) tr.
Proof.
  intros Hq Hexec Hn. destruct (exec_follows q k n tr c Hq Hexec Hn) as (_ & Hs & _).
  assert (H0 : balanced (abs (start q k)) []).
  { unfold balanced, abs. cbn. destruct Hq as (_ & -> & ->). rewrite items_nil by lia.
    rewrite app_nil_r. clear. induction k; [done|]. cbn. done. }
  clear Hexec. revert H0. induction Hs as [d|d tr d' l d'' Hs IH Hl]; intros H0; [done|].
  eapply spec_balanced; eauto.
Qed.

(** ** Initialisation *)

Lemma land_pred_pow2 c :
  0 < c < 2 ^ 64 -> Z.land c (u64 (c - 1)) = 0 -> exists k, 0 <= k < 64 /\ c = 2 ^ k.
Proof.
  intros Hc. rewrite u64_id by lia. intros Hl. exists (Z.log2 c).
  destruct (Z.log2_spec c) as [Hlo Hhi]; [lia|]. assert (Hp := Z.log2_nonneg c).
  split; [split; [done|]; apply Z.log2_lt_pow2; lia|].
  destruct (Z.eq_dec c (2 ^ Z.log2 c)) as [|Hne]; [done|exfalso].
  assert (Hb : Z.testbit (Z.land c (c - 1)) (Z.log2 c) = true).
  { rewrite Z.land_spec, Z.bit_log2 by lia. cbn.
    rewrite <- (Z.log2_unique (c - 1) (Z.log2 c)); [|done|lia]. apply Z.bit_log2. lia. }
  rewrite Hl, Z.bits_0 in Hb. done.
Qed.

Lemma init_ready alloc c q' :
  0 <= c < 2 ^ 64 -> init alloc WorkStealingQueue_ctor c = (0, q') ->
  ready q' /\ ws_capacity q' = c.
Proof.
  intros Hc. unfold init. cbn [ws_capacity WorkStealingQueue_ctor].
  destruct (Z.eqb_spec c 0) as [|Hne]; [done|]. cbn [negb Z.eqb].
  destruct (Z.eqb_spec (Z.land c (u64 (c - 1))) 0) as [Hl|]; [|done]. cbn [negb].
  destruct (alloc c); [|done]. intros [= <-].
  destruct (land_pred_pow2 c) as (k & Hk & ->); [lia|done|].
  split; [|done]. split; [|done]. exists k. eexists. split; [exact Hk|].
  split; [done|]. split; [reflexivity|]. unfold vec_size. cbn. rewrite length_replicate. lia.
Qed.

(** ** Progress *)

(** Accesses a call still makes, for a thief without another round. *)
Definition owner_left (pc : owner_pc) : nat :=
  match pc with
  | OIdle | ORet _ => 0
  | OPushB _ => 4 | OPushT _ _ => 3 | OPushW _ _ => 2 | OPushS _ _ => 1
  | OPopB => 7 | OPopT _ => 6 | OPopS _ => 5 | OPopT2 _ => 4 | OPopR _ _ => 3
  | OPopCas _ _ _ => 2 | OPopRestore _ _ => 1
  end.

Definition thief_left (pc : thief_pc) : nat :=
  match pc with
  | TIdle | TRet _ => 0
  | TLoadT => 5 | TLoadB _ => 4 | TLoop _ => 3 | TRead _ => 2 | TCas _ _ => 1
  end.

Lemma owner_next_left q pc q' pc' :
  owner_next q pc = Ok (q', pc') -> owner_left pc <> O -> (owner_left pc' < owner_left pc)%nat.
Proof.
  destruct pc; cbn; try done;
    repeat (case_match; simplify_eq/=); unfold mbind, outcome_bind, mret, outcome_ret in *;
    intros; simplify_eq/=; try lia; repeat (case_match; simplify_eq/=); lia.
Qed.

Lemma thief_next_left q pc q' pc' :
  thief_next q pc = Ok (q', pc') -> thief_left pc <> O ->
  (thief_left pc' < thief_left pc)%nat \/
  exists t v, pc = TCas t v /\ pc' = TLoop (ws_top q) /\ ws_top q <> t.
Proof.
  destruct pc; cbn; try done;
    unfold cas_top, mbind, outcome_bind, mret, outcome_ret in *;
    repeat (case_match; simplify_eq/=); intros; simplify_eq/=; try (left; lia).
  right. eexists _, _. repeat split. lia.
Qed.

End WorkStealing.

(** ** Properties *)

Section Properties.
Context {T : Type} (dflt : T).

(** C7. Any number of steps of an owner and [k] thieves on a fresh queue, in any
    order, is a run of the atomic deque with the same calls and returns: every
    call takes effect at one instant, on the items between [_top] and
    [_bottom].  No access on the way is out of range. *)
Theorem work_stealing_refines (alloc : Z -> bool) (c : Z) (q : WorkStealingQueue T)
    (k n : nat) (tr : list label) (cf : config) :
  0 <= c -> Z.of_nat n + 2 + c < 2 ^ 64 ->
  init dflt alloc WorkStealingQueue_ctor c = (0, q) -> exec n (start q k) tr cf ->
  spec_exec c (mkDeque [] OsIdle (replicate k TsIdle)) tr (abs dflt cf) /\
  (exists s, owner_next (c_queue cf) (c_owner cf) = Ok s) /\
  Forall (fun pc => exists s, thief_next (c_queue cf) pc = Ok s) (c_thieves cf).
Proof.
  intros Hc Hn Hinit Hexec. destruct (init_ready dflt alloc c q) as [Hq Hcap]; [lia|done|].
  assert (Hcf : ws_capacity (c_queue cf) = ws_capacity q).
  { apply (exec_follows dflt q k n tr cf Hq Hexec). lia. }
  destruct (exec_follows dflt q k n tr cf Hq Hexec) as (Hinv & Hs & _); [lia|].
  destruct cf as [q' o ths]. cbn in *. split; [|split].
  - rewrite <- Hcap. unfold abs at 1 in Hs. cbn in Hs. destruct Hq as (_ & Eb & Et).
    rewrite Eb, Et, items_nil in Hs by lia.
    replace (replicate k TsIdle) with (map (@abs_thief T) (replicate k TIdle)); [done|].
    clear. induction k; cbn; congruence.
  - destruct (owner_follows dflt (Z.of_nat n) q' o ths Hinv) as (? & ? & E & _); [lia|eauto].
  - apply Forall_lookup. intros i pc Hi.
    destruct (steal_follows dflt (Z.of_nat n) q' o ths i pc Hinv) as (? & ? & E & _); [lia|done|eauto].
Qed.

(** No item is lost and none is handed out twice: in every execution the
    items pushed, those of a push about to return included, are those popped
    or stolen, about to be returned, or still queued, each as often. *)
Theorem work_stealing_conserves (alloc : Z -> bool) (c : Z) (q : WorkStealingQueue T)
    (k n : nat) (tr : list label) (cf : config) :
  0 <= c -> Z.of_nat n + 2 + c < 2 ^ 64 ->
  init dflt alloc WorkStealingQueue_ctor c = (0, q) -> exec n (start q k) tr cf ->
  pushed tr ++ owner_pushed (d_owner (abs dflt cf)) ≡ₚ
  taken tr ++ owner_taken (d_owner (abs dflt cf)) ++
    (d_thieves (abs dflt cf) ≫= thief_taken) ++ d_items (abs dflt cf).
Proof.
  intros Hc Hn Hinit Hexec. destruct (init_ready dflt alloc c q) as [Hq Hcap]; [lia|done|].
  apply (exec_balanced dflt q k n tr cf Hq Hexec). lia.
Qed.

(** Progress: each access of the owner brings its call nearer to its
    return, at most four accesses for [push] and seven for [pop] whatever the
    thieves do; an access of a thief does so too, unless another thread took
    the item it competed for. *)
Theorem work_stealing_progress (alloc : Z -> bool) (c : Z) (q : WorkStealingQueue T)
    (k n : nat) (tr : list label) (cf : config) :
  0 <= c -> Z.of_nat n + 2 + c < 2 ^ 64 ->
  init dflt alloc WorkStealingQueue_ctor c = (0, q) -> exec n (start q k) tr cf ->
  (owner_left (c_owner cf) <= 7)%nat /\
  (owner_left (c_owner cf) <> O ->
   exists q' pc', owner_next (c_queue cf) (c_owner cf) = Ok (q', pc') /\
     (owner_left pc' < owner_left (c_owner cf))%nat) /\
  Forall (fun pc => thief_left pc <> O ->
    exists q' pc', thief_next (c_queue cf) pc = Ok (q', pc') /\
      ((thief_left pc' < thief_left pc)%nat \/
       exists t v, pc = TCas t v /\ t < ws_top (c_queue cf))) (c_thieves cf).
Proof.
  intros Hc Hn Hinit Hexec. destruct (init_ready dflt alloc c q) as [Hq Hcap]; [lia|done|].
  destruct (exec_follows dflt q k n tr cf Hq Hexec) as (Hinv & _ & Hcf); [lia|].
  destruct cf as [q' o ths]. cbn in *. split; [|split].
  - destruct o; cbn; lia.
  - intros Ho. destruct (owner_follows dflt (Z.of_nat n) q' o ths Hinv) as (q2 & pc2 & E & _); [lia|].
    exists q2, pc2. split; [done|]. by eapply owner_next_left.
  - apply Forall_lookup. intros i pc Hi Hpc.
    destruct (steal_follows dflt (Z.of_nat n) q' o ths i pc Hinv) as (q2 & pc2 & E & _); [lia|done|].
    exists q2, pc2. split; [done|].
    destruct (thief_next_left q' pc q2 pc2 E Hpc) as [|(t & v & -> & _ & Hne)]; [by left|right].
    exists t, v. split; [done|].
    pose proof (proj1 (Forall_lookup _ _) (inv_thieves _ _ _ Hinv) i _ Hi) as [Ht _]. cbn in Ht. lia.
Qed.
End Properties.

(** A run: the owner pushes 7 while a thief looks, the thief takes it. *)
Definition ex_queue : WorkStealingQueue Z := snd (init 0 (fun _ => true) WorkStealingQueue_ctor 2).
Definition ex_trace : list (@label Z) :=
  [CallSteal 0; CallPush 7; Tau; Tau; Tau; Tau; Tau; RetOwner (RPush 7 true);
   Tau; Tau; Tau; Tau].

Ltac owner_access := eapply exec_cons; [apply step_owner; vm_compute; reflexivity|].
Ltac thief_access :=
  eapply exec_cons; [eapply (step_thief _ _ _ _ 0); [reflexivity|vm_compute; reflexivity]|]; cbn.

Lemma ex_exec : exec 12 (start ex_queue 1) ex_trace
  (mkConfig (mkWSQ 2 2 (Some [0; 7]) 2) OIdle [TRet (Some 7)]).
Proof.
  unfold ex_trace. change (start ex_queue 1) with (mkConfig ex_queue OIdle [@TIdle Z]).
  eapply exec_cons; [by apply (step_call_steal _ _ _ 0)|]. cbn.
  eapply exec_cons; [apply step_call_push|].
  owner_access. owner_access. owner_access. owner_access.
  thief_access.
  eapply exec_cons; [apply step_ret_owner|].
  thief_access. thief_access. thief_access. thief_access. constructor.
Defined.

Lemma work_stealing_refines_witness :
  spec_exec 2 (mkDeque [] OsIdle [TsIdle]) ex_trace (mkDeque [] OsIdle [TsDone (Some 7)]) /\
  (exists s : WorkStealingQueue Z * owner_pc, owner_next (mkWSQ 2 2 (Some [0; 7]) 2) OIdle = Ok s) /\
  Forall (fun pc : thief_pc => exists s, thief_next (mkWSQ 2 2 (Some [0; 7]) 2) pc = Ok s) [TRet (Some 7)].
Proof.
  apply (work_stealing_refines 0 (fun _ => true) 2 ex_queue 1 12 ex_trace
           (mkConfig (mkWSQ 2 2 (Some [0; 7]) 2) OIdle [TRet (Some 7)]));
    [lia|lia|reflexivity|exact ex_exec].
Defined.

Lemma work_stealing_conserves_witness : [7] ≡ₚ [] ++ [] ++ [7] ++ [].
Proof.
  apply (work_stealing_conserves 0 (fun _ => true) 2 ex_queue 1 12 ex_trace
           (mkConfig (mkWSQ 2 2 (Some [0; 7]) 2) OIdle [TRet (Some 7)]));
    [lia|lia|reflexivity|exact ex_exec].
Defined.

Lemma work_stealing_progress_witness :
  (owner_left (OPushB 7) <= 7)%nat /\
  (owner_left (OPushB 7) <> O ->
   exists q' pc', owner_next ex_queue (OPushB 7) = Ok (q', pc') /\
     (owner_left pc' < owner_left (OPushB 7))%nat) /\
  Forall (fun pc : thief_pc => thief_left pc <> O ->
    exists q' pc', thief_next ex_queue pc = Ok (q', pc') /\
      ((thief_left pc' < thief_left pc)%nat \/ exists t v, pc = TCas t v /\ t < 1)) [TLoadT].
Proof.
  apply (work_stealing_progress 0 (fun _ => true) 2 ex_queue 1 2 [CallSteal 0; CallPush 7]
           (mkConfig ex_queue (OPushB 7) [TLoadT])); [lia|lia|reflexivity|].
  eapply exec_cons; [by apply (step_call_steal _ _ _ 0)|].
  eapply exec_cons; [apply step_call_push|constructor].
Defined.

(** Calls of one thread alone. *)
Example seq_push_full :
  (q1 ← push ex_queue 7; q2 ← push (fst q1) 8; push (fst q2) 9) =
  Ok (mkWSQ 3 2 (Some [8; 7]) 1, RPush 9 false).
Proof. vm_compute. reflexivity. Qed.

Example seq_pop_last : (q1 ← push ex_queue 7; pop (fst q1)) = Ok (mkWSQ 2 2 (Some [0; 7]) 2, RPop (Some 7)).
Proof. vm_compute. reflexivity. Qed.

Example seq_steal : (q1 ← push ex_queue 7; steal 6 (fst q1)) = Ok (mkWSQ 2 2 (Some [0; 7]) 2, Some 7).
Proof. vm_compute. reflexivity. Qed.
