(* ===== verification/SmallMap.v ===== *)
(** * The small map (libsh/butil/containers/small_map.h)

    A map that keeps its first [kArraySize] entries in an array inside the
    object and moves to a real map when one more is added.  The real map is a
    template argument: [NormalMapOps] lists what SmallMap calls of it,
    [NormalMapLaws] what the C++ standard says of an associative container
    with unique keys, and the theorems are proved against them.

    [array_] is a list of slots, a slot without a live object is [None];
    [map_] is [None] while no map is constructed in the union.  A pointer
    [array_ + i] is the number [i], a null pointer is [None], and so is a map
    iterator that was default constructed.  A returned reference is the place
    it refers to. *)

From Stdlib Require Import ZArith Lia.
From stdpp Require Import base list gmap.
From S2P Require Import Prelude Numerics.

Open Scope Z_scope.

(** ** The real map *)

Class NormalMapOps (K V M It F : Type) := {
  nm_init : F -> M;                       (** [functor_(&map_)] *)
  nm_copy : M -> M -> M;                  (** the target after [target = source] *)
  nm_find : M -> K -> It;
  nm_begin : M -> It;
  nm_end : M -> It;
  nm_next : M -> It -> It;
  nm_prev : M -> It -> It;
  nm_deref : M -> It -> outcome (K * V);
  nm_same : It -> It -> bool;             (** [operator==] of iterators *)
  nm_insert : M -> K * V -> M * It * bool;
  nm_index : M -> K -> M * It;            (** [operator[]]: the place of the value *)
  nm_assign : M -> It -> V -> M;          (** writing through a reference *)
  nm_erase : M -> It -> M;
  nm_size : M -> Z;
  nm_empty : M -> bool
}.

(** ** ManualConstructor (butil/memory/manual_constructor.h) *)

Section ManualConstructor.
Context {A : Type}.

(** [array_[i].get()], read: the slot must hold a live object. *)
Definition mc_get (slots : list (option A)) (i : Z) : outcome A :=
  s ← vec_at slots i;
  match s with Some a => Ok a | None => Fault Uninitialised end.

Definition mc_Init (slots : list (option A)) (i : Z) (a : A) : outcome (list (option A)) :=
  _ ← vec_at slots i; Ok (<[Z.to_nat i := Some a]> slots).

Definition mc_Destroy (slots : list (option A)) (i : Z) : outcome (list (option A)) :=
  _ ← mc_get slots i; Ok (<[Z.to_nat i := None]> slots).
End ManualConstructor.

Record SmallMap (K V M F : Type) : Type := mkSmallMap {
  sm_size : Z;
  sm_functor : F;
  sm_array : list (option (K * V));
  sm_map : option M
}.
Arguments mkSmallMap {K V M F}.
Arguments sm_size {K V M F}.
Arguments sm_functor {K V M F}.
Arguments sm_array {K V M F}.
Arguments sm_map {K V M F}.

Record iterator (It : Type) : Type := mkIterator {
  array_iter : option Z;
  hash_iter : option It
}.
Arguments mkIterator {It}.
Arguments array_iter {It}.
Arguments hash_iter {It}.

Record const_iterator (It : Type) : Type := mkConstIterator {
  const_array_iter : option Z;
  const_hash_iter : option It
}.
Arguments mkConstIterator {It}.
Arguments const_array_iter {It}.
Arguments const_hash_iter {It}.

(** Keys compare with [M::key_equal] or, for an ordered map, with its
    comparator both ways. *)
Definition equal_key {K} (comp : K -> K -> bool) (left right : K) : bool :=
  negb (comp left right) && negb (comp right left).

Section SmallMap.
Context {K V M It F : Type} `{!NormalMapOps K V M It F}.
Context (kArraySize : Z) (key_equal : K -> K -> bool) (data_type : V) (MapInit : F).

Notation smap := (SmallMap K V M F).

(** ** Iterators *)

Definition iterator_null : iterator It := mkIterator None None.
Definition iterator_array (p : Z) : iterator It := mkIterator (Some p) None.
Definition iterator_hash (h : It) : iterator It := mkIterator None (Some h).

Definition const_iterator_null : const_iterator It := mkConstIterator None None.
Definition const_iterator_array (p : Z) : const_iterator It := mkConstIterator (Some p) None.
Definition const_iterator_hash (h : It) : const_iterator It := mkConstIterator None (Some h).
Definition const_iterator_of (other : iterator It) : const_iterator It :=
  mkConstIterator (array_iter other) (hash_iter other).

(** Access to [map_]; [map()] also checks that the map is in use. *)
Definition map_get (sm : smap) : outcome M :=
  match sm_map sm with Some m => Ok m | None => Fault Uninitialised end.

Definition the_hash (h : option It) : outcome It :=
  match h with Some h => Ok h | None => Fault Uninitialised end.

Definition iterator_next (sm : smap) (it : iterator It) : outcome (iterator It) :=
  match array_iter it with
  | Some p => Ok (mkIterator (Some (p + 1)) (hash_iter it))
  | None => m ← map_get sm; h ← the_hash (hash_iter it); Ok (iterator_hash (nm_next m h))
  end.

Definition iterator_prev (sm : smap) (it : iterator It) : outcome (iterator It) :=
  match array_iter it with
  | Some p => Ok (mkIterator (Some (p - 1)) (hash_iter it))
  | None => m ← map_get sm; h ← the_hash (hash_iter it); Ok (iterator_hash (nm_prev m h))
  end.

(** The postfix forms return the old iterator and leave the new one. *)
Definition iterator_next_post (sm : smap) (it : iterator It) : outcome (iterator It * iterator It) :=
  it' ← iterator_next sm it; Ok (it, it').
Definition iterator_prev_post (sm : smap) (it : iterator It) : outcome (iterator It * iterator It) :=
  it' ← iterator_prev sm it; Ok (it, it').

(** [operator->] and [operator*] *)
Definition iterator_arrow (sm : smap) (it : iterator It) : outcome (K * V) :=
  match array_iter it with
  | Some p => mc_get (sm_array sm) p
  | None => m ← map_get sm; h ← the_hash (hash_iter it); nm_deref m h
  end.
Definition iterator_deref (sm : smap) (it : iterator It) : outcome (K * V) :=
  match array_iter it with
  | Some p => mc_get (sm_array sm) p
  | None => m ← map_get sm; h ← the_hash (hash_iter it); nm_deref m h
  end.

Definition iterator_eq (it other : iterator It) : outcome bool :=
  match array_iter it with
  | Some p => Ok (bool_decide (Some p = array_iter other))
  | None =>
      match array_iter other with
      | Some _ => Ok false
      | None => h ← the_hash (hash_iter it); h' ← the_hash (hash_iter other); Ok (nm_same h h')
      end
  end.
Definition iterator_neq (it other : iterator It) : outcome bool :=
  b ← iterator_eq it other; Ok (negb b).

Definition const_iterator_next (sm : smap) (it : const_iterator It) : outcome (const_iterator It) :=
  match const_array_iter it with
  | Some p => Ok (mkConstIterator (Some (p + 1)) (const_hash_iter it))
  | None =>
      m ← map_get sm; h ← the_hash (const_hash_iter it); Ok (const_iterator_hash (nm_next m h))
  end.

Definition const_iterator_prev (sm : smap) (it : const_iterator It) : outcome (const_iterator It) :=
  match const_array_iter it with
  | Some p => Ok (mkConstIterator (Some (p - 1)) (const_hash_iter it))
  | None =>
      m ← map_get sm; h ← the_hash (const_hash_iter it); Ok (const_iterator_hash (nm_prev m h))
  end.

Definition const_iterator_next_post (sm : smap) (it : const_iterator It) :
    outcome (const_iterator It * const_iterator It) :=
  it' ← const_iterator_next sm it; Ok (it, it').
Definition const_iterator_prev_post (sm : smap) (it : const_iterator It) :
    outcome (const_iterator It * const_iterator It) :=
  it' ← const_iterator_prev sm it; Ok (it, it').

Definition const_iterator_arrow (sm : smap) (it : const_iterator It) : outcome (K * V) :=
  match const_array_iter it with
  | Some p => mc_get (sm_array sm) p
  | None => m ← map_get sm; h ← the_hash (const_hash_iter it); nm_deref m h
  end.
Definition const_iterator_deref (sm : smap) (it : const_iterator It) : outcome (K * V) :=
  match const_array_iter it with
  | Some p => mc_get (sm_array sm) p
  | None => m ← map_get sm; h ← the_hash (const_hash_iter it); nm_deref m h
  end.

Definition const_iterator_eq (it other : const_iterator It) : outcome bool :=
  match const_array_iter it with
  | Some p => Ok (bool_decide (Some p = const_array_iter other))
  | None =>
      match const_array_iter other with
      | Some _ => Ok false
      | None =>
          h ← the_hash (const_hash_iter it); h' ← the_hash (const_hash_iter other);
          Ok (nm_same h h')
      end
  end.
Definition const_iterator_neq (it other : const_iterator It) : outcome bool :=
  b ← const_iterator_eq it other; Ok (negb b).

(** Mixed comparison: the other side is compared with this one converted. *)
Definition iterator_eq_const (it : iterator It) (other : const_iterator It) : outcome bool :=
  const_iterator_eq other (const_iterator_of it).
Definition iterator_neq_const (it : iterator It) (other : const_iterator It) : outcome bool :=
  const_iterator_neq other (const_iterator_of it).

(** ** The map *)

Definition SmallMap_ctor : smap :=
  mkSmallMap 0 MapInit (replicate (Z.to_nat kArraySize) None) None.

Definition SmallMap_ctor_functor (functor : F) : smap :=
  mkSmallMap 0 functor (replicate (Z.to_nat kArraySize) None) None.

Definition UsingFullMap (sm : smap) : bool := sm_size sm <? 0.

(** [map()]; a failing [CHECK] ends the program. *)
Definition map_ (sm : smap) : outcome M :=
  if UsingFullMap sm then map_get sm else Fault InvalidArgument.
Definition map_const (sm : smap) : outcome M :=
  if UsingFullMap sm then map_get sm else Fault InvalidArgument.

Definition with_array (sm : smap) (size : Z) (slots : list (option (K * V))) : smap :=
  mkSmallMap size (sm_functor sm) slots (sm_map sm).
Definition with_map (sm : smap) (m : option M) : smap :=
  mkSmallMap (sm_size sm) (sm_functor sm) (sm_array sm) m.

(** [for (int i = 0; i < size_; i++) if (compare(array_[i]->first, key)) return i;] *)
Fixpoint find_from (n : nat) (slots : list (option (K * V))) (i : Z) (key : K) :
    outcome (option Z) :=
  match n with
  | O => Ok None
  | S n =>
      e ← mc_get slots i;
      if key_equal (fst e) key then Ok (Some i) else find_from n slots (i + 1) key
  end.

(** [for (int i = size_-1; i >= 0; --i) ...] *)
Fixpoint find_back (n : nat) (slots : list (option (K * V))) (key : K) : outcome (option Z) :=
  match n with
  | O => Ok None
  | S n =>
      e ← mc_get slots (Z.of_nat n);
      if key_equal (fst e) key then Ok (Some (Z.of_nat n)) else find_back n slots key
  end.

Definition find (sm : smap) (key : K) : outcome (iterator It) :=
  if 0 <=? sm_size sm then
    r ← find_from (Z.to_nat (sm_size sm)) (sm_array sm) 0 key;
    match r with
    | Some i => Ok (iterator_array i)
    | None => Ok (iterator_array (sm_size sm))
    end
  else m ← map_ sm; Ok (iterator_hash (nm_find m key)).

Definition find_const (sm : smap) (key : K) : outcome (const_iterator It) :=
  if 0 <=? sm_size sm then
    r ← find_from (Z.to_nat (sm_size sm)) (sm_array sm) 0 key;
    match r with
    | Some i => Ok (const_iterator_array i)
    | None => Ok (const_iterator_array (sm_size sm))
    end
  else m ← map_const sm; Ok (const_iterator_hash (nm_find m key)).

(** Destroys the objects of the slots [i], [i + 1], ..., [n] of them. *)
Fixpoint destroy_from (n : nat) (i : Z) (slots : list (option (K * V))) :
    outcome (list (option (K * V))) :=
  match n with
  | O => Ok slots
  | S n => slots' ← mc_Destroy slots i; destroy_from n (i + 1) slots'
  end.

(** First loop: the entries move to [temp_array]. *)
Fixpoint move_out (n : nat) (i : Z) (slots temp : list (option (K * V))) :
    outcome (list (option (K * V)) * list (option (K * V))) :=
  match n with
  | O => Ok (slots, temp)
  | S n =>
      e ← mc_get slots i;
      temp' ← mc_Init temp i e;
      slots' ← mc_Destroy slots i;
      move_out n (i + 1) slots' temp'
  end.

(** Second loop: from [temp_array] into the map. *)
Fixpoint move_in (n : nat) (i : Z) (m : M) (temp : list (option (K * V))) : outcome M :=
  match n with
  | O => Ok m
  | S n =>
      e ← mc_get temp i;
      let '(m', _, _) := nm_insert m e in
      temp' ← mc_Destroy temp i;
      move_in n (i + 1) m' temp'
  end.

Definition ConvertToRealMap (sm : smap) : outcome smap :=
  let n := Z.to_nat kArraySize in
  '(slots, temp) ← move_out n 0 (sm_array sm) (replicate n None);
  m ← move_in n 0 (nm_init (sm_functor sm)) temp;
  Ok (mkSmallMap (-1) (sm_functor sm) slots (Some m)).

(** [operator[]] returns the place of the value. *)
Definition index (sm : smap) (key : K) : outcome (smap * iterator It) :=
  if 0 <=? sm_size sm then
    r ← find_back (Z.to_nat (sm_size sm)) (sm_array sm) key;
    match r with
    | Some i => Ok (sm, iterator_array i)
    | None =>
        if sm_size sm =? kArraySize then
          sm' ← ConvertToRealMap sm; m ← map_get sm';
          let '(m', h) := nm_index m key in Ok (with_map sm' (Some m'), iterator_hash h)
        else
          slots ← mc_Init (sm_array sm) (sm_size sm) (key, data_type);
          size' ← exact int32 (sm_size sm + 1);
          Ok (with_array sm size' slots, iterator_array (sm_size sm))
    end
  else
    m ← map_get sm;
    let '(m', h) := nm_index m key in Ok (with_map sm (Some m'), iterator_hash h).

(** A value read and written through the reference. *)
Definition ref_read (sm : smap) (it : iterator It) : outcome V :=
  e ← iterator_deref sm it; Ok (snd e).

Definition ref_write (sm : smap) (it : iterator It) (v : V) : outcome smap :=
  match array_iter it with
  | Some p =>
      e ← mc_get (sm_array sm) p;
      slots ← mc_Init (sm_array sm) p (fst e, v); Ok (with_array sm (sm_size sm) slots)
  | None =>
      m ← map_get sm; h ← the_hash (hash_iter it); Ok (with_map sm (Some (nm_assign m h v)))
  end.

Definition insert (sm : smap) (x : K * V) : outcome (smap * iterator It * bool) :=
  if 0 <=? sm_size sm then
    r ← find_from (Z.to_nat (sm_size sm)) (sm_array sm) 0 (fst x);
    match r with
    | Some i => Ok (sm, iterator_array i, false)
    | None =>
        if sm_size sm =? kArraySize then
          sm' ← ConvertToRealMap sm; m ← map_get sm';
          let '(m', h, fresh) := nm_insert m x in
          Ok (with_map sm' (Some m'), iterator_hash h, fresh)
        else
          slots ← mc_Init (sm_array sm) (sm_size sm) x;
          size' ← exact int32 (sm_size sm + 1);
          Ok (with_array sm size' slots, iterator_array (sm_size sm), true)
    end
  else
    m ← map_get sm;
    let '(m', h, fresh) := nm_insert m x in
    Ok (with_map sm (Some m'), iterator_hash h, fresh).

(** [insert(f, l)]: the elements of the range, one by one. *)
Fixpoint insert_range (sm : smap) (range : list (K * V)) : outcome smap :=
  match range with
  | [] => Ok sm
  | x :: range => '(sm', _, _) ← insert sm x; insert_range sm' range
  end.

Definition begin_ (sm : smap) : outcome (iterator It) :=
  if 0 <=? sm_size sm then Ok (iterator_array 0)
  else m ← map_get sm; Ok (iterator_hash (nm_begin m)).
Definition begin_const (sm : smap) : outcome (const_iterator It) :=
  if 0 <=? sm_size sm then Ok (const_iterator_array 0)
  else m ← map_get sm; Ok (const_iterator_hash (nm_begin m)).
Definition end_ (sm : smap) : outcome (iterator It) :=
  if 0 <=? sm_size sm then Ok (iterator_array (sm_size sm))
  else m ← map_get sm; Ok (iterator_hash (nm_end m)).
Definition end_const (sm : smap) : outcome (const_iterator It) :=
  if 0 <=? sm_size sm then Ok (const_iterator_array (sm_size sm))
  else m ← map_get sm; Ok (const_iterator_hash (nm_end m)).

(** [Destroy] leaves [size_] alone. *)
Definition Destroy (sm : smap) : outcome smap :=
  if 0 <=? sm_size sm then
    slots ← destroy_from (Z.to_nat (sm_size sm)) 0 (sm_array sm);
    Ok (with_array sm (sm_size sm) slots)
  else _ ← map_get sm; Ok (with_map sm None).

Definition clear (sm : smap) : outcome smap :=
  sm' ← (if 0 <=? sm_size sm then
           slots ← destroy_from (Z.to_nat (sm_size sm)) 0 (sm_array sm);
           Ok (with_array sm (sm_size sm) slots)
         else _ ← map_get sm; Ok (with_map sm None));
  Ok (with_array sm' 0 (sm_array sm')).

(** The last entry takes the place of an erased one. *)
Definition erase_at (sm : smap) (position : iterator It) : outcome smap :=
  if 0 <=? sm_size sm then
    match array_iter position with
    | None => Fault OutOfRange
    | Some i =>
        slots ← mc_Destroy (sm_array sm) i;
        size' ← exact int32 (sm_size sm - 1);
        if negb (i =? size') then
          e ← mc_get slots size';
          slots' ← mc_Init slots i e;
          slots'' ← mc_Destroy slots' size';
          Ok (with_array sm size' slots'')
        else Ok (with_array sm size' slots)
    end
  else
    m ← map_get sm; h ← the_hash (hash_iter position);
    Ok (with_map sm (Some (nm_erase m h))).

Definition erase (sm : smap) (key : K) : outcome (smap * Z) :=
  iter ← find sm key;
  e ← end_ sm;
  at_end ← iterator_eq iter e;
  if (at_end : bool) then Ok (sm, 0)
  else sm' ← erase_at sm iter; Ok (sm', 1).

Definition count (sm : smap) (key : K) : outcome Z :=
  iter ← find_const sm key;
  e ← end_const sm;
  at_end ← const_iterator_eq iter e;
  Ok (if (at_end : bool) then 0 else 1).

Definition size (sm : smap) : outcome Z :=
  if 0 <=? sm_size sm then Ok (cast uint64 (sm_size sm))
  else m ← map_get sm; Ok (nm_size m).

Definition empty (sm : smap) : outcome bool :=
  if 0 <=? sm_size sm then Ok (sm_size sm =? 0)
  else m ← map_get sm; Ok (nm_empty m).

(** Copies the entries [i], [i + 1], ..., [n] of them. *)
Fixpoint copy_from (n : nat) (i : Z) (src slots : list (option (K * V))) :
    outcome (list (option (K * V))) :=
  match n with
  | O => Ok slots
  | S n => e ← mc_get src i; slots' ← mc_Init slots i e; copy_from n (i + 1) src slots'
  end.

(** [sm] provides the storage that is constructed into. *)
Definition InitFrom (sm src : smap) : outcome smap :=
  if 0 <=? sm_size src then
    slots ← copy_from (Z.to_nat (sm_size src)) 0 (sm_array src) (sm_array sm);
    Ok (mkSmallMap (sm_size src) (sm_functor src) slots (sm_map sm))
  else
    m ← map_get src;
    Ok (mkSmallMap (sm_size src) (sm_functor src) (sm_array sm)
          (Some (nm_copy (nm_init (sm_functor src)) m))).

Definition SmallMap_copy (src : smap) : outcome smap := InitFrom SmallMap_ctor src.

(** [operator=]; [self] tells whether [&src == this]. *)
Definition assign_from (self : bool) (sm src : smap) : outcome smap :=
  if self then Ok sm
  else sm' ← Destroy sm; InitFrom sm' src.

End SmallMap.

(** ** What the C++ standard says of the real map

    [nm_elems] are the entries in the order of iteration, [nm_iter m i] is the
    iterator at entry [i], the end after the last.  [d] is the value that
    [operator[]] gives to a new entry. *)

Class NormalMapLaws (K V M It F : Type) `{!NormalMapOps K V M It F} (d : V) := {
  nm_wf : M -> Prop;
  nm_elems : M -> list (K * V);
  nm_iter : M -> nat -> It;
  nm_keys m : nm_wf m -> NoDup (fst <$> nm_elems m);
  nm_init_spec f : nm_wf (nm_init f) /\ nm_elems (nm_init f) = [];
  nm_copy_spec t m : nm_wf t -> nm_wf m ->
    nm_wf (nm_copy t m) /\ nm_elems (nm_copy t m) ≡ₚ nm_elems m;
  nm_begin_spec m : nm_wf m -> nm_begin m = nm_iter m 0;
  nm_end_spec m : nm_wf m -> nm_end m = nm_iter m (length (nm_elems m));
  nm_next_spec m i : nm_wf m -> (i < length (nm_elems m))%nat ->
    nm_next m (nm_iter m i) = nm_iter m (S i);
  nm_prev_spec m i : nm_wf m -> (i < length (nm_elems m))%nat ->
    nm_prev m (nm_iter m (S i)) = nm_iter m i;
  nm_deref_spec m i e : nm_wf m -> nm_elems m !! i = Some e ->
    nm_deref m (nm_iter m i) = Ok e;
  nm_same_spec m i j : nm_wf m ->
    (i <= length (nm_elems m))%nat -> (j <= length (nm_elems m))%nat ->
    nm_same (nm_iter m i) (nm_iter m j) = bool_decide (i = j);
  nm_find_old m i k v : nm_wf m -> nm_elems m !! i = Some (k, v) -> nm_find m k = nm_iter m i;
  nm_find_new m k : nm_wf m -> k ∉ fst <$> nm_elems m -> nm_find m k = nm_end m;
  nm_insert_old m i k v v' : nm_wf m -> nm_elems m !! i = Some (k, v) ->
    nm_insert m (k, v') = (m, nm_iter m i, false);
  nm_insert_new m k v : nm_wf m -> k ∉ fst <$> nm_elems m ->
    exists m' i, nm_insert m (k, v) = (m', nm_iter m' i, true) /\ nm_wf m' /\
      nm_elems m' !! i = Some (k, v) /\ nm_elems m' ≡ₚ (k, v) :: nm_elems m;
  nm_index_old m i k v : nm_wf m -> nm_elems m !! i = Some (k, v) ->
    nm_index m k = (m, nm_iter m i);
  nm_index_new m k : nm_wf m -> k ∉ fst <$> nm_elems m ->
    exists m' i, nm_index m k = (m', nm_iter m' i) /\ nm_wf m' /\
      nm_elems m' !! i = Some (k, d) /\ nm_elems m' ≡ₚ (k, d) :: nm_elems m;
  nm_assign_spec m i k v v' : nm_wf m -> nm_elems m !! i = Some (k, v) ->
    nm_wf (nm_assign m (nm_iter m i) v') /\
    nm_elems (nm_assign m (nm_iter m i) v') = <[i := (k, v')]> (nm_elems m);
  nm_erase_spec m i : nm_wf m -> (i < length (nm_elems m))%nat ->
    nm_wf (nm_erase m (nm_iter m i)) /\
    nm_elems (nm_erase m (nm_iter m i)) ≡ₚ delete i (nm_elems m);
  nm_size_spec m : nm_wf m -> nm_size m = vec_size (nm_elems m);
  nm_empty_spec m : nm_wf m -> nm_empty m = bool_decide (length (nm_elems m) = 0%nat)
}.

(** ** Slots *)

Section Slots.
Context {A : Type}.
Implicit Types (a b : list (option A)) (e : A).

Lemma mc_get_app a b e i : i = vec_size a -> mc_get (a ++ Some e :: b) i = Ok e.
Proof.
  intros ->. unfold mc_get, vec_size.
  rewrite (vec_at_some _ _ (Some e)); [done|lia|]. rewrite Nat2Z.id. by apply list_lookup_middle.
Qed.

Lemma mc_Init_app a b x e i : i = vec_size a -> mc_Init (a ++ x :: b) i e = Ok (a ++ Some e :: b).
Proof.
  intros ->. unfold mc_Init, vec_size.
  rewrite (vec_at_some _ _ x); [|lia|rewrite Nat2Z.id; by apply list_lookup_middle].
  cbn. f_equal. rewrite Nat2Z.id, <- (Nat.add_0_r (length a)). by rewrite insert_app_r.
Qed.

Lemma mc_Destroy_app a b e i : i = vec_size a -> mc_Destroy (a ++ Some e :: b) i = Ok (a ++ None :: b).
Proof.
  intros ->. unfold mc_Destroy. rewrite mc_get_app by done. cbn. f_equal.
  unfold vec_size. rewrite Nat2Z.id, <- (Nat.add_0_r (length a)). by rewrite insert_app_r.
Qed.

(** [n] slots of which the first hold the objects of [l]. *)
Definition slots_of (n : nat) (l : list A) : list (option A) :=
  (Some <$> l) ++ replicate (n - length l) None.

Lemma slots_of_nil n : slots_of n [] = replicate n None.
Proof. unfold slots_of. cbn. by rewrite Nat.sub_0_r. Qed.

Lemma slots_of_full n l : length l = n -> slots_of n l = Some <$> l.
Proof. intros <-. unfold slots_of. by rewrite Nat.sub_diag, app_nil_r. Qed.

Lemma slots_of_get n l i e : l !! i = Some e -> mc_get (slots_of n l) (Z.of_nat i) = Ok e.
Proof.
  intros Hi. unfold slots_of. rewrite <- (take_drop_middle l i e Hi) at 1.
  rewrite fmap_app, fmap_cons, <- app_assoc. cbn. apply mc_get_app.
  unfold vec_size. rewrite length_fmap, length_take_le; [done|]. apply lookup_lt_Some in Hi. lia.
Qed.

Lemma slots_of_init n l e i :
  i = vec_size l -> (length l < n)%nat -> mc_Init (slots_of n l) i e = Ok (slots_of n (l ++ [e])).
Proof.
  intros -> Hl. unfold slots_of. replace (n - length l)%nat with (S (n - S (length l))) by lia.
  cbn [replicate]. rewrite (mc_Init_app (Some <$> l)).
  - rewrite fmap_app, <- app_assoc. cbn. rewrite length_app. cbn.
    by replace (n - (length l + 1))%nat with (n - S (length l))%nat by lia.
  - unfold vec_size. by rewrite length_fmap.
Qed.

Lemma slots_of_set n l i e x :
  l !! i = Some x -> mc_Init (slots_of n l) (Z.of_nat i) e = Ok (slots_of n (<[i := e]> l)).
Proof.
  intros Hi. assert (Hlt := lookup_lt_Some _ _ _ Hi). unfold slots_of.
  rewrite length_insert, insert_take_drop by done.
  rewrite <- (take_drop_middle l i x Hi) at 1.
  rewrite !fmap_app, !fmap_cons, <- !app_assoc. cbn. apply mc_Init_app.
  unfold vec_size. rewrite length_fmap, length_take_le; [done|lia].
Qed.

Lemma slots_of_drop n l e i :
  i = vec_size l -> (length l < n)%nat -> mc_Destroy (slots_of n (l ++ [e])) i = Ok (slots_of n l).
Proof.
  intros -> Hl. unfold slots_of. rewrite fmap_app, <- app_assoc. cbn.
  rewrite (mc_Destroy_app (Some <$> l)) by (unfold vec_size; by rewrite length_fmap).
  rewrite length_app. cbn. replace (n - length l)%nat with (S (n - (length l + 1))) by lia. done.
Qed.
End Slots.

(** ** Loops over the array *)

Section Loops.
Context {K V M It F : Type} `{!NormalMapOps K V M It F} {d : V} `{!NormalMapLaws K V M It F d}.
Context `{!EqDecision K} (key_equal : K -> K -> bool).
Context (key_equal_spec : forall a b, key_equal a b = bool_decide (a = b)).
Implicit Types (l : list (K * V)) (m : M).

Lemma find_from_old n l k v i j :
  l !! (i + j)%nat = Some (k, v) -> NoDup (fst <$> l) ->
  find_from key_equal (length l - i) (slots_of n l) (Z.of_nat i) k = Ok (Some (Z.of_nat (i + j))).
Proof.
  intros Hk Hnd. assert (Hlt := lookup_lt_Some _ _ _ Hk).
  revert i Hk Hlt. induction j as [|j IH]; intros i Hk Hlt.
  - destruct (length l - i)%nat as [|r] eqn:E; [lia|]. cbn. rewrite Nat.add_0_r in *.
    rewrite (slots_of_get n l i (k, v)) by done. cbn. rewrite key_equal_spec.
    by rewrite bool_decide_true.
  - destruct (length l - i)%nat as [|r] eqn:E; [lia|]. cbn.
    destruct (lookup_lt_is_Some_2 l i) as [[k' v'] Hi]; [lia|].
    rewrite (slots_of_get n l i (k', v')) by done. cbn. rewrite key_equal_spec.
    rewrite bool_decide_false.
    + replace r with (length l - S i)%nat by lia. replace (Z.of_nat i + 1) with (Z.of_nat (S i)) by lia.
      rewrite IH; [do 2 f_equal; lia|by rewrite Nat.add_succ_l, <- Nat.add_succ_r|lia].
    + intros ->. assert (i = i + S j)%nat; [|lia].
      apply (NoDup_lookup (fst <$> l) i (i + S j) k Hnd); rewrite list_lookup_fmap.
      * by rewrite Hi.
      * by rewrite Hk.
Qed.

Lemma find_from_new n l k i :
  k ∉ fst <$> l -> find_from key_equal (length l - i) (slots_of n l) (Z.of_nat i) k = Ok None.
Proof.
  intros Hk. remember (length l - i)%nat as r eqn:E. revert i E.
  induction r as [|r IH]; intros i E; [done|]. cbn.
  destruct (lookup_lt_is_Some_2 l i) as [[k' v'] Hi]; [lia|].
  rewrite (slots_of_get n l i (k', v')) by done. cbn. rewrite key_equal_spec.
  rewrite bool_decide_false.
  - replace (Z.of_nat i + 1) with (Z.of_nat (S i)) by lia. apply IH. lia.
  - intros ->. apply Hk. apply (list_elem_of_fmap_2' fst l (k, v')); [|done].
    by eapply list_elem_of_lookup_2.
Qed.

Lemma find_array_old n l k v i :
  l !! i = Some (k, v) -> NoDup (fst <$> l) ->
  find_from key_equal (length l) (slots_of n l) 0 k = Ok (Some (Z.of_nat i)).
Proof.
  intros Hi Hnd. assert (E := find_from_old n l k v 0 i Hi Hnd). by rewrite Nat.sub_0_r in E.
Qed.

Lemma find_array_new n l k :
  k ∉ fst <$> l -> find_from key_equal (length l) (slots_of n l) 0 k = Ok None.
Proof. intros Hk. assert (E := find_from_new n l k 0 Hk). by rewrite Nat.sub_0_r in E. Qed.

Lemma find_back_old n l k v i r :
  l !! i = Some (k, v) -> NoDup (fst <$> l) -> (i < r <= length l)%nat ->
  find_back key_equal r (slots_of n l) k = Ok (Some (Z.of_nat i)).
Proof.
  intros Hk Hnd. induction r as [|r IH]; intros Hr; [lia|]. cbn.
  destruct (lookup_lt_is_Some_2 l r) as [[k' v'] Hi]; [lia|].
  rewrite (slots_of_get n l r (k', v')) by done. cbn. rewrite key_equal_spec.
  destruct (bool_decide_reflect (k' = k)) as [->|Hne].
  - assert (r = i) as ->; [|done].
    apply (NoDup_lookup (fst <$> l) r i k Hnd); rewrite list_lookup_fmap; [by rewrite Hi|by rewrite Hk].
  - apply IH. split; [|lia]. assert (i <> r); [congruence|lia].
Qed.

Lemma find_back_new n l k r :
  k ∉ fst <$> l -> (r <= length l)%nat -> find_back key_equal r (slots_of n l) k = Ok None.
Proof.
  intros Hk. induction r as [|r IH]; intros Hr; [done|]. cbn.
  destruct (lookup_lt_is_Some_2 l r) as [[k' v'] Hi]; [lia|].
  rewrite (slots_of_get n l r (k', v')) by done. cbn. rewrite key_equal_spec.
  rewrite bool_decide_false; [apply IH; lia|].
  intros ->. apply Hk. apply (list_elem_of_fmap_2' fst l (k, v')); [|done].
  by eapply list_elem_of_lookup_2.
Qed.

Lemma destroy_from_spec l k (rest : list (option (K * V))) :
  destroy_from (length l) (Z.of_nat k) (replicate k None ++ (Some <$> l) ++ rest) =
  Ok (replicate (k + length l) None ++ rest).
Proof.
  revert k. induction l as [|e l IH]; intros k; cbn; [by rewrite Nat.add_0_r|].
  rewrite mc_Destroy_app by (unfold vec_size; by rewrite length_replicate). cbn.
  specialize (IH (S k)). replace (Z.of_nat k + 1) with (Z.of_nat (S k)) by lia.
  rewrite replicate_S_end, <- app_assoc in IH. cbn in IH.
  by rewrite IH, Nat.add_succ_r.
Qed.

Lemma destroy_slots n l :
  (length l <= n)%nat -> destroy_from (length l) 0 (slots_of n l) = Ok (slots_of n []).
Proof.
  intros Hl. rewrite slots_of_nil. etransitivity; [apply (destroy_from_spec l 0)|].
  rewrite <- replicate_add. do 2 f_equal. lia.
Qed.

Lemma move_out_spec l done :
  move_out (length l) (vec_size done) (replicate (length done) None ++ (Some <$> l))
    ((Some <$> done) ++ replicate (length l) None) =
  Ok (replicate (length done + length l) None, Some <$> (done ++ l)).
Proof.
  revert done. induction l as [|e l IH]; intros done; cbn.
  - by rewrite Nat.add_0_r, !app_nil_r.
  - rewrite mc_get_app by (unfold vec_size; by rewrite length_replicate). cbn.
    rewrite mc_Init_app by (unfold vec_size; by rewrite length_fmap). cbn.
    rewrite mc_Destroy_app by (unfold vec_size; by rewrite length_replicate). cbn.
    specialize (IH (done ++ [e])). unfold vec_size in *. rewrite length_app in IH. cbn in IH.
    replace (Z.of_nat (length done) + 1) with (Z.of_nat (length done + 1)) by lia.
    rewrite Nat.add_1_r, replicate_S_end, fmap_app, <- !app_assoc in IH. cbn in IH.
    rewrite Nat.add_1_r, IH. by rewrite Nat.add_succ_r.
Qed.

Lemma move_in_spec l k m :
  nm_wf m -> NoDup (fst <$> (l ++ nm_elems m)) ->
  exists m', move_in (length l) (Z.of_nat k) m (replicate k None ++ (Some <$> l)) = Ok m' /\
    nm_wf m' /\ nm_elems m' ≡ₚ l ++ nm_elems m.
Proof.
  revert k m. induction l as [|[key v] l IH]; intros k m Hm Hnd; cbn; [by exists m|].
  rewrite mc_get_app by (unfold vec_size; by rewrite length_replicate). cbn.
  rewrite fmap_app, fmap_cons in Hnd. cbn [app fst] in Hnd. rewrite NoDup_cons in Hnd.
  destruct Hnd as [Hk Hnd].
  destruct (nm_insert_new m key v Hm) as (m1 & i & -> & Hm1 & _ & Hp).
  { intros H. apply Hk. rewrite elem_of_app. by right. }
  cbn. rewrite mc_Destroy_app by (unfold vec_size; by rewrite length_replicate). cbn.
  destruct (IH (S k) m1 Hm1) as (m' & E & Hm' & Hp').
  - rewrite Hp, <- Permutation_middle, fmap_cons, NoDup_cons, fmap_app. done.
  - exists m'. replace (Z.of_nat k + 1) with (Z.of_nat (S k)) by lia.
    rewrite replicate_S_end, <- app_assoc in E. cbn in E. rewrite E.
    split; [done|]. split; [done|]. rewrite Hp', Hp. by rewrite <- Permutation_middle.
Qed.

Lemma copy_from_spec n l done l2 :
  l = done ++ l2 -> (length l <= n)%nat ->
  copy_from (length l2) (vec_size done) (slots_of n l) (slots_of n done) = Ok (slots_of n l).
Proof.
  revert done. induction l2 as [|e l2 IH]; intros done -> Hl; cbn.
  - by rewrite app_nil_r.
  - unfold vec_size. rewrite (slots_of_get n _ (length done) e) by (by apply list_lookup_middle). cbn.
    rewrite length_app in Hl. cbn in Hl. rewrite slots_of_init by (done || lia). cbn.
    specialize (IH (done ++ [e])). rewrite <- app_assoc in IH. cbn in IH.
    unfold vec_size in IH. rewrite (length_app done [e]) in IH. cbn [length] in IH.
    replace (Z.of_nat (length done) + 1) with (Z.of_nat (length done + 1)) by lia.
    apply IH; [done|]. rewrite length_app. cbn. lia.
Qed.
End Loops.

(** ** What a small map holds *)

Section Refinement.
Context {K V M It F : Type} `{!NormalMapOps K V M It F} {d : V} `{!NormalMapLaws K V M It F d}.
Context `{Countable K} (key_equal : K -> K -> bool).
Context (key_equal_spec : forall a b, key_equal a b = bool_decide (a = b)).
Context (kArraySize : Z) (Hsize : 0 < kArraySize <= imax int32) (MapInit : F).

Notation smap := (SmallMap K V M F).
Notation kn := (Z.to_nat kArraySize).
Implicit Types (sm : smap) (l : list (K * V)).

(** The entries in the order of iteration.  The lifetimes of the array's objects
    and of the map do not overlap. *)
Inductive reps : smap -> list (K * V) -> Prop :=
| reps_array f l :
    vec_size l <= kArraySize -> NoDup (fst <$> l) ->
    reps (mkSmallMap (vec_size l) f (slots_of kn l) None) l
| reps_map f m :
    nm_wf m -> reps (mkSmallMap (-1) f (slots_of kn []) (Some m)) (nm_elems m).

(** The iterator at entry [i]. *)
Definition at_pos (sm : smap) (i : nat) : iterator It :=
  match sm_map sm with
  | None => iterator_array (Z.of_nat i)
  | Some m => iterator_hash (nm_iter m i)
  end.

Lemma reps_nodup sm l : reps sm l -> NoDup (fst <$> l).
Proof. destruct 1; [done|by apply nm_keys]. Qed.

Lemma reps_ctor : reps (SmallMap_ctor kArraySize MapInit) [].
Proof.
  unfold SmallMap_ctor. rewrite <- slots_of_nil. apply (reps_array MapInit []); [unfold vec_size; cbn; lia|constructor].
Qed.

Lemma vec_size_nonneg {A} (v : list A) : (0 <=? vec_size v) = true.
Proof. apply Z.leb_le. unfold vec_size. lia. Qed.

Lemma vec_size_nat {A} (v : list A) : Z.to_nat (vec_size v) = length v.
Proof. unfold vec_size. lia. Qed.

Lemma size_exact z : 0 <= z <= kArraySize -> exact int32 z = Ok z.
Proof.
  intros Hz. apply exact_fits. unfold in_ity. change (imin int32) with (- 2 ^ 31). lia.
Qed.

(** *** Lookup and iteration *)

Lemma find_old sm l i k v :
  reps sm l -> l !! i = Some (k, v) -> find key_equal sm k = Ok (at_pos sm i).
Proof.
  intros Hr Hi. destruct Hr as [f l Hl Hnd|f m Hm]; unfold find; cbn [sm_size sm_array].
  - rewrite vec_size_nonneg, vec_size_nat.
    by rewrite (find_array_old key_equal key_equal_spec kn l k v i).
  - cbn. by rewrite (nm_find_old m i k v).
Qed.

Lemma find_new sm l k :
  reps sm l -> k ∉ fst <$> l -> find key_equal sm k = Ok (at_pos sm (length l)).
Proof.
  intros Hr Hk. destruct Hr as [f l Hl Hnd|f m Hm]; unfold find; cbn [sm_size sm_array].
  - rewrite vec_size_nonneg, vec_size_nat.
    by rewrite find_array_new.
  - cbn. by rewrite nm_find_new, nm_end_spec by done.
Qed.

Lemma find_const_agrees sm k :
  find_const key_equal sm k = (it ← find key_equal sm k; Ok (const_iterator_of it)).
Proof.
  unfold find_const, find. destruct (0 <=? sm_size sm).
  - by destruct (find_from _ _ _ _ _) as [[]| |].
  - unfold map_const, map_, map_get. by destruct (UsingFullMap sm), (sm_map sm).
Qed.

Lemma end_spec sm l : reps sm l -> end_ sm = Ok (at_pos sm (length l)).
Proof.
  intros [f l' Hl Hnd|f m Hm]; unfold end_; cbn [sm_size].
  - by rewrite vec_size_nonneg.
  - cbn. by rewrite nm_end_spec.
Qed.

Lemma end_const_agrees sm : end_const sm = (it ← end_ sm; Ok (const_iterator_of (It := It) it)).
Proof.
  unfold end_const, end_, map_get. destruct (0 <=? sm_size sm); [done|]. by destruct (sm_map sm).
Qed.

Lemma begin_spec sm l : reps sm l -> begin_ sm = Ok (at_pos sm 0).
Proof.
  intros [f l' Hl Hnd|f m Hm]; unfold begin_; cbn [sm_size].
  - by rewrite vec_size_nonneg.
  - cbn. by rewrite nm_begin_spec.
Qed.

Lemma iterator_eq_spec sm l i j :
  reps sm l -> (i <= length l)%nat -> (j <= length l)%nat ->
  iterator_eq (at_pos sm i) (at_pos sm j) = Ok (bool_decide (i = j)).
Proof.
  intros [f l' Hl Hnd|f m Hm] Hi Hj; unfold iterator_eq, at_pos; cbn.
  - f_equal. apply bool_decide_ext. split; [intros [= ?]; lia|by intros ->].
  - by rewrite nm_same_spec.
Qed.

Lemma const_eq_agrees it it' :
  const_iterator_eq (const_iterator_of it) (const_iterator_of it') = iterator_eq (It := It) it it'.
Proof. done. Qed.

Lemma deref_spec sm l i e : reps sm l -> l !! i = Some e -> iterator_deref sm (at_pos sm i) = Ok e.
Proof.
  intros [f l' Hl Hnd|f m Hm] Hi; unfold iterator_deref, at_pos; cbn.
  - by apply slots_of_get.
  - by apply nm_deref_spec.
Qed.

Lemma smap_next_spec sm l i :
  reps sm l -> (i < length l)%nat -> iterator_next sm (at_pos sm i) = Ok (at_pos sm (S i)).
Proof.
  intros [f l' Hl Hnd|f m Hm] Hi; unfold iterator_next, at_pos; cbn.
  - unfold iterator_array. do 3 f_equal. lia.
  - by rewrite nm_next_spec.
Qed.

Lemma prev_spec sm l i :
  reps sm l -> (i < length l)%nat -> iterator_prev sm (at_pos sm (S i)) = Ok (at_pos sm i).
Proof.
  intros [f l' Hl Hnd|f m Hm] Hi; unfold iterator_prev, at_pos; cbn.
  - unfold iterator_array. do 3 f_equal. lia.
  - by rewrite nm_prev_spec.
Qed.

(** *** Conversion and insertion *)

Lemma ConvertToRealMap_spec sm l :
  reps sm l -> sm_size sm = kArraySize ->
  exists f m, ConvertToRealMap kArraySize sm = Ok (mkSmallMap (-1) f (slots_of kn []) (Some m)) /\
    nm_wf m /\ nm_elems m ≡ₚ l.
Proof.
  intros [f l' Hl Hnd|f m Hm] Hs; cbn in Hs; [|lia]. unfold ConvertToRealMap. cbn [sm_array sm_functor].
  assert (Hn : length l' = kn) by (rewrite <- Hs; by rewrite vec_size_nat).
  rewrite slots_of_full by done.
  assert (E := move_out_spec l' []). change (vec_size (A := K * V) []) with 0 in E.
  cbn in E. rewrite Hn in E. rewrite E. cbn [mbind outcome_bind].
  destruct (nm_init_spec f) as [Hw He].
  destruct (move_in_spec l' 0 (nm_init f) Hw) as (m & Em & Hm & Hp);
    [by rewrite He, app_nil_r|].
  change (Z.of_nat 0) with 0 in Em. cbn in Em. rewrite Hn in Em. rewrite Em. exists f, m. rewrite slots_of_nil.
  split; [done|]. split; [done|]. by rewrite Hp, He, app_nil_r.
Qed.

Lemma insert_old sm l i k v v' :
  reps sm l -> l !! i = Some (k, v) ->
  insert kArraySize key_equal sm (k, v') = Ok (sm, at_pos sm i, false).
Proof.
  intros Hr Hi. destruct Hr as [f l Hl Hnd|f m Hm]; unfold insert; cbn [sm_size sm_array fst].
  - rewrite vec_size_nonneg, vec_size_nat.
    by rewrite (find_array_old key_equal key_equal_spec kn l k v i).
  - cbn. by rewrite (nm_insert_old m i k v).
Qed.

(** A new entry: in the array, in the map, or in the map after conversion. *)
Definition added sm l (k : K) (v : V) sm' i : Prop :=
  exists l', reps sm' l' /\ l' ≡ₚ (k, v) :: l /\ l' !! i = Some (k, v).

Lemma added_array f l k v :
  vec_size l < kArraySize -> NoDup (fst <$> l) -> k ∉ fst <$> l ->
  added (mkSmallMap (vec_size l) f (slots_of kn l) None) l k v
    (mkSmallMap (vec_size l + 1) f (slots_of kn (l ++ [(k, v)])) None) (length l).
Proof.
  intros Hl Hnd Hk. exists (l ++ [(k, v)]). split; [|split].
  - replace (vec_size l + 1) with (vec_size (l ++ [(k, v)]))
      by (unfold vec_size; rewrite length_app; cbn; lia).
    constructor; [unfold vec_size in *; rewrite length_app; cbn; lia|].
    rewrite fmap_app. cbn. apply NoDup_app. split; [done|]. split; [|apply NoDup_singleton].
    intros k' Hk' ->%list_elem_of_singleton. done.
  - by rewrite <- Permutation_cons_append.
  - by apply list_lookup_middle.
Qed.

Lemma insert_new sm l k v :
  reps sm l -> k ∉ fst <$> l ->
  exists sm' i, insert kArraySize key_equal sm (k, v) = Ok (sm', at_pos sm' i, true) /\
    added sm l k v sm' i.
Proof.
  intros Hr Hk. destruct Hr as [f l Hl Hnd|f m Hm].
  - unfold insert; cbn [sm_size sm_array fst]. rewrite vec_size_nonneg, vec_size_nat.
    rewrite find_array_new by done. cbn [mbind outcome_bind].
    destruct (Z.eqb_spec (vec_size l) kArraySize) as [Hs|Hs].
    + destruct (ConvertToRealMap_spec _ l (reps_array f l Hl Hnd) Hs) as (f' & m & -> & Hm & Hp).
      cbn. destruct (nm_insert_new m k v Hm) as (m' & i & -> & Hm' & Hi & Hp'); [by rewrite Hp|].
      exists (mkSmallMap (-1) f' (slots_of kn []) (Some m')), i. split; [done|].
      exists (nm_elems m'). split; [by constructor|]. split; [by rewrite Hp', Hp|done].
    + rewrite slots_of_init by (unfold vec_size in *; (done || lia)). cbn [mbind outcome_bind].
      rewrite size_exact by (unfold vec_size in *; lia). cbn.
      exists (mkSmallMap (vec_size l + 1) f (slots_of kn (l ++ [(k, v)])) None), (length l).
      split; [done|]. apply added_array; [lia|done..].
  - unfold insert; cbn. destruct (nm_insert_new m k v Hm) as (m' & i & -> & Hm' & Hi & Hp'); [done|].
    exists (mkSmallMap (-1) f (slots_of kn []) (Some m')), i. split; [done|].
    exists (nm_elems m'). split; [by constructor|done].
Qed.

Lemma index_old sm l i k v :
  reps sm l -> l !! i = Some (k, v) -> index kArraySize key_equal d sm k = Ok (sm, at_pos sm i).
Proof.
  intros Hr Hi. destruct Hr as [f l Hl Hnd|f m Hm]; unfold index; cbn [sm_size sm_array].
  - rewrite vec_size_nonneg, vec_size_nat.
    rewrite (find_back_old key_equal key_equal_spec kn l k v i); [done..|].
    apply lookup_lt_Some in Hi. lia.
  - cbn. by rewrite (nm_index_old m i k v).
Qed.

Lemma index_new sm l k :
  reps sm l -> k ∉ fst <$> l ->
  exists sm' i, index kArraySize key_equal d sm k = Ok (sm', at_pos sm' i) /\
    added sm l k d sm' i.
Proof.
  intros Hr Hk. destruct Hr as [f l Hl Hnd|f m Hm].
  - unfold index; cbn [sm_size sm_array]. rewrite vec_size_nonneg, vec_size_nat.
    rewrite find_back_new by done. cbn [mbind outcome_bind].
    destruct (Z.eqb_spec (vec_size l) kArraySize) as [Hs|Hs].
    + destruct (ConvertToRealMap_spec _ l (reps_array f l Hl Hnd) Hs) as (f' & m & -> & Hm & Hp).
      cbn. destruct (nm_index_new m k Hm) as (m' & i & -> & Hm' & Hi & Hp'); [by rewrite Hp|].
      exists (mkSmallMap (-1) f' (slots_of kn []) (Some m')), i. split; [done|].
      exists (nm_elems m'). split; [by constructor|]. split; [by rewrite Hp', Hp|done].
    + rewrite slots_of_init by (unfold vec_size in *; (done || lia)). cbn [mbind outcome_bind].
      rewrite size_exact by (unfold vec_size in *; lia). cbn.
      exists (mkSmallMap (vec_size l + 1) f (slots_of kn (l ++ [(k, d)])) None), (length l).
      split; [done|]. apply added_array; [lia|done..].
  - unfold index; cbn. destruct (nm_index_new m k Hm) as (m' & i & -> & Hm' & Hi & Hp'); [done|].
    exists (mkSmallMap (-1) f (slots_of kn []) (Some m')), i. split; [done|].
    exists (nm_elems m'). split; [by constructor|done].
Qed.

(** *** References, removal, copies *)

Lemma ref_read_spec sm l i k v :
  reps sm l -> l !! i = Some (k, v) -> ref_read sm (at_pos sm i) = Ok v.
Proof. intros Hr Hi. unfold ref_read. by rewrite (deref_spec sm l i (k, v)). Qed.

Lemma fst_insert l i k v v' :
  l !! i = Some (k, v) -> fst <$> <[i := (k, v')]> l = fst <$> l.
Proof.
  intros Hi. rewrite list_fmap_insert. apply list_insert_id. by rewrite list_lookup_fmap, Hi.
Qed.

Lemma ref_write_spec sm l i k v v' :
  reps sm l -> l !! i = Some (k, v) ->
  exists sm', ref_write sm (at_pos sm i) v' = Ok sm' /\ reps sm' (<[i := (k, v')]> l).
Proof.
  intros [f l' Hl Hnd|f m Hm] Hi; unfold ref_write, at_pos; cbn [sm_map array_iter iterator_array iterator_hash].
  - cbn [sm_array]. rewrite (slots_of_get kn l' i (k, v)) by done. cbn [mbind outcome_bind fst].
    rewrite (slots_of_set kn l' i _ (k, v)) by done. cbn. eexists. split; [reflexivity|].
    unfold with_array. cbn.
    replace (vec_size l') with (vec_size (<[i := (k, v')]> l')) by (unfold vec_size; by rewrite length_insert).
    constructor; [unfold vec_size; by rewrite length_insert|]. by rewrite (fst_insert l' i k v v' Hi).
  - cbn. eexists. split; [reflexivity|].
    destruct (nm_assign_spec m i k v v' Hm Hi) as [Hm' <-]. by constructor.
Qed.

Lemma Destroy_spec sm l :
  reps sm l ->
  exists sz f, Destroy sm = Ok (mkSmallMap sz f (slots_of kn []) None).
Proof.
  intros [f l' Hl Hnd|f m Hm]; unfold Destroy; cbn [sm_size sm_array].
  - rewrite vec_size_nonneg, vec_size_nat, destroy_slots by (unfold vec_size in Hl; lia).
    cbn. unfold with_array. eauto.
  - cbn. unfold with_map. eauto.
Qed.

Lemma smap_clear_spec sm l : reps sm l -> exists sm', clear sm = Ok sm' /\ reps sm' [].
Proof.
  intros Hr. destruct (Destroy_spec sm l Hr) as (sz & f & E). unfold clear.
  fold (Destroy sm). rewrite E. cbn. eexists. split; [reflexivity|]. unfold with_array. cbn.
  apply (reps_array f []); [unfold vec_size; cbn; lia|constructor].
Qed.

Lemma nodup_delete l i : NoDup (fst <$> l) -> NoDup (fst <$> delete i l).
Proof.
  intros Hnd. apply (sublist_NoDup _ (fst <$> l)); [done|].
  apply fmap_sublist, sublist_delete.
Qed.

(** Destroying entry [i], moving entry [j] there. *)
Lemma swap_last l i e :
  (i < length l)%nat -> (length l < kn)%nat ->
  exists slots, mc_Destroy (slots_of kn (l ++ [e])) (Z.of_nat i) = Ok slots /\
    mc_get slots (vec_size l) = Ok e /\
    (slots' ← mc_Init slots (Z.of_nat i) e; mc_Destroy slots' (vec_size l)) =
    Ok (slots_of kn (<[i := e]> l)).
Proof.
  intros Hi Hl. destruct (lookup_lt_is_Some_2 l i Hi) as [x Hx].
  assert (Hx' : (l ++ [e]) !! i = Some x) by by apply lookup_app_l_Some.
  exists (<[i := None]> (slots_of kn (l ++ [e]))). unfold mc_Destroy at 1.
  rewrite (slots_of_get kn _ i x Hx'). cbn [mbind outcome_bind]. rewrite Nat2Z.id.
  split; [done|]. split.
  - unfold mc_get, vec_size, vec_at. destruct (Z.ltb_spec (Z.of_nat (length l)) 0); [lia|].
    rewrite Nat2Z.id, list_lookup_insert_ne by lia. unfold slots_of.
    rewrite lookup_app_l by (rewrite length_fmap, length_app; cbn; lia).
    rewrite list_lookup_fmap, list_lookup_middle by done. done.
  - assert (E := slots_of_set kn (l ++ [e]) i e x Hx'). unfold mc_Init in *.
    destruct (vec_at_in_range (slots_of kn (l ++ [e])) (Z.of_nat i)) as (y & Hy & _).
    { unfold vec_size, slots_of. rewrite length_app, length_fmap, length_app. cbn. lia. }
    rewrite Nat2Z.id in *.
    rewrite (vec_at_some _ _ (A := option (K * V)) None); [|lia|].
    + cbn [mbind outcome_bind]. rewrite list_insert_insert_eq.
      rewrite (vec_at_some _ _ y) in E by (rewrite ?Nat2Z.id; done || lia).
      cbn in E. injection E as ->. rewrite insert_app_l by done.
      apply slots_of_drop; [unfold vec_size; by rewrite length_insert|by rewrite length_insert].
    + rewrite Nat2Z.id. apply list_lookup_insert_eq. by eapply lookup_lt_Some.
Qed.

Lemma erase_at_spec sm l i :
  reps sm l -> (i < length l)%nat ->
  exists sm' l', erase_at sm (at_pos sm i) = Ok sm' /\ reps sm' l' /\ l' ≡ₚ delete i l.
Proof.
  intros [f l' Hl Hnd|f m Hm] Hi; unfold erase_at, at_pos; cbn [sm_map sm_size sm_array].
  - rewrite vec_size_nonneg. cbn [array_iter iterator_array].
    destruct l' as [|e l0 _] using rev_ind; [cbn in Hi; lia|].
    assert (Hv : vec_size (l0 ++ [e]) - 1 = vec_size l0)
      by (unfold vec_size; rewrite length_app; cbn; lia).
    assert (Hlen : (length l0 < kn)%nat)
      by (unfold vec_size in Hl; rewrite length_app in Hl; cbn in Hl; lia).
    rewrite length_app in Hi. cbn in Hi.
    assert (Hnd' : NoDup (fst <$> delete i (l0 ++ [e]))) by by apply nodup_delete.
    destruct (decide (i = length l0)) as [->|Hne].
    + rewrite slots_of_drop by done. cbn [mbind outcome_bind].
      rewrite Hv, size_exact by (unfold vec_size in *; lia). cbn [mbind outcome_bind].
      unfold vec_size at 1. rewrite Z.eqb_refl. cbn [negb].
      exists (mkSmallMap (vec_size l0) f (slots_of kn l0) None), l0. split; [done|].
      rewrite delete_middle, app_nil_r in *. split; [|done].
      constructor; [unfold vec_size in *; lia|done].
    + destruct (swap_last l0 i e) as (slots & -> & Hg & Hs); [lia..|]. cbn [mbind outcome_bind].
      rewrite Hv, size_exact by (unfold vec_size in *; lia). cbn [mbind outcome_bind].
      destruct (Z.eqb_spec (Z.of_nat i) (vec_size l0)) as [E|_]; [unfold vec_size in E; lia|].
      cbn [negb]. rewrite Hg. cbn [mbind outcome_bind].
      destruct (mc_Init slots (Z.of_nat i) e) as [slots'| |]; try done.
      cbn [mbind outcome_bind] in Hs |- *. rewrite Hs. cbn [mbind outcome_bind].
      assert (Hp : <[i := e]> l0 ≡ₚ delete i (l0 ++ [e])).
      { rewrite insert_take_drop by lia. rewrite delete_take_drop, take_app_le, drop_app_le by lia.
        solve_Permutation. }
      exists (mkSmallMap (vec_size (<[i := e]> l0)) f (slots_of kn (<[i := e]> l0)) None), (<[i := e]> l0).
      split; [unfold vec_size; by rewrite length_insert|]. split; [|done].
      constructor; [unfold vec_size in *; rewrite length_insert; lia|by rewrite Hp].
  - cbn. destruct (nm_erase_spec m i Hm Hi) as [Hm' Hp].
    eexists _, _. split; [reflexivity|]. split; [by constructor|done].
Qed.

Lemma InitFrom_spec sz f sm src l :
  sm = mkSmallMap sz f (slots_of kn []) None -> reps src l ->
  exists sm' l', InitFrom sm src = Ok sm' /\ reps sm' l' /\ l' ≡ₚ l.
Proof.
  intros -> [f' l' Hl Hnd|f' m Hm]; unfold InitFrom; cbn [sm_size sm_array sm_map].
  - rewrite vec_size_nonneg, vec_size_nat.
    assert (E := copy_from_spec kn l' [] l' eq_refl). change (vec_size (A := K * V) []) with 0 in E.
    rewrite E by (unfold vec_size in Hl; lia). cbn [mbind outcome_bind].
    eexists _, l'. split; [reflexivity|]. split; [by constructor|done].
  - cbn. destruct (nm_init_spec f') as [Hw _].
    destruct (nm_copy_spec (nm_init f') m Hw Hm) as [Hm' Hp].
    eexists _, _. split; [reflexivity|]. split; [by constructor|done].
Qed.

(** *** Small maps are finite maps *)

Definition contents (l : list (K * V)) : gmap K V := list_to_map l.

Lemma contents_perm l l' : NoDup (fst <$> l) -> l' ≡ₚ l -> contents l' = contents l.
Proof. intros Hnd Hp. symmetry. apply list_to_map_proper; [done|]. by symmetry. Qed.

Lemma contents_lookup l i k v :
  NoDup (fst <$> l) -> l !! i = Some (k, v) -> contents l !! k = Some v.
Proof. intros Hnd Hi. apply elem_of_list_to_map_1; [done|]. by eapply list_elem_of_lookup_2. Qed.

Lemma contents_absent l k : k ∉ fst <$> l -> contents l !! k = None.
Proof. apply not_elem_of_list_to_map_1. Qed.

(** A key is at some position or absent. *)
Lemma key_cases l k : (exists i v, l !! i = Some (k, v)) \/ k ∉ fst <$> l.
Proof.
  destruct (decide (k ∈ fst <$> l)) as [Hin|]; [left|by right].
  apply list_elem_of_fmap in Hin as ([k' v] & -> & Hin).
  apply list_elem_of_lookup in Hin as [i Hi]. eauto.
Qed.

Lemma delete_split l i (e : K * V) : l !! i = Some e -> l ≡ₚ e :: delete i l.
Proof. intros Hi. by apply delete_Permutation. Qed.

Lemma contents_delete l i k v :
  NoDup (fst <$> l) -> l !! i = Some (k, v) -> contents (delete i l) = delete k (contents l).
Proof.
  intros Hnd Hi. assert (Hp := delete_split l i (k, v) Hi).
  assert (Hnd' : NoDup (fst <$> ((k, v) :: delete i l))) by by rewrite <- Hp.
  rewrite (contents_perm _ l Hnd' Hp). unfold contents at 2. cbn.
  rewrite delete_insert_id; [done|]. apply contents_absent. by apply NoDup_cons_1_1 in Hnd'.
Qed.

Lemma contents_set l i k v v' :
  NoDup (fst <$> l) -> l !! i = Some (k, v) ->
  contents (<[i := (k, v')]> l) = <[k := v']> (contents l).
Proof.
  intros Hnd Hi. assert (Hlt := lookup_lt_Some _ _ _ Hi).
  assert (Hp : <[i := (k, v')]> l ≡ₚ (k, v') :: delete i l).
  { rewrite insert_take_drop by done. rewrite delete_take_drop. solve_Permutation. }
  assert (Hnd' : NoDup (fst <$> ((k, v') :: delete i l))).
  { rewrite <- Hp. by rewrite (fst_insert l i k v). }
  rewrite (contents_perm _ _ Hnd' Hp). unfold contents at 1. cbn.
  change (list_to_map (delete i l)) with (contents (delete i l)).
  by rewrite (contents_delete l i k v), insert_delete_eq.
Qed.

(** Operations of a user and what they observe. *)
Inductive op : Type :=
| OpInsert (k : K) (v : V)      (** [m.insert(make_pair(k, v)).second] *)
| OpSet (k : K) (v : V)         (** [m[k] = v] *)
| OpGet (k : K)                 (** [m[k]], which may add an entry *)
| OpFind (k : K)                (** [it = m.find(k)], [*it] unless [it == m.end()] *)
| OpErase (k : K)               (** [m.erase(k)] *)
| OpCount (k : K)
| OpSize
| OpEmpty
| OpClear
| OpCopy.                       (** continue with a copy *)

Inductive seen : Type :=
| SeenBool (b : bool)
| SeenValue (v : V)
| SeenEntry (e : option (K * V))
| SeenNumber (n : Z)
| SeenNothing.

Definition run_op (sm : smap) (o : op) : outcome (smap * seen) :=
  match o with
  | OpInsert k v =>
      '(sm', _, fresh) ← insert kArraySize key_equal sm (k, v); Ok (sm', SeenBool fresh)
  | OpSet k v =>
      '(sm', r) ← index kArraySize key_equal d sm k;
      sm'' ← ref_write sm' r v; Ok (sm'', SeenNothing)
  | OpGet k =>
      '(sm', r) ← index kArraySize key_equal d sm k;
      v ← ref_read sm' r; Ok (sm', SeenValue v)
  | OpFind k =>
      it ← find key_equal sm k; e ← end_ sm; at_end ← iterator_eq it e;
      if (at_end : bool) then Ok (sm, SeenEntry None)
      else kv ← iterator_deref sm it; Ok (sm, SeenEntry (Some kv))
  | OpErase k => '(sm', n) ← erase key_equal sm k; Ok (sm', SeenNumber n)
  | OpCount k => n ← count key_equal sm k; Ok (sm, SeenNumber n)
  | OpSize => n ← size sm; Ok (sm, SeenNumber n)
  | OpEmpty => b ← empty sm; Ok (sm, SeenBool b)
  | OpClear => sm' ← clear sm; Ok (sm', SeenNothing)
  | OpCopy => sm' ← SmallMap_copy kArraySize MapInit sm; Ok (sm', SeenNothing)
  end.

Fixpoint run_ops (sm : smap) (ops : list op) : outcome (smap * list seen) :=
  match ops with
  | [] => Ok (sm, [])
  | o :: ops => '(sm', r) ← run_op sm o; '(sm'', rs) ← run_ops sm' ops; Ok (sm'', r :: rs)
  end.

(** The same on a finite map. *)
Definition spec_op (g : gmap K V) (o : op) : gmap K V * seen :=
  match o with
  | OpInsert k v =>
      match g !! k with
      | Some _ => (g, SeenBool false)
      | None => (<[k := v]> g, SeenBool true)
      end
  | OpSet k v => (<[k := v]> g, SeenNothing)
  | OpGet k =>
      match g !! k with
      | Some v => (g, SeenValue v)
      | None => (<[k := d]> g, SeenValue d)
      end
  | OpFind k => (g, SeenEntry (pair k <$> g !! k))
  | OpErase k => (delete k g, SeenNumber (if g !! k then 1 else 0))
  | OpCount k => (g, SeenNumber (if g !! k then 1 else 0))
  | OpSize => (g, SeenNumber (Z.of_nat (base.size g)))
  | OpEmpty => (g, SeenBool (bool_decide (base.size g = 0%nat)))
  | OpClear => (∅, SeenNothing)
  | OpCopy => (g, SeenNothing)
  end.

Fixpoint spec_ops (g : gmap K V) (ops : list op) : gmap K V * list seen :=
  match ops with
  | [] => (g, [])
  | o :: ops =>
      let '(g', r) := spec_op g o in
      let '(g'', rs) := spec_ops g' ops in (g'', r :: rs)
  end.

(** [sm] stands for [g]. *)
Definition stands_for sm (g : gmap K V) : Prop := exists l, reps sm l /\ contents l = g.

Lemma added_stands sm l k v sm' i :
  reps sm l -> k ∉ fst <$> l -> added sm l k v sm' i -> stands_for sm' (<[k := v]> (contents l)).
Proof.
  intros Hr Hk (l' & Hr' & Hp & _). exists l'. split; [done|].
  rewrite (contents_perm ((k, v) :: l) l'); [done| |done].
  cbn. constructor; [done|]. by eapply reps_nodup.
Qed.

Lemma stands_perm sm l l' : reps sm l' -> NoDup (fst <$> l) -> l' ≡ₚ l -> stands_for sm (contents l).
Proof. intros Hr Hnd Hp. exists l'. split; [done|]. by apply contents_perm. Qed.

Lemma contents_size l : NoDup (fst <$> l) -> base.size (contents l) = length l.
Proof. intros Hnd. unfold contents. by rewrite map_size_list_to_map. Qed.

Lemma stands_reps sm l : reps sm l -> stands_for sm (contents l).
Proof. intros. by exists l. Qed.

(** What [find] compared with [end] tells. *)
Lemma find_end_old sm l i k v :
  reps sm l -> l !! i = Some (k, v) ->
  find key_equal sm k = Ok (at_pos sm i) /\ end_ sm = Ok (at_pos sm (length l)) /\
  iterator_eq (at_pos sm i) (at_pos sm (length l)) = Ok false.
Proof.
  intros Hr Hi. assert (Hlt := lookup_lt_Some _ _ _ Hi).
  rewrite (find_old sm l i k v), (end_spec sm l), (iterator_eq_spec sm l) by (done || lia).
  by rewrite bool_decide_false by lia.
Qed.

Lemma find_end_new sm l k :
  reps sm l -> k ∉ fst <$> l ->
  find key_equal sm k = Ok (at_pos sm (length l)) /\ end_ sm = Ok (at_pos sm (length l)) /\
  iterator_eq (at_pos sm (length l)) (at_pos sm (length l)) = Ok true.
Proof.
  intros Hr Hk. rewrite (find_new sm l k), (end_spec sm l), (iterator_eq_spec sm l) by done.
  by rewrite bool_decide_true.
Qed.

Lemma count_spec sm k :
  count key_equal sm k =
  (it ← find key_equal sm k; e ← end_ sm; b ← iterator_eq it e; Ok (if (b : bool) then 0 else 1)).
Proof.
  unfold count. rewrite find_const_agrees, end_const_agrees.
  destruct (find key_equal sm k) as [it| |]; [|done..]. cbn [mbind outcome_bind].
  by destruct (end_ sm).
Qed.

Lemma index_spec sm l k :
  reps sm l ->
  exists sm' l' i, index kArraySize key_equal d sm k = Ok (sm', at_pos sm' i) /\ reps sm' l' /\
    l' !! i = Some (k, default d (contents l !! k)) /\
    contents l' = <[k := default d (contents l !! k)]> (contents l).
Proof.
  intros Hr. assert (Hnd := reps_nodup sm l Hr). destruct (key_cases l k) as [(i & v & Hi)|Hk].
  - exists sm, l, i. rewrite (index_old sm l i k v), (contents_lookup l i k v) by done.
    cbn. split; [done|]. split; [done|]. split; [done|].
    rewrite insert_id; [done|]. by apply (contents_lookup l i).
  - destruct (index_new sm l k Hr Hk) as (sm' & i & -> & Ha).
    assert (Hc := added_stands sm l k d sm' i Hr Hk Ha). destruct Ha as (l' & Hr' & Hp & Hi').
    exists sm', l', i. rewrite (contents_absent l k Hk). cbn. split; [done|]. split; [done|].
    split; [done|]. rewrite (contents_perm ((k, d) :: l) l'); [done| |done].
    cbn. by constructor.
Qed.

Lemma lookups_follow sm l k o :
  reps sm l -> (o = OpFind k \/ o = OpErase k \/ o = OpCount k) ->
  exists sm' g r, run_op sm o = Ok (sm', r) /\ spec_op (contents l) o = (g, r) /\ stands_for sm' g.
Proof.
  intros Hr Ho. assert (Hnd := reps_nodup sm l Hr). destruct (key_cases l k) as [(i & v & Hi)|Hk].
  - destruct (find_end_old sm l i k v Hr Hi) as (Ef & Ee & Eq).
    assert (Hl := contents_lookup l i k v Hnd Hi).
    destruct Ho as [->|[->| ->]]; cbn [run_op spec_op]; unfold erase; rewrite ?count_spec, Ef, Hl;
      cbn [mbind outcome_bind]; rewrite Ee; cbn [mbind outcome_bind]; rewrite Eq; cbn [mbind outcome_bind].
    + rewrite (deref_spec sm l i (k, v)) by done. cbn. eexists _, _, _.
      split; [reflexivity|]. split; [reflexivity|]. by apply stands_reps.
    + destruct (erase_at_spec sm l i Hr) as (sm' & l' & -> & Hr' & Hp); [by eapply lookup_lt_Some|].
      cbn. eexists _, _, _. split; [reflexivity|]. split; [reflexivity|].
      rewrite <- (contents_delete l i k v) by done. apply (stands_perm sm' _ l'); [done| |done].
      by apply nodup_delete.
    + eexists _, _, _. split; [reflexivity|]. split; [reflexivity|]. by apply stands_reps.
  - destruct (find_end_new sm l k Hr Hk) as (Ef & Ee & Eq). assert (Hl := contents_absent l k Hk).
    destruct Ho as [->|[->| ->]]; cbn [run_op spec_op]; unfold erase; rewrite ?count_spec, Ef, Hl;
      cbn [mbind outcome_bind]; rewrite Ee; cbn [mbind outcome_bind]; rewrite Eq;
      cbn [mbind outcome_bind]; eexists _, _, _; (split; [reflexivity|]); (split; [reflexivity|]);
      rewrite ?delete_id by done; by apply stands_reps.
Qed.

Lemma smap_op_follows sm g o :
  stands_for sm g ->
  exists sm' g' r, run_op sm o = Ok (sm', r) /\ spec_op g o = (g', r) /\ stands_for sm' g'.
Proof.
  intros (l & Hr & <-). assert (Hnd := reps_nodup sm l Hr).
  destruct o as [k v|k v|k|k|k|k| | | |]; try solve [apply (lookups_follow sm l k); auto].
  - cbn [run_op spec_op]. destruct (key_cases l k) as [(i & w & Hi)|Hk].
    + rewrite (insert_old sm l i k w v), (contents_lookup l i k w) by done.
      eexists _, _, _. split; [reflexivity|]. split; [reflexivity|]. by apply stands_reps.
    + destruct (insert_new sm l k v Hr Hk) as (sm' & i & -> & Ha). rewrite (contents_absent l k Hk).
      eexists _, _, _. split; [reflexivity|]. split; [reflexivity|]. by eapply added_stands.
  - cbn [run_op spec_op]. destruct (index_spec sm l k Hr) as (sm' & l' & i & -> & Hr' & Hi & Hc).
    cbn [mbind outcome_bind].
    destruct (ref_write_spec sm' l' i k _ v Hr' Hi) as (sm'' & -> & Hr''). cbn.
    eexists _, _, _. split; [reflexivity|]. split; [reflexivity|].
    eexists. split; [exact Hr''|]. erewrite contents_set; [|by eapply reps_nodup|exact Hi].
    by rewrite Hc, insert_insert_eq.
  - cbn [run_op spec_op]. destruct (index_spec sm l k Hr) as (sm' & l' & i & -> & Hr' & Hi & Hc).
    cbn [mbind outcome_bind]. erewrite ref_read_spec; [|done|exact Hi]. cbn [mbind outcome_bind].
    destruct (contents l !! k) as [v|] eqn:E; cbn in *; eexists _, _, _;
      (split; [reflexivity|]); (split; [reflexivity|]); exists l'; split; try done.
    by rewrite Hc, insert_id.
  - cbn [run_op spec_op]. rewrite contents_size by done.
    assert (E : size sm = Ok (vec_size l)).
    { destruct Hr as [f l Hl _|f m Hm]; unfold size; cbn [sm_size].
      - rewrite vec_size_nonneg. f_equal. apply Z.mod_small.
        change (2 ^ bits uint64) with (2 ^ 64). change (imax int32) with (2 ^ 31 - 1) in Hsize.
        unfold vec_size in *. lia.
      - cbn. by rewrite nm_size_spec. }
    rewrite E. cbn. eexists _, _, _. split; [reflexivity|]. split; [reflexivity|]. by apply stands_reps.
  - cbn [run_op spec_op]. rewrite contents_size by done.
    assert (E : empty sm = Ok (bool_decide (length l = 0%nat))).
    { destruct Hr as [f l Hl _|f m Hm]; unfold empty; cbn [sm_size].
      - rewrite vec_size_nonneg. f_equal. unfold vec_size. by destruct l.
      - cbn. by rewrite nm_empty_spec. }
    rewrite E. cbn. eexists _, _, _. split; [reflexivity|]. split; [reflexivity|]. by apply stands_reps.
  - cbn [run_op spec_op]. destruct (smap_clear_spec sm l Hr) as (sm' & -> & Hr'). cbn.
    eexists _, _, _. split; [reflexivity|]. split; [reflexivity|]. by exists [].
  - cbn [run_op spec_op]. unfold SmallMap_copy.
    destruct (InitFrom_spec 0 MapInit (SmallMap_ctor kArraySize MapInit) sm l) as (sm' & l' & -> & Hr' & Hp);
      [by rewrite slots_of_nil|done|]. cbn.
    eexists _, _, _. split; [reflexivity|]. split; [reflexivity|]. by apply (stands_perm sm' l l').
Qed.

Lemma smap_ops_follow sm g ops :
  stands_for sm g ->
  exists sm' g' rs, run_ops sm ops = Ok (sm', rs) /\ spec_ops g ops = (g', rs) /\ stands_for sm' g'.
Proof.
  revert sm g. induction ops as [|o ops IH]; intros sm g Hs; cbn [run_ops spec_ops]; [eauto 8|].
  destruct (smap_op_follows sm g o Hs) as (sm1 & g1 & r & -> & -> & Hs1). cbn [mbind outcome_bind].
  destruct (IH sm1 g1 Hs1) as (sm2 & g2 & rs & -> & -> & Hs2). cbn. eauto 8.
Qed.

(** [for (it = m.begin(); it != m.end(); ++it)], the entries seen. *)
Fixpoint walk (fuel : nat) (sm : smap) (it : iterator It) : outcome (list (K * V)) :=
  match fuel with
  | O => Diverge
  | S fuel =>
      e ← end_ sm; more ← iterator_neq it e;
      if (more : bool) then
        x ← iterator_deref sm it; it' ← iterator_next sm it; xs ← walk fuel sm it'; Ok (x :: xs)
      else Ok []
  end.

Lemma walk_step fuel sm it :
  walk (S fuel) sm it =
  (e ← end_ sm; more ← iterator_neq it e;
   if (more : bool) then
     x ← iterator_deref sm it; it' ← iterator_next sm it; xs ← walk fuel sm it'; Ok (x :: xs)
   else Ok []).
Proof. done. Qed.

Lemma walk_spec sm l i fuel :
  reps sm l -> (i <= length l < fuel + i)%nat -> walk fuel sm (at_pos sm i) = Ok (drop i l).
Proof.
  intros Hr. revert i. induction fuel as [|fuel IH]; intros i Hi; [lia|].
  rewrite walk_step. unfold iterator_neq.
  rewrite (end_spec sm l) by done. cbn [mbind outcome_bind].
  rewrite (iterator_eq_spec sm l) by (done || lia). cbn [mbind outcome_bind].
  destruct (decide (i = length l)) as [->|Hne].
  - rewrite bool_decide_true by done. cbn. by rewrite drop_ge.
  - rewrite bool_decide_false by done. cbn [negb].
    destruct (lookup_lt_is_Some_2 l i) as [x Hx]; [lia|].
    rewrite (deref_spec sm l i x), (smap_next_spec sm l i) by (done || lia). cbn [mbind outcome_bind].
    rewrite IH by lia. cbn. by rewrite (drop_S l x i).
Qed.
End Refinement.

(** ** A map that satisfies the laws: an association list *)

Section ListMap.
Context {K V : Type} `{!EqDecision K} (d : V).
Implicit Types l : list (K * V).

Fixpoint position (k : K) (l : list (K * V)) : nat :=
  match l with
  | [] => 0
  | (k', _) :: l => if decide (k' = k) then 0 else S (position k l)
  end.

Lemma position_old l i k v : NoDup (fst <$> l) -> l !! i = Some (k, v) -> position k l = i.
Proof.
  revert i. induction l as [|[k' v'] l IH]; intros i Hnd Hi; [done|].
  cbn in *. apply NoDup_cons in Hnd as [Hk Hnd]. destruct i as [|i]; cbn in Hi.
  - simplify_eq. by rewrite decide_True.
  - rewrite decide_False; [by rewrite (IH i)|]. intros ->. apply Hk.
    apply (list_elem_of_fmap_2' fst l (k, v)); [|done]. by eapply list_elem_of_lookup_2.
Qed.

Lemma position_new l k : k ∉ fst <$> l -> position k l = length l.
Proof.
  induction l as [|[k' v'] l IH]; [done|]. cbn. rewrite not_elem_of_cons. intros [Hne Hk].
  rewrite decide_False by congruence. by rewrite IH.
Qed.

Definition list_insert_new (l : list (K * V)) (k : K) (v : V) : list (K * V) * nat * bool :=
  if decide (position k l = length l) then (l ++ [(k, v)], length l, true)
  else (l, position k l, false).

#[local] Instance list_map_ops : NormalMapOps K V (list (K * V)) nat unit := {|
  nm_init _ := [];
  nm_copy _ m := m;
  nm_find m k := position k m;
  nm_begin _ := 0%nat;
  nm_end m := length m;
  nm_next _ i := S i;
  nm_prev _ i := pred i;
  nm_deref m i := match m !! i with Some e => Ok e | None => Fault OutOfRange end;
  nm_same i j := bool_decide (i = j);
  nm_insert m e := list_insert_new m (fst e) (snd e);
  nm_index m k := fst (list_insert_new m k d);
  nm_assign m i v := match m !! i with Some (k, _) => <[i := (k, v)]> m | None => m end;
  nm_erase m i := delete i m;
  nm_size m := vec_size m;
  nm_empty m := bool_decide (length m = 0%nat)
|}.

Lemma list_insert_new_old l i k v v' :
  NoDup (fst <$> l) -> l !! i = Some (k, v) -> list_insert_new l k v' = (l, i, false).
Proof.
  intros Hnd Hi. unfold list_insert_new. rewrite (position_old l i k v) by done.
  rewrite decide_False; [done|]. apply lookup_lt_Some in Hi. lia.
Qed.

Lemma list_insert_new_new l k v :
  k ∉ fst <$> l -> list_insert_new l k v = (l ++ [(k, v)], length l, true).
Proof.
  intros Hk. unfold list_insert_new. by rewrite position_new, decide_True.
Qed.

Lemma list_nodup_snoc l k v :
  NoDup (fst <$> l) -> k ∉ fst <$> l -> NoDup (fst <$> (l ++ [(k, v)])).
Proof.
  intros Hnd Hk. rewrite fmap_app. apply NoDup_app. split; [done|]. split; [|apply NoDup_singleton].
  intros k' Hk' ->%list_elem_of_singleton. done.
Qed.

#[local] Program Instance list_map_laws : NormalMapLaws K V (list (K * V)) nat unit d := {|
  nm_wf m := NoDup (fst <$> m);
  nm_elems m := m;
  nm_iter _ i := i
|}.
Next Obligation. done. Qed.
Next Obligation. split; [constructor|done]. Qed.
Next Obligation. done. Qed.
Next Obligation. done. Qed.
Next Obligation. done. Qed.
Next Obligation. done. Qed.
Next Obligation. done. Qed.
Next Obligation. intros m i e _ Hi. cbn. by rewrite Hi. Qed.
Next Obligation. done. Qed.
Next Obligation. intros. by eapply position_old. Qed.
Next Obligation. intros. by apply position_new. Qed.
Next Obligation. intros. by eapply list_insert_new_old. Qed.
Next Obligation.
  intros m k v Hnd Hk. exists (m ++ [(k, v)]), (length m). split; [by apply list_insert_new_new|].
  split; [by apply list_nodup_snoc|]. split; [by apply list_lookup_middle|].
  by rewrite <- Permutation_cons_append.
Qed.
Next Obligation.
  intros m i k v Hnd Hi. cbn. by erewrite list_insert_new_old.
Qed.
Next Obligation.
  intros m k Hnd Hk. exists (m ++ [(k, d)]), (length m). cbn.
  rewrite list_insert_new_new by done. split; [done|].
  split; [by apply list_nodup_snoc|]. split; [by apply list_lookup_middle|].
  by rewrite <- Permutation_cons_append.
Qed.
Next Obligation.
  intros m i k v v' Hnd Hi. cbn. rewrite Hi. split; [|done].
  by rewrite (fst_insert m i k v v' Hi).
Qed.
Next Obligation.
  intros m i Hnd Hi. split; [|done]. apply (sublist_NoDup _ (fst <$> m)); [done|].
  apply fmap_sublist, sublist_delete.
Qed.
Next Obligation. done. Qed.
Next Obligation. done. Qed.
End ListMap.

(** ** Properties *)

Section Properties.
Context {K V M It F : Type} `{!NormalMapOps K V M It F} {d : V} `{!NormalMapLaws K V M It F d}.
Context `{Countable K} (key_equal : K -> K -> bool) (kArraySize : Z) (MapInit : F).

(** C11. A small map behaves as a finite map: any sequence of operations on an
    empty one returns, reports what the same operations report on a finite
    map, and leaves a map whose iteration visits each entry of that map once,
    whether the entries are still in the array or have moved to the real map. *)
Theorem smallmap_refines (ops : list op) :
  (forall a b, key_equal a b = bool_decide (a = b)) -> 0 < kArraySize <= imax int32 ->
  exists sm l it,
    run_ops (It := It) (d := d) key_equal kArraySize MapInit (SmallMap_ctor kArraySize MapInit) ops =
      Ok (sm, snd (spec_ops (d := d) ∅ ops)) /\
    begin_ sm = Ok it /\ walk (S (length l)) sm it = Ok l /\
    NoDup (fst <$> l) /\ list_to_map l = fst (spec_ops (d := d) ∅ ops).
Proof.
  intros Hkey Hsize.
  destruct (smap_ops_follow (d := d) key_equal Hkey kArraySize Hsize MapInit
              (SmallMap_ctor kArraySize MapInit) ∅ ops) as (sm & g & rs & E & Es & l & Hr & Hc).
  { exists []. split; [by apply (reps_ctor (d := d))|done]. }
  exists sm, l, (at_pos (d := d) sm 0). rewrite Es. cbn [fst snd].
  split; [done|]. split; [by eapply begin_spec|].
  split; [|split; [by eapply reps_nodup|done]].
  rewrite (walk_spec (d := d) kArraySize sm l 0) by (done || lia). done.
Qed.

(** Assignment between small maps in any state copies the contents: after
    [a = b] the entries of [a] are those of [b]; assigning [a] to itself
    changes nothing. *)
Theorem smallmap_assigns (ops_a ops_b : list op) (a b : SmallMap K V M F) (ra rb : list seen) :
  (forall x y, key_equal x y = bool_decide (x = y)) -> 0 < kArraySize <= imax int32 ->
  run_ops (It := It) (d := d) key_equal kArraySize MapInit (SmallMap_ctor kArraySize MapInit) ops_a = Ok (a, ra) ->
  run_ops (It := It) (d := d) key_equal kArraySize MapInit (SmallMap_ctor kArraySize MapInit) ops_b = Ok (b, rb) ->
  exists a' l it,
    assign_from false a b = Ok a' /\ assign_from true a a = Ok a /\
    begin_ a' = Ok it /\ walk (S (length l)) a' it = Ok l /\
    NoDup (fst <$> l) /\ list_to_map l = fst (spec_ops (d := d) ∅ ops_b).
Proof.
  intros Hkey Hsize Ha Hb.
  assert (H0 : stands_for (d := d) kArraySize (SmallMap_ctor kArraySize MapInit) ∅).
  { exists []. split; [by apply (reps_ctor (d := d))|done]. }
  destruct (smap_ops_follow (d := d) key_equal Hkey kArraySize Hsize MapInit _ _ ops_a H0)
    as (a2 & ga & ra2 & Ea & _ & la & Hra & _).
  destruct (smap_ops_follow (d := d) key_equal Hkey kArraySize Hsize MapInit _ _ ops_b H0)
    as (b2 & gb & rb2 & Eb & Es & lb & Hrb & Hcb). simplify_eq.
  rewrite Ha in Ea. rewrite Hb in Eb. simplify_eq.
  destruct (Destroy_spec (d := d) kArraySize Hsize a2 la Hra) as (sz & f & Ed).
  destruct (InitFrom_spec (d := d) kArraySize Hsize sz f _ b2 lb eq_refl Hrb) as (a' & l & Ei & Hr & Hp).
  exists a', l, (at_pos (d := d) a' 0). unfold assign_from. rewrite Ed. cbn [mbind outcome_bind].
  split; [done|]. split; [done|]. split; [by eapply begin_spec|].
  split; [|split; [by eapply reps_nodup|]].
  - rewrite (walk_spec (d := d) kArraySize a' l 0) by (done || lia). done.
  - rewrite Es. cbn. apply contents_perm; [by eapply reps_nodup|done].
Qed.
End Properties.

#[local] Instance zmap_ops : NormalMapOps Z Z (list (Z * Z)) nat unit := list_map_ops 0.
#[local] Instance zmap_laws : NormalMapLaws Z Z (list (Z * Z)) nat unit 0 := list_map_laws 0.

(** A map with room for two entries that moves to the real map and shrinks. *)
Definition ex_ops : list (op (K := Z) (V := Z)) :=
  [OpInsert 1 10; OpSet 2 20; OpInsert 1 11; OpErase 1; OpGet 3; OpSize; OpSet 4 40; OpFind 2; OpCount 1].

Lemma smallmap_refines_witness :
  exists (sm : SmallMap Z Z (list (Z * Z)) unit) l (it : iterator nat),
    run_ops (It := nat) (d := 0) Z.eqb 2 tt (SmallMap_ctor 2 tt) ex_ops =
      Ok (sm, [SeenBool true; SeenNothing; SeenBool false; SeenNumber 1; SeenValue 0; SeenNumber 2;
               SeenNothing; SeenEntry (Some (2, 20)); SeenNumber 0]) /\
    begin_ sm = Ok it /\ walk (S (length l)) sm it = Ok l /\
    NoDup (fst <$> l) /\ list_to_map l = fst (spec_ops (d := 0) ∅ ex_ops).
Proof.
  change [SeenBool true; _; _; _; _; _; _; _; _] with (snd (spec_ops (d := 0) (∅ : gmap Z Z) ex_ops)).
  apply (smallmap_refines (M := list (Z * Z)) (It := nat) (d := 0) Z.eqb 2 tt ex_ops).
  - intros a b. by destruct (Z.eqb_spec a b); [rewrite bool_decide_true|rewrite bool_decide_false].
  - change (imax int32) with (2 ^ 31 - 1). lia.
Defined.

Lemma smallmap_assigns_witness :
  exists (a' : SmallMap Z Z (list (Z * Z)) unit) l (it : iterator nat),
    assign_from false
      (mkSmallMap 1 tt [Some (1, 10); None] None)
      (mkSmallMap (-1) tt [None; None] (Some [(1, 10); (2, 20); (3, 30)])) = Ok a' /\
    assign_from true (mkSmallMap 1 tt [Some (1, 10); None] None)
      (mkSmallMap 1 tt [Some (1, 10); None] None) = Ok (mkSmallMap 1 tt [Some (1, 10); None] None) /\
    begin_ a' = Ok it /\ walk (S (length l)) a' it = Ok l /\
    NoDup (fst <$> l) /\
    list_to_map l = fst (spec_ops (d := 0) ∅ [OpSet 1 10; OpSet 2 20; OpSet 3 30]).
Proof.
  apply (smallmap_assigns (M := list (Z * Z)) (It := nat) (d := 0) Z.eqb 2 tt [OpInsert 1 10]
           [OpSet 1 10; OpSet 2 20; OpSet 3 30] _ _ [SeenBool true] [SeenNothing; SeenNothing; SeenNothing]).
  - intros a b. by destruct (Z.eqb_spec a b); [rewrite bool_decide_true|rewrite bool_decide_false].
  - change (imax int32) with (2 ^ 31 - 1). lia.
  - vm_compute. reflexivity.
  - vm_compute. reflexivity.
Defined.
