(* ===== verification/VersionedRef.v ===== *)
(** * Versioned references (libsh/brpc/versioned_ref_with_id.h)

    brpc refers to sockets by 64-bit identifiers, a version and a slot of a
    pool, and counts references in a word that packs the version and a 32-bit
    count.  This file models one slot that any number of threads use at the
    same time.  Every access to [_versioned_ref], [_this_id] or
    [_additional_ref_status] is one step; the steps of all threads interleave
    in one total order.  A thread has a program counter and the number of
    smart pointers it holds.

    The pool (butil/resource_pool.h) gives out a slot that is not in use and
    takes it back; [vo_life] records who has the slot.  The callbacks
    [OnFailed], [BeforeRecycled] and [BeforeAdditionalRefReleased] do not touch
    the counters; [OnCreated] succeeds or fails as the environment chooses.
    [Revive], which the health check of sockets calls, is modelled run alone
    and is not among the interleaved calls. *)

From Stdlib Require Import ZArith Lia.
From stdpp Require Import base list numbers.
From S2P Require Import Prelude Numerics BoundedQueue.

Open Scope Z_scope.

(** ** Packing *)

Definition uint32 (z : Z) : Z := cast Numerics.uint32 z.

Definition MakeVRefId (version slot : Z) : Z :=
  Z.lor (u64 (Z.shiftl version 32)) slot.
Definition SlotOfVRefId (vref_id : Z) : Z := Z.land vref_id 4294967295.
Definition VersionOfVRefId (vref_id : Z) : Z := uint32 (Z.shiftr vref_id 32).
Definition VersionOfVRef (vref : Z) : Z := uint32 (Z.shiftr vref 32).
Definition NRefOfVRef (vref : Z) : Z := cast int32 (Z.land vref 4294967295).
Definition MakeVRef (version nref : Z) : Z :=
  Z.lor (u64 (Z.shiftl version 32)) (uint32 nref).

(** ** The object *)

Inductive AdditionalRefStatus : Type :=
| ADDITIONAL_REF_USING
| ADDITIONAL_REF_REVIVING
| ADDITIONAL_REF_RECYCLED.

#[export] Instance AdditionalRefStatus_eq_dec : EqDecision AdditionalRefStatus.
Proof. solve_decision. Defined.

(** Who has the slot: the pool, thread [i] that creates the object, thread [i]
    that has created it and is in [OnCreated], its users, or thread [i] that
    returns it to the pool. *)
Inductive life : Type :=
| LFree
| LCreating (i : nat)
| LFresh (i : nat)
| LLive
| LRecycling (i : nat).

#[export] Instance life_eq_dec : EqDecision life.
Proof. solve_decision. Defined.

Record vobj : Type := mkObj {
  vo_versioned_ref : Z;
  vo_this_id : Z;
  vo_status : AdditionalRefStatus;
  vo_life : life;
  vo_issued : list Z        (** identifiers that [Create] has returned *)
}.

Definition VersionedRefWithId_ctor : vobj := mkObj 0 0 ADDITIONAL_REF_USING LFree [].

Definition set_ref (o : vobj) (v : Z) : vobj :=
  mkObj v (vo_this_id o) (vo_status o) (vo_life o) (vo_issued o).
Definition set_id (o : vobj) (id : Z) : vobj :=
  mkObj (vo_versioned_ref o) id (vo_status o) (vo_life o) (vo_issued o).
Definition set_status (o : vobj) (s : AdditionalRefStatus) : vobj :=
  mkObj (vo_versioned_ref o) (vo_this_id o) s (vo_life o) (vo_issued o).
Definition set_life (o : vobj) (l : life) : vobj :=
  mkObj (vo_versioned_ref o) (vo_this_id o) (vo_status o) l (vo_issued o).
Definition issue (o : vobj) (id : Z) : vobj :=
  mkObj (vo_versioned_ref o) (vo_this_id o) (vo_status o) (vo_life o) (id :: vo_issued o).

Definition nref (o : vobj) : Z := NRefOfVRef (vo_versioned_ref o).
Definition Failed (o : vobj) : bool :=
  negb (VersionOfVRef (vo_versioned_ref o) =? VersionOfVRefId (vo_this_id o)).

(** [fetch_add(1)] and [fetch_sub(1)]; [AddReference] is the former. *)
Definition AddReference (o : vobj) : vobj := set_ref o (u64 (vo_versioned_ref o + 1)).
Definition sub_reference (o : vobj) : vobj := set_ref o (u64 (vo_versioned_ref o - 1)).

(** [compare_exchange_strong] on the word: the new object if it succeeds. *)
Definition cas_ref (o : vobj) (expected desired : Z) : option vobj :=
  if vo_versioned_ref o =? expected then Some (set_ref o desired) else None.

(** ** The functions, access by access *)

(** On whose behalf [Dereference] runs: a smart pointer that is destroyed,
    [ReleaseAdditionalReference], [SetFailed], or the [SetFailed] of a [Create]
    whose [OnCreated] failed. *)
Inductive caller : Type := ByUser | ByRelease | BySetFailed | ByCreate.

#[export] Instance caller_eq_dec : EqDecision caller.
Proof. solve_decision. Defined.

(** What the outermost function returns when the inner one returns [r]. *)
Definition ret_of (k : caller) (r : Z) : Z :=
  match k with
  | ByUser | ByRelease => r
  | BySetFailed => 0
  | ByCreate => -1
  end.

Inductive vpc : Type :=
| Idle
| Ret (r : Z)
| Fatal                             (** [LOG(FATAL)] or a failed [CHECK] *)
| CreateAdd                         (** [Create]: [fetch_add] *)
| CreateId (ver : Z)                (** store [_this_id] *)
| CreateStatus                      (** store [_additional_ref_status] *)
| CreateInit                        (** [OnCreated] *)
| AddrAdd (id : Z) (failed_as_well : bool)   (** [AddressImpl]: [fetch_add] *)
| AddrSub (ver1 : Z)                (** [fetch_sub] *)
| AddrCas (ver2 vref2 : Z)          (** [compare_exchange_strong] *)
| AddrRecycle                       (** [BeforeRecycled], [return_resource] *)
| FailId (k : caller)               (** [SetFailedImpl]: load [_this_id] *)
| FailLoad (id_ver : Z) (k : caller)  (** load the word *)
| FailCas (id_ver vref : Z) (k : caller) (** one round of the loop *)
| RelCas (k : caller)               (** [ReleaseAdditionalReference]: one round *)
| DerefId (k : caller)              (** [Dereference]: load [_this_id] *)
| DerefSub (id : Z) (k : caller)    (** [fetch_sub] *)
| DerefCas (id vref : Z) (k : caller) (** [compare_exchange_strong] *)
| DerefRecycle (k : caller).        (** [BeforeRecycled], [return_resource] *)

Record thread : Type := mkThread { held : nat; pc : vpc }.

Section Slot.
Context (slot : Z).

(** [created] is the outcome of [OnCreated]. *)
Definition create_next (created : bool) (i : nat) (o : vobj) (t : thread) : vobj * thread :=
  match pc t with
  | CreateAdd =>
      let ver := VersionOfVRef (vo_versioned_ref o) in
      (AddReference o, mkThread (held t) (CreateId ver))
  | CreateId ver => (set_id o (MakeVRefId ver slot), mkThread (held t) CreateStatus)
  | CreateStatus =>
      (set_life (set_status o ADDITIONAL_REF_USING) (LFresh i), mkThread (held t) CreateInit)
  | CreateInit =>
      if created
      then (set_life (issue o (vo_this_id o)) LLive, mkThread (held t) (Ret 0))
      else (o, mkThread (held t) (FailId ByCreate))
  | _ => (o, t)
  end.

Definition address_next (i : nat) (o : vobj) (t : thread) : vobj * thread :=
  match pc t with
  | AddrAdd id failed_as_well =>
      let ver1 := VersionOfVRef (vo_versioned_ref o) in
      let o' := AddReference o in
      if ver1 =? VersionOfVRefId id then (o', mkThread (S (held t)) (Ret 0))
      else if failed_as_well && (ver1 =? uint32 (VersionOfVRefId id + 1))
           then (o', mkThread (S (held t)) (Ret 1))
           else (o', mkThread (held t) (AddrSub ver1))
  | AddrSub ver1 =>
      let vref2 := vo_versioned_ref o in
      let o' := sub_reference o in
      let nref := NRefOfVRef vref2 in
      if 1 <? nref then (o', mkThread (held t) (Ret (-1)))
      else if nref =? 1 then
        let ver2 := VersionOfVRef vref2 in
        if negb (Z.land ver2 1 =? 0) then
          if (ver1 =? ver2) || (uint32 (ver1 + 1) =? ver2)
          then (o', mkThread (held t) (AddrCas ver2 vref2))
          else (o', mkThread (held t) Fatal)
        else (o', mkThread (held t) (Ret (-1)))
      else (o', mkThread (held t) Fatal)
  | AddrCas ver2 vref2 =>
      match cas_ref o (u64 (vref2 - 1)) (MakeVRef (uint32 (ver2 + 1)) 0) with
      | Some o' => (set_life o' (LRecycling i), mkThread (held t) AddrRecycle)
      | None => (o, mkThread (held t) (Ret (-1)))
      end
  | AddrRecycle => (set_life o LFree, mkThread (held t) (Ret (-1)))
  | _ => (o, t)
  end.

Definition fail_next (o : vobj) (t : thread) : vobj * thread :=
  match pc t with
  | FailId k => (o, mkThread (held t) (FailLoad (VersionOfVRefId (vo_this_id o)) k))
  | FailLoad id_ver k => (o, mkThread (held t) (FailCas id_ver (vo_versioned_ref o) k))
  | FailCas id_ver vref k =>
      if negb (VersionOfVRef vref =? id_ver)
      then (o, mkThread (held t) (Ret (-1)))
      else match cas_ref o vref (MakeVRef (uint32 (id_ver + 1)) (NRefOfVRef vref)) with
           | Some o' => (o', mkThread (held t) (RelCas k))
           | None => (o, mkThread (held t) (FailCas id_ver (vo_versioned_ref o) k))
           end
  | _ => (o, t)
  end.

(** The additional reference now belongs to the thread that won the exchange. *)
Definition release_next (o : vobj) (t : thread) : vobj * thread :=
  match pc t with
  | RelCas k =>
      match vo_status o with
      | ADDITIONAL_REF_USING =>
          let o' := set_status o ADDITIONAL_REF_RECYCLED in
          (if decide (k = ByCreate) then set_life o' LLive else o', mkThread (held t) (DerefId k))
      | ADDITIONAL_REF_REVIVING => (o, t)
      | ADDITIONAL_REF_RECYCLED => (o, mkThread (held t) (Ret (ret_of k (-1))))
      end
  | _ => (o, t)
  end.

Definition deref_next (i : nat) (o : vobj) (t : thread) : vobj * thread :=
  match pc t with
  | DerefId k => (o, mkThread (held t) (DerefSub (vo_this_id o) k))
  | DerefSub id k =>
      let vref := vo_versioned_ref o in
      let o' := sub_reference o in
      let h := if decide (k = ByUser) then pred (held t) else held t in
      let nref := NRefOfVRef vref in
      if 1 <? nref then (o', mkThread h (Ret (ret_of k 0)))
      else if nref =? 1 then
        let ver := VersionOfVRef vref in
        let id_ver := VersionOfVRefId id in
        if (ver =? id_ver) || (ver =? uint32 (id_ver + 1))
        then (o', mkThread h (DerefCas id vref k))
        else (o', mkThread h Fatal)
      else (o', mkThread h Fatal)
  | DerefCas id vref k =>
      match cas_ref o (u64 (vref - 1)) (MakeVRef (uint32 (VersionOfVRefId id + 2)) 0) with
      | Some o' => (set_life o' (LRecycling i), mkThread (held t) (DerefRecycle k))
      | None => (o, mkThread (held t) (Ret (ret_of k 0)))
      end
  | DerefRecycle k => (set_life o LFree, mkThread (held t) (Ret (ret_of k 1)))
  | _ => (o, t)
  end.

Definition next (created : bool) (i : nat) (o : vobj) (t : thread) : vobj * thread :=
  match pc t with
  | Idle | Ret _ | Fatal => (o, t)
  | CreateAdd | CreateId _ | CreateStatus | CreateInit => create_next created i o t
  | AddrAdd _ _ | AddrSub _ | AddrCas _ _ | AddrRecycle => address_next i o t
  | FailId _ | FailLoad _ _ | FailCas _ _ _ => fail_next o t
  | RelCas _ => release_next o t
  | DerefId _ | DerefSub _ _ | DerefCas _ _ _ | DerefRecycle _ => deref_next i o t
  end.

(** Calls that a thread between two calls may make. *)
Inductive vcall : Type :=
| CCreate | CAddress (id : Z) (failed_as_well : bool) | CReAddress
| CSetFailed | CRelease | CDereference.

(** [None]: the caller may not make this call now.  [Create] needs a slot the
    pool has, the others an identifier or a smart pointer. *)
Definition call (c : vcall) (i : nat) (o : vobj) (t : thread) : option (vobj * thread) :=
  match c with
  | CCreate =>
      if decide (vo_life o = LFree)
      then Some (set_life o (LCreating i), mkThread (held t) CreateAdd) else None
  | CAddress id f =>
      if decide (id ∈ vo_issued o) then Some (o, mkThread (held t) (AddrAdd id f)) else None
  | _ =>
      match held t with
      | O => None
      | S _ =>
          match c with
          | CReAddress => Some (AddReference o, mkThread (S (held t)) (Ret 0))
          | CSetFailed => Some (o, mkThread (held t) (FailId BySetFailed))
          | CRelease => Some (o, mkThread (held t) (RelCas ByRelease))
          | _ => Some (o, mkThread (held t) (DerefId ByUser))
          end
      end
  end.

Definition between_calls (t : thread) : bool :=
  match pc t with Idle | Ret _ => true | _ => false end.

Inductive vstep : vobj * list thread -> vobj * list thread -> Prop :=
| vstep_next created i o ths t o' t' :
    ths !! i = Some t -> next created i o t = (o', t') ->
    vstep (o, ths) (o', <[i := t']> ths)
| vstep_call c i o ths t o' t' :
    ths !! i = Some t -> between_calls t = true -> call c i o t = Some (o', t') ->
    vstep (o, ths) (o', <[i := t']> ths).

Inductive vexec : nat -> vobj * list thread -> vobj * list thread -> Prop :=
| vexec_nil s : vexec 0 s s
| vexec_cons n s s' s'' : vstep s s' -> vexec n s' s'' -> vexec (S n) s s''.

Definition vstart (k : nat) : vobj * list thread :=
  (VersionedRefWithId_ctor, replicate k (mkThread 0 Idle)).

(** A function run to its end with no other thread in between. *)
Fixpoint finish (fuel : nat) (i : nat) (o : vobj) (t : thread) : outcome (vobj * thread * Z) :=
  match pc t with
  | Ret r => Ok (o, t, r)
  | Fatal => Fault InvalidArgument
  | _ =>
      match fuel with
      | O => Diverge
      | S fuel => let '(o', t') := next true i o t in finish fuel i o' t'
      end
  end.

(** The smart pointer [ptr] is dropped on return. *)
Definition SetFailedById (i : nat) (o : vobj) (t : thread) (id : Z) : outcome (vobj * thread * Z) :=
  '(o1, t1, r) ← finish 4 i o (mkThread (held t) (AddrAdd id false));
  if negb (r =? 0) then Ok (o1, t1, -1)
  else
    '(o2, t2, r2) ← finish 7 i o1 (mkThread (held t1) (FailId BySetFailed));
    '(o3, t3, _) ← finish 4 i o2 (mkThread (held t2) (DerefId ByUser));
    Ok (o3, t3, r2).

(** [Revive] with no other thread in between: the load, the check of the
    version, the exchange. *)
Definition Revive (o : vobj) (at_least_nref : Z) : outcome vobj :=
  let id_ver := VersionOfVRefId (vo_this_id o) in
  let vref := vo_versioned_ref o in
  let o1 := set_status o ADDITIONAL_REF_REVIVING in
  if negb (uint32 (id_ver + 1) =? VersionOfVRef vref) then Fault InvalidArgument
  else
    let nref := NRefOfVRef vref in
    if nref <? at_least_nref then
      if nref =? 1 then Ok (set_status o1 ADDITIONAL_REF_RECYCLED) else Fault InvalidArgument
    else
      nref' ← exact int32 (nref + 1);
      match cas_ref o1 vref (MakeVRef id_ver nref') with
      | Some o2 => Ok (set_status o2 ADDITIONAL_REF_USING)
      | None => Diverge
      end.
End Slot.

(** ** Words *)

Definition word (version nref : Z) : Z := version * 2 ^ 32 + nref.

Lemma land_high_low v n : 0 <= n < 2 ^ 32 -> Z.land (v * 2 ^ 32) n = 0.
Proof.
  intros Hn. apply Z.bits_inj'. intros i Hi. rewrite Z.land_spec, Z.bits_0.
  destruct (Z.lt_ge_cases i 32) as [Hlt|Hge].
  - by rewrite Z.mul_pow2_bits_low.
  - replace (Z.testbit n i) with false; [apply andb_false_r|].
    symmetry. destruct (Z.eq_dec n 0) as [->|]; [apply Z.bits_0|].
    apply Z.bits_above_log2; [lia|]. apply Z.log2_lt_pow2; [lia|].
    apply (Z.lt_le_trans _ (2 ^ 32)); [lia|]. apply Z.pow_le_mono_r; lia.
Qed.

Lemma lor_add_high v n : 0 <= n < 2 ^ 32 -> Z.lor (v * 2 ^ 32) n = v * 2 ^ 32 + n.
Proof. intros Hn. rewrite <- Z.add_lor_land, land_high_low by done. lia. Qed.

Lemma pack_word v n : 0 <= v < 2 ^ 32 -> 0 <= n < 2 ^ 32 ->
  Z.lor (u64 (Z.shiftl v 32)) n = word v n.
Proof.
  intros Hv Hn. rewrite Z.shiftl_mul_pow2 by lia. rewrite u64_id by lia. by apply lor_add_high.
Qed.

Lemma uint32_id z : 0 <= z < 2 ^ 32 -> uint32 z = z.
Proof. intros H. unfold uint32. apply Z.mod_small. exact H. Qed.

Lemma version_word v n : 0 <= v < 2 ^ 32 -> 0 <= n < 2 ^ 32 -> VersionOfVRef (word v n) = v.
Proof.
  intros Hv Hn. unfold VersionOfVRef, word. rewrite Z.shiftr_div_pow2 by lia.
  rewrite Z.div_add_l, Z.div_small by lia. rewrite Z.add_0_r. by apply uint32_id.
Qed.

Lemma low_word v n : 0 <= n < 2 ^ 32 -> Z.land (word v n) 4294967295 = n.
Proof.
  intros Hn. change 4294967295 with (Z.ones 32). rewrite Z.land_ones by lia.
  unfold word. rewrite Z.add_comm, Z.mod_add by lia. by apply Z.mod_small.
Qed.

Lemma int32_of_uint32 z : - 2 ^ 31 <= z < 2 ^ 31 -> cast int32 (uint32 z) = z.
Proof.
  intros Hz. unfold uint32, cast. cbn [is_signed int32 Numerics.uint32].
  change (2 ^ (bits int32 - 1)) with (2 ^ 31). change (2 ^ bits int32) with (2 ^ 32).
  change (2 ^ bits Numerics.uint32) with (2 ^ 32).
  rewrite Zplus_mod_idemp_l, Z.mod_small by lia. lia.
Qed.

Lemma uint32_range z : 0 <= uint32 z < 2 ^ 32.
Proof. unfold uint32. apply Z.mod_pos_bound. done. Qed.

Lemma nref_word v n : 0 <= n < 2 ^ 31 -> NRefOfVRef (word v n) = n.
Proof.
  intros Hn. unfold NRefOfVRef. rewrite low_word by lia.
  rewrite <- (uint32_id n) at 1 by lia. apply int32_of_uint32. lia.
Qed.

Lemma MakeVRef_word v n : 0 <= v < 2 ^ 32 -> 0 <= n < 2 ^ 32 -> MakeVRef v n = word v n.
Proof. intros Hv Hn. unfold MakeVRef. rewrite uint32_id by done. by apply pack_word. Qed.

Lemma word_inj v n v' n' :
  0 <= n < 2 ^ 32 -> 0 <= n' < 2 ^ 32 -> word v n = word v' n' -> v = v' /\ n = n'.
Proof. unfold word. intros. lia. Qed.

Lemma word_u64 v n : 0 <= v < 2 ^ 32 -> 0 <= n < 2 ^ 32 -> u64 (word v n) = word v n.
Proof. intros. apply u64_id. unfold word. lia. Qed.

Lemma land_odd b f : 0 <= f <= 1 -> Z.land (2 * b + f) 1 = f.
Proof.
  intros Hf. change (Z.land (2 * b + f) (Z.ones 1) = f). rewrite Z.land_ones by lia.
  rewrite Z.add_comm, Z.mul_comm, Z.mod_add by lia. apply Z.mod_small. lia.
Qed.

(** ** The invariant

    [b] is half the version the object was created with, [f] tells whether it
    has failed, [N] is the number of references. *)

Section Invariant.
Context (slot : Z) (Hslot : 0 <= slot < 2 ^ 32).

Definition mkid (version : Z) : Z := MakeVRefId version slot.

Lemma version_mkid v : 0 <= v < 2 ^ 32 -> VersionOfVRefId (mkid v) = v.
Proof.
  intros Hv. unfold mkid, MakeVRefId. rewrite pack_word by done. by apply version_word.
Qed.

(** References a thread accounts for: its smart pointers, and the one that a
    function in progress has added and not yet dropped or passed on. *)
Definition weight (t : thread) : nat :=
  held t +
  match pc t with
  | AddrSub _ | CreateId _ | CreateStatus => 1
  | DerefId k | DerefSub _ k => if decide (k = ByUser) then 0 else 1
  | _ => 0
  end.

(** The additional reference of the object itself. *)
Definition additional (o : vobj) : nat :=
  match vo_life o, vo_status o with
  | (LFresh _ | LLive), ADDITIONAL_REF_USING => 1
  | _, _ => 0
  end.

Definition id_ok (b : Z) (l : life) (id : Z) : Prop :=
  exists c, id = mkid (2 * c) /\ 0 <= c /\ (c < b \/ c = b /\ l = LLive).

Definition anchored (f : Z) (o : vobj) (i : nat) (t : thread) (k : caller) : Prop :=
  k <> ByUser /\
  if decide (k = ByCreate) then vo_life o = LFresh i /\ f = 0 else (0 < held t)%nat.

Definition t_ok (b f : Z) (o : vobj) (i : nat) (t : thread) : Prop :=
  ((0 < held t)%nat -> vo_life o = LLive) /\
  match pc t with
  | Idle | Ret _ => True
  | Fatal => False
  | CreateAdd => vo_life o = LCreating i
  | CreateId ver => vo_life o = LCreating i /\ ver = 2 * b
  | CreateStatus => vo_life o = LCreating i /\ vo_this_id o = mkid (2 * b)
  | CreateInit => vo_life o = LFresh i /\ f = 0
  | AddrAdd id _ => id_ok b (vo_life o) id
  | AddrSub ver1 => ver1 = 2 * b + f \/ (ver1 = 2 * b /\ f = 1)
  | AddrCas ver2 vref2 => exists c, 0 <= c <= b /\ ver2 = 2 * c + 1 /\ vref2 = word (2 * c + 1) 1
  | AddrRecycle => vo_life o = LRecycling i
  | FailId k => anchored f o i t k
  | FailLoad id_ver k => anchored f o i t k /\ id_ver = 2 * b
  | FailCas id_ver vref k =>
      anchored f o i t k /\ id_ver = 2 * b /\
      exists v m, vref = word v m /\ 0 <= v < 2 ^ 32 /\ 0 <= m < 2 ^ 31 /\ (k = ByCreate -> v = 2 * b)
  | RelCas k =>
      k <> ByUser /\ if decide (k = ByCreate) then vo_life o = LFresh i else (0 < held t)%nat
  | DerefId k => if decide (k = ByUser) then (0 < held t)%nat else vo_life o = LLive
  | DerefSub id k =>
      (if decide (k = ByUser) then (0 < held t)%nat else vo_life o = LLive) /\ id = mkid (2 * b)
  | DerefCas id vref k =>
      exists c g, 0 <= g <= 1 /\ 0 <= c /\ (c < b \/ c = b /\ vo_life o = LLive) /\
        id = mkid (2 * c) /\ vref = word (2 * c + g) 1
  | DerefRecycle k => vo_life o = LRecycling i
  end.

(** A thread about to exchange the word of a failed object without references. *)
Definition pending (b : Z) (t : thread) : Prop :=
  pc t = AddrCas (2 * b + 1) (word (2 * b + 1) 1) \/
  exists k, pc t = DerefCas (mkid (2 * b)) (word (2 * b + 1) 1) k.

(** A thread about to release the additional reference. *)
Definition releasing (t : thread) : Prop := exists k, pc t = RelCas k.

Definition shape (b f : Z) (o : vobj) : Prop :=
  vo_status o <> ADDITIONAL_REF_REVIVING /\
  match vo_life o with
  | LFree | LRecycling _ | LCreating _ => f = 0
  | LFresh _ => vo_this_id o = mkid (2 * b) /\ vo_status o = ADDITIONAL_REF_USING
  | LLive => vo_this_id o = mkid (2 * b)
  end.

(** The thread that has the slot, if one has it for itself. *)
Definition owner (l : life) : option nat :=
  match l with LCreating i | LFresh i | LRecycling i => Some i | LFree | LLive => None end.

(** Program counters of such a thread. *)
Definition owns (t : thread) : bool :=
  match pc t with
  | CreateAdd | CreateId _ | CreateStatus | CreateInit | AddrRecycle | DerefRecycle _ => true
  | FailId k | FailLoad _ k | FailCas _ _ k | RelCas k => bool_decide (k = ByCreate)
  | _ => false
  end.

Definition total (ths : list thread) : nat := sum_list_with weight ths.

Record inv (n b f N : Z) (o : vobj) (ths : list thread) : Prop := {
  v_word : vo_versioned_ref o = word (2 * b + f) N;
  v_bounds : 0 <= b /\ 0 <= f <= 1 /\ 0 <= N <= n /\ 2 * b + f <= 2 * n;
  v_count : N = Z.of_nat (total ths + additional o);
  v_shape : shape b f o;
  v_issued : Forall (id_ok b (vo_life o)) (vo_issued o);
  v_threads : forall i t, ths !! i = Some t -> t_ok b f o i t;
  v_pending : vo_life o = LLive -> f = 1 -> N = 0 ->
    exists i t, ths !! i = Some t /\ pending b t;
  v_owner : forall i, owner (vo_life o) = Some i ->
    exists t, ths !! i = Some t /\ owns t = true;
  v_releasing : vo_life o = LLive -> f = 1 -> vo_status o = ADDITIONAL_REF_USING ->
    exists i t, ths !! i = Some t /\ releasing t
}.

Lemma total_insert ths i t t' :
  ths !! i = Some t -> (total (<[i := t']> ths) + weight t = total ths + weight t')%nat.
Proof.
  intros Hi. unfold total. assert (Hl := lookup_lt_Some _ _ _ Hi).
  rewrite insert_take_drop by done. rewrite <- (take_drop_middle ths i t) at 3 by done.
  rewrite !sum_list_with_app. cbn. lia.
Qed.

Lemma total_other ths i t j u :
  ths !! i = Some t -> ths !! j = Some u -> i <> j -> (weight t + weight u <= total ths)%nat.
Proof.
  intros Hi Hj Hne. assert (E := total_insert ths i t (mkThread 0 Idle) Hi).
  assert (Hj' : <[i := mkThread 0 Idle]> ths !! j = Some u) by by rewrite list_lookup_insert_ne.
  assert (E' := total_insert _ j u (mkThread 0 Idle) Hj'). cbn in *. lia.
Qed.

Lemma total_one ths i t : ths !! i = Some t -> (weight t <= total ths)%nat.
Proof. intros Hi. assert (E := total_insert ths i t (mkThread 0 Idle) Hi). cbn in *. lia. Qed.

Lemma not_owner n b f N o ths i t :
  inv n b f N o ths -> ths !! i = Some t -> owns t = false -> owner (vo_life o) <> Some i.
Proof.
  intros Hinv Hi Ht Ho. destruct (v_owner _ _ _ _ _ _ Hinv i Ho) as (u & Hu & ?). simplify_eq. congruence.
Qed.

(** One thread moves. *)
Lemma inv_update n b f N o ths i t o' t' b' f' N' :
  inv n b f N o ths -> ths !! i = Some t ->
  vo_versioned_ref o' = word (2 * b' + f') N' ->
  0 <= b' -> 0 <= f' <= 1 -> 0 <= N' <= n + 1 -> 2 * b' + f' <= 2 * (n + 1) ->
  N' + Z.of_nat (weight t + additional o) = N + Z.of_nat (weight t' + additional o') ->
  shape b' f' o' -> Forall (id_ok b' (vo_life o')) (vo_issued o') ->
  t_ok b' f' o' i t' ->
  (forall j u, j <> i -> ths !! j = Some u ->
     Z.of_nat (weight u + weight t + additional o) <= N -> t_ok b f o j u -> t_ok b' f' o' j u) ->
  (vo_life o' = LLive -> f' = 1 -> N' = 0 ->
   pending b' t' \/ (b' = b /\ vo_life o = LLive /\ f = 1 /\ N = 0 /\ ~ pending b t)) ->
  (forall j, owner (vo_life o') = Some j ->
   j = i /\ owns t' = true \/ j <> i /\ owner (vo_life o) = Some j) ->
  (vo_life o' = LLive -> f' = 1 -> vo_status o' = ADDITIONAL_REF_USING ->
   releasing t' \/
   (vo_life o = LLive /\ f = 1 /\ vo_status o = ADDITIONAL_REF_USING /\ ~ releasing t)) ->
  inv (n + 1) b' f' N' o' (<[i := t']> ths).
Proof.
  intros Hinv Hi Hw Hb Hf HN HV Hc Hs Hiss Hti Hoth Hp Hown Hrel.
  destruct Hinv as [Iw Ib Ic Is Ii It Ip Io Ir].
  assert (Hl := lookup_lt_Some _ _ _ Hi).
  constructor; try done.
  - assert (E := total_insert ths i t t' Hi). lia.
  - intros j u Hj. destruct (decide (j = i)) as [->|Hne].
    + rewrite list_lookup_insert_eq in Hj by done. by simplify_eq.
    + rewrite list_lookup_insert_ne in Hj by done.
      apply Hoth; [done|done| |by apply It].
      assert (E := total_other ths i t j u Hi Hj ltac:(done)). lia.
  - intros HL Hf1 HN0. destruct (Hp HL Hf1 HN0) as [Hpt|(-> & HL' & Hf' & HN' & Hnp)].
    + exists i, t'. split; [by apply list_lookup_insert_eq|done].
    + destruct (Ip HL' Hf' HN') as (j & u & Hj & Hu). exists j, u. split; [|done].
      rewrite list_lookup_insert_ne; [done|]. intros <-. by simplify_eq.
  - intros j Hj. destruct (Hown j Hj) as [[-> Hb']|[Hne Hj']].
    + exists t'. split; [by apply list_lookup_insert_eq|done].
    + destruct (Io j Hj') as (u & Hu & ?). exists u. by rewrite list_lookup_insert_ne.
  - intros HL Hf1 Hus. destruct (Hrel HL Hf1 Hus) as [Ht'|(HL' & Hf' & Hus' & Hnr)].
    + exists i, t'. split; [by apply list_lookup_insert_eq|done].
    + destruct (Ir HL' Hf' Hus') as (j & u & Hj & Hu). exists j, u. split; [|done].
      rewrite list_lookup_insert_ne; [done|]. intros <-. by simplify_eq.
Qed.

(** What the steps of one thread do to the others. *)
Lemma t_ok_life b f o o' j u :
  (vo_life o = LLive -> vo_life o' = LLive) ->
  (vo_life o = LCreating j -> vo_life o' = LCreating j /\ vo_this_id o' = vo_this_id o) ->
  (vo_life o = LFresh j -> vo_life o' = LFresh j) ->
  (vo_life o = LRecycling j -> vo_life o' = LRecycling j) ->
  t_ok b f o j u -> t_ok b f o' j u.
Proof.
  intros H1 H2 H3 H4 [Hh Hpc]. split; [auto|].
  assert (Ha : forall k, anchored f o j u k -> anchored f o' j u k).
  { intros k [Hk Ha]. split; [done|]. destruct (decide (k = ByCreate)); [|done]. destruct Ha. auto. }
  destruct (pc u) as [|r| | |ver| | |id fw|v1|v2 vr| |k|idv k|idv vr k|k|k|id k|id vr k|k];
    try done; try (destruct Hpc as [Hl Hpc]; (split; [solve [auto | by apply H2]|])); auto.
  - by apply H2.
  - by destruct (H2 Hl) as [_ ->].
  - destruct Hpc as (c & Hid & Hc & [|[]]); exists c; auto 8.
  - destruct (decide (k = ByCreate)); [destruct Hpc; auto|done].
  - destruct (decide (k = ByCreate)); auto.
  - destruct (decide (k = ByUser)); auto.
  - destruct Hpc as [Hl ->]. split; [|done]. destruct (decide (k = ByUser)); auto.
  - destruct Hpc as (c & g & Hg & Hc & [|[]] & ?); exists c, g; auto 10.
Qed.

Lemma t_ok_fail b o o' j u :
  vo_life o' = vo_life o -> vo_this_id o' = vo_this_id o -> vo_life o <> LFresh j ->
  t_ok b 0 o j u -> t_ok b 1 o' j u.
Proof.
  intros Hl Hid Hne [Hh Hpc]. split; [by rewrite Hl|].
  assert (Ha : forall k, anchored 0 o j u k -> anchored 1 o' j u k).
  { intros k [Hk Ha]. split; [done|]. destruct (decide (k = ByCreate)); [|done]. by destruct Ha. }
  destruct (pc u) as [|r| | |ver| | |id fw|v1|v2 vr| |k|idv k|idv vr k|k|k|id k|id vr k|k];
    rewrite ?Hl, ?Hid; try done.
  - by destruct Hpc.
  - right. lia.
  - auto.
  - destruct Hpc as [Hk Hpc]. auto.
  - destruct Hpc as [Hk Hpc]. auto.
Qed.

Lemma t_ok_recycle b f o o' i j u :
  vo_life o = LLive -> vo_life o' = LRecycling i -> weight u = O -> 0 <= f <= 1 ->
  t_ok b f o j u -> t_ok (b + 1) 0 o' j u.
Proof.
  intros Hl Hl' Hw Hf [Hh Hpc]. unfold weight in Hw. split; [lia|].
  assert (Ha : forall k, ~ anchored f o j u k).
  { intros k [Hk Ha]. rewrite Hl in Ha. destruct (decide (k = ByCreate)); [by destruct Ha|lia]. }
  destruct (pc u) as [|r| | |ver| | |id fw|v1|v2 vr| |k|idv k|idv vr k|k|k|id k|id vr k|k];
    rewrite ?Hl in Hpc; try done; try lia.
  - by destruct Hpc.
  - destruct Hpc as (c & -> & Hc & Hcb). exists c. split; [done|]. split; [done|]. left. lia.
  - destruct Hpc as (c & Hc & ?). exists c. split; [lia|done].
  - by apply Ha in Hpc.
  - destruct Hpc as [Hk _]. by apply Ha in Hk.
  - destruct Hpc as [Hk _]. by apply Ha in Hk.
  - destruct Hpc as [_ Hpc]. destruct (decide (k = ByCreate)); [done|lia].
  - destruct (decide (k = ByUser)); lia.
  - destruct (decide (k = ByUser)); lia.
  - destruct Hpc as (c & g & Hg & Hc & Hcb & Hid). exists c, g.
    split; [done|]. split; [done|]. split; [left; lia|done].
Qed.

Lemma id_ok_mono b b' l l' id :
  id_ok b l id -> (l = LLive -> l' = LLive \/ b < b') -> b <= b' -> id_ok b' l' id.
Proof.
  intros (c & -> & Hc & Hcb) Hl Hb. exists c. split; [done|]. split; [done|].
  destruct Hcb as [|[-> HL]]; [left; lia|]. destruct (Hl HL) as [|]; [|left; lia].
  destruct (decide (b = b')); [by right|left; lia].
Qed.

(** ** Steps *)

(** The invariant holds afterwards, and the version is at least [v]. *)
Definition keeps (v n : Z) (i : nat) (ths : list thread) (r : vobj * thread) : Prop :=
  exists b f N, v <= 2 * b + f /\ inv n b f N (fst r) (<[i := snd r]> ths).

Lemma keeps_local n b f N o ths i t t' :
  inv n b f N o ths -> ths !! i = Some t -> weight t' = weight t ->
  t_ok b f o i t' -> (f = 1 -> N = 0 -> ~ pending b t) ->
  (owner (vo_life o) = Some i -> owns t' = true) ->
  (vo_status o = ADDITIONAL_REF_USING -> ~ releasing t) ->
  keeps (2 * b + f) (n + 1) i ths (o, t').
Proof.
  intros Hinv Hi Hw Ht Hp Ho Hnr. pose proof Hinv as [Iw Ib Ic Is Ii It Ip Io Ir].
  exists b, f, N. split; [lia|].
  apply (inv_update n b f N o ths i t); try done; try lia; cbn [fst snd].
  - by rewrite Hw.
  - intros HL Hf1 HN0. right. split; [done|]. auto.
  - intros j Hj. destruct (decide (j = i)) as [->|]; auto.
  - intros HL Hf1 Hus. right. auto.
Qed.

(** [fetch_add] *)
Lemma keeps_add n b f N o ths i t t' :
  inv n b f N o ths -> n + 1 < 2 ^ 31 -> ths !! i = Some t -> weight t' = S (weight t) ->
  t_ok b f o i t' -> (owner (vo_life o) = Some i -> owns t' = true) ->
  ~ releasing t ->
  keeps (2 * b + f) (n + 1) i ths (AddReference o, t').
Proof.
  intros Hinv Hn Hi Hw Ht Ho Hnr. pose proof Hinv as [Iw Ib Ic Is Ii It Ip Io Ir].
  exists b, f, (N + 1). split; [lia|].
  apply (inv_update n b f N o ths i t); try done; try lia; cbn [fst snd].
  - cbn [fst AddReference sub_reference set_ref vo_versioned_ref]. rewrite Iw. rewrite u64_id by (unfold word; lia). unfold word. lia.
  - change (additional (AddReference o)) with (additional o). lia.
  - intros j Hj. destruct (decide (j = i)) as [->|]; auto.
  - intros HL Hf1 Hus. right. auto.
Qed.

(** [fetch_sub] by a thread that accounts for a reference *)
Lemma keeps_sub n b f N o ths i t t' :
  inv n b f N o ths -> n + 1 < 2 ^ 31 -> ths !! i = Some t -> weight t = S (weight t') ->
  t_ok b f o i t' -> (vo_life o = LLive -> f = 1 -> N = 1 -> pending b t') ->
  (owner (vo_life o) = Some i -> owns t' = true) ->
  ~ releasing t ->
  keeps (2 * b + f) (n + 1) i ths (sub_reference o, t').
Proof.
  intros Hinv Hn Hi Hw Ht Hp Ho Hnr. pose proof Hinv as [Iw Ib Ic Is Ii It Ip Io Ir].
  exists b, f, (N - 1). split; [lia|].
  assert (Hle := total_one ths i t Hi).
  apply (inv_update n b f N o ths i t); try done; try lia; cbn [fst snd].
  - cbn [fst AddReference sub_reference set_ref vo_versioned_ref]. rewrite Iw. rewrite u64_id by (unfold word; lia). unfold word. lia.
  - change (additional (sub_reference o)) with (additional o). lia.
  - intros HL Hf HN. left. apply Hp; [done|done|lia].
  - intros j Hj. destruct (decide (j = i)) as [->|]; auto.
  - intros HL Hf1 Hus. right. auto.
Qed.

(** The exchange that takes the object out of use. *)
Lemma keeps_recycle n b f o ths i t pc' :
  inv n b f 0 o ths -> n + 1 < 2 ^ 31 -> ths !! i = Some t -> vo_life o = LLive ->
  (pc' = AddrRecycle \/ exists k, pc' = DerefRecycle k) ->
  keeps (2 * b + f) (n + 1) i ths
    (set_life (set_ref o (word (2 * (b + 1)) 0)) (LRecycling i), mkThread (held t) pc').
Proof.
  intros Hinv Hn Hi HL Hpc. pose proof Hinv as [Iw Ib Ic Is Ii It Ip Io Ir].
  exists (b + 1), 0, 0. split; [lia|].
  assert (Hle := total_one ths i t Hi).
  assert (Hheld : weight (mkThread (held t) pc') = held t).
  { unfold weight. cbn. destruct Hpc as [->|[k ->]]; lia. }
  assert (Hw0 : weight t = O) by lia. assert (Hh0 : held t = O) by (unfold weight in Hw0; lia).
  apply (inv_update n b f 0 o ths i t); try done; try lia; cbn [fst snd].
  - cbn. by rewrite Z.add_0_r.
  - rewrite Hheld. unfold additional in *. cbn. lia.
  - destruct Is as [Hst _]. by split.
  - cbn. eapply Forall_impl; [|exact Ii]. intros id Hid. cbn in Hid. rewrite HL in Hid.
    eapply id_ok_mono; [exact Hid|right; lia|lia].
  - split; [cbn; lia|]. cbn. destruct Hpc as [->|[k ->]]; done.
  - intros j u Hne Hj Hwu Hu. apply (t_ok_recycle b f o _ i j u); try done; lia.
  - cbn. intros j [= <-]. left. split; [done|]. by destruct Hpc as [->|[k ->]].
Qed.

(** The slot goes back to the pool. *)
Lemma keeps_return n b f N o ths i t r :
  inv n b f N o ths -> ths !! i = Some t -> vo_life o = LRecycling i ->
  weight t = held t -> keeps (2 * b + f) (n + 1) i ths (set_life o LFree, mkThread (held t) (Ret r)).
Proof.
  intros Hinv Hi HL Hw. pose proof Hinv as [Iw Ib Ic Is Ii It Ip Io Ir].
  exists b, f, N. split; [lia|].
  destruct (It i t Hi) as [Hh _].
  assert (Hh0 : held t = O) by (destruct (held t); [done|]; rewrite Hh in HL by lia; done).
  apply (inv_update n b f N o ths i t); try done; try lia; cbn [fst snd].
  - unfold additional, weight. cbn. rewrite HL. unfold weight in Hw. lia.
  - destruct Is as [Hst Hs]. split; [done|]. cbn. by rewrite HL in Hs.
  - cbn. eapply Forall_impl; [|exact Ii]. intros id Hid.
    eapply id_ok_mono; [exact Hid|rewrite HL; done|lia].
  - split; [cbn; lia|done].
  - intros j u Hne Hj _ Hu. eapply t_ok_life; [..|exact Hu]; rewrite HL; try done.
    intros [= ->]. done.
Qed.

(** ** Each function keeps the invariant *)

(** A program counter (given by [E]) that releases nothing. *)
Ltac not_releasing E := let Hr := fresh in intros [? Hr]; rewrite E in Hr; done.

(** A program counter (given by [E]) that is no pending exchange. *)
Ltac not_pending E :=
  let Hp := fresh in intros _ _ [Hp|[? Hp]]; rewrite E in Hp; done.

Lemma create_keeps n b f N o ths i t created :
  inv n b f N o ths -> n + 1 < 2 ^ 31 -> ths !! i = Some t ->
  match pc t with CreateAdd | CreateId _ | CreateStatus | CreateInit => True | _ => False end ->
  keeps (2 * b + f) (n + 1) i ths (create_next slot created i o t).
Proof.
  intros Hinv Hn Hi Hpc. pose proof Hinv as [Iw Ib Ic Is Ii It Ip Io Ir].
  destruct (It i t Hi) as [Hh Ht]. unfold create_next.
  destruct (pc t) as [|r| | |ver| | |id fw|v1|v2 vr| |k|idv k|idv vr k|k|k|id k|id vr k|k] eqn:E;
    try done.
  - destruct Is as [Hst Hs]. rewrite Ht in Hs.
    eapply keeps_add; try done.
    + unfold weight. rewrite E. cbn. lia.
    + split; [done|]. cbn [pc]. split; [done|]. rewrite Iw, version_word by lia. lia.
    + not_releasing E.
  - destruct Ht as [HL ->]. destruct Is as [Hst Hs]. rewrite HL in Hs. exists b, f, N. split; [lia|].
    apply (inv_update n b f N o ths i t); try done; try lia; cbn [fst snd].
    + unfold weight, additional. cbn. rewrite HL, E. lia.
    + split; [done|]. cbn. by rewrite HL.
    + intros j u Hne Hj _ Hu. eapply t_ok_life; [..|exact Hu]; cbn; rewrite HL; try done.
      intros [= ->]. done.
    + cbn. rewrite HL. intros j [= <-]. by left.
  - destruct Ht as [HL Hid]. destruct Is as [Hst Hs]. rewrite HL in Hs. exists b, f, N. split; [lia|].
    apply (inv_update n b f N o ths i t); try done; try lia; cbn [fst snd].
    + unfold weight, additional. cbn. rewrite HL, E. lia.
    + eapply Forall_impl; [|exact Ii]. intros id Hok. eapply id_ok_mono; [exact Hok|by rewrite HL|lia].
    + split; [|done]. cbn. rewrite HL in Hh. intros Hc. by apply Hh in Hc.
    + intros j u Hne Hj _ Hu. eapply t_ok_life; [..|exact Hu]; cbn; rewrite HL; try done.
      intros [= ->]. done.
    + cbn. intros j [= <-]. by left.
  - destruct Ht as [HL Hf]. destruct Is as [Hst Hs]. rewrite HL in Hs. destruct Hs as [Hid Hus].
    destruct created.
    + exists b, f, N. split; [lia|]. apply (inv_update n b f N o ths i t); try done; try lia; cbn [fst snd].
      * unfold weight, additional. cbn. rewrite HL, E, Hus. lia.
      * cbn. constructor; [exists b; rewrite Hid; split; [done|split; [lia|by right]]|].
        eapply Forall_impl; [|exact Ii]. intros id Hok. eapply id_ok_mono; [exact Hok|by rewrite HL|lia].
      * intros j u Hne Hj _ Hu. eapply t_ok_life; [..|exact Hu]; cbn; rewrite HL; try done.
        intros [= ->]. done.
    + eapply keeps_local; try done.
      * unfold weight. by rewrite E.
      * not_pending E.
      * intros _. not_releasing E.
Qed.

(** An identifier that was issued and has the current version, failed or not,
    is that of the live object. *)
Lemma id_ok_current n b f N o ths id :
  inv n b f N o ths -> n + 1 < 2 ^ 31 -> id_ok b (vo_life o) id ->
  exists c, VersionOfVRefId id = 2 * c /\ 0 <= 2 * c + 1 < 2 ^ 32 /\
    (2 * b + f = 2 * c \/ 2 * b + f = 2 * c + 1 -> vo_life o = LLive).
Proof.
  intros [Iw Ib Ic Is Ii It Ip Io Ir] Hn (c & -> & Hc & Hcb). exists c.
  rewrite version_mkid by lia. split; [done|]. split; [lia|].
  intros Hv. destruct Hcb as [|[_ ?]]; [lia|done].
Qed.

Lemma address_add_keeps n b f N o ths i t id fw :
  inv n b f N o ths -> n + 1 < 2 ^ 31 -> ths !! i = Some t -> pc t = AddrAdd id fw ->
  keeps (2 * b + f) (n + 1) i ths (address_next i o t).
Proof.
  intros Hinv Hn Hi E. pose proof Hinv as [Iw Ib Ic Is Ii It Ip Io Ir].
  destruct (It i t Hi) as [Hh Ht]. rewrite E in Ht. unfold address_next. rewrite E.
  destruct (id_ok_current n b f N o ths id Hinv Hn Ht) as (c & Hv & Hc & Hlive).
  rewrite Iw, version_word, Hv, uint32_id by lia.
  assert (Hw : weight t = held t) by (unfold weight; rewrite E; lia).
  assert (Hno : owner (vo_life o) <> Some i)
    by (eapply not_owner; [done..|]; unfold owns; by rewrite E).
  destruct (Z.eqb_spec (2 * b + f) (2 * c)) as [Heq|Hne].
  { assert (HL : vo_life o = LLive) by auto.
    eapply keeps_add; try done; [rewrite Hw; unfold weight; cbn; lia|not_releasing E]. }
  destruct (fw && (2 * b + f =? 2 * c + 1)) eqn:Efw.
  { assert (HL : vo_life o = LLive) by (apply Hlive; right; apply andb_prop in Efw; lia).
    eapply keeps_add; try done; [rewrite Hw; unfold weight; cbn; lia|not_releasing E]. }
  eapply keeps_add; try done; [rewrite Hw; unfold weight; cbn; lia| |not_releasing E].
  split; [done|]. cbn. by left.
Qed.

Lemma address_sub_keeps n b f N o ths i t ver1 :
  inv n b f N o ths -> n + 1 < 2 ^ 31 -> ths !! i = Some t -> pc t = AddrSub ver1 ->
  keeps (2 * b + f) (n + 1) i ths (address_next i o t).
Proof.
  intros Hinv Hn Hi E. pose proof Hinv as [Iw Ib Ic Is Ii It Ip Io Ir].
  destruct (It i t Hi) as [Hh Ht]. rewrite E in Ht. unfold address_next. rewrite E.
  assert (Hw : weight t = S (held t)) by (unfold weight; rewrite E; lia).
  assert (Hle := total_one ths i t Hi).
  rewrite Iw, nref_word, version_word by lia. rewrite land_odd by lia.
  assert (Hno : owner (vo_life o) <> Some i)
    by (eapply not_owner; [done..|]; unfold owns; by rewrite E).
  destruct (Z.ltb_spec 1 N).
  { eapply keeps_sub; try done; try (rewrite Hw; unfold weight; cbn; lia); try lia; not_releasing E. }
  destruct (Z.eqb_spec N 1) as [->|]; [|lia].
  destruct (Z.eqb_spec f 0) as [->|Hf]; cbn [negb].
  { eapply keeps_sub; try done; try (rewrite Hw; unfold weight; cbn; lia); try lia; not_releasing E. }
  assert (f = 1) as -> by lia.
  replace ((ver1 =? 2 * b + 1) || (uint32 (ver1 + 1) =? 2 * b + 1)) with true.
  - eapply keeps_sub; try done; [rewrite Hw; unfold weight; cbn; lia| | |not_releasing E].
    + split; [done|]. cbn. exists b. split; [lia|done].
    + intros _ _ _. by left.
  - symmetry. apply orb_true_iff. destruct Ht as [->|[-> _]]; [left; lia|right].
    rewrite uint32_id by lia. lia.
Qed.

(** An exchange from "no references" succeeds only on the live object. *)
Lemma exchange_live n b f N o ths c g :
  inv n b f N o ths -> n + 1 < 2 ^ 31 -> 0 <= g <= 1 ->
  vo_versioned_ref o = word (2 * c + g) 0 ->
  (g = 1 \/ (c < b \/ c = b /\ vo_life o = LLive)) ->
  c = b /\ g = f /\ N = 0 /\ vo_life o = LLive.
Proof.
  intros [Iw Ib Ic [Hst Hs] Ii It Ip Io Ir] Hn Hg Heq Hc. rewrite Iw in Heq.
  apply word_inj in Heq as [Hv ->]; [|lia..]. assert (c = b /\ g = f) as [-> ->] by lia.
  split; [done|]. split; [done|]. split; [done|].
  destruct Hc as [->|[|[_ ?]]]; [|lia|done].
  unfold additional in Ic. destruct (vo_life o) as [|i|i| |i]; try done.
  destruct Hs as [_ Hs]. rewrite Hs in Ic. lia.
Qed.

Lemma address_keeps n b f N o ths i t :
  inv n b f N o ths -> n + 1 < 2 ^ 31 -> ths !! i = Some t ->
  match pc t with AddrAdd _ _ | AddrSub _ | AddrCas _ _ | AddrRecycle => True | _ => False end ->
  keeps (2 * b + f) (n + 1) i ths (address_next i o t).
Proof.
  intros Hinv Hn Hi Hpc. pose proof Hinv as [Iw Ib Ic Is Ii It Ip Io Ir].
  destruct (pc t) as [|r| | |ver| | |id fw|v1|v2 vr| |k|idv k|idv vr k|k|k|id k|id vr k|k] eqn:E;
    try done.
  - by eapply address_add_keeps.
  - by eapply address_sub_keeps.
  - destruct (It i t Hi) as [Hh Ht]. rewrite E in Ht. destruct Ht as (c & Hc & -> & ->).
    unfold address_next. rewrite E. unfold cas_ref.
    replace (word (2 * c + 1) 1 - 1) with (word (2 * c + 1) 0) by (unfold word; lia).
    rewrite word_u64, uint32_id, MakeVRef_word by lia.
    destruct (Z.eqb_spec (vo_versioned_ref o) (word (2 * c + 1) 0)) as [Heq|Hne].
    + destruct (exchange_live n b f N o ths c 1 Hinv) as (-> & <- & -> & HL); [lia|lia|done|by left|].
      replace (2 * b + 1 + 1) with (2 * (b + 1)) by lia.
      eapply keeps_recycle; try done. by left.
    + eapply keeps_local; try done.
      * unfold weight. by rewrite E.
      * intros -> -> [Hp|[k Hp]]; rewrite E in Hp; [|done]. injection Hp as Hc2 _.
        apply Hne. rewrite Iw. f_equal. lia.
      * intros Ho. exfalso. revert Ho. eapply not_owner; [done..|]. unfold owns. by rewrite E.
      * intros _. not_releasing E.
  - unfold address_next. rewrite E. destruct (It i t Hi) as [Hh Ht]. rewrite E in Ht.
    eapply keeps_return; try done. unfold weight. rewrite E. lia.
Qed.

Lemma anchored_live n b f N o ths i t k :
  inv n b f N o ths -> t_ok b f o i t -> anchored f o i t k ->
  vo_this_id o = mkid (2 * b) /\ (1 <= weight t + additional o)%nat /\
  (vo_life o = LFresh i \/ vo_life o = LLive) /\ (owner (vo_life o) = Some i -> k = ByCreate).
Proof.
  intros [Iw Ib Ic [Hst Hs] Ii It Ip Io Ir] [Hh _] [Hk Ha].
  destruct (decide (k = ByCreate)) as [->|Hne].
  - destruct Ha as [HL _]. unfold additional. rewrite HL in *. destruct Hs as [Hid ->].
    split; [done|]. split; [lia|]. split; [by left|done].
  - rewrite (Hh Ha) in *. split; [done|]. split; [unfold weight; lia|]. split; [by right|done].
Qed.

Lemma fail_keeps n b f N o ths i t :
  inv n b f N o ths -> n + 1 < 2 ^ 31 -> ths !! i = Some t ->
  match pc t with FailId _ | FailLoad _ _ | FailCas _ _ _ => True | _ => False end ->
  keeps (2 * b + f) (n + 1) i ths (fail_next o t).
Proof.
  intros Hinv Hn Hi Hpc. pose proof Hinv as [Iw Ib Ic Is Ii It Ip Io Ir].
  assert (Hti := It i t Hi). destruct (It i t Hi) as [Hh Ht]. unfold fail_next.
  assert (Hword : forall k, anchored f o i t k ->
    exists v m, vo_versioned_ref o = word v m /\ 0 <= v < 2 ^ 32 /\ 0 <= m < 2 ^ 31 /\
      (k = ByCreate -> v = 2 * b)).
  { intros k [_ Ha]. exists (2 * b + f), N. split; [done|]. split; [lia|]. split; [lia|].
    intros ->. rewrite decide_True in Ha by done. lia. }
  destruct (pc t) as [|r| | |ver| | |id fw|v1|v2 vr| |k|idv k|idv vr k|k|k|id k|id vr k|k] eqn:E;
    try done.
  - destruct (anchored_live n b f N o ths i t k Hinv Hti Ht) as (Hid & _ & _ & Hown).
    eapply keeps_local; try done; [unfold weight; by rewrite E| |not_pending E| |intros _; not_releasing E].
    + split; [done|]. cbn [pc]. split; [done|]. rewrite Hid. apply version_mkid. lia.
    + intros Ho. unfold owns. cbn. apply bool_decide_true. auto.
  - destruct Ht as [Ha ->].
    destruct (anchored_live n b f N o ths i t k Hinv Hti Ha) as (_ & _ & _ & Hown).
    eapply keeps_local; try done; [unfold weight; by rewrite E| |not_pending E| |intros _; not_releasing E].
    + split; [done|]. cbn [pc]. auto.
    + intros Ho. unfold owns. cbn. apply bool_decide_true. auto.
  - destruct Ht as (Ha & -> & v & m & -> & Hv & Hm & Hcr).
    destruct (anchored_live n b f N o ths i t k Hinv Hti Ha) as (Hid & Hw & Hfr & Hown).
    assert (Hle := total_one ths i t Hi). rewrite version_word, nref_word by lia.
    destruct (Z.eqb_spec v (2 * b)) as [->|Hne]; cbn [negb].
    + unfold cas_ref. destruct (Z.eqb_spec (vo_versioned_ref o) (word (2 * b) m)) as [Heq|_].
      * rewrite Iw in Heq. apply word_inj in Heq as [Hf <-]; [|lia..]. assert (f = 0) as -> by lia.
        rewrite uint32_id, MakeVRef_word by lia. exists b, 1, N. split; [lia|].
        apply (inv_update n b 0 N o ths i t); try done; try lia; cbn [fst snd].
        -- unfold weight, additional. cbn. rewrite E. lia.
        -- destruct Is as [Hst Hs]. split; [done|]. cbn. by destruct Hfr as [HL|HL]; rewrite HL in *.
        -- split; [done|]. cbn. destruct Ha as [Hk Ha]. split; [done|].
           by destruct (decide (k = ByCreate)); [destruct Ha|].
        -- intros j u Hne Hj _ Hu. eapply t_ok_fail; [..|exact Hu]; try done.
           destruct Hfr as [HL|HL]; rewrite HL; congruence.
        -- cbn. intros j Hj. destruct (decide (j = i)) as [->|]; [left|by right].
           split; [done|]. unfold owns. cbn. apply bool_decide_true. auto.
        -- intros _ _ _. left. by exists k.
      * eapply keeps_local; try done; [unfold weight; by rewrite E| |not_pending E| |intros _; not_releasing E].
        -- split; [done|]. cbn [pc]. auto.
        -- intros Ho. unfold owns. cbn. apply bool_decide_true. auto.
    + eapply keeps_local; try done; [unfold weight; by rewrite E|not_pending E| |intros _; not_releasing E].
      intros Ho. exfalso. apply Hne. auto.
Qed.

Lemma release_keeps n b f N o ths i t k :
  inv n b f N o ths -> n + 1 < 2 ^ 31 -> ths !! i = Some t -> pc t = RelCas k ->
  keeps (2 * b + f) (n + 1) i ths (release_next o t).
Proof.
  intros Hinv Hn Hi E. pose proof Hinv as [Iw Ib Ic [Hst Hs] Ii It Ip Io Ir].
  destruct (It i t Hi) as [Hh Ht]. rewrite E in Ht. destruct Ht as [Hk Ht].
  unfold release_next. rewrite E.
  assert (HL : vo_life o = if decide (k = ByCreate) then LFresh i else LLive)
    by (destruct (decide (k = ByCreate)); auto).
  assert (Hid : vo_this_id o = mkid (2 * b))
    by (rewrite HL in Hs; by destruct (decide (k = ByCreate)); [destruct Hs|]).
  destruct (vo_status o) eqn:Est; [|done|].
  - set (o' := if decide (k = ByCreate) then _ else _).
    assert (HL' : vo_life o' = LLive) by (subst o'; destruct (decide (k = ByCreate)); done).
    assert (Hadd : additional o = 1%nat)
      by (unfold additional; rewrite Est, HL; by destruct (decide (k = ByCreate))).
    assert (Hfields : vo_versioned_ref o' = vo_versioned_ref o /\ vo_issued o' = vo_issued o /\
      vo_this_id o' = vo_this_id o /\ vo_status o' = ADDITIONAL_REF_RECYCLED)
      by (subst o'; by destruct (decide (k = ByCreate))).
    destruct Hfields as (Hr' & Hi' & Hid' & Hst').
    exists b, f, N. split; [lia|]. apply (inv_update n b f N o ths i t); try done; try lia; cbn [fst snd].
    + by rewrite Hr'.
    + unfold weight, additional in *. cbn [held pc]. rewrite E, HL', Hst'.
      rewrite decide_False by done. lia.
    + split; [by rewrite Hst'|]. by rewrite HL', Hid'.
    + rewrite Hi', HL'. eapply Forall_impl; [|exact Ii]. intros id Hok.
      eapply id_ok_mono; [exact Hok|by left|lia].
    + split; [by rewrite HL'|]. cbn [pc]. by rewrite decide_False, HL' by done.
    + intros j u Hne Hj _ Hu. eapply t_ok_life; [..|exact Hu]; rewrite HL; try done;
        destruct (decide (k = ByCreate)); try done. intros [= ->]. done.
    + rewrite HL'. done.
    + rewrite Hst'. done.
  - eapply keeps_local; try done; [unfold weight; by rewrite E|not_pending E| |by rewrite Est].
    rewrite HL in *. destruct (decide (k = ByCreate)); [|done]. by destruct Hs as [_ ?].
Qed.

Lemma deref_sub_keeps n b f N o ths i t id k :
  inv n b f N o ths -> n + 1 < 2 ^ 31 -> ths !! i = Some t -> pc t = DerefSub id k ->
  keeps (2 * b + f) (n + 1) i ths (deref_next i o t).
Proof.
  intros Hinv Hn Hi E. pose proof Hinv as [Iw Ib Ic Is Ii It Ip Io Ir].
  destruct (It i t Hi) as [Hh Ht]. rewrite E in Ht. destruct Ht as [Hk ->].
  unfold deref_next. rewrite E.
  assert (HL : vo_life o = LLive) by (destruct (decide (k = ByUser)); auto).
  assert (Hno : owner (vo_life o) <> Some i) by by rewrite HL.
  set (h := if decide (k = ByUser) then _ else _).
  assert (Hw : weight t = S h).
  { unfold weight, h. rewrite E. destruct (decide (k = ByUser)); lia. }
  assert (Hle := total_one ths i t Hi).
  assert (Hwr : forall r, weight t = S (weight (mkThread h (Ret r))))
    by (intros r; rewrite Hw; unfold weight; cbn; lia).
  rewrite Iw, nref_word, version_word, version_mkid, uint32_id by lia.
  destruct (Z.ltb_spec 1 N); [eapply keeps_sub; try done; [lia|not_releasing E]|].
  destruct (Z.eqb_spec N 1) as [->|]; [|lia].
  replace ((2 * b + f =? 2 * b) || (2 * b + f =? 2 * b + 1)) with true.
  - eapply keeps_sub; try done.
    + rewrite Hw. unfold weight. cbn. lia.
    + split; [done|]. cbn [pc]. exists b, f. split; [lia|]. split; [lia|]. split; [by right|done].
    + intros _ -> _. right. by exists k.
    + not_releasing E.
  - symmetry. apply orb_true_iff. lia.
Qed.

Lemma deref_keeps n b f N o ths i t :
  inv n b f N o ths -> n + 1 < 2 ^ 31 -> ths !! i = Some t ->
  match pc t with DerefId _ | DerefSub _ _ | DerefCas _ _ _ | DerefRecycle _ => True | _ => False end ->
  keeps (2 * b + f) (n + 1) i ths (deref_next i o t).
Proof.
  intros Hinv Hn Hi Hpc. pose proof Hinv as [Iw Ib Ic [Hst Hs] Ii It Ip Io Ir].
  destruct (It i t Hi) as [Hh Ht].
  destruct (pc t) as [|r| | |ver| | |id fw|v1|v2 vr| |k|idv k|idv vr k|k|k|id k|id vr k|k] eqn:E;
    try done.
  - unfold deref_next. rewrite E.
    assert (HL : vo_life o = LLive) by (destruct (decide (k = ByUser)); auto).
    rewrite HL in Hs. eapply keeps_local; try done; [unfold weight; by rewrite E|not_pending E| |intros _; not_releasing E].
    by rewrite HL.
  - by eapply deref_sub_keeps.
  - destruct Ht as (c & g & Hg & Hc & Hcb & -> & ->). unfold deref_next. rewrite E. unfold cas_ref.
    replace (word (2 * c + g) 1 - 1) with (word (2 * c + g) 0) by (unfold word; lia).
    assert (c <= b) by (destruct Hcb as [|[]]; lia).
    rewrite word_u64, version_mkid, uint32_id, MakeVRef_word by lia.
    destruct (Z.eqb_spec (vo_versioned_ref o) (word (2 * c + g) 0)) as [Heq|Hne].
    + destruct (exchange_live n b f N o ths c g Hinv) as (-> & -> & -> & HL); [lia|lia|done|by right|].
      replace (2 * b + 2) with (2 * (b + 1)) by lia. eapply keeps_recycle; try done. eauto.
    + eapply keeps_local; try done; [unfold weight; by rewrite E| | |intros _; not_releasing E].
      * intros -> -> [Hp|[k' Hp]]; rewrite E in Hp; [done|]. injection Hp as _ Hp _.
        apply word_inj in Hp as [Hp _]; [|lia..]. apply Hne. rewrite Iw. f_equal. lia.
      * intros Ho. exfalso. revert Ho. eapply not_owner; [done..|]. unfold owns. by rewrite E.
  - unfold deref_next. rewrite E. eapply keeps_return; try done. unfold weight. rewrite E. lia.
Qed.

Lemma next_keeps n b f N o ths i t created :
  inv n b f N o ths -> n + 1 < 2 ^ 31 -> ths !! i = Some t ->
  keeps (2 * b + f) (n + 1) i ths (next slot created i o t).
Proof.
  intros Hinv Hn Hi. pose proof Hinv as [Iw Ib Ic Is Ii It Ip Io Ir]. unfold next.
  destruct (pc t) as [|r| | |ver| | |id fw|v1|v2 vr| |k|idv k|idv vr k|k|k|id k|id vr k|k] eqn:E;
    try (eapply create_keeps; [done..|]; by rewrite E);
    try (eapply address_keeps; [done..|]; by rewrite E);
    try (eapply fail_keeps; [done..|]; by rewrite E);
    try (eapply release_keeps; done);
    try (eapply deref_keeps; [done..|]; by rewrite E).
  all: eapply keeps_local; try done; [by apply It|not_pending E| |intros _; not_releasing E].
  all: intros Ho; exfalso; revert Ho; eapply not_owner; [done..|]; unfold owns; by rewrite E.
Qed.

Lemma call_keeps n b f N o ths i t c r :
  inv n b f N o ths -> n + 1 < 2 ^ 31 -> ths !! i = Some t -> between_calls t = true ->
  call c i o t = Some r -> keeps (2 * b + f) (n + 1) i ths r.
Proof.
  intros Hinv Hn Hi Hb Hc. pose proof Hinv as [Iw Ib Ic [Hst Hs] Ii It Ip Io Ir].
  destruct (It i t Hi) as [Hh Ht].
  assert (Hw : weight t = held t) by (unfold weight, between_calls in *; destruct (pc t); try done; lia).
  assert (Hp : ~ pending b t)
    by (unfold between_calls in Hb; intros [Hp|[k Hp]]; by rewrite Hp in Hb).
  assert (Hno : owner (vo_life o) <> Some i).
  { eapply not_owner; [done..|]. unfold between_calls, owns in *. by destruct (pc t). }
  assert (Hwk : forall p, (match p with AddrAdd _ _ | FailId _ | RelCas _ | DerefId ByUser => True | _ => False end) ->
    weight (mkThread (held t) p) = weight t).
  { intros p. rewrite Hw. unfold weight. destruct p; try done; cbn; try lia. destruct k; cbn; try done; lia. }
  assert (Hnr : ~ releasing t) by (intros [k Hk]; unfold between_calls in Hb; by rewrite Hk in Hb).
  destruct c as [|id fw| | | |]; cbn in Hc.
  - destruct (decide (vo_life o = LFree)) as [HL|]; [|done]. injection Hc as <-. rewrite HL in *.
    exists b, f, N. split; [lia|]. apply (inv_update n b f N o ths i t); try done; try lia; cbn [fst snd].
    + unfold weight, additional in *. cbn. rewrite HL. lia.
    + cbn. eapply Forall_impl; [|exact Ii]. intros id Hok.
      eapply id_ok_mono; [exact Hok|done|lia].
    + split; [|done]. cbn. intros Hh'. by apply Hh in Hh'.
    + intros j u Hne Hj _ Hu. eapply t_ok_life; [..|exact Hu]; rewrite HL; done.
    + cbn. intros j [= <-]. by left.
  - destruct (decide (id ∈ vo_issued o)) as [Hin|]; [|done]. injection Hc as <-.
    eapply keeps_local; try done; [by apply Hwk|]. split; [done|]. cbn [pc].
    rewrite List.Forall_forall in Ii. apply Ii. by apply list_elem_of_In.
  - destruct (held t) as [|h] eqn:Eh; [done|]. injection Hc as <-.
    eapply keeps_add; try done; [rewrite Hw; unfold weight; cbn; lia|].
    split; [|done]. intros _. apply Hh. lia.
  - destruct (held t) as [|h] eqn:Eh; [done|]. injection Hc as <-.
    eapply keeps_local; try done; [by apply Hwk|]. split; [done|]. cbn [pc]. split; [done|].
    rewrite decide_False by done. cbn. lia.
  - destruct (held t) as [|h] eqn:Eh; [done|]. injection Hc as <-.
    eapply keeps_local; try done; [by apply Hwk|]. split; [done|]. cbn [pc]. split; [done|].
    rewrite decide_False by done. cbn. lia.
  - destruct (held t) as [|h] eqn:Eh; [done|]. injection Hc as <-.
    eapply keeps_local; try done; [by apply Hwk|]. split; [done|]. cbn [pc]. rewrite decide_True by done.
    cbn. lia.
Qed.
End Invariant.

(** ** Executions *)

Section Executions.
Context (slot : Z) (Hslot : 0 <= slot < 2 ^ 32).

Lemma vexec_app n m s s' s'' : vexec slot n s s' -> vexec slot m s' s'' -> vexec slot (n + m) s s''.
Proof. induction 1 as [|n s s1 s' Hs Hx IH]; [done|]. intros Hm. cbn. econstructor; eauto. Qed.

Lemma start_inv k : inv slot 0 0 0 0 VersionedRefWithId_ctor (replicate k (mkThread 0 Idle)).
Proof.
  constructor; try done.
  - unfold total, additional. cbn. induction k; [done|]. cbn in *. lia.
  - intros i t Hi. apply lookup_replicate in Hi as [-> _]. split; [cbn; lia|done].
Qed.

Lemma vstep_keeps n b f N o ths o' ths' :
  inv slot n b f N o ths -> n + 1 < 2 ^ 31 -> vstep slot (o, ths) (o', ths') ->
  exists b' f' N', 2 * b + f <= 2 * b' + f' /\ inv slot (n + 1) b' f' N' o' ths'.
Proof.
  intros Hinv Hn Hs. inversion Hs; subst.
  - assert (Hk := next_keeps slot Hslot n b f N o ths i t created Hinv Hn ltac:(done)).
    match goal with H : next _ _ _ _ _ = _ |- _ => rewrite H in Hk end. exact Hk.
  - by eapply (call_keeps slot n b f N o ths i t c (o', t')).
Qed.

Lemma vexec_keeps m n b f N s s' :
  inv slot n b f N (fst s) (snd s) -> vexec slot m s s' -> n + Z.of_nat m < 2 ^ 31 ->
  exists b' f' N', 2 * b + f <= 2 * b' + f' /\ inv slot (n + Z.of_nat m) b' f' N' (fst s') (snd s').
Proof.
  intros Hinv Hx. revert n b f N Hinv. induction Hx as [s|m s s1 s2 Hs Hx IH]; intros n b f N Hinv Hn.
  - exists b, f, N. split; [lia|]. by rewrite Z.add_0_r.
  - destruct s as [o ths], s1 as [o1 ths1].
    destruct (vstep_keeps n b f N o ths o1 ths1) as (b1 & f1 & N1 & Hle & Hinv1); [done|lia|done|].
    destruct (IH (n + 1) b1 f1 N1 Hinv1) as (b2 & f2 & N2 & Hle2 & Hinv2); [lia|].
    exists b2, f2, N2. split; [lia|]. by replace (n + Z.of_nat (S m)) with (n + 1 + Z.of_nat m) by lia.
Qed.

Lemma reachable_inv n k o ths :
  vexec slot n (vstart k) (o, ths) -> Z.of_nat n < 2 ^ 31 ->
  exists b f N, inv slot (Z.of_nat n) b f N o ths.
Proof.
  intros Hx Hn.
  destruct (vexec_keeps n 0 0 0 0 (vstart k) (o, ths) (start_inv k) Hx) as (b & f & N & _ & Hinv); [lia|].
  eauto.
Qed.

(** ** Properties *)

(** C8. Whatever the threads do in fewer than [2 ^ 31] steps, the count is exactly the number of smart
    pointers, references in transit and the additional reference; while
    somebody holds a smart pointer the object is in use, so it is not
    recycled under its users; the thread that returns the slot is the only one
    that has it; and no "over dereferenced" or version check ever fails. *)
Theorem vref_safe (n k : nat) (o : vobj) (ths : list thread) :
  vexec slot n (vstart k) (o, ths) -> Z.of_nat n < 2 ^ 31 ->
  nref o = Z.of_nat (total ths + additional o) /\
  forall i t, ths !! i = Some t ->
    ((0 < held t)%nat -> vo_life o = LLive) /\
    (pc t = AddrRecycle \/ (exists c, pc t = DerefRecycle c) -> vo_life o = LRecycling i) /\
    pc t <> Fatal.
Proof.
  intros Hx Hn. destruct (reachable_inv n k o ths Hx Hn) as (b & f & N & [Iw Ib Ic Is Ii It Ip Io Ir]).
  split.
  - unfold nref. rewrite Iw, nref_word by lia. lia.
  - intros i t Hi. destruct (It i t Hi) as [Hh Ht]. split; [done|]. split.
    + by intros [E|[c E]]; rewrite E in Ht.
    + intros E. by rewrite E in Ht.
Qed.

(** C14. A failed object is recycled: when, after fewer than [2 ^ 31] steps, all threads are between two calls and
    nobody holds a smart pointer, an object that [SetFailed] was called on has
    gone back to the pool. *)
Theorem vref_recycled (n k : nat) (o : vobj) (ths : list thread) :
  vexec slot n (vstart k) (o, ths) -> Z.of_nat n < 2 ^ 31 ->
  Forall (fun t => between_calls t = true /\ held t = O) ths -> Failed o = true ->
  vo_life o = LFree.
Proof.
  intros Hx Hn Hq Hfail. rewrite List.Forall_forall in Hq.
  destruct (reachable_inv n k o ths Hx Hn) as (b & f & N & [Iw Ib Ic [Hst Hs] Ii It Ip Io Ir]).
  assert (Hidle : forall i t, ths !! i = Some t -> between_calls t = true /\ held t = O).
  { intros i t Hi. apply Hq, list_elem_of_In. by eapply list_elem_of_lookup_2. }
  assert (Hno : forall i, owner (vo_life o) <> Some i).
  { intros i Ho. destruct (Io i Ho) as (t & Hi & Ht). destruct (Hidle i t Hi) as [Hb _].
    unfold between_calls, owns in *. by destruct (pc t). }
  destruct (vo_life o) as [|i|i| |i] eqn:HL; try done; try (by destruct (Hno i)). exfalso.
  assert (f = 1) as ->.
  { unfold Failed in Hfail. rewrite Iw, version_word, Hs, version_mkid in Hfail by (done || lia). lia. }
  destruct (vo_status o) eqn:Est; [|done|].
  - destruct (Ir eq_refl eq_refl eq_refl) as (i & t & Hi & [c Ht]). destruct (Hidle i t Hi) as [Hb _].
    unfold between_calls in Hb. by rewrite Ht in Hb.
  - assert (total ths = O).
    { clear -Hidle. unfold total. induction ths as [|t ths IH]; [done|]. cbn.
      rewrite IH by (intros i u Hi; by apply (Hidle (S i))).
      destruct (Hidle 0%nat t eq_refl) as [Hb Hh]. unfold weight, between_calls in *. rewrite Hh.
      by destruct (pc t). }
    unfold additional in Ic. rewrite HL, Est in Ic.
    destruct (Ip eq_refl eq_refl) as (i & t & Hi & Ht); [lia|]. destruct (Hidle i t Hi) as [Hb _].
    unfold between_calls in Hb. by destruct Ht as [Ht|[c Ht]]; rewrite Ht in Hb.
Qed.

(** A failed identifier stays failed: once the word has left the version of
    an identifier, which is what [SetFailed] does, [Address] never returns 0
    for it again, and its caller gets no smart pointer. *)
Theorem vref_stays_failed (n m k : nat) (id : Z) (s : vobj * list thread) (o : vobj)
    (ths : list thread) (i : nat) (t : thread) :
  vexec slot n (vstart k) s -> vexec slot m s (o, ths) -> Z.of_nat n + Z.of_nat m < 2 ^ 31 ->
  VersionOfVRefId id < VersionOfVRef (vo_versioned_ref (fst s)) ->
  ths !! i = Some t -> pc t = AddrAdd id false ->
  held (snd (next slot true i o t)) = held t /\ pc (snd (next slot true i o t)) <> Ret 0.
Proof.
  intros Hx Hy Hn Hid Hi Ht. destruct s as [o1 ths1]. cbn [fst] in *.
  destruct (reachable_inv n k o1 ths1 Hx) as (b & f & N & Hinv); [lia|].
  destruct (vexec_keeps m (Z.of_nat n) b f N (o1, ths1) (o, ths) Hinv Hy) as (b' & f' & N' & Hle & Hinv'); [lia|].
  destruct Hinv as [Iw Ib _ _ _ _ _ _ _], Hinv' as [Iw' Ib' _ _ _ _ _ _ _]. cbn [fst snd] in *.
  rewrite Iw, version_word in Hid by lia.
  unfold next. rewrite Ht. unfold address_next. rewrite Ht, Iw', version_word by lia.
  destruct (Z.eqb_spec (2 * b' + f') (VersionOfVRefId id)); [lia|]. done.
Qed.
End Executions.

(** ** Runs *)

Inductive choice : Type := DoNext (i : nat) (created : bool) | DoCall (i : nat) (c : vcall).

Definition schedule_step (slot : Z) (s : vobj * list thread) (ch : choice) :
    option (vobj * list thread) :=
  let '(o, ths) := s in
  match ch with
  | DoNext i created =>
      t ← ths !! i; let '(o', t') := next slot created i o t in Some (o', <[i := t']> ths)
  | DoCall i c =>
      t ← ths !! i;
      if between_calls t then '(o', t') ← call c i o t; Some (o', <[i := t']> ths) else None
  end.

Fixpoint schedule (slot : Z) (s : vobj * list thread) (l : list choice) :
    option (vobj * list thread) :=
  match l with
  | [] => Some s
  | ch :: l => s' ← schedule_step slot s ch; schedule slot s' l
  end.

Lemma schedule_exec slot l s s' : schedule slot s l = Some s' -> vexec slot (length l) s s'.
Proof.
  revert s. induction l as [|ch l IH]; intros s Hs; cbn in *; [simplify_eq; constructor|].
  destruct (schedule_step slot s ch) as [s1|] eqn:E; [|done]. cbn in Hs.
  econstructor; [|by apply IH]. destruct s as [o ths], ch as [i created|i c]; cbn in E.
  - destruct (ths !! i) as [t|] eqn:Hi; [|done]. cbn in E.
    destruct (next slot created i o t) as [o' t'] eqn:En. simplify_eq. by econstructor.
  - destruct (ths !! i) as [t|] eqn:Hi; [|done]. cbn in E.
    destruct (between_calls t) eqn:Hb; [|done].
    destruct (call c i o t) as [[o' t']|] eqn:Ec; [|done]. cbn in E. simplify_eq. by econstructor.
Qed.

(** Thread [i] makes the call [c] and runs [n] accesses of it. *)
Definition whole (i : nat) (c : vcall) (n : nat) : list choice :=
  DoCall i c :: replicate n (DoNext i true).

(** Thread 0 creates an object, addresses it, fails it, drops it, and creates
    another one in the same slot. *)
Definition first_life : list choice :=
  whole 0 CCreate 4 ++ whole 0 (CAddress 5 false) 1 ++ whole 0 CSetFailed 6 ++
  whole 0 CDereference 4.
Definition second_life : list choice :=
  first_life ++ whole 0 CCreate 4 ++ whole 0 (CAddress (2 * 2 ^ 32 + 5) false) 1.

(** Thread 1 still has the identifier of the first life. *)
Definition leak : list choice :=
  second_life ++ whole 0 CRelease 3 ++ whole 0 CDereference 2 ++
  whole 1 (CAddress 5 false) 1 ++ [DoNext 0 true; DoNext 1 true].

(** [ReleaseAdditionalReference] alone does not always recycle: in this run
    the additional reference is released, the last smart pointer is dropped
    while another thread addresses the slot with an outdated identifier, all
    threads are done, and the object has no reference and is not recycled. *)
Theorem release_may_leak :
  exists slot n o ths,
    vexec slot n (vstart 2) (o, ths) /\
    Forall (fun t => between_calls t = true /\ held t = O) ths /\
    vo_status o = ADDITIONAL_REF_RECYCLED /\ nref o = 0 /\ vo_life o = LLive.
Proof.
  exists 5, (length leak). eexists _, _. split; [apply schedule_exec; vm_compute; reflexivity|].
  split; [repeat constructor|]. split; [reflexivity|]. split; [vm_compute|]; reflexivity.
Qed.

Lemma vref_safe_witness :
  nref (mkObj 2 5 ADDITIONAL_REF_USING LLive [5]) = 2 /\
  forall i t, [mkThread 1 (Ret 0); mkThread 0 Idle] !! i = Some t ->
    ((0 < held t)%nat -> LLive = LLive) /\
    (pc t = AddrRecycle \/ (exists c, pc t = DerefRecycle c) -> LLive = LRecycling i) /\
    pc t <> Fatal.
Proof.
  apply (vref_safe 5 ltac:(lia) (length (whole 0 CCreate 4 ++ whole 0 (CAddress 5 false) 1)) 2
           (mkObj 2 5 ADDITIONAL_REF_USING LLive [5]) [mkThread 1 (Ret 0); mkThread 0 Idle]).
  - apply schedule_exec. vm_compute. reflexivity.
  - vm_compute. reflexivity.
Defined.

Lemma vref_recycled_witness :
  Failed (mkObj (2 * 2 ^ 32) 5 ADDITIONAL_REF_RECYCLED LFree [5]) = true /\ LFree = LFree.
Proof.
  split; [vm_compute; reflexivity|].
  apply (vref_recycled 5 ltac:(lia) (length first_life) 2
           (mkObj (2 * 2 ^ 32) 5 ADDITIONAL_REF_RECYCLED LFree [5]) [mkThread 0 (Ret 1); mkThread 0 Idle]).
  - apply schedule_exec. vm_compute. reflexivity.
  - vm_compute. reflexivity.
  - repeat constructor.
  - vm_compute. reflexivity.
Defined.

(** A failed object, and thread 1 about to address it. *)
Definition failed_obj : vobj := mkObj (2 ^ 32 + 1) 5 ADDITIONAL_REF_RECYCLED LLive [5].

Lemma vref_stays_failed_witness :
  held (snd (next 5 true 1 failed_obj (mkThread 0 (AddrAdd 5 false)))) = O /\
  pc (snd (next 5 true 1 failed_obj (mkThread 0 (AddrAdd 5 false)))) <> Ret 0.
Proof.
  apply (vref_stays_failed 5 ltac:(lia)
           (length (whole 0 CCreate 4 ++ whole 0 (CAddress 5 false) 1 ++ whole 0 CSetFailed 6))
           (length [DoCall 1 (CAddress 5 false)]) 2 5
           (failed_obj, [mkThread 1 (Ret 0); mkThread 0 Idle]) failed_obj
           [mkThread 1 (Ret 0); mkThread 0 (AddrAdd 5 false)] 1 (mkThread 0 (AddrAdd 5 false))).
  - apply schedule_exec. vm_compute. reflexivity.
  - apply schedule_exec. vm_compute. reflexivity.
  - vm_compute. reflexivity.
  - vm_compute. reflexivity.
  - reflexivity.
  - reflexivity.
Defined.

(** [MakeVRef] and [MakeVRefId] lose nothing. *)
Theorem vref_pack_roundtrip (version nref slot : Z) :
  0 <= version < 2 ^ 32 -> - 2 ^ 31 <= nref < 2 ^ 31 -> 0 <= slot < 2 ^ 32 ->
  VersionOfVRef (MakeVRef version nref) = version /\ NRefOfVRef (MakeVRef version nref) = nref /\
  VersionOfVRefId (MakeVRefId version slot) = version /\
  SlotOfVRefId (MakeVRefId version slot) = slot.
Proof.
  intros Hv Hn Hs. unfold MakeVRef, MakeVRefId. assert (Hu := uint32_range nref).
  rewrite !pack_word by done. split; [by apply version_word|]. split.
  - unfold NRefOfVRef. rewrite low_word by done. by apply int32_of_uint32.
  - split; [by apply version_word|]. by apply low_word.
Qed.

(** [Revive] makes a failed object addressable again and puts the additional
    reference back. *)
Theorem revive_readdresses (slot b N at_least_nref : Z) (o : vobj) :
  0 <= slot < 2 ^ 32 -> 0 <= 2 * b + 1 < 2 ^ 32 -> 0 <= N < 2 ^ 31 - 1 -> at_least_nref <= N ->
  vo_versioned_ref o = word (2 * b + 1) N -> vo_this_id o = mkid slot (2 * b) ->
  exists o', Revive o at_least_nref = Ok o' /\ Failed o' = false /\ nref o' = N + 1 /\
    vo_status o' = ADDITIONAL_REF_USING.
Proof.
  intros Hs Hb HN Hat Hw Hid. unfold Revive.
  rewrite Hw, Hid, version_mkid, version_word, nref_word, uint32_id by lia.
  rewrite Z.eqb_refl. cbn [negb]. destruct (Z.ltb_spec N at_least_nref); [lia|].
  rewrite exact_fits by (unfold in_ity; change (imin int32) with (- 2 ^ 31); change (imax int32) with (2 ^ 31 - 1); lia).
  cbn [mbind outcome_bind]. unfold cas_ref. cbn [vo_versioned_ref set_status]. rewrite Hw, Z.eqb_refl.
  eexists. split; [reflexivity|]. rewrite MakeVRef_word by lia. unfold Failed, nref.
  cbn [vo_versioned_ref vo_this_id set_status set_ref vo_status].
  rewrite Hid, version_word, version_mkid, nref_word, Z.eqb_refl by lia. done.
Qed.

(** The only reference goes with [SetFailedById]: the slot is free again. *)
Example set_failed_by_id :
  SetFailedById 5 0 (mkObj 1 5 ADDITIONAL_REF_USING LLive [5]) (mkThread 0 Idle) 5 =
  Ok (mkObj (2 * 2 ^ 32) 5 ADDITIONAL_REF_RECYCLED LFree [5], mkThread 0 (Ret 1), 0).
Proof. vm_compute. reflexivity. Qed.
