(* ===== verification/LinkedList.v ===== *)
(** * Intrusive doubly linked lists (libsh/butil/containers/linked_list.h)

    A [LinkNode] lives inside the object it links; the list owns nothing.  The
    memory maps the address of a node to its [previous_] link and to its
    [next_] link; an address without a node is a fault.  A list is the node
    [root_].

    [ring h r l]: starting at [r] the links run through the nodes [l] and back
    to [r], forward and backward.  The same ring can be entered at any of its
    nodes ([ring_rotate]), so every operation is specified at the node it is
    applied to. *)

From Stdlib Require Import ZArith Lia.
From stdpp Require Import base list gmap.
From S2P Require Import Prelude.

Open Scope nat_scope.

Notation addr := nat (only parsing).

Record memory : Type := mkMemory {
  previous_ : gmap addr addr;
  next_ : gmap addr addr
}.

Implicit Types (h : memory) (a b c e r this : addr) (l m : list addr).

(** ** LinkNode *)

Definition load (links : gmap addr addr) (a : addr) : outcome addr :=
  match links !! a with Some x => Ok x | None => Fault OutOfRange end.

Definition previous (h : memory) (a : addr) : outcome addr := load (previous_ h) a.
Definition next (h : memory) (a : addr) : outcome addr := load (next_ h) a.

Definition set_previous (h : memory) (a v : addr) : outcome memory :=
  _ ← previous h a; Ok (mkMemory (<[a := v]> (previous_ h)) (next_ h)).
Definition set_next (h : memory) (a v : addr) : outcome memory :=
  _ ← next h a; Ok (mkMemory (previous_ h) (<[a := v]> (next_ h))).

(** A new node at a free address is linked with itself. *)
Definition LinkNode_ctor (h : memory) (this : addr) : memory :=
  mkMemory (<[this := this]> (previous_ h)) (<[this := this]> (next_ h)).
Definition LinkNode_ctor_links (h : memory) (this p n : addr) : memory :=
  mkMemory (<[this := p]> (previous_ h)) (<[this := n]> (next_ h)).

Definition InsertBefore (h : memory) (this e : addr) : outcome memory :=
  h1 ← set_next h this e;
  p ← previous h1 e;
  h2 ← set_previous h1 this p;
  p' ← previous h2 e;
  h3 ← set_next h2 p' this;
  set_previous h3 e this.

Definition InsertBeforeAsList (h : memory) (this e : addr) : outcome memory :=
  prev ← previous h this;
  h1 ← set_next h prev e;
  p ← previous h1 e;
  h2 ← set_previous h1 this p;
  p' ← previous h2 e;
  h3 ← set_next h2 p' this;
  set_previous h3 e prev.

Definition InsertAfter (h : memory) (this e : addr) : outcome memory :=
  n ← next h e;
  h1 ← set_next h this n;
  h2 ← set_previous h1 this e;
  n' ← next h2 e;
  h3 ← set_previous h2 n' this;
  set_next h3 e this.

Definition InsertAfterAsList (h : memory) (this e : addr) : outcome memory :=
  prev ← previous h this;
  n ← next h e;
  h1 ← set_next h prev n;
  h2 ← set_previous h1 this e;
  n' ← next h2 e;
  h3 ← set_previous h2 n' prev;
  set_next h3 e this.

Definition RemoveFromList (h : memory) (this : addr) : outcome memory :=
  p ← previous h this;
  n ← next h this;
  h1 ← set_next h p n;
  n' ← next h1 this;
  p' ← previous h1 this;
  h2 ← set_previous h1 n' p';
  h3 ← set_next h2 this this;
  set_previous h3 this this.

(** ** LinkedList *)

Definition LinkedList_ctor (h : memory) (root_ : addr) : memory := LinkNode_ctor h root_.
Definition Append (h : memory) (root_ e : addr) : outcome memory := InsertBefore h e root_.
Definition Prepend (h : memory) (root_ e : addr) : outcome memory := InsertAfter h e root_.
Definition head (h : memory) (root_ : addr) : outcome addr := next h root_.
Definition tail (h : memory) (root_ : addr) : outcome addr := previous h root_.
Definition end_ (root_ : addr) : addr := root_.
Definition empty (h : memory) (root_ : addr) : outcome bool :=
  x ← head h root_; Ok (bool_decide (x = end_ root_)).

(** ** Rings *)

Definition links (h : memory) (a b : addr) : Prop :=
  next_ h !! a = Some b /\ previous_ h !! b = Some a.

Fixpoint seg (h : memory) (a : addr) (l : list addr) : Prop :=
  match l with [] => True | x :: l => links h a x /\ seg h x l end.

Definition ring (h : memory) (r : addr) (l : list addr) : Prop :=
  NoDup (r :: l) /\ seg h r l /\ links h (lst r l) r.

Lemma seg_app h a l m : seg h a (l ++ m) <-> seg h a l /\ seg h (lst a l) m.
Proof.
  revert a. induction l as [|x l IH]; intros a; cbn; [tauto|]. rewrite IH. tauto.
Qed.

Lemma seg_frame h h' a l :
  NoDup (a :: l) ->
  (forall c, c ∈ a :: l -> c <> lst a l -> next_ h' !! c = next_ h !! c) ->
  (forall c, c ∈ l -> previous_ h' !! c = previous_ h !! c) -> seg h a l -> seg h' a l.
Proof.
  revert a. induction l as [|x l IH]; intros a Hnd Hn Hp; [done|]. cbn. intros [[Ha Hx] Hs].
  apply NoDup_cons in Hnd as [Hna Hnd]. split; [split|].
  - rewrite Hn; [done|by left|]. cbn. intros E. apply Hna. rewrite E. apply lst_in.
  - rewrite Hp; [done|by left].
  - apply IH; [done| |intros c Hc; apply Hp; by right|done].
    intros c Hc Hne. apply Hn; [by right|done].
Qed.

Lemma ring_rotate h r l x m : ring h r (l ++ x :: m) -> ring h x (m ++ r :: l).
Proof.
  intros (Hnd & Hs & Hl). split.
  - assert (Hp : x :: m ++ r :: l ≡ₚ r :: l ++ x :: m) by solve_Permutation. by rewrite Hp.
  - rewrite seg_app in *. cbn in Hs. destruct Hs as (Hs & Hx & Hm).
    rewrite lst_app in Hl. cbn in Hl. split; [split; [done|]|].
    + by split.
    + by rewrite lst_app.
Qed.

(** Two disjoint paths joined to a ring. *)
Lemma ring_join h h' r l x m :
  NoDup (r :: l) -> seg h r l -> NoDup (x :: m) -> seg h x m -> (forall c, c ∈ r :: l -> c ∉ x :: m) ->
  (forall c, c <> lst r l -> c <> lst x m -> next_ h' !! c = next_ h !! c) ->
  (forall c, c <> r -> c <> x -> previous_ h' !! c = previous_ h !! c) ->
  links h' (lst r l) x -> links h' (lst x m) r -> ring h' r (l ++ x :: m).
Proof.
  intros Hnd Hs Hnd' Hs' Hdis Hn Hp Hx Hr. split; [|split].
  - change (NoDup ((r :: l) ++ x :: m)). apply NoDup_app. auto.
  - rewrite seg_app. split; [|split; [done|]].
    + apply (seg_frame h); [done| | |done].
      * intros c Hc Hne. apply Hn; [done|]. intros ->. apply (Hdis _ Hc), lst_in.
      * apply NoDup_cons in Hnd as [Hnr _]. intros c Hc. apply Hp; [by intros ->|].
        intros ->. apply (Hdis x); [by right|by left].
    + apply (seg_frame h); [done| | |done].
      * intros c Hc Hne. apply Hn; [|done]. intros ->. apply (Hdis (lst r l)); [apply lst_in|done].
      * apply NoDup_cons in Hnd' as [Hnx _]. intros c Hc. apply Hp; [|by intros ->].
        intros ->. apply (Hdis r); [by left|by right].
  - by rewrite lst_app.
Qed.

(** A node on its own. *)
Definition alone (h : memory) (a : addr) : Prop := ring h a [].

Lemma ring_load h r l :
  ring h r l -> previous h r = Ok (lst r l) /\ next h (lst r l) = Ok r /\
  previous h (List.hd r l) = Ok r /\ next h r = Ok (List.hd r l).
Proof.
  intros (_ & Hs & Hn & Hp). unfold previous, next, load. rewrite Hn, Hp.
  destruct l as [|x l]; cbn in *; [by rewrite Hn, Hp|]. by destruct Hs as [[-> ->] _].
Qed.

(** The four writes that put the path from [this] to [z] between [y] and [e]. *)
Definition spliced (h : memory) (this z y e : addr) : memory :=
  mkMemory (<[e := z]> (<[this := y]> (previous_ h))) (<[y := this]> (<[z := e]> (next_ h))).

Lemma spliced_ring h this m e l :
  ring h e l -> NoDup (this :: m) -> seg h this m -> (forall c, c ∈ e :: l -> c ∉ this :: m) ->
  ring (spliced h this (lst this m) (lst e l) e) e (l ++ this :: m).
Proof.
  intros (Hnd & Hs & _) Hnd' Hs' Hdis.
  assert (Hne : e <> this) by (intros ->; apply (Hdis this); by left).
  assert (Hne' : lst e l <> lst this m).
  { intros E. apply (Hdis (lst e l)); [apply lst_in|]. rewrite E. apply lst_in. }
  apply (ring_join h); try done; unfold spliced; cbn.
  - intros c Hc Hc'. by rewrite !lookup_insert_ne by done.
  - intros c Hc Hc'. by rewrite !lookup_insert_ne by done.
  - split; cbn; [by rewrite lookup_insert_eq|]. by rewrite lookup_insert_ne, lookup_insert_eq.
  - split; cbn; [by rewrite lookup_insert_ne, lookup_insert_eq|]. by rewrite lookup_insert_eq.
Qed.

(** [this] is a node; its links do not matter. *)
Definition allocated (h : memory) (a : addr) : Prop :=
  is_Some (previous_ h !! a) /\ is_Some (next_ h !! a).

Lemma ring_allocated h r l c : ring h r l -> c ∈ r :: l -> allocated h c.
Proof.
  intros Hr Hc. assert (Hx : exists l', ring h c l').
  { apply elem_of_cons in Hc as [->|Hc]; [by exists l|].
    apply list_elem_of_split in Hc as (l1 & l2 & ->). exists (l2 ++ r :: l1). by apply ring_rotate. }
  destruct Hx as (l' & _ & Hs & Hn & Hp). split; [by eexists|].
  destruct l' as [|x l']; [by eexists|]. destruct Hs as [[Hx _] _]. by eexists.
Qed.

Lemma InsertBefore_spec h this e l :
  ring h e l -> allocated h this -> this ∉ e :: l ->
  InsertBefore h this e = Ok (spliced h this this (lst e l) e).
Proof.
  intros Hr [[p Hp] [n Hn]] Hni. destruct (ring_load h e l Hr) as (Hpe & _).
  assert (e <> this) by (intros ->; apply Hni; by left).
  assert (Hy : lst e l <> this) by (intros E; apply Hni; rewrite <- E; apply lst_in).
  destruct (ring_allocated h e l (lst e l) Hr (lst_in _ _)) as [_ [n' Hn']].
  assert (Hpe' : previous_ h !! e = Some (lst e l)) by (destruct Hr as (_ & _ & _ & ?); done).
  unfold InsertBefore, set_next, set_previous, previous, next, load.
  cbn. rewrite Hn. cbn. rewrite Hpe'. cbn. rewrite Hp. cbn.
  rewrite lookup_insert_ne, Hpe' by done. cbn. rewrite lookup_insert_ne, Hn' by done. cbn.
  rewrite lookup_insert_ne, Hpe' by done. done.
Qed.

Lemma InsertBeforeAsList_spec h this m e l :
  ring h e l -> ring h this m -> (forall c, c ∈ e :: l -> c ∉ this :: m) ->
  InsertBeforeAsList h this e = Ok (spliced h this (lst this m) (lst e l) e).
Proof.
  intros Hr Hr' Hdis. destruct Hr as (Hnd & Hs & Hln & Hlp), Hr' as (Hnd' & Hs' & Hln' & Hlp').
  assert (e <> this) by (intros ->; apply (Hdis this); by left).
  assert (lst e l <> lst this m).
  { intros E. apply (Hdis (lst e l)); [apply lst_in|]. rewrite E. apply lst_in. }
  unfold InsertBeforeAsList, set_next, set_previous, previous, next, load.
  cbn. rewrite Hlp'. cbn. rewrite Hln'. cbn. rewrite Hlp. cbn. rewrite Hlp'. cbn.
  rewrite lookup_insert_ne, Hlp by done. cbn. rewrite lookup_insert_ne, Hln by done. cbn.
  rewrite lookup_insert_ne, Hlp by done. done.
Qed.

(** After [e] is before the node that follows [e]. *)
Lemma InsertAfter_spec h this e l :
  ring h e l -> allocated h this -> this ∉ e :: l ->
  InsertAfter h this e = Ok (spliced h this this e (List.hd e l)).
Proof.
  intros Hr [[p Hp] [n Hn]] Hni. destruct (ring_load h e l Hr) as (_ & _ & Hpx & Hne).
  unfold previous, next, load in Hpx, Hne.
  destruct (next_ h !! e) as [x|] eqn:Ex; [|done]. injection Hne as ->.
  set (x := List.hd e l) in *. destruct (previous_ h !! x) as [y|] eqn:Ey; [|done].
  injection Hpx as ->.
  assert (e <> this) by (intros ->; apply Hni; by left).
  assert (x <> this).
  { intros E. apply Hni. rewrite <- E. subst x. destruct l; cbn; [by left|right; by left]. }
  unfold InsertAfter, set_next, set_previous, previous, next, load.
  rewrite Ex. cbn. rewrite Hn. cbn. rewrite Hp. cbn.
  rewrite lookup_insert_ne, Ex by done. cbn. rewrite lookup_insert_ne, Ey by done. cbn.
  rewrite lookup_insert_ne, Ex by done. done.
Qed.

Lemma InsertAfterAsList_spec h this m e l :
  ring h e l -> ring h this m -> (forall c, c ∈ e :: l -> c ∉ this :: m) ->
  InsertAfterAsList h this e = Ok (spliced h this (lst this m) e (List.hd e l)).
Proof.
  intros Hr Hr' Hdis. destruct (ring_load h e l Hr) as (_ & _ & Hpx & Hne).
  unfold previous, next, load in Hpx, Hne.
  destruct (next_ h !! e) as [x|] eqn:Ex; [|done]. injection Hne as ->.
  set (x := List.hd e l) in *. destruct (previous_ h !! x) as [y|] eqn:Ey; [|done].
  injection Hpx as ->.
  assert (Hxl : x ∈ e :: l) by (subst x; destruct l; cbn; [by left|right; by left]).
  destruct Hr' as (_ & _ & Hln' & Hlp').
  assert (x <> this) by (intros E; apply (Hdis x); [done|rewrite E; by left]).
  assert (e <> lst this m) by (intros E; apply (Hdis e); [by left|rewrite E; apply lst_in]).
  unfold InsertAfterAsList, set_next, set_previous, previous, next, load.
  rewrite Hlp'. cbn. rewrite Ex. cbn. rewrite Hln'. cbn. rewrite Hlp'. cbn.
  rewrite lookup_insert_ne, Ex by done. cbn. rewrite lookup_insert_ne, Ey by done. cbn.
  rewrite lookup_insert_ne, Ex by done. done.
Qed.

Lemma spliced_after h this m e l :
  ring h e l -> NoDup (this :: m) -> seg h this m -> (forall c, c ∈ e :: l -> c ∉ this :: m) ->
  ring (spliced h this (lst this m) e (List.hd e l)) e (this :: m ++ l).
Proof.
  intros Hr Hnd Hs Hdis. destruct l as [|x l]; cbn.
  - rewrite app_nil_r. by apply (spliced_ring h this m e []).
  - assert (Hr' : ring h x (l ++ [e])) by (by apply (ring_rotate h e [] x l)).
    assert (Hx := spliced_ring h this m x (l ++ [e]) Hr' Hnd Hs).
    rewrite lst_app in Hx. cbn in Hx. rewrite <- app_assoc in Hx. cbn in Hx.
    apply (ring_rotate _ x l e (this :: m)). apply Hx.
    intros c Hc. apply Hdis. apply elem_of_cons in Hc as [->|Hc]; [right; by left|].
    apply elem_of_app in Hc as [Hc| ->%list_elem_of_singleton]; [right; by right|by left].
Qed.

Definition removed (h : memory) (this p n : addr) : memory :=
  mkMemory (<[this := this]> (<[n := p]> (previous_ h))) (<[this := this]> (<[p := n]> (next_ h))).

Lemma RemoveFromList_spec h this l :
  ring h this l ->
  RemoveFromList h this = Ok (removed h this (lst this l) (List.hd this l)).
Proof.
  intros Hr. destruct (ring_load h this l Hr) as (Hp & Hnl & Hpx & Hn).
  unfold previous, next, load in *. set (p := lst this l) in *. set (n := List.hd this l) in *.
  destruct (previous_ h !! this) as [p'|] eqn:Ep; [|done]. injection Hp as ->.
  destruct (next_ h !! this) as [n'|] eqn:En; [|done]. injection Hn as ->.
  destruct (next_ h !! p) as [x|] eqn:Enp; [|done]. injection Hnl as ->.
  destruct (previous_ h !! n) as [y|] eqn:Epn; [|done]. injection Hpx as ->.
  unfold RemoveFromList, set_next, set_previous, previous, next, load.
  rewrite Ep. cbn. rewrite En. cbn. rewrite Enp. cbn.
  assert (Et : <[p := n]> (next_ h) !! this = Some n).
  { destruct (decide (p = this)) as [E|]; [|by rewrite lookup_insert_ne].
    rewrite E, lookup_insert_eq. subst p. rewrite E in Enp. rewrite En in Enp. done. }
  rewrite Et. cbn. rewrite Ep. cbn. rewrite Epn. cbn. rewrite Et. cbn.
  assert (Et' : is_Some (<[n := p]> (previous_ h) !! this)).
  { destruct (decide (n = this)) as [->|]; [by rewrite lookup_insert_eq|].
    rewrite lookup_insert_ne by done. by eexists. }
  destruct Et' as [z ->]. done.
Qed.

Lemma ring_frame h h' r l :
  ring h r l ->
  (forall c, c ∈ r :: l -> next_ h' !! c = next_ h !! c /\ previous_ h' !! c = previous_ h !! c) ->
  ring h' r l.
Proof.
  intros (Hnd & Hs & Hn & Hp) Hf. split; [done|]. split.
  - apply (seg_frame h); [done| | |done].
    + intros c Hc _. by apply Hf.
    + intros c Hc. apply Hf. by right.
  - split.
    + destruct (Hf (lst r l)) as [-> _]; [apply lst_in|done].
    + destruct (Hf r) as [_ ->]; [by left|done].
Qed.

Lemma removed_alone h this p n : ring (removed h this p n) this [].
Proof.
  split; [apply NoDup_singleton|]. split; [done|].
  split; cbn; by rewrite lookup_insert_eq.
Qed.

Lemma removed_ring h this x l :
  ring h this (x :: l) -> ring (removed h this (lst this (x :: l)) x) x l.
Proof.
  intros (Hnd & [_ Hs] & _). apply NoDup_cons in Hnd as [Hni Hnd]. cbn [lst].
  assert (Hx : x <> this) by (intros ->; apply Hni; by left).
  assert (Hl : lst x l <> this) by (intros E; apply Hni; rewrite <- E; apply lst_in).
  split; [done|]. split.
  - apply (seg_frame h); [done| | |done]; unfold removed; cbn.
    + intros c Hc Hne. rewrite !lookup_insert_ne; [done|done|]. intros ->. done.
    + intros c Hc. rewrite !lookup_insert_ne; [done| |].
      * intros ->. by apply NoDup_cons in Hnd as [? _].
      * intros ->. apply Hni. by right.
  - split; cbn; rewrite lookup_insert_ne by done; by rewrite lookup_insert_eq.
Qed.

(** ** A list and the nodes around it *)

Inductive op : Type :=
| OpAppend (e : addr) | OpPrepend (e : addr)
| OpInsertBefore (e x : addr) | OpInsertAfter (e x : addr)
| OpRemove (e : addr).

Definition run_op (h : memory) (root_ : addr) (o : op) : outcome memory :=
  match o with
  | OpAppend e => Append h root_ e
  | OpPrepend e => Prepend h root_ e
  | OpInsertBefore e x => InsertBefore h e x
  | OpInsertAfter e x => InsertAfter h e x
  | OpRemove e => RemoveFromList h e
  end.

Fixpoint run_ops (h : memory) (root_ : addr) (ops : list op) : outcome memory :=
  match ops with
  | [] => Ok h
  | o :: ops => h' ← run_op h root_ o; run_ops h' root_ ops
  end.

(** Puts [e] before the first [x]. *)
Fixpoint insert_before (e x : addr) (l : list addr) : list addr :=
  match l with
  | [] => []
  | y :: l => if decide (y = x) then e :: y :: l else y :: insert_before e x l
  end.

Fixpoint insert_after (e x : addr) (l : list addr) : list addr :=
  match l with
  | [] => []
  | y :: l => if decide (y = x) then y :: e :: l else y :: insert_after e x l
  end.

Fixpoint remove_node (e : addr) (l : list addr) : list addr :=
  match l with
  | [] => []
  | y :: l => if decide (y = e) then l else y :: remove_node e l
  end.

(** The contract, [None] when the caller breaks it: a node that is inserted is
    one of [nodes] and not in the list, a node that is removed or serves as a
    position is in the list. *)
Definition spec_op (nodes : list addr) (l : list addr) (o : op) : option (list addr) :=
  match o with
  | OpAppend e => if decide (e ∈ nodes /\ e ∉ l) then Some (l ++ [e]) else None
  | OpPrepend e => if decide (e ∈ nodes /\ e ∉ l) then Some (e :: l) else None
  | OpInsertBefore e x =>
      if decide (e ∈ nodes /\ e ∉ l /\ x ∈ l) then Some (insert_before e x l) else None
  | OpInsertAfter e x =>
      if decide (e ∈ nodes /\ e ∉ l /\ x ∈ l) then Some (insert_after e x l) else None
  | OpRemove e => if decide (e ∈ l) then Some (remove_node e l) else None
  end.

Fixpoint spec_ops (nodes : list addr) (l : list addr) (ops : list op) : option (list addr) :=
  match ops with
  | [] => Some l
  | o :: ops => l' ← spec_op nodes l o; spec_ops nodes l' ops
  end.

Lemma insert_before_split e x l1 l2 : x ∉ l1 -> insert_before e x (l1 ++ x :: l2) = l1 ++ e :: x :: l2.
Proof.
  induction l1 as [|y l1 IH]; cbn; intros Hx; [by rewrite decide_True|].
  apply not_elem_of_cons in Hx as [Hne Hx]. rewrite decide_False by congruence. by rewrite IH.
Qed.

Lemma insert_after_split e x l1 l2 : x ∉ l1 -> insert_after e x (l1 ++ x :: l2) = l1 ++ x :: e :: l2.
Proof.
  induction l1 as [|y l1 IH]; cbn; intros Hx; [by rewrite decide_True|].
  apply not_elem_of_cons in Hx as [Hne Hx]. rewrite decide_False by congruence. by rewrite IH.
Qed.

Lemma remove_node_split x l1 l2 : x ∉ l1 -> remove_node x (l1 ++ x :: l2) = l1 ++ l2.
Proof.
  induction l1 as [|y l1 IH]; cbn; intros Hx; [by rewrite decide_True|].
  apply not_elem_of_cons in Hx as [Hne Hx]. rewrite decide_False by congruence. by rewrite IH.
Qed.

(** The list holds [l]; every other node of [nodes] is linked with itself. *)
Record linked (nodes : list addr) (h : memory) (root_ : addr) (l : list addr) : Prop := {
  lk_ring : ring h root_ l;
  lk_sub : forall c, c ∈ l -> c ∈ nodes;
  lk_alone : forall c, c ∈ nodes -> c ∉ l -> ring h c []
}.

Section Refinement.
Context (nodes : list addr) (root_ : addr) (Hroot : root_ ∉ nodes).

Lemma linked_spliced h l e y x l' :
  linked nodes h root_ l -> e ∈ nodes -> e ∉ l -> x ∈ root_ :: l -> y ∈ root_ :: l ->
  l' ≡ₚ e :: l -> ring (spliced h e e y x) root_ l' -> linked nodes (spliced h e e y x) root_ l'.
Proof.
  intros [Hr Hsub Hal] He Hni Hx Hy Hp Hr'.
  assert (Hin : forall c, c ∈ l' <-> c = e \/ c ∈ l) by (intros c; rewrite Hp, elem_of_cons; done).
  split; [done| |].
  - intros c [->|Hc]%Hin; auto.
  - intros c Hc Hcl. assert (Hne : c <> e) by (intros ->; apply Hcl, Hin; by left).
    assert (Hnl : c ∉ root_ :: l).
    { apply not_elem_of_cons. split; [by intros ->|]. intros ?. apply Hcl, Hin. by right. }
    eapply ring_frame; [apply Hal; [done|]|].
    + intros ?. apply Hnl. by right.
    + intros c' ->%list_elem_of_singleton. unfold spliced. cbn.
      rewrite !lookup_insert_ne; [done|..]; congruence.
Qed.

Lemma linked_node h l e : linked nodes h root_ l -> e ∈ nodes -> e ∉ l ->
  allocated h e /\ e ∉ root_ :: l.
Proof.
  intros [Hr Hsub Hal] He Hni. split; [eapply ring_allocated; [by apply Hal|by left]|].
  apply not_elem_of_cons. split; [by intros ->|done].
Qed.

(** Where [x] is in the list: the first occurrence, and the ring seen from it. *)
Lemma linked_at h l x : linked nodes h root_ l -> x ∈ l ->
  exists l1 l2, l = l1 ++ x :: l2 /\ x ∉ l1 /\ ring h x (l2 ++ root_ :: l1).
Proof.
  intros [Hr _ _] Hx. apply list_elem_of_split in Hx as (l1 & l2 & ->). exists l1, l2.
  split; [done|]. split; [|by apply ring_rotate].
  destruct Hr as [Hnd _]. apply NoDup_cons in Hnd as [_ Hnd]. apply NoDup_app in Hnd as (_ & Hd & _).
  intros Hc. apply (Hd x Hc). by left.
Qed.

Lemma single_path h e : NoDup [e] /\ seg h e [].
Proof. split; [apply NoDup_singleton|done]. Qed.

Lemma not_single e (l : list addr) : e ∉ l -> forall c, c ∈ l -> c ∉ [e].
Proof. intros Hni c Hc ->%list_elem_of_singleton. done. Qed.

Lemma list_op_follows h l o l' :
  linked nodes h root_ l -> spec_op nodes l o = Some l' ->
  exists h', run_op h root_ o = Ok h' /\ linked nodes h' root_ l'.
Proof.
  intros Hlk Hs. pose proof Hlk as [Hr Hsub Hal]. destruct o as [e|e|e x|e x|e]; cbn in Hs;
    (destruct (decide _) as [Hd|]; [|done]); simplify_eq; cbn [run_op].
  - destruct Hd as [He Hni]. destruct (linked_node h l e Hlk He Hni) as [Ha Hn].
    unfold Append. rewrite (InsertBefore_spec h e root_ l) by done. eexists. split; [done|].
    apply (linked_spliced h l e); try done; [by left|apply lst_in|by rewrite <- Permutation_cons_append|].
    apply (spliced_ring h e []); try apply (single_path h); [done|by apply not_single].
  - destruct Hd as [He Hni]. destruct (linked_node h l e Hlk He Hni) as [Ha Hn].
    unfold Prepend. rewrite (InsertAfter_spec h e root_ l) by done. eexists. split; [done|].
    apply (linked_spliced h l e); try done; [destruct l; cbn; [by left|right; by left]|by left|].
    apply (spliced_after h e []); try apply (single_path h); [done|by apply not_single].
  - destruct Hd as (He & Hni & Hx). destruct (linked_at h l x Hlk Hx) as (l1 & l2 & -> & Hx1 & Hrx).
    destruct (linked_node h _ e Hlk He Hni) as [Ha Hn].
    assert (Hn' : e ∉ x :: l2 ++ root_ :: l1).
    { intros Hc. apply Hn. revert Hc. rewrite !elem_of_cons, !elem_of_app, !elem_of_cons. tauto. }
    rewrite (InsertBefore_spec h e x _ Hrx) by done. eexists. split; [done|].
    rewrite insert_before_split by done. rewrite lst_app. cbn [lst].
    assert (Hring := spliced_ring h e [] x _ Hrx (proj1 (single_path h e)) I (not_single _ _ Hn')).
    rewrite lst_app in Hring. cbn [lst] in Hring. rewrite <- app_assoc in Hring. cbn in Hring.
    apply ring_rotate in Hring. rewrite <- app_assoc in Hring.
    apply (linked_spliced h (l1 ++ x :: l2) e); try done.
    + right. apply elem_of_app. right. by left.
    + assert (Hl := lst_in root_ l1). rewrite elem_of_cons in *. rewrite elem_of_app. tauto.
    + solve_Permutation.
  - destruct Hd as (He & Hni & Hx). destruct (linked_at h l x Hlk Hx) as (l1 & l2 & -> & Hx1 & Hrx).
    destruct (linked_node h _ e Hlk He Hni) as [Ha Hn].
    assert (Hn' : e ∉ x :: l2 ++ root_ :: l1).
    { intros Hc. apply Hn. revert Hc. rewrite !elem_of_cons, !elem_of_app, !elem_of_cons. tauto. }
    rewrite (InsertAfter_spec h e x _ Hrx) by done. eexists. split; [done|].
    rewrite insert_after_split by done.
    assert (Hring := spliced_after h e [] x _ Hrx (proj1 (single_path h e)) I (not_single _ _ Hn')).
    cbn [lst app] in Hring. apply (ring_rotate _ x (e :: l2) root_ l1) in Hring.
    apply (linked_spliced h (l1 ++ x :: l2) e); try done.
    + destruct l2 as [|z l2]; cbn; [by left|]. right. apply elem_of_app. right. right. by left.
    + right. apply elem_of_app. right. by left.
    + solve_Permutation.
  - destruct (linked_at h l e Hlk Hd) as (l1 & l2 & -> & Hx1 & Hrx).
    rewrite (RemoveFromList_spec h e _ Hrx). eexists. split; [done|].
    rewrite remove_node_split by done.
    assert (Hnde : e ∉ l1 ++ l2 /\ e <> root_).
    { destruct Hr as [Hnd _].
      assert (Hp : root_ :: l1 ++ e :: l2 ≡ₚ e :: root_ :: l1 ++ l2) by solve_Permutation.
      rewrite Hp in Hnd. apply NoDup_cons in Hnd as [Hnd _].
      apply not_elem_of_cons in Hnd as [? ?]. done. }
    split.
    + destruct l2 as [|x l2].
      * rewrite app_nil_r. by apply (removed_ring h e root_ l1).
      * apply (ring_rotate _ x l2 root_ l1). by apply (removed_ring h e x (l2 ++ root_ :: l1)).
    + intros c Hc. apply Hsub. rewrite elem_of_app in *. rewrite elem_of_cons. tauto.
    + intros c Hc Hcl. destruct (decide (c = e)) as [->|Hne]; [apply removed_alone|].
      assert (Hcl' : c ∉ l1 ++ e :: l2) by (rewrite elem_of_app in *; rewrite elem_of_cons; tauto).
      eapply ring_frame; [by apply Hal|]. intros c' ->%list_elem_of_singleton.
      assert (Hcr : c ∉ e :: l2 ++ root_ :: l1).
      { rewrite elem_of_app in Hcl. rewrite !elem_of_cons, elem_of_app, elem_of_cons.
        intros [|[|[->|]]]; tauto. }
      assert (Hlst := lst_in e (l2 ++ root_ :: l1)).
      unfold removed. cbn. rewrite !lookup_insert_ne; [done|..]; try done.
      * intros E. apply Hcr. destruct l2; cbn in E; rewrite <- E; right; by left.
      * intros E. apply Hcr. by rewrite <- E.
Qed.

Lemma list_ops_follow h l ops l' :
  linked nodes h root_ l -> spec_ops nodes l ops = Some l' ->
  exists h', run_ops h root_ ops = Ok h' /\ linked nodes h' root_ l'.
Proof.
  revert h l. induction ops as [|o ops IH]; intros h l Hlk Hs; cbn in *; [simplify_eq; eauto|].
  destruct (spec_op nodes l o) as [l1|] eqn:E; [|done]. cbn in Hs.
  destruct (list_op_follows h l o l1 Hlk E) as (h1 & -> & Hlk1). cbn. by eapply IH.
Qed.
End Refinement.

(** ** Walking *)

(** [for (n = list.head(); n != list.end(); n = n->next())], and backward. *)
Fixpoint walk_forward (fuel : nat) (h : memory) (root_ x : addr) : outcome (list addr) :=
  match fuel with
  | O => Diverge
  | S fuel =>
      if decide (x = end_ root_) then Ok []
      else y ← next h x; xs ← walk_forward fuel h root_ y; Ok (x :: xs)
  end.

Fixpoint walk_backward (fuel : nat) (h : memory) (root_ x : addr) : outcome (list addr) :=
  match fuel with
  | O => Diverge
  | S fuel =>
      if decide (x = end_ root_) then Ok []
      else y ← previous h x; xs ← walk_backward fuel h root_ y; Ok (x :: xs)
  end.

Lemma walk_forward_spec h r a l fuel :
  r ∉ l -> seg h a l -> next_ h !! lst a l = Some r -> (length l < fuel)%nat ->
  (y ← next h a; walk_forward fuel h r y) = Ok l.
Proof.
  revert a fuel. induction l as [|x l IH]; intros a fuel Hr Hs Hl Hf; cbn in *.
  - unfold next, load. rewrite Hl. cbn. destruct fuel; [lia|]. cbn. by rewrite decide_True.
  - destruct Hs as [[Ha _] Hs]. apply not_elem_of_cons in Hr as [Hne Hr].
    unfold next at 1, load. rewrite Ha. cbn. destruct fuel as [|fuel]; [lia|]. cbn.
    unfold end_. rewrite decide_False by congruence.
    assert (E := IH x fuel Hr Hs Hl ltac:(lia)).
    destruct (next h x) as [y| |]; cbn in *; [|done..].
    destruct (walk_forward fuel h r y); cbn in *; [|done..]. by simplify_eq.
Qed.

Lemma walk_backward_spec h r l fuel :
  r ∉ l -> seg h r l -> (length l < fuel)%nat ->
  walk_backward fuel h r (lst r l) = Ok (rev l).
Proof.
  revert fuel. induction l as [|x l IH] using rev_ind; intros fuel Hr Hs Hf; cbn.
  - destruct fuel; [lia|]. cbn. by rewrite decide_True.
  - rewrite seg_app in Hs. destruct Hs as (Hs & [[_ Hp] _]). rewrite lst_app. cbn.
    rewrite elem_of_app, list_elem_of_singleton in Hr. rewrite length_app in Hf. cbn in Hf.
    destruct fuel as [|fuel]; [lia|]. cbn. unfold end_. rewrite decide_False by (intros ->; tauto).
    unfold previous, load. rewrite Hp. cbn. rewrite IH by (tauto || lia). cbn.
    by rewrite rev_app_distr.
Qed.

(** The list head and all nodes freshly constructed. *)
Definition construct (root_ : addr) (nodes : list addr) : memory :=
  foldr (fun a h => LinkNode_ctor h a) (LinkedList_ctor (mkMemory ∅ ∅) root_) nodes.

Lemma construct_alone root_ nodes c : c ∈ root_ :: nodes -> ring (construct root_ nodes) c [].
Proof.
  intros Hc. split; [apply NoDup_singleton|]. split; [done|]. unfold construct, links. cbn.
  induction nodes as [|x nodes IH]; cbn.
  - apply list_elem_of_singleton in Hc as ->. by rewrite !lookup_insert_eq.
  - destruct (decide (c = x)) as [->|Hne]; [by rewrite !lookup_insert_eq|].
    rewrite !lookup_insert_ne by done. apply IH.
    rewrite !elem_of_cons in *. tauto.
Qed.

(** ** Properties *)

(** C35. Lists stay well formed: each operation on a node that belongs to a ring
    gives rings again.  Inserting a node or a whole ring before or after [e]
    puts it there, removing a node leaves the others in their order and the
    node linked with itself. *)
Theorem ring_operations (h : memory) (this e : addr) (l m : list addr) :
  ring h e l -> ring h this m -> (forall c, c ∈ e :: l -> c ∉ this :: m) ->
  (exists h1, InsertBeforeAsList h this e = Ok h1 /\ ring h1 e (l ++ this :: m)) /\
  (exists h2, InsertAfterAsList h this e = Ok h2 /\ ring h2 e (this :: m ++ l)) /\
  (exists h3, InsertBefore h this e = Ok h3 /\ ring h3 e (l ++ [this])) /\
  (exists h4, InsertAfter h this e = Ok h4 /\ ring h4 e (this :: l)) /\
  (exists h5, RemoveFromList h this = Ok h5 /\ ring h5 this [] /\
     match m with [] => True | x :: m => ring h5 x m end).
Proof.
  intros Hr Hr' Hdis. pose proof Hr' as (Hnd & Hs & _).
  assert (Hni : this ∉ e :: l) by (intros Hc; apply (Hdis this Hc); by left).
  assert (Ha : allocated h this) by (eapply ring_allocated; [exact Hr'|by left]).
  destruct (single_path h this) as [H1 H2].
  split; [|split; [|split; [|split]]].
  - rewrite (InsertBeforeAsList_spec h this m e l) by done. eexists. split; [done|].
    by apply spliced_ring.
  - rewrite (InsertAfterAsList_spec h this m e l) by done. eexists. split; [done|].
    by apply spliced_after.
  - rewrite (InsertBefore_spec h this e l) by done. eexists. split; [done|].
    apply (spliced_ring h this []); try done. by apply not_single.
  - rewrite (InsertAfter_spec h this e l) by done. eexists. split; [done|].
    apply (spliced_after h this []); try done. by apply not_single.
  - rewrite (RemoveFromList_spec h this m Hr'). eexists. split; [done|].
    split; [apply removed_alone|]. destruct m as [|x m]; [done|]. by apply removed_ring.
Qed.

(** C12. A list and its nodes behave as a sequence: after any operations that
    insert nodes that are in no list and remove nodes that are in this one,
    walking from [head] sees the nodes of the sequence, walking back from
    [tail] sees them in reverse, both walks end, [empty] is right, and every
    other node is linked with itself. *)
Theorem linked_list_refines (root_ : addr) (nodes : list addr) (ops : list op) (l : list addr) :
  root_ ∉ nodes -> spec_ops nodes [] ops = Some l ->
  exists h x y,
    run_ops (construct root_ nodes) root_ ops = Ok h /\
    head h root_ = Ok x /\ walk_forward (S (length l)) h root_ x = Ok l /\
    tail h root_ = Ok y /\ walk_backward (S (length l)) h root_ y = Ok (rev l) /\
    empty h root_ = Ok (bool_decide (l = [])) /\
    forall c, c ∈ nodes -> c ∉ l -> next h c = Ok c /\ previous h c = Ok c.
Proof.
  intros Hroot Hs.
  assert (H0 : linked nodes (construct root_ nodes) root_ []).
  { split; [by apply construct_alone; left| |].
    - by intros c ?%elem_of_nil.
    - intros c Hc _. apply construct_alone. by right. }
  destruct (list_ops_follow nodes root_ Hroot _ [] ops l H0 Hs) as (h & E & [Hr Hsub Hal]).
  destruct (ring_load h root_ l Hr) as (Hp & _ & _ & Hn).
  pose proof Hr as (Hnd & Hseg & Hlast & _). apply NoDup_cons in Hnd as [Hni Hnd].
  exists h, (List.hd root_ l), (lst root_ l). split; [done|]. split; [done|]. split.
  { assert (W := walk_forward_spec h root_ root_ l (S (length l)) Hni Hseg Hlast ltac:(lia)).
    by rewrite Hn in W. }
  split; [done|]. split; [apply walk_backward_spec; [done|done|lia]|]. split.
  - unfold empty, head. rewrite Hn. cbn. f_equal. apply bool_decide_ext. unfold end_.
    destruct l as [|z l]; cbn; [done|]. split; [|done]. intros ->. exfalso. apply Hni. by left.
  - intros c Hc Hcl. destruct (ring_load h c [] (Hal c Hc Hcl)) as (? & ? & _). done.
Qed.

Lemma ring_operations_witness :
  ring (construct 0 [1]) 0 [] /\ ring (construct 0 [1]) 1 [] /\
  exists h1, InsertBeforeAsList (construct 0 [1]) 1 0 = Ok h1 /\ ring h1 0 [1].
Proof.
  assert (H0 : ring (construct 0 [1]) 0 []) by (apply construct_alone; by left).
  assert (H1 : ring (construct 0 [1]) 1 []) by (apply construct_alone; right; by left).
  split; [done|]. split; [done|].
  apply (ring_operations (construct 0 [1]) 1 0 [] [] H0 H1).
  by intros c ->%list_elem_of_singleton ?%list_elem_of_singleton.
Defined.

Lemma linked_list_refines_witness :
  exists h x y,
    run_ops (construct 0 [1; 2; 3]) 0
      [OpAppend 1; OpPrepend 2; OpInsertBefore 3 1; OpRemove 2; OpInsertAfter 2 3] = Ok h /\
    head h 0 = Ok x /\ walk_forward 4 h 0 x = Ok [3; 2; 1] /\
    tail h 0 = Ok y /\ walk_backward 4 h 0 y = Ok [1; 2; 3] /\
    empty h 0 = Ok (bool_decide ([3; 2; 1] = [])) /\
    forall c, c ∈ [1; 2; 3] -> c ∉ [3; 2; 1] -> next h c = Ok c /\ previous h c = Ok c.
Proof.
  apply (linked_list_refines 0 [1; 2; 3]
           [OpAppend 1; OpPrepend 2; OpInsertBefore 3 1; OpRemove 2; OpInsertAfter 2 3] [3; 2; 1]).
  - rewrite !elem_of_cons, elem_of_nil. lia.
  - vm_compute. reflexivity.
Defined.
