(* ===== verification/MruCache.v ===== *)
(** * The most-recently-used cache (libsh/butil/containers/mru_cache.h)

    [MRUCacheBase] keeps its entries in a [std::list] in the order of their last
    use and an index from keys to iterators of that list.  A node of the list
    has an identity that survives splicing: an iterator is the identity of its
    node or the end.  A reverse iterator is the iterator it is based on.  The
    payloads handed to [deletor_] are recorded in [deleted]. *)

From Stdlib Require Import ZArith Lia.
From stdpp Require Import base list gmap.
From S2P Require Import Prelude Numerics BoundedQueue.

Open Scope Z_scope.

Inductive list_iterator : Type := At (id : nat) | End.

#[export] Instance list_iterator_eq_dec : EqDecision list_iterator.
Proof. solve_decision. Defined.

(** ** std::list *)

Section StdList.
Context {A : Type}.
Implicit Types l : list (nat * A).

Definition list_begin (l : list (nat * A)) : list_iterator :=
  match l with [] => End | (id, _) :: _ => At id end.

(** The element at an iterator. *)
Fixpoint list_get (l : list (nat * A)) (id : nat) : option A :=
  match l with
  | [] => None
  | (id', a) :: l => if decide (id' = id) then Some a else list_get l id
  end.

(** [l.erase(it)]: the rest and the iterator that follows. *)
Fixpoint list_erase (l : list (nat * A)) (id : nat) : list (nat * A) * list_iterator :=
  match l with
  | [] => ([], End)
  | (id', a) :: l =>
      if decide (id' = id) then (l, list_begin l)
      else let '(l', it) := list_erase l id in ((id', a) :: l', it)
  end.

(** [l.splice(l.begin(), l, it)] *)
Definition list_splice_front (l : list (nat * A)) (id : nat) : list (nat * A) :=
  match list_get l id with
  | Some a => (id, a) :: fst (list_erase l id)
  | None => l
  end.

(** [--it]: the end is preceded by the last node. *)
Fixpoint list_prev (l : list (nat * A)) (it : list_iterator) : outcome list_iterator :=
  match l with
  | [] => Fault OutOfRange
  | (id, _) :: l' =>
      if decide (list_begin l' = it) then Ok (At id) else list_prev l' it
  end.
End StdList.

Record MRUCache (K P : Type) `{Countable K} : Type := mkCache {
  ordering_ : list (nat * (K * P));
  index_ : gmap K nat;
  max_size_ : Z;
  deleted : list P;
  fresh_id : nat
}.
Arguments mkCache {K P _ _}.
Arguments ordering_ {K P _ _}.
Arguments index_ {K P _ _}.
Arguments max_size_ {K P _ _}.
Arguments deleted {K P _ _}.
Arguments fresh_id {K P _ _}.

Section Cache.
Context {K P : Type} `{Countable K}.
Notation cache := (MRUCache K P).

Definition NO_AUTO_EVICT : Z := 0.

Definition MRUCacheBase_ctor (max_size : Z) : cache := mkCache [] ∅ max_size [] 0.
Definition MRUCacheBase_ctor_deletor (max_size : Z) : cache := mkCache [] ∅ max_size [] 0.

Definition max_size (c : cache) : Z := max_size_ c.
Definition begin_ (c : cache) : list_iterator := list_begin (ordering_ c).
Definition end_ (c : cache) : list_iterator := End.
Definition rbegin (c : cache) : list_iterator := End.
Definition rend (c : cache) : list_iterator := list_begin (ordering_ c).
Definition empty (c : cache) : bool := bool_decide (ordering_ c = []).

(** [index_.size()]; the debug check compares it with the list. *)
Definition size (c : cache) : Z := Z.of_nat (base.size (index_ c)).

Definition Erase (c : cache) (pos : list_iterator) : outcome (cache * list_iterator) :=
  match pos with
  | End => Fault OutOfRange
  | At id =>
      match list_get (ordering_ c) id with
      | None => Fault OutOfRange
      | Some (k, p) =>
          let '(l, following) := list_erase (ordering_ c) id in
          Ok (mkCache l (delete k (index_ c)) (max_size_ c) (deleted c ++ [p]) (fresh_id c), following)
      end
  end.

(** [reverse_iterator(Erase((++pos).base()))] *)
Definition Erase_reverse (c : cache) (pos : list_iterator) : outcome (cache * list_iterator) :=
  it ← list_prev (ordering_ c) pos; Erase c it.

(** [for (i = size(); i > new_size; i--) Erase(rbegin());] *)
Fixpoint shrink_loop (n : nat) (c : cache) : outcome cache :=
  match n with
  | O => Ok c
  | S n => '(c', _) ← Erase_reverse c (rbegin c); shrink_loop n c'
  end.

Definition ShrinkToSize (c : cache) (new_size : Z) : outcome cache :=
  shrink_loop (Z.to_nat (size c - new_size)) c.

Definition Put (c : cache) (key : K) (payload : P) : outcome (cache * list_iterator) :=
  c' ← match index_ c !! key with
       | Some id => '(c', _) ← Erase c (At id); Ok c'
       | None =>
           if negb (max_size_ c =? NO_AUTO_EVICT) then ShrinkToSize c (u64 (max_size_ c - 1)) else Ok c
       end;
  let id := fresh_id c' in
  Ok (mkCache ((id, (key, payload)) :: ordering_ c')
        (match index_ c' !! key with Some _ => index_ c' | None => <[key := id]> (index_ c') end)
        (max_size_ c') (deleted c') (S id), At id).

Definition Get (c : cache) (key : K) : cache * list_iterator :=
  match index_ c !! key with
  | None => (c, end_ c)
  | Some id =>
      let l := list_splice_front (ordering_ c) id in
      (mkCache l (index_ c) (max_size_ c) (deleted c) (fresh_id c), list_begin l)
  end.

Definition Peek (c : cache) (key : K) : list_iterator :=
  match index_ c !! key with None => end_ c | Some id => At id end.
Definition Peek_const (c : cache) (key : K) : list_iterator :=
  match index_ c !! key with None => end_ c | Some id => At id end.

Definition Clear (c : cache) : cache :=
  mkCache [] ∅ (max_size_ c) (deleted c ++ (snd ∘ snd <$> ordering_ c)) (fresh_id c).

(** The destructor erases from the front. *)
Fixpoint destroy_loop (fuel : nat) (c : cache) (i : list_iterator) : outcome cache :=
  match fuel with
  | O => Diverge
  | S fuel =>
      if decide (i = end_ c) then Ok c
      else '(c', i') ← Erase c i; destroy_loop fuel c' i'
  end.

Definition MRUCacheBase_dtor (c : cache) : outcome cache :=
  destroy_loop (S (length (ordering_ c))) c (begin_ c).

(** What a user reads through an iterator. *)
Definition deref (c : cache) (it : list_iterator) : option (K * P) :=
  match it with End => None | At id => list_get (ordering_ c) id end.
End Cache.

(** ** Lemmas on std::list *)

Section StdListLemmas.
Context {A : Type}.
Implicit Types l : list (nat * A).

Lemma list_get_middle l1 id a l2 : id ∉ l1.*1 → list_get (l1 ++ (id, a) :: l2) id = Some a.
Proof.
  induction l1 as [|[i x] l1 IH]; cbn; intros Hni.
  - by rewrite decide_True.
  - rewrite decide_False by set_solver. apply IH. set_solver.
Qed.

Lemma list_erase_middle l1 id a l2 :
  id ∉ l1.*1 → list_erase (l1 ++ (id, a) :: l2) id = (l1 ++ l2, list_begin l2).
Proof.
  induction l1 as [|[i x] l1 IH]; cbn; intros Hni.
  - by rewrite decide_True.
  - rewrite decide_False by set_solver. by rewrite IH by set_solver.
Qed.

Lemma list_prev_middle l1 id a l2 :
  NoDup (l1 ++ (id, a) :: l2).*1 → list_prev (l1 ++ (id, a) :: l2) (list_begin l2) = Ok (At id).
Proof.
  induction l1 as [|[i x] l1 IH]; cbn; intros Hnd.
  - by rewrite decide_True.
  - rewrite decide_False; [apply IH; by inversion Hnd|].
    destruct l1 as [|[j y] l1], l2 as [|[k z] l2]; cbn in *; try done;
      rewrite ?fmap_app in Hnd; cbn in Hnd; intros [= ->];
      inversion Hnd as [|?? _ Hnd']; inversion Hnd'; set_solver.
Qed.

Lemma list_splice_middle l1 id a l2 :
  id ∉ l1.*1 → list_splice_front (l1 ++ (id, a) :: l2) id = (id, a) :: l1 ++ l2.
Proof.
  intros Hni. unfold list_splice_front. by rewrite list_get_middle, list_erase_middle.
Qed.
End StdListLemmas.

(** ** The recency list

    The promise of the cache: a list of entries, most recent first. *)

Section Spec.
Context {K P : Type} `{Countable K}.
Notation cache := (MRUCache K P).

Record recency : Type := mkRecency { entries : list (K * P); dropped : list P; bound : Z }.

Definition has_key (k : K) (e : K * P) : Prop := e.1 = k.
#[local] Instance has_key_dec k e : Decision (has_key k e).
Proof. unfold has_key. apply _. Defined.

Definition find_key (k : K) (l : list (K * P)) : option (nat * (K * P)) :=
  list_find (has_key k) l.

(** Keep the first [n] entries; the rest is dropped from the oldest on. *)
Definition spec_shrink (s : recency) (n : nat) : recency :=
  mkRecency (take n (entries s)) (dropped s ++ reverse (drop n (entries s)).*2) (bound s).

Definition spec_erase (s : recency) (i : nat) : recency :=
  mkRecency (take i (entries s) ++ drop (S i) (entries s))
    (dropped s ++ (drop i (take (S i) (entries s))).*2) (bound s).

Definition spec_push (s : recency) (k : K) (p : P) : recency :=
  mkRecency ((k, p) :: entries s) (dropped s) (bound s).

Definition spec_put (s : recency) (k : K) (p : P) : recency :=
  spec_push
    (match find_key k (entries s) with
     | Some (i, _) => spec_erase s i
     | None => if bound s =? 0 then s else spec_shrink s (Z.to_nat (bound s - 1))
     end) k p.

Definition spec_get (s : recency) (k : K) : recency :=
  match find_key k (entries s) with
  | Some (i, e) =>
      mkRecency (e :: take i (entries s) ++ drop (S i) (entries s)) (dropped s) (bound s)
  | None => s
  end.

(** A use of the cache; an erased entry is named by its place in the order of
    recency, from the most or from the least recent one. *)
Inductive mru_op : Type :=
  | OpPut (k : K) (p : P)
  | OpGet (k : K)
  | OpPeek (k : K)
  | OpErase (i : nat)
  | OpEraseOldest
  | OpShrink (n : nat)
  | OpClear.

Definition iter_at (c : cache) (i : nat) : list_iterator :=
  match ordering_ c !! i with Some (id, _) => At id | None => End end.

(** The state after an operation and what its returned iterator refers to. *)
Definition run_op (c : cache) (o : mru_op) : outcome (cache * option (K * P)) :=
  match o with
  | OpPut k p => '(c', it) ← Put c k p; Ok (c', deref c' it)
  | OpGet k => let '(c', it) := Get c k in Ok (c', deref c' it)
  | OpPeek k => Ok (c, deref c (Peek c k))
  | OpErase i => '(c', it) ← Erase c (iter_at c i); Ok (c', deref c' it)
  | OpEraseOldest => '(c', it) ← Erase_reverse c (rbegin c); Ok (c', deref c' it)
  | OpShrink n => c' ← ShrinkToSize c (Z.of_nat n); Ok (c', None)
  | OpClear => Ok (Clear c, None)
  end.

Definition spec_op (s : recency) (o : mru_op) : outcome (recency * option (K * P)) :=
  match o with
  | OpPut k p => Ok (spec_put s k p, Some (k, p))
  | OpGet k => Ok (spec_get s k, snd <$> find_key k (entries s))
  | OpPeek k => Ok (s, snd <$> find_key k (entries s))
  | OpErase i =>
      if decide (i < length (entries s))%nat then Ok (spec_erase s i, entries s !! S i)
      else Fault OutOfRange
  | OpEraseOldest =>
      if decide (entries s = []) then Fault OutOfRange
      else Ok (spec_shrink s (pred (length (entries s))), None)
  | OpShrink n => Ok (spec_shrink s n, None)
  | OpClear => Ok (mkRecency [] (dropped s ++ (entries s).*2) (bound s), None)
  end.

Fixpoint run_ops (c : cache) (os : list mru_op) : outcome (cache * list (option (K * P))) :=
  match os with
  | [] => Ok (c, [])
  | o :: os => '(c, r) ← run_op c o; '(c, rs) ← run_ops c os; Ok (c, r :: rs)
  end.

Fixpoint spec_ops (s : recency) (os : list mru_op) : outcome (recency * list (option (K * P))) :=
  match os with
  | [] => Ok (s, [])
  | o :: os => '(s, r) ← spec_op s o; '(s, rs) ← spec_ops s os; Ok (s, r :: rs)
  end.

(** ** Representation *)

Definition key_id (e : nat * (K * P)) : K * nat := (e.2.1, e.1).

Record mru_rep (c : cache) (s : recency) : Prop := {
  rep_entries : (ordering_ c).*2 = entries s;
  rep_deleted : deleted c = dropped s;
  rep_bound : max_size_ c = bound s;
  rep_keys : NoDup (entries s).*1;
  rep_ids : NoDup (ordering_ c).*1;
  rep_fresh : Forall (fun id => (id < fresh_id c)%nat) (ordering_ c).*1;
  rep_index : index_ c = list_to_map (key_id <$> ordering_ c)
}.

Lemma key_id_keys (l : list (nat * (K * P))) : (key_id <$> l).*1 = l.*2.*1.
Proof. by rewrite <- !list_fmap_compose. Qed.

Lemma rep_nodup_index c s : mru_rep c s → NoDup (key_id <$> ordering_ c).*1.
Proof. intros R. rewrite key_id_keys, (rep_entries _ _ R). apply (rep_keys _ _ R). Qed.

Lemma rep_size c s : mru_rep c s → size c = Z.of_nat (length (entries s)).
Proof.
  intros R. unfold size. rewrite (rep_index _ _ R), map_size_list_to_map by eapply rep_nodup_index, R.
  by rewrite <- (rep_entries _ _ R), !length_fmap.
Qed.

(** An entry and the node that holds it. *)
Lemma rep_split c s i k p :
  mru_rep c s → entries s !! i = Some (k, p) →
  ∃ l1 id l2, ordering_ c = l1 ++ (id, (k, p)) :: l2 ∧ length l1 = i ∧ id ∉ l1.*1.
Proof.
  intros R Hi. rewrite <- (rep_entries _ _ R), list_lookup_fmap in Hi.
  destruct (ordering_ c !! i) as [[id e]|] eqn:Ho; cbn in Hi; simplify_eq.
  exists (take i (ordering_ c)), id, (drop (S i) (ordering_ c)).
  pose proof (take_drop_middle _ _ _ Ho) as Hsplit. split_and!; [done| |].
  - apply lookup_lt_Some in Ho. rewrite length_take. lia.
  - pose proof (rep_ids _ _ R) as Hnd. rewrite <- Hsplit, fmap_app, NoDup_app in Hnd.
    destruct Hnd as (_ & Hd & _). intros Hin. apply (Hd _ Hin). cbn. set_solver.
Qed.

Lemma index_middle c s l1 id k p l2 :
  mru_rep c s → ordering_ c = l1 ++ (id, (k, p)) :: l2 →
  index_ c = <[k := id]> (list_to_map (key_id <$> l1 ++ l2)) ∧
  (list_to_map (key_id <$> l1 ++ l2) : gmap K nat) !! k = None.
Proof.
  intros R Ho. pose proof (rep_nodup_index _ _ R) as Hnd.
  rewrite (rep_index _ _ R). rewrite Ho in Hnd |- *.
  assert (Hp : key_id <$> l1 ++ (id, (k, p)) :: l2 ≡ₚ (k, id) :: (key_id <$> l1 ++ l2))
    by (rewrite !fmap_app; cbn; by rewrite Permutation_middle).
  rewrite Hp in Hnd. split.
  - symmetry in Hp. rewrite <- (list_to_map_proper _ _ ltac:(done) Hp). done.
  - apply not_elem_of_list_to_map. by inversion Hnd.
Qed.

Lemma erase_split (s : recency) (l1 : list (nat * (K * P))) id k p l2 :
  (l1 ++ (id, (k, p)) :: l2).*2 = entries s →
  spec_erase s (length l1) = mkRecency (l1 ++ l2).*2 (dropped s ++ [p]) (bound s).
Proof.
  intros He. unfold spec_erase. rewrite <- He, !fmap_app. cbn. f_equal.
  - rewrite take_app_length' by (symmetry; apply length_fmap). f_equal.
    rewrite drop_app_ge by (rewrite length_fmap; lia). rewrite length_fmap.
    by replace (S (length l1) - length l1)%nat with 1%nat by lia.
  - f_equal. rewrite take_app_ge by (rewrite length_fmap; lia). rewrite length_fmap.
    replace (S (length l1) - length l1)%nat with 1%nat by lia.
    cbn. rewrite take_0, drop_app_length' by (symmetry; apply length_fmap). done.
Qed.

Lemma rep_remove c s l1 id k p l2 :
  mru_rep c s → ordering_ c = l1 ++ (id, (k, p)) :: l2 →
  mru_rep (mkCache (l1 ++ l2) (delete k (index_ c)) (max_size_ c) (deleted c ++ [p]) (fresh_id c))
    (spec_erase s (length l1)).
Proof.
  intros R Ho. destruct (index_middle _ _ _ _ _ _ _ R Ho) as [Hix Hk].
  pose proof (rep_entries _ _ R) as He. rewrite Ho in He.
  rewrite (erase_split _ _ _ _ _ _ He).
  assert (Hsub : l1 ++ l2 `sublist_of` ordering_ c)
    by (rewrite Ho; apply sublist_app; [done|by apply sublist_cons]).
  split; cbn; [done|by rewrite (rep_deleted _ _ R)|apply R| | | |].
  - eapply sublist_NoDup; [apply (rep_keys _ _ R)|]. rewrite <- (rep_entries _ _ R).
    by do 2 apply fmap_sublist.
  - eapply sublist_NoDup; [apply (rep_ids _ _ R)|]. by apply fmap_sublist.
  - pose proof (rep_fresh _ _ R) as Hf. rewrite Ho, fmap_app, Forall_app in Hf.
    rewrite fmap_app, Forall_app. destruct Hf as [Hf1 Hf2]. cbn in Hf2. by inversion Hf2.
  - rewrite Hix, delete_insert_id; done.
Qed.

(** [Erase] at the node of an entry. *)
Lemma Erase_middle c s l1 id k p l2 :
  mru_rep c s → ordering_ c = l1 ++ (id, (k, p)) :: l2 → id ∉ l1.*1 →
  ∃ c', Erase c (At id) = Ok (c', list_begin l2) ∧ ordering_ c' = l1 ++ l2 ∧
        mru_rep c' (spec_erase s (length l1)).
Proof.
  intros R Ho Hid. unfold Erase. rewrite Ho, list_get_middle, list_erase_middle by done.
  eexists. split; [done|]. split; [done|]. by eapply rep_remove.
Qed.

Lemma find_present c s k i e :
  mru_rep c s → find_key k (entries s) = Some (i, e) →
  ∃ l1 id p l2, e = (k, p) ∧ ordering_ c = l1 ++ (id, (k, p)) :: l2 ∧ length l1 = i ∧
    id ∉ l1.*1 ∧ index_ c !! k = Some id.
Proof.
  intros R Hf. apply list_find_Some in Hf as (Hi & Hk & _). destruct e as [k' p].
  unfold has_key in Hk. cbn in Hk. subst k'.
  destruct (rep_split _ _ _ _ _ R Hi) as (l1 & id & l2 & Ho & Hl & Hid).
  exists l1, id, p, l2. split_and!; try done.
  destruct (index_middle _ _ _ _ _ _ _ R Ho) as [-> _]. apply lookup_insert_eq.
Qed.

Lemma find_absent c s k :
  mru_rep c s → find_key k (entries s) = None → index_ c !! k = None ∧ k ∉ (entries s).*1.
Proof.
  intros R Hf. apply list_find_None in Hf.
  assert (Hk : k ∉ (entries s).*1).
  { intros (e & -> & Hin)%list_elem_of_fmap. rewrite Forall_forall in Hf. by apply (Hf e Hin). }
  split; [|done]. rewrite (rep_index _ _ R). apply not_elem_of_list_to_map.
  by rewrite key_id_keys, (rep_entries _ _ R).
Qed.

Lemma spec_erase_last s :
  spec_erase s (pred (length (entries s))) = spec_shrink s (pred (length (entries s))).
Proof.
  unfold spec_erase, spec_shrink. destruct s as [es d b]. cbn.
  induction es as [|e es _] using rev_ind; [done|].
  rewrite length_app. cbn. replace (pred (length es + 1)) with (length es) by lia.
  rewrite !take_app_length, !drop_app_length, drop_ge by (rewrite length_app; cbn; lia).
  rewrite app_nil_r, take_ge by (rewrite length_app; cbn; lia). by rewrite drop_app_length.
Qed.

Lemma spec_shrink_shrink s n m : (n ≤ m)%nat → spec_shrink (spec_shrink s m) n = spec_shrink s n.
Proof.
  intros Hnm. unfold spec_shrink. cbn. rewrite take_take, Nat.min_l by done. f_equal.
  rewrite <- app_assoc, <- reverse_app, <- fmap_app. do 3 f_equal.
  rewrite skipn_firstn_comm. rewrite <- (take_drop (m - n) (drop n (entries s))) at 2.
  rewrite drop_drop. by replace (n + (m - n))%nat with m by lia.
Qed.

Lemma spec_shrink_ge s n : (length (entries s) ≤ n)%nat → spec_shrink s n = s.
Proof.
  intros Hn. unfold spec_shrink. rewrite take_ge, drop_ge by done. cbn. rewrite app_nil_r.
  by destruct s.
Qed.

Lemma Erase_oldest c s :
  mru_rep c s → entries s ≠ [] →
  ∃ c', Erase_reverse c (rbegin c) = Ok (c', End) ∧
        mru_rep c' (spec_shrink s (pred (length (entries s)))).
Proof.
  intros R Hne.
  assert (Hlen : (length (entries s) ≠ 0)%nat) by by destruct (entries s).
  destruct (entries s !! pred (length (entries s))) as [[k p]|] eqn:Hi;
    [|apply lookup_ge_None in Hi; lia].
  destruct (rep_split _ _ _ _ _ R Hi) as (l1 & id & l2 & Ho & Hl & Hid).
  assert (l2 = []) as ->.
  { pose proof (f_equal length (rep_entries _ _ R)) as Hx. rewrite Ho, length_fmap, length_app in Hx.
    destruct l2; [done|]. cbn in Hx. lia. }
  unfold Erase_reverse, rbegin. pose proof (rep_ids _ _ R) as Hnd. rewrite Ho in Hnd |- *.
  change End with (list_begin (@nil (nat * (K * P)))) at 1.
  rewrite list_prev_middle by done. cbn [mbind outcome_bind].
  destruct (Erase_middle _ _ _ _ _ _ _ R Ho Hid) as (c' & -> & _ & R').
  exists c'. split; [done|]. by rewrite <- spec_erase_last, <- Hl.
Qed.

Lemma shrink_loop_rep n c s :
  mru_rep c s → (n ≤ length (entries s))%nat →
  ∃ c', shrink_loop n c = Ok c' ∧ mru_rep c' (spec_shrink s (length (entries s) - n)).
Proof.
  revert c s. induction n as [|n IH]; intros c s R Hn; cbn [shrink_loop].
  { exists c. split; [done|]. by rewrite spec_shrink_ge by lia. }
  destruct (Erase_oldest c s R) as (c1 & -> & R1); [by destruct (entries s); cbn in Hn; [lia|]|].
  cbn [mbind outcome_bind].
  assert (Hl : length (entries (spec_shrink s (pred (length (entries s))))) = pred (length (entries s)))
    by (cbn; rewrite length_take; lia).
  destruct (IH _ _ R1) as (c' & -> & R'); [rewrite Hl; lia|].
  exists c'. split; [done|]. rewrite Hl, spec_shrink_shrink in R' by lia.
  by replace (length (entries s) - S n)%nat with (pred (length (entries s)) - n)%nat by lia.
Qed.

Lemma ShrinkToSize_rep c s n :
  mru_rep c s → 0 ≤ n →
  ∃ c', ShrinkToSize c n = Ok c' ∧ mru_rep c' (spec_shrink s (Z.to_nat n)).
Proof.
  intros R Hn. unfold ShrinkToSize. rewrite (rep_size _ _ R).
  destruct (shrink_loop_rep (Z.to_nat (Z.of_nat (length (entries s)) - n)) c s R ltac:(lia))
    as (c' & -> & R'). exists c'. split; [done|].
  destruct (Z.le_gt_cases n (Z.of_nat (length (entries s)))).
  - by replace (Z.to_nat n) with (length (entries s) - Z.to_nat (Z.of_nat (length (entries s)) - n))%nat
      by lia.
  - rewrite spec_shrink_ge in R' by lia. by rewrite spec_shrink_ge by lia.
Qed.

Lemma rep_push c s k p :
  mru_rep c s → k ∉ (entries s).*1 →
  mru_rep (mkCache ((fresh_id c, (k, p)) :: ordering_ c)
             (match index_ c !! k with Some _ => index_ c | None => <[k := fresh_id c]> (index_ c) end)
             (max_size_ c) (deleted c) (S (fresh_id c)))
    (spec_push s k p).
Proof.
  intros R Hk.
  assert (index_ c !! k = None) as ->.
  { rewrite (rep_index _ _ R). apply not_elem_of_list_to_map. by rewrite key_id_keys, (rep_entries _ _ R). }
  pose proof (rep_fresh _ _ R) as Hf.
  split; cbn; [by rewrite (rep_entries _ _ R)|apply R|apply R| | | |].
  - constructor; [done|apply R].
  - constructor; [|apply R]. intros Hin. rewrite Forall_forall in Hf. specialize (Hf _ Hin). lia.
  - constructor; [lia|]. eapply Forall_impl; [exact Hf|]. intros id Hid. cbn in *. lia.
  - by rewrite (rep_index _ _ R).
Qed.

Lemma keys_erase s (l1 : list (nat * (K * P))) id k p l2 :
  NoDup (entries s).*1 → (l1 ++ (id, (k, p)) :: l2).*2 = entries s →
  k ∉ (entries (spec_erase s (length l1))).*1.
Proof.
  intros Hnd He. rewrite (erase_split _ _ _ _ _ _ He). cbn.
  rewrite <- He, !fmap_app in Hnd. cbn in Hnd. rewrite !fmap_app.
  apply NoDup_app in Hnd as (_ & Hd & Hnd). apply NoDup_cons in Hnd as [Hk _].
  specialize (Hd k). set_solver.
Qed.

Lemma keys_shrink s n k : k ∉ (entries s).*1 → k ∉ (entries (spec_shrink s n)).*1.
Proof.
  intros Hk Hin. apply Hk. cbn in Hin. rewrite <- (take_drop n (entries s)), fmap_app. set_solver.
Qed.

Lemma deref_front (c : cache) id e l : ordering_ c = (id, e) :: l → deref c (At id) = Some e.
Proof. intros Ho. unfold deref. rewrite Ho. cbn. by rewrite decide_True. Qed.

(** The precondition of [Put]: the bound is a 64-bit size. *)
Lemma Put_rep c s k p :
  mru_rep c s → 0 ≤ bound s < 2 ^ 64 →
  ∃ c' it, Put c k p = Ok (c', it) ∧ mru_rep c' (spec_put s k p) ∧ deref c' it = Some (k, p).
Proof.
  intros R Hb. unfold Put, spec_put.
  destruct (find_key k (entries s)) as [[i e]|] eqn:Hf.
  - destruct (find_present _ _ _ _ _ R Hf) as (l1 & id & p' & l2 & -> & Ho & <- & Hid & ->).
    destruct (Erase_middle _ _ _ _ _ _ _ R Ho Hid) as (c1 & -> & _ & R1).
    cbn [mbind outcome_bind fst snd]. eexists _, _. split; [done|]. split; [|eapply deref_front; reflexivity].
    apply rep_push; [done|]. eapply keys_erase; [apply (rep_keys _ _ R)|].
    by rewrite <- Ho, (rep_entries _ _ R).
  - destruct (find_absent _ _ _ R Hf) as [-> Hk]. rewrite (rep_bound _ _ R). unfold NO_AUTO_EVICT.
    destruct (Z.eqb_spec (bound s) 0) as [Hz|Hz]; cbn [negb].
    + cbn [mbind outcome_bind]. eexists _, _. split; [done|]. split; [|eapply deref_front; reflexivity].
      by apply rep_push.
    + rewrite (u64_id (bound s - 1)) by lia.
      destruct (ShrinkToSize_rep c s (bound s - 1) R ltac:(lia)) as (c1 & -> & R1).
      cbn [mbind outcome_bind]. eexists _, _. split; [done|]. split; [|eapply deref_front; reflexivity].
      apply rep_push; [done|]. by apply keys_shrink.
Qed.

Lemma Get_rep c s k :
  mru_rep c s →
  ∃ c' it, Get c k = (c', it) ∧ mru_rep c' (spec_get s k) ∧
           deref c' it = snd <$> find_key k (entries s).
Proof.
  intros R. unfold Get, spec_get.
  destruct (find_key k (entries s)) as [[i e]|] eqn:Hf.
  - destruct (find_present _ _ _ _ _ R Hf) as (l1 & id & p & l2 & -> & Ho & <- & Hid & ->).
    pose proof (rep_entries _ _ R) as He. rewrite Ho in He.
    rewrite Ho, list_splice_middle by done. eexists _, _. split; [done|]. split; [|eapply deref_front; reflexivity].
    pose proof (erase_split _ _ _ _ _ _ He) as Hs. injection Hs as -> _.
    assert (Hp : ordering_ c ≡ₚ (id, (k, p)) :: l1 ++ l2) by (rewrite Ho; by rewrite Permutation_middle).
    split; cbn; [done|apply R|apply R| | | |].
    + pose proof (rep_keys _ _ R) as Hnd. by rewrite <- (rep_entries _ _ R), Hp in Hnd.
    + pose proof (rep_ids _ _ R) as Hnd. by rewrite Hp in Hnd.
    + pose proof (rep_fresh _ _ R) as Hfr. by rewrite Hp in Hfr.
    + by destruct (index_middle _ _ _ _ _ _ _ R Ho) as [-> _].
  - destruct (find_absent _ _ _ R Hf) as [-> _]. by exists c, End.
Qed.

Lemma Peek_rep c s k :
  mru_rep c s → deref c (Peek c k) = snd <$> find_key k (entries s).
Proof.
  intros R. unfold Peek.
  destruct (find_key k (entries s)) as [[i e]|] eqn:Hf.
  - destruct (find_present _ _ _ _ _ R Hf) as (l1 & id & p & l2 & -> & Ho & <- & Hid & ->).
    cbn. by rewrite Ho, list_get_middle.
  - by destruct (find_absent _ _ _ R Hf) as [-> _].
Qed.

(** The first entry of a suffix of the nodes is the entry the iterator at its
    beginning refers to. *)
Lemma deref_suffix (c : cache) l1 l2 :
  NoDup (ordering_ c).*1 → ordering_ c = l1 ++ l2 → deref c (list_begin l2) = head l2.*2.
Proof.
  intros Hnd Ho. destruct l2 as [|[id e] l2]; [done|]. cbn. rewrite Ho in Hnd |- *.
  apply list_get_middle. rewrite fmap_app in Hnd. apply NoDup_app in Hnd as (_ & Hd & _).
  intros Hin. apply (Hd _ Hin). cbn. set_solver.
Qed.

Lemma Erase_at_rep c s i :
  mru_rep c s → (i < length (entries s))%nat →
  ∃ c' it, Erase c (iter_at c i) = Ok (c', it) ∧ mru_rep c' (spec_erase s i) ∧
           deref c' it = entries s !! S i.
Proof.
  intros R Hi. destruct (entries s !! i) as [[k p]|] eqn:He; [|apply lookup_ge_None in He; lia].
  destruct (rep_split _ _ _ _ _ R He) as (l1 & id & l2 & Ho & <- & Hid).
  assert (iter_at c (length l1) = At id) as ->.
  { unfold iter_at. by rewrite Ho, list_lookup_middle. }
  destruct (Erase_middle _ _ _ _ _ _ _ R Ho Hid) as (c' & -> & Ho' & R').
  exists c', (list_begin l2). split_and!; [done|done|].
  rewrite (deref_suffix c' l1 l2 (rep_ids _ _ R') Ho').
  rewrite <- (rep_entries _ _ R), Ho, fmap_app. cbn.
  rewrite lookup_app_r, length_fmap by (rewrite length_fmap; lia).
  replace (S (length l1) - length l1)%nat with 1%nat by lia. by destruct l2.
Qed.

Lemma Erase_at_end c s i :
  mru_rep c s → ¬ (i < length (entries s))%nat → Erase c (iter_at c i) = Fault OutOfRange.
Proof.
  intros R Hi. unfold iter_at. rewrite (lookup_ge_None_2 (ordering_ c) i); [done|].
  pose proof (f_equal length (rep_entries _ _ R)) as Hl. rewrite length_fmap in Hl. lia.
Qed.

Lemma Clear_rep c s :
  mru_rep c s → mru_rep (Clear c) (mkRecency [] (dropped s ++ (entries s).*2) (bound s)).
Proof.
  intros R. split; cbn; try constructor; try apply R.
  rewrite (rep_deleted _ _ R), <- (rep_entries _ _ R). by rewrite <- list_fmap_compose.
Qed.

Lemma ctor_rep max : mru_rep (MRUCacheBase_ctor max) (mkRecency [] [] max).
Proof. by split; try constructor. Qed.

(** A run against its specification: the same faults, the same results, a
    represented state. *)
Definition simulates {R : Type} (x : outcome (cache * R)) (y : outcome (recency * R)) : Prop :=
  match y with
  | Ok (s, r) => ∃ c, x = Ok (c, r) ∧ mru_rep c s
  | Fault f => x = Fault f
  | Diverge => x = Diverge
  end.

Lemma spec_op_bound s o s' r : spec_op s o = Ok (s', r) → bound s' = bound s.
Proof.
  destruct o; cbn; unfold spec_put, spec_get; intros Hs; repeat case_match; by simplify_eq/=.
Qed.

Lemma spec_ops_bound os s s' rs : spec_ops s os = Ok (s', rs) → bound s' = bound s.
Proof.
  revert s rs. induction os as [|o os IH]; intros s rs; cbn [spec_ops]; [by intros [= -> _]|].
  destruct (spec_op s o) as [[s1 r]|f|] eqn:Ho; cbn [mbind outcome_bind]; [|done..].
  destruct (spec_ops s1 os) as [[s2 rs2]|f|] eqn:Hos; cbn; [|done..]. intros [= -> _].
  rewrite (IH _ _ Hos). by eapply spec_op_bound.
Qed.

Lemma spec_ops_total os s : spec_ops s os ≠ Diverge.
Proof.
  revert s. induction os as [|o os IH]; intros s; cbn [spec_ops]; [done|].
  destruct (spec_op s o) as [[s1 r]|f|] eqn:Ho; cbn [mbind outcome_bind]; [|done|].
  - specialize (IH s1). by destruct (spec_ops s1 os) as [[s2 rs]|f|].
  - destruct o; cbn in Ho; by repeat case_match.
Qed.

Lemma run_op_simulates c s o :
  mru_rep c s → 0 ≤ bound s < 2 ^ 64 → simulates (run_op c o) (spec_op s o).
Proof.
  intros R Hb. destruct o as [k p|k|k|i| |n|]; cbn [run_op spec_op].
  - destruct (Put_rep c s k p R Hb) as (c' & it & -> & R' & Hd). cbn. rewrite Hd. by exists c'.
  - destruct (Get_rep c s k R) as (c' & it & -> & R' & Hd). cbn. rewrite Hd. by exists c'.
  - exists c. by rewrite (Peek_rep c s k R).
  - destruct (decide (i < length (entries s))%nat) as [Hi|Hi].
    + destruct (Erase_at_rep c s i R Hi) as (c' & it & -> & R' & Hd). cbn. rewrite Hd. by exists c'.
    + by rewrite (Erase_at_end c s i R Hi).
  - destruct (decide (entries s = [])) as [He|He].
    + pose proof (rep_entries _ _ R) as Ho. rewrite He in Ho. apply fmap_nil_inv in Ho.
      unfold Erase_reverse. by rewrite Ho.
    + destruct (Erase_oldest c s R He) as (c' & -> & R'). by exists c'.
  - destruct (ShrinkToSize_rep c s (Z.of_nat n) R ltac:(lia)) as (c' & -> & R').
    rewrite Nat2Z.id in R'. by exists c'.
  - exists (Clear c). split; [done|]. by apply Clear_rep.
Qed.

Lemma run_ops_simulates os c s :
  mru_rep c s → 0 ≤ bound s < 2 ^ 64 → simulates (run_ops c os) (spec_ops s os).
Proof.
  revert c s. induction os as [|o os IH]; intros c s R Hb; cbn [run_ops spec_ops]; [by exists c|].
  pose proof (run_op_simulates c s o R Hb) as Ho. unfold simulates in Ho.
  destruct (spec_op s o) as [[s1 r]|f|] eqn:Hs; [|by rewrite Ho..].
  destruct Ho as (c1 & -> & R1). cbn [mbind outcome_bind].
  apply spec_op_bound in Hs. specialize (IH c1 s1 R1 ltac:(lia)). unfold simulates in IH.
  destruct (spec_ops s1 os) as [[s2 rs]|f|]; [|by rewrite IH..].
  destruct IH as (c2 & -> & R2). by exists c2.
Qed.

(** ** Ownership *)

(** The payloads the specification accounts for. *)
Definition payloads (s : recency) : list P := dropped s ++ (entries s).*2.

Definition op_puts (o : mru_op) : list P :=
  match o with OpPut _ p => [p] | _ => [] end.

Definition puts (os : list mru_op) : list P := concat (op_puts <$> os).

Lemma split_at (l : list (K * P)) i : l = take i l ++ drop i (take (S i) l) ++ drop (S i) l.
Proof.
  rewrite <- (take_drop i l) at 1. f_equal. rewrite skipn_firstn_comm.
  replace (S i - i)%nat with 1%nat by lia. rewrite <- (take_drop 1 (drop i l)) at 1. f_equal.
  by rewrite drop_drop, Nat.add_1_r.
Qed.

Lemma payloads_erase s i : payloads (spec_erase s i) ≡ₚ payloads s.
Proof.
  unfold payloads, spec_erase. cbn. rewrite <- app_assoc. f_equiv.
  rewrite (split_at (entries s) i) at 4. rewrite !fmap_app. solve_Permutation.
Qed.

Lemma payloads_shrink s n : payloads (spec_shrink s n) ≡ₚ payloads s.
Proof.
  unfold payloads, spec_shrink. cbn. rewrite <- app_assoc. f_equiv.
  rewrite reverse_Permutation, Permutation_app_comm, <- fmap_app. by rewrite take_drop.
Qed.

Lemma payloads_put s k p : payloads (spec_put s k p) ≡ₚ payloads s ++ [p].
Proof.
  transitivity (payloads
    (match find_key k (entries s) with
     | Some (i, _) => spec_erase s i
     | None => if bound s =? 0 then s else spec_shrink s (Z.to_nat (bound s - 1))
     end) ++ [p]).
  - unfold spec_put, payloads, spec_push. cbn. rewrite <- app_assoc. f_equiv.
    by rewrite Permutation_cons_append.
  - f_equiv. destruct (find_key _ _) as [[i e]|]; [apply payloads_erase|].
    destruct (bound s =? 0); [done|apply payloads_shrink].
Qed.

Lemma payloads_get s k : payloads (spec_get s k) ≡ₚ payloads s.
Proof.
  unfold spec_get. destruct (find_key k (entries s)) as [[i e]|] eqn:Hf; [|done].
  apply list_find_Some in Hf as (Hi & _ & _). unfold payloads. cbn. f_equiv.
  rewrite <- (take_drop_middle _ _ _ Hi) at 3. rewrite !fmap_app. cbn. solve_Permutation.
Qed.

Lemma payloads_op s o s' r : spec_op s o = Ok (s', r) → payloads s' ≡ₚ payloads s ++ op_puts o.
Proof.
  destruct o as [k p|k|k|i| |n|]; cbn; intros Hs; repeat case_match; simplify_eq/=;
    rewrite ?app_nil_r; try done.
  - apply payloads_put.
  - apply payloads_get.
  - apply payloads_erase.
  - apply payloads_shrink.
  - apply payloads_shrink.
  - unfold payloads. cbn. by rewrite app_nil_r.
Qed.

Lemma payloads_ops os s s' rs :
  spec_ops s os = Ok (s', rs) → payloads s' ≡ₚ payloads s ++ puts os.
Proof.
  revert s rs. induction os as [|o os IH]; intros s rs; cbn [spec_ops].
  { intros [= -> _]. unfold puts. cbn. by rewrite app_nil_r. }
  destruct (spec_op s o) as [[s1 r]|f|] eqn:Ho; cbn [mbind outcome_bind]; [|done..].
  destruct (spec_ops s1 os) as [[s2 rs2]|f|] eqn:Hos; cbn; [|done..]. intros [= -> _].
  rewrite (IH _ _ Hos), (payloads_op _ _ _ _ Ho). unfold puts. cbn. by rewrite <- app_assoc.
Qed.

(** ** The bound *)

Definition within (s : recency) : Prop := bound s ≠ 0 → Z.of_nat (length (entries s)) ≤ bound s.

Lemma length_erase s i :
  (i < length (entries s))%nat → S (length (entries (spec_erase s i))) = length (entries s).
Proof. intros Hi. cbn. rewrite length_app, length_take, length_drop. lia. Qed.

Lemma within_op s o s' r :
  0 ≤ bound s → spec_op s o = Ok (s', r) → within s → within s'.
Proof.
  intros Hb Hs W Hnz. rewrite (spec_op_bound _ _ _ _ Hs) in Hnz |- *. specialize (W Hnz).
  destruct o as [k p|k|k|i| |n|]; cbn in Hs; simplify_eq; try done.
  - unfold spec_put. destruct (find_key k (entries s)) as [[i e]|] eqn:Hf.
    + apply list_find_Some in Hf as (Hi%lookup_lt_Some & _ & _).
      pose proof (length_erase s i Hi). unfold spec_push. cbn [entries length]. lia.
    + rewrite (proj2 (Z.eqb_neq _ _) Hnz). cbn [entries spec_push spec_shrink length]. rewrite length_take. lia.
  - unfold spec_get. destruct (find_key k (entries s)) as [[i e]|] eqn:Hf; [|done].
    apply list_find_Some in Hf as (Hi%lookup_lt_Some & _ & _).
    pose proof (length_erase s i Hi) as Hl. cbn in Hl |- *. lia.
  - destruct (decide _) as [Hi|]; simplify_eq. pose proof (length_erase s i Hi). lia.
  - destruct (decide _) as [Hi|]; simplify_eq. cbn. rewrite length_take. lia.
  - cbn. rewrite length_take. lia.
Qed.

Lemma within_ops os s s' rs :
  0 ≤ bound s → spec_ops s os = Ok (s', rs) → within s → within s'.
Proof.
  revert s rs. induction os as [|o os IH]; intros s rs Hb; cbn [spec_ops]; [by intros [= -> _]|].
  destruct (spec_op s o) as [[s1 r]|f|] eqn:Ho; cbn [mbind outcome_bind]; [|done..].
  destruct (spec_ops s1 os) as [[s2 rs2]|f|] eqn:Hos; cbn; [|done..]. intros [= -> _] W.
  eapply IH; [|exact Hos|by eapply within_op]. by rewrite (spec_op_bound _ _ _ _ Ho).
Qed.

(** ** Destruction *)

Lemma destroy_loop_rep n c s :
  mru_rep c s → (length (entries s) < n)%nat →
  ∃ c', destroy_loop n c (begin_ c) = Ok c' ∧ ordering_ c' = [] ∧ index_ c' = ∅ ∧
        deleted c' = payloads s.
Proof.
  revert c s. induction n as [|n IH]; intros c s R Hn; [lia|]. cbn [destroy_loop].
  destruct (ordering_ c) as [|[id [k p]] l] eqn:Ho.
  - unfold begin_. rewrite Ho. cbn. exists c. split_and!; [done|done| |].
    + rewrite (rep_index _ _ R), Ho. done.
    + unfold payloads. rewrite <- (rep_entries _ _ R), Ho, (rep_deleted _ _ R). cbn. by rewrite app_nil_r.
  - unfold begin_. rewrite Ho. cbn [list_begin]. rewrite decide_False by done.
    destruct (Erase_middle c s [] id k p l R Ho) as (c1 & -> & Ho1 & R1); [cbn; set_solver|].
    cbn [mbind outcome_bind]. cbn in Ho1. rewrite <- Ho1.
    pose proof (rep_entries _ _ R) as He. rewrite Ho in He. cbn in He.
    cbn [length] in R1.
    destruct (IH c1 _ R1) as (c' & Hc' & Ho' & Hi' & Hd').
    { pose proof (length_erase s 0) as Hl. rewrite <- He in Hl at 1. cbn [length] in Hl. lia. }
    exists c'. split_and!; [exact Hc'|done..|]. rewrite Hd'. unfold payloads, spec_erase. cbn.
    rewrite <- He. cbn. by rewrite <- app_assoc.
Qed.
End Spec.
Arguments recency : clear implicits.
Arguments mru_op : clear implicits.

(** ** Properties *)

(** C13. The cache is a list of entries in the order of their last use: whatever
    sequence of Put, Get, Peek, Erase, ShrinkToSize and Clear is run on a new
    cache, it faults exactly where the recency list has no entry to erase, every
    returned iterator refers to the entry the recency list gives, and afterwards
    its nodes hold the recency list, its index finds each of them and the
    payloads given to the deletor are the dropped ones in the order they were
    dropped. *)
Theorem mru_refines {K P : Type} `{Countable K} (max : Z) (os : list (mru_op K P)) :
  0 ≤ max < 2 ^ 64 →
  match spec_ops (mkRecency [] [] max) os with
  | Ok (s, rs) =>
      ∃ c, run_ops (MRUCacheBase_ctor max) os = Ok (c, rs) ∧
           (ordering_ c).*2 = entries s ∧ deleted c = dropped s ∧
           size c = Z.of_nat (length (entries s)) ∧
           ∀ k, deref c (Peek c k) = snd <$> find_key k (entries s)
  | Fault f => run_ops (MRUCacheBase_ctor max) os = Fault f
  | Diverge => False
  end.
Proof.
  intros Hm. pose proof (run_ops_simulates os _ _ (ctor_rep max) Hm) as Hs. unfold simulates in Hs.
  destruct (spec_ops _ os) as [[s rs]|f|] eqn:Hspec; [|done|].
  - destruct Hs as (c & Hrun & R). exists c.
    split_and!; [done|apply R|apply R|by apply rep_size|intros k; by apply Peek_rep].
  - by apply spec_ops_total in Hspec.
Qed.

Lemma mru_refines_witness :
  (0 ≤ 2 < 2 ^ 64) ∧
  ∃ c, run_ops (MRUCacheBase_ctor 2)
         [OpPut 1%nat 10; OpPut 2%nat 20; OpGet 1%nat; OpPut 3%nat 30; OpPeek 2%nat; OpErase 0]
       = Ok (c, [Some (1%nat, 10); Some (2%nat, 20); Some (1%nat, 10); Some (3%nat, 30); None;
                 Some (1%nat, 10)]) ∧
       (ordering_ c).*2 = [(1%nat, 10)] ∧ deleted c = [20; 30].
Proof.
  split; [lia|].
  pose proof (mru_refines 2
    [OpPut 1%nat 10; OpPut 2%nat 20; OpGet 1%nat; OpPut 3%nat 30; OpPeek 2%nat; OpErase 0]
    ltac:(lia)) as Hr.
  vm_compute in Hr. destruct Hr as (c & Hrun & Ho & Hd & _ & _). exists c.
  split; [exact Hrun|split; [exact Ho|exact Hd]].
Defined.

(** The cache owns what is put into it: after any completed sequence of
    operations its keys are distinct, a cache with automatic eviction holds at
    most max_size entries, the payloads put so far are those in the cache and
    those given to the deletor, each once, and the destructor terminates having
    given every remaining payload to the deletor. *)
Theorem mru_owns {K P : Type} `{Countable K} (max : Z) (os : list (mru_op K P)) c rs :
  0 ≤ max < 2 ^ 64 → run_ops (MRUCacheBase_ctor max) os = Ok (c, rs) →
  NoDup (ordering_ c).*2.*1 ∧
  (max ≠ NO_AUTO_EVICT → size c ≤ max) ∧
  puts os ≡ₚ deleted c ++ (ordering_ c).*2.*2 ∧
  ∃ c', MRUCacheBase_dtor c = Ok c' ∧ empty c' = true ∧ deleted c' ≡ₚ puts os.
Proof.
  intros Hm Hrun. pose proof (run_ops_simulates os _ _ (ctor_rep max) Hm) as Hs. unfold simulates in Hs.
  destruct (spec_ops _ os) as [[s rs']|f|] eqn:Hspec; [|by rewrite Hrun in Hs..].
  destruct Hs as (c1 & Hrun1 & R). rewrite Hrun in Hrun1. injection Hrun1 as <- <-.
  pose proof (payloads_ops _ _ _ _ Hspec) as Hp. change (payloads s ≡ₚ puts os) in Hp.
  pose proof (within_ops os (mkRecency [] [] max) s rs (proj1 Hm) Hspec (fun _ => proj1 Hm)) as W.
  pose proof (spec_ops_bound _ _ _ _ Hspec) as Hbs. cbn in Hbs.
  split_and!.
  - rewrite (rep_entries _ _ R). apply (rep_keys _ _ R).
  - intros Hnz. rewrite (rep_size _ _ R). unfold within in W. rewrite Hbs in W. by apply W.
  - by rewrite (rep_deleted _ _ R), (rep_entries _ _ R), <- Hp.
  - destruct (destroy_loop_rep (S (length (ordering_ c))) c s R) as (c' & Hd & Ho & _ & Hdel).
    { rewrite <- (rep_entries _ _ R), length_fmap. lia. }
    exists c'. split_and!; [exact Hd|unfold empty; by rewrite Ho|]. by rewrite Hdel.
Qed.

Lemma mru_owns_witness :
  ∃ c rs c', run_ops (MRUCacheBase_ctor 1) [OpPut 1%nat 10; OpPut 2%nat 20; OpPut 2%nat 21] = Ok (c, rs) ∧
    size c ≤ 1 ∧ MRUCacheBase_dtor c = Ok c' ∧ deleted c' ≡ₚ [10; 20; 21].
Proof.
  assert (Hex : ∃ c rs, run_ops (MRUCacheBase_ctor 1) [OpPut 1%nat 10; OpPut 2%nat 20; OpPut 2%nat 21] =
                          Ok (c, rs)) by (eexists _, _; vm_compute; reflexivity).
  destruct Hex as (c & rs & Hrun).
  destruct (mru_owns 1 _ c rs ltac:(lia) Hrun) as (_ & Hs & _ & c' & Hd & _ & Hp).
  exists c, rs, c'. split; [exact Hrun|]. split; [by apply Hs|]. split; [exact Hd|exact Hp].
Defined.
