(* ===== verification/MpscQueue.v ===== *)
(** * The multi-producer single-consumer queue (libsh/butil/containers/mpsc_queue.h)

    [MPSCQueue] is a stack of nodes that producers push with one exchange and
    that the consumer turns around.  Nodes live in a shared heap; an access
    through a pointer that is not an allocated node is the fault [OutOfRange].
    The atomic accesses of any number of producers and of the consumer
    interleave in one total order; the accesses a producer makes to a node no
    other thread knows yet are one step. *)

From Stdlib Require Import ZArith Lia.
From stdpp Require Import base list gmap.
From S2P Require Import Prelude.

Inductive pointer : Type := NULL | UNCONNECTED | Ptr (a : nat).

#[export] Instance pointer_eq_dec : EqDecision pointer.
Proof. solve_decision. Defined.

Record MPSCQueueNode (T : Type) : Type := mkNode { node_next : pointer; data_mem : T }.
Arguments mkNode {T}.
Arguments node_next {T}.
Arguments data_mem {T}.

Record MPSCQueue (T : Type) : Type := mkQueue {
  nodes : gmap nat (MPSCQueueNode T);
  head_ : pointer;
  cur_enqueue_node : pointer;
  cur_dequeue_node : pointer
}.
Arguments mkQueue {T}.
Arguments nodes {T}.
Arguments head_ {T}.
Arguments cur_enqueue_node {T}.
Arguments cur_dequeue_node {T}.

Section Queue.
Context {T : Type}.
Notation queue := (MPSCQueue T).
Notation heap := (gmap nat (MPSCQueueNode T)).

Definition MPSCQueue_ctor : queue := mkQueue ∅ NULL NULL NULL.

Definition with_nodes (q : queue) (h : heap) : queue :=
  mkQueue h (head_ q) (cur_enqueue_node q) (cur_dequeue_node q).
Definition with_head (q : queue) (p : pointer) : queue :=
  mkQueue (nodes q) p (cur_enqueue_node q) (cur_dequeue_node q).
Definition with_enqueue (q : queue) (p : pointer) : queue :=
  mkQueue (nodes q) (head_ q) p (cur_dequeue_node q).
Definition with_dequeue (q : queue) (p : pointer) : queue :=
  mkQueue (nodes q) (head_ q) (cur_enqueue_node q) p.

(** [p->next], [p->next = v] and [*p->data_mem.get()] *)
Definition load_node (q : queue) (p : pointer) : outcome (MPSCQueueNode T) :=
  match p with
  | Ptr a => match nodes q !! a with Some n => Ok n | None => Fault OutOfRange end
  | _ => Fault OutOfRange
  end.
Definition load_next (q : queue) (p : pointer) : outcome pointer :=
  n ← load_node q p; Ok (node_next n).
Definition store_next (q : queue) (p v : pointer) : outcome queue :=
  match p with
  | Ptr a =>
      match nodes q !! a with
      | Some n => Ok (with_nodes q (<[a := mkNode v (data_mem n)]> (nodes q)))
      | None => Fault OutOfRange
      end
  | _ => Fault OutOfRange
  end.

(** [_alloc.Free(p)] *)
Definition free_node (q : queue) (p : pointer) : outcome queue :=
  match p with
  | Ptr a =>
      match nodes q !! a with
      | Some _ => Ok (with_nodes q (delete a (nodes q)))
      | None => Fault OutOfRange
      end
  | _ => Fault OutOfRange
  end.

(** ** Enqueue *)

Inductive producer_pc : Type :=
| PIdle
| PNew (x : T)                      (** allocate and fill the node *)
| PExchange (node : nat) (x : T)    (** [_head.exchange(node)] *)
| PLink (node : nat) (prev : pointer)
| PNull (node : nat)
| PStore (node : nat).

(** [mem] is what [_alloc.Alloc()] returns. *)
Definition Enqueue_next (mem : option nat) (q : queue) (pc : producer_pc) : outcome (queue * producer_pc) :=
  match pc with
  | PIdle => Ok (q, PIdle)
  | PNew x =>
      match mem with
      | Some a => Ok (with_nodes q (<[a := mkNode UNCONNECTED x]> (nodes q)), PExchange a x)
      | None => Fault OutOfRange
      end
  | PExchange a x =>
      let prev := head_ q in
      Ok (with_head q (Ptr a), if decide (prev = NULL) then PNull a else PLink a prev)
  | PLink a prev => q ← store_next q (Ptr a) prev; Ok (q, PIdle)
  | PNull a => q ← store_next q (Ptr a) NULL; Ok (q, PStore a)
  | PStore a => Ok (with_enqueue q (Ptr a), PIdle)
  end.

(** ** Dequeue *)

Inductive consumer_pc : Type :=
| CIdle
| CStart (want : bool)              (** [want]: [data] is not NULL *)
| CTake (want : bool)               (** [_cur_enqueue_node.exchange(NULL)] *)
| CData (want : bool) (node : pointer)
| CTest (node : pointer) (out : option T)
| CHead (node : pointer) (out : option T)
| CWait (node : pointer) (out : option T) (tail p : pointer)
| CSave (node : pointer) (out : option T) (tail p : pointer)
| CTurn (node : pointer) (out : option T) (tail p saved_next : pointer)
| CJoin (node : pointer) (out : option T) (tail : pointer)
| CAdvance (node : pointer) (out : option T)
| CFree (node : pointer) (out : option T)
| CRet (ok : bool) (out : option T)
| CFatal.                           (** a CHECK fails *)

(** The body of [DequeueImpl], one access at a time; [ReverseList] is
    the part from [CHead] to [CJoin]. *)
Definition ReverseList_next (q : queue) (pc : consumer_pc) : outcome (queue * consumer_pc) :=
  match pc with
  | CHead node out =>
      if decide (head_ q = node) then Ok (with_head q NULL, CAdvance node out)
      else Ok (q, CWait node out NULL (head_ q))
  | CWait node out tail p =>
      nx ← load_next q p;
      Ok (q, if decide (nx = UNCONNECTED) then CWait node out tail p else CSave node out tail p)
  | CSave node out tail p => saved ← load_next q p; Ok (q, CTurn node out tail p saved)
  | CTurn node out tail p saved =>
      q ← store_next q p tail;
      Ok (q, if decide (saved = NULL) then CFatal
             else if decide (saved = node) then CJoin node out p
             else CWait node out p saved)
  | CJoin node out tail => q ← store_next q node tail; Ok (q, CAdvance node out)
  | _ => Ok (q, pc)
  end.

Definition DequeueImpl_next (q : queue) (pc : consumer_pc) : outcome (queue * consumer_pc) :=
  match pc with
  | CStart want =>
      if decide (cur_dequeue_node q = NULL) then Ok (q, CTake want)
      else Ok (q, CData want (cur_dequeue_node q))
  | CTake want =>
      let node := cur_enqueue_node q in
      Ok (with_enqueue q NULL, if decide (node = NULL) then CRet false None else CData want node)
  | CData want node =>
      out ← (if want : bool then n ← load_node q node; Ok (Some (data_mem n)) else Ok None);
      Ok (q, CTest node out)
  | CTest node out =>
      nx ← load_next q node;
      Ok (q, if decide (nx = NULL) then CHead node out else CAdvance node out)
  | CAdvance node out => nx ← load_next q node; Ok (with_dequeue q nx, CFree node out)
  | CFree node out => q ← free_node q node; Ok (q, CRet true out)
  | CIdle | CRet _ _ | CFatal => Ok (q, pc)
  | _ => ReverseList_next q pc
  end.

(** *** Calls run alone *)

Fixpoint run_consumer (fuel : nat) (q : queue) (pc : consumer_pc) : outcome (queue * bool * option T) :=
  match pc with
  | CRet ok out => Ok (q, ok, out)
  | CFatal => Fault InvalidArgument
  | _ =>
      match fuel with
      | O => Diverge
      | S fuel => '(q, pc) ← DequeueImpl_next q pc; run_consumer fuel q pc
      end
  end.

Definition DequeueImpl (fuel : nat) (want : bool) (q : queue) : outcome (queue * bool * option T) :=
  run_consumer fuel q (CStart want).

Definition Dequeue (fuel : nat) (q : queue) : outcome (queue * bool * option T) :=
  DequeueImpl fuel true q.

(** [while (DequeueImpl(NULL));] *)
Fixpoint MPSCQueue_dtor (fuel : nat) (q : queue) : outcome queue :=
  match fuel with
  | O => Diverge
  | S fuel' =>
      '(q, ok, _) ← DequeueImpl fuel false q;
      if ok : bool then MPSCQueue_dtor fuel' q else Ok q
  end.

Fixpoint run_producer (fuel : nat) (mem : option nat) (q : queue) (pc : producer_pc) : outcome queue :=
  match pc with
  | PIdle => Ok q
  | _ =>
      match fuel with
      | O => Diverge
      | S fuel => '(q, pc) ← Enqueue_next mem q pc; run_producer fuel mem q pc
      end
  end.

Definition Enqueue (mem : option nat) (q : queue) (x : T) : outcome queue :=
  run_producer 4 mem q (PNew x).

(** *** Interleavings *)

Record config : Type := mkConfig {
  c_queue : queue;
  c_consumer : consumer_pc;
  c_producers : list producer_pc
}.

Inductive label : Type := Tau | Enq (x : T) | Ret (ok : bool) (out : option T).

Definition label_of (pc : producer_pc) : label :=
  match pc with PExchange _ x => Enq x | _ => Tau end.

Inductive step : config → label → config → Prop :=
| step_enqueue q c ps i x :
    ps !! i = Some PIdle → step (mkConfig q c ps) Tau (mkConfig q c (<[i := PNew x]> ps))
| step_alloc q q' c ps i x a pc' :
    ps !! i = Some (PNew x) → nodes q !! a = None →
    Enqueue_next (Some a) q (PNew x) = Ok (q', pc') →
    step (mkConfig q c ps) Tau (mkConfig q' c (<[i := pc']> ps))
| step_producer q q' c ps i pc pc' :
    ps !! i = Some pc → (∀ x, pc ≠ PNew x) → Enqueue_next None q pc = Ok (q', pc') →
    step (mkConfig q c ps) (label_of pc) (mkConfig q' c (<[i := pc']> ps))
| step_dequeue q ps : step (mkConfig q CIdle ps) Tau (mkConfig q (CStart true) ps)
| step_consumer q q' pc pc' ps :
    DequeueImpl_next q pc = Ok (q', pc') → step (mkConfig q pc ps) Tau (mkConfig q' pc' ps)
| step_return q ok out ps :
    step (mkConfig q (CRet ok out) ps) (Ret ok out) (mkConfig q CIdle ps).

Inductive exec : config → list label → config → Prop :=
| exec_nil c : exec c [] c
| exec_snoc c tr c' l c'' : exec c tr c' → step c' l c'' → exec c (tr ++ [l]) c''.

Definition start (producers : nat) : config :=
  mkConfig MPSCQueue_ctor CIdle (replicate producers PIdle).

(** What has been enqueued, in the order of the exchanges, and what has been
    handed out, in the order of the returns. *)
Definition enqueued (tr : list label) : list T :=
  tr ≫= fun l => match l with Enq x => [x] | _ => [] end.
Definition dequeued (tr : list label) : list T :=
  tr ≫= fun l => match l with Ret true (Some x) => [x] | _ => [] end.
End Queue.
Arguments producer_pc : clear implicits.
Arguments consumer_pc : clear implicits.
Arguments config : clear implicits.
Arguments label : clear implicits.

(** ** Chains of nodes *)

Section Chains.
Context {T : Type}.
Notation heap := (gmap nat (MPSCQueueNode T)).
Implicit Types (h : heap) (ps : list (producer_pc T)).

Definition next_of h (a : nat) : option pointer := node_next <$> h !! a.
Definition data_of h (a : nat) : option T := data_mem <$> h !! a.
Definition values h (l : list nat) : list T := omap (data_of h) l.

(** The pointer to the first node of a list. *)
Definition first (l : list nat) : pointer := match l with [] => NULL | a :: _ => Ptr a end.

(** Nodes linked in the order of the queue. *)
Fixpoint forward h (l : list nat) : Prop :=
  match l with
  | [] => True
  | a :: l => next_of h a = Some (first l) ∧ forward h l
  end.

(** A node that points at its elder, or whose producer is about to make it. *)
Definition attached h ps (y x : nat) : Prop :=
  next_of h x = Some (Ptr y) ∨
  (next_of h x = Some UNCONNECTED ∧ ∃ i, ps !! i = Some (PLink x (Ptr y))).

(** Nodes linked against the order of the queue, from the elder [y] on. *)
Fixpoint backward h ps (y : nat) (l : list nat) : Prop :=
  match l with
  | [] => True
  | x :: l => attached h ps y x ∧ backward h ps x l
  end.

Lemma backward_app h ps y l1 l2 :
  backward h ps y (l1 ++ l2) ↔ backward h ps y l1 ∧ backward h ps (lst y l1) l2.
Proof. revert y. induction l1 as [|x l1 IH]; intros y; cbn; [tauto|]. rewrite IH. tauto. Qed.

Lemma forward_app_elem h l a : forward h l → a ∈ l → ∃ p, next_of h a = Some p ∧ p ≠ UNCONNECTED.
Proof.
  induction l as [|b l IH]; intros Hf Hin; [by apply elem_of_nil in Hin|].
  destruct Hf as [Hb Hf]. apply elem_of_cons in Hin as [->|Hin]; [|by apply IH].
  exists (first l). split; [done|]. by destruct l.
Qed.

Lemma forward_frame h h' l :
  (∀ a, a ∈ l → next_of h' a = next_of h a) → forward h l → forward h' l.
Proof.
  induction l as [|a l IH]; intros Heq; cbn; [done|]. intros [Ha Hf].
  split; [rewrite Heq by set_solver; done|]. apply IH; [|done]. intros b Hb. apply Heq. set_solver.
Qed.

Lemma backward_impl h h' ps ps' y l :
  (∀ x z, x ∈ l → attached h ps z x → attached h' ps' z x) → backward h ps y l → backward h' ps' y l.
Proof.
  revert y. induction l as [|x l IH]; intros y Himp; cbn; [done|]. intros [Hx Hb].
  split; [apply Himp; [set_solver|done]|]. apply IH; [|done]. intros b z Hb'. apply Himp. set_solver.
Qed.

(** Two ways to change a node: its link, or everything. *)
Lemma next_of_insert h a n b :
  next_of (<[a := n]> h) b = if decide (a = b) then Some (node_next n) else next_of h b.
Proof.
  unfold next_of. destruct (decide (a = b)) as [->|Hne]; [by rewrite lookup_insert_eq|].
  by rewrite lookup_insert_ne.
Qed.

Lemma data_of_insert h a n b :
  data_of (<[a := n]> h) b = if decide (a = b) then Some (data_mem n) else data_of h b.
Proof.
  unfold data_of. destruct (decide (a = b)) as [->|Hne]; [by rewrite lookup_insert_eq|].
  by rewrite lookup_insert_ne.
Qed.

Lemma next_of_delete_ne h a b : a ≠ b → next_of (delete a h) b = next_of h b.
Proof. intros Hne. unfold next_of. by rewrite lookup_delete_ne. Qed.

Lemma values_frame h h' l :
  (∀ a, a ∈ l → data_of h' a = data_of h a) → values h' l = values h l.
Proof.
  induction l as [|a l IH]; intros Heq; [done|]. unfold values in *. cbn.
  rewrite Heq by set_solver. rewrite IH; [done|]. intros b Hb. apply Heq. set_solver.
Qed.

Lemma values_app h l1 l2 : values h (l1 ++ l2) = values h l1 ++ values h l2.
Proof. apply omap_app. Qed.

(** A link is stored: the data stays. *)
Lemma relink_values h a n v l :
  h !! a = Some n → values (<[a := mkNode v (data_mem n)]> h) l = values h l.
Proof.
  intros Ha. apply values_frame. intros b _. rewrite data_of_insert.
  destruct (decide (a = b)) as [->|]; [|done]. unfold data_of. by rewrite Ha.
Qed.

Lemma forward_relink h a n v l :
  h !! a = Some n → a ∉ l → forward h l → forward (<[a := mkNode v (data_mem n)]> h) l.
Proof.
  intros Ha Hni. apply forward_frame. intros b Hb. rewrite next_of_insert.
  by rewrite decide_False by set_solver.
Qed.

Lemma forward_connected h a l : forward h l → next_of h a = Some UNCONNECTED → a ∉ l.
Proof. intros Hf Ha Hin. destruct (forward_app_elem h l a Hf Hin) as (p & Hp & Hne). congruence. Qed.
End Chains.

(** ** The invariant *)

Section Invariant.
Context {T : Type}.
Notation queue := (MPSCQueue T).
Notation heap := (gmap nat (MPSCQueueNode T)).
Implicit Types (q : queue) (h : heap) (ps : list (producer_pc T)) (L : list nat).

(** The node a producer is responsible for. *)
Definition own (pc : producer_pc T) : option nat :=
  match pc with
  | PExchange a _ | PLink a _ | PNull a | PStore a => Some a
  | _ => None
  end.

Definition publishes (pc : producer_pc T) (a : nat) : Prop := pc = PNull a ∨ pc = PStore a.

(** Only a producer of the node [o] is about to publish. *)
Definition publishers ps (o : option nat) : Prop :=
  ∀ i pc a, ps !! i = Some pc → publishes pc a → o = Some a.

Definition quiet q ps : Prop := cur_enqueue_node q = NULL ∧ publishers ps None.

(** What the consumer reaches from [fst_]: the chain [pre], or nothing while the
    first node is not published or not taken. *)
Inductive front q ps (fst_ : pointer) (pre : list nat) : Prop :=
| front_chain :
    fst_ = first pre → forward (nodes q) pre → quiet q ps → front q ps fst_ pre
| front_pending d i pc :
    fst_ = NULL → pre = [d] → cur_enqueue_node q = NULL → publishers ps (Some d) →
    ps !! i = Some pc → publishes pc d → front q ps fst_ pre
| front_published d :
    fst_ = NULL → pre = [d] → next_of (nodes q) d = Some NULL → cur_enqueue_node q = Ptr d →
    publishers ps None → front q ps fst_ pre.

(** The consumer is turning around the nodes [olds] and has turned [news]. *)
Record turning q ps (pre : list nat) (a : nat) (olds news : list nat) : Prop := {
  turn_pre : pre = a :: olds ++ news;
  turn_end : next_of (nodes q) a = Some NULL;
  turn_olds : backward (nodes q) ps a olds;
  turn_news : forward (nodes q) news;
  turn_quiet : quiet q ps
}.

(** Where the consumer is, against the part [pre] of the queue it knows. *)
Definition stage q ps (pre : list nat) (pc : consumer_pc T) : Prop :=
  match pc with
  | CIdle | CStart _ | CFree _ _ | CRet _ _ => front q ps (cur_dequeue_node q) pre
  | CTake _ => front q ps NULL pre ∧ cur_dequeue_node q = NULL
  | CAdvance node _ => ∃ p, load_next q node = Ok p ∧ front q ps p pre
  | CData _ node => node = first pre ∧ forward (nodes q) pre ∧ quiet q ps
  | CTest node out =>
      node = first pre ∧ forward (nodes q) pre ∧ quiet q ps ∧
      ∃ a, node = Ptr a ∧ out = data_of (nodes q) a
  | CHead node out =>
      ∃ a, pre = [a] ∧ node = Ptr a ∧ forward (nodes q) pre ∧ quiet q ps ∧ out = data_of (nodes q) a
  | CWait node out tail p =>
      ∃ a olds b news, turning q ps pre a (olds ++ [b]) news ∧ node = Ptr a ∧ tail = first news ∧
        p = Ptr b ∧ out = data_of (nodes q) a
  | CSave node out tail p =>
      ∃ a olds b news, turning q ps pre a (olds ++ [b]) news ∧ node = Ptr a ∧ tail = first news ∧
        p = Ptr b ∧ out = data_of (nodes q) a ∧ next_of (nodes q) b = Some (Ptr (lst a olds))
  | CTurn node out tail p saved =>
      ∃ a olds b news, turning q ps pre a (olds ++ [b]) news ∧ node = Ptr a ∧ tail = first news ∧
        p = Ptr b ∧ out = data_of (nodes q) a ∧ next_of (nodes q) b = Some (Ptr (lst a olds)) ∧
        saved = Ptr (lst a olds)
  | CJoin node out tail =>
      ∃ a news, turning q ps pre a [] news ∧ news ≠ [] ∧ node = Ptr a ∧ tail = first news ∧
        out = data_of (nodes q) a
  | CFatal => False
  end.

(** The same for an empty queue. *)
Definition vacant q (pc : consumer_pc T) : Prop :=
  match pc with
  | CIdle | CStart _ | CTake _ | CFree _ _ | CRet _ _ => cur_dequeue_node q = NULL
  | CAdvance node _ => load_next q node = Ok NULL
  | _ => False
  end.

(** A node the consumer has taken out of the queue but not freed yet. *)
Definition detached (pc : consumer_pc T) : option nat :=
  match pc with CAdvance (Ptr a) _ | CFree (Ptr a) _ => Some a | _ => None end.

(** An item taken out of the queue but not returned yet. *)
Definition in_hand (pc : consumer_pc T) : list T :=
  match pc with
  | CAdvance _ (Some x) | CFree _ (Some x) | CRet true (Some x) => [x]
  | _ => []
  end.

(** The consumer that is past taking a node has an item. *)
Definition out_ok (pc : consumer_pc T) : Prop :=
  match pc with
  | CStart want | CTake want | CData want _ => want = true
  | CAdvance node out | CFree node out => is_Some out ∧ ∃ a, node = Ptr a
  | CRet true out => is_Some out
  | _ => True
  end.

Definition producer_ok q L (c : consumer_pc T) (pc : producer_pc T) : Prop :=
  match pc with
  | PIdle | PNew _ => True
  | PExchange a x =>
      nodes q !! a = Some (mkNode UNCONNECTED x) ∧ a ∉ L ∧ detached c ≠ Some a
  | PLink a prev => next_of (nodes q) a = Some UNCONNECTED ∧ a ∈ L ∧ ∃ y, prev = Ptr y
  | PNull a => next_of (nodes q) a = Some UNCONNECTED ∧ a ∈ L
  | PStore a => next_of (nodes q) a = Some NULL ∧ a ∈ L
  end.

Record inv q (c : consumer_pc T) ps L : Prop := {
  inv_nodup : NoDup L;
  inv_dom : ∀ a, is_Some (nodes q !! a) ↔
              a ∈ L ∨ detached c = Some a ∨ ∃ i x, ps !! i = Some (PExchange a x);
  inv_detached : ∀ a, detached c = Some a → a ∉ L;
  inv_own : ∀ i j pc pc' a, ps !! i = Some pc → ps !! j = Some pc' →
              own pc = Some a → own pc' = Some a → i = j;
  inv_producer : ∀ i pc, ps !! i = Some pc → producer_ok q L c pc;
  inv_out : out_ok c;
  inv_shape :
    (L = [] ∧ head_ q = NULL ∧ quiet q ps ∧ vacant q c) ∨
    (∃ d pre fresh, L = (d :: pre) ++ fresh ∧ backward (nodes q) ps (lst d pre) fresh ∧
       head_ q = Ptr (lst d (pre ++ fresh)) ∧ stage q ps (d :: pre) c)
}.

(** *** Steps of producers *)

(** A change the consumer does not notice. *)
Record benign q ps q' ps' : Prop := {
  benign_enqueue : cur_enqueue_node q' = cur_enqueue_node q;
  benign_dequeue : cur_dequeue_node q' = cur_dequeue_node q;
  benign_next : ∀ a p, next_of (nodes q) a = Some p → p ≠ UNCONNECTED → next_of (nodes q') a = Some p;
  benign_data : ∀ a, is_Some (nodes q !! a) → data_of (nodes q') a = data_of (nodes q) a;
  benign_attached : ∀ y x, attached (nodes q) ps y x → attached (nodes q') ps' y x;
  benign_publishers : ∀ o, publishers ps o → publishers ps' o;
  benign_pending : ∀ i pc d, ps !! i = Some pc → publishes pc d → ∃ j pc', ps' !! j = Some pc' ∧ publishes pc' d
}.

Lemma next_of_Some h a p : next_of h a = Some p → is_Some (h !! a).
Proof. unfold next_of. intros Hn. destruct (h !! a); [by eexists|done]. Qed.

Lemma forward_next h a l : forward h (a :: l) → next_of h a = Some (first l).
Proof. by intros [Ha _]. Qed.

Lemma first_connected l : first l ≠ UNCONNECTED.
Proof. by destruct l. Qed.

Lemma forward_benign q ps q' ps' l :
  benign q ps q' ps' → forward (nodes q) l → forward (nodes q') l.
Proof.
  intros B. induction l as [|a l IH]; [done|]. intros [Ha Hf]. split; [|by apply IH].
  apply (benign_next _ _ _ _ B); [done|apply first_connected].
Qed.

Lemma backward_benign q ps q' ps' y l :
  benign q ps q' ps' → backward (nodes q) ps y l → backward (nodes q') ps' y l.
Proof. intros B. apply backward_impl. intros x z _. apply (benign_attached _ _ _ _ B). Qed.

Lemma quiet_benign q ps q' ps' : benign q ps q' ps' → quiet q ps → quiet q' ps'.
Proof.
  intros B [Hq Hp]. split; [by rewrite (benign_enqueue _ _ _ _ B)|by apply (benign_publishers _ _ _ _ B)].
Qed.

Lemma front_benign q ps q' ps' p pre : benign q ps q' ps' → front q ps p pre → front q' ps' p pre.
Proof.
  intros B [Hp Hf Hq|d i pc Hp Hpre He Hpub Hi Hpc|d Hp Hpre Hn He Hpub].
  - apply front_chain; [done|by eapply forward_benign|by eapply quiet_benign].
  - destruct (benign_pending _ _ _ _ B i pc d Hi Hpc) as (j & pc' & Hj & Hpc').
    eapply front_pending; try done; [by rewrite (benign_enqueue _ _ _ _ B)|
      by apply (benign_publishers _ _ _ _ B)].
  - eapply front_published; try done; [by apply (benign_next _ _ _ _ B)|
      by rewrite (benign_enqueue _ _ _ _ B)|by apply (benign_publishers _ _ _ _ B)].
Qed.

Lemma turning_benign q ps q' ps' pre a olds news :
  benign q ps q' ps' → turning q ps pre a olds news → turning q' ps' pre a olds news.
Proof.
  intros B [H1 H2 H3 H4 H5]. split; [done|by apply (benign_next _ _ _ _ B)|by eapply backward_benign|
    by eapply forward_benign|by eapply quiet_benign].
Qed.

Lemma load_next_Ok q p v : load_next q p = Ok v ↔ ∃ a, p = Ptr a ∧ next_of (nodes q) a = Some v.
Proof.
  unfold load_next, load_node, next_of. split.
  - destruct p as [| |a]; cbn; try done. destruct (nodes q !! a) as [n|] eqn:Ha; cbn; [|done].
    intros [= <-]. exists a. by rewrite Ha.
  - intros (a & -> & Ha). destruct (nodes q !! a) as [n|]; cbn in *; by simplify_eq.
Qed.

Lemma load_next_benign q ps q' ps' p v :
  benign q ps q' ps' → load_next q p = Ok v → v ≠ UNCONNECTED → load_next q' p = Ok v.
Proof.
  intros B (a & -> & Ha)%load_next_Ok Hv. apply load_next_Ok. exists a. split; [done|].
  by apply (benign_next _ _ _ _ B).
Qed.

Lemma front_connected q ps p pre : front q ps p pre → p ≠ UNCONNECTED.
Proof. intros [-> _ _|d i pc -> _ _ _ _ _|d -> _ _ _ _]; try done. apply first_connected. Qed.

Lemma data_benign q ps q' ps' a p :
  benign q ps q' ps' → next_of (nodes q) a = Some p → data_of (nodes q') a = data_of (nodes q) a.
Proof. intros B Ha. apply (benign_data _ _ _ _ B). by eapply next_of_Some. Qed.

Lemma stage_benign q ps q' ps' pre c :
  benign q ps q' ps' → stage q ps pre c → stage q' ps' pre c.
Proof.
  intros B. pose proof (benign_dequeue _ _ _ _ B) as Hd.
  destruct c; cbn; rewrite ?Hd; try (by apply front_benign); try done.
  - intros [Hf ?]. split; [by eapply front_benign|done].
  - intros (? & ? & ?). split_and!; [done|by eapply forward_benign|by eapply quiet_benign].
  - intros (Hn & Hf & ? & a & -> & ->). split_and!; [done|by eapply forward_benign|by eapply quiet_benign|].
    exists a. split; [done|]. destruct pre as [|b pre]; [done|]. injection Hn as <-.
    symmetry. eapply data_benign, forward_next; done.
  - intros (a & -> & -> & Hf & ? & ->). exists a.
    split_and!; [done|done|by eapply forward_benign|by eapply quiet_benign|].
    symmetry. eapply data_benign, forward_next; done.
  - intros (a & olds & b & news & Ht & -> & -> & -> & ->). exists a, olds, b, news.
    split_and!; try done; [by eapply turning_benign|]. symmetry. eapply data_benign, (turn_end _ _ _ _ _ _ Ht); done.
  - intros (a & olds & b & news & Ht & -> & -> & -> & -> & Hb). exists a, olds, b, news.
    split_and!; try done; [by eapply turning_benign| |by apply (benign_next _ _ _ _ B)].
    symmetry. eapply data_benign, (turn_end _ _ _ _ _ _ Ht); done.
  - intros (a & olds & b & news & Ht & -> & -> & -> & -> & Hb & ->). exists a, olds, b, news.
    split_and!; try done; [by eapply turning_benign| |by apply (benign_next _ _ _ _ B)].
    symmetry. eapply data_benign, (turn_end _ _ _ _ _ _ Ht); done.
  - intros (a & news & Ht & Hne & -> & -> & ->). exists a, news.
    split_and!; try done; [by eapply turning_benign|]. symmetry. eapply data_benign, (turn_end _ _ _ _ _ _ Ht); done.
  - intros (p & Hp & Hf). exists p. split; [|by eapply front_benign].
    eapply load_next_benign; [done..|by eapply front_connected].
Qed.

Lemma vacant_benign q ps q' ps' c : benign q ps q' ps' → vacant q c → vacant q' c.
Proof.
  intros B. pose proof (benign_dequeue _ _ _ _ B) as Hd.
  destruct c; cbn; rewrite ?Hd; try done. intros Hn. by eapply load_next_benign.
Qed.

(** Producer [i] moves on; at most its own unconnected node changes. *)
Lemma benign_update q q' c ps L i pc pc' :
  inv q c ps L → ps !! i = Some pc →
  cur_enqueue_node q' = cur_enqueue_node q → cur_dequeue_node q' = cur_dequeue_node q →
  (∀ a, is_Some (nodes q !! a) →
     nodes q' !! a = nodes q !! a ∨
     own pc = Some a ∧ next_of (nodes q) a = Some UNCONNECTED ∧ data_of (nodes q') a = data_of (nodes q) a) →
  (∀ a, publishes pc a ↔ publishes pc' a) →
  (∀ x y, pc = PLink x (Ptr y) → next_of (nodes q') x = Some (Ptr y)) →
  benign q ps q' (<[i := pc']> ps).
Proof.
  intros I Hi He Hd Hn Hpub Hlink.
  assert (Hlt : (i < length ps)%nat) by by eapply lookup_lt_Some.
  assert (Hnext : ∀ a p, next_of (nodes q) a = Some p → p ≠ UNCONNECTED → next_of (nodes q') a = Some p).
  { intros a p Ha Hp. destruct (Hn a (next_of_Some _ _ _ Ha)) as [Heq|(_ & Hu & _)]; [|congruence].
    unfold next_of. by rewrite Heq. }
  split; try done.
  - intros a Ha. destruct (Hn a Ha) as [Heq|(_ & _ & Heq)]; [|done]. unfold data_of. by rewrite Heq.
  - intros y x [Hx|[Hx [j Hj]]]; [left; by apply Hnext|].
    destruct (decide (i = j)) as [->|Hne].
    + rewrite Hi in Hj. injection Hj as ->. left. by apply Hlink.
    + right. split; [|exists j; by rewrite list_lookup_insert_ne].
      destruct (Hn x (next_of_Some _ _ _ Hx)) as [Heq|(Ho & _)]; [unfold next_of; by rewrite Heq|].
      exfalso. apply Hne. by eapply (inv_own _ _ _ _ I i j).
  - intros o Ho j pc1 a Hj Hpc1. destruct (decide (i = j)) as [->|Hne].
    + rewrite list_lookup_insert_eq in Hj by done. injection Hj as <-. apply (Ho j pc a Hi). by apply Hpub.
    + rewrite list_lookup_insert_ne in Hj by done. by apply (Ho j pc1 a).
  - intros j pc1 d Hj Hpc1. destruct (decide (i = j)) as [->|Hne].
    + rewrite Hi in Hj. injection Hj as <-. exists j, pc'. rewrite list_lookup_insert_eq by done.
      split; [done|]. by apply Hpub.
    + exists j, pc1. by rewrite list_lookup_insert_ne.
Qed.

(** Ownership and the conditions of the other producers. *)
Lemma own_update q c ps L i pc pc' :
  inv q c ps L → ps !! i = Some pc →
  (∀ a, own pc' = Some a → own pc = Some a ∨ nodes q !! a = None) →
  ∀ j k pc1 pc2 a, <[i := pc']> ps !! j = Some pc1 → <[i := pc']> ps !! k = Some pc2 →
    own pc1 = Some a → own pc2 = Some a → j = k.
Proof.
  intros I Hi Hown.
  assert (Hlt : (i < length ps)%nat) by by eapply lookup_lt_Some.
  assert (Halloc : ∀ j pc1 a, ps !! j = Some pc1 → own pc1 = Some a → nodes q !! a ≠ None).
  { intros j pc1 a Hj Ho. pose proof (inv_producer _ _ _ _ I j pc1 Hj) as Hok.
    destruct pc1; cbn in *; simplify_eq.
    - destruct Hok as (Ha & _ & _). by rewrite Ha.
    - destruct Hok as [Ha _]. apply next_of_Some in Ha as [n ->]. done.
    - destruct Hok as [Ha _]. apply next_of_Some in Ha as [n ->]. done.
    - destruct Hok as [Ha _]. apply next_of_Some in Ha as [n ->]. done. }
  assert (Hnew : ∀ k pc2 a, ps !! k = Some pc2 → own pc' = Some a → own pc2 = Some a → i = k).
  { intros k pc2 a Hk Ho Ho2. destruct (Hown a Ho) as [Ho1|Ha]; [by eapply (inv_own _ _ _ _ I i k)|].
    exfalso. by eapply (Halloc k). }
  intros j k pc1 pc2 a Hj Hk Ho1 Ho2.
  destruct (decide (i = j)) as [Hij|Hij], (decide (i = k)) as [Hik|Hik]; subst; try done.
  - rewrite list_lookup_insert_eq in Hj by done. injection Hj as <-.
    rewrite list_lookup_insert_ne in Hk by done. by eapply Hnew.
  - rewrite list_lookup_insert_eq in Hk by done. injection Hk as <-.
    rewrite list_lookup_insert_ne in Hj by done. symmetry. by eapply Hnew.
  - rewrite list_lookup_insert_ne in Hj, Hk by done. by eapply (inv_own _ _ _ _ I j k).
Qed.

Lemma producer_frame q q' L L' c c' pc :
  (∀ a, own pc = Some a → nodes q' !! a = nodes q !! a) →
  (∀ a x, pc = PExchange a x → a ∉ L → detached c ≠ Some a → a ∉ L' ∧ detached c' ≠ Some a) →
  (∀ a, own pc = Some a → a ∈ L → a ∈ L') →
  producer_ok q L c pc → producer_ok q' L' c' pc.
Proof.
  intros Hn HL Hin. destruct pc as [|x|a x|a prev|a|a]; cbn; try done; unfold next_of;
    rewrite Hn by done.
  - intros (? & ? & ?). destruct (HL a x) as [? ?]; done.
  - intros (? & ? & ?). split_and!; [done|by apply Hin|done].
  - intros (? & ?). split; [done|by apply Hin].
  - intros (? & ?). split; [done|by apply Hin].
Qed.

(** The producers after a step of producer [i]. *)
Lemma producers_update q q' c ps L L' i pc pc' :
  inv q c ps L → ps !! i = Some pc →
  (∀ a, is_Some (nodes q !! a) → own pc ≠ Some a → nodes q' !! a = nodes q !! a) →
  (∀ a, a ∈ L' → a ∈ L ∨ own pc = Some a) → L ⊆ L' →
  producer_ok q' L' c pc' →
  ∀ j pc1, <[i := pc']> ps !! j = Some pc1 → producer_ok q' L' c pc1.
Proof.
  intros I Hi Hn HL Hsub Hok j pc1 Hj.
  destruct (decide (i = j)) as [->|Hij].
  { rewrite list_lookup_insert_eq in Hj by (by eapply lookup_lt_Some). by injection Hj as <-. }
  rewrite list_lookup_insert_ne in Hj by done.
  pose proof (inv_producer _ _ _ _ I j pc1 Hj) as Hp.
  assert (Hown : ∀ a, own pc1 = Some a → own pc ≠ Some a).
  { intros a Ha Ha'. apply Hij. by eapply (inv_own _ _ _ _ I i j). }
  eapply producer_frame; [| |by intros a _; apply Hsub|exact Hp].
  - intros a Ha. apply Hn; [|by apply Hown].
    destruct pc1; cbn in Ha, Hp; simplify_eq; destruct Hp as [Hp _];
      [by eexists|by eapply next_of_Some..].
  - intros a x -> HaL Hd. split; [|done]. intros Hin. destruct (HL a Hin) as [|Ho]; [done|].
    by apply (Hown a).
Qed.

(** Private nodes after a step of a producer that has none before or after. *)
Lemma private_update ps i pc pc' a :
  ps !! i = Some pc → (∀ b x, pc ≠ PExchange b x) → (∀ b x, pc' ≠ PExchange b x) →
  (∃ j x, <[i := pc']> ps !! j = Some (PExchange a x)) ↔ (∃ j x, ps !! j = Some (PExchange a x)).
Proof.
  intros Hi Hpc Hpc'. pose proof (lookup_lt_Some _ _ _ Hi) as Hlt. split; intros (j & x & Hj).
  - destruct (decide (i = j)) as [->|Hne].
    + rewrite list_lookup_insert_eq in Hj by done. injection Hj as ->. by destruct (Hpc' a x).
    + rewrite list_lookup_insert_ne in Hj by done. by exists j, x.
  - destruct (decide (i = j)) as [->|Hne]; [rewrite Hi in Hj; injection Hj as ->; by destruct (Hpc a x)|].
    exists j, x. by rewrite list_lookup_insert_ne.
Qed.

Lemma inv_move q q' c ps L i pc pc' :
  inv q c ps L → ps !! i = Some pc →
  cur_enqueue_node q' = cur_enqueue_node q → cur_dequeue_node q' = cur_dequeue_node q →
  head_ q' = head_ q →
  (∀ a, is_Some (nodes q !! a) →
     nodes q' !! a = nodes q !! a ∨
     own pc = Some a ∧ next_of (nodes q) a = Some UNCONNECTED ∧ data_of (nodes q') a = data_of (nodes q) a) →
  (∀ a, publishes pc a ↔ publishes pc' a) →
  (∀ x y, pc = PLink x (Ptr y) → next_of (nodes q') x = Some (Ptr y)) →
  (∀ a, own pc' = Some a → own pc = Some a ∨ nodes q !! a = None) →
  producer_ok q' L c pc' →
  (∀ a, is_Some (nodes q' !! a) ↔
     a ∈ L ∨ detached c = Some a ∨ ∃ j x, <[i := pc']> ps !! j = Some (PExchange a x)) →
  inv q' c (<[i := pc']> ps) L.
Proof.
  intros I Hi He Hd Hh Hn Hpub Hlink Hown Hok Hdom.
  pose proof (benign_update _ _ _ _ _ _ _ _ I Hi He Hd Hn Hpub Hlink) as B.
  split; try done; try apply I.
  - by eapply own_update.
  - eapply producers_update; try done; [|by left].
    intros a Ha Ho. by destruct (Hn a Ha) as [|[? _]].
  - destruct (inv_shape _ _ _ _ I) as [(-> & HhN & Hq & Hv)|(d & pre & fresh & -> & Hb & HhP & Hs)].
    + left. split_and!; [done|by rewrite Hh|by eapply quiet_benign|by eapply vacant_benign].
    + right. exists d, pre, fresh.
      split_and!; [done|by eapply backward_benign|by rewrite Hh|by eapply stage_benign].
Qed.

Lemma inv_call q c ps L i x : inv q c ps L → ps !! i = Some PIdle → inv q c (<[i := PNew x]> ps) L.
Proof.
  intros I Hi. eapply inv_move; try done; [by left|by intros a; split; intros [?|?]|].
  intros a. rewrite (private_update ps i PIdle (PNew x)) by done. apply (inv_dom _ _ _ _ I).
Qed.

Lemma inv_alloc q c ps L i x a :
  inv q c ps L → ps !! i = Some (PNew x) → nodes q !! a = None →
  inv (with_nodes q (<[a := mkNode UNCONNECTED x]> (nodes q))) c (<[i := PExchange a x]> ps) L.
Proof.
  intros I Hi Ha. pose proof (lookup_lt_Some _ _ _ Hi) as Hlt.
  assert (Hout : a ∉ L ∧ detached c ≠ Some a).
  { split; intros Hin; destruct (proj2 (inv_dom _ _ _ _ I a)) as [n Hn]; try congruence; auto. }
  eapply inv_move; try done; cbn.
  - intros b Hb. left. apply lookup_insert_ne. intros ->. rewrite Ha in Hb. by destruct Hb.
  - intros b. split; by intros [?|?].
  - intros b [= <-]. by right.
  - split_and!; [apply lookup_insert_eq|apply Hout|apply Hout].
  - intros b. rewrite lookup_insert_is_Some. rewrite (inv_dom _ _ _ _ I). split.
    + intros [<-|[Hne [|[|(j & y & Hj)]]]]; [|auto..].
      * right. right. exists i, x. by apply list_lookup_insert_eq.
      * right. right. exists j, y. rewrite list_lookup_insert_ne; [done|]. intros ->. congruence.
    + destruct (decide (a = b)) as [|Hne]; [by left|]. intros [|[|(j & y & Hj)]]; [auto..|].
      right. split; [done|]. right. right. exists j, y.
      destruct (decide (i = j)) as [->|Hij]; [rewrite list_lookup_insert_eq in Hj by done; congruence|].
      by rewrite list_lookup_insert_ne in Hj.
Qed.

Lemma store_next_Ok q a v q' :
  store_next q (Ptr a) v = Ok q' →
  ∃ n, nodes q !! a = Some n ∧ q' = with_nodes q (<[a := mkNode v (data_mem n)]> (nodes q)).
Proof.
  unfold store_next. destruct (nodes q !! a) as [n|]; [|done]. intros [= <-]. by exists n.
Qed.

Lemma store_next_exists q a p v :
  next_of (nodes q) a = Some p →
  ∃ n, nodes q !! a = Some n ∧ node_next n = p ∧
       store_next q (Ptr a) v = Ok (with_nodes q (<[a := mkNode v (data_mem n)]> (nodes q))).
Proof.
  unfold next_of, store_next. destruct (nodes q !! a) as [n|]; cbn; [|done]. intros [= <-]. by exists n.
Qed.

Lemma producer_in q L c pc a :
  producer_ok q L c pc → own pc = Some a → (∀ b x, pc ≠ PExchange b x) → a ∈ L.
Proof.
  intros Hok Ho Hpc. destruct pc; cbn in *; simplify_eq; [by destruct (Hpc a x)|apply Hok..].
Qed.

(** A producer stores the link of its own node and is done with it or goes on
    to publish it. *)
Lemma inv_connect q c ps L i pc pc' a n v :
  inv q c ps L → ps !! i = Some pc → own pc = Some a → (∀ b x, pc ≠ PExchange b x) →
  nodes q !! a = Some n → node_next n = UNCONNECTED →
  (∀ b, publishes pc b ↔ publishes pc' b) → (∀ b x, pc' ≠ PExchange b x) →
  (∀ x y, pc = PLink x (Ptr y) → v = Ptr y) →
  (pc' = PIdle ∨ pc' = PStore a ∧ v = NULL) →
  inv (with_nodes q (<[a := mkNode v (data_mem n)]> (nodes q))) c (<[i := pc']> ps) L.
Proof.
  intros I Hi Ho Hpc Ha Hun Hpub Hpc' Hv Hend.
  eapply inv_move; try done; cbn.
  - intros b Hb. destruct (decide (a = b)) as [<-|Hne]; [|left; by apply lookup_insert_ne].
    right. split_and!; [done|unfold next_of; rewrite Ha; cbn; by rewrite Hun|].
    rewrite data_of_insert, decide_True by done. unfold data_of. by rewrite Ha.
  - intros x y ->. injection Ho as ->. rewrite next_of_insert, decide_True by done. cbn.
    by rewrite (Hv a y eq_refl).
  - intros b Hb. left. destruct Hend as [->|[-> ->]]; cbn in Hb; [done|]. congruence.
  - destruct Hend as [->|[-> ->]]; cbn; [done|]. rewrite next_of_insert, decide_True by done.
    split; [done|]. by eapply producer_in, Hpc; [apply (inv_producer _ _ _ _ I i pc Hi)|].
  - intros b. rewrite (private_update ps i pc pc') by done. rewrite <- (inv_dom _ _ _ _ I), lookup_insert_is_Some.
    split; [|by destruct (decide (a = b)); auto]. intros [<-|[_ ?]]; [by rewrite Ha|done].
Qed.

Lemma publishers_insert ps i pc' o :
  publishers ps o → (∀ a, publishes pc' a → o = Some a) → publishers (<[i := pc']> ps) o.
Proof.
  intros Hp Hpc' j pc a Hj Ha. destruct (decide (i = j)) as [->|Hne].
  - destruct (decide (j < length ps)%nat) as [Hlt|Hge].
    + rewrite list_lookup_insert_eq in Hj by done. injection Hj as <-. by apply Hpc'.
    + rewrite list_insert_ge in Hj by lia. by eapply Hp.
  - rewrite list_lookup_insert_ne in Hj by done. by eapply Hp.
Qed.

Lemma publishers_weaken ps o : publishers ps None → publishers ps o.
Proof. intros Hp j pc a Hj Ha. specialize (Hp j pc a Hj Ha). done. Qed.

(** The first node of an empty queue waits to be published. *)
Lemma vacant_pending q ps i c a :
  (i < length ps)%nat → quiet q ps → vacant q c → stage q (<[i := PNull a]> ps) [a] c.
Proof.
  intros Hi [He Hp] Hv.
  assert (Hf : front q (<[i := PNull a]> ps) NULL [a]).
  { eapply (front_pending _ _ _ _ a i (PNull a)); try done.
    - apply publishers_insert; [by apply publishers_weaken|]. by intros b [[= <-]|?].
    - by apply list_lookup_insert_eq.
    - by left. }
  destruct c; cbn in *; try done; rewrite ?Hv; try done. by exists NULL.
Qed.

Lemma private_exchange ps i a x pc' b :
  ps !! i = Some (PExchange a x) → (∀ c y, pc' ≠ PExchange c y) →
  (∃ j y, <[i := pc']> ps !! j = Some (PExchange b y)) →
  ∃ j y, ps !! j = Some (PExchange b y).
Proof.
  intros Hi Hpc' (j & y & Hj). pose proof (lookup_lt_Some _ _ _ Hi) as Hlt.
  destruct (decide (i = j)) as [->|Hne].
  - rewrite list_lookup_insert_eq in Hj by done. injection Hj as ->. by destruct (Hpc' b y).
  - rewrite list_lookup_insert_ne in Hj by done. by exists j, y.
Qed.

Lemma stage_head q ps pre c p : stage (with_head q p) ps pre c ↔ stage q ps pre c.
Proof.
  assert (Hf : ∀ p', front (with_head q p) ps p' pre ↔ front q ps p' pre).
  { intros p'. split; intros [? ? ?|? ? ? ? ? ? ? ?|? ? ? ? ? ?];
      [by apply front_chain|by eapply front_pending|by eapply front_published|
       by apply front_chain|by eapply front_pending|by eapply front_published]. }
  assert (Ht : ∀ a olds news, turning (with_head q p) ps pre a olds news ↔ turning q ps pre a olds news).
  { intros a olds news. split; intros [? ? ? ? ?]; by split. }
  destruct c; cbn; try (apply Hf); try done; try (setoid_rewrite Ht; done);
    try (rewrite Hf; done). setoid_rewrite Hf. done.
Qed.

Lemma inv_exchange q c ps L i a x q' pc' :
  inv q c ps L → ps !! i = Some (PExchange a x) →
  Enqueue_next None q (PExchange a x) = Ok (q', pc') →
  inv q' c (<[i := pc']> ps) (L ++ [a]).
Proof.
  intros I Hi [= <- <-]. pose proof (lookup_lt_Some _ _ _ Hi) as Hlt.
  destruct (inv_producer _ _ _ _ I i _ Hi) as (Ha & HaL & Had).
  set (pc' := if decide (head_ q = NULL) then PNull a else PLink a (head_ q)).
  assert (Hown : own pc' = Some a) by (unfold pc'; by case_decide).
  assert (Hpriv : ∀ b y, pc' ≠ PExchange b y) by (unfold pc'; by case_decide).
  split.
  - apply NoDup_app. split_and!; [apply I| |apply NoDup_singleton]. set_solver.
  - intros b. cbn. rewrite (inv_dom _ _ _ _ I). rewrite elem_of_app, list_elem_of_singleton. split.
    + intros [|[|(j & y & Hj)]]; [auto..|]. destruct (decide (i = j)) as [->|Hne].
      * rewrite Hi in Hj. injection Hj as -> ->. auto.
      * right. right. exists j, y. by rewrite list_lookup_insert_ne.
    + intros [[?| ->]|[?|Hx]]; [by left|right; right; by eexists _, _|auto|].
      right. right. by eapply private_exchange.
  - intros b Hb. pose proof (inv_detached _ _ _ _ I b Hb). set_solver.
  - eapply own_update; try done. intros b Hb. left. cbn. congruence.
  - eapply producers_update; try done; cbn.
    + intros b [Hb|Hb]%elem_of_app; [by left|]. right. set_solver.
    + set_solver.
    + assert (Hn : next_of (nodes q) a = Some UNCONNECTED) by (unfold next_of; by rewrite Ha).
      unfold pc'. case_decide as Hh; cbn; split; [done|set_solver|done|]. split; [set_solver|].
      destruct (inv_shape _ _ _ _ I) as [(_ & ? & _)|(d & pre & fresh & _ & _ & -> & _)]; [done|by eexists].
  - apply I.
  - right. destruct (inv_shape _ _ _ _ I) as [(-> & Hh & Hq & Hv)|(d & pre & fresh & -> & Hb & Hh & Hs)].
    + exists a, [], []. cbn. split_and!; [done|done|done|].
      apply stage_head. unfold pc'. rewrite decide_True by done. by apply vacant_pending.
    + exists d, pre, (fresh ++ [a]). rewrite app_assoc. split_and!; [done| | |].
      * assert (Hpc : pc' = PLink a (Ptr (lst d (pre ++ fresh))))
          by (unfold pc'; rewrite Hh; by rewrite decide_False).
        assert (B : benign q ps q (<[i := pc']> ps)).
        { eapply benign_update; try done; [by left|]. rewrite Hpc. intros b. split; by intros [?|?]. }
        apply backward_app. cbn. split; [by eapply backward_benign|]. split; [|done]. right.
        split; [unfold next_of; by rewrite Ha|]. exists i. rewrite <- lst_app.
        rewrite list_lookup_insert_eq by done. by rewrite Hpc.
      * cbn. rewrite !lst_app. done.
      * apply stage_head. eapply stage_benign; [|done].
        eapply benign_update; try done; [by left|].
        unfold pc'. rewrite Hh, decide_False by done. intros b. split; by intros [?|?].
Qed.

(** The first node is published. *)
Lemma inv_publish q c ps L i a :
  inv q c ps L → ps !! i = Some (PStore a) → inv (with_enqueue q (Ptr a)) c (<[i := PIdle]> ps) L.
Proof.
  intros I Hi. pose proof (lookup_lt_Some _ _ _ Hi) as Hlt.
  pose proof (inv_producer _ _ _ _ I i _ Hi) as [Hn _].
  assert (Hbusy : ¬ publishers ps None) by (intros Hp; by specialize (Hp i _ a Hi (or_intror eq_refl))).
  assert (Hgone : ∀ o, publishers ps (Some o) → publishers (<[i := PIdle]> ps) None).
  { intros o Hp j pc b Hj Hb. destruct (decide (i = j)) as [->|Hne].
    - rewrite list_lookup_insert_eq in Hj by done. injection Hj as <-. by destruct Hb.
    - rewrite list_lookup_insert_ne in Hj by done. exfalso. apply Hne.
      pose proof (Hp i _ a Hi (or_intror eq_refl)) as [= ->].
      pose proof (Hp j _ b Hj Hb) as [= ->].
      eapply (inv_own _ _ _ _ I i j); [done..|]. by destruct Hb as [->| ->]. }
  assert (Hfront : ∀ p pre, front q ps p pre → front (with_enqueue q (Ptr a)) (<[i := PIdle]> ps) p pre).
  { intros p pre [? ? [? ?]|d j pc -> -> He Hp Hj Hd|? ? ? ? ? ?]; [done| |done].
    pose proof (Hp i _ a Hi (or_intror eq_refl)) as [= ->].
    eapply front_published; try done. by eapply Hgone. }
  split; try apply I.
  - intros b. cbn. rewrite (private_update ps i (PStore a) PIdle) by done. apply (inv_dom _ _ _ _ I).
  - by eapply own_update.
  - eapply producers_update; try done. by left.
  - destruct (inv_shape _ _ _ _ I) as [(_ & _ & [_ ?] & _)|(d & pre & fresh & -> & Hb & Hh & Hs)]; [done|].
    right. exists d, pre, fresh. split_and!; [done| |done|].
    + cbn. revert Hb. apply backward_impl. intros x z _ [Hx|[Hx [j Hj]]]; [by left|]. right. split; [done|].
      exists j. rewrite list_lookup_insert_ne; [done|]. intros ->. congruence.
    + destruct c; cbn in Hs |- *; try (by apply Hfront); try done.
      * destruct Hs as [Hs ?]. split; [by apply Hfront|done].
      * by destruct Hs as (_ & _ & _ & ?).
      * by destruct Hs as (_ & _ & [_ ?] & _).
      * by destruct Hs as (? & _ & _ & _ & [_ ?] & _).
      * by destruct Hs as (? & ? & ? & ? & [_ _ _ _ [_ ?]] & _).
      * by destruct Hs as (? & ? & ? & ? & [_ _ _ _ [_ ?]] & _).
      * by destruct Hs as (? & ? & ? & ? & [_ _ _ _ [_ ?]] & _).
      * by destruct Hs as (? & ? & [_ _ _ _ [_ ?]] & _).
      * destruct Hs as (p & Hp & Hf). exists p. split; [done|]. by apply Hfront.
Qed.

(** *** Steps of the consumer *)

Definition shaped q c ps L : Prop :=
  (L = [] ∧ head_ q = NULL ∧ quiet q ps ∧ vacant q c) ∨
  (∃ d pre fresh, L = (d :: pre) ++ fresh ∧ backward (nodes q) ps (lst d pre) fresh ∧
     head_ q = Ptr (lst d (pre ++ fresh)) ∧ stage q ps (d :: pre) c).

(** The nodes stay as they are. *)
Lemma inv_same q q' c c' ps L :
  inv q c ps L → nodes q' = nodes q → detached c' = detached c → out_ok c' → shaped q' c' ps L →
  inv q' c' ps L.
Proof.
  intros I Hn Hd Ho Hs. split; try apply I; try done.
  - intros a. rewrite Hn, Hd. apply (inv_dom _ _ _ _ I).
  - intros a. rewrite Hd. apply (inv_detached _ _ _ _ I).
  - intros i pc Hi.
    eapply producer_frame; [intros; by rewrite Hn| |done|by eapply (inv_producer _ _ _ _ I)].
    intros a x _ ? ?. by rewrite Hd.
Qed.

(** The consumer does not relink a node a producer works on. *)
Lemma producers_relink q L c ps a n v p :
  (∀ i pc, ps !! i = Some pc → producer_ok q L c pc) → quiet q ps → a ∈ L →
  nodes q !! a = Some n → next_of (nodes q) a = Some p → p ≠ UNCONNECTED →
  ∀ i pc, ps !! i = Some pc →
    producer_ok (with_nodes q (<[a := mkNode v (data_mem n)]> (nodes q))) L c pc.
Proof.
  intros Hok [_ Hq] HaL Ha Hp Hne i pc Hi. pose proof (Hok i pc Hi) as Hpc.
  eapply producer_frame; [|by intros; split|done|exact Hpc].
  intros b Hb. cbn. apply lookup_insert_ne. intros ->.
  destruct pc; cbn in Hb, Hpc; simplify_eq.
  - by destruct Hpc as (_ & ? & _).
  - destruct Hpc as [? _]. congruence.
  - by specialize (Hq i _ b Hi (or_introl eq_refl)).
  - by specialize (Hq i _ b Hi (or_intror eq_refl)).
Qed.

(** The first node leaves the queue and is the consumer's. *)
Lemma inv_detach q q' c c' ps a L :
  inv q c ps (a :: L) → detached c = None → detached c' = Some a →
  (∀ b, is_Some (nodes q' !! b) ↔ is_Some (nodes q !! b)) →
  (∀ i pc, ps !! i = Some pc → producer_ok q' (a :: L) c pc) →
  quiet q ps → next_of (nodes q') a ≠ Some UNCONNECTED →
  out_ok c' → shaped q' c' ps L → inv q' c' ps L.
Proof.
  intros I Hc Hc' Hn Hok [_ Hq] Hun Ho Hs. pose proof (inv_nodup _ _ _ _ I) as Hnd.
  apply NoDup_cons in Hnd as [HaL Hnd]. split; try done; try apply I.
  - intros b. rewrite Hn, (inv_dom _ _ _ _ I), Hc, Hc', elem_of_cons. naive_solver.
  - intros b. rewrite Hc'. by intros [= <-].
  - intros i pc Hi. pose proof (Hok i pc Hi) as Hpc. eapply producer_frame; [done| | |exact Hpc].
    + intros b x _ Hb _. rewrite Hc'. split; [set_solver|]. intros [= ->]. set_solver.
    + intros b Hb [->|?]%elem_of_cons; [|done]. exfalso.
      destruct pc; cbn in Hb, Hpc; simplify_eq; [set_solver|by destruct Hpc| |].
      * by specialize (Hq i _ a Hi (or_introl eq_refl)).
      * by specialize (Hq i _ a Hi (or_intror eq_refl)).
Qed.

Lemma is_Some_relink h a n v b :
  h !! a = Some n → is_Some ((<[a := mkNode v (data_mem n)]> h) !! b) ↔ is_Some (h !! b).
Proof.
  intros Ha. rewrite lookup_insert_is_Some. destruct (decide (a = b)) as [->|Hne]; [|naive_solver].
  rewrite Ha. split; [by intros _|by left].
Qed.

Lemma values_cons h a l x : data_of h a = Some x → values h (a :: l) = x :: values h l.
Proof. intros Ha. unfold values. cbn. by rewrite Ha. Qed.

Lemma next_data h a p : next_of h a = Some p → ∃ x, data_of h a = Some x.
Proof. unfold next_of, data_of. destruct (h !! a) as [n|]; [by exists (data_mem n)|done]. Qed.

(** The place of a node in the queue, and the steps a call has left when no
    producer interferes. *)
Fixpoint place (b : nat) (l : list nat) : nat :=
  match l with [] => 0 | a :: l => if decide (a = b) then 0 else S (place b l) end.

Definition place_of (p : pointer) (l : list nat) : nat :=
  match p with Ptr b => place b l | _ => 0 end.

Definition left_to_do (c : consumer_pc T) (L : list nat) : nat :=
  match c with
  | CStart _ => 3 * length L + 9
  | CTake _ => 3 * length L + 8
  | CData _ _ => 3 * length L + 7
  | CTest _ _ => 3 * length L + 6
  | CHead _ _ => 3 * length L + 5
  | CWait _ _ _ p => 3 * place_of p L + 4
  | CSave _ _ _ p => 3 * place_of p L + 3
  | CTurn _ _ _ p _ => 3 * place_of p L + 2
  | CJoin _ _ _ => 3
  | CAdvance _ _ => 2
  | CFree _ _ => 1
  | _ => 0
  end.

Lemma place_middle b l1 l2 : b ∉ l1 → place b (l1 ++ b :: l2) = length l1.
Proof.
  induction l1 as [|a l1 IH]; intros Hb; cbn; [by rewrite decide_True|].
  rewrite decide_False by set_solver. by rewrite IH by set_solver.
Qed.

Definition idle ps : Prop := ∀ i pc, ps !! i = Some pc → pc = PIdle.

(** What a consumer step promises. *)
Definition advances q c ps L : Prop :=
  ∃ q' c' L', DequeueImpl_next q c = Ok (q', c') ∧ inv q' c' ps L' ∧
    in_hand c ++ values (nodes q) L = in_hand c' ++ values (nodes q') L' ∧
    (idle ps → (left_to_do c' L' < left_to_do c L)%nat).

Lemma advances_start q ps L want : inv q (CStart want) ps L → advances q (CStart want) ps L.
Proof.
  intros I. pose proof (inv_out _ _ _ _ I) as Ho. cbn in Ho. subst want.
  unfold advances, DequeueImpl_next. case_decide as Hd.
  - exists q, (CTake true), L. split_and!; [done| |done|cbn; lia]. eapply inv_same; try done.
    destruct (inv_shape _ _ _ _ I) as [(-> & ? & ? & Hv)|(d & pre & fresh & -> & ? & ? & Hs)]; [by left|].
    right. exists d, pre, fresh. split_and!; try done. cbn in Hs |- *. by rewrite Hd in Hs.
  - exists q, (CData true (cur_dequeue_node q)), L. split_and!; [done| |done|cbn; lia]. eapply inv_same; try done.
    destruct (inv_shape _ _ _ _ I) as [(-> & ? & ? & Hv)|(d & pre & fresh & -> & ? & ? & Hs)]; [done|].
    right. exists d, pre, fresh. split_and!; try done. cbn in Hs |- *. by destruct Hs.
Qed.

Lemma advances_take q ps L want : inv q (CTake want) ps L → advances q (CTake want) ps L.
Proof.
  intros I. pose proof (inv_out _ _ _ _ I) as Ho. cbn in Ho. subst want.
  unfold advances, DequeueImpl_next.
  destruct (inv_shape _ _ _ _ I) as [(-> & Hh & [He Hp] & Hv)|(d & pre & fresh & -> & Hb & Hh & Hs & Hd)].
  - rewrite He, decide_True by done. exists (with_enqueue q NULL), (CRet false None), [].
    split_and!; [done| |done|cbn; lia]. eapply inv_same; try done. left. by split_and!.
  - destruct Hs as [Hf _ _|d' i pc _ Hpre He Hp Hi Hpc|d' _ Hpre Hn He Hp]; [done| |]; injection Hpre as -> ->.
    + rewrite He, decide_True by done. exists (with_enqueue q NULL), (CRet false None), ([d'] ++ fresh).
      split_and!; [done| |done|cbn; lia]. eapply inv_same; try done. right. exists d', [], fresh. split_and!; try done.
      cbn. rewrite Hd. by eapply front_pending.
    + rewrite He, decide_False by done. exists (with_enqueue q NULL), (CData true (Ptr d')), ([d'] ++ fresh).
      split_and!; [done| |done|cbn; lia]. eapply inv_same; try done. right. exists d', [], fresh. split_and!; try done.
Qed.

Lemma advances_data q ps L want node : inv q (CData want node) ps L → advances q (CData want node) ps L.
Proof.
  intros I. pose proof (inv_out _ _ _ _ I) as Ho. cbn in Ho. subst want.
  destruct (inv_shape _ _ _ _ I) as [(_ & _ & _ & Hv)|(d & pre & fresh & -> & Hb & Hh & -> & Hf & Hq)]; [done|].
  pose proof (forward_next _ _ _ Hf) as Hn. apply next_of_Some in Hn as [n Hn].
  unfold advances. cbn [DequeueImpl_next first load_node]. rewrite Hn. cbn [mbind outcome_bind].
  exists q, (CTest (Ptr d) (Some (data_mem n))), ((d :: pre) ++ fresh). split_and!; [done| |done|cbn; lia].
  eapply inv_same; try done. right. exists d, pre, fresh. split_and!; try done.
  split; [done|]. split; [exact Hf|]. split; [exact Hq|].
  exists d. split; [done|]. unfold data_of. by rewrite Hn.
Qed.

Lemma advances_test q ps L node out : inv q (CTest node out) ps L → advances q (CTest node out) ps L.
Proof.
  intros I.
  destruct (inv_shape _ _ _ _ I) as [(_ & _ & _ & Hv)|(d & pre & fresh & -> & Hb & Hh & Hs)]; [done|].
  destruct Hs as (-> & Hf & Hq & a & [= <-] & Hout).
  pose proof (forward_next _ _ _ Hf) as Hn. destruct (next_data _ _ _ Hn) as [x Hx].
  assert (Hl : load_next q (first (d :: pre)) = Ok (first pre)) by (apply load_next_Ok; by exists d).
  unfold advances. cbn [DequeueImpl_next]. rewrite Hl. cbn [mbind outcome_bind].
  destruct pre as [|b pre]; cbn [first]; [rewrite decide_True by done|rewrite decide_False by done].
  - exists q, (CHead (Ptr d) out), ([d] ++ fresh). split_and!; [done| |done|cbn; lia].
    eapply inv_same; try done. right. exists d, [], fresh. split_and!; try done. by exists d.
  - exists q, (CAdvance (Ptr d) out), ((b :: pre) ++ fresh). split_and!; [done| | |cbn; lia].
    + apply (inv_detach q q (CTest (Ptr d) out) (CAdvance (Ptr d) out) ps d); try done.
      * apply I.
      * cbn. by rewrite Hn.
      * cbn. split; [rewrite Hout; by eexists|by eexists].
      * right. exists b, pre, fresh. split_and!; try done. cbn. exists (Ptr b). split; [done|].
        apply front_chain; [done|apply Hf|done].
    + rewrite Hout, Hx. cbn [in_hand app]. by rewrite (values_cons _ _ _ _ Hx).
Qed.

Lemma advances_head q ps L node out : inv q (CHead node out) ps L → advances q (CHead node out) ps L.
Proof.
  intros I.
  destruct (inv_shape _ _ _ _ I) as [(_ & _ & _ & Hv)|(d & pre & fresh & -> & Hb & Hh & Hs)]; [done|].
  destruct Hs as (a & [= -> ->] & -> & Hf & Hq & Hout).
  pose proof (forward_next _ _ _ Hf) as Hn. destruct (next_data _ _ _ Hn) as [x Hx].
  pose proof (inv_nodup _ _ _ _ I) as Hnd. apply NoDup_cons in Hnd as [Ha Hnd].
  unfold advances. cbn [DequeueImpl_next ReverseList_next]. rewrite Hh. cbn [app].
  destruct fresh as [|b fresh _] using rev_ind.
  - cbn [lst]. rewrite decide_True by done. exists (with_head q NULL), (CAdvance (Ptr a) out), [].
    split_and!; [done| | |cbn; lia].
    + apply (inv_detach q (with_head q NULL) (CHead (Ptr a) out) (CAdvance (Ptr a) out) ps a); try done.
      * apply I.
      * cbn. by rewrite Hn.
      * cbn. split; [rewrite Hout, Hx; by eexists|by eexists].
      * left. split_and!; try done. apply load_next_Ok. by exists a.
    + rewrite Hout, Hx. cbn [in_hand app]. by rewrite (values_cons _ _ _ _ Hx).
  - rewrite lst_app. cbn [lst]. rewrite decide_False by (intros [= ->]; set_solver).
    exists q, (CWait (Ptr a) out NULL (Ptr b)), ([a] ++ fresh ++ [b]). split_and!; [done| |done|].
    2: { intros _. cbn [left_to_do place_of]. change ([a] ++ fresh ++ [b]) with ((a :: fresh) ++ b :: []).
         rewrite place_middle; [cbn; rewrite !length_app; cbn; lia|].
         apply NoDup_app in Hnd as (_ & Hd & _). intros [->|Hin]%elem_of_cons; [set_solver|].
         apply (Hd b Hin). set_solver. }
    eapply inv_same; try done. right. exists a, (fresh ++ [b]), []. split_and!; try done.
    + by rewrite app_nil_r.
    + rewrite app_nil_r. exact Hh.
    + exists a, fresh, b, []. split_and!; try done. split; try done; [by rewrite app_nil_r].
Qed.

(** The node before the last of the nodes to be turned. *)
Lemma turning_last q ps pre a olds b news :
  turning q ps pre a (olds ++ [b]) news → attached (nodes q) ps (lst a olds) b.
Proof. intros Ht. pose proof (turn_olds _ _ _ _ _ _ Ht) as Hb. by apply backward_app in Hb as (_ & Hb & _). Qed.

Lemma advances_wait q ps L node out tail p :
  inv q (CWait node out tail p) ps L → advances q (CWait node out tail p) ps L.
Proof.
  intros I.
  destruct (inv_shape _ _ _ _ I) as [(_ & _ & _ & Hv)|(d & pre & fresh & -> & Hb & Hh & Hs)]; [done|].
  pose proof Hs as (a & olds & b & news & Ht & -> & -> & -> & Hout).
  assert (Hatt : load_next q (Ptr b) = Ok UNCONNECTED ∨ next_of (nodes q) b = Some (Ptr (lst a olds))).
  { destruct (turning_last _ _ _ _ _ _ _ Ht) as [?|[? _]]; [by right|]. left. apply load_next_Ok. by exists b. }
  unfold advances. cbn [DequeueImpl_next ReverseList_next].
  destruct Hatt as [Hl|Hn].
  - rewrite Hl. cbn [mbind outcome_bind]. rewrite decide_True by done. eexists _, _, _. split_and!; [done|exact I|done|].
    intros Hid. destruct (turning_last _ _ _ _ _ _ _ Ht) as [Hn|[_ [i Hi]]]; [|by apply Hid in Hi].
    apply load_next_Ok in Hl as (b' & [= <-] & Hu). congruence.
  - assert (Hl : load_next q (Ptr b) = Ok (Ptr (lst a olds))) by (apply load_next_Ok; by exists b).
    rewrite Hl. cbn [mbind outcome_bind]. rewrite decide_False by done.
    exists q, (CSave (Ptr a) out (first news) (Ptr b)), ((d :: pre) ++ fresh). split_and!; [done| |done|cbn; lia].
    eapply inv_same; try done. right. exists d, pre, fresh. split_and!; try done. by exists a, olds, b, news.
Qed.

Lemma advances_save q ps L node out tail p :
  inv q (CSave node out tail p) ps L → advances q (CSave node out tail p) ps L.
Proof.
  intros I.
  destruct (inv_shape _ _ _ _ I) as [(_ & _ & _ & Hv)|(d & pre & fresh & -> & Hb & Hh & Hs)]; [done|].
  destruct Hs as (a & olds & b & news & Ht & -> & -> & -> & Hout & Hn).
  assert (Hl : load_next q (Ptr b) = Ok (Ptr (lst a olds))) by (apply load_next_Ok; by exists b).
  unfold advances. cbn [DequeueImpl_next ReverseList_next]. rewrite Hl. cbn [mbind outcome_bind].
  eexists _, _, _. split_and!; [done| |done|cbn; lia].
  eapply inv_same; try done. right. exists d, pre, fresh. split_and!; try done. by exists a, olds, b, news.
Qed.

(** A link stored into a node of the queue by the consumer. *)
Lemma inv_relink q c c' ps L a n v p :
  inv q c ps L → quiet q ps → a ∈ L → nodes q !! a = Some n → next_of (nodes q) a = Some p → p ≠ UNCONNECTED →
  detached c' = detached c → out_ok c' →
  shaped (with_nodes q (<[a := mkNode v (data_mem n)]> (nodes q))) c' ps L →
  inv (with_nodes q (<[a := mkNode v (data_mem n)]> (nodes q))) c' ps L.
Proof.
  intros I Hq HaL Ha Hp Hne Hd Ho Hs. split; try done; try apply I.
  - intros b. cbn. rewrite is_Some_relink by done. rewrite Hd. apply (inv_dom _ _ _ _ I).
  - intros b. rewrite Hd. apply (inv_detached _ _ _ _ I).
  - intros i pc Hi.
    pose proof (producers_relink _ _ _ _ _ _ v _ (inv_producer _ _ _ _ I) Hq HaL Ha Hp Hne i pc Hi) as Hpc.
    eapply producer_frame; [done| |done|exact Hpc]. intros b x _ ? ?. by rewrite Hd.
Qed.

Lemma backward_relink h ps y l a n v :
  h !! a = Some n → a ∉ l → backward h ps y l → backward (<[a := mkNode v (data_mem n)]> h) ps y l.
Proof.
  intros Ha Hni. apply backward_impl. intros x z Hx. unfold attached. rewrite next_of_insert.
  by rewrite decide_False by set_solver.
Qed.

Lemma advances_turn q ps L node out tail p saved :
  inv q (CTurn node out tail p saved) ps L → advances q (CTurn node out tail p saved) ps L.
Proof.
  intros I.
  destruct (inv_shape _ _ _ _ I) as [(_ & _ & _ & Hv)|(d & pre & fresh & -> & Hb & Hh & Hs)]; [done|].
  destruct Hs as (a & olds & b & news & [Hpre Hend Holds Hnews Hq] & -> & -> & -> & Hout & Hn & ->).
  injection Hpre as -> ->. rewrite <- app_assoc in *. cbn [app] in *.
  pose proof (inv_nodup _ _ _ _ I) as Hnd. cbn [app] in Hnd. rewrite <- app_assoc in Hnd. cbn [app] in Hnd.
  apply NoDup_cons in Hnd as [Ha Hnd]. apply NoDup_app in Hnd as (Hndo & Hdis & Hnd).
  apply NoDup_cons in Hnd as [Hbn _].
  assert (Hbo : b ∉ olds) by (intros Hin; apply (Hdis b Hin); set_solver).
  assert (Hba : b ≠ a) by set_solver.
  assert (Hh' : head_ q = Ptr (lst a ((olds ++ b :: news) ++ fresh)))
    by (rewrite Hh, <- !app_assoc; done).
  destruct (store_next_exists q b _ (first news) Hn) as (n & Hbl & _ & Hst).
  unfold advances. cbn [DequeueImpl_next ReverseList_next]. rewrite Hst. cbn [mbind outcome_bind].
  rewrite decide_False by done.
  set (q' := with_nodes q (<[b := mkNode (first news) (data_mem n)]> (nodes q))).
  assert (Hval : ∀ l, values (nodes q') l = values (nodes q) l) by (intros l; by apply relink_values).
  assert (Hda : data_of (nodes q') a = data_of (nodes q) a)
    by (cbn; by rewrite data_of_insert, decide_False).
  assert (Ht : turning q' ps (a :: olds ++ b :: news) a olds (b :: news)).
  { apply backward_app in Holds as [Holds _]. split; try done.
    - cbn. by rewrite next_of_insert, decide_False.
    - by apply backward_relink.
    - split; [cbn; by rewrite next_of_insert, decide_True|]. apply forward_relink; [done|set_solver|done]. }
  assert (Hfr : backward (nodes q') ps (lst a (olds ++ b :: news)) fresh)
    by (apply backward_relink; [done|set_solver|done]).
  assert (HbL : b ∈ (a :: olds ++ b :: news) ++ fresh) by set_solver.
  assert (Hplace : place b (a :: (olds ++ b :: news) ++ fresh) = S (length olds)).
  { rewrite <- app_assoc. cbn [app]. rewrite app_comm_cons. apply (place_middle b (a :: olds)). set_solver. }
  destruct (decide (olds = [])) as [->|Hne].
  - cbn [lst]. rewrite decide_True by done.
    exists q', (CJoin (Ptr a) out (Ptr b)), ((a :: [] ++ b :: news) ++ fresh).
    split_and!; [done| |cbn [in_hand]; by rewrite Hval|cbn [left_to_do place_of]; rewrite Hplace; lia].
    eapply inv_relink; try done. right. exists a, (b :: news), fresh. split_and!; [done|exact Hfr|exact Hh'|].
    exists a, (b :: news). split_and!; try done. rewrite Hout. symmetry. exact Hda.
  - assert (Hla : lst a olds ≠ a).
    { intros Hl. apply Ha. rewrite <- Hl at 1. destruct olds as [|c olds]; [done|]. pose proof (lst_in c olds) as Hin. cbn [lst]. set_solver. }
    rewrite decide_False by congruence.
    exists q', (CWait (Ptr a) out (Ptr b) (Ptr (lst a olds))), ((a :: olds ++ b :: news) ++ fresh).
    split_and!; [done| |cbn [in_hand]; by rewrite Hval|].
    2: { intros _. cbn [left_to_do place_of]. rewrite Hplace.
         destruct olds as [|c olds _] using rev_ind; [done|]. rewrite lst_app. cbn [lst].
         change ((a :: (olds ++ [c]) ++ b :: news) ++ fresh) with (a :: ((olds ++ [c]) ++ b :: news) ++ fresh).
         rewrite <- !app_assoc. cbn [app]. rewrite app_comm_cons.
         rewrite (place_middle c (a :: olds)); [rewrite length_app; cbn; lia|].
         apply NoDup_app in Hndo as (_ & Hd & _). intros [->|Hin]%elem_of_cons; [set_solver|].
         apply (Hd c Hin). set_solver. }
    eapply inv_relink; try done. right. exists a, (olds ++ b :: news), fresh. split_and!; [done|exact Hfr|exact Hh'|].
    destruct olds as [|c olds _] using rev_ind; [done|]. rewrite lst_app. cbn [lst].
    exists a, olds, c, (b :: news). split_and!; try done. rewrite Hout. symmetry. exact Hda.
Qed.

Lemma advances_join q ps L node out tail :
  inv q (CJoin node out tail) ps L → advances q (CJoin node out tail) ps L.
Proof.
  intros I.
  destruct (inv_shape _ _ _ _ I) as [(_ & _ & _ & Hv)|(d & pre & fresh & -> & Hb & Hh & Hs)]; [done|].
  destruct Hs as (a & news & [Hpre Hend _ Hnews Hq] & Hne & -> & -> & Hout). injection Hpre as -> ->.
  pose proof (inv_nodup _ _ _ _ I) as Hnd. apply NoDup_cons in Hnd as [Ha Hnd].
  destruct (next_data _ _ _ Hend) as [x Hx].
  destruct (store_next_exists q a _ (first news) Hend) as (n & Hal & _ & Hst).
  unfold advances. cbn [DequeueImpl_next ReverseList_next]. rewrite Hst. cbn [mbind outcome_bind].
  eexists _, (CAdvance (Ptr a) out), (news ++ fresh). split_and!; [done| | |cbn; lia].
  - apply (inv_detach q _ (CJoin (Ptr a) out (first news)) _ ps a); try done.
    + intros b. by apply is_Some_relink.
    + intros i pc. eapply producers_relink; [apply (inv_producer _ _ _ _ I)|done|set_solver|done|done|done].
    + cbn. rewrite next_of_insert, decide_True by done. by destruct news.
    + split; [rewrite Hout, Hx; by eexists|by eexists].
    + right. destruct news as [|b news]; [done|]. exists b, news, fresh. split_and!; [done| |done|].
      * cbn. apply backward_relink; [done|set_solver|done].
      * exists (Ptr b). split; [apply load_next_Ok; exists a; split; [done|]; cbn;
          by rewrite next_of_insert, decide_True|].
        apply front_chain; [done| |done]. cbn [with_nodes nodes].
        apply forward_relink; [done|set_solver|done].
  - cbn [in_hand with_nodes nodes app]. rewrite relink_values by done. rewrite Hout, Hx.
    by rewrite (values_cons _ _ _ _ Hx).
Qed.

Lemma advances_advance q ps L node out : inv q (CAdvance node out) ps L → advances q (CAdvance node out) ps L.
Proof.
  intros I. destruct (inv_out _ _ _ _ I) as [[x ->] [a ->]].
  assert (Hl : ∃ p, load_next q (Ptr a) = Ok p ∧ shaped (with_dequeue q p) (CFree (Ptr a) (Some x)) ps L).
  { destruct (inv_shape _ _ _ _ I) as [(-> & Hh & Hq & Hv)|(d & pre & fresh & -> & Hb & Hh & p & Hp & Hf)].
    - exists NULL. split; [done|]. by left.
    - exists p. split; [done|]. right. exists d, pre, fresh. split_and!; try done. cbn.
      destruct Hf; [by apply front_chain|by eapply front_pending|by eapply front_published]. }
  destruct Hl as (p & Hl & Hs). unfold advances. cbn [DequeueImpl_next]. rewrite Hl. cbn [mbind outcome_bind].
  eexists _, _, _. split_and!; [done| |reflexivity|cbn; lia]. eapply inv_same; try done. apply (inv_out _ _ _ _ I).
Qed.

Lemma advances_free q ps L node out : inv q (CFree node out) ps L → advances q (CFree node out) ps L.
Proof.
  intros I. destruct (inv_out _ _ _ _ I) as [[x ->] [a ->]].
  pose proof (inv_detached _ _ _ _ I a eq_refl) as HaL.
  assert (Ha : is_Some (nodes q !! a)) by (apply (inv_dom _ _ _ _ I); auto).
  destruct Ha as [n Ha]. unfold advances. cbn [DequeueImpl_next free_node]. rewrite Ha. cbn [mbind outcome_bind].
  assert (Hnx : ∀ b, b ∈ L → next_of (delete a (nodes q)) b = next_of (nodes q) b)
    by (intros b Hb; apply next_of_delete_ne; set_solver).
  eexists _, (CRet true (Some x)), L. split_and!; [done| | |cbn; lia].
  - split; try done; try apply I.
    + intros b. cbn. rewrite lookup_delete_is_Some, (inv_dom _ _ _ _ I). cbn. split.
      * intros [Hne [|[[= ?]|?]]]; [auto|done|auto].
      * intros [Hb|[|(i & y & Hi)]]; [split; [set_solver|auto]|done|].
        split; [|eauto]. intros ->. by destruct (inv_producer _ _ _ _ I i _ Hi) as (_ & _ & ?).
    + intros i pc Hi. pose proof (inv_producer _ _ _ _ I i pc Hi) as Hpc.
      eapply producer_frame; [|intros b y _ ? _; by split|done|exact Hpc]. intros b Hb. cbn.
      apply lookup_delete_ne. intros ->. destruct pc; cbn in Hb, Hpc; simplify_eq;
        [by destruct Hpc as (_ & _ & ?)|apply HaL, Hpc..].
    + destruct (inv_shape _ _ _ _ I) as [(-> & ? & ? & ?)|(d & pre & fresh & -> & Hb & Hh & Hs)]; [by left|].
      right. exists d, pre, fresh. split_and!; [done| |done|].
      * revert Hb. cbn. apply backward_impl. intros y z Hy. unfold attached.
        by rewrite Hnx by set_solver.
      * cbn in Hs |- *. destruct Hs as [? Hf ?|? ? ? ? ? ? ? ? ?|d' ? Hpre Hn ? ?].
        -- apply front_chain; [done| |done]. revert Hf. apply forward_frame. intros y Hy. apply Hnx. set_solver.
        -- by eapply front_pending.
        -- eapply front_published; try done. injection Hpre as -> ->. cbn. by rewrite Hnx by set_solver.
  - cbn. f_equal. apply values_frame. intros b Hb. unfold data_of. cbn.
    rewrite lookup_delete_ne; [done|set_solver].
Qed.

Definition active (c : consumer_pc T) : bool :=
  match c with CIdle | CRet _ _ | CFatal => false | _ => true end.

Lemma consumer_advances q c ps L : active c = true → inv q c ps L → advances q c ps L.
Proof.
  intros Hc I. destruct c; try done; [by apply advances_start|by apply advances_take|by apply advances_data|
    by apply advances_test|by apply advances_head|by apply advances_wait|by apply advances_save|
    by apply advances_turn|by apply advances_join|by apply advances_advance|by apply advances_free].
Qed.

(** *** Executions *)

(** What is not returned yet. *)
Definition remaining q (c : consumer_pc T) L : list T := in_hand c ++ values (nodes q) L.

Lemma mpsc_inv_start k : inv (MPSCQueue_ctor (T := T)) CIdle (replicate k PIdle) [].
Proof.
  assert (Hps : ∀ i pc, replicate k (PIdle (T := T)) !! i = Some pc → pc = PIdle)
    by (intros i pc Hi; by apply lookup_replicate in Hi as [-> _]).
  split; try done.
  - constructor.
  - intros a. split; [intros [n Hn]; unfold MPSCQueue_ctor in Hn; cbn [nodes] in Hn; by apply lookup_empty_Some in Hn|].
    intros [Hin|[?|(i & x & Hi)]]; [set_solver|done|by apply Hps in Hi].
  - intros i j pc pc' a Hi _ Ho. apply Hps in Hi as ->. done.
  - intros i pc Hi. apply Hps in Hi as ->. done.
  - left. split_and!; try done. split; [done|]. intros i pc a Hi Hp. apply Hps in Hi as ->. by destruct Hp.
Qed.

(** A producer step changes neither the order nor the data. *)
Lemma producer_step q c ps L i pc q' pc' :
  inv q c ps L → ps !! i = Some pc → (∀ x, pc ≠ PNew x) → Enqueue_next None q pc = Ok (q', pc') →
  ∃ L', inv q' c (<[i := pc']> ps) L' ∧
        remaining q' c L' = remaining q c L ++ enqueued [label_of pc].
Proof.
  intros I Hi Hnew He. pose proof (inv_producer _ _ _ _ I i pc Hi) as Hok.
  destruct pc as [|x|a x|a prev|a|a]; [| |destruct Hok as (Ha & HaL & _)|destruct Hok as (Hn & _ & y & ->)| |].
  - injection He as <- <-. exists L. rewrite list_insert_id by done. cbn. by rewrite app_nil_r.
  - by destruct (Hnew x).
  - exists (L ++ [a]). split; [by eapply inv_exchange|]. injection He as <- _.
    unfold remaining. cbn. rewrite values_app, app_assoc. f_equal. unfold values. cbn. unfold data_of.
    by rewrite Ha.
  - destruct (store_next_exists q a _ (Ptr y) Hn) as (n & Ha & Hun & Hst). cbn [Enqueue_next] in He. rewrite Hst in He.
    injection He as <- <-. exists L. split.
    + eapply inv_connect; try done; [|by intros ? ? [= <- <-]|by left]. intros b. split; by intros [?|?].
    + unfold remaining. cbn. by rewrite relink_values, app_nil_r.
  - destruct Hok as [Hn _]. destruct (store_next_exists q a _ NULL Hn) as (n & Ha & Hun & Hst).
    cbn [Enqueue_next] in He. rewrite Hst in He. injection He as <- <-. exists L. split.
    + eapply inv_connect; try done; [|by right]. intros b. split; intros [[= <-]|[= <-]]; [by right|by left].
    + unfold remaining. cbn. by rewrite relink_values, app_nil_r.
  - injection He as <- <-. exists L. split; [by apply inv_publish|]. unfold remaining. cbn. by rewrite app_nil_r.
Qed.

Lemma values_alloc q ps c L a x :
  inv q c ps L → nodes q !! a = None →
  values (<[a := mkNode UNCONNECTED x]> (nodes q)) L = values (nodes q) L.
Proof.
  intros I Ha. apply values_frame. intros b Hb. rewrite data_of_insert, decide_False; [done|].
  intros ->. destruct (proj2 (inv_dom _ _ _ _ I b)) as [n Hn]; [by left|congruence].
Qed.

Lemma enqueued_app (tr1 tr2 : list (label T)) : enqueued (tr1 ++ tr2) = enqueued tr1 ++ enqueued tr2.
Proof. apply bind_app. Qed.
Lemma dequeued_app (tr1 tr2 : list (label T)) : dequeued (tr1 ++ tr2) = dequeued tr1 ++ dequeued tr2.
Proof. apply bind_app. Qed.

#[local] Ltac silent :=
  change (enqueued [Tau]) with (@nil T); change (dequeued [Tau]) with (@nil T); rewrite ?app_nil_r.

(** Every reachable state keeps the invariant, and what has been enqueued is
    what has been returned and what remains. *)
Lemma exec_inv k tr q c ps :
  exec (start k) tr (mkConfig q c ps) →
  ∃ L, inv q c ps L ∧ enqueued tr = dequeued tr ++ remaining q c L.
Proof.
  intros E. remember (mkConfig q c ps) as cf eqn:Hcf. revert q c ps Hcf.
  remember (start k) as c0 eqn:Hc0. induction E as [c0|c0 tr c1 l c2 E IH Hs]; intros q c ps ->.
  { injection Hc0 as -> -> ->. exists []. split; [apply mpsc_inv_start|done]. }
  destruct c1 as [q1 co1 ps1]. destruct (IH Hc0 q1 co1 ps1 eq_refl) as (L & I & Htr). clear IH E Hc0 c0.
  rewrite enqueued_app, dequeued_app, Htr, <- !app_assoc.
  inversion Hs; subst.
  - exists L. split; [by apply inv_call|]. silent. done.
  - match goal with H : Enqueue_next _ _ _ = _ |- _ => injection H as <- <- end.
    exists L. split; [by apply inv_alloc|]. silent. unfold remaining. cbn. erewrite values_alloc by done. done.
  - edestruct producer_step as (L' & I' & Hr); [exact I|done..|]. exists L'. split; [done|].
    rewrite Hr, <- app_assoc. f_equal. replace (dequeued [label_of pc]) with (@nil T) by (by destruct pc). done.
  - exists L. split; [|silent; done]. eapply inv_same; try done. apply (inv_shape _ _ _ _ I).
  - destruct (active co1) eqn:Ha.
    + destruct (consumer_advances q1 co1 ps L Ha I) as (q' & c' & L' & Hn & I' & Hr & _).
      match goal with H : DequeueImpl_next _ _ = _ |- _ => rewrite H in Hn; injection Hn as <- <- end.
      exists L'. split; [done|]. silent. f_equal. exact Hr.
    + assert (Hsame : q1 = q ∧ co1 = c) by (destruct co1; try done; cbn in *; by simplify_eq).
      destruct Hsame as [-> ->]. exists L. split; [done|]. silent. done.
  - exists L. split.
    + eapply inv_same; try done. apply (inv_shape _ _ _ _ I).
    + pose proof (inv_out _ _ _ _ I) as Ho. rewrite <- app_assoc. f_equal. unfold remaining.
      destruct ok; cbn in *; [destruct Ho as [x ->]|]; cbn; by rewrite app_nil_r.
Qed.

(** *** A consumer alone *)

(** The consumer has a node and will return an item. *)
Definition past (c : consumer_pc T) : bool :=
  match c with CIdle | CStart _ | CTake _ | CFatal | CRet false _ => false | _ => true end.

Lemma past_next q c q' c' :
  past c = true → DequeueImpl_next q c = Ok (q', c') → past c' = true ∨ c' = CFatal.
Proof.
  intros Hp Hn.
  destruct c; cbn [past] in Hp; try done; cbn [DequeueImpl_next ReverseList_next] in Hn;
    repeat match goal with
    | H : context [load_next ?q ?p] |- _ => destruct (load_next q p); cbn [mbind outcome_bind] in H
    | H : context [load_node ?q ?p] |- _ => destruct (load_node q p); cbn [mbind outcome_bind] in H
    | H : context [store_next ?q ?p ?v] |- _ => destruct (store_next q p v); cbn [mbind outcome_bind] in H
    | H : context [free_node ?q ?p] |- _ => destruct (free_node q p); cbn [mbind outcome_bind] in H
    | H : context [if ?b : bool then _ else _] |- _ => destruct b; cbn [mbind outcome_bind] in H
    | H : context [decide ?P] |- _ => destruct (decide P)
    end; simplify_eq; auto.
Qed.

Lemma run_past fuel q c ps L :
  inv q c ps L → idle ps → past c = true → (left_to_do c L ≤ fuel)%nat →
  ∃ q' x L', run_consumer fuel q c = Ok (q', true, Some x) ∧ inv q' CIdle ps L' ∧
             remaining q c L = x :: values (nodes q') L'.
Proof.
  revert q c L. induction fuel as [|fuel IH]; intros q c L I Hid Hp Hf.
  all: destruct (active c) eqn:Ha.
  - exfalso. destruct c; cbn in Ha, Hf; done || lia.
  - destruct c as [| | | | | | | | | | | |ok out|]; try done. destruct ok; [|done].
    destruct (inv_out _ _ _ _ I) as [x ->]. exists q, x, L. split_and!; [done| |done].
    eapply inv_same; try done. apply (inv_shape _ _ _ _ I).
  - destruct (consumer_advances q c ps L Ha I) as (q1 & c1 & L1 & Hn & I1 & Hr & Hlt). specialize (Hlt Hid).
    destruct (past_next _ _ _ _ Hp Hn) as [Hp1| ->].
    2: { by destruct (inv_shape _ _ _ _ I1) as [(_ & _ & _ & ?)|(? & ? & ? & _ & _ & _ & ?)]. }
    destruct (IH q1 c1 L1 I1 Hid Hp1 ltac:(lia)) as (q' & x & L' & Hrun & I' & Hr').
    exists q', x, L'. split_and!; [|done|].
    + destruct c; try done; cbn [run_consumer]; rewrite Hn; exact Hrun.
    + rewrite <- Hr'. exact Hr.
  - destruct c as [| | | | | | | | | | | |ok out|]; try done. destruct ok; [|done].
    destruct (inv_out _ _ _ _ I) as [x ->]. exists q, x, L. split_and!; [done| |done].
    eapply inv_same; try done. apply (inv_shape _ _ _ _ I).
Qed.

(** A call on an empty queue. *)
Lemma dequeue_none fuel q ps :
  inv q CIdle ps [] → (2 ≤ fuel)%nat → Dequeue fuel q = Ok (with_enqueue q NULL, false, None).
Proof.
  intros I Hf. destruct fuel as [|[|fuel]]; [lia..|].
  destruct (inv_shape _ _ _ _ I) as [(_ & _ & [He _] & Hv)|(d & pre & fresh & Hn & _)]; [|done].
  unfold Dequeue, DequeueImpl. cbn [run_consumer DequeueImpl_next]. cbn in Hv.
  rewrite Hv, decide_True by done. cbn [mbind outcome_bind run_consumer DequeueImpl_next].
  rewrite He, decide_True by done. by destruct fuel.
Qed.

(** A call on a queue that holds items. *)
Lemma dequeue_some fuel q ps L :
  inv q CIdle ps L → idle ps → L ≠ [] → (3 * length L + 9 ≤ fuel)%nat →
  ∃ q' x L', Dequeue fuel q = Ok (q', true, Some x) ∧ inv q' CIdle ps L' ∧
             values (nodes q) L = x :: values (nodes q') L'.
Proof.
  intros I Hid HL Hf.
  assert (I0 : inv q (CStart true) ps L) by (eapply inv_same; try done; apply (inv_shape _ _ _ _ I)).
  destruct (inv_shape _ _ _ _ I) as [(-> & _)|(d & pre & fresh & HLe & Hb & Hh & Hs)]; [done|].
  destruct fuel as [|[|fuel]]; [lia..|]. unfold Dequeue, DequeueImpl. cbn [run_consumer].
  destruct (advances_start q ps L true I0) as (q1 & c1 & L1 & Hn1 & I1 & Hr1 & Hlt1). specialize (Hlt1 Hid).
  rewrite Hn1. cbn [mbind outcome_bind]. unfold DequeueImpl_next in Hn1. case_decide as Hd.
  - injection Hn1 as <- <-. cbn [left_to_do] in Hlt1.
    destruct (advances_take q ps L1 true I1) as (q2 & c2 & L2 & Hn2 & I2 & Hr2 & Hlt2). specialize (Hlt2 Hid).
    cbn [run_consumer]. rewrite Hn2. cbn [mbind outcome_bind].
    cbn in Hs. rewrite Hd in Hs. destruct Hs as [? _ _|? i pc _ _ _ _ Hi Hpc|d' _ _ _ He _]; [done| |].
    + apply Hid in Hi as ->. by destruct Hpc.
    + cbn [DequeueImpl_next] in Hn2. rewrite He, decide_False in Hn2 by done. injection Hn2 as <- <-.
      cbn [left_to_do] in Hlt2.
      destruct (run_past fuel _ _ ps L2 I2 Hid eq_refl) as (q' & x & L' & Hrun & I' & Hr'); [cbn; lia|].
      exists q', x, L'. split_and!; [done|done|]. cbn [in_hand app] in *. rewrite Hr1, Hr2. exact Hr'.
  - injection Hn1 as <- <-. cbn [left_to_do] in Hlt1.
    destruct (run_past (S fuel) _ _ ps L1 I1 Hid eq_refl) as (q' & x & L' & Hrun & I' & Hr'); [cbn; lia|].
    exists q', x, L'. split_and!; [done|done|]. cbn [in_hand app] in *. rewrite Hr1. exact Hr'.
Qed.

(** *** Calls that discard the item *)

Definition discard (c : consumer_pc T) : consumer_pc T :=
  match c with
  | CStart _ => CStart false
  | CTake _ => CTake false
  | CData _ n => CData false n
  | CTest n _ => CTest n None
  | CHead n _ => CHead n None
  | CWait n _ t p => CWait n None t p
  | CSave n _ t p => CSave n None t p
  | CTurn n _ t p s => CTurn n None t p s
  | CJoin n _ t => CJoin n None t
  | CAdvance n _ => CAdvance n None
  | CFree n _ => CFree n None
  | CRet ok _ => CRet ok None
  | c => c
  end.

Lemma discard_next q c q' c' :
  DequeueImpl_next q c = Ok (q', c') → DequeueImpl_next q (discard c) = Ok (q', discard c').
Proof.
  intros Hn.
  destruct c; cbn [discard DequeueImpl_next ReverseList_next] in *;
    repeat match goal with
    | H : context [load_next ?q ?p] |- _ => destruct (load_next q p); cbn [mbind outcome_bind] in *
    | H : context [load_node ?q ?p] |- _ => destruct (load_node q p); cbn [mbind outcome_bind] in *
    | H : context [store_next ?q ?p ?v] |- _ => destruct (store_next q p v); cbn [mbind outcome_bind] in *
    | H : context [free_node ?q ?p] |- _ => destruct (free_node q p); cbn [mbind outcome_bind] in *
    | H : context [if ?b : bool then _ else _] |- _ => destruct b; cbn [mbind outcome_bind] in *
    | H : context [decide ?P] |- _ => destruct (decide P)
    end; simplify_eq; try done.
Qed.

Lemma discard_run fuel q c q' ok out :
  run_consumer fuel q c = Ok (q', ok, out) → run_consumer fuel q (discard c) = Ok (q', ok, None).
Proof.
  revert q c. induction fuel as [|fuel IH]; intros q c Hr.
  - destruct c; cbn in *; by simplify_eq.
  - destruct (active c) eqn:Ha; [|destruct c; try done; [exact (IH q CIdle Hr)|cbn in *; by simplify_eq]].
    assert (Hstep : ∃ q1 c1, DequeueImpl_next q c = Ok (q1, c1) ∧ run_consumer fuel q1 c1 = Ok (q', ok, out)).
    { destruct c; try done; cbn [run_consumer] in Hr;
        destruct (DequeueImpl_next q _) as [[q1 c1]| |]; try done; by exists q1, c1. }
    destruct Hstep as (q1 & c1 & Hn & Hr1). apply discard_next in Hn.
    transitivity (run_consumer fuel q1 (discard c1)); [|by apply IH].
    destruct c; try done; cbn [discard run_consumer] in *; by rewrite Hn.
Qed.

Lemma values_length q ps L : inv q CIdle ps L → length (values (nodes q) L) = length L.
Proof.
  intros I. assert (Hall : ∀ a, a ∈ L → is_Some (nodes q !! a))
    by (intros a Ha; apply (inv_dom _ _ _ _ I); by left). clear I.
  induction L as [|a L IH]; [done|]. destruct (Hall a) as [m Hm]; [set_solver|].
  rewrite (values_cons _ _ _ (data_mem m)); [|unfold data_of; by rewrite Hm]. cbn. f_equal.
  apply IH. intros b Hb. apply Hall. set_solver.
Qed.

Lemma dtor_frees n q ps L fuel :
  length L = n → inv q CIdle ps L → idle ps → (4 * n + 10 ≤ fuel)%nat →
  ∃ q', MPSCQueue_dtor fuel q = Ok q' ∧ nodes q' = ∅.
Proof.
  revert q L fuel. induction n as [|n IH]; intros q L fuel Hl I Hid Hf;
    (destruct fuel as [|fuel]; [lia|]); cbn [MPSCQueue_dtor].
  - apply length_zero_iff_nil in Hl as ->.
    pose proof (dequeue_none (S fuel) q ps I ltac:(lia)) as Hd. apply discard_run in Hd.
    unfold DequeueImpl. cbn [discard] in Hd. rewrite Hd. cbn [mbind outcome_bind].
    eexists. split; [done|]. apply map_empty. intros a. cbn.
    destruct (nodes q !! a) as [x|] eqn:Ha; [|done]. exfalso.
    destruct (proj1 (inv_dom _ _ _ _ I a)) as [Hin|[?|(i & y & Hi)]]; [by rewrite Ha|set_solver|done|].
    by apply Hid in Hi.
  - assert (HL : L ≠ []) by by intros ->.
    destruct (dequeue_some (S fuel) q ps L I Hid HL ltac:(lia)) as (q1 & x & L1 & Hd & I1 & Hv).
    apply discard_run in Hd. unfold DequeueImpl. cbn [discard] in Hd. rewrite Hd. cbn [mbind outcome_bind].
    apply (IH q1 L1); [|done|done|lia]. pose proof (values_length q ps L I) as H1. rewrite Hv in H1.
    cbn in H1. rewrite (values_length q1 ps L1 I1) in H1. lia.
Qed.
End Invariant.

(** ** Schedules *)

Section Schedule.
Context {T : Type}.

Inductive choice : Type :=
| CallEnqueue (i : nat) (x : T)
| Allocate (i a : nat)
| Produce (i : nat)
| CallDequeue
| Consume
| Return.

Definition schedule_step (c : config T) (ch : choice) : option (label T * config T) :=
  let q := c_queue c in let co := c_consumer c in let ps := c_producers c in
  match ch with
  | CallEnqueue i x =>
      match ps !! i with Some PIdle => Some (Tau, mkConfig q co (<[i := PNew x]> ps)) | _ => None end
  | Allocate i a =>
      match ps !! i, nodes q !! a with
      | Some (PNew x), None =>
          match Enqueue_next (Some a) q (PNew x) with
          | Ok (q', pc') => Some (Tau, mkConfig q' co (<[i := pc']> ps))
          | _ => None
          end
      | _, _ => None
      end
  | Produce i =>
      match ps !! i with
      | Some (PNew _) | None => None
      | Some pc =>
          match Enqueue_next None q pc with
          | Ok (q', pc') => Some (label_of pc, mkConfig q' co (<[i := pc']> ps))
          | _ => None
          end
      end
  | CallDequeue => match co with CIdle => Some (Tau, mkConfig q (CStart true) ps) | _ => None end
  | Consume =>
      match DequeueImpl_next q co with Ok (q', pc') => Some (Tau, mkConfig q' pc' ps) | _ => None end
  | Return => match co with CRet ok out => Some (Ret ok out, mkConfig q CIdle ps) | _ => None end
  end.

Fixpoint schedule (tr : list (label T)) (c : config T) (l : list choice) :
    option (list (label T) * config T) :=
  match l with
  | [] => Some (tr, c)
  | ch :: l =>
      match schedule_step c ch with
      | Some (lb, c') => schedule (tr ++ [lb]) c' l
      | None => None
      end
  end.

Lemma schedule_step_sound c ch lb c' : schedule_step c ch = Some (lb, c') → step c lb c'.
Proof.
  destruct c as [q co ps]. unfold schedule_step. cbn [c_queue c_consumer c_producers]. intros Hs.
  destruct ch as [i x|i a|i| | |].
  - destruct (ps !! i) as [[]|] eqn:Hi; try done. injection Hs as <- <-. by apply step_enqueue.
  - destruct (ps !! i) as [[]|] eqn:Hi; try done. destruct (nodes q !! a) eqn:Ha; [done|].
    destruct (Enqueue_next _ _ _) as [[q' pc']| |] eqn:He; try done. injection Hs as <- <-.
    by eapply step_alloc.
  - destruct (ps !! i) as [pc|] eqn:Hi; [|done].
    assert (Hpc : (∀ x, pc ≠ PNew x) ∧ ∃ q' pc', Enqueue_next None q pc = Ok (q', pc') ∧
                   lb = label_of pc ∧ c' = mkConfig q' co (<[i := pc']> ps)).
    { destruct pc; try done; (split; [done|]);
        (destruct (Enqueue_next None q _) as [[q' pc']| |]; try done); injection Hs as <- <-;
        by exists q', pc'. }
    destruct Hpc as (Hnew & q' & pc' & He & -> & ->). by eapply step_producer.
  - destruct co; try done. injection Hs as <- <-. apply step_dequeue.
  - destruct (DequeueImpl_next _ _) as [[q' pc']| |] eqn:He; try done. injection Hs as <- <-.
    by apply step_consumer.
  - destruct co; try done. injection Hs as <- <-. apply step_return.
Qed.

Lemma schedule_sound c0 tr c l tr' c' :
  exec c0 tr c → schedule tr c l = Some (tr', c') → exec c0 tr' c'.
Proof.
  revert tr c. induction l as [|ch l IH]; intros tr c E Hs; cbn [schedule] in Hs; [by simplify_eq|].
  destruct (schedule_step c ch) as [[lb c1]|] eqn:Hstep; [|done].
  eapply IH; [|exact Hs]. eapply exec_snoc; [exact E|by eapply schedule_step_sound].
Qed.
End Schedule.

(** ** Properties *)

Section Properties.
Context {T : Type}.

(** C15. However the accesses of the producers and of the consumer interleave,
    no thread touches a node that is freed or not allocated and no CHECK fails,
    and the items come out in the order in which their producers exchanged the
    head: what has been dequeued is a prefix of what has been enqueued. *)
Theorem mpsc_fifo k (tr : list (label T)) q c ps :
  exec (start k) tr (mkConfig q c ps) →
  dequeued tr `prefix_of` enqueued tr ∧
  c ≠ CFatal ∧ (∃ r, DequeueImpl_next q c = Ok r) ∧
  (∀ i pc, ps !! i = Some pc → (∀ x, pc ≠ PNew x) → ∃ r, Enqueue_next None q pc = Ok r).
Proof.
  intros E. destruct (exec_inv _ _ _ _ _ E) as (L & I & Htr). split_and!.
  - exists (remaining q c L). done.
  - intros ->. by destruct (inv_shape _ _ _ _ I) as [(_ & _ & _ & ?)|(? & ? & ? & _ & _ & _ & ?)].
  - destruct (active c) eqn:Ha; [|destruct c; try done; by eexists].
    destruct (consumer_advances q c ps L Ha I) as (q' & c' & _ & -> & _). by eexists.
  - intros i pc Hi Hnew. pose proof (inv_producer _ _ _ _ I i pc Hi) as Hok.
    destruct pc as [|x|a x|a prev|a|a]; try (by eexists); [by destruct (Hnew x)|..]; destruct Hok as [Hn _].
    + destruct (store_next_exists q a _ prev Hn) as (n & _ & _ & Hst). cbn [Enqueue_next].
      rewrite Hst. by eexists.
    + destruct (store_next_exists q a _ NULL Hn) as (n & _ & _ & Hst). cbn [Enqueue_next].
      rewrite Hst. by eexists.
Qed.

(** Dequeue answers that there is nothing only when everything enqueued has
    been dequeued, or while the producer that found the queue empty has
    exchanged the head but not yet published its node. *)
Theorem mpsc_empty k (tr : list (label T)) q want ps q' :
  exec (start k) tr (mkConfig q (CTake want) ps) →
  DequeueImpl_next q (CTake want) = Ok (q', CRet false None) →
  enqueued tr = dequeued tr ∨ ∃ i a, ps !! i = Some (PNull a) ∨ ps !! i = Some (PStore a).
Proof.
  intros E Hn. destruct (exec_inv _ _ _ _ _ E) as (L & I & Htr).
  destruct (inv_shape _ _ _ _ I) as [(-> & _)|(d & pre & fresh & _ & _ & _ & Hs & _)].
  { left. rewrite Htr. by rewrite app_nil_r. }
  destruct Hs as [? _ _|d' i pc _ _ _ _ Hi Hpc|d' _ _ _ He _]; [done| |].
  - right. exists i, d'. by destruct Hpc as [->| ->]; [left|right].
  - cbn in Hn. by rewrite He in Hn.
Qed.

(** Once the producers have finished, nothing enqueued is lost: a call of
    Dequeue terminates and returns the oldest item not yet dequeued, or false
    when there is none, and the destructor terminates with every node freed. *)
Theorem mpsc_drains k (tr : list (label T)) q ps fuel :
  exec (start k) tr (mkConfig q CIdle ps) → idle ps → (4 * length (enqueued tr) + 10 ≤ fuel)%nat →
  (match drop (length (dequeued tr)) (enqueued tr) with
   | x :: _ => ∃ q', Dequeue fuel q = Ok (q', true, Some x)
   | [] => ∃ q', Dequeue fuel q = Ok (q', false, None)
   end) ∧
  ∃ q', MPSCQueue_dtor fuel q = Ok q' ∧ nodes q' = ∅.
Proof.
  intros E Hid Hf. destruct (exec_inv _ _ _ _ _ E) as (L & I & Htr).
  assert (Hrem : drop (length (dequeued tr)) (enqueued tr) = values (nodes q) L)
    by (rewrite Htr, drop_app_length; done).
  assert (Hlen : (length L ≤ length (enqueued tr))%nat).
  { rewrite Htr, length_app. cbn. rewrite (values_length q ps L I). lia. }
  rewrite Hrem. split.
  - destruct (decide (L = [])) as [->|HL].
    + cbn. eexists. apply (dequeue_none fuel q ps I). lia.
    + destruct (dequeue_some fuel q ps L I Hid HL ltac:(lia)) as (q' & x & L' & Hd & _ & ->). by exists q'.
  - apply (dtor_frees (length L) q ps L fuel eq_refl I Hid). lia.
Qed.
End Properties.

(** Two producers: the second enqueues while the first has not published yet;
    the consumer then turns the second node around. *)
Definition ex_schedule : list (choice (T := Z)) :=
  [CallEnqueue 0 7%Z; CallEnqueue 1 8%Z; Allocate 0 10; Allocate 1 11; Produce 0; Produce 1;
   CallDequeue; Consume].
Definition ex_finish : list (choice (T := Z)) :=
  [Consume; Return; Produce 0; Produce 0; Produce 1; CallDequeue; Consume; Consume; Consume; Consume;
   Consume; Consume; Consume; Consume; Consume; Consume; Consume; Return].

Definition ex_config (l : list (choice (T := Z))) : option (list (label Z) * config Z) :=
  schedule [] (start 2) l.

Lemma mpsc_ex_exec l tr c : ex_config l = Some (tr, c) → exec (start 2) tr c.
Proof. apply schedule_sound. apply exec_nil. Qed.

Lemma mpsc_fifo_witness :
  ∃ tr q c ps, exec (start 2) tr (mkConfig q c ps) ∧ enqueued tr = [7%Z; 8%Z] ∧ dequeued tr = [7%Z] ∧
    dequeued tr `prefix_of` enqueued tr ∧ c ≠ CFatal.
Proof.
  assert (Hex : ∃ tr q c ps, ex_config (ex_schedule ++ ex_finish) = Some (tr, mkConfig q c ps) ∧
                  enqueued tr = [7%Z; 8%Z] ∧ dequeued tr = [7%Z])
    by (eexists _, _, _, _; split; [vm_compute; reflexivity|split; reflexivity]).
  destruct Hex as (tr & q & c & ps & Hs & He & Hd). apply mpsc_ex_exec in Hs.
  exists tr, q, c, ps. destruct (mpsc_fifo 2 tr q c ps Hs) as (Hp & Hc & _).
  split; [exact Hs|]. split; [exact He|]. split; [exact Hd|]. split; [exact Hp|exact Hc].
Defined.

Lemma mpsc_empty_witness :
  ∃ tr q ps q', exec (start 2) tr (mkConfig q (CTake true) ps) ∧
    DequeueImpl_next q (CTake true) = Ok (q', CRet false None) ∧ enqueued tr = [7%Z; 8%Z] ∧
    (enqueued tr = dequeued tr ∨ ∃ i a, ps !! i = Some (PNull a) ∨ ps !! i = Some (PStore a)).
Proof.
  assert (Hex : ∃ tr q ps q', ex_config ex_schedule = Some (tr, mkConfig q (CTake true) ps) ∧
                  DequeueImpl_next q (CTake true) = Ok (q', CRet false None) ∧ enqueued tr = [7%Z; 8%Z])
    by (eexists _, _, _, _; split; [vm_compute; reflexivity|split; [vm_compute; reflexivity|reflexivity]]).
  destruct Hex as (tr & q & ps & q' & Hs & Hn & He). apply mpsc_ex_exec in Hs.
  exists tr, q, ps, q'. split; [exact Hs|]. split; [exact Hn|]. split; [exact He|].
  exact (mpsc_empty 2 tr q true ps q' Hs Hn).
Defined.

Lemma mpsc_drains_witness :
  ∃ tr q ps q1 q2, exec (start 2) tr (mkConfig q CIdle ps) ∧ idle ps ∧
    Dequeue 18 q = Ok (q1, true, Some 8%Z) ∧ MPSCQueue_dtor 18 q = Ok q2 ∧ nodes q2 = ∅.
Proof.
  assert (Hex : ∃ tr q, ex_config (ex_schedule ++ ex_finish) = Some (tr, mkConfig q CIdle [PIdle; PIdle]) ∧
                  enqueued tr = [7%Z; 8%Z] ∧ dequeued tr = [7%Z])
    by (eexists _, _; split; [vm_compute; reflexivity|split; reflexivity]).
  destruct Hex as (tr & q & Hs & He & Hd). apply mpsc_ex_exec in Hs.
  assert (Hid : idle (T := Z) [PIdle; PIdle])
    by (intros [|[|i]] pc Hi; [by injection Hi as <-|by injection Hi as <-|cbn in Hi; by destruct i]).
  destruct (mpsc_drains 2 tr q [PIdle; PIdle] 18 Hs Hid) as [Hdq (q2 & Hdt & Hn)];
    [rewrite He; cbn; lia|].
  rewrite He, Hd in Hdq. destruct Hdq as [q1 Hq1].
  exists tr, q, [PIdle; PIdle], q1, q2. split; [exact Hs|]. split; [exact Hid|].
  split; [exact Hq1|]. split; [exact Hdt|exact Hn].
Defined.
