(* ===== verification/Pool.v ===== *)
(** * The pool of same-sized items (libsh/butil/single_threaded_pool.h)

    [SingleThreadedPool] hands out the nodes of blocks it allocates and keeps
    returned nodes in a free list threaded through their own space: a node is a
    union, so a cell holds either the pointer of the free list or what the user
    of the space has written.  Blocks live in a heap of block addresses, a node
    is its block and its index; an access outside is the fault [OutOfRange],
    reading a pointer from a cell that holds user data is [Uninitialised]. *)

From Stdlib Require Import ZArith Lia.
From stdpp Require Import base list gmap.
From S2P Require Import Prelude Numerics BoundedQueue.

Open Scope Z_scope.

Definition node_addr : Type := nat * nat.

(** [union Node] *)
Inductive Node : Type :=
| Spaces
| Next (p : option node_addr).

Record Block : Type := mkBlock { nalloc : Z; block_next : option nat; block_nodes : list Node }.

Record SingleThreadedPool : Type := mkPool {
  free_nodes : option node_addr;
  blocks : option nat;
  memory_ : gmap nat Block
}.

(** ** Sizes *)

Definition sizeof_pointer : Z := 8.
Definition sizeof_size_t : Z := 8.

(** The size of the union, rounded up to the alignment of a pointer. *)
Definition sizeof_Node (item_size : Z) : Z :=
  let s := Z.max sizeof_pointer item_size in (s + 7) / 8 * 8.

Definition INUSE_SIZE (block_size_in : Z) : Z := u64 (block_size_in - sizeof_pointer - sizeof_size_t).

Definition Block_NITEM (item_size block_size_in min_nitem : Z) : Z :=
  if sizeof_Node item_size <=? INUSE_SIZE block_size_in
  then INUSE_SIZE block_size_in / sizeof_Node item_size else min_nitem.

Section Pool.
Context (NITEM : nat).
Notation pool := SingleThreadedPool.

Definition SingleThreadedPool_ctor : pool := mkPool None None ∅.

Definition swap_pools (p other : pool) : pool * pool :=
  (mkPool (free_nodes other) (blocks other) (memory_ other), mkPool (free_nodes p) (blocks p) (memory_ p)).

Definition load_block (m : gmap nat Block) (b : nat) : outcome Block :=
  match m !! b with Some x => Ok x | None => Fault OutOfRange end.

Definition load_node (m : gmap nat Block) (a : node_addr) : outcome Node :=
  x ← load_block m (fst a);
  match block_nodes x !! snd a with Some c => Ok c | None => Fault OutOfRange end.

Definition store_node (m : gmap nat Block) (a : node_addr) (c : Node) : outcome (gmap nat Block) :=
  x ← load_block m (fst a);
  match block_nodes x !! snd a with
  | Some _ => Ok (<[fst a := mkBlock (nalloc x) (block_next x) (<[snd a := c]> (block_nodes x))]> m)
  | None => Fault OutOfRange
  end.

(** [_blocks == NULL || _blocks->nalloc >= Block::NITEM] *)
Definition needs_block (p : pool) : outcome bool :=
  match blocks p with
  | None => Ok true
  | Some b => x ← load_block (memory_ p) b; Ok (Z.of_nat NITEM <=? nalloc x)
  end.

(** [new_block->nalloc = 0; new_block->next = _blocks; _blocks = new_block;]
    with [mem] the block [_allocator.Alloc] returns. *)
Definition add_block (p : pool) (mem : nat) : pool :=
  mkPool (free_nodes p) (Some mem) (<[mem := mkBlock 0 (blocks p) (replicate NITEM Spaces)]> (memory_ p)).

(** [return _blocks->nodes[_blocks->nalloc++].spaces;] *)
Definition take_node (p : pool) : outcome (pool * option node_addr) :=
  match blocks p with
  | None => Fault OutOfRange
  | Some b =>
      x ← load_block (memory_ p) b;
      if nalloc x <? Z.of_nat NITEM
      then Ok (mkPool (free_nodes p) (Some b)
                 (<[b := mkBlock (u64 (nalloc x + 1)) (block_next x) (block_nodes x)]> (memory_ p)),
               Some (b, Z.to_nat (nalloc x)))
      else Fault OutOfRange
  end.

Definition get (p : pool) (mem : option nat) : outcome (pool * option node_addr) :=
  match free_nodes p with
  | Some a =>
      c ← load_node (memory_ p) a;
      match c with
      | Next n => Ok (mkPool n (blocks p) (memory_ p), Some a)
      | Spaces => Fault Uninitialised
      end
  | None =>
      need ← needs_block p;
      if need : bool then
        match mem with
        | None => Ok (p, None)
        | Some b => take_node (add_block p b)
        end
      else take_node p
  end.

Definition back (p : pool) (q : option node_addr) : outcome pool :=
  match q with
  | None => Ok p
  | Some a => m ← store_node (memory_ p) a (Next (free_nodes p)); Ok (mkPool (Some a) (blocks p) m)
  end.

Fixpoint free_blocks (fuel : nat) (b : option nat) (m : gmap nat Block) : outcome (gmap nat Block) :=
  match b with
  | None => Ok m
  | Some a =>
      match fuel with
      | O => Diverge
      | S fuel => x ← load_block m a; free_blocks fuel (block_next x) (delete a m)
      end
  end.

Definition reset (p : pool) : outcome pool :=
  m ← free_blocks (base.size (memory_ p)) (blocks p) (memory_ p); Ok (mkPool None None m).

Fixpoint sum_nalloc (fuel : nat) (b : option nat) (m : gmap nat Block) (n : Z) : outcome Z :=
  match b with
  | None => Ok n
  | Some a =>
      match fuel with
      | O => Diverge
      | S fuel => x ← load_block m a; sum_nalloc fuel (block_next x) m (u64 (n + nalloc x))
      end
  end.

Definition count_allocated (p : pool) : outcome Z :=
  sum_nalloc (base.size (memory_ p)) (blocks p) (memory_ p) 0.

(** One round per free node; there are at most [NITEM] in a block. *)
Fixpoint walk_free (fuel : nat) (a : option node_addr) (m : gmap nat Block) (n : Z) : outcome Z :=
  match a with
  | None => Ok n
  | Some a =>
      match fuel with
      | O => Diverge
      | S fuel =>
          c ← load_node m a;
          match c with Next p => walk_free fuel p m (u64 (n + 1)) | Spaces => Fault Uninitialised end
      end
  end.

Definition count_free (p : pool) : outcome Z :=
  walk_free (NITEM * base.size (memory_ p)) (free_nodes p) (memory_ p) 0.

Definition count_active (p : pool) : outcome Z :=
  n ← count_allocated p; f ← count_free p; Ok (u64 (n - f)).

Definition SingleThreadedPool_dtor (p : pool) : outcome pool := reset p.

(** The user of a space writes into it. *)
Definition write_spaces (p : pool) (a : node_addr) : outcome pool :=
  m ← store_node (memory_ p) a Spaces; Ok (mkPool (free_nodes p) (blocks p) m).
End Pool.

(** ** The invariant *)

Section Invariant.
Context (NITEM : nat).
Notation pool := SingleThreadedPool.
Implicit Types (m : gmap nat Block) (bl : list nat) (fl active : list node_addr).

Fixpoint block_chain m (b : option nat) bl : Prop :=
  match bl with
  | [] => b = None
  | x :: bl => b = Some x ∧ ∃ blk, m !! x = Some blk ∧ block_chain m (block_next blk) bl
  end.

Fixpoint free_chain m (a : option node_addr) fl : Prop :=
  match fl with
  | [] => a = None
  | x :: fl => a = Some x ∧ ∃ n, load_node m x = Ok (Next n) ∧ free_chain m n fl
  end.

(** The nodes of a block that were handed out at least once. *)
Definition used m (b : nat) : list node_addr :=
  match m !! b with Some x => (fun i => (b, i)) <$> seq 0 (Z.to_nat (nalloc x)) | None => [] end.

Definition all_used m bl : list node_addr := bl ≫= used m.

Definition block_ok (x : Block) : Prop :=
  0 <= nalloc x <= Z.of_nat NITEM /\ length (block_nodes x) = NITEM.

Record pool_inv (p : pool) bl fl active : Prop := {
  pi_chain : block_chain (memory_ p) (blocks p) bl;
  pi_nodup : NoDup bl;
  pi_dom : ∀ b, is_Some (memory_ p !! b) ↔ b ∈ bl;
  pi_blocks : map_Forall (fun _ x => block_ok x) (memory_ p);
  pi_free : free_chain (memory_ p) (free_nodes p) fl;
  pi_used : fl ++ active ≡ₚ all_used (memory_ p) bl
}.

Lemma elem_of_used m b a :
  a ∈ used m b ↔ ∃ x, m !! b = Some x ∧ fst a = b ∧ Z.of_nat (snd a) < nalloc x.
Proof.
  unfold used. destruct (m !! b) as [x|]; [|split; [by intros ?%elem_of_nil|naive_solver]].
  rewrite list_elem_of_fmap. split.
  - intros (i & -> & Hi%elem_of_seq). exists x. cbn. split_and!; [done|done|lia].
  - intros (? & [= <-] & <- & Hlt). destruct a as [b i]. cbn in *. exists i. split; [done|].
    apply elem_of_seq. lia.
Qed.

Lemma NoDup_used m b : NoDup (used m b).
Proof.
  unfold used. destruct (m !! b); [|constructor]. apply NoDup_fmap; [by intros ?? [=]|apply NoDup_seq].
Qed.

Lemma NoDup_all_used m bl : NoDup bl → NoDup (all_used m bl).
Proof.
  induction bl as [|b bl IH]; intros Hnd; cbn; [constructor|]. inversion Hnd as [|?? Hb Hnd']; subst.
  apply NoDup_app. split_and!; [apply NoDup_used| |by apply IH].
  intros a Ha Hin. apply elem_of_used in Ha as (x & _ & Hf & _).
  apply list_elem_of_bind in Hin as (b' & Ha & Hb'). apply elem_of_used in Ha as (y & _ & Hf' & _). congruence.
Qed.

(** A used node can be read and written. *)
Lemma used_cell p bl fl active a :
  pool_inv p bl fl active → a ∈ all_used (memory_ p) bl →
  ∃ x c, memory_ p !! fst a = Some x ∧ block_nodes x !! snd a = Some c ∧ (snd a < NITEM)%nat.
Proof.
  intros I Ha. apply list_elem_of_bind in Ha as (b & Ha & _). apply elem_of_used in Ha as (x & Hx & <- & Hlt).
  destruct (pi_blocks _ _ _ _ I _ _ Hx) as [Hn Hl].
  destruct (lookup_lt_is_Some_2 (block_nodes x) (snd a)) as [c Hc]; [lia|]. exists x, c. split_and!; [done|done|lia].
Qed.

(** Writing a cell changes no block list, no count and no other cell. *)
Lemma store_node_spec m a x c c0 :
  m !! fst a = Some x → block_nodes x !! snd a = Some c0 →
  store_node m a c = Ok (<[fst a := mkBlock (nalloc x) (block_next x) (<[snd a := c]> (block_nodes x))]> m).
Proof. intros Hx Hc. unfold store_node, load_block. rewrite Hx. cbn. by rewrite Hc. Qed.

Lemma load_node_spec m a x c : m !! fst a = Some x → block_nodes x !! snd a = Some c → load_node m a = Ok c.
Proof. intros Hx Hc. unfold load_node, load_block. rewrite Hx. cbn. by rewrite Hc. Qed.

Lemma block_chain_update m b bl a x ns k :
  m !! a = Some x → block_chain m b bl → block_chain (<[a := mkBlock k (block_next x) ns]> m) b bl.
Proof.
  intros Ha. revert b. induction bl as [|y bl IH]; intros b; cbn; [done|].
  intros (-> & blk & Hy & Hc). split; [done|]. destruct (decide (a = y)) as [->|Hne].
  - rewrite lookup_insert_eq. eexists. split; [done|]. cbn. apply IH. congruence.
  - rewrite lookup_insert_ne by done. exists blk. split; [done|]. by apply IH.
Qed.

Lemma block_chain_fresh m b bl a x :
  a ∉ bl → block_chain m b bl → block_chain (<[a := x]> m) b bl.
Proof.
  revert b. induction bl as [|y bl IH]; intros b Ha; cbn; [done|].
  intros (-> & blk & Hy & Hc). split; [done|]. rewrite lookup_insert_ne by set_solver.
  exists blk. split; [done|]. apply IH; [set_solver|done].
Qed.

Lemma free_chain_frame m m' a fl :
  (∀ x, x ∈ fl → load_node m' x = load_node m x) → free_chain m a fl → free_chain m' a fl.
Proof.
  revert a. induction fl as [|x fl IH]; intros a Heq; cbn; [done|].
  intros (-> & n & Hn & Hc). split; [done|]. exists n. rewrite Heq by set_solver. split; [done|].
  apply IH; [|done]. intros y Hy. apply Heq. set_solver.
Qed.

Lemma used_update m b a x ns :
  m !! a = Some x → used (<[a := mkBlock (nalloc x) (block_next x) ns]> m) b = used m b.
Proof.
  intros Ha. unfold used. destruct (decide (a = b)) as [->|Hne]; [by rewrite lookup_insert_eq, Ha|].
  by rewrite lookup_insert_ne.
Qed.

Lemma all_used_ext m m' bl : (∀ b, b ∈ bl → used m' b = used m b) → all_used m' bl = all_used m bl.
Proof.
  induction bl as [|b bl IH]; intros Heq; [done|]. unfold all_used in *. cbn.
  rewrite Heq by set_solver. f_equal. apply IH. intros c Hc. apply Heq. set_solver.
Qed.

(** A used node is written: everything but the free list follows. *)
Lemma write_inv p bl fl fl' active active' a c :
  pool_inv p bl fl active → a ∈ all_used (memory_ p) bl → fl' ++ active' ≡ₚ fl ++ active →
  ∃ m', store_node (memory_ p) a c = Ok m' ∧ load_node m' a = Ok c ∧
    (∀ b, b ≠ a → load_node m' b = load_node (memory_ p) b) ∧
    ∀ f, free_chain m' f fl' → pool_inv (mkPool f (blocks p) m') bl fl' active'.
Proof.
  intros I Ha Hperm. destruct (used_cell _ _ _ _ _ I Ha) as (x & c0 & Hx & Hc & _).
  rewrite (store_node_spec _ _ _ _ _ Hx Hc). eexists. split_and!; [done| | |].
  - eapply load_node_spec; [by rewrite lookup_insert_eq|]. cbn. apply list_lookup_insert_eq.
    by eapply lookup_lt_Some.
  - intros [b i] Hne. unfold load_node, load_block. cbn.
    destruct (decide (fst a = b)) as [<-|Hb]; [|by rewrite lookup_insert_ne].
    rewrite lookup_insert_eq, Hx. cbn. rewrite list_lookup_insert_ne; [done|]. destruct a. cbn in *. congruence.
  - intros f Hf. split; cbn.
    + by apply block_chain_update, (pi_chain _ _ _ _ I).
    + apply (pi_nodup _ _ _ _ I).
    + intros b. rewrite <- (pi_dom _ _ _ _ I), lookup_insert_is_Some.
      destruct (decide (fst a = b)) as [<-|]; [|naive_solver]. rewrite Hx. split; [by intros _|by left].
    + apply map_Forall_insert_2; [|apply (pi_blocks _ _ _ _ I)].
      destruct (pi_blocks _ _ _ _ I _ _ Hx) as [? ?]. split; [done|]. cbn. by rewrite length_insert.
    + done.
    + rewrite Hperm, (pi_used _ _ _ _ I). erewrite all_used_ext; [done|]. intros b _. symmetry. by apply used_update.
Qed.

(** *** Operations *)

Lemma free_is_used p bl fl active a : pool_inv p bl fl active → a ∈ fl → a ∈ all_used (memory_ p) bl.
Proof. intros I Ha. rewrite <- (pi_used _ _ _ _ I). set_solver. Qed.
Lemma active_is_used p bl fl active a : pool_inv p bl fl active → a ∈ active → a ∈ all_used (memory_ p) bl.
Proof. intros I Ha. rewrite <- (pi_used _ _ _ _ I). set_solver. Qed.

Lemma inv_nodup_all p bl fl active : pool_inv p bl fl active → NoDup (fl ++ active).
Proof. intros I. rewrite (pi_used _ _ _ _ I). apply NoDup_all_used, (pi_nodup _ _ _ _ I). Qed.

Lemma ctor_inv : pool_inv SingleThreadedPool_ctor [] [] [].
Proof.
  split.
  - done.
  - apply NoDup_nil_2.
  - intros b. cbn. rewrite lookup_empty. split; [by intros [? ?]|set_solver].
  - apply map_Forall_empty.
  - done.
  - done.
Qed.

Lemma back_inv p bl fl active1 a active2 :
  pool_inv p bl fl (active1 ++ a :: active2) →
  ∃ p', back p (Some a) = Ok p' ∧ pool_inv p' bl (a :: fl) (active1 ++ active2).
Proof.
  intros I. pose proof (inv_nodup_all _ _ _ _ I) as Hnd.
  assert (Ha : a ∉ fl) by (apply NoDup_app in Hnd as (_ & Hd & _); intros Hin; apply (Hd a Hin); set_solver).
  destruct (write_inv p bl fl (a :: fl) (active1 ++ a :: active2) (active1 ++ active2) a (Next (free_nodes p)) I)
    as (m' & Hst & Hla & Hlb & Hinv).
  { eapply active_is_used; [done|]. set_solver. }
  { cbn. rewrite !app_assoc. by rewrite <- Permutation_middle. }
  unfold back. rewrite Hst. cbn [mbind outcome_bind]. eexists. split; [done|]. apply Hinv.
  split; [done|]. exists (free_nodes p). split; [done|].
  eapply free_chain_frame; [|apply (pi_free _ _ _ _ I)]. intros b Hb. apply Hlb. set_solver.
Qed.

Lemma write_spaces_inv p bl fl active a :
  pool_inv p bl fl active → a ∈ active →
  ∃ p', write_spaces p a = Ok p' ∧ pool_inv p' bl fl active.
Proof.
  intros I Ha. pose proof (inv_nodup_all _ _ _ _ I) as Hnd.
  assert (Haf : a ∉ fl) by (apply NoDup_app in Hnd as (_ & Hd & _); intros Hin; by apply (Hd a Hin)).
  destruct (write_inv p bl fl fl active active a Spaces I) as (m' & Hst & _ & Hlb & Hinv);
    [by eapply active_is_used|done|].
  unfold write_spaces. rewrite Hst. cbn [mbind outcome_bind]. eexists. split; [done|]. apply Hinv.
  eapply free_chain_frame; [|apply (pi_free _ _ _ _ I)]. intros b Hb. apply Hlb. by intros ->.
Qed.

(** A new block in front. *)
Lemma add_block_inv p bl active b :
  free_nodes p = None → pool_inv p bl [] active → memory_ p !! b = None →
  pool_inv (add_block NITEM p b) (b :: bl) [] active.
Proof.
  intros Hfree I Hb. assert (Hbl : b ∉ bl).
  { intros Hin. apply (pi_dom _ _ _ _ I) in Hin as [x Hx]. congruence. }
  assert (Hus : ∀ c, c ∈ bl → used (memory_ (add_block NITEM p b)) c = used (memory_ p) c).
  { intros c Hc. unfold used. cbn. by rewrite lookup_insert_ne by set_solver. }
  split; cbn.
  - split; [done|]. eexists. split; [apply lookup_insert_eq|]. cbn.
    apply block_chain_fresh; [done|apply (pi_chain _ _ _ _ I)].
  - constructor; [done|apply (pi_nodup _ _ _ _ I)].
  - intros c. rewrite lookup_insert_is_Some, elem_of_cons, (pi_dom _ _ _ _ I).
    destruct (decide (b = c)) as [->|Hne]; [naive_solver|]. split; [naive_solver|].
    intros [->|Hc]; [done|]. by right.
  - apply map_Forall_insert_2; [|apply (pi_blocks _ _ _ _ I)]. split; cbn; [lia|apply length_replicate].
  - apply Hfree.
  - rewrite (pi_used _ _ _ _ I). unfold all_used. cbn.
    pose proof (all_used_ext _ _ _ Hus) as Hall. unfold all_used in Hall. cbn in Hall. rewrite Hall.
    unfold used at 2. rewrite lookup_insert_eq. done.
Qed.

(** The next node of the first block. *)
Lemma take_node_inv p b bl active x :
  (Z.of_nat NITEM < 2 ^ 64) → free_nodes p = None → pool_inv p (b :: bl) [] active →
  memory_ p !! b = Some x → nalloc x < Z.of_nat NITEM →
  ∃ p' a, take_node NITEM p = Ok (p', Some a) ∧ pool_inv p' (b :: bl) [] (a :: active).
Proof.
  intros Hbig Hfree I Hx Hlt. destruct (pi_chain _ _ _ _ I) as (Hb & blk & Hblk & Hc).
  rewrite Hx in Hblk. injection Hblk as <-.
  pose proof (pi_blocks _ _ _ _ I _ _ Hx) as [Hn Hl].
  assert (Hu : u64 (nalloc x + 1) = nalloc x + 1) by (apply u64_id; lia).
  unfold take_node, load_block. rewrite Hb, Hx. cbn [mbind outcome_bind].
  rewrite (proj2 (Z.ltb_lt _ _) Hlt), Hu. eexists _, _. split; [done|].
  pose proof (pi_nodup _ _ _ _ I) as Hnd. inversion Hnd as [|?? Hbbl Hnd']; subst.
  split; cbn.
  - split; [done|]. eexists. split; [apply lookup_insert_eq|]. cbn. by apply block_chain_fresh.
  - done.
  - intros c. rewrite <- (pi_dom _ _ _ _ I), lookup_insert_is_Some.
    destruct (decide (b = c)) as [<-|]; [|naive_solver]. rewrite Hx. split; [by intros _|by left].
  - apply map_Forall_insert_2; [|apply (pi_blocks _ _ _ _ I)]. split; cbn; [lia|done].
  - apply Hfree.
  - pose proof (pi_used _ _ _ _ I) as Hp. cbn in Hp. rewrite Hp. unfold all_used. cbn.
    assert (Hall : bl ≫= used (<[b:=mkBlock (nalloc x + 1) (block_next x) (block_nodes x)]> (memory_ p)) =
                   bl ≫= used (memory_ p)).
    { apply all_used_ext. intros c Hc'. unfold used. by rewrite lookup_insert_ne by set_solver. }
    rewrite Hall. unfold used at 3. rewrite lookup_insert_eq. cbn.
    replace (Z.to_nat (nalloc x + 1)) with (Z.to_nat (nalloc x) + 1)%nat by lia.
    rewrite seq_app, fmap_app. cbn. unfold used at 1. rewrite Hx.
    rewrite <- app_assoc. cbn. by rewrite Permutation_middle.
Qed.

(** [get] hands out a node that is not in use, unless a block is needed and
    cannot be allocated. *)
Lemma get_inv p bl fl active mem :
  (0 < NITEM)%nat → Z.of_nat NITEM < 2 ^ 64 → pool_inv p bl fl active →
  (∀ b, mem = Some b → memory_ p !! b = None) →
  (∃ p' bl' fl' a, get NITEM p mem = Ok (p', Some a) ∧ pool_inv p' bl' fl' (a :: active)) ∨
  (get NITEM p mem = Ok (p, None) ∧ mem = None ∧ fl = []).
Proof.
  intros Hpos Hbig I Hmem. pose proof (pi_free _ _ _ _ I) as Hf. unfold get.
  destruct fl as [|a fl].
  - cbn in Hf. rewrite Hf.
    assert (Hnew : ∀ b, memory_ p !! b = None →
      ∃ p' bl' fl' a, take_node NITEM (add_block NITEM p b) = Ok (p', Some a) ∧ pool_inv p' bl' fl' (a :: active)).
    { intros b Hb. pose proof (add_block_inv _ _ _ _ Hf I Hb) as I'.
      edestruct (take_node_inv (add_block NITEM p b) b bl active) as (p' & a & Ht & Hp'); try done;
        [cbn; apply lookup_insert_eq|cbn; lia|]. by exists p', (b :: bl), [], a. }
    destruct bl as [|b bl].
    + pose proof (pi_chain _ _ _ _ I) as Hc. cbn in Hc. unfold needs_block. rewrite Hc. cbn [mbind outcome_bind].
      destruct mem as [b|]; [left; by apply Hnew, Hmem|by right].
    + destruct (pi_chain _ _ _ _ I) as (Hb & x & Hx & _). unfold needs_block, load_block. rewrite Hb, Hx.
      cbn [mbind outcome_bind]. destruct (Z.leb_spec (Z.of_nat NITEM) (nalloc x)).
      * destruct mem as [b'|]; [left; by apply Hnew, Hmem|by right].
      * left. destruct (take_node_inv p b bl active x Hbig Hf I Hx) as (p' & a & Ht & Hp'); [lia|].
        by exists p', (b :: bl), [], a.
  - left. destruct Hf as (Hfn & n & Hn & Hc). rewrite Hfn, Hn. cbn [mbind outcome_bind].
    eexists _, bl, fl, a. split; [done|]. split; try apply I; [done|].
    rewrite <- (pi_used _ _ _ _ I). cbn. by rewrite <- Permutation_middle.
Qed.

(** *** Counts and reset *)

Lemma size_blocks p bl fl active : pool_inv p bl fl active → base.size (memory_ p) = length bl.
Proof.
  intros I. rewrite <- (size_dom (D := gset nat)).
  assert (dom (memory_ p) = list_to_set (C := gset nat) bl) as ->.
  { apply set_eq. intros b. rewrite elem_of_dom, elem_of_list_to_set. apply (pi_dom _ _ _ _ I). }
  apply size_list_to_set, (pi_nodup _ _ _ _ I).
Qed.

Lemma u64_mod z : u64 z = z mod 2 ^ 64.
Proof. reflexivity. Qed.

Lemma u64_add_l a b : u64 (u64 a + b) = u64 (a + b).
Proof. rewrite !u64_mod. apply Zplus_mod_idemp_l. Qed.

Lemma u64_idem z : u64 (u64 z) = u64 z.
Proof. rewrite !u64_mod. apply Z.mod_mod. lia. Qed.

Lemma sum_nalloc_spec fuel b m bl n :
  block_chain m b bl → map_Forall (fun _ x => block_ok x) m → (length bl ≤ fuel)%nat → u64 n = n →
  sum_nalloc fuel b m n = Ok (u64 (n + Z.of_nat (length (all_used m bl)))).
Proof.
  revert b bl n. induction fuel as [|fuel IH]; intros b [|x bl] n Hc Hok Hl Hn; cbn in Hc, Hl; try lia.
  - subst b. cbn. f_equal. by rewrite Z.add_0_r.
  - subst b. cbn. f_equal. by rewrite Z.add_0_r.
  - destruct Hc as (-> & blk & Hx & Hc). cbn [sum_nalloc]. unfold load_block. rewrite Hx.
    cbn [mbind outcome_bind]. rewrite (IH _ bl) by (done || lia || apply u64_idem).
    f_equal. rewrite u64_add_l. f_equal. destruct (Hok _ _ Hx) as [Hb _].
    unfold all_used. cbn. rewrite length_app. unfold used at 2. rewrite Hx, length_fmap, length_seq. lia.
Qed.

Lemma walk_free_spec fuel a m fl n :
  free_chain m a fl → (length fl ≤ fuel)%nat → u64 n = n →
  walk_free fuel a m n = Ok (u64 (n + Z.of_nat (length fl))).
Proof.
  revert a fl n. induction fuel as [|fuel IH]; intros a [|x fl] n Hc Hl Hn; cbn in Hc, Hl; try lia.
  - subst a. cbn. f_equal. by rewrite Z.add_0_r.
  - subst a. cbn. f_equal. by rewrite Z.add_0_r.
  - destruct Hc as (-> & p & Hp & Hc). cbn [walk_free]. rewrite Hp. cbn [mbind outcome_bind].
    rewrite (IH _ fl) by (done || lia || apply u64_idem).
    f_equal. rewrite u64_add_l. f_equal. cbn [length]. lia.
Qed.

Lemma used_bound p bl fl active :
  pool_inv p bl fl active → (length (all_used (memory_ p) bl) ≤ NITEM * length bl)%nat.
Proof.
  intros I. clear -I. pose proof (pi_blocks _ _ _ _ I) as Hok. clear I.
  induction bl as [|b bl IH]; cbn; [lia|]. rewrite length_app. fold (all_used (memory_ p) bl).
  assert ((length (used (memory_ p) b) ≤ NITEM)%nat); [|lia].
  unfold used. destruct (memory_ p !! b) as [x|] eqn:Hx; [|cbn; lia].
  rewrite length_fmap, length_seq. destruct (Hok _ _ Hx) as [? _]. lia.
Qed.

Lemma counts p bl fl active :
  pool_inv p bl fl active →
  count_allocated p = Ok (u64 (Z.of_nat (length fl) + Z.of_nat (length active))) ∧
  count_free NITEM p = Ok (u64 (Z.of_nat (length fl))) ∧
  count_active NITEM p = Ok (u64 (Z.of_nat (length active))).
Proof.
  intros I. pose proof (Permutation_length (pi_used _ _ _ _ I)) as Hlen. rewrite length_app in Hlen.
  assert (Ha : count_allocated p = Ok (u64 (Z.of_nat (length fl) + Z.of_nat (length active)))).
  { unfold count_allocated. rewrite (size_blocks _ _ _ _ I).
    rewrite (sum_nalloc_spec _ _ _ bl) by (apply I || done). do 2 f_equal. lia. }
  assert (Hf : count_free NITEM p = Ok (u64 (Z.of_nat (length fl)))).
  { unfold count_free. rewrite (size_blocks _ _ _ _ I).
    rewrite (walk_free_spec _ _ _ fl); [done|apply I| |done]. pose proof (used_bound _ _ _ _ I). lia. }
  split_and!; [done|done|]. unfold count_active. rewrite Ha, Hf. cbn [mbind outcome_bind]. f_equal.
  rewrite !u64_mod, <- Zminus_mod. f_equal. lia.
Qed.

Lemma free_blocks_spec fuel b m bl :
  block_chain m b bl → NoDup bl → (length bl ≤ fuel)%nat →
  ∃ m', free_blocks fuel b m = Ok m' ∧ ∀ c, m' !! c = if decide (c ∈ bl) then None else m !! c.
Proof.
  revert b m bl. induction fuel as [|fuel IH]; intros b m [|x bl] Hc Hnd Hl; cbn in Hc, Hl; try lia.
  - subst b. exists m. split; [done|]. intros c. by rewrite decide_False by set_solver.
  - subst b. exists m. split; [done|]. intros c. by rewrite decide_False by set_solver.
  - destruct Hc as (-> & blk & Hx & Hc). inversion Hnd as [|?? Hxbl Hnd']; subst.
    assert (Hc' : block_chain (delete x m) (block_next blk) bl).
    { clear -Hc Hxbl. revert Hc. generalize (block_next blk). induction bl as [|y bl IH]; intros o; cbn; [done|].
      intros (-> & z & Hz & Hc). split; [done|]. exists z. rewrite lookup_delete_ne by set_solver.
      split; [done|]. apply IH; [set_solver|done]. }
    cbn [free_blocks]. unfold load_block. rewrite Hx. cbn [mbind outcome_bind].
    destruct (IH _ _ _ Hc' Hnd' ltac:(lia)) as (m' & -> & Hm'). exists m'. split; [done|]. intros c.
    rewrite Hm'. destruct (decide (c = x)) as [->|Hne].
    + rewrite lookup_delete_eq, (decide_True (P := x ∈ x :: bl)) by set_solver. by case_decide.
    + rewrite lookup_delete_ne by done. repeat case_decide; set_solver.
Qed.

Lemma reset_spec p bl fl active : pool_inv p bl fl active → reset p = Ok SingleThreadedPool_ctor.
Proof.
  intros I. unfold reset. rewrite (size_blocks _ _ _ _ I).
  destruct (free_blocks_spec (length bl) (blocks p) (memory_ p) bl) as (m' & -> & Hm'); [apply I|apply I|done|].
  cbn [mbind outcome_bind]. f_equal. unfold SingleThreadedPool_ctor. f_equal. apply map_eq. intros c.
  rewrite Hm', lookup_empty. case_decide as Hc; [done|]. destruct (memory_ p !! c) as [x|] eqn:Hx; [|done].
  exfalso. apply Hc, (pi_dom _ _ _ _ I). by rewrite Hx.
Qed.
End Invariant.

(** ** A user of the pool *)

Section Client.
Context (NITEM : nat).

(** The user keeps the spaces it was given, names one by its place among them,
    and writes into them; [mem] is the block the allocator offers. *)
Inductive pool_op : Type :=
| PGet (mem : option nat)
| PBack (i : nat)
| PBackNull
| PWrite (i : nat)
| PReset.

(** The allocator never offers a block that is in use. *)
Definition offered (p : SingleThreadedPool) (mem : option nat) : option nat :=
  match mem with
  | Some b => if decide (memory_ p !! b = None) then Some b else None
  | None => None
  end.

Definition pool_run_op (p : SingleThreadedPool) (active : list node_addr) (o : pool_op) :
    outcome (SingleThreadedPool * list node_addr) :=
  match o with
  | PGet mem =>
      '(p, r) ← get NITEM p (offered p mem);
      Ok (p, match r with Some a => a :: active | None => active end)
  | PBack i =>
      match active !! i with
      | Some a => p ← back p (Some a); Ok (p, take i active ++ drop (S i) active)
      | None => Ok (p, active)
      end
  | PBackNull => p ← back p None; Ok (p, active)
  | PWrite i =>
      match active !! i with
      | Some a => p ← write_spaces p a; Ok (p, active)
      | None => Ok (p, active)
      end
  | PReset => p ← reset p; Ok (p, [])
  end.

Fixpoint pool_run (p : SingleThreadedPool) (active : list node_addr) (os : list pool_op) :
    outcome (SingleThreadedPool * list node_addr) :=
  match os with
  | [] => Ok (p, active)
  | o :: os => '(p, active) ← pool_run_op p active o; pool_run p active os
  end.

Lemma offered_fresh p mem b : offered p mem = Some b → memory_ p !! b = None.
Proof. unfold offered. destruct mem as [c|]; [|done]. case_decide; [|done]. by intros [= <-]. Qed.

Lemma pool_run_op_inv p bl fl active o :
  (0 < NITEM)%nat → Z.of_nat NITEM < 2 ^ 64 → pool_inv NITEM p bl fl active →
  ∃ p' bl' fl' active', pool_run_op p active o = Ok (p', active') ∧ pool_inv NITEM p' bl' fl' active'.
Proof.
  intros Hpos Hbig I. destruct o as [mem|i| |i|]; cbn [pool_run_op].
  - destruct (get_inv NITEM p bl fl active (offered p mem) Hpos Hbig I) as [Hg|Hg].
    + intros b. apply offered_fresh.
    + destruct Hg as (p' & bl' & fl' & a & -> & I'). by exists p', bl', fl', (a :: active).
    + destruct Hg as (-> & _). by exists p, bl, fl, active.
  - destruct (active !! i) as [a|] eqn:Ha; [|by exists p, bl, fl, active].
    rewrite <- (take_drop_middle _ _ _ Ha) in I. destruct (back_inv _ _ _ _ _ _ _ I) as (p' & -> & I').
    by eexists p', bl, (a :: fl), _.
  - by exists p, bl, fl, active.
  - destruct (active !! i) as [a|] eqn:Ha; [|by exists p, bl, fl, active].
    destruct (write_spaces_inv NITEM p bl fl active a I) as (p' & -> & I').
    { by eapply list_elem_of_lookup_2. }
    by exists p', bl, fl, active.
  - rewrite (reset_spec _ _ _ _ _ I). exists SingleThreadedPool_ctor, [], [], []. split; [done|apply ctor_inv].
Qed.

Lemma pool_run_inv os p bl fl active :
  (0 < NITEM)%nat → Z.of_nat NITEM < 2 ^ 64 → pool_inv NITEM p bl fl active →
  ∃ p' bl' fl' active', pool_run p active os = Ok (p', active') ∧ pool_inv NITEM p' bl' fl' active'.
Proof.
  intros Hpos Hbig. revert p bl fl active. induction os as [|o os IH]; intros p bl fl active I; cbn [pool_run].
  { by exists p, bl, fl, active. }
  destruct (pool_run_op_inv p bl fl active o Hpos Hbig I) as (p1 & bl1 & fl1 & a1 & -> & I1).
  cbn [mbind outcome_bind]. by eapply IH.
Qed.
End Client.

(** ** Properties *)

(** C36. A pool serves any sequence of requests, returns, user writes and resets
    without a fault: the spaces in use are distinct nodes of allocated blocks,
    whatever the user writes into them; with a block to be had, the next request
    gives a space that is not in use; the counts of active items are exact; and
    destroying the pool frees every block. *)
Theorem pool_serves (NITEM : nat) (os : list pool_op) :
  (0 < NITEM)%nat → Z.of_nat NITEM < 2 ^ 64 →
  ∃ p active, pool_run NITEM SingleThreadedPool_ctor [] os = Ok (p, active) ∧
    NoDup active ∧
    (∀ a, a ∈ active → is_Some (memory_ p !! fst a) ∧ (snd a < NITEM)%nat) ∧
    (∀ b, memory_ p !! b = None → ∃ p' a, get NITEM p (Some b) = Ok (p', Some a) ∧ a ∉ active) ∧
    count_active NITEM p = Ok (u64 (Z.of_nat (length active))) ∧
    SingleThreadedPool_dtor p = Ok SingleThreadedPool_ctor.
Proof.
  intros Hpos Hbig.
  destruct (pool_run_inv NITEM os _ _ _ _ Hpos Hbig (ctor_inv NITEM)) as (p & bl & fl & active & Hrun & I).
  pose proof (inv_nodup_all _ _ _ _ _ I) as Hnd. apply NoDup_app in Hnd as (_ & _ & Hnd).
  exists p, active. split_and!; [done|done| | | |].
  - intros a Ha. destruct (used_cell _ _ _ _ _ _ I (active_is_used _ _ _ _ _ _ I Ha)) as (x & c & -> & _ & Hlt).
    split; [by eexists|done].
  - intros b Hb. destruct (get_inv NITEM p bl fl active (Some b) Hpos Hbig I) as [Hg|(_ & ? & _)]; [by intros ? [= <-]| |done].
    destruct Hg as (p' & bl' & fl' & a & Hg & I'). exists p', a. split; [done|].
    pose proof (inv_nodup_all _ _ _ _ _ I') as Hnd'. apply NoDup_app in Hnd' as (_ & _ & Hnd').
    by inversion Hnd'.
  - apply (counts _ _ _ _ _ I).
  - by eapply reset_spec.
Qed.

Lemma pool_serves_witness :
  ∃ p active, pool_run 2 SingleThreadedPool_ctor []
      [PGet (Some 5%nat); PGet None; PWrite 0; PBack 1; PGet None; PGet None; PGet (Some 9%nat); PBack 0]
    = Ok (p, active) ∧ NoDup active ∧ count_active 2 p = Ok (u64 (Z.of_nat (length active))) ∧
    SingleThreadedPool_dtor p = Ok SingleThreadedPool_ctor.
Proof.
  destruct (pool_serves 2
    [PGet (Some 5%nat); PGet None; PWrite 0; PBack 1; PGet None; PGet None; PGet (Some 9%nat); PBack 0]
    ltac:(lia) ltac:(lia)) as (p & active & Hrun & Hnd & _ & _ & Hc & Hd).
  exists p, active. split; [exact Hrun|]. split; [exact Hnd|]. split; [exact Hc|exact Hd].
Defined.
