(* ===== verification/DoublyBuffered.v ===== *)
(** * Doubly buffered data (libsh/butil/containers/doubly_buffered_data.h)

    [DoublyBufferedData] keeps two instances: [Read] pins the foreground one
    through the wrapper of the calling thread, [Modify] changes the background
    one, flips them, waits for every wrapper and changes the other one.  Calls
    run as tasks; a lock, an unlock, an atomic access and an access to the
    counters of a wrapper are one step each, and the call of the user's function
    on an instance takes from one step to the next, so that an instance can be
    seen while it is being written.  The parameter [suspend] is
    [AllowBthreadSuspended].  A condition wait may return at any time. *)

From Stdlib Require Import ZArith Lia.
From stdpp Require Import base list.
From S2P Require Import Prelude.

Open Scope Z_scope.

(** [_control] is this object or NULL; [_mutex] is held by a task or free. *)
Record Wrapper : Type := mkWrapper {
  w_control : bool;
  w_mutex : option nat;
  w_ref : bool -> Z;
  w_modify_wait : bool
}.

Definition Wrapper_ctor : Wrapper := mkWrapper false None (fun _ => 0) false.

(** ** Counters of a wrapper *)

Definition set_ref (r : bool -> Z) (i : bool) (v : Z) : bool -> Z :=
  fun j => if Bool.eqb i j then v else r j.
Definition AddRef (w : Wrapper) (i : bool) : Wrapper :=
  mkWrapper (w_control w) (w_mutex w) (set_ref (w_ref w) i (w_ref w i + 1)) (w_modify_wait w).
Definition SubRef (w : Wrapper) (i : bool) : Wrapper :=
  mkWrapper (w_control w) (w_mutex w) (set_ref (w_ref w) i (w_ref w i - 1)) (w_modify_wait w).

(** Whether [SignalReadCond] signals. *)
Definition SignalReadCond (w : Wrapper) (i : bool) : bool := (w_ref w i =? 0) && w_modify_wait w.

Definition with_control (w : Wrapper) (c : bool) : Wrapper :=
  mkWrapper c (w_mutex w) (w_ref w) (w_modify_wait w).
Definition with_mutex (w : Wrapper) (m : option nat) : Wrapper :=
  mkWrapper (w_control w) m (w_ref w) (w_modify_wait w).
Definition with_wait (w : Wrapper) (b : bool) : Wrapper :=
  mkWrapper (w_control w) (w_mutex w) (w_ref w) b.

Section Data.
Context {T : Type}.

(** A user function: what it makes of the instance, given the other one, and
    what it returns. *)
Notation fn := (T -> T -> T * Z).

(** [fn(bg)] through [Closure1], [Closure2]; [fn(bg, fg)] through [WithFG0], [WithFG1], [WithFG2]. *)
Definition Modify_fn (f : T -> T * Z) : fn := fun bg _ => f bg.
Definition Closure1 {A} (f : T -> A -> T * Z) (a : A) : fn := fun bg _ => f bg a.
Definition Closure2 {A B} (f : T -> A -> B -> T * Z) (a : A) (b : B) : fn := fun bg _ => f bg a b.
Definition WithFG0 (f : T -> T -> T * Z) : fn := fun bg fg => f bg fg.
Definition WithFG1 {A} (f : T -> T -> A -> T * Z) (a : A) : fn := fun bg fg => f bg fg a.
Definition WithFG2 {A B} (f : T -> T -> A -> B -> T * Z) (a : A) (b : B) : fn := fun bg fg => f bg fg a b.

Inductive pc : Type :=
| Idle
(** Read: AddWrapper, BeginRead, UnsafeRead, AddRef, BeginReadRelease *)
| RAdd (w : nat)
| RPushLock (w : nat)
| RPush (w : nat)
| RPushUnlock (w : nat)
| RLock (w : nat)
| RLoad (w : nat)
| RAddRef (w : nat) (i : bool)
| RUnlock (w : nat) (i : bool)
| Hold (w : nat) (i : bool)
(** EndRead *)
| EUnlock (w : nat)
| ELock (w : nat) (i : bool)
| ESub (w : nat) (i : bool)
| ESignal (w : nat) (i : bool)
(** Modify *)
| MLock (f : fn)
| MLoad (f : fn)
| MWrite (f : fn) (bg : bool)
| MStore (f : fn) (bg : bool) (ret : Z)
| MWrappers (f : fn) (bg : bool) (ret : Z)
| MNext (f : fn) (bg : bool) (ret : Z) (i : nat)
| MGot (f : fn) (bg : bool) (ret : Z) (i : nat) (w : nat)
| MAgain (f : fn) (bg : bool) (ret : Z) (i : nat) (w : nat)
| MWrite2 (f : fn) (bg : bool) (ret : Z)
| MUnlock (ret : Z)
| MRet (ret : Z)
| MFatal
(** ~Wrapper *)
| XLock (w : nat)
| XRemove (w : nat)
| XUnlock (w : nat)
| XWait (w : nat) (i : bool)
| XGot (w : nat) (i : bool).

Record DoublyBufferedData : Type := mkData {
  data_ : bool -> T;
  index_ : bool;
  wrappers_ : list nat;
  wrappers_mutex : option nat;
  modify_mutex : option nat;
  threads : nat -> Wrapper
}.

Definition DoublyBufferedData_ctor (x : T) : DoublyBufferedData :=
  mkData (fun _ => x) false [] None None (fun _ => Wrapper_ctor).

(** The wrappers forget the object, so that they do not remove themselves later. *)
Definition DoublyBufferedData_dtor (d : DoublyBufferedData) : DoublyBufferedData :=
  mkData (data_ d) (index_ d) [] (wrappers_mutex d) (modify_mutex d)
    (fun w => if decide (w ∈ wrappers_ d)
              then mkWrapper false (w_mutex (threads d w)) (w_ref (threads d w)) (w_modify_wait (threads d w))
              else threads d w).

Definition set_wrapper (d : DoublyBufferedData) (w : nat) (x : Wrapper) : DoublyBufferedData :=
  mkData (data_ d) (index_ d) (wrappers_ d) (wrappers_mutex d) (modify_mutex d)
    (fun w' => if decide (w' = w) then x else threads d w').
Definition set_data (d : DoublyBufferedData) (i : bool) (x : T) : DoublyBufferedData :=
  mkData (fun j => if Bool.eqb i j then x else data_ d j) (index_ d) (wrappers_ d) (wrappers_mutex d)
    (modify_mutex d) (threads d).
Definition set_index (d : DoublyBufferedData) (i : bool) : DoublyBufferedData :=
  mkData (data_ d) i (wrappers_ d) (wrappers_mutex d) (modify_mutex d) (threads d).
Definition set_wrappers (d : DoublyBufferedData) (l : list nat) : DoublyBufferedData :=
  mkData (data_ d) (index_ d) l (wrappers_mutex d) (modify_mutex d) (threads d).
Definition set_wrappers_mutex (d : DoublyBufferedData) (m : option nat) : DoublyBufferedData :=
  mkData (data_ d) (index_ d) (wrappers_ d) m (modify_mutex d) (threads d).
Definition set_modify_mutex (d : DoublyBufferedData) (m : option nat) : DoublyBufferedData :=
  mkData (data_ d) (index_ d) (wrappers_ d) (wrappers_mutex d) m (threads d).

(** Taking a mutex: blocked while another task has it. *)
Definition lock_wrapper (t : nat) (d : DoublyBufferedData) (w : nat) : option DoublyBufferedData :=
  match w_mutex (threads d w) with
  | None => Some (set_wrapper d w (with_mutex (threads d w) (Some t)))
  | Some _ => None
  end.
Definition unlock_wrapper (d : DoublyBufferedData) (w : nat) : DoublyBufferedData :=
  set_wrapper d w (with_mutex (threads d w) None).
Definition lock_wrappers (t : nat) (d : DoublyBufferedData) : option DoublyBufferedData :=
  match wrappers_mutex d with None => Some (set_wrappers_mutex d (Some t)) | Some _ => None end.
Definition lock_modify (t : nat) (d : DoublyBufferedData) : option DoublyBufferedData :=
  match modify_mutex d with None => Some (set_modify_mutex d (Some t)) | Some _ => None end.

Definition to (p : pc) (d : DoublyBufferedData) : DoublyBufferedData * pc := (d, p).

Section Next.
Context (suspend : bool) (t : nat).

(** [AddWrapper]: a registered wrapper is used as it is. *)
Definition AddWrapper_next (d : DoublyBufferedData) (p : pc) : option (DoublyBufferedData * pc) :=
  match p with
  | RAdd w =>
      if w_control (threads d w) then Some (d, RLock w)
      else Some (set_wrapper d w (with_control (threads d w) true), RPushLock w)
  | RPushLock w => to (RPush w) <$> lock_wrappers t d
  | RPush w => Some (set_wrappers d (wrappers_ d ++ [w]), RPushUnlock w)
  | RPushUnlock w => Some (set_wrappers_mutex d None, RLock w)
  | _ => None
  end.

Definition Read_next (d : DoublyBufferedData) (p : pc) : option (DoublyBufferedData * pc) :=
  match p with
  | RLock w => to (RLoad w) <$> lock_wrapper t d w
  | RLoad w => Some (d, if suspend then RAddRef w (index_ d) else Hold w (index_ d))
  | RAddRef w i => Some (set_wrapper d w (AddRef (threads d w) i), RUnlock w i)
  | RUnlock w i => Some (unlock_wrapper d w, Hold w i)
  | _ => AddWrapper_next d p
  end.

Definition EndRead_next (d : DoublyBufferedData) (p : pc) : option (DoublyBufferedData * pc) :=
  match p with
  | EUnlock w => Some (unlock_wrapper d w, Idle)
  | ELock w i => to (ESub w i) <$> lock_wrapper t d w
  | ESub w i => Some (set_wrapper d w (SubRef (threads d w) i), ESignal w i)
  | ESignal w i => Some (unlock_wrapper d w, Idle)
  | _ => None
  end.

(** [WaitReadDone(index)] once its mutex is held: the wait gives the mutex up,
    without counters there is nothing to wait for. *)
Definition WaitReadDone_next (d : DoublyBufferedData) (w : nat) (i : bool) : bool * DoublyBufferedData :=
  if suspend then
    if w_ref (threads d w) i =? 0
    then (true, unlock_wrapper (set_wrapper d w (with_wait (threads d w) false)) w)
    else (false, unlock_wrapper (set_wrapper d w (with_wait (threads d w) true)) w)
  else (true, unlock_wrapper d w).

Definition Modify_next (d : DoublyBufferedData) (p : pc) : option (DoublyBufferedData * pc) :=
  match p with
  | MLock f => to (MLoad f) <$> lock_modify t d
  | MLoad f => Some (d, MWrite f (negb (index_ d)))
  | MWrite f bg =>
      let '(x, ret) := f (data_ d bg) (data_ d (negb bg)) in
      Some (set_data d bg x, if ret =? 0 then MUnlock 0 else MStore f bg ret)
  | MStore f bg ret => Some (set_index d bg, MWrappers f (negb bg) ret)
  | MWrappers f bg ret => to (MNext f bg ret 0) <$> lock_wrappers t d
  | MNext f bg ret i =>
      match wrappers_ d !! i with
      | None => Some (set_wrappers_mutex d None, MWrite2 f bg ret)
      | Some w => to (MGot f bg ret i w) <$> lock_wrapper t d w
      end
  | MGot f bg ret i w =>
      let '(done_, d') := WaitReadDone_next d w bg in
      Some (d', if done_ : bool then MNext f bg ret (S i) else MAgain f bg ret i w)
  | MAgain f bg ret i w => to (MGot f bg ret i w) <$> lock_wrapper t d w
  | MWrite2 f bg ret =>
      let '(x, ret2) := f (data_ d bg) (data_ d (negb bg)) in
      Some (set_data d bg x, if ret2 =? ret then MUnlock ret2 else MFatal)
  | MUnlock ret => Some (set_modify_mutex d None, MRet ret)
  | _ => None
  end.

(** The search of [RemoveWrapper]: the last wrapper takes the place. *)
Fixpoint remove_wrapper (w : nat) (l : list nat) (whole : list nat) (i : nat) : list nat :=
  match l with
  | [] => whole
  | x :: l =>
      if decide (x = w) then
        match last whole with
        | Some y => removelast (<[i := y]> whole)
        | None => whole
        end
      else remove_wrapper w l whole (S i)
  end.

Definition Exit_next (d : DoublyBufferedData) (p : pc) : option (DoublyBufferedData * pc) :=
  match p with
  | XLock w =>
      if w_control (threads d w) then to (XRemove w) <$> lock_wrappers t d
      else Some (d, if suspend then XWait w false else Idle)
  | XRemove w => Some (set_wrappers d (remove_wrapper w (wrappers_ d) (wrappers_ d) 0), XUnlock w)
  | XUnlock w =>
      let d := set_wrappers_mutex d None in
      if suspend then Some (d, XWait w false) else Some (set_wrapper d w Wrapper_ctor, Idle)
  | XWait w i => to (XGot w i) <$> lock_wrapper t d w
  | XGot w i =>
      let '(done_, d') := WaitReadDone_next d w i in
      if done_ : bool then
        if i then Some (set_wrapper d' w Wrapper_ctor, Idle) else Some (d', XWait w true)
      else Some (d', XWait w i)
  | _ => None
  end.

Definition next (d : DoublyBufferedData) (p : pc) : option (DoublyBufferedData * pc) :=
  match p with
  | RAdd _ | RPushLock _ | RPush _ | RPushUnlock _ | RLock _ | RLoad _ | RAddRef _ _ | RUnlock _ _ =>
      Read_next d p
  | EUnlock _ | ELock _ _ | ESub _ _ | ESignal _ _ => EndRead_next d p
  | MLock _ | MLoad _ | MWrite _ _ | MStore _ _ _ | MWrappers _ _ _ | MNext _ _ _ _ | MGot _ _ _ _ _
  | MAgain _ _ _ _ _ | MWrite2 _ _ _ | MUnlock _ => Modify_next d p
  | XLock _ | XRemove _ | XUnlock _ | XWait _ _ | XGot _ _ => Exit_next d p
  | Idle | Hold _ _ | MRet _ | MFatal => None
  end.
End Next.
End Data.
Arguments pc : clear implicits.
Arguments DoublyBufferedData : clear implicits.

(** ** Tasks

    A task is idle or inside a call.  The thread of wrapper [w] runs one call at
    a time up to the point where [Read] returns; [~Wrapper] runs on it when the
    thread quits, and with [careful] only after every [ScopedPtr] that [Read]
    gave out on it is gone. *)
Section Tasks.
Context {T : Type} (suspend careful : bool).

Record config : Type := mkConfig { data : DoublyBufferedData T; tasks : list (pc T) }.

Definition thread_of (p : pc T) : option nat :=
  match p with
  | RAdd w | RPushLock w | RPush w | RPushUnlock w | RLock w | RLoad w | RAddRef w _ | RUnlock w _
  | XLock w | XRemove w | XUnlock w | XWait w _ | XGot w _ => Some w
  | _ => None
  end.

(** The wrapper of a task that reads, or is about to, or ends a read. *)
Definition user_of (p : pc T) : option nat :=
  match p with
  | RAdd w | RPushLock w | RPush w | RPushUnlock w | RLock w | RLoad w | RAddRef w _ | RUnlock w _
  | Hold w _ | EUnlock w | ELock w _ | ESub w _ | ESignal w _ => Some w
  | _ => None
  end.

Inductive action : Type :=
| CallRead (w : nat)
| CallModify (f : T -> T -> T * Z)
| CallExit (w : nat)
| EndScope
| Next
| Return.

Definition none_of (g : pc T -> option nat) (w : nat) (ps : list (pc T)) : bool :=
  forallb (fun p => negb (bool_decide (g p = Some w))) ps.

Definition fire (t : nat) (a : action) (c : config) : option config :=
  p ← tasks c !! t;
  let go d q := Some (mkConfig d (<[t := q]> (tasks c))) in
  match a, p with
  | CallRead w, Idle => if none_of thread_of w (tasks c) then go (data c) (RAdd w) else None
  | CallModify f, Idle => go (data c) (MLock f)
  | CallExit w, Idle =>
      if none_of thread_of w (tasks c) && (negb careful || none_of user_of w (tasks c))
      then go (data c) (XLock w) else None
  | EndScope, Hold w i => go (data c) (if suspend then ELock w i else EUnlock w)
  | Next, _ => dq ← next suspend t (data c) p; go (fst dq) (snd dq)
  | Return, MRet _ => go (data c) Idle
  | _, _ => None
  end.

Fixpoint run (acts : list (nat * action)) (c : config) : option config :=
  match acts with
  | [] => Some c
  | (t, a) :: acts => c' ← fire t a c; run acts c'
  end.

Definition start (x : T) (n : nat) : config := mkConfig (DoublyBufferedData_ctor x) (replicate n Idle).
End Tasks.

(** ** The invariant *)
Section Invariant.
Context {T : Type} (suspend : bool).
Implicit Types (d : DoublyBufferedData T) (p q : pc T) (ps : list (pc T)) (t w : nat) (i : bool).

Definition holds_wrappers p : bool :=
  match p with
  | RPush _ | RPushUnlock _ | MNext _ _ _ _ | MGot _ _ _ _ _ | MAgain _ _ _ _ _ | XRemove _ | XUnlock _ => true
  | _ => false
  end.
Definition holds_modify p : bool :=
  match p with
  | MLoad _ | MWrite _ _ | MStore _ _ _ | MWrappers _ _ _ | MNext _ _ _ _ | MGot _ _ _ _ _
  | MAgain _ _ _ _ _ | MWrite2 _ _ _ | MUnlock _ | MFatal => true
  | _ => false
  end.
Definition holds_wrapper p : option nat :=
  match p with
  | RLoad w | RAddRef w _ | RUnlock w _ | EUnlock w | ESub w _ | ESignal w _ | MGot _ _ _ _ w | XGot w _ => Some w
  | Hold w _ => if suspend then None else Some w
  | _ => None
  end.

(** What a reader has loaded, while it may still look at the instance. *)
Definition reading p : option (nat * bool) :=
  match p with RAddRef w i | RUnlock w i | Hold w i => Some (w, i) | _ => None end.
Definition counted p : option (nat * bool) :=
  match p with RUnlock w i | Hold w i | ELock w i | ESub w i => Some (w, i) | _ => None end.

(** The instance that a task is writing. *)
Definition writing p : option bool :=
  match p with MWrite _ bg | MWrite2 _ bg _ => Some bg | _ => None end.

Definition exiting p : option nat :=
  match p with XLock w | XRemove w | XUnlock w | XWait w _ | XGot w _ => Some w | _ => None end.
Definition registered p : option nat :=
  match p with
  | RPushUnlock w | RLock w | RLoad w | RAddRef w _ | RUnlock w _ | Hold w _ => Some w
  | _ => None
  end.
(** Its wrapper names this object and is not yet, or no more, in [_wrappers]. *)
Definition detached p : option nat :=
  match p with RPushLock w | RPush w | XUnlock w | XWait w _ | XGot w _ => Some w | _ => None end.

(** The calls that exist in one mode only. *)
Definition mode p : option bool :=
  match p with
  | RAddRef _ _ | RUnlock _ _ | ELock _ _ | ESub _ _ | ESignal _ _ => Some true
  | EUnlock _ => Some false
  | _ => None
  end.

(** The instance a [Modify] works on, against the published index. *)
Definition background d p : Prop :=
  match p with
  | MWrite _ bg | MStore _ bg _ | MWrappers _ bg _ | MNext _ bg _ _ | MWrite2 _ bg _ => bg = negb (index_ d)
  | MGot _ bg _ k w | MAgain _ bg _ k w => bg = negb (index_ d) /\ wrappers_ d !! k = Some w
  | _ => True
  end.

(** A [Modify] that has flipped the index and has still to wait for wrapper [w]. *)
Definition will_wait d w i p : Prop :=
  match p with
  | MWrappers _ bg _ => bg = i
  | MNext _ bg _ k | MGot _ bg _ k _ | MAgain _ bg _ k _ => bg = i /\ w ∈ drop k (wrappers_ d)
  | _ => False
  end.

Definition count w i ps : Z := count_if (fun p => bool_decide (counted p = Some (w, i))) ps.

Record inv d ps : Prop := mkInv {
  inv_mode : forall t p b, ps !! t = Some p -> mode p = Some b -> b = suspend;
  inv_wrappers : forall t p, ps !! t = Some p -> holds_wrappers p = true -> wrappers_mutex d = Some t;
  inv_modify : forall t p, ps !! t = Some p -> holds_modify p = true -> modify_mutex d = Some t;
  inv_wrapper : forall t p w, ps !! t = Some p -> holds_wrapper p = Some w -> w_mutex (threads d w) = Some t;
  inv_ref : suspend = true -> forall w i, w_ref (threads d w) i = count w i ps;
  inv_thread : forall t t' p p' w, ps !! t = Some p -> ps !! t' = Some p' ->
    thread_of p = Some w -> thread_of p' = Some w -> t = t';
  inv_exit : forall t t' p p' w, ps !! t = Some p -> ps !! t' = Some p' ->
    exiting p = Some w -> user_of p' = Some w -> False;
  inv_control : forall w, w_control (threads d w) = true ->
    w ∈ wrappers_ d \/ exists t p, ps !! t = Some p /\ detached p = Some w;
  inv_registered : forall t p w, ps !! t = Some p -> registered p = Some w -> w ∈ wrappers_ d;
  inv_background : forall t p, ps !! t = Some p -> background d p;
  inv_stale : forall t p w i, ps !! t = Some p -> reading p = Some (w, i) ->
    i = index_ d \/ exists tm pm, ps !! tm = Some pm /\ will_wait d w i pm
}.

(** *** Lemmas on task lists, counters and wrappers *)

Lemma count_insert ps t p q w i :
  ps !! t = Some p ->
  count w i (<[t := q]> ps) = count w i ps - Z.b2z (bool_decide (counted p = Some (w, i)))
                              + Z.b2z (bool_decide (counted q = Some (w, i))).
Proof. intros H. exact (count_if_insert (fun p => bool_decide (counted p = Some (w, i))) ps t p q H). Qed.

Lemma none_of_spec g w ps t p : none_of g w ps = true -> ps !! t = Some p -> g p <> Some w.
Proof.
  unfold none_of. rewrite forallb_forall. intros H Ht%list_elem_of_lookup_2%list_elem_of_In.
  specialize (H p Ht). by case_bool_decide.
Qed.

Lemma remove_wrapper_elem w w' l whole k :
  l = drop k whole -> w' <> w -> w' ∈ whole -> w' ∈ remove_wrapper w l whole k.
Proof.
  revert k. induction l as [|x l IH]; intros k Hl Hne Hin; [done|]. cbn [remove_wrapper].
  pose proof (f_equal (lookup 0%nat) Hl) as Hk. rewrite lookup_drop, Nat.add_0_r in Hk. symmetry in Hk. cbn in Hk.
  case_decide as Hx.
  - subst x. destruct (last whole) as [y|] eqn:Hy; [|done].
    apply last_Some in Hy as [l' ->].
    pose proof (lookup_lt_Some _ _ _ Hk) as Hlt. rewrite length_app in Hlt. cbn in Hlt.
    destruct (decide (k = length l')) as [->|Hkl].
    + rewrite insert_app_r_alt, Nat.sub_diag by done. cbn. rewrite removelast_last.
      rewrite lookup_app_r, Nat.sub_diag in Hk by done. injection Hk as ->.
      apply elem_of_app in Hin as [?|?%list_elem_of_singleton]; done.
    + rewrite insert_app_l by lia. rewrite removelast_last.
      rewrite lookup_app_l in Hk by lia.
      apply elem_of_app in Hin as [[j Hj]%list_elem_of_lookup| ->%list_elem_of_singleton].
      * apply list_elem_of_lookup. exists j. rewrite list_lookup_insert_ne; [done|]. naive_solver.
      * apply list_elem_of_lookup. exists k. rewrite list_lookup_insert_eq; [done|lia].
  - apply IH; [|done..]. by rewrite <- Nat.add_1_r, <- drop_drop, <- Hl.
Qed.
End Invariant.

Ltac next_cases Hn :=
  cbn [next Read_next AddWrapper_next EndRead_next Modify_next Exit_next] in Hn;
  unfold lock_wrappers, lock_modify, lock_wrapper, WaitReadDone_next, to, unlock_wrapper in Hn;
  repeat (case_match; simplify_option_eq); simplify_option_eq.

Section Preserve.
Context {T : Type} (suspend : bool).
Implicit Types (d : DoublyBufferedData T) (p q : pc T) (ps : list (pc T)) (t w : nat) (i : bool).
Context d ps t p d' q (I : inv suspend d ps) (Ht : ps !! t = Some p) (Hn : next suspend t d p = Some (d', q)).

Lemma pres_mode t' p' b : <[t := q]> ps !! t' = Some p' -> mode p' = Some b -> b = suspend.
Proof.
  intros [[-> ->]|[Hne H]]%lookup_moved Hm; [|eauto using inv_mode].
  pose proof (inv_mode _ _ _ I t p b Ht) as Hp.
  destruct p; next_cases Hn; cbn in *; simplify_eq; auto.
Qed.

Lemma pres_wrappers t' p' :
  <[t := q]> ps !! t' = Some p' -> holds_wrappers p' = true -> wrappers_mutex d' = Some t'.
Proof.
  pose proof (inv_wrappers _ _ _ I t p Ht) as Hp. intros [[-> ->]|[Hne H]]%lookup_moved Hh.
  - destruct p; next_cases Hn; cbn in *; simplify_eq; auto.
  - pose proof (inv_wrappers _ _ _ I t' p' H Hh) as Ho.
    destruct p; next_cases Hn; cbn in *; try specialize (Hp eq_refl); simplify_eq; auto.
Qed.

Lemma pres_modify t' p' :
  <[t := q]> ps !! t' = Some p' -> holds_modify p' = true -> modify_mutex d' = Some t'.
Proof.
  pose proof (inv_modify _ _ _ I t p Ht) as Hp. intros [[-> ->]|[Hne H]]%lookup_moved Hh.
  - destruct p; next_cases Hn; cbn in *; simplify_eq; auto.
  - pose proof (inv_modify _ _ _ I t' p' H Hh) as Ho.
    destruct p; next_cases Hn; cbn in *; try specialize (Hp eq_refl); simplify_eq; auto.
Qed.

(** Nobody else has the mutex of a wrapper whose thread has removed it. *)
Lemma exit_alone t1 p1 t2 p2 w :
  ps !! t1 = Some p1 -> ps !! t2 = Some p2 -> exiting p1 = Some w -> holds_wrappers p1 = true ->
  holds_wrapper suspend p2 = Some w -> False.
Proof.
  intros H1 H2 He Hw Hh.
  assert (t1 = t2) as ->; [|rewrite H1 in H2; simplify_eq; by destruct p2].
  destruct p2; cbn in Hh; simplify_eq;
    try (exfalso; eapply (inv_exit _ _ _ I t1 t2); [done|done|done|]; cbn; repeat case_match; naive_solver).
  - pose proof (inv_wrappers _ _ _ I t1 _ H1 Hw). pose proof (inv_wrappers _ _ _ I t2 _ H2 eq_refl). by simplify_eq.
  - eapply (inv_thread _ _ _ I t1 t2); [done|done| |done]. by destruct p1; simplify_eq/=.
Qed.

Lemma pres_wrapper t' p' w :
  <[t := q]> ps !! t' = Some p' -> holds_wrapper suspend p' = Some w -> w_mutex (threads d' w) = Some t'.
Proof.
  pose proof (inv_wrapper _ _ _ I t p) as Hp. pose proof (inv_mode _ _ _ I t p) as Hm.
  intros [[-> ->]|[Hne H]]%lookup_moved Hh.
  - destruct p; next_cases Hn; cbn in *; simplify_eq; repeat case_decide; simplify_eq/=; auto.
    all: specialize (Hm _ Ht eq_refl); by subst.
  - pose proof (inv_wrapper _ _ _ I t' p' w H Hh) as Ho. pose proof (exit_alone t p t' p' w Ht H) as Hx.
    destruct p; next_cases Hn; cbn in *; try specialize (Hp _ Ht eq_refl); simplify_eq;
      repeat case_decide; simplify_eq/=; auto.
Qed.

Lemma pres_thread t1 t2 p1 p2 w :
  <[t := q]> ps !! t1 = Some p1 -> <[t := q]> ps !! t2 = Some p2 ->
  thread_of p1 = Some w -> thread_of p2 = Some w -> t1 = t2.
Proof.
  assert (forall w, thread_of q = Some w -> thread_of p = Some w) as Hq.
  { clear -Hn. intros w. destruct p; next_cases Hn; cbn in *; simplify_eq; done. }
  intros [[-> ->]|[? ?]]%lookup_moved [[-> ->]|[? ?]]%lookup_moved ? ?; eauto using inv_thread.
Qed.

Lemma pres_exit t1 t2 p1 p2 w :
  <[t := q]> ps !! t1 = Some p1 -> <[t := q]> ps !! t2 = Some p2 ->
  exiting p1 = Some w -> user_of p2 = Some w -> False.
Proof.
  assert (forall w, exiting q = Some w -> exiting p = Some w) as Hq.
  { clear -Hn. intros w. destruct p; next_cases Hn; cbn in *; simplify_eq; done. }
  assert (forall w, user_of q = Some w -> user_of p = Some w) as Hu.
  { clear -Hn. intros w0. destruct p; next_cases Hn; cbn in *; simplify_eq; done. }
  intros [[-> ->]|[? ?]]%lookup_moved [[-> ->]|[? ?]]%lookup_moved ? ?; eauto using inv_exit.
Qed.

Lemma exit_unread w i : exiting p = Some w -> suspend = true -> w_ref (threads d w) i = 0.
Proof.
  intros He Hs. rewrite (inv_ref _ _ _ I Hs). apply count_if_none.
  intros t' p' H. apply bool_decide_eq_false. intros Hc.
  eapply (inv_exit _ _ _ I t t'); [done|done|done|]. destruct p'; by simplify_eq/=.
Qed.

Lemma pres_ref : suspend = true -> forall w i, w_ref (threads d' w) i = count w i (<[t := q]> ps).
Proof.
  intros Hs w i. rewrite (count_insert ps t p q w i Ht), <- (inv_ref _ _ _ I Hs w i).
  pose proof (fun i => exit_unread w i) as Hx.
  destruct p; next_cases Hn; cbn in *; repeat case_decide; simplify_eq/=;
    rewrite ?bool_decide_eq_false_2 by congruence; cbn [Z.b2z]; try lia.
  1-4: destruct i; try destruct i0; cbn; try lia; congruence.
  rewrite Hx by done. lia.
Qed.

Lemma pres_control w :
  w_control (threads d' w) = true ->
  w ∈ wrappers_ d' \/ exists t' p', <[t := q]> ps !! t' = Some p' /\ detached p' = Some w.
Proof.
  intros Hc. pose proof (lookup_lt_Some _ _ _ Ht) as Hlt.
  assert (detached q = Some w \/
    (w_control (threads d w) = true /\ (detached p = Some w -> w ∈ wrappers_ d') /\
     (w ∈ wrappers_ d -> w ∈ wrappers_ d'))) as [Hq|(Hc0 & Hp & Hin)].
  { clear I. destruct p; next_cases Hn; cbn in *; repeat case_decide; simplify_eq/=;
      rewrite ?elem_of_app, ?list_elem_of_singleton; try naive_solver.
    all: destruct (decide (w = w0)) as [->|Hne]; [by left|right].
    all: split_and!; try done; try congruence; by apply remove_wrapper_elem. }
  - right. exists t, q. by rewrite list_lookup_insert_eq.
  - destruct (inv_control _ _ _ I w Hc0) as [Hw|(t' & p' & Ht' & Hd)]; [by left; auto|].
    destruct (decide (t' = t)) as [->|Hne]; [simplify_eq; left; auto|].
    right. exists t', p'. by rewrite list_lookup_insert_ne.
Qed.

(** A wrapper stays in [_wrappers] until its thread quits. *)
Lemma wrappers_kept w : w ∈ wrappers_ d -> exiting p <> Some w -> w ∈ wrappers_ d'.
Proof.
  clear I. intros Hw Hx. destruct p; next_cases Hn; cbn in *; simplify_eq/=;
    rewrite ?elem_of_app, ?list_elem_of_singleton; auto.
  apply remove_wrapper_elem; [done|congruence|done].
Qed.

Lemma pres_registered t' p' w : <[t := q]> ps !! t' = Some p' -> registered p' = Some w -> w ∈ wrappers_ d'.
Proof.
  intros [[-> ->]|[Hne H]]%lookup_moved Hr.
  - assert ((registered p = Some w /\ exiting p <> Some w /\ wrappers_ d' = wrappers_ d) \/ w ∈ wrappers_ d' \/
      (p = RAdd w /\ w_control (threads d w) = true /\ d' = d)) as [(Hp & Hx & ->)|[Hw|(-> & Hc & ->)]]; [|eauto using inv_registered|done|].
    { clear I. destruct p; next_cases Hn; cbn in *; simplify_eq/=;
        rewrite ?elem_of_app, ?list_elem_of_singleton; auto. }
    destruct (inv_control _ _ _ I w Hc) as [Hw|(t' & p' & Ht' & Hd)]; [done|].
    assert (t' = t) as -> by (eapply (inv_thread _ _ _ I); [done|done| |done]; by destruct p'; simplify_eq/=).
    by simplify_eq.
  - apply wrappers_kept; [by eapply inv_registered|]. intros Hx.
    eapply (inv_exit _ _ _ I t t'); [done|done|done|]. by destruct p'; simplify_eq/=.
Qed.

Lemma pres_background t' p' : <[t := q]> ps !! t' = Some p' -> background d' p'.
Proof.
  intros [[-> ->]|[Hne H]]%lookup_moved.
  - pose proof (inv_background _ _ _ I t p Ht) as Hb. clear I.
    destruct p; next_cases Hn; cbn in *; simplify_eq/=; rewrite ?negb_involutive; naive_solver.
  - pose proof (inv_background _ _ _ I t' p' H) as Hb.
    assert (index_ d' = index_ d \/ (exists f bg ret, p = MStore f bg ret)) as Hi.
    { clear I. destruct p; next_cases Hn; cbn in *; simplify_eq/=; eauto. }
    assert (wrappers_ d' = wrappers_ d \/ holds_wrappers p = true) as Hw.
    { clear I. destruct p; next_cases Hn; cbn in *; simplify_eq/=; eauto. }
    destruct (holds_modify p') eqn:Hm; [|by destruct p'].
    assert (index_ d' = index_ d) as Hi'.
    { destruct Hi as [?|(f & bg & ret & ->)]; [done|]. pose proof (inv_modify _ _ _ I t' p' H Hm).
      pose proof (inv_modify _ _ _ I t _ Ht eq_refl). congruence. }
    destruct p'; cbn in *; rewrite ?Hi'; try done.
    all: destruct Hb as [Hb Hk]; split; [done|]; destruct Hw as [->|Hw]; [done|].
    all: pose proof (inv_wrappers _ _ _ I t' _ H eq_refl); pose proof (inv_wrappers _ _ _ I t _ Ht Hw); congruence.
Qed.

(** While a [Modify] is past the wait for wrapper [w], no task reads the old instance through it. *)
Lemma waited_out t' p' f bg ret k w :
  ps !! t' = Some p' -> p = MGot f bg ret k w -> reading p' = Some (w, bg) ->
  suspend = true /\ w_ref (threads d w) bg <> 0.
Proof.
  intros H -> Hr. destruct (holds_wrapper suspend p') eqn:Hh.
  - assert (n = w) as -> by (destruct p'; cbn in *; repeat case_match; congruence).
    pose proof (inv_wrapper _ _ _ I t' p' w H Hh). pose proof (inv_wrapper _ _ _ I t _ w Ht eq_refl).
    assert (t = t') as -> by congruence. by simplify_eq.
  - assert (suspend = true) as Hs by (destruct p'; simplify_eq/=; by case_match).
    split; [done|]. rewrite (inv_ref _ _ _ I Hs). intros Hz.
    apply (count_if_absent _ ps t' p' Hz), bool_decide_eq_false in H. apply H. by destruct p'; simplify_eq/=.
Qed.

(** A wait that is ahead of a [Modify] stays ahead, or is over. *)
Lemma wait_moves t' p' w i :
  ps !! t' = Some p' -> reading p' = Some (w, i) -> will_wait d w i p -> will_wait d' w i q.
Proof.
  intros H Hr Hw. pose proof (waited_out t' p') as Ho.
  pose proof (inv_background _ _ _ I t p Ht) as Hb.
  assert (w ∈ wrappers_ d) as Hreg by (eapply (inv_registered _ _ _ I t' p'); [done|]; by destruct p'; simplify_eq/=).
  clear I. destruct p; cbn in Hw; try done; next_cases Hn; cbn in *; try naive_solver.
  { destruct Hw as [_ Hw]. rewrite drop_ge in Hw by (by apply lookup_ge_None).
    by apply not_elem_of_nil in Hw. }
  all: destruct Hw as [-> Hw], Hb as [_ Hk]; split; [done|].
  all: rewrite (drop_S _ w0 i0 Hk) in Hw; apply elem_of_cons in Hw as [->|Hw]; [exfalso|done].
  all: destruct (Ho _ _ _ _ _ H eq_refl Hr); by rewrite ?Z.eqb_eq in *.
Qed.

(** What a step of task [t] leaves alone for the [Modify] of another task. *)
Lemma wait_kept tm pm w i : tm <> t -> ps !! tm = Some pm -> will_wait d w i pm -> will_wait d' w i pm.
Proof.
  intros Hne Hm Hw.
  assert (wrappers_ d' = wrappers_ d \/ holds_wrappers p = true) as [Hd|Hp].
  { clear I. destruct p; next_cases Hn; cbn in *; simplify_eq/=; eauto. }
  { destruct pm; cbn in *; by rewrite ?Hd. }
  pose proof (inv_wrappers _ _ _ I t _ Ht Hp). pose proof (inv_wrappers _ _ _ I tm _ Hm) as Ho.
  destruct pm; cbn in *; try done; specialize (Ho eq_refl); congruence.
Qed.

Lemma index_moves : index_ d' = index_ d \/ exists f ret, p = MStore f (negb (index_ d)) ret /\
  q = MWrappers f (index_ d) ret /\ index_ d' = negb (index_ d).
Proof.
  pose proof (inv_background _ _ _ I t p Ht) as Hb.
  clear I. destruct p; next_cases Hn; cbn in *; simplify_eq/=; rewrite ?negb_involutive; eauto 6.
Qed.

Lemma pres_stale t' p' w i :
  <[t := q]> ps !! t' = Some p' -> reading p' = Some (w, i) ->
  i = index_ d' \/ exists tm pm, <[t := q]> ps !! tm = Some pm /\ will_wait d' w i pm.
Proof.
  intros Hp' Hr. pose proof (lookup_lt_Some _ _ _ Ht) as Hlt.
  assert (i = index_ d' \/ exists t0 p0, ps !! t0 = Some p0 /\ reading p0 = Some (w, i)) as [?|(t0 & p0 & H0 & Hr0)];
    [|by left|].
  { apply lookup_moved in Hp' as [[-> ->]|[Hne H]]; [|by eauto].
    clear I. destruct p; next_cases Hn; cbn in *; simplify_eq/=; eauto. }
  destruct (inv_stale _ _ _ I t0 p0 w i H0 Hr0) as [->|(tm & pm & Hm & Hw)].
  - destruct index_moves as [->|(f & ret & _ & -> & _)]; [by left|right].
    exists t, (MWrappers f (index_ d) ret). by rewrite list_lookup_insert_eq.
  - right. destruct (decide (tm = t)) as [->|Hne].
    + simplify_eq. exists t, q. rewrite list_lookup_insert_eq by done. split; [done|]. by eapply wait_moves.
    + exists tm, pm. rewrite list_lookup_insert_ne by done. split; [done|]. by apply (wait_kept tm pm).
Qed.

Lemma pres : inv suspend d' (<[t := q]> ps).
Proof.
  constructor; eauto using pres_mode, pres_wrappers, pres_modify, pres_wrapper, pres_thread, pres_exit,
    pres_registered, pres_background, pres_stale, pres_ref, pres_control.
Qed.
End Preserve.

(** *** Calls, ends of reads and returns *)
Section Calls.
Context {T : Type} (suspend : bool).
Implicit Types (d : DoublyBufferedData T) (p q : pc T) (ps : list (pc T)) (t w : nat) (i : bool).

(** A move that takes no lock, changes no data and leaves no wait behind. *)
Record quiet ps p q : Prop := mkQuiet {
  quiet_mode : forall b, mode q = Some b -> b = suspend;
  quiet_wrappers : holds_wrappers q = false;
  quiet_modify : holds_modify q = false;
  quiet_wrapper : forall w, holds_wrapper suspend q = Some w -> holds_wrapper suspend p = Some w;
  quiet_counted : suspend = true -> counted q = counted p;
  quiet_thread : forall w, thread_of q = Some w -> none_of thread_of w ps = true;
  quiet_exit : forall w, exiting q = Some w -> none_of user_of w ps = true;
  quiet_user : forall w, user_of q = Some w -> user_of p = Some w \/ none_of thread_of w ps = true;
  quiet_detached : detached p = None;
  quiet_registered : registered q = None;
  quiet_reading : reading q = None;
  quiet_modifier : holds_modify p = false
}.

Lemma exiting_thread p w : exiting p = Some w -> thread_of p = Some w.
Proof. by destruct p. Qed.

Lemma waiter_modifies d w i p : will_wait d w i p -> holds_modify p = true.
Proof. by destruct p. Qed.

Lemma quiet_inv d ps t p q : inv suspend d ps -> ps !! t = Some p -> quiet ps p q -> inv suspend d (<[t := q]> ps).
Proof.
  intros I Ht [Hmode Hws Hmm Hw Hc Hth Hex Hus Hd Hreg Hrd Hpm]. constructor.
  - intros t' p' b [[-> ->]|[Hne H]]%lookup_moved; [auto|eauto using inv_mode].
  - intros t' p' [[-> ->]|[Hne H]]%lookup_moved; [congruence|eauto using inv_wrappers].
  - intros t' p' [[-> ->]|[Hne H]]%lookup_moved; [congruence|eauto using inv_modify].
  - intros t' p' w [[-> ->]|[Hne H]]%lookup_moved; [eauto using inv_wrapper|eauto using inv_wrapper].
  - intros Hs w i. rewrite (inv_ref _ _ _ I Hs), (count_insert ps t p q w i Ht), (Hc Hs). lia.
  - intros t1 t2 p1 p2 w [[-> ->]|[? H1]]%lookup_moved [[-> ->]|[? H2]]%lookup_moved Hp1 Hp2; [done| | |eauto using inv_thread];
      exfalso; [by eapply (none_of_spec thread_of w ps t2); eauto|by eapply (none_of_spec thread_of w ps t1); eauto].
  - intros t1 t2 p1 p2 w [[-> ->]|[? H1]]%lookup_moved [[-> ->]|[? H2]]%lookup_moved Hp1 Hp2; [by destruct q| | |eauto using inv_exit].
    + by eapply (none_of_spec user_of w ps t2); eauto.
    + destruct (Hus w Hp2) as [Hu|Hn]; [by eapply (inv_exit _ _ _ I t1 t); eauto|].
      by eapply (none_of_spec thread_of w ps t1); eauto using exiting_thread.
  - intros w Hcw. destruct (inv_control _ _ _ I w Hcw) as [?|(t' & p' & H & Hp')]; [by left|right].
    exists t', p'. rewrite list_lookup_insert_ne; [done|]. intros ->. congruence.
  - intros t' p' w [[-> ->]|[Hne H]]%lookup_moved; [congruence|eauto using inv_registered].
  - intros t' p' [[-> ->]|[Hne H]]%lookup_moved; [by destruct q|eauto using inv_background].
  - intros t' p' w i [[-> ->]|[Hne H]]%lookup_moved Hr; [congruence|].
    destruct (inv_stale _ _ _ I t' p' w i H Hr) as [?|(tm & pm & Hm & Hwait)]; [by left|right].
    exists tm, pm. rewrite list_lookup_insert_ne; [done|]. intros <-.
    apply waiter_modifies in Hwait. congruence.
Qed.

Lemma fire_inv (c c' : config (T := T)) t a :
  inv suspend (data c) (tasks c) -> fire suspend true t a c = Some c' -> inv suspend (data c') (tasks c').
Proof.
  intros I. unfold fire. destruct (tasks c !! t) as [p|] eqn:Ht; [|done]. cbn [mbind option_bind].
  destruct a, p; intros Hf; try done; cbn [negb orb] in Hf;
    try (destruct (next suspend t (data c) _) as [[d' q]|] eqn:Hn; [|done]; injection Hf as <-; cbn; by eapply pres);
    repeat (case_match; [|done]); injection Hf as <-; cbn [data tasks].
  all: apply (quiet_inv _ _ t _ _ I Ht); constructor; cbn; intros; simplify_eq; try done; auto.
  1,2: by apply andb_prop in H as [? ?].
  all: destruct suspend; cbn in *; simplify_eq; auto; congruence.
Qed.

Lemma dbd_start_inv (x : T) n : inv suspend (data (start x n)) (tasks (start x n)).
Proof.
  assert (forall t p, replicate n (Idle (T := T)) !! t = Some p -> p = Idle) as Hi
    by (intros t p [-> _]%lookup_replicate_1; done).
  constructor; cbn [start data tasks DoublyBufferedData_ctor wrappers_mutex modify_mutex threads wrappers_ index_];
    try (intros; repeat match goal with H : replicate _ _ !! _ = Some _ |- _ => apply Hi in H end; subst; done).
  intros _ w i. symmetry. apply count_if_none. by intros t p ->%Hi.
Qed.
End Calls.

(** *** Registered wrappers and waiting *)
Section Waiting.
Context {T : Type} (suspend : bool).
Implicit Types (d : DoublyBufferedData T) (p q : pc T) (ps : list (pc T)) (t w : nat) (i : bool).

Lemma remove_wrapper_perm w l whole k :
  l = drop k whole -> w ∈ l -> whole ≡ₚ w :: remove_wrapper w l whole k.
Proof.
  revert k. induction l as [|x l IH]; intros k Hl Hin; [by apply not_elem_of_nil in Hin|]. cbn [remove_wrapper].
  pose proof (f_equal (lookup 0%nat) Hl) as Hk. rewrite lookup_drop, Nat.add_0_r in Hk. symmetry in Hk. cbn in Hk.
  case_decide as Hx.
  - subst x. destruct (last whole) as [y|] eqn:Hy; [|by apply last_None in Hy; subst].
    apply last_Some in Hy as [l' ->]. pose proof (lookup_lt_Some _ _ _ Hk) as Hlt. rewrite length_app in Hlt. cbn in Hlt.
    destruct (decide (k = length l')) as [->|Hkl].
    + rewrite insert_app_r_alt, Nat.sub_diag by done. cbn. rewrite removelast_last.
      rewrite lookup_app_r, Nat.sub_diag in Hk by done. injection Hk as ->. by rewrite Permutation_app_comm.
    + rewrite insert_app_l by lia. rewrite removelast_last. rewrite lookup_app_l in Hk by lia.
      apply list_elem_of_split_length in Hk as (a & b & -> & ->).
      rewrite insert_app_r_alt, Nat.sub_diag by done. cbn. rewrite <- app_assoc. cbn.
      rewrite <- Permutation_middle. constructor. apply Permutation_app_head. symmetry. apply Permutation_cons_append.
  - apply IH; [by rewrite <- Nat.add_1_r, <- drop_drop, <- Hl|]. apply elem_of_cons in Hin as [->|]; done.
Qed.

Lemma remove_absent w l whole k : w ∉ l -> remove_wrapper w l whole k = whole.
Proof.
  revert k. induction l as [|x l IH]; intros k Hl; [done|]. apply not_elem_of_cons in Hl as [Hne Hl].
  cbn [remove_wrapper]. rewrite decide_False by done. by apply IH.
Qed.

Definition adding p : option nat := match p with RPushLock w | RPush w => Some w | _ => None end.

Record regs d ps : Prop := mkRegs {
  rg_nodup : NoDup (wrappers_ d);
  rg_control : forall w, w ∈ wrappers_ d -> w_control (threads d w) = true;
  rg_adding : forall t p w, ps !! t = Some p -> adding p = Some w -> w_control (threads d w) = true;
  rg_detached : forall t p w, ps !! t = Some p -> detached p = Some w -> w ∉ wrappers_ d;
  rg_waiting : suspend = true -> forall t f bg ret k w, ps !! t = Some (MAgain f bg ret k w) ->
    w_modify_wait (threads d w) = true
}.

Lemma start_regs (x : T) n : regs (data (start x n)) (tasks (start x n)).
Proof.
  assert (forall t p, replicate n (Idle (T := T)) !! t = Some p -> p = Idle) as Hi
    by (intros t p [-> _]%lookup_replicate_1; done).
  constructor; cbn; [constructor| | | |].
  - by intros w ?%not_elem_of_nil.
  - by intros t p w ->%Hi.
  - by intros t p w ->%Hi.
  - by intros _ t f bg ret k w ?%Hi.
Qed.

Section Step.
Context d ps t p d' q (I : inv suspend d ps) (R : regs d ps)
  (Ht : ps !! t = Some p) (Hn : next suspend t d p = Some (d', q)).

(** What a step does to [_wrappers]. *)
Lemma next_wrappers : ((forall w, q <> XUnlock w) /\ wrappers_ d' = wrappers_ d) \/
  (exists w, p = RPush w /\ q = RPushUnlock w /\ wrappers_ d' = wrappers_ d ++ [w]) \/
  (exists w, p = XRemove w /\ q = XUnlock w /\ wrappers_ d' = remove_wrapper w (wrappers_ d) (wrappers_ d) 0).
Proof. clear I R. destruct p; next_cases Hn; cbn; eauto 8; left; split; done. Qed.

(** [_control] and [_modify_wait] are reset only where the wrapper is detached. *)
Lemma next_control w : w_control (threads d w) = true ->
  w_control (threads d' w) = true \/ (exiting p = Some w /\ detached p = Some w).
Proof. clear I R. intros Hc. destruct p; next_cases Hn; cbn; auto; case_decide; subst; cbn; auto. Qed.

Lemma next_wait w : w_modify_wait (threads d w) = true ->
  w_modify_wait (threads d' w) = true \/ holds_modify p = true \/ (exiting p = Some w /\ detached p = Some w).
Proof. clear I R. intros Hc. destruct p; next_cases Hn; cbn; auto; repeat case_decide; subst; cbn; auto. Qed.

Lemma removed_wrapper_spec w x : x ∈ remove_wrapper w (wrappers_ d) (wrappers_ d) 0 <-> x ∈ wrappers_ d /\ x <> w.
Proof.
  pose proof (rg_nodup _ _ R) as Hd. destruct (decide (w ∈ wrappers_ d)) as [Hin|Hin].
  - pose proof (remove_wrapper_perm w (wrappers_ d) (wrappers_ d) 0 eq_refl Hin) as Hp.
    pose proof Hd as Hd2. rewrite Hp in Hd2. apply NoDup_cons in Hd2 as [Hw _].
    split; [intros Hx|intros [Hx Hne]; by apply remove_wrapper_elem].
    split; [|by intros ->]. rewrite Hp. by right.
  - rewrite remove_absent by done. split; [|tauto]. intros Hx. split; [done|]. by intros ->.
Qed.

Lemma detached_thread p0 w : detached p0 = Some w -> thread_of p0 = Some w.
Proof. by destruct p0. Qed.

Lemma next_nodup_wrappers : NoDup (wrappers_ d').
Proof.
  pose proof (rg_nodup _ _ R) as Hd.
  destruct next_wrappers as [[_ ->]|[(w & -> & _ & ->)|(w & -> & _ & ->)]]; [done| |].
  - apply NoDup_app. split_and!; [done| |apply NoDup_singleton].
    intros x Hx ->%list_elem_of_singleton. by apply (rg_detached _ _ R t (RPush w) w Ht).
  - destruct (decide (w ∈ wrappers_ d)) as [Hin|Hin]; [|by rewrite remove_absent].
    pose proof (remove_wrapper_perm w (wrappers_ d) (wrappers_ d) 0 eq_refl Hin) as Hp.
    rewrite Hp in Hd. by apply NoDup_cons in Hd as [_ Hd].
Qed.

Lemma next_control_in w : w ∈ wrappers_ d' -> w_control (threads d' w) = true.
Proof.
  intros Hw. assert (w ∈ wrappers_ d \/ p = RPush w) as Hor.
  { destruct next_wrappers as [[_ <-]|[(w' & -> & _ & Hd)|(w' & -> & _ & Hd)]]; [by left| |]; rewrite Hd in Hw.
    - apply elem_of_app in Hw as [Hw|Hw%list_elem_of_singleton]; [by left|subst; by right].
    - apply removed_wrapper_spec in Hw as [Hw _]. by left. }
  destruct (next_control w) as [?|[He Hdt]]; [|done|].
  - destruct Hor as [Hin| ->]; [by apply (rg_control _ _ R)|by apply (rg_adding _ _ R t _ w Ht)].
  - destruct Hor as [Hin| ->]; [|done]. by apply (rg_detached _ _ R t p w Ht Hdt) in Hin.
Qed.

Lemma next_adding t' p' w : <[t := q]> ps !! t' = Some p' -> adding p' = Some w -> w_control (threads d' w) = true.
Proof.
  intros [[-> ->]|[Hne H]]%lookup_moved Ha.
  - pose proof (rg_adding _ _ R t p w Ht) as Hp. clear I R.
    destruct p; next_cases Hn; cbn in *; simplify_eq; rewrite ?decide_True by done; auto.
  - destruct (next_control w) as [?|[He Hdt]]; [by apply (rg_adding _ _ R t' p')|done|].
    exfalso. apply Hne. eapply (inv_thread _ _ _ I); [done|done| |by apply detached_thread]. by destruct p'.
Qed.

Lemma next_detached t' p' w : <[t := q]> ps !! t' = Some p' -> detached p' = Some w -> w ∉ wrappers_ d'.
Proof.
  intros [[-> ->]|[Hne H]]%lookup_moved Hdt Hin.
  - pose proof (rg_detached _ _ R t p w Ht) as Hp. pose proof (rg_control _ _ R w) as Hc.
    destruct next_wrappers as [[Hx Heq]|[(w' & -> & -> & Heq)|(w' & -> & -> & Heq)]]; rewrite Heq in Hin; [|done|].
    + specialize (Hc Hin). clear I R. destruct p; next_cases Hn; cbn in *; simplify_eq; try congruence;
        try (by apply Hp); by eapply Hx.
    + cbn in Hdt. injection Hdt as ->. by apply removed_wrapper_spec in Hin as [_ Hin].
  - pose proof (rg_detached _ _ R t' p' w H Hdt) as Hno.
    destruct next_wrappers as [[Hx Heq]|[(w' & -> & -> & Heq)|(w' & -> & -> & Heq)]]; rewrite Heq in Hin; [done| |].
    + apply elem_of_app in Hin as [Hin|Hin%list_elem_of_singleton]; [done|subst w'].
      apply Hne. eapply (inv_thread _ _ _ I); [done|done|by apply detached_thread|done].
    + by apply removed_wrapper_spec in Hin as [Hin _].
Qed.

Lemma next_waiting t' f bg ret k w : suspend = true ->
  <[t := q]> ps !! t' = Some (MAgain f bg ret k w) -> w_modify_wait (threads d' w) = true.
Proof.
  intros Hs [[-> Hq]|[Hne H]]%lookup_moved.
  - clear I R. destruct p; next_cases Hn; cbn in *; simplify_eq; by rewrite ?decide_True.
  - pose proof (rg_waiting _ _ R Hs t' _ _ _ _ _ H) as Hw. destruct (next_wait w Hw) as [?|[Hm|[He Hdt]]]; [done| |]; exfalso.
    + pose proof (inv_modify _ _ _ I t p Ht Hm). pose proof (inv_modify _ _ _ I t' _ H eq_refl). congruence.
    + destruct (inv_background _ _ _ I t' _ H) as [_ Hk].
      by apply (rg_detached _ _ R t p w Ht Hdt), (list_elem_of_lookup_2 _ k).
Qed.

Lemma next_regs : regs d' (<[t := q]> ps).
Proof.
  constructor; eauto using next_nodup_wrappers, next_control_in, next_adding, next_detached, next_waiting.
Qed.
End Step.
End Waiting.

(** *** The data under a [Modify] *)
Section Values.
Context {T : Type} (suspend : bool).
Implicit Types (d : DoublyBufferedData T) (p q : pc T) (ps : list (pc T)) (t w : nat) (i : bool).

(** What [Modify] asks of a function: on equal instances it leaves the one it
    is given alone when it returns 0, and otherwise brings the other instance
    to the same value. *)
Definition settles (f : T -> T -> T * Z) : Prop :=
  forall x, let '(y, r) := f x x in if r =? 0 then y = x else fst (f x y) = y.

(** A function that does not look at the other instance, as those of [Modify],
    and not of [ModifyWithForeground], cannot. *)
Definition blind (f : T -> T -> T * Z) : Prop := forall x y z, f x y = f x z.

(** With [strict] all functions are such. *)
Context (strict : bool).
Definition contract (f : T -> T -> T * Z) : Prop := settles f /\ (strict = true -> blind f).

Definition same d : Prop := forall i, data_ d i = data_ d false.

Definition progress d p : Prop :=
  match p with
  | MLock f => contract f
  | MLoad f | MWrite f _ => contract f /\ same d
  | MStore f bg ret => contract f /\ f (data_ d (negb bg)) (data_ d (negb bg)) = (data_ d bg, ret) /\ ret <> 0
  | MWrappers f bg ret | MNext f bg ret _ | MGot f bg ret _ _ | MAgain f bg ret _ _ | MWrite2 f bg ret =>
      contract f /\ f (data_ d bg) (data_ d bg) = (data_ d (negb bg), ret) /\ ret <> 0
  | MUnlock _ => same d
  | MFatal => strict = false
  | _ => True
  end.

(** The instance that a [Modify] works on is not the published one. *)
Definition targets d p : Prop :=
  match p with
  | MWrite _ bg | MStore _ bg _ | MWrappers _ bg _ | MNext _ bg _ _ | MGot _ bg _ _ _ | MAgain _ bg _ _ _
  | MWrite2 _ bg _ => bg = negb (index_ d)
  | _ => True
  end.

Record values d ps : Prop := mkValues {
  values_lock : forall t p, ps !! t = Some p -> holds_modify p = true -> modify_mutex d = Some t;
  values_target : forall t p, ps !! t = Some p -> targets d p;
  values_same : modify_mutex d = None -> same d;
  values_progress : forall t p, ps !! t = Some p -> progress d p
}.

Definition abs d : T := data_ d (index_ d).

(** The function that a step publishes. *)
Definition publishes p : option (T -> T -> T * Z) :=
  match p with MStore f _ _ => Some f | _ => None end.

Lemma same_any d i j : same d -> data_ d i = data_ d j.
Proof. intros H. by rewrite (H i), (H j). Qed.

Lemma write_first d bg f x ret :
  same d -> settles f -> f (data_ d bg) (data_ d (negb bg)) = (x, ret) ->
  if ret =? 0 then same (set_data d bg x)
  else f (data_ d (negb bg)) (data_ d (negb bg)) = (x, ret).
Proof.
  intros Hs Hf Hx. rewrite (same_any d bg (negb bg) Hs) in Hx. pose proof (Hf (data_ d (negb bg))) as Hc.
  rewrite Hx in Hc. case_match; [subst x|done].
  intros i. cbn. by repeat case_match; auto using same_any.
Qed.

Lemma write_second d bg f x ret ret2 :
  contract f -> f (data_ d bg) (data_ d bg) = (data_ d (negb bg), ret) -> ret <> 0 ->
  f (data_ d bg) (data_ d (negb bg)) = (x, ret2) -> same (set_data d bg x) /\ (ret2 <> ret -> strict = false).
Proof.
  intros [Hf Hb] Hx Hr Hx2. pose proof (Hf (data_ d bg)) as Hc. rewrite Hx in Hc.
  apply Z.eqb_neq in Hr. rewrite Hr, Hx2 in Hc. cbn in Hc. subst x. split.
  - intros i. cbn. by destruct bg, i.
  - intros Hne. destruct strict; [|done]. rewrite (Hb eq_refl _ _ (data_ d bg)), Hx in Hx2. congruence.
Qed.

Section Step.
Context d ps t p d' q (V : values d ps)
  (Ht : ps !! t = Some p) (Hn : next suspend t d p = Some (d', q)).

Lemma data_kept : holds_modify p = false -> data_ d' = data_ d.
Proof. clear V. intros Hp. destruct p; try done; next_cases Hn; done. Qed.

Lemma index_kept : holds_modify p = false -> index_ d' = index_ d.
Proof. clear V. intros Hp. destruct p; try done; next_cases Hn; done. Qed.

(** Two tasks are not inside [Modify] together. *)
Lemma modify_alone t' p' : t' <> t -> ps !! t' = Some p' -> holds_modify p' = true -> holds_modify p = false.
Proof.
  intros Hne H Hm'. apply not_true_is_false. intros Hm.
  pose proof (values_lock _ _ V t' p' H Hm'). pose proof (values_lock _ _ V t p Ht Hm). congruence.
Qed.

Lemma progress_self : progress d' q.
Proof.
  pose proof (values_progress _ _ V t p Ht) as Hp. pose proof (values_same _ _ V) as Hs. clear V.
  destruct p; cbn [progress] in Hp; try (next_cases Hn; cbn [progress] in *; try done; by auto).
  - cbn in Hn. destruct (f _ _) as [x ret] eqn:Hf. destruct Hp as [Hc Hsame].
    pose proof (write_first d bg f x ret Hsame (proj1 Hc) Hf) as Hw. injection Hn as <- <-. case_match; cbn; [done|].
    rewrite eqb_reflx, eqb_negb2. split_and!; [done|done|by apply Z.eqb_neq].
  - injection Hn as <- <-. cbn. by rewrite negb_involutive.
  - cbn in Hn. destruct (f _ _) as [x ret2] eqn:Hf. destruct Hp as (Hc & Hx & Hr).
    destruct (write_second d bg f x ret ret2 Hc Hx Hr Hf) as [Hw He]. injection Hn as <- <-.
    destruct (Z.eqb_spec ret2 ret); [done|by apply He].
Qed.

Lemma target_self : targets d' q.
Proof.
  pose proof (values_target _ _ V t p Ht) as Hp. clear V.
  destruct p; cbn [targets] in Hp; next_cases Hn; cbn in *; try done; by rewrite ?negb_involutive.
Qed.

Lemma lock_moved t' p' : <[t := q]> ps !! t' = Some p' -> holds_modify p' = true -> modify_mutex d' = Some t'.
Proof.
  pose proof (values_lock _ _ V t p Ht) as Hp. intros [[-> ->]|[Hne H]]%lookup_moved Hh.
  - clear V. destruct p; next_cases Hn; cbn in *; simplify_eq; auto.
  - pose proof (values_lock _ _ V t' p' H Hh) as Ho. clear V.
    destruct p; next_cases Hn; cbn in *; try specialize (Hp eq_refl); simplify_eq; auto.
Qed.

Lemma next_values : values d' (<[t := q]> ps).
Proof.
  pose proof progress_self as Hq. pose proof target_self as Hg. constructor.
  - apply lock_moved.
  - intros t' p' [[-> ->]|[Hne H]]%lookup_moved; [done|]. pose proof (values_target _ _ V t' p' H) as Hp'.
    destruct (holds_modify p') eqn:Hm'; [|by destruct p'].
    unfold targets in *. by rewrite index_kept by (by eapply modify_alone).
  - intros Hm. destruct (holds_modify p) eqn:Hp.
    + pose proof (values_lock _ _ V t p Ht Hp) as Ho. pose proof (values_progress _ _ V t p Ht) as Hs.
      clear V. destruct p; try done; next_cases Hn; cbn in *; first [congruence|exact Hs].
    + assert (modify_mutex d = None) as Ho by (clear V; destruct p; next_cases Hn; cbn in *; congruence).
      unfold same. rewrite data_kept by done. by apply (values_same _ _ V).
  - intros t' p' [[-> ->]|[Hne H]]%lookup_moved; [done|]. pose proof (values_progress _ _ V t' p' H) as Hp'.
    destruct (holds_modify p') eqn:Hm'; [|by destruct p'].
    unfold progress, same in *. by rewrite data_kept by (by eapply modify_alone).
Qed.

(** A step changes the published value only when it publishes. *)
Lemma next_abs :
  match publishes p with
  | None => abs d' = abs d
  | Some f => abs d' = fst (f (abs d) (abs d))
  end.
Proof.
  pose proof (values_progress _ _ V t p Ht) as Hp. pose proof (values_target _ _ V t p Ht) as Hb.
  clear V. unfold abs. destruct p; cbn [publishes progress targets] in *; try (by next_cases Hn).
  - cbn in Hn. destruct (f _ _) as [x ret] eqn:Hf. injection Hn as <- <-. cbn. subst bg. by destruct (index_ d).
  - injection Hn as <- <-. cbn. subst bg. rewrite negb_involutive in Hp. by destruct Hp as (_ & -> & _).
  - cbn in Hn. destruct (f _ _) as [x ret2] eqn:Hf. injection Hn as <- <-. cbn. subst bg. by destruct (index_ d).
Qed.
End Step.

(** *** Runs *)
Implicit Types c : config (T := T).

Definition action_ok (a : action (T := T)) : Prop :=
  match a with CallModify f => contract f | _ => True end.

(** The functions published along a run, in order. *)
Fixpoint published (careful : bool) (acts : list (nat * action)) c : list (T -> T -> T * Z) :=
  match acts with
  | [] => []
  | (t, a) :: acts =>
      let here := match a, tasks c !! t with Next, Some p => option_list (publishes p) | _, _ => [] end in
      here ++ match fire suspend careful t a c with Some c' => published careful acts c' | None => [] end
  end.

Lemma start_values (x : T) n : values (data (start x n)) (tasks (start x n)).
Proof. constructor; [|  |done|]; cbn; by intros t p [-> _]%lookup_replicate_1. Qed.

(** A step is a step of [next], or moves one task and touches no data. *)
Lemma fire_cases careful c c' t a :
  fire suspend careful t a c = Some c' ->
  exists p q, tasks c !! t = Some p /\ tasks c' = <[t := q]> (tasks c) /\
    ((a = Next /\ next suspend t (data c) p = Some (data c', q)) \/
     (a <> Next /\ data c' = data c /\ reading q = None /\ (action_ok a -> forall d, progress d q) /\
      (reading p <> None -> a = EndScope) /\ detached q = None /\ holds_modify q = false /\ (forall d, targets d q))).
Proof.
  unfold fire. destruct (tasks c !! t) as [p|] eqn:Ht; [|done]. cbn [mbind option_bind].
  intros Hf. exists p. destruct a, p; try done;
    try (destruct (next suspend t (data c) _) as [[d' q]|] eqn:Hn; [|done]; injection Hf as <-; eauto 6; fail);
    repeat (case_match; try done); injection Hf as <-; eexists; (split; [done|]); (split; [done|]); right; naive_solver.
Qed.

Lemma fire_values careful c c' t a :
  values (data c) (tasks c) -> action_ok a ->
  fire suspend careful t a c = Some c' -> values (data c') (tasks c').
Proof.
  intros V Ha (p & q & Ht & Hps & [[-> Hn]|(_ & Hd & _ & Hq & _ & _ & Hm & Hg)])%fire_cases; rewrite Hps.
  - by eapply next_values.
  - rewrite Hd. constructor; [| |by apply (values_same _ _ V)|];
      intros t' p' [[-> ->]|[Hne H]]%lookup_moved; [congruence|by apply (values_lock _ _ V)|
        by apply Hg|by apply (values_target _ _ V t')|by apply Hq|by apply (values_progress _ _ V t')].
Qed.

Lemma run_inv acts c c' :
  inv suspend (data c) (tasks c) -> run suspend true acts c = Some c' -> inv suspend (data c') (tasks c').
Proof.
  revert c. induction acts as [|[t a] acts IH]; intros c I Hr; cbn in Hr; [by simplify_eq|].
  destruct (fire suspend true t a c) as [c1|] eqn:Hf; [|done]. eauto using fire_inv.
Qed.

Lemma no_writer d ps t t' p p' w i :
  inv suspend d ps -> ps !! t = Some p -> ps !! t' = Some p' -> reading p = Some (w, i) -> writing p' <> Some i.
Proof.
  intros I Ht Ht' Hr Hw.
  assert (holds_modify p' = true) as Hm by (by destruct p').
  pose proof (inv_background _ _ _ I t' p' Ht') as Hb.
  destruct (inv_stale _ _ _ I t p w i Ht Hr) as [->|(tm & pm & Hpm & Hwait)].
  - destruct p'; cbn in *; simplify_eq; by destruct (index_ d).
  - pose proof (inv_modify _ _ _ I tm pm Hpm (waiter_modifies _ _ _ _ Hwait)).
    pose proof (inv_modify _ _ _ I t' p' Ht' Hm). assert (tm = t') as -> by congruence.
    rewrite Ht' in Hpm. injection Hpm as <-. by destruct p'.
Qed.

Lemma dbd_next_data t d d' p q i : next suspend t d p = Some (d', q) -> writing p <> Some i -> data_ d' i = data_ d i.
Proof.
  intros Hn Hw. destruct p; try (by next_cases Hn); cbn in Hn, Hw; destruct (f _ _);
    injection Hn as <- <-; cbn; by destruct bg, i.
Qed.

(** A reader keeps its instance and what it holds through any step but its own end. *)
Lemma fire_reading c c' t t' a p w i :
  inv suspend (data c) (tasks c) -> tasks c !! t = Some p -> reading p = Some (w, i) ->
  (t', a) <> (t, EndScope) -> fire suspend true t' a c = Some c' ->
  data_ (data c') i = data_ (data c) i /\ exists p', tasks c' !! t = Some p' /\ reading p' = Some (w, i).
Proof.
  intros I Ht Hr Hne (p1 & q & Ht1 & Hps & Hcase)%fire_cases. pose proof (lookup_lt_Some _ _ _ Ht1) as Hlt. split.
  - destruct Hcase as [[_ Hn]|(_ & -> & _)]; [|done].
    apply (dbd_next_data _ _ _ _ _ _ Hn). by eapply (no_writer _ _ t t' p p1); eauto.
  - rewrite Hps. destruct (decide (t' = t)) as [->|Htt]; [|exists p; by rewrite list_lookup_insert_ne].
    exists q. rewrite list_lookup_insert_eq by done. split; [done|]. rewrite Ht in Ht1. injection Ht1 as <-.
    destruct Hcase as [[_ Hn]|(_ & _ & _ & _ & He & _)]; [|by rewrite Hr, He in * ].
    clear I. destruct p; try done; next_cases Hn; done.
Qed.

Lemma run_reading acts c c' t p w i :
  inv suspend (data c) (tasks c) -> tasks c !! t = Some p -> reading p = Some (w, i) ->
  (t, EndScope) ∉ acts -> run suspend true acts c = Some c' ->
  data_ (data c') i = data_ (data c) i /\ exists p', tasks c' !! t = Some p' /\ reading p' = Some (w, i).
Proof.
  revert c p. induction acts as [|[t' a] acts IH]; intros c p I Ht Hr Hne Hrun; cbn in Hrun.
  { simplify_eq. eauto. }
  destruct (fire suspend true t' a c) as [c1|] eqn:Hf; [|done]. apply not_elem_of_cons in Hne as [Hne Hacts].
  destruct (fire_reading c c1 t t' a p w i) as [<- (p1 & Ht1 & Hr1)]; try done.
  eapply (IH c1 p1); eauto using fire_inv.
Qed.

Lemma fire_regs c c' t a :
  inv suspend (data c) (tasks c) -> regs suspend (data c) (tasks c) ->
  fire suspend true t a c = Some c' -> regs suspend (data c') (tasks c').
Proof.
  intros I R (p & q & Ht & Hps & [[-> Hn]|(_ & Hd & _ & _ & _ & Hdt & Hm & _)])%fire_cases; rewrite Hps.
  { by eapply next_regs. }
  rewrite Hd. destruct R as [Rn Rc Ra Rd Rw]. constructor; [done|done| | |].
  - intros t' p' w [[-> ->]|[Hne H]]%lookup_moved Hp'; [by destruct q|eauto].
  - intros t' p' w [[-> ->]|[Hne H]]%lookup_moved Hp'; [congruence|eauto].
  - intros Hs t' f bg ret k w [[-> <-]|[Hne H]]%lookup_moved; [done|eauto].
Qed.

Lemma run_regs acts c c' :
  inv suspend (data c) (tasks c) -> regs suspend (data c) (tasks c) -> run suspend true acts c = Some c' ->
  regs suspend (data c') (tasks c').
Proof.
  revert c. induction acts as [|[t a] acts IH]; intros c I R Hr; cbn in Hr; [by simplify_eq|].
  destruct (fire suspend true t a c) as [c1|] eqn:Hf; [|done]. eauto using fire_inv, fire_regs.
Qed.

Lemma run_values careful acts c c' :
  values (data c) (tasks c) -> Forall (fun ta => action_ok (snd ta)) acts ->
  run suspend careful acts c = Some c' ->
  values (data c') (tasks c') /\
  abs (data c') = fold_left (fun x f => fst (f x x)) (published careful acts c) (abs (data c)).
Proof.
  revert c. induction acts as [|[t a] acts IH]; intros c V Hok Hr; cbn in Hr; [by simplify_eq|].
  destruct (fire suspend careful t a c) as [c1|] eqn:Hf; [|done].
  apply Forall_cons in Hok as [Ha Hok]. cbn [published]. rewrite Hf, fold_left_app.
  destruct (IH c1) as [HV ->]; eauto using fire_values. split; [done|]. f_equal.
  destruct (fire_cases _ _ _ _ _ Hf) as (p & q & Ht & _ & [[-> Hn]|(Hne & -> & _)]); [|by destruct a].
  rewrite Ht. pose proof (next_abs _ _ _ _ _ _ V Ht Hn) as Habs. by destruct (publishes p).
Qed.
End Values.

(** ** Properties *)
Section Properties.
Context {T : Type}.
Implicit Types (acts : list (nat * action (T := T))) (c : config (T := T)).

(** Exclusion: whatever calls are interleaved, in both modes, no [Modify]
    writes the instance that a [ScopedPtr] holds, when threads quit after the
    reads made on them. *)
Theorem dbd_exclusion suspend acts (x : T) n c t t' w i p :
  run suspend true acts (start x n) = Some c ->
  tasks c !! t = Some (Hold w i) -> tasks c !! t' = Some p -> writing p <> Some i.
Proof. intros Hr Ht Ht'. by eapply no_writer; [eapply run_inv; [apply dbd_start_inv|]|exact Ht|exact Ht'|]. Qed.

(** C17. A read sees one value: from the step in which [Read] loads the index to
    the end of the [ScopedPtr], through any steps of other reads and
    modifications, the instance it refers to keeps the value that was published
    at that load.  Threads may quit in between, each after the reads that were
    made on it have ended; without that the claim is false. *)
Theorem dbd_read_stable suspend acts acts' (x : T) n c c' t w :
  run suspend true acts (start x n) = Some c -> tasks c !! t = Some (RLoad w) ->
  (t, EndScope) ∉ acts' -> run suspend true ((t, Next) :: acts') c = Some c' ->
  exists p, tasks c' !! t = Some p /\ reading p = Some (w, index_ (data c)) /\
    data_ (data c') (index_ (data c)) = abs (data c).
Proof.
  intros Hr Ht Hne Hrun. cbn [run] in Hrun.
  assert (inv suspend (data c) (tasks c)) as I by (eapply run_inv; [apply dbd_start_inv|done]).
  destruct (fire suspend true t Next c) as [c1|] eqn:Hf; [|done]. cbn [mbind option_bind] in Hrun.
  assert (exists p, tasks c1 !! t = Some p /\ reading p = Some (w, index_ (data c)) /\ data c1 = data c)
    as (p & Ht1 & Hp & Hd).
  { pose proof (lookup_lt_Some _ _ _ Ht). unfold fire in Hf. rewrite Ht in Hf. cbn in Hf. injection Hf as <-.
    eexists. cbn. rewrite list_lookup_insert_eq by done. split; [done|]. by destruct suspend. }
  destruct (run_reading suspend false acts' c1 c' t p w (index_ (data c))) as [Hv (p' & ? & ?)]; eauto using fire_inv.
  exists p'. rewrite Hv, Hd. done.
Qed.

(** C16. [DoublyBufferedData] is one value: after any interleaving of reads,
    modifications and exits of threads, whether or not reads are open on those,
    the published instance is the initial value under the published functions
    in the order of their publication, and the two instances are equal whenever
    no [Modify] is running, provided every function leaves an instance alone
    when it returns 0 and otherwise brings both instances to the same value.
    The check that both calls of a function return the same never fails when
    no function looks at the other instance, as those of [Modify] do not. *)
Theorem dbd_refines suspend careful acts (x : T) n c :
  Forall (fun ta => match snd ta with CallModify f => settles f | _ => True end) acts ->
  run suspend careful acts (start x n) = Some c ->
  abs (data c) = fold_left (fun x f => fst (f x x)) (published suspend careful acts (start x n)) x /\
  (modify_mutex (data c) = None -> data_ (data c) true = data_ (data c) false) /\
  (Forall (fun ta => match snd ta with CallModify f => blind f | _ => True end) acts ->
   forall t, tasks c !! t <> Some MFatal).
Proof.
  intros Hok Hr. destruct (run_values suspend false careful acts (start x n) c) as [V ->]; auto using start_values.
  { eapply Forall_impl; [exact Hok|]. intros [t []]; done. }
  split_and!; [done|intros Hm; by apply (values_same _ _ _ V)|]. intros Hb t Ht.
  destruct (run_values suspend true careful acts (start x n) c) as [V' _]; auto using start_values.
  { rewrite Forall_forall in Hok, Hb |- *. intros [t' a] Hin. specialize (Hok _ Hin). specialize (Hb _ Hin). by destruct a. }
  by pose proof (values_progress _ _ _ V' t _ Ht).
Qed.

(** C38. No wake-up is lost, when threads quit after the reads made on them:
    when a reader has brought the count of an instance to zero while a [Modify]
    waits for it, [EndRead] signals the condition, and the count is that of the
    readers left. *)
Theorem dbd_signals acts (x : T) n c t t' w bg f ret k :
  run true true acts (start x n) = Some c ->
  tasks c !! t = Some (ESignal w bg) -> tasks c !! t' = Some (MAgain f bg ret k w) ->
  w_ref (threads (data c) w) bg = count w bg (tasks c) /\
  SignalReadCond (threads (data c) w) bg = (count w bg (tasks c) =? 0).
Proof.
  intros Hr Ht Ht'. assert (inv true (data c) (tasks c)) as I by (eapply run_inv; [apply dbd_start_inv|done]).
  assert (regs true (data c) (tasks c)) as R by (eapply (run_regs true false); [apply dbd_start_inv|apply start_regs|done]).
  split; [by apply (inv_ref _ _ _ I)|]. unfold SignalReadCond.
  by rewrite (rg_waiting _ _ _ R eq_refl t' _ _ _ _ _ Ht'), andb_true_r, (inv_ref _ _ _ I).
Qed.
End Properties.

(** The functions of [Modify] keep the contract when a result of 0 means that
    nothing was changed. *)
Lemma closure_settles {T A} (f : T -> A -> T * Z) (a : A) :
  (forall x, snd (f x a) = 0 -> fst (f x a) = x) -> settles (Closure1 f a) /\ blind (Closure1 f a).
Proof.
  intros Hf. split; [|done]. intros x. unfold Closure1. specialize (Hf x). destruct (f x a) as [y r]. cbn in *.
  case_match eqn:E; [|done]. apply Hf. by apply Z.eqb_eq.
Qed.

(** ** Concrete runs *)

Definition add_to (x a : Z) : Z * Z := (x + a, if a =? 0 then 0 else 1).
Definition nexts (t n : nat) : list (nat * action (T := Z)) := replicate n (t, Next).

(** Task 0 reads on wrapper 0 and holds the pointer; task 1 modifies up to the
    write of the background instance. *)
Definition read0 : list (nat * action) := (0%nat, CallRead 0) :: nexts 0 8.
Definition modify1 (n : nat) : list (nat * action) := (1%nat, CallModify (Closure1 add_to 5)) :: nexts 1 n.

(** What a run makes of the tasks, or of another part of the object. *)
Lemma run_part {B} (g : config -> B) suspend careful acts (c0 : config (T := Z)) b :
  g <$> run suspend careful acts c0 = Some b -> exists c, run suspend careful acts c0 = Some c /\ g c = b.
Proof. intros (c & Hc & Hr)%fmap_Some. eauto. Qed.

Lemma dbd_exclusion_witness : writing (MWrite (Closure1 add_to 5) true) <> Some false.
Proof.
  destruct (run_part tasks true true (read0 ++ modify1 2) (start 0 2)
    [Hold 0 false; MWrite (Closure1 add_to 5) true]) as (c & Hr & Hc); [by vm_compute|].
  apply (dbd_exclusion true _ 0 2 c 0 1 0 false (MWrite (Closure1 add_to 5) true) Hr); by rewrite Hc.
Defined.

(** The reader loads before the [Modify], which then waits for it. *)
Definition loads0 : list (nat * action) := (0%nat, CallRead 0) :: nexts 0 5.

Lemma dbd_read_stable_witness :
  exists c c' p, run true true loads0 (start 0 2) = Some c /\
    run true true ((0%nat, Next) :: nexts 0 2 ++ modify1 8) c = Some c' /\
    tasks c' !! 0%nat = Some p /\ reading p = Some (0%nat, false) /\ data_ (data c') false = 0.
Proof.
  destruct (run_part (fun c => (tasks c, index_ (data c), abs (data c),
      bool_decide (is_Some (run true true ((0%nat, Next) :: nexts 0 2 ++ modify1 8) c))))
    true true loads0 (start 0 2) ([RLoad 0; Idle], false, 0, true)) as (c & Hr & Hc); [by vm_compute|].
  injection Hc as Ht Hi Ha [c' Hr']%bool_decide_eq_true.
  destruct (dbd_read_stable true loads0 (nexts 0 2 ++ modify1 8) 0 2 c c' 0 0 Hr) as (p & Hp); [by rewrite Ht| |done|].
  - unfold nexts, modify1. intros Hin. apply list_elem_of_In in Hin. cbn in Hin.
    by repeat (destruct Hin as [Hin|Hin]; [discriminate|]).
  - rewrite Hi, Ha in Hp. exists c, c', p. done.
Defined.

Lemma dbd_refines_witness :
  exists c, run true false (modify1 8 ++ [(1%nat, Return)] ++ modify1 8) (start 2 2) = Some c /\
    modify_mutex (data c) = None /\ abs (data c) = 12 /\ data_ (data c) true = data_ (data c) false /\
    forall t, tasks c !! t <> Some MFatal.
Proof.
  destruct (run_part (fun c => modify_mutex (data c)) true false (modify1 8 ++ [(1%nat, Return)] ++ modify1 8)
    (start 2 2) None) as (c & Hr & Hm); [by vm_compute|].
  destruct (dbd_refines true false (modify1 8 ++ [(1%nat, Return)] ++ modify1 8) 2 2 c) as (Ha & He & Hf); [|done|].
  - repeat constructor; cbn; apply closure_settles; unfold add_to; intros y; cbn; lia.
  - exists c. split_and!; [done|done| |by apply He|].
    + rewrite Ha. by vm_compute.
    + apply Hf. repeat constructor.
Defined.

(** Task 1 waits in [Modify] for the reader, which then ends. *)
Lemma dbd_signals_witness :
  exists c, run true true (read0 ++ modify1 7 ++ (0%nat, EndScope) :: nexts 0 2) (start 0 2) = Some c /\
    SignalReadCond (threads (data c) 0) false = true.
Proof.
  destruct (run_part tasks true true (read0 ++ modify1 7 ++ (0%nat, EndScope) :: nexts 0 2) (start 0 2)
    [ESignal 0 false; MAgain (Closure1 add_to 5) false 1 0 0]) as (c & Hr & Hc); [by vm_compute|].
  exists c. split; [done|].
  destruct (dbd_signals _ 0 2 c 0 1 0 false (Closure1 add_to 5) 1 0 Hr) as [_ ->]; by rewrite Hc.
Defined.

(** C37. With [AllowBthreadSuspended], [~Wrapper] takes the wrapper out of
    [_wrappers] before it waits for the readers of the wrapper: when the thread
    that a suspended reader started on quits, a [Modify] does not wait for the
    reader and changes the instance under its [ScopedPtr]. *)
Theorem dbd_exit_unsafe :
  exists acts c c',
    run true false acts (start 0 3) = Some c /\ run true false [(1%nat, Next)] c = Some c' /\
    tasks c !! 0%nat = Some (Hold 0 false) /\ tasks c' !! 0%nat = Some (Hold 0 false) /\
    tasks c !! 2%nat = Some (XWait 0 false) /\
    data_ (data c) false = 0 /\ data_ (data c') false = 5.
Proof.
  exists (read0 ++ ((2%nat, CallExit 0) :: nexts 2 3) ++ modify1 6).
  destruct (run_part (fun c => (tasks c !! 0%nat, tasks c !! 2%nat, data_ (data c) false,
      (fun c' => (tasks c' !! 0%nat, data_ (data c') false)) <$> run true false [(1%nat, Next)] c))
    true false (read0 ++ ((2%nat, CallExit 0) :: nexts 2 3) ++ modify1 6) (start 0 3)
    (Some (Hold 0 false), Some (XWait 0 false), 0, Some (Some (Hold 0 false), 5))) as (c & Hr & Hc); [by vm_compute|].
  injection Hc as H0 H2 Hd (c' & Hr' & [= Ht' Hd'])%fmap_Some. exists c, c'.
  exact (conj Hr (conj Hr' (conj H0 (conj (eq_sym Ht') (conj H2 (conj Hd (eq_sym Hd'))))))).
Qed.
