(* ===== verification/Recorder.v ===== *)
(** * Averages of samples (libsh/bvar/recorder.h, libsh/bvar/detail/combiner.h)

    An [IntRecorder] keeps, per thread, a count of 20 bits and a sum of 44 bits
    packed into one 64-bit element that the thread changes by compare-exchange,
    while other threads combine or reset the elements of all threads under the
    lock of the combiner.  Every access to an element is a step; what runs under
    the lock and touches no element of another thread is one step with it.  The
    fields of a [Stat] are exact integers here: [recorder_conserves] bounds them,
    below 2^32 samples they fit [int64_t]. *)

From Stdlib Require Import ZArith Znumtheory Lia.
From stdpp Require Import base list.
From S2P Require Import Prelude Numerics.

Open Scope Z_scope.

(** ** Statistics *)

Record Stat : Type := mkStat { stat_sum : Z; stat_num : Z }.

Definition Stat_ctor : Stat := mkStat 0 0.

(** Division of [int64_t] truncates. *)
Definition get_average_int (s : Stat) : Z :=
  if stat_num s =? 0 then 0 else Z.quot (stat_sum s) (stat_num s).

Definition Stat_minus (s rhs : Stat) : Stat := mkStat (stat_sum s - stat_sum rhs) (stat_num s - stat_num rhs).
Definition Stat_plus (s rhs : Stat) : Stat := mkStat (stat_sum s + stat_sum rhs) (stat_num s + stat_num rhs).

(** ** The packed element *)

Definition SUM_BIT_WIDTH : Z := 44.
Definition MAX_SUM_PER_THREAD : Z := Z.shiftl 1 SUM_BIT_WIDTH - 1.
Definition MAX_NUM_PER_THREAD : Z := Z.shiftl 1 (64 - SUM_BIT_WIDTH) - 1.

Definition get_sum (n : Z) : Z := Z.land n MAX_SUM_PER_THREAD.
Definition get_num (n : Z) : Z := Z.shiftr n SUM_BIT_WIDTH.

Definition extend_sign_bit (sum : Z) : Z :=
  cast int64 (Z.lor (cast uint64 ((Z.shiftl 1 (64 - SUM_BIT_WIDTH + 1) - 1) *
                                  Z.land (Z.shiftl 1 (SUM_BIT_WIDTH - 1)) sum)) sum).

Definition get_complement (n : Z) : Z := Z.land (cast uint64 n) MAX_SUM_PER_THREAD.

Definition compress (num sum : Z) : Z :=
  Z.lor (cast uint64 (Z.shiftl num SUM_BIT_WIDTH)) (Z.land sum MAX_SUM_PER_THREAD).

Definition will_overflow (lhs rhs : Z) : bool :=
  ((0 <? lhs) && (0 <? rhs) && (Z.shiftr MAX_SUM_PER_THREAD 1 <? lhs + rhs)) ||
  ((lhs <? 0) && (rhs <? 0) && (lhs + rhs <? - Z.shiftr MAX_SUM_PER_THREAD 1 - 1)).

Definition AddToStat (lhs : Stat) (rhs : Z) : Stat :=
  mkStat (stat_sum lhs + extend_sign_bit (get_sum rhs)) (stat_num lhs + get_num rhs).

(** The sample that [operator<<] records: truncated to the range of [int]. *)
Definition truncate_sample (sample : Z) : Z :=
  if cast int32 sample =? sample then sample
  else if imax int32 <? sample then imax int32 else imin int32.

(** The guard of the loop of [operator<<]. *)
Definition no_room (n sample : Z) : bool :=
  (MAX_NUM_PER_THREAD <? get_num n + 1) || will_overflow (extend_sign_bit (get_sum n)) sample.

Definition with_sample (n sample : Z) : Z :=
  compress (get_num n + 1) (get_sum n + get_complement sample).

(** ** The combiner *)

(** The agent of thread [t] is [t]; [attached] tells that its [combiner] is set. *)
Record AgentCombiner : Type := mkCombiner {
  lock_ : option nat;
  global_result : Stat;
  agents_ : list nat;
  element : nat -> Z;
  attached : nat -> bool
}.

Definition AgentCombiner_ctor : AgentCombiner := mkCombiner None Stat_ctor [] (fun _ => 0) (fun _ => false).

Definition upd {A} (f : nat -> A) (t : nat) (a : A) : nat -> A := fun t' => if decide (t' = t) then a else f t'.

Definition element_store (c : AgentCombiner) (t : nat) (v : Z) : AgentCombiner :=
  mkCombiner (lock_ c) (global_result c) (agents_ c) (upd (element c) t v) (attached c).
Definition element_exchange (c : AgentCombiner) (t : nat) (v : Z) : Z * AgentCombiner :=
  (element c t, element_store c t v).

(** [weak]: the exchange fails although the values agree. *)
Definition compare_exchange_weak (weak : bool) (c : AgentCombiner) (t : nat) (expected v : Z) : bool * AgentCombiner :=
  if (element c t =? expected) && negb weak then (true, element_store c t v) else (false, c).

Definition agent_reset (c : AgentCombiner) (t : nat) (v : Z) (on : bool) : AgentCombiner :=
  mkCombiner (lock_ c) (global_result c) (agents_ c) (upd (element c) t v) (upd (attached c) t on).

Definition set_lock (c : AgentCombiner) (l : option nat) : AgentCombiner :=
  mkCombiner l (global_result c) (agents_ c) (element c) (attached c).
Definition set_global (c : AgentCombiner) (g : Stat) : AgentCombiner :=
  mkCombiner (lock_ c) g (agents_ c) (element c) (attached c).
Definition set_agents (c : AgentCombiner) (l : list nat) : AgentCombiner :=
  mkCombiner (lock_ c) (global_result c) l (element c) (attached c).

(** Code that runs with [_lock] from here to its end. *)
Definition locked {A} (c : AgentCombiner) (k : AgentCombiner -> A) : option A :=
  match lock_ c with None => Some (k c) | Some _ => None end.

Definition commit_and_clear (c : AgentCombiner) (t : nat) : option AgentCombiner :=
  locked c (fun c => let '(prev, c) := element_exchange c t 0 in
                     set_global c (AddToStat (global_result c) prev)).

(** With the end of [~Agent], which detaches the agent. *)
Definition commit_and_erase (c : AgentCombiner) (t : nat) : option AgentCombiner :=
  locked c (fun c => let c := set_global c (AddToStat (global_result c) (element c t)) in
                     let c := set_agents c (filter (fun a => a <> t) (agents_ c)) in
                     mkCombiner (lock_ c) (global_result c) (agents_ c) (element c) (upd (attached c) t false)).

Definition append_agent (c : AgentCombiner) (t : nat) : option AgentCombiner :=
  locked c (fun c => set_agents c (agents_ c ++ [t])).

(** [clear_all_agents]: the loop detaches every agent of the list. *)
Fixpoint clear_loop (c : AgentCombiner) (l : list nat) : AgentCombiner :=
  match l with
  | [] => c
  | t :: l =>
      let c := agent_reset c t 0 false in
      clear_loop (set_agents c (filter (fun a => a <> t) (agents_ c))) l
  end.
Definition clear_all_agents (c : AgentCombiner) : option AgentCombiner :=
  locked c (fun c => clear_loop c (agents_ c)).

(** ** Calls *)

Inductive rec_pc : Type :=
| Idle
(** operator<< *)
| SGet (s : Z)
| SAppend (s : Z)
| SLoad (s : Z)
| STry (s n : Z)
| SCas (s n : Z)
(** combine_agents, reset_all_agents: what is summed up and the agents ahead *)
| CLock
| CWalk (ret : Stat) (l : list nat)
| CRet (ret : Stat)
| RLock
| RWalk (tmp : Stat) (l : list nat)
| RRet (tmp : Stat)
(** ~Agent *)
| XErase.

Section Next.
Context (weak : bool) (t : nat).

Definition get_or_create_next (c : AgentCombiner) (p : rec_pc) : option (AgentCombiner * rec_pc) :=
  match p with
  | SGet s => if attached c t then Some (c, SLoad s) else Some (agent_reset c t 0 true, SAppend s)
  | SAppend s => (fun c => (c, SLoad s)) <$> append_agent c t
  | _ => None
  end.

Definition record_next (c : AgentCombiner) (p : rec_pc) : option (AgentCombiner * rec_pc) :=
  match p with
  | SLoad s => Some (c, STry s (element c t))
  | STry s n =>
      if no_room n s then (fun c => (c, SCas s 0)) <$> commit_and_clear c t else Some (c, SCas s n)
  | SCas s n =>
      let '(ok, c') := compare_exchange_weak weak c t n (with_sample n s) in
      Some (c', if ok : bool then Idle else STry s (element c t))
  | _ => get_or_create_next c p
  end.

Definition combine_agents_next (c : AgentCombiner) (p : rec_pc) : option (AgentCombiner * rec_pc) :=
  match p with
  | CLock => locked c (fun c => (set_lock c (Some t), CWalk (global_result c) (agents_ c)))
  | CWalk ret [] => Some (set_lock c None, CRet ret)
  | CWalk ret (a :: l) => Some (c, CWalk (AddToStat ret (element c a)) l)
  | CRet _ => Some (c, Idle)
  | _ => None
  end.

Definition reset_all_agents_next (c : AgentCombiner) (p : rec_pc) : option (AgentCombiner * rec_pc) :=
  match p with
  | RLock => locked c (fun c => (set_lock (set_global c Stat_ctor) (Some t), RWalk (global_result c) (agents_ c)))
  | RWalk tmp [] => Some (set_lock c None, RRet tmp)
  | RWalk tmp (a :: l) =>
      let '(prev, c) := element_exchange c a 0 in Some (c, RWalk (AddToStat tmp prev) l)
  | RRet _ => Some (c, Idle)
  | _ => None
  end.

Definition rec_next (c : AgentCombiner) (p : rec_pc) : option (AgentCombiner * rec_pc) :=
  match p with
  | SGet _ | SAppend _ | SLoad _ | STry _ _ | SCas _ _ => record_next c p
  | CLock | CWalk _ _ | CRet _ => combine_agents_next c p
  | RLock | RWalk _ _ | RRet _ => reset_all_agents_next c p
  | XErase => if attached c t then (fun c => (c, Idle)) <$> commit_and_erase c t else Some (c, Idle)
  | Idle => None
  end.
End Next.

(** ** Arithmetic of the element *)

Definition wf (n : Z) : Prop := 0 <= n < 2 ^ 64.
Definition decode (n : Z) : Stat := AddToStat Stat_ctor n.
Definition sample_stat (s : Z) : Stat := mkStat s 1.

Lemma Stat_eq s1 s2 : stat_sum s1 = stat_sum s2 -> stat_num s1 = stat_num s2 -> s1 = s2.
Proof. destruct s1, s2; cbn; congruence. Qed.

Ltac stat := apply Stat_eq; cbn [stat_sum stat_num Stat_plus Stat_minus Stat_ctor sample_stat AddToStat]; lia.

(** The two components of an equation. *)
Ltac stat_in H :=
  let H1 := fresh in
  pose proof (f_equal stat_sum H) as H1; apply (f_equal stat_num) in H;
  cbn [stat_sum stat_num Stat_plus Stat_minus Stat_ctor sample_stat] in H, H1.

Lemma AddToStat_decode s n : AddToStat s n = Stat_plus s (decode n).
Proof. unfold decode. stat. Qed.

Lemma get_sum_mod n : get_sum n = n mod 2 ^ 44.
Proof. unfold get_sum. change MAX_SUM_PER_THREAD with (Z.ones 44). by apply Z.land_ones. Qed.

Lemma get_num_div n : get_num n = n / 2 ^ 44.
Proof. by apply Z.shiftr_div_pow2. Qed.

Lemma cast_uint64_id z : 0 <= z < 2 ^ 64 -> cast uint64 z = z.
Proof. intros H. unfold cast. cbn [is_signed uint64]. change (bits uint64) with 64. by apply Z.mod_small. Qed.

Lemma lor_high_low a b k : 0 <= k -> 0 <= b < 2 ^ k -> Z.lor (a * 2 ^ k) b = a * 2 ^ k + b.
Proof.
  intros Hk Hb. assert (Z.land (a * 2 ^ k) b = 0) as Hl.
  { apply Z.bits_inj'. intros i Hi. rewrite Z.land_spec, Z.bits_0.
    destruct (Z.lt_ge_cases i k) as [Hlt|Hge].
    - by rewrite Z.mul_pow2_bits_low.
    - destruct (decide (b = 0)) as [->|]; [by rewrite Z.bits_0, andb_false_r|].
      rewrite (Z.bits_above_log2 b i), andb_false_r; [done|lia|]. apply Z.log2_lt_pow2; [lia|].
      apply (Z.lt_le_trans _ (2 ^ k)); [lia|]. by apply Z.pow_le_mono_r; lia. }
  by rewrite Z.add_nocarry_lxor, Z.lxor_lor.
Qed.

Lemma compress_spec num sum : 0 <= num <= MAX_NUM_PER_THREAD -> compress num sum = num * 2 ^ 44 + sum mod 2 ^ 44.
Proof.
  intros Hn. change MAX_NUM_PER_THREAD with (2 ^ 20 - 1) in Hn. unfold compress, SUM_BIT_WIDTH.
  change MAX_SUM_PER_THREAD with (Z.ones 44). rewrite Z.land_ones, Z.shiftl_mul_pow2 by done.
  rewrite cast_uint64_id by lia. apply lor_high_low; [done|]. by apply Z.mod_pos_bound.
Qed.

Lemma sign_bit_land sum : 0 <= sum < 2 ^ 44 -> Z.land (Z.shiftl 1 43) sum = if sum <? 2 ^ 43 then 0 else 2 ^ 43.
Proof.
  intros Hs. rewrite Z.shiftl_1_l, Z.land_comm.
  assert (Z.testbit sum 43 = negb (sum <? 2 ^ 43)) as Hb.
  { rewrite Z.testbit_eqb by done. destruct (Z.ltb_spec sum (2 ^ 43)).
    - by rewrite Z.div_small by lia.
    - replace (sum / 2 ^ 43) with 1; [done|]. apply Z.div_unique with (sum - 2 ^ 43); lia. }
  apply Z.bits_inj'. intros i Hi. rewrite Z.land_spec, Z.pow2_bits_eqb by done.
  destruct (Z.eqb_spec 43 i) as [<-|Hne].
  - rewrite Hb, andb_true_r. by case_match.
  - rewrite andb_false_r. case_match; [by rewrite Z.bits_0|]. by rewrite Z.pow2_bits_false.
Qed.

Lemma extend_sign_bit_spec sum :
  0 <= sum < 2 ^ 44 -> extend_sign_bit sum = if sum <? 2 ^ 43 then sum else sum - 2 ^ 44.
Proof.
  intros Hs. unfold extend_sign_bit, SUM_BIT_WIDTH.
  change (44 - 1) with 43. rewrite sign_bit_land by done. destruct (Z.ltb_spec sum (2 ^ 43)) as [Hlt|Hge].
  - rewrite Z.mul_0_r. change (cast uint64 0) with 0. rewrite Z.lor_0_l. apply cast_id; [unfold ity_ok; cbn; tauto|].
    unfold in_ity. change (imin int64) with (- 2 ^ 63). change (imax int64) with (2 ^ 63 - 1). lia.
  - change (cast uint64 _) with ((2 ^ 21 - 1) * 2 ^ 43).
    replace sum with (1 * 2 ^ 43 + (sum - 2 ^ 43)) at 1 by lia.
    rewrite <- (lor_high_low 1 (sum - 2 ^ 43) 43), Z.lor_assoc by lia.
    change (Z.lor ((2 ^ 21 - 1) * 2 ^ 43) (1 * 2 ^ 43)) with ((2 ^ 21 - 1) * 2 ^ 43).
    rewrite lor_high_low by lia. unfold cast. cbn [is_signed int64]. change (bits int64) with 64.
    replace ((2 ^ 21 - 1) * 2 ^ 43 + (sum - 2 ^ 43) + 2 ^ (64 - 1)) with (sum - 2 ^ 44 + 2 ^ 63 + 1 * 2 ^ 64) by lia.
    rewrite Z.mod_add, Z.mod_small by lia. lia.
Qed.

(** The signed sum of an element. *)
Lemma signed_sum_mod n s :
  - 2 ^ 43 <= s < 2 ^ 43 -> n mod 2 ^ 44 = s mod 2 ^ 44 -> extend_sign_bit (get_sum n) = s.
Proof.
  intros Hs Hn. rewrite get_sum_mod, Hn, extend_sign_bit_spec by (by apply Z.mod_pos_bound).
  destruct (Z.lt_ge_cases s 0).
  - rewrite <- (Z.mod_unique_pos s (2 ^ 44) (-1) (s + 2 ^ 44)) by lia. case_match; lia.
  - rewrite Z.mod_small by lia. case_match; lia.
Qed.

Lemma signed_sum_range n : - 2 ^ 43 <= extend_sign_bit (get_sum n) < 2 ^ 43.
Proof.
  rewrite get_sum_mod. pose proof (Z.mod_pos_bound n (2 ^ 44) eq_refl).
  rewrite extend_sign_bit_spec by done. case_match; lia.
Qed.

Lemma signed_sum_residue n : extend_sign_bit (get_sum n) mod 2 ^ 44 = n mod 2 ^ 44.
Proof.
  rewrite get_sum_mod. pose proof (Z.mod_pos_bound n (2 ^ 44) eq_refl).
  rewrite extend_sign_bit_spec by done. case_match; [by rewrite Z.mod_mod|].
  replace (n mod 2 ^ 44 - 2 ^ 44) with (n mod 2 ^ 44 + (-1) * 2 ^ 44) by lia. by rewrite Z.mod_add, Z.mod_mod.
Qed.

Lemma get_complement_mod s : get_complement s = s mod 2 ^ 44.
Proof.
  unfold get_complement. change MAX_SUM_PER_THREAD with (Z.ones 44). rewrite Z.land_ones by done.
  unfold cast. cbn [is_signed uint64]. change (bits uint64) with 64.
  symmetry. apply Znumtheory.Zmod_div_mod; [done|done|by exists (2 ^ 20)].
Qed.

Lemma will_overflow_spec lhs rhs :
  - 2 ^ 43 <= lhs < 2 ^ 43 -> in_ity int32 rhs ->
  will_overflow lhs rhs = negb ((- 2 ^ 43 <=? lhs + rhs) && (lhs + rhs <? 2 ^ 43)).
Proof.
  rewrite int32_range. intros Hl Hr. unfold will_overflow.
  change (Z.shiftr MAX_SUM_PER_THREAD 1) with (2 ^ 43 - 1). apply Bool.eq_iff_eq_true.
  rewrite orb_true_iff, !andb_true_iff, negb_true_iff, andb_false_iff, !Z.ltb_lt, Z.leb_gt, Z.ltb_ge. lia.
Qed.

(** The pack and the unpack of a count and a sum that fit. *)
Lemma decode_compress num sum :
  0 <= num <= MAX_NUM_PER_THREAD -> - 2 ^ 43 <= sum < 2 ^ 43 ->
  decode (compress num (get_complement sum)) = mkStat sum num /\ wf (compress num (get_complement sum)).
Proof.
  intros Hn Hs. rewrite compress_spec, get_complement_mod, Z.mod_mod by done.
  change MAX_NUM_PER_THREAD with (2 ^ 20 - 1) in Hn.
  pose proof (Z.mod_pos_bound sum (2 ^ 44) eq_refl) as Hm. split; [|unfold wf; lia].
  apply Stat_eq; cbn [decode AddToStat Stat_ctor stat_sum stat_num].
  - apply signed_sum_mod; [done|]. rewrite Z.add_comm, Z.mod_add, Z.mod_mod by done. done.
  - rewrite get_num_div, Z.div_add_l, Z.div_small by lia. lia.
Qed.

Lemma with_sample_decode n s :
  wf n -> in_ity int32 s -> no_room n s = false ->
  decode (with_sample n s) = Stat_plus (decode n) (sample_stat s) /\ wf (with_sample n s).
Proof.
  intros Hwf Hs Hroom. apply orb_false_iff in Hroom as [Hnum Hov]. apply Z.ltb_ge in Hnum.
  pose proof (signed_sum_range n) as Hr. rewrite will_overflow_spec in Hov by done.
  apply negb_false_iff, andb_prop in Hov as [H1%Z.leb_le H2%Z.ltb_lt].
  set (x := extend_sign_bit (get_sum n)) in *.
  assert (0 <= get_num n) by (rewrite get_num_div; apply Z.div_pos; [apply Hwf|done]).
  assert (with_sample n s = compress (get_num n + 1) (get_complement (x + s))) as ->.
  { unfold with_sample. rewrite !compress_spec by lia. f_equal. rewrite !get_complement_mod, get_sum_mod.
    rewrite Z.mod_mod, <- (signed_sum_residue n) by done. fold x. by rewrite <- Z.add_mod. }
  destruct (decode_compress (get_num n + 1) (x + s)) as [-> ?]; [lia|lia|]. split; [|done].
  apply Stat_eq; cbn; fold x; lia.
Qed.

Lemma no_room_zero s : in_ity int32 s -> no_room 0 s = false.
Proof.
  intros Hs. unfold no_room. change (get_num 0) with 0. change (extend_sign_bit (get_sum 0)) with 0.
  rewrite will_overflow_spec by done. rewrite int32_range in Hs. apply orb_false_iff. split; [done|].
  apply negb_false_iff, andb_true_iff. rewrite Z.leb_le, Z.ltb_lt. lia.
Qed.

Lemma truncate_sample_range s : in_ity int32 (truncate_sample s).
Proof.
  unfold truncate_sample. case_match eqn:E; [|case_match; by compute].
  apply Z.eqb_eq in E. rewrite <- E. apply cast_range, int32_ok.
Qed.

(** ** Threads

    With the state go two records of what happened: the samples recorded so
    far, in the order of their exchanges, and the results of the finished
    resets; and for a running [combine_agents] the number of samples recorded
    when it took the lock. *)

Record rconfig : Type := mkRconfig {
  rc_combiner : AgentCombiner;
  rc_threads : list rec_pc;
  rc_recorded : list Z;
  rc_given : list Stat;
  rc_since : nat -> nat
}.

Definition rstart (n : nat) : rconfig := mkRconfig AgentCombiner_ctor (replicate n Idle) [] [] (fun _ => O).

Inductive raction : Type :=
| Record_ (sample : Z)
| Combine
| Reset_
| Exit
| Step (weak : bool).

Definition rec_call (a : raction) : option rec_pc :=
  match a with
  | Record_ sample => Some (SGet (truncate_sample sample))
  | Combine => Some CLock
  | Reset_ => Some RLock
  | Exit => Some XErase
  | Step _ => None
  end.

(** A sample is recorded by the exchange that succeeds. *)
Definition recorded_by (p q : rec_pc) : list Z := match p, q with SCas s _, Idle => [s] | _, _ => [] end.

Definition rfire (t : nat) (a : raction) (c : rconfig) : option rconfig :=
  p ← rc_threads c !! t;
  match a, p with
  | Step weak, _ =>
      cq ← rec_next weak t (rc_combiner c) p;
      Some (mkRconfig (fst cq) (<[t := snd cq]> (rc_threads c))
        (rc_recorded c ++ recorded_by p (snd cq))
        (match p with RWalk tmp [] => rc_given c ++ [tmp] | _ => rc_given c end)
        (match p with CLock => upd (rc_since c) t (length (rc_recorded c)) | _ => rc_since c end))
  | _, Idle =>
      q ← rec_call a;
      Some (mkRconfig (rc_combiner c) (<[t := q]> (rc_threads c)) (rc_recorded c) (rc_given c) (rc_since c))
  | _, _ => None
  end.

Fixpoint rrun (acts : list (nat * raction)) (c : rconfig) : option rconfig :=
  match acts with
  | [] => Some c
  | (t, a) :: acts => c' ← rfire t a c; rrun acts c'
  end.

Ltac rec_cases Hn :=
  cbn in Hn;
  unfold append_agent, commit_and_clear, commit_and_erase, locked, compare_exchange_weak, element_exchange in Hn;
  repeat (case_match; simplify_option_eq); simplify_option_eq.

(** ** The shape of the state *)
Section Shape.
Implicit Types (c : AgentCombiner) (ps : list rec_pc) (p q : rec_pc) (t : nat).

Definition walking p : bool := match p with CWalk _ _ | RWalk _ _ => true | _ => false end.

Definition pc_ok c t p : Prop :=
  match p with
  | SAppend s => in_ity int32 s /\ attached c t = true /\ t ∉ agents_ c /\ element c t = 0
  | SGet s => in_ity int32 s /\ (attached c t = true <-> t ∈ agents_ c)
  | SLoad s => in_ity int32 s /\ attached c t = true /\ t ∈ agents_ c
  | STry s n => in_ity int32 s /\ attached c t = true /\ t ∈ agents_ c /\ wf n
  | SCas s n => in_ity int32 s /\ attached c t = true /\ t ∈ agents_ c /\ wf n /\ no_room n s = false
  | CWalk _ l | RWalk _ l => (attached c t = true <-> t ∈ agents_ c) /\ l `suffix_of` agents_ c
  | _ => attached c t = true <-> t ∈ agents_ c
  end.

Record shape c ps : Prop := mkShape {
  sh_lock : forall t p, ps !! t = Some p -> walking p = true -> lock_ c = Some t;
  sh_wf : forall t, wf (element c t);
  sh_nodup : NoDup (agents_ c);
  sh_pc : forall t p, ps !! t = Some p -> pc_ok c t p
}.

Lemma pc_ok_other c c' t p :
  attached c' t = attached c t -> (t ∈ agents_ c' <-> t ∈ agents_ c) ->
  (element c t = 0 -> element c' t = 0) -> (walking p = true -> agents_ c' = agents_ c) ->
  pc_ok c t p -> pc_ok c' t p.
Proof.
  intros Ha Hi He Hw Hp. destruct p; cbn in *; rewrite ?Ha, ?Hi; try rewrite Hw by done; naive_solver.
Qed.

Lemma upd_same {A} (f : nat -> A) t a : upd f t a t = a.
Proof. unfold upd. by rewrite decide_True. Qed.

Lemma upd_other {A} (f : nat -> A) t t' a : t' <> t -> upd f t a t' = f t'.
Proof. intros H. unfold upd. by rewrite decide_False. Qed.

Lemma wf_zero : wf 0.
Proof. by unfold wf. Qed.

(** What a step of thread [t] does to the agents. *)
Lemma next_agents weak t c p c' q :
  rec_next weak t c p = Some (c', q) ->
  (agents_ c' = agents_ c \/
   (lock_ c = None /\ (agents_ c' = agents_ c ++ [t] \/ agents_ c' = filter (fun a => a <> t) (agents_ c)))) /\
  (forall t', t' <> t -> attached c' t' = attached c t') /\
  (forall t', t' <> t -> element c t' = 0 -> element c' t' = 0).
Proof.
  intros Hn. destruct p as [|s|s|s|s n|s n| |ret l| | |tmp l| |]; cbn in Hn;
    unfold append_agent, commit_and_clear, commit_and_erase, locked, compare_exchange_weak, element_exchange in Hn;
    repeat case_match; simplify_eq/=; split_and!; intros; rewrite ?upd_other by done; auto.
  destruct (decide (t' = n)) as [->|]; [by rewrite upd_same|by rewrite upd_other].
Qed.

Section ShapeStep.
Context weak t c p c' q ps (S : shape c ps) (Ht : ps !! t = Some p) (Hn : rec_next weak t c p = Some (c', q)).

Lemma next_wf t' : wf (element c' t').
Proof.
  pose proof (sh_wf _ _ S) as Hw. pose proof (sh_pc _ _ S t p Ht) as Hp. pose proof wf_zero as Hz.
  clear S. destruct p; rec_cases Hn; cbn in *; auto; unfold upd; repeat case_decide; auto.
  apply with_sample_decode; tauto.
Qed.

Lemma next_nodup : NoDup (agents_ c').
Proof.
  pose proof (sh_nodup _ _ S) as Hd. pose proof (sh_pc _ _ S t p Ht) as Hp.
  clear S. destruct p; rec_cases Hn; cbn in *; auto.
  - apply NoDup_app. split_and!; [done| |apply NoDup_singleton].
    intros a Ha ->%list_elem_of_singleton. naive_solver.
  - by apply NoDup_filter.
Qed.

Lemma next_lock t' p' : <[t := q]> ps !! t' = Some p' -> walking p' = true -> lock_ c' = Some t'.
Proof.
  pose proof (sh_lock _ _ S t p Ht) as Hl. intros [[-> ->]|[Hne H]]%lookup_moved Hw.
  - clear S. destruct p; rec_cases Hn; cbn in *; try done; auto.
  - pose proof (sh_lock _ _ S t' p' H Hw) as Ho. clear S.
    destruct p; rec_cases Hn; cbn in *; try specialize (Hl eq_refl); simplify_eq; auto.
Qed.

Lemma next_pc t' p' : <[t := q]> ps !! t' = Some p' -> pc_ok c' t' p'.
Proof.
  intros [[-> ->]|[Hne H]]%lookup_moved.
  - pose proof (sh_pc _ _ S t p Ht) as Hp. pose proof (sh_wf _ _ S t) as Hw. pose proof (no_room_zero) as Hz.
    pose proof wf_zero. clear S. destruct p; rec_cases Hn; cbn in *; rewrite ?upd_same; try tauto.
    + destruct Hp as [? Hi]. rewrite <- Hi. split_and!; congruence.
    + rewrite elem_of_app, list_elem_of_singleton. tauto.
    + done.
    + destruct Hp as [? [k Hk]]. split; [done|]. exists (k ++ [n]). by rewrite <- app_assoc.
    + done.
    + destruct Hp as [? [k Hk]]. split; [done|]. exists (k ++ [n]). by rewrite <- app_assoc.
    + rewrite list_elem_of_filter. naive_solver.
  - destruct (next_agents _ _ _ _ _ _ Hn) as (Ha & Hat & He).
    apply (pc_ok_other c c'); auto.
    + destruct Ha as [->|[_ [-> | ->]]]; [done| |].
      * rewrite elem_of_app, list_elem_of_singleton. naive_solver.
      * rewrite list_elem_of_filter. naive_solver.
    + intros Hw. pose proof (sh_lock _ _ S t' p' H Hw). destruct Ha as [->|[Hno _]]; [done|congruence].
    + by apply (sh_pc _ _ S).
Qed.

Lemma next_shape : shape c' (<[t := q]> ps).
Proof. constructor; eauto using next_wf, next_nodup, next_lock, next_pc. Qed.
End ShapeStep.

Lemma call_shape c ps t a q :
  shape c ps -> ps !! t = Some Idle -> rec_call a = Some q -> shape c (<[t := q]> ps).
Proof.
  intros S Ht Hq. pose proof (sh_pc _ _ S t _ Ht) as Hp. constructor; try apply S.
  - intros t' p' [[-> ->]|[Hne H]]%lookup_moved Hw; [by destruct a; simplify_eq/=|by eapply (sh_lock _ _ S)].
  - intros t' p' [[-> ->]|[Hne H]]%lookup_moved; [|by apply (sh_pc _ _ S)].
    destruct a; simplify_eq/=; try done. split; [apply truncate_sample_range|done].
Qed.
End Shape.

(** ** Accounting *)
Section Accounting.
Implicit Types (c : AgentCombiner) (ps : list rec_pc) (p q : rec_pc) (t : nat) (e : nat -> Z).

Definition total (samples : list Z) : Stat := mkStat (foldr Z.add 0 samples) (Z.of_nat (length samples)).
Definition sum_stats (l : list Stat) : Stat := foldr Stat_plus Stat_ctor l.
Definition elements e (l : list nat) : Stat := sum_stats ((fun t => decode (e t)) <$> l).

(** What a running reset has taken out so far. *)
Definition in_reset c ps : Stat :=
  match lock_ c with
  | Some t => match ps !! t with Some (RWalk tmp _) => tmp | _ => Stat_ctor end
  | None => Stat_ctor
  end.

Definition balance c ps (given : list Stat) : Stat :=
  Stat_plus (sum_stats given) (Stat_plus (in_reset c ps) (Stat_plus (global_result c) (elements (element c) (agents_ c)))).

Lemma total_app l1 l2 : total (l1 ++ l2) = Stat_plus (total l1) (total l2).
Proof.
  apply Stat_eq; cbn [total Stat_plus stat_sum stat_num]; [|rewrite length_app; lia].
  induction l1 as [|x l1 IH]; cbn; [done|]. rewrite IH. lia.
Qed.

Lemma total_nil : total [] = Stat_ctor.
Proof. done. Qed.

Lemma total_single s : total [s] = sample_stat s.
Proof. apply Stat_eq; cbn; lia. Qed.

Lemma sum_stats_app l1 l2 : sum_stats (l1 ++ l2) = Stat_plus (sum_stats l1) (sum_stats l2).
Proof. unfold sum_stats. induction l1 as [|x l1 IH]; cbn [app foldr]; [stat|]. rewrite IH. stat. Qed.

Lemma elements_cons e t l : elements e (t :: l) = Stat_plus (decode (e t)) (elements e l).
Proof. done. Qed.

Lemma elements_app e l1 l2 : elements e (l1 ++ l2) = Stat_plus (elements e l1) (elements e l2).
Proof. unfold elements. by rewrite fmap_app, sum_stats_app. Qed.

Lemma elements_other e t v l : t ∉ l -> elements (upd e t v) l = elements e l.
Proof.
  intros Hl. unfold elements. f_equal. apply list_fmap_ext. intros k a Ha.
  rewrite upd_other; [done|]. intros ->. by apply list_elem_of_lookup_2 in Ha.
Qed.

Lemma elements_upd e t v l :
  NoDup l -> t ∈ l -> Stat_plus (elements (upd e t v) l) (decode (e t)) = Stat_plus (elements e l) (decode v).
Proof.
  induction l as [|a l IH]; intros Hd Hin; [by apply not_elem_of_nil in Hin|]. apply NoDup_cons in Hd as [Ha Hd].
  rewrite !elements_cons. apply elem_of_cons in Hin as [<-|Hin].
  - rewrite upd_same, elements_other by done. stat.
  - rewrite upd_other by (intros ->; done). specialize (IH Hd Hin).
    stat_in IH. stat.
Qed.

Lemma filter_ne_id t (l : list nat) : t ∉ l -> filter (fun a => a <> t) l = l.
Proof.
  induction l as [|a l IH]; [done|]. intros [Hne Hl]%not_elem_of_cons. rewrite filter_cons, decide_True by done.
  by rewrite IH.
Qed.

Lemma elements_erase e t l :
  NoDup l -> t ∈ l -> elements e l = Stat_plus (decode (e t)) (elements e (filter (fun a => a <> t) l)).
Proof.
  induction l as [|a l IH]; intros Hd Hin; [by apply not_elem_of_nil in Hin|]. apply NoDup_cons in Hd as [Ha Hd].
  rewrite elements_cons, filter_cons. destruct (decide (a <> t)) as [Hne|Heq%dec_stable].
  - rewrite elements_cons, IH; [stat|done|]. apply elem_of_cons in Hin as [->|]; done.
  - subst a. by rewrite filter_ne_id.
Qed.

Definition resetting p : bool := match p with RWalk _ _ => true | _ => false end.

Lemma in_reset_same c c' ps t p q :
  ps !! t = Some p -> lock_ c' = lock_ c -> resetting p = false -> resetting q = false ->
  in_reset c' (<[t := q]> ps) = in_reset c ps.
Proof.
  intros Ht Hl Hp Hq. unfold in_reset. rewrite Hl. destruct (lock_ c) as [t'|]; [|done].
  destruct (decide (t' = t)) as [->|Hne]; [|by rewrite list_lookup_insert_ne].
  rewrite list_lookup_insert_eq, Ht by (by eapply lookup_lt_Some). by destruct p, q.
Qed.

Lemma in_reset_self c ps t p : ps !! t = Some p -> lock_ c = Some t ->
  in_reset c ps = match p with RWalk tmp _ => tmp | _ => Stat_ctor end.
Proof. intros Ht Hl. unfold in_reset. rewrite Hl, Ht. by destruct p. Qed.

Lemma in_reset_free c ps : lock_ c = None -> in_reset c ps = Stat_ctor.
Proof. intros Hl. unfold in_reset. by rewrite Hl. Qed.

Section Balance.
Context weak t c p c' q ps (S : shape c ps) (Ht : ps !! t = Some p) (Hn : rec_next weak t c p = Some (c', q)).

Definition core (c : AgentCombiner) : Stat := Stat_plus (global_result c) (elements (element c) (agents_ c)).

(** What a step of a reset takes out, and what a step of [operator<<] puts in. *)
Definition taken (c : AgentCombiner) (p : rec_pc) : Stat :=
  match p with RLock => global_result c | RWalk _ (a :: _) => decode (element c a) | _ => Stat_ctor end.
Definition put (p q : rec_pc) : Stat := total (recorded_by p q).

Lemma suffix_elem (a : nat) l l' : a :: l `suffix_of` l' -> a ∈ l'.
Proof. intros [k ->]. apply elem_of_app. right. by left. Qed.

Lemma next_core : Stat_plus (core c') (taken c p) = Stat_plus (core c) (put p q).
Proof.
  pose proof (sh_pc _ _ S t p Ht) as Hp. pose proof (sh_nodup _ _ S) as Hd. clear S.
  unfold core. destruct p as [|s|s|s|s n|s n| |ret [|a l]| | |tmp [|a l]| |]; rec_cases Hn;
    unfold put; cbn [pc_ok taken recorded_by] in *; rewrite ?total_nil, ?total_single; try (stat; fail).
  - destruct Hp as [_ Hi]. cbn. rewrite elements_other by (rewrite <- Hi; congruence). stat.
  - destruct Hp as (_ & _ & _ & He). cbn. rewrite elements_app, elements_cons, He. change (decode 0) with Stat_ctor.
    change (elements (element c) []) with Stat_ctor. stat.
  - destruct Hp as (_ & _ & Hin & _). cbn. rewrite AddToStat_decode.
    pose proof (elements_upd (element c) t 0 _ Hd Hin) as He. change (decode 0) with Stat_ctor in He. stat_in He. stat.
  - destruct Hp as (Hs & _ & Hin & Hw & Hr). apply andb_prop in H0 as [<-%Z.eqb_eq _]. cbn.
    pose proof (elements_upd (element c) t (with_sample (element c t) s) _ Hd Hin) as He.
    destruct (with_sample_decode (element c t) s Hw Hs Hr) as [Hx _]. rewrite Hx in He. stat_in He. stat.
  - destruct Hp as [_ Hin%suffix_elem]. cbn.
    pose proof (elements_upd (element c) a 0 _ Hd Hin) as He. change (decode 0) with Stat_ctor in He. stat_in He. stat.
  - cbn. rewrite AddToStat_decode, (elements_erase (element c) t (agents_ c)) by (try apply Hp; done). stat.
Qed.

Lemma next_held given :
  Stat_plus (sum_stats (match p with RWalk tmp [] => given ++ [tmp] | _ => given end)) (in_reset c' (<[t := q]> ps)) =
  Stat_plus (Stat_plus (sum_stats given) (in_reset c ps)) (taken c p).
Proof.
  pose proof (sh_lock _ _ S t p Ht) as Hl. pose proof (lookup_lt_Some _ _ _ Ht) as Hlt. clear S.
  pose proof (list_lookup_insert_eq ps t q Hlt) as Hq.
  destruct p as [|s|s|s|s n|s n| |ret [|a l]| | |tmp [|a l]| |]; rec_cases Hn; cbn [taken walking] in *;
    try (match goal with |- context [in_reset ?c2 (<[t := ?q2]> ps)] =>
           match goal with |- context [in_reset ?c1 ps] =>
             rewrite (in_reset_same c1 c2 ps t _ q2 Ht eq_refl eq_refl eq_refl) end end; stat).
  - rewrite (in_reset_self (set_lock c (Some t)) _ t _ Hq), in_reset_free by done. stat.
  - rewrite (in_reset_free (set_lock c None)), (in_reset_self c ps t _ Ht) by auto. stat.
  - rewrite (in_reset_self (set_lock _ _) _ t _ Hq), in_reset_free by done. stat.
  - rewrite (in_reset_free (set_lock c None)), (in_reset_self c ps t _ Ht), sum_stats_app by auto.
    change (sum_stats [tmp]) with (Stat_plus tmp Stat_ctor). stat.
  - rewrite (in_reset_self (element_store c a 0) _ t _ Hq), (in_reset_self c ps t _ Ht) by (cbn; auto).
    rewrite AddToStat_decode. stat.
  - rewrite !in_reset_free by done. stat.
Qed.

(** A step changes the balance by the sample that it records. *)
Lemma next_balance given :
  balance c' (<[t := q]> ps) (match p with RWalk tmp [] => given ++ [tmp] | _ => given end) =
  Stat_plus (balance c ps given) (put p q).
Proof.
  pose proof next_core as Hc. pose proof (next_held given) as Hh. unfold balance. fold (core c') (core c).
  stat_in Hc. stat_in Hh. stat.
Qed.

(** What a combination in another thread still has to add grows by what is recorded. *)
Lemma next_ahead t' ret l : ps !! t' = Some (CWalk ret l) -> t' <> t ->
  elements (element c') l = elements (element c) l \/
  elements (element c') l = Stat_plus (elements (element c) l) (put p q).
Proof.
  intros Ht' Hne. pose proof (sh_lock _ _ S t' _ Ht' eq_refl) as Hl'. pose proof (sh_lock _ _ S t p Ht) as Hl.
  pose proof (sh_pc _ _ S t' _ Ht') as [_ [k Hk]]. pose proof (sh_pc _ _ S t p Ht) as Hp.
  pose proof (sh_nodup _ _ S) as Hd. rewrite Hk in Hd. apply NoDup_app in Hd as (_ & _ & Hd). clear S.
  destruct p as [|s|s|s|s n|s n| |ret0 [|a l0]| | |tmp [|a l0]| |]; rec_cases Hn; unfold put; cbn [pc_ok walking recorded_by] in *; rewrite ?total_nil, ?total_single;
    try specialize (Hl eq_refl); simplify_eq; try (by left).
  - left. apply elements_other. destruct Hp as [_ Hi]. intros Hin. enough (t ∈ agents_ c) by (apply Hi in H0; congruence).
    rewrite Hk. apply elem_of_app. by right.
  - destruct Hp as (Hs & _ & _ & Hw & Hr). apply andb_prop in H0 as [<-%Z.eqb_eq _]. cbn.
    destruct (decide (t ∈ l)) as [Hin|Hin]; [right|left; by apply elements_other].
    pose proof (elements_upd (element c) t (with_sample (element c t) s) _ Hd Hin) as He.
    destruct (with_sample_decode (element c t) s Hw Hs Hr) as [Hx _]. rewrite Hx in He. stat_in He. stat.
Qed.
End Balance.

(** *** The invariant of a run *)

Record rinv (c : rconfig) : Prop := mkRinv {
  ri_shape : shape (rc_combiner c) (rc_threads c);
  ri_samples : Forall (in_ity int32) (rc_recorded c);
  ri_balance : total (rc_recorded c) = balance (rc_combiner c) (rc_threads c) (rc_given c);
  ri_combine : forall t ret l, rc_threads c !! t = Some (CWalk ret l) ->
    exists sub, sub `sublist_of` drop (rc_since c t) (rc_recorded c) /\
      Stat_plus (sum_stats (rc_given c)) (Stat_plus ret (elements (element (rc_combiner c)) l)) =
      total (take (rc_since c t) (rc_recorded c) ++ sub) /\ (rc_since c t <= length (rc_recorded c))%nat
}.

Lemma rstart_inv n : rinv (rstart n).
Proof.
  assert (forall t p, replicate n Idle !! t = Some p -> p = Idle) as Hi by (by intros t p [-> _]%lookup_replicate_1).
  constructor; cbn; [constructor; cbn|constructor|done|].
  - by intros t p ->%Hi.
  - intros t. apply wf_zero.
  - constructor.
  - intros t p ->%Hi. cbn. split; [done|]. by intros ?%not_elem_of_nil.
  - by intros t ret l ?%Hi.
Qed.

Lemma call_inv (c : rconfig) t a q :
  rinv c -> rc_threads c !! t = Some Idle -> rec_call a = Some q ->
  rinv (mkRconfig (rc_combiner c) (<[t := q]> (rc_threads c)) (rc_recorded c) (rc_given c) (rc_since c)).
Proof.
  intros [Sh Sa B C] Ht Hq. constructor; cbn; [by eapply call_shape|done| |].
  - rewrite B. unfold balance. rewrite (in_reset_same _ _ _ t Idle q Ht eq_refl eq_refl); [done|].
    by destruct a; simplify_eq/=.
  - intros t' ret l [[-> <-]|[Hne H]]%lookup_moved; [by destruct a|eauto].
Qed.

Section StepInv.
Context (c : rconfig) (weak : bool) (t : nat) (p : rec_pc) (c' : AgentCombiner) (q : rec_pc) (I : rinv c)
  (Ht : rc_threads c !! t = Some p) (Hn : rec_next weak t (rc_combiner c) p = Some (c', q)).

Lemma step_samples : Forall (in_ity int32) (rc_recorded c ++ recorded_by p q).
Proof.
  apply Forall_app. split; [apply I|]. pose proof (sh_pc _ _ (ri_shape _ I) t p Ht) as Hp.
  destruct p, q; cbn; constructor; [apply Hp|done].
Qed.

(** The walk of another thread goes on while [t] takes a step. *)
Lemma step_combine_other t' ret l :
  t' <> t -> rc_threads c !! t' = Some (CWalk ret l) ->
  exists sub, sub `sublist_of` drop (rc_since c t') (rc_recorded c ++ recorded_by p q) /\
    Stat_plus (sum_stats (match p with RWalk tmp [] => rc_given c ++ [tmp] | _ => rc_given c end))
      (Stat_plus ret (elements (element c') l)) = total (take (rc_since c t') (rc_recorded c ++ recorded_by p q) ++ sub) /\
    (rc_since c t' <= length (rc_recorded c ++ recorded_by p q))%nat.
Proof.
  intros Hne Ht'. destruct (ri_combine _ I t' ret l Ht') as (sub & Hsub & Heq & Hlen).
  assert (match p with RWalk tmp [] => rc_given c ++ [tmp] | _ => rc_given c end = rc_given c) as ->.
  { pose proof (sh_lock _ _ (ri_shape _ I) t' _ Ht' eq_refl). pose proof (sh_lock _ _ (ri_shape _ I) t p Ht) as Hl.
    destruct p as [| | | | | | | | | |tmp [|]| |]; try done. specialize (Hl eq_refl). congruence. }
  rewrite drop_app_le, take_app_le, length_app by done.
  destruct (next_ahead _ _ _ _ _ _ _ (ri_shape _ I) Ht Hn t' ret l Ht' Hne) as [-> | ->].
  - exists sub. split_and!; [by apply sublist_inserts_r|done|lia].
  - exists (sub ++ recorded_by p q). split_and!; [by apply sublist_app| |lia].
    rewrite app_assoc, total_app, <- Heq. unfold put. stat.
Qed.

Lemma step_combine_self ret l :
  q = CWalk ret l ->
  exists sub, sub `sublist_of` drop (match p with CLock => length (rc_recorded c) | _ => rc_since c t end) (rc_recorded c) /\
    Stat_plus (sum_stats (rc_given c)) (Stat_plus ret (elements (element c') l)) =
    total (take (match p with CLock => length (rc_recorded c) | _ => rc_since c t end) (rc_recorded c) ++ sub) /\
    (match p with CLock => length (rc_recorded c) | _ => rc_since c t end <= length (rc_recorded c))%nat.
Proof.
  intros ->. pose proof (ri_balance _ I) as B. pose proof (ri_combine _ I t) as C. clear I.
  destruct p as [|s|s|s|s n|s n| |ret0 [|a l0]| | |tmp [|a l0]| |]; rec_cases Hn.
  - exists []. split_and!; [apply sublist_nil_l| |done]. rewrite app_nil_r, firstn_all, B.
    unfold balance. rewrite in_reset_free by done. cbn [element set_lock]. stat.
  - destruct (C _ _ Ht) as (sub & Hsub & Heq & Hlen). exists sub. split_and!; [done| |done].
    rewrite <- Heq, AddToStat_decode, elements_cons. stat.
Qed.

Lemma step_inv : rinv (mkRconfig c' (<[t := q]> (rc_threads c)) (rc_recorded c ++ recorded_by p q)
  (match p with RWalk tmp [] => rc_given c ++ [tmp] | _ => rc_given c end)
  (match p with CLock => upd (rc_since c) t (length (rc_recorded c)) | _ => rc_since c end)).
Proof.
  constructor; cbn [rc_combiner rc_threads rc_recorded rc_given rc_since].
  - by eapply next_shape; [apply I|..].
  - apply step_samples.
  - rewrite total_app, (next_balance _ _ _ _ _ _ _ (ri_shape _ I) Ht Hn). by rewrite <- (ri_balance _ I).
  - intros t' ret l [[-> Hq]|[Hne H]]%lookup_moved.
    + destruct (step_combine_self ret l (eq_sym Hq)) as (sub & Hs). exists sub. clear I. subst q.
      destruct p as [|s|s|s|s n|s n| |ret0 [|a l0]| | |tmp [|a l0]| |]; rec_cases Hn;
        cbn [recorded_by]; rewrite ?upd_same, app_nil_r; done.
    + destruct (step_combine_other t' ret l Hne H) as (sub & Hs). exists sub.
      destruct p; rewrite ?upd_other by done; done.
Qed.
End StepInv.

(** *** Ranges *)

Definition bounded (s : Stat) : Prop := 0 <= stat_num s /\ - 2 ^ 31 * stat_num s <= stat_sum s <= 2 ^ 31 * stat_num s.

Definition walked p : Stat := match p with CWalk ret _ => ret | RWalk tmp _ => tmp | _ => Stat_ctor end.

Record ranges c ps (given : list Stat) : Prop := mkRanges {
  rg_global : bounded (global_result c);
  rg_element : forall t, bounded (decode (element c t));
  rg_walked : forall t p, ps !! t = Some p -> bounded (walked p);
  rg_given : Forall bounded given
}.

Lemma bounded_ctor : bounded Stat_ctor.
Proof. unfold bounded. cbn. lia. Qed.

Lemma bounded_plus s1 s2 : bounded s1 -> bounded s2 -> bounded (Stat_plus s1 s2).
Proof. unfold bounded. cbn [Stat_plus stat_num stat_sum]. lia. Qed.

Lemma bounded_add s n : bounded s -> bounded (decode n) -> bounded (AddToStat s n).
Proof. rewrite AddToStat_decode. apply bounded_plus. Qed.

Lemma bounded_sample s : in_ity int32 s -> bounded (sample_stat s).
Proof. rewrite int32_range. unfold bounded. cbn [sample_stat stat_num stat_sum]. lia. Qed.

Lemma bounded_sums l : Forall bounded l -> bounded (sum_stats l).
Proof. induction 1; [apply bounded_ctor|by apply bounded_plus]. Qed.

Lemma next_ranges weak t c p c' q ps given :
  shape c ps -> ranges c ps given -> ps !! t = Some p -> rec_next weak t c p = Some (c', q) ->
  ranges c' (<[t := q]> ps) (match p with RWalk tmp [] => given ++ [tmp] | _ => given end).
Proof.
  intros S [Hg He Hw Hgv] Ht Hn. pose proof (sh_pc _ _ S t p Ht) as Hp. pose proof (Hw t p Ht) as Hpw.
  pose proof bounded_ctor as H0. clear S.
  assert (bounded (global_result c') /\ (forall t', bounded (decode (element c' t'))) /\ bounded (walked q))
    as (Hg' & He' & Hq).
  { destruct p as [|s|s|s|s n|s n| |ret [|a l]| | |tmp [|a l]| |]; rec_cases Hn; cbn [pc_ok walked] in *;
      split_and!; try done; auto using bounded_add; intros t'; cbn; unfold upd; case_decide; subst; auto.
    destruct Hp as (Hs & _ & _ & Hwf & Hr). apply andb_prop in H1 as [<-%Z.eqb_eq _].
    destruct (with_sample_decode (element c t) s Hwf Hs Hr) as [-> _]. auto using bounded_plus, bounded_sample. }
  constructor; auto.
  - intros t' p' [[-> ->]|[Hne H]]%lookup_moved; eauto.
  - destruct p as [| | | | | | | | | |tmp [|]| |]; try done. apply Forall_app. auto using Forall_singleton.
Qed.

(** *** Runs *)

Lemma rfire_inv t a (c c' : rconfig) :
  rinv c -> ranges (rc_combiner c) (rc_threads c) (rc_given c) -> rfire t a c = Some c' ->
  rinv c' /\ ranges (rc_combiner c') (rc_threads c') (rc_given c').
Proof.
  intros I R. unfold rfire. destruct (rc_threads c !! t) as [p|] eqn:Ht; [|done]. cbn [mbind option_bind].
  intros Hf. destruct (rec_call a) as [q|] eqn:Hq.
  - assert (p = Idle /\ c' = mkRconfig (rc_combiner c) (<[t := q]> (rc_threads c)) (rc_recorded c)
      (rc_given c) (rc_since c)) as [-> ->] by (destruct a; try discriminate Hq; destruct p; try discriminate Hf;
        cbn in Hf, Hq; injection Hq as <-; by injection Hf as <-).
    split; [by eapply call_inv|]. destruct R; constructor; cbn; try done.
    intros t' p' [[-> ->]|[Hne H]]%lookup_moved; [|eauto]. destruct a; simplify_eq/=; apply bounded_ctor.
  - destruct a; try done. destruct (rec_next weak t (rc_combiner c) p) as [[cc q]|] eqn:Hn; [|done].
    injection Hf as <-. split; [by eapply step_inv|]. eapply next_ranges; [apply I|done..].
Qed.

Lemma rrun_inv acts n (c : rconfig) :
  rrun acts (rstart n) = Some c -> rinv c /\ ranges (rc_combiner c) (rc_threads c) (rc_given c).
Proof.
  assert (forall acts (c0 : rconfig), rinv c0 -> ranges (rc_combiner c0) (rc_threads c0) (rc_given c0) ->
    rrun acts c0 = Some c -> rinv c /\ ranges (rc_combiner c) (rc_threads c) (rc_given c)) as Hrun.
  { clear acts. induction acts as [|[t a] acts IH]; intros c0 I R Hr; cbn in Hr; [by simplify_eq|].
    destruct (rfire t a c0) as [c1|] eqn:Hf; [|done]. destruct (rfire_inv t a c0 c1 I R Hf). eauto. }
  apply Hrun; [apply rstart_inv|]. constructor; [apply bounded_ctor| | |constructor].
  - intros t. change (decode _) with Stat_ctor. apply bounded_ctor.
  - cbn. intros t p [-> _]%lookup_replicate_1. apply bounded_ctor.
Qed.

Lemma bounded_part s1 s2 s k :
  bounded s1 -> bounded s2 -> Stat_plus s1 s2 = s -> stat_num s < 2 ^ 32 -> k = s1 \/ k = s2 ->
  in_ity int64 (stat_sum k) /\ in_ity int64 (stat_num k).
Proof.
  unfold bounded, in_ity. change (imin int64) with (- 2 ^ 63). change (imax int64) with (2 ^ 63 - 1).
  intros H1 H2 <-. cbn [Stat_plus stat_num]. intros Hn [-> | ->]; lia.
Qed.
End Accounting.

(** ** Properties *)

(** C18. No sample is lost and none counted twice: however threads record
    samples, commit full elements, quit, combine and reset, the results of the
    resets, what a running reset has taken, the global result and the elements
    of the agents add up to the sum and the number of the samples recorded,
    each truncated to the range of [int]. *)
Theorem recorder_conserves acts n c :
  rrun acts (rstart n) = Some c ->
  total (rc_recorded c) =
  Stat_plus (sum_stats (rc_given c))
    (Stat_plus (in_reset (rc_combiner c) (rc_threads c))
      (Stat_plus (global_result (rc_combiner c))
        (elements (element (rc_combiner c)) (agents_ (rc_combiner c))))) /\
  Forall (in_ity int32) (rc_recorded c).
Proof. intros [I _]%rrun_inv. split; apply I. Qed.

(** C39. What [combine_agents] returns: when its walk over the agents has
    ended, the result together with those of the earlier resets is the sum and
    the number of all samples recorded before it took the lock and of some of
    those recorded since. *)
Theorem recorder_combine acts n c t ret :
  rrun acts (rstart n) = Some c -> rc_threads c !! t = Some (CWalk ret []) ->
  exists sub, sub `sublist_of` drop (rc_since c t) (rc_recorded c) /\
    Stat_plus (sum_stats (rc_given c)) ret = total (take (rc_since c t) (rc_recorded c) ++ sub).
Proof.
  intros [I _]%rrun_inv Ht. destruct (ri_combine _ I t ret [] Ht) as (sub & Hsub & Heq & _).
  exists sub. split; [done|]. rewrite <- Heq. change (elements _ []) with Stat_ctor. stat.
Qed.

(** C40. Below 2^32 samples nothing overflows [int64_t]: not the global result,
    not the running result of a combination or a reset, not the result of a
    finished reset. *)
Theorem recorder_fits acts n c s :
  rrun acts (rstart n) = Some c -> Z.of_nat (length (rc_recorded c)) < 2 ^ 32 ->
  s ∈ global_result (rc_combiner c) :: sum_stats (rc_given c) :: (walked <$> rc_threads c) ->
  in_ity int64 (stat_sum s) /\ in_ity int64 (stat_num s).
Proof.
  intros [I R]%rrun_inv Hlen Hs. pose proof (ri_balance _ I) as Hb. unfold balance in Hb.
  set (g := sum_stats _) in *. set (e := elements _ _) in *. set (r := in_reset _ _) in *.
  assert (bounded g) as Hg by apply bounded_sums, R.
  assert (forall l, bounded (elements (element (rc_combiner c)) l)) as He.
  { intros l. apply bounded_sums, Forall_fmap, Forall_true. intros t. apply R. }
  assert (bounded r) as Hr.
  { unfold r, in_reset. repeat case_match; auto using bounded_ctor. by apply (rg_walked _ _ _ R _ _ H0). }
  pose proof (rg_global _ _ _ R) as Hgl. specialize (He (agents_ (rc_combiner c))) as He0. fold e in He0.
  set (gl := global_result _) in *.
  apply elem_of_cons in Hs as [->|Hs]; [|apply elem_of_cons in Hs as [->|Hs]].
  - apply (bounded_part gl (Stat_plus g (Stat_plus r e)) (total (rc_recorded c))); auto using bounded_plus. rewrite Hb. stat.
  - apply (bounded_part g (Stat_plus r (Stat_plus gl e)) (total (rc_recorded c))); auto using bounded_plus.
  - apply list_elem_of_fmap in Hs as (p & -> & [t Ht]%list_elem_of_lookup).
    pose proof (rg_walked _ _ _ R t p Ht) as Hp.
    destruct p as [| | | | | | |ret l| | |tmp l| |]; try (by cbn).
    + destruct (ri_combine _ I t ret l Ht) as (sub & Hsub%sublist_length & Heq & Hk). rewrite length_drop in Hsub. fold g in Heq.
      apply (bounded_part ret (Stat_plus g (elements (element (rc_combiner c)) l))
        (total (take (rc_since c t) (rc_recorded c) ++ sub))); auto using bounded_plus; [rewrite <- Heq; stat|].
      cbn [total stat_num]. rewrite length_app, length_take. lia.
    + assert (r = tmp) as Hrt by (apply (in_reset_self _ _ t _ Ht), (sh_lock _ _ (ri_shape _ I) t _ Ht eq_refl)).
      cbn [walked]. rewrite <- Hrt.
      apply (bounded_part r (Stat_plus g (Stat_plus gl e)) (total (rc_recorded c))); auto using bounded_plus. rewrite Hb. stat.
Qed.

(** ** Concrete runs *)

Definition steps (t n : nat) : list (nat * raction) := replicate n (t, Step false).

(** Thread 0 records 7 and a sample out of range, thread 1 combines while
    thread 0 records 5 after its element was read. *)
Definition records : list (nat * raction) :=
  (0%nat, Record_ 7) :: steps 0 5 ++ (0%nat, Record_ (- 2 ^ 40)) :: steps 0 4.
Definition combines : list (nat * raction) :=
  (1%nat, Combine) :: steps 1 2 ++ (0%nat, Record_ 5) :: steps 0 4.

Lemma rrun_part {B} (g : rconfig -> B) acts c0 b :
  g <$> rrun acts c0 = Some b -> exists c, rrun acts c0 = Some c /\ g c = b.
Proof. intros (c & Hc & Hr)%fmap_Some. eauto. Qed.

Lemma recorder_conserves_witness :
  exists c, rrun records (rstart 2) = Some c /\ rc_recorded c = [7; - 2 ^ 31] /\
    elements (element (rc_combiner c)) (agents_ (rc_combiner c)) = mkStat (7 - 2 ^ 31) 2.
Proof.
  destruct (rrun_part (fun c => (rc_recorded c, rc_given c, rc_threads c, lock_ (rc_combiner c),
    global_result (rc_combiner c))) records (rstart 2) ([7; - 2 ^ 31], [], [Idle; Idle], None, Stat_ctor))
    as (c & Hr & Hc); [by vm_compute|].
  injection Hc as Hrec Hgiv Hth Hlock Hgl. exists c.
  destruct (recorder_conserves records 2 c Hr) as [Heq _].
  rewrite Hrec, Hgiv, Hgl, in_reset_free in Heq by done. split; [done|]. split; [done|].
  change (total [7; - 2 ^ 31]) with (mkStat (7 - 2 ^ 31) 2) in Heq. change (sum_stats []) with Stat_ctor in Heq.
  rewrite Heq. stat.
Defined.

Lemma recorder_combine_witness :
  exists c sub, rrun (records ++ combines) (rstart 2) = Some c /\
    rc_threads c !! 1%nat = Some (CWalk (mkStat (7 - 2 ^ 31) 2) []) /\ sub `sublist_of` [5] /\
    mkStat (7 - 2 ^ 31) 2 = total ([7; - 2 ^ 31] ++ sub).
Proof.
  destruct (rrun_part (fun c => (rc_recorded c, rc_given c, rc_threads c !! 1%nat, rc_since c 1%nat))
    (records ++ combines) (rstart 2) ([7; - 2 ^ 31; 5], [], Some (CWalk (mkStat (7 - 2 ^ 31) 2) []), 2%nat))
    as (c & Hr & Hc); [by vm_compute|].
  injection Hc as Hrec Hgiv Hth Hsince.
  destruct (recorder_combine (records ++ combines) 2 c 1 (mkStat (7 - 2 ^ 31) 2) Hr Hth) as (sub & Hs & Heq).
  rewrite Hrec, Hsince in *. rewrite Hgiv in Heq. exists c, sub. split; [done|]. split; [done|]. split; [exact Hs|].
  cbn [take] in Heq. rewrite <- Heq. change (sum_stats []) with Stat_ctor. stat.
Defined.

Lemma recorder_fits_witness : exists c, rrun records (rstart 2) = Some c /\
  in_ity int64 (stat_sum (global_result (rc_combiner c))).
Proof.
  destruct (rrun_part rc_recorded records (rstart 2) [7; - 2 ^ 31]) as (c & Hr & Hc); [by vm_compute|].
  exists c. split; [done|]. apply (recorder_fits records 2 c (global_result (rc_combiner c)) Hr); [by rewrite Hc|by left].
Defined.
