(* ===== verification/ResourcePool.v ===== *)
(** * Objects addressed by identifiers (libsh/butil/resource_pool_inl.h)

    Every thread takes items from a block of its own and keeps a chunk of free
    identifiers; full chunks go to a list that the threads share; blocks are
    registered in groups, at the index that is part of the identifiers.  A call
    runs in steps: an atomic access, a section under a mutex, or work on the
    pool of the thread itself.  A pointer to a block is its number in the heap,
    the address of an item a block and an offset.  Each step is given whether
    its allocation, or the validation of the object, succeeds.  The two stores of
    [add_block_group] are one step: between them only addresses are computed,
    and an empty group gives the same result as none. *)

From Stdlib Require Import ZArith Lia.
From stdpp Require Import base list.
From S2P Require Import Prelude.

Open Scope Z_scope.

Definition RP_MAX_BLOCK_NGROUP : Z := 65536.
Definition RP_GROUP_NBLOCK_NBIT : Z := 16.
Definition RP_GROUP_NBLOCK : Z := Z.shiftl 1 RP_GROUP_NBLOCK_NBIT.

(** [ResourcePoolBlockItemNum]: from the limits given for the type and its size. *)
Definition ResourcePoolBlockItemNum (max_size max_item size : Z) : Z :=
  let n1 := max_size / size in
  let n2 := if n1 <? 1 then 1 else n1 in
  if max_item <? n2 then max_item else n2.

Definition free_chunk_nitem (max_item block_nitem : Z) : Z :=
  if max_item <? block_nitem then max_item else block_nitem.

(** Entries of [blocks] that are not set are null. *)
Record BlockGroup : Type := mkGroup { g_nblock : Z; g_blocks : Z -> option nat }.
Definition BlockGroup_ctor : BlockGroup := mkGroup 0 (fun _ => None).

(** [_block_groups] up to [_ngroup], the blocks with their [nitem], the chunks
    in the order of [_free_chunks], their identifiers with the last one first. *)
Record ResourcePool : Type := mkPool {
  block_groups : list BlockGroup;
  heap : list Z;
  free_chunks : list (list Z);
  nlocal : Z
}.
Definition ResourcePool_ctor : ResourcePool := mkPool [] [] [] 0.

Record LocalPool : Type := mkLocal {
  cur_block : option nat;
  cur_block_index : Z;
  cur_free : list Z
}.
Definition LocalPool_ctor : LocalPool := mkLocal None 0 [].

Definition ngroup (p : ResourcePool) : Z := Z.of_nat (length (block_groups p)).
Definition nitem (p : ResourcePool) (b : nat) : Z := default 0 (heap p !! b).

Definition set_nitem (p : ResourcePool) (b : nat) (n : Z) : ResourcePool :=
  mkPool (block_groups p) (<[b := n]> (heap p)) (free_chunks p) (nlocal p).
Definition set_group (p : ResourcePool) (k : nat) (g : BlockGroup) : ResourcePool :=
  mkPool (<[k := g]> (block_groups p)) (heap p) (free_chunks p) (nlocal p).
Definition set_chunks (p : ResourcePool) (l : list (list Z)) : ResourcePool :=
  mkPool (block_groups p) (heap p) l (nlocal p).
Definition set_nlocal (p : ResourcePool) (n : Z) : ResourcePool :=
  mkPool (block_groups p) (heap p) (free_chunks p) n.

Section Pool.
Context (BLOCK_NITEM FREE_NITEM : Z).

(** ** Addresses *)

(** A null group or block is a fault. *)
Definition unsafe_address_resource (p : ResourcePool) (id : Z) : option (nat * Z) :=
  let block_index := id / BLOCK_NITEM in
  g ← block_groups p !! Z.to_nat (Z.shiftr block_index RP_GROUP_NBLOCK_NBIT);
  b ← g_blocks g (Z.land block_index (RP_GROUP_NBLOCK - 1));
  Some (b, id - block_index * BLOCK_NITEM).

Definition address_resource (p : ResourcePool) (id : Z) : option (nat * Z) :=
  let block_index := id / BLOCK_NITEM in
  let group_index := Z.shiftr block_index RP_GROUP_NBLOCK_NBIT in
  if group_index <? RP_MAX_BLOCK_NGROUP then
    g ← block_groups p !! Z.to_nat group_index;
    b ← g_blocks g (Z.land block_index (RP_GROUP_NBLOCK - 1));
    let offset := id - block_index * BLOCK_NITEM in
    if offset <? nitem p b then Some (b, offset) else None
  else None.

(** ** Calls *)

Inductive rp_pc : Type :=
| PIdle
(** get_resource *)
| GNew
| GLocal
| GPeek
| GPop
| GTake
| GBlock
| GInit (b : nat)
| GInc (b : nat) (id : Z) (n : Z)
| GAdd
| GRet (r : option (Z * (nat * Z)))
(** add_block, with its new block *)
| ALoad (b : nat)
| AFetch (b : nat) (n : Z)
| AStore (b : nat) (n : Z) (index : Z)
| ASub (b : nat) (n : Z)
| AGroup (b : nat) (n : Z)
(** return_resource *)
| RNew (id : Z)
| RGive (id : Z)
| RChunk (id : Z)
| RRet (code : Z) (id : Z)
(** ~LocalPool *)
| XPush
| XClear
(** a null pointer or an index out of range was used *)
| PFault.

Section Next.
Context (ok : bool).

(** [get_or_new_local_pool], which goes on with [yes] or fails with [no]. *)
Definition local_next (p : ResourcePool) (lp : option LocalPool) (yes no : rp_pc) :
    ResourcePool * option LocalPool * rp_pc :=
  match lp with
  | Some _ => (p, lp, yes)
  | None => if ok then (set_nlocal p (nlocal p + 1), Some LocalPool_ctor, yes) else (p, None, no)
  end.

Definition with_free (lp : LocalPool) (l : list Z) : LocalPool := mkLocal (cur_block lp) (cur_block_index lp) l.
Definition with_block (lp : LocalPool) (b : option nat) (i : Z) : LocalPool := mkLocal b i (cur_free lp).

(** The array [ids] of a chunk has room for this many. *)
Definition FREE_CHUNK_NITEM : Z := BLOCK_NITEM.

(** [_cur_free.ids[_cur_free.nfree++] = id], and the copy of a whole chunk. *)
Definition store_id (lp : LocalPool) (id : Z) : option LocalPool :=
  if Z.of_nat (length (cur_free lp)) <? FREE_CHUNK_NITEM then Some (with_free lp (id :: cur_free lp)) else None.
Definition copy_ids (lp : LocalPool) (c : list Z) : option LocalPool :=
  if Z.of_nat (length c) <=? FREE_CHUNK_NITEM then Some (with_free lp c) else None.

Definition taken_id (p : ResourcePool) (id : Z) : rp_pc :=
  match unsafe_address_resource p id with Some a => GRet (Some (id, a)) | None => PFault end.

(** [pop_free_chunk] after its first test: the last chunk of the list. *)
Definition pop_free_chunk (p : ResourcePool) : option (list Z * ResourcePool) :=
  match last (free_chunks p) with
  | Some c => Some (c, set_chunks p (removelast (free_chunks p)))
  | None => None
  end.

Definition push_free_chunk (p : ResourcePool) (c : list Z) : option ResourcePool :=
  if ok then Some (set_chunks p (free_chunks p ++ [c])) else None.

Definition get_next (p : ResourcePool) (lp : LocalPool) (q : rp_pc) : option (ResourcePool * LocalPool * rp_pc) :=
  match q with
  | GLocal =>
      match cur_free lp with
      | id :: rest => Some (p, with_free lp rest, taken_id p id)
      | [] => Some (p, lp, GPeek)
      end
  | GPeek => Some (p, lp, if decide (free_chunks p = []) then GBlock else GPop)
  | GPop =>
      match pop_free_chunk p with
      | Some (c, p) =>
          match copy_ids lp c with
          | Some lp => Some (p, lp, GTake)
          | None => Some (p, lp, PFault)
          end
      | None => Some (p, lp, GBlock)
      end
  | GTake =>
      match cur_free lp with
      | id :: rest => Some (p, with_free lp rest, taken_id p id)
      | [] => Some (p, lp, PFault)
      end
  | GBlock =>
      match cur_block lp with
      | Some b => Some (p, lp, if nitem p b <? BLOCK_NITEM then GInit b else GAdd)
      | None => Some (p, lp, GAdd)
      end
  | GInit b =>
      if nitem p b <? BLOCK_NITEM
      then Some (p, lp, if ok then GInc b (cur_block_index lp * BLOCK_NITEM + nitem p b) (nitem p b) else GRet None)
      else Some (p, lp, PFault)
  | GInc b id n => Some (set_nitem p b (nitem p b + 1), lp, GRet (Some (id, (b, n))))
  | _ => None
  end.

(** The group at [_ngroup - 1], as loaded. *)
Definition add_block_next (p : ResourcePool) (lp : LocalPool) (q : rp_pc) : option (ResourcePool * LocalPool * rp_pc) :=
  match q with
  | GAdd =>
      if ok then
        Some (mkPool (block_groups p) (heap p ++ [0]) (free_chunks p) (nlocal p), lp, ALoad (length (heap p)))
      else Some (p, with_block lp None (cur_block_index lp), GRet None)
  | ALoad b => Some (p, lp, if 1 <=? ngroup p then AFetch b (ngroup p) else AGroup b (ngroup p))
  | AFetch b n =>
      match block_groups p !! Z.to_nat (n - 1) with
      | Some g =>
          let index := g_nblock g in
          let p := set_group p (Z.to_nat (n - 1)) (mkGroup (index + 1) (g_blocks g)) in
          Some (p, lp, if index <? RP_GROUP_NBLOCK then AStore b n index else ASub b n)
      | None => Some (p, lp, PFault)
      end
  | AStore b n index =>
      match block_groups p !! Z.to_nat (n - 1) with
      | Some g =>
          if (0 <=? index) && (index <? RP_GROUP_NBLOCK) then
            let g := mkGroup (g_nblock g) (fun i => if i =? index then Some b else g_blocks g i) in
            Some (set_group p (Z.to_nat (n - 1)) g,
                  with_block lp (Some b) ((n - 1) * RP_GROUP_NBLOCK + index), GInit b)
          else Some (p, lp, PFault)
      | None => Some (p, lp, PFault)
      end
  | ASub b n =>
      match block_groups p !! Z.to_nat (n - 1) with
      | Some g =>
          Some (set_group p (Z.to_nat (n - 1)) (mkGroup (g_nblock g - 1) (g_blocks g)), lp, AGroup b n)
      | None => Some (p, lp, PFault)
      end
  | _ => None
  end.

(** [add_block_group] under its mutex, and the end of the loop of [add_block]. *)
Definition add_block_group_next (p : ResourcePool) (lp : LocalPool) (b : nat) (n : Z) :
    ResourcePool * LocalPool * rp_pc :=
  if negb (ngroup p =? n) then (p, lp, ALoad b)
  else if (ngroup p <? RP_MAX_BLOCK_NGROUP) && ok then
    (mkPool (block_groups p ++ [BlockGroup_ctor]) (heap p) (free_chunks p) (nlocal p), lp, ALoad b)
  else (p, with_block lp None (cur_block_index lp), GRet None).

Definition return_resource_next (p : ResourcePool) (lp : LocalPool) (q : rp_pc) :
    option (ResourcePool * LocalPool * rp_pc) :=
  match q with
  | RGive id =>
      if Z.of_nat (length (cur_free lp)) <? FREE_NITEM then
        match store_id lp id with
        | Some lp => Some (p, lp, RRet 0 id)
        | None => Some (p, lp, PFault)
        end
      else Some (p, lp, RChunk id)
  | RChunk id =>
      match push_free_chunk p (cur_free lp) with
      | Some p =>
          match store_id (with_free lp []) id with
          | Some lp => Some (p, lp, RRet 0 id)
          | None => Some (p, with_free lp [], PFault)
          end
      | None => Some (p, lp, RRet (-1) id)
      end
  | _ => None
  end.

(** The destructor of the local pool, whose chunk is not looked at again: when
    it cannot be pushed it is lost. *)
Definition exit_next (p : ResourcePool) (lp : LocalPool) (q : rp_pc) :
    option (ResourcePool * option LocalPool * rp_pc) :=
  match q with
  | XPush =>
      Some (match cur_free lp with [] => p | c => default p (push_free_chunk p c) end, Some (with_free lp []), XClear)
  | XClear => Some (set_nlocal p (nlocal p - 1), None, PIdle)
  | _ => None
  end.

Definition rp_next (p : ResourcePool) (lp : option LocalPool) (q : rp_pc) :
    option (ResourcePool * option LocalPool * rp_pc) :=
  let here k := l ← lp; r ← k l; Some (r.1.1, Some r.1.2, r.2) in
  match q with
  | GNew => Some (local_next p lp GLocal (GRet None))
  | GLocal | GPeek | GPop | GTake | GBlock | GInit _ | GInc _ _ _ => here (fun l => get_next p l q)
  | GAdd | ALoad _ | AFetch _ _ | AStore _ _ _ | ASub _ _ => here (fun l => add_block_next p l q)
  | AGroup b n => here (fun l => Some (add_block_group_next p l b n))
  | RNew id => Some (local_next p lp (RGive id) (RRet (-1) id))
  | RGive _ | RChunk _ => here (fun l => return_resource_next p l q)
  | XPush | XClear => match lp with Some l => exit_next p l q | None => Some (p, None, PIdle) end
  | PIdle | GRet _ | RRet _ _ | PFault => None
  end.
End Next.

(** ** Threads

    With the pool go the pools and positions of the threads and the identifiers
    in use with the addresses they were handed out with.  Only identifiers in
    use are returned. *)

Notation thread := (option LocalPool * rp_pc)%type.

Record rp_config : Type := mkRp {
  rp_pool : ResourcePool;
  rp_threads : list thread;
  rp_used : list (Z * (nat * Z))
}.

Definition rp_start (n : nat) : rp_config := mkRp ResourcePool_ctor (replicate n (None, PIdle)) [].

Inductive rp_action : Type :=
| CallGet
| CallReturn (k : nat)
| CallExit
| Step (ok : bool)
| Finish.

(** What a finished call leaves in use. *)
Definition handed (p : ResourcePool) (q : rp_pc) : option (list (Z * (nat * Z))) :=
  match q with
  | GRet r => Some (option_list r)
  | RRet code id => if code =? 0 then Some [] else a ← unsafe_address_resource p id; Some [(id, a)]
  | _ => None
  end.

Definition rp_fire (t : nat) (a : rp_action) (c : rp_config) : option rp_config :=
  th ← rp_threads c !! t;
  let go p lp q used := Some (mkRp p (<[t := (lp, q)]> (rp_threads c)) used) in
  match a, th with
  | CallGet, (lp, PIdle) => go (rp_pool c) lp GNew (rp_used c)
  | CallReturn k, (lp, PIdle) =>
      x ← rp_used c !! k; go (rp_pool c) lp (RNew x.1) (delete k (rp_used c))
  | CallExit, (lp, PIdle) => go (rp_pool c) lp XPush (rp_used c)
  | Step ok, (lp, q) =>
      r ← rp_next ok (rp_pool c) lp q; go r.1.1 r.1.2 r.2 (rp_used c)
  | Finish, (lp, q) => xs ← handed (rp_pool c) q; go (rp_pool c) lp PIdle (rp_used c ++ xs)
  | _, _ => None
  end.

Fixpoint rp_run (acts : list (nat * rp_action)) (c : rp_config) : option rp_config :=
  match acts with
  | [] => Some c
  | (t, a) :: acts => c' ← rp_fire t a c; rp_run acts c'
  end.

(** ** Positions of blocks *)

Definition block_at (p : ResourcePool) (i : Z) : option nat :=
  g ← block_groups p !! Z.to_nat (Z.shiftr i RP_GROUP_NBLOCK_NBIT); g_blocks g (Z.land i (RP_GROUP_NBLOCK - 1)).

Lemma unsafe_block_at p id :
  unsafe_address_resource p id = b ← block_at p (id / BLOCK_NITEM); Some (b, id - id / BLOCK_NITEM * BLOCK_NITEM).
Proof. unfold unsafe_address_resource, block_at. by destruct (block_groups p !! _). Qed.

Lemma group_div i : Z.shiftr i RP_GROUP_NBLOCK_NBIT = i / RP_GROUP_NBLOCK.
Proof. by apply Z.shiftr_div_pow2. Qed.

Lemma group_mod i : Z.land i (RP_GROUP_NBLOCK - 1) = i mod RP_GROUP_NBLOCK.
Proof. change (RP_GROUP_NBLOCK - 1) with (Z.ones 16). by apply Z.land_ones. Qed.

Lemma block_at_split p i :
  block_at p i = g ← block_groups p !! Z.to_nat (i / RP_GROUP_NBLOCK); g_blocks g (i mod RP_GROUP_NBLOCK).
Proof. unfold block_at. by rewrite group_div, group_mod. Qed.

(** A group whose entries are the same leaves every block where it is. *)
Lemma block_at_same p k g g' i :
  block_groups p !! k = Some g -> g_blocks g' = g_blocks g -> block_at (set_group p k g') i = block_at p i.
Proof.
  intros Hk Hg. rewrite !block_at_split. cbn [set_group block_groups].
  destruct (decide (k = Z.to_nat (i / RP_GROUP_NBLOCK))) as [->|Hne]; [|by rewrite list_lookup_insert_ne].
  rewrite list_lookup_insert_eq, Hk by (by eapply lookup_lt_Some). cbn. by rewrite Hg.
Qed.

Lemma block_at_store p n index b g i :
  1 <= n -> 0 <= index < RP_GROUP_NBLOCK -> 0 <= i -> block_groups p !! Z.to_nat (n - 1) = Some g ->
  block_at (set_group p (Z.to_nat (n - 1))
    (mkGroup (g_nblock g) (fun j => if j =? index then Some b else g_blocks g j))) i =
  if i =? (n - 1) * RP_GROUP_NBLOCK + index then Some b else block_at p i.
Proof.
  intros Hn Hx Hi Hg. rewrite !block_at_split. cbn [set_group block_groups].
  pose proof (Z.div_mod i RP_GROUP_NBLOCK ltac:(done)) as Hdm.
  pose proof (Z.mod_pos_bound i RP_GROUP_NBLOCK ltac:(done)) as Hmb.
  assert (0 <= i / RP_GROUP_NBLOCK) by (by apply Z.div_pos).
  destruct (decide (i / RP_GROUP_NBLOCK = n - 1)) as [Heq|Hne].
  - rewrite Heq, list_lookup_insert_eq, Hg by (by eapply lookup_lt_Some). cbn.
    destruct (Z.eqb_spec (i mod RP_GROUP_NBLOCK) index), (Z.eqb_spec i ((n - 1) * RP_GROUP_NBLOCK + index)); try done; lia.
  - rewrite list_lookup_insert_ne by lia. destruct (Z.eqb_spec i ((n - 1) * RP_GROUP_NBLOCK + index)) as [->|]; [|done].
    destruct Hne. rewrite Z.div_add_l, Z.div_small by lia. lia.
Qed.

Lemma block_at_append p i :
  block_at (mkPool (block_groups p ++ [BlockGroup_ctor]) (heap p) (free_chunks p) (nlocal p)) i = block_at p i.
Proof.
  rewrite !block_at_split. cbn [block_groups]. set (k := Z.to_nat _).
  destruct (decide (k < length (block_groups p))%nat) as [Hlt|Hge]; [by rewrite lookup_app_l|].
  rewrite lookup_app_r by lia. rewrite (lookup_ge_None_2 (block_groups p)) by lia.
  by destruct (k - length (block_groups p))%nat as [|[]].
Qed.

(** ** Identifiers and blocks of a thread *)

#[local] Instance rp_pc_eq_dec : EqDecision rp_pc.
Proof. solve_decision. Defined.

Definition pc_block (q : rp_pc) : option nat :=
  match q with ALoad b | AFetch b _ | AStore b _ _ | ASub b _ | AGroup b _ => Some b | _ => None end.

Definition own (th : thread) : list nat :=
  match th.1 with Some lp => option_list (cur_block lp) | None => [] end ++ option_list (pc_block th.2).

Definition pc_ids (q : rp_pc) : list Z :=
  match q with
  | GRet (Some (id, _)) | RNew id | RGive id | RChunk id => [id]
  | RRet code id => if code =? 0 then [] else [id]
  | _ => []
  end.

Definition ids (th : thread) : list Z :=
  match th.1 with Some lp => cur_free lp | None => [] end ++ pc_ids th.2.

(** What a step creates. *)
Definition fresh_block (ok : bool) (p : ResourcePool) (q : rp_pc) : list nat :=
  match q with GAdd => if ok then [length (heap p)] else [] | _ => [] end.
Definition fresh_id (q : rp_pc) : list Z := match q with GInc _ id _ => [id] | _ => [] end.

Lemma concat_at {A B} (f : A -> list B) l t x :
  l !! t = Some x -> exists rest, concat (f <$> l) ≡ₚ f x ++ rest /\
    forall x', concat (f <$> <[t := x']> l) ≡ₚ f x' ++ rest.
Proof.
  intros Hl. apply list_elem_of_split_length in Hl as (l1 & l2 & -> & ->).
  exists (concat (f <$> l1) ++ concat (f <$> l2)). split; [|intros x'].
  - rewrite fmap_app, concat_app. cbn. by rewrite Permutation_app_swap_app.
  - rewrite insert_app_r_alt, Nat.sub_diag by done. cbn. rewrite fmap_app, concat_app. cbn.
    by rewrite Permutation_app_swap_app.
Qed.

Ltac rp_cases Hn :=
  cbn in Hn;
  unfold local_next, get_next, add_block_next, add_block_group_next, return_resource_next, exit_next,
    pop_free_chunk, push_free_chunk, taken_id, store_id, copy_ids, FREE_CHUNK_NITEM in Hn;
  simplify_option_eq; repeat (case_match; simplify_option_eq).

Section Effects.
Context (ok : bool) (p : ResourcePool) (lp : option LocalPool) (q : rp_pc)
  (p' : ResourcePool) (lp' : option LocalPool) (q' : rp_pc)
  (Hn : rp_next ok p lp q = Some (p', lp', q')).

Lemma step_own : own (lp', q') ⊆+ fresh_block ok p q ++ own (lp, q).
Proof.
  destruct q, lp as [l|]; rp_cases Hn; unfold own, fresh_block; cbn; rewrite ?app_nil_r; try done; try apply submseteq_nil_l.
  all: first [by apply submseteq_inserts_r | by apply submseteq_inserts_l | by rewrite (Permutation_app_comm _ [_])].
Qed.

Lemma popped_chunk {A} (l : list (list A)) c : last l = Some c -> concat l ≡ₚ c ++ concat (removelast l).
Proof.
  intros [k ->]%last_Some. rewrite removelast_last, concat_app. cbn. by rewrite app_nil_r, Permutation_app_comm.
Qed.

Lemma step_ids :
  ids (lp', q') ++ concat (free_chunks p') ⊆+ fresh_id q ++ ids (lp, q) ++ concat (free_chunks p).
Proof.
  destruct q, lp as [l|]; rp_cases Hn; unfold ids, fresh_id; cbn; rewrite ?app_nil_r; try done.
  all: rewrite ?concat_app, <- ?Permutation_cons_append; cbn [concat]; rewrite ?app_nil_r.
  all: try (match goal with H : cur_free _ = _ |- _ => rewrite H end).
  all: try (match goal with H : last _ = Some _ |- _ => rewrite (popped_chunk _ _ H) end).
  all: try done; try (by apply submseteq_cons); try (by apply submseteq_inserts_l).
  - apply submseteq_skips_l. by apply submseteq_inserts_l.
  - cbn. apply submseteq_skip. by rewrite Permutation_app_comm.
  - rewrite Permutation_app_comm. cbn. by apply submseteq_cons.
  - by rewrite Permutation_app_comm.
Qed.

Lemma step_heap : heap p' = heap p \/ (q = GAdd /\ heap p' = heap p ++ [0]) \/
  exists b id n, q = GInc b id n /\ heap p' = <[b := nitem p b + 1]> (heap p).
Proof. destruct q, lp as [l|]; rp_cases Hn; cbn; eauto 8. Qed.

Lemma step_nitem b : (b < length (heap p))%nat ->
  nitem p' b = nitem p b \/ (nitem p' b = nitem p b + 1 /\ exists id n, q = GInc b id n).
Proof.
  intros Hb. unfold nitem. destruct step_heap as [->|[[_ ->]|(b' & id & n & -> & ->)]]; [by left| |].
  - left. by rewrite lookup_app_l.
  - destruct (decide (b' = b)) as [->|Hne]; [|left; by rewrite list_lookup_insert_ne].
    right. rewrite list_lookup_insert_eq by done. eauto.
Qed.

Lemma step_heap_length : (length (heap p) <= length (heap p'))%nat.
Proof.
  destruct step_heap as [->|[[_ ->]|(b & id & n & _ & ->)]]; rewrite ?length_app, ?length_insert; lia.
Qed.

Lemma step_groups_length : (length (block_groups p) <= length (block_groups p'))%nat.
Proof.
  destruct q, lp as [l|]; rp_cases Hn; cbn; rewrite ?length_app, ?length_insert; lia.
Qed.
End Effects.

(** ** Registration of blocks

    A thread that finds a group full has counted itself in and takes that
    back later: [overs] are those that still have to. *)

Definition over (k : nat) (th : thread) : bool :=
  match th.2 with ASub _ n => bool_decide (Z.to_nat (n - 1) = k) | _ => false end.
Definition overs (k : nat) (ths : list thread) : Z := count_if (over k) ths.

Definition claims (q : rp_pc) (n i : Z) : Prop := exists b, q = AStore b n i.

Record groups_ok (gs : list BlockGroup) (ths : list thread) : Prop := mkGroupsOk {
  go_range : forall k g, gs !! k = Some g ->
    0 <= g_nblock g - overs k ths <= RP_GROUP_NBLOCK /\
    (0 < overs k ths -> g_nblock g - overs k ths = RP_GROUP_NBLOCK);
  go_set : forall k g i b, gs !! k = Some g -> g_blocks g i = Some b -> 0 <= i < g_nblock g - overs k ths;
  go_claim : forall t th n i g, ths !! t = Some th -> claims th.2 n i -> gs !! Z.to_nat (n - 1) = Some g ->
    0 <= i < g_nblock g - overs (Z.to_nat (n - 1)) ths /\ g_blocks g i = None;
  go_unique : forall t t' th th' n n' i, ths !! t = Some th -> ths !! t' = Some th' ->
    claims th.2 n i -> claims th'.2 n' i -> Z.to_nat (n - 1) = Z.to_nat (n' - 1) -> t = t'
}.

Lemma overs_nonneg k ths : 0 <= overs k ths.
Proof. unfold overs, count_if. lia. Qed.

Section Groups.
Context (gs : list BlockGroup) (ths : list thread) (t : nat) (th : thread)
  (G : groups_ok gs ths) (Ht : ths !! t = Some th).

Lemma overs_moved k th' : overs k (<[t := th']> ths) = overs k ths - Z.b2z (over k th) + Z.b2z (over k th').
Proof. exact (count_if_insert (over k) ths t th th' Ht). Qed.

(** A move of a thread that neither claims nor is counted in. *)
Lemma groups_move th' :
  (forall k, over k th' = over k th) -> (forall n i, claims th'.2 n i -> claims th.2 n i) ->
  groups_ok gs (<[t := th']> ths).
Proof.
  intros Ho Hc. assert (forall k, overs k (<[t := th']> ths) = overs k ths) as Hov
    by (intros k; rewrite overs_moved, Ho; lia).
  constructor.
  - intros k g. rewrite Hov. apply G.
  - intros k g i b. rewrite Hov. apply G.
  - intros t1 th1 n i g. rewrite Hov.
    intros [[-> ->]|[Hne H]]%lookup_moved Hcl; [eapply (go_claim _ _ G t th)|eapply (go_claim _ _ G t1 th1)]; auto.
  - intros t1 t2 th1 th2 n n' i [[-> ->]|[Hne H]]%lookup_moved [[-> ->]|[Hne' H']]%lookup_moved Hcl Hcl' Hn.
    + done.
    + by apply (go_unique _ _ G t t2 th th2 n n' i); auto.
    + by apply (go_unique _ _ G t1 t th1 th n n' i); auto.
    + by apply (go_unique _ _ G t1 t2 th1 th2 n n' i).
Qed.

(** A new group is empty. *)
Lemma groups_append :
  (forall t1 th1, ths !! t1 = Some th1 -> over (length gs) th1 = false) ->
  (forall t1 th1 n i, ths !! t1 = Some th1 -> claims th1.2 n i -> (Z.to_nat (n - 1) < length gs)%nat) ->
  groups_ok (gs ++ [BlockGroup_ctor]) ths.
Proof.
  intros Ho Hc. assert (overs (length gs) ths = 0) as H0 by (by apply count_if_none).
  assert (forall k g, (gs ++ [BlockGroup_ctor]) !! k = Some g ->
    gs !! k = Some g \/ (k = length gs /\ g = BlockGroup_ctor)) as Hk.
  { intros k g [H|[Hge H]]%lookup_app_Some; [by left|right]. apply list_lookup_singleton_Some in H as [? <-]. split; [lia|done]. }
  constructor.
  - intros k g [H|[-> ->]]%Hk; [by apply G|]. rewrite H0. cbn. done.
  - intros k g i b [H|[-> ->]]%Hk; [by apply G|done].
  - intros t1 th1 n i g Ht1 Hcl [H|[Hn ->]]%Hk; [by eapply (go_claim _ _ G)|].
    specialize (Hc t1 th1 n i Ht1 Hcl). lia.
  - apply G.
Qed.

(** A step of thread [t] on group [k0]: entries below the count are never lost,
    a new claim is at the old count, a new entry was claimed by [t]. *)
Lemma groups_update k0 g g' th' :
  gs !! k0 = Some g -> (forall k, k <> k0 -> over k th' = over k th) ->
  (let nb := g_nblock g - overs k0 ths in
   let nb' := g_nblock g' - overs k0 (<[t := th']> ths) in
   nb <= nb' <= RP_GROUP_NBLOCK /\ (0 < overs k0 (<[t := th']> ths) -> nb' = RP_GROUP_NBLOCK) /\
   (forall n i, claims th'.2 n i -> Z.to_nat (n - 1) = k0 /\ nb <= i < nb')) ->
  (forall i, g_blocks g' i = g_blocks g i \/
     ((exists n, claims th.2 n i /\ Z.to_nat (n - 1) = k0) /\ forall n j, ~ claims th'.2 n j)) ->
  groups_ok (<[k0 := g']> gs) (<[t := th']> ths).
Proof.
  intros Hg Ho (Hnb & Hov & Hcl) Hb. pose proof (lookup_lt_Some _ _ _ Hg) as Hlt.
  destruct (go_range _ _ G k0 g Hg) as [Hr1 Hr2].
  assert (forall k, k <> k0 -> overs k (<[t := th']> ths) = overs k ths) as Hovk
    by (intros k Hk; rewrite overs_moved, Ho by done; lia).
  assert (forall k g1, <[k0 := g']> gs !! k = Some g1 -> (k = k0 /\ g1 = g') \/ (k <> k0 /\ gs !! k = Some g1)) as Hk
    by (intros k g1 H; by apply lookup_moved in H).
  constructor.
  - intros k g1 [[-> ->]|[Hne H]]%Hk; [split; [lia|done]|]. rewrite Hovk by done. by apply G.
  - intros k g1 i b [[-> ->]|[Hne H]]%Hk Hi; [|rewrite Hovk by done; by apply (go_set _ _ G k g1 i b)].
    destruct (Hb i) as [Hi'|[(n & Hn & Hn0) _]].
    + rewrite Hi' in Hi. pose proof (go_set _ _ G k0 g i b Hg Hi). lia.
    + pose proof (go_claim _ _ G t th n i g Ht Hn) as [? _]; [by rewrite Hn0|]. rewrite Hn0 in *. lia.
  - intros t1 th1 n i g1 [[-> ->]|[Hne H]]%lookup_moved Hc [[Hn0 ->]|[Hne0 H0]]%Hk.
    + destruct (Hcl n i Hc) as [_ Hi]. rewrite Hn0. split; [lia|]. destruct (Hb i) as [->|[_ Hno]]; [|by destruct (Hno n i)].
      destruct (g_blocks g i) as [b|] eqn:E; [|done]. pose proof (go_set _ _ G k0 g i b Hg E). lia.
    + by destruct (Hcl n i Hc) as [? _].
    + destruct (go_claim _ _ G t1 th1 n i g H Hc) as [Hi Hin]; [by rewrite Hn0|]. rewrite Hn0 in *. split; [lia|].
      destruct (Hb i) as [->|[(n1 & Hn1 & Hk1) _]]; [done|].
      destruct Hne. apply (go_unique _ _ G t1 t th1 th n n1 i); auto. congruence.
    + rewrite Hovk by done. by apply (go_claim _ _ G t1 th1).
  - assert (forall t1 th1 n n' i, t1 <> t -> ths !! t1 = Some th1 -> claims th1.2 n i -> claims th'.2 n' i ->
      Z.to_nat (n - 1) = Z.to_nat (n' - 1) -> False) as Hnew.
    { intros t1 th1 n n' i Hne H Hc Hc' Hn. destruct (Hcl n' i Hc') as [Hn' Hi].
      destruct (go_claim _ _ G t1 th1 n i g H Hc) as [Hi1 _]; [by rewrite Hn, Hn'|]. rewrite Hn, Hn' in Hi1. lia. }
    intros t1 t2 th1 th2 n n' i [[-> ->]|[Hne H]]%lookup_moved [[-> ->]|[Hne' H']]%lookup_moved Hc1 Hc2 Hn; [done| | |].
    + exfalso. by apply (Hnew t2 th2 n' n i).
    + exfalso. by apply (Hnew t1 th1 n n' i).
    + by apply (go_unique _ _ G t1 t2 th1 th2 n n' i).
Qed.
End Groups.

(** ** The invariant *)

(** A new block that is not registered yet. *)
Definition flying (p : ResourcePool) (b : nat) : Prop :=
  nitem p b = 0 /\ forall i, 0 <= i -> block_at p i <> Some b.

(** A chunk that its array holds. *)
Definition fits (c : list Z) : Prop := Z.of_nat (length c) <= BLOCK_NITEM.

Definition placed (p : ResourcePool) (l : LocalPool) : Prop :=
  forall b, cur_block l = Some b -> 0 <= cur_block_index l /\ block_at p (cur_block_index l) = Some b.

Definition pc_fine (p : ResourcePool) (lp : option LocalPool) (q : rp_pc) : Prop :=
  match q with
  | GTake | RChunk _ => forall l, lp = Some l -> cur_free l <> []
  | GInit b => exists l, lp = Some l /\ cur_block l = Some b /\ nitem p b < BLOCK_NITEM
  | GInc b id n => exists l, lp = Some l /\ cur_block l = Some b /\ nitem p b = n /\ n < BLOCK_NITEM /\
      id = cur_block_index l * BLOCK_NITEM + n
  | GRet (Some (id, a)) => 0 <= id /\ unsafe_address_resource p id = Some a
  | ALoad b => flying p b
  | AFetch b n | ASub b n => flying p b /\ 1 <= n <= ngroup p
  | AStore b n i => flying p b /\ 1 <= n <= ngroup p /\ 0 <= i < RP_GROUP_NBLOCK
  | AGroup b n => flying p b /\ 0 <= n <= ngroup p
  | PFault => False
  | _ => True
  end.

Definition th_ok (p : ResourcePool) (th : thread) : Prop :=
  (forall l, th.1 = Some l -> placed p l) /\ pc_fine p th.1 th.2.

Definition valid (p : ResourcePool) (id : Z) : Prop :=
  0 <= id /\ exists b off, unsafe_address_resource p id = Some (b, off) /\ off < nitem p b.

Definition all_ids (p : ResourcePool) (ths : list thread) (used : list (Z * (nat * Z))) : list Z :=
  used.*1 ++ concat (ids <$> ths) ++ concat (free_chunks p).

Record rp_inv (p : ResourcePool) (ths : list thread) (used : list (Z * (nat * Z))) : Prop := mkRpInv {
  rpi_groups : groups_ok (block_groups p) ths;
  rpi_ngroup : ngroup p <= RP_MAX_BLOCK_NGROUP;
  rpi_heap : forall b n, heap p !! b = Some n -> 0 <= n <= BLOCK_NITEM;
  rpi_reg : forall i b, 0 <= i -> block_at p i = Some b -> (b < length (heap p))%nat;
  rpi_inj : forall i j b, 0 <= i -> 0 <= j -> block_at p i = Some b -> block_at p j = Some b -> i = j;
  rpi_own : NoDup (concat (own <$> ths));
  rpi_own_lt : Forall (fun b => (b < length (heap p))%nat) (concat (own <$> ths));
  rpi_chunks : Forall (fun c => c <> [] /\ fits c) (free_chunks p);
  rpi_fits : forall t l q, ths !! t = Some (Some l, q) -> fits (cur_free l);
  rpi_th : forall t th, ths !! t = Some th -> th_ok p th;
  rpi_nodup : NoDup (all_ids p ths used);
  rpi_valid : Forall (valid p) (all_ids p ths used);
  rpi_used : forall id a, (id, a) ∈ used -> unsafe_address_resource p id = Some a
}.

(** *** What later states keep *)

(** Blocks keep their places, items are only added, the blocks of [th] are left alone. *)
Record keeps (p p' : ResourcePool) (th : thread) : Prop := mkKeeps {
  kp_at : forall i b, 0 <= i -> block_at p i = Some b -> block_at p' i = Some b;
  kp_groups : ngroup p <= ngroup p';
  kp_items : forall b, b ∈ own th -> nitem p' b = nitem p b;
  kp_flying : forall b, b ∈ own th -> flying p b -> flying p' b
}.

Lemma unsafe_keeps p p' id a :
  0 <= BLOCK_NITEM -> (forall i b, 0 <= i -> block_at p i = Some b -> block_at p' i = Some b) ->
  0 <= id -> unsafe_address_resource p id = Some a -> unsafe_address_resource p' id = Some a.
Proof.
  intros HB Hat Hid. rewrite !unsafe_block_at. destruct (block_at p (id / BLOCK_NITEM)) as [b|] eqn:Hb; [|done].
  rewrite (Hat _ b); [done| |done]. destruct (decide (BLOCK_NITEM = 0)) as [->|]; [by rewrite Zdiv_0_r|].
  apply Z.div_pos; lia.
Qed.

Lemma own_cur l q b : cur_block l = Some b -> b ∈ own (Some l, q).
Proof. intros H. unfold own. cbn. rewrite H. apply elem_of_app. left. by apply list_elem_of_singleton. Qed.

Lemma own_pc lp q b : pc_block q = Some b -> b ∈ own (lp, q).
Proof. intros H. unfold own. cbn. rewrite H. apply elem_of_app. right. by apply list_elem_of_singleton. Qed.

Lemma th_ok_keeps p p' th : 0 <= BLOCK_NITEM -> keeps p p' th -> th_ok p th -> th_ok p' th.
Proof.
  destruct th as [lp q]. intros HB [Hat Hg Hit Hfl] [Hl Hq]. cbn [fst snd] in *. split.
  - intros l Hlp b Hb. destruct (Hl l Hlp b Hb) as [? ?]. split; [done|]. by apply Hat.
  - destruct q; cbn [pc_fine] in *; try done;
      try (destruct Hq as [Hq1 Hq2]; split; [apply Hfl; [by apply own_pc|done]|lia]).
    + destruct Hq as (l & -> & Hb & Hi). exists l. rewrite Hit by (by apply own_cur). done.
    + destruct Hq as (l & -> & Hb & Hi). exists l. rewrite Hit by (by apply own_cur). done.
    + destruct r as [[id a]|]; [|done]. destruct Hq as [? ?]. split; [done|]. by eapply (unsafe_keeps p).
    + apply Hfl; [by apply own_pc|done].
Qed.

Lemma valid_keeps p p' id :
  0 <= BLOCK_NITEM -> (forall i b, 0 <= i -> block_at p i = Some b -> block_at p' i = Some b) ->
  (forall i b, 0 <= i -> block_at p i = Some b -> nitem p b <= nitem p' b) -> valid p id -> valid p' id.
Proof.
  intros HB Hat Hit (Hid & b & off & Hu & Hoff). split; [done|]. exists b, off. split; [by eapply (unsafe_keeps p)|].
  rewrite unsafe_block_at in Hu. destruct (block_at p (id / BLOCK_NITEM)) as [b'|] eqn:Hb; [|done]. cbn in Hu. simplify_eq.
  assert (0 <= id / BLOCK_NITEM) by (destruct (decide (BLOCK_NITEM = 0)) as [->|]; [by rewrite Zdiv_0_r|apply Z.div_pos; lia]).
  specialize (Hit _ _ H Hb). lia.
Qed.

(** A part of a list without duplicates. *)
Lemma part_of {A} (P : A -> Prop) l k : l ⊆+ k -> NoDup k -> Forall P k -> NoDup l /\ Forall P l.
Proof.
  intros [k' Hk]%submseteq_Permutation Hd HP. rewrite Hk in Hd, HP.
  by apply NoDup_app in Hd as [Hd _]; apply Forall_app in HP as [HP _].
Qed.

Lemma last_Some_elem_of {A} (l : list A) x : last l = Some x -> x ∈ l.
Proof. intros [l' ->]%last_Some. apply elem_of_app. right. by apply list_elem_of_singleton. Qed.

Lemma concat_disjoint {A B} (f : A -> list B) l t t' x x' b :
  NoDup (concat (f <$> l)) -> l !! t = Some x -> l !! t' = Some x' -> b ∈ f x -> b ∈ f x' -> t = t'.
Proof.
  revert t t'. induction l as [|y l IH]; intros t t' Hd Ht Ht' Hb Hb'; [done|].
  cbn in Hd. apply NoDup_app in Hd as (_ & Hd1 & Hd2).
  assert (forall k z, l !! k = Some z -> b ∈ f z -> b ∈ concat (f <$> l)) as Hin.
  { intros k z Hk Hz. apply list_elem_of_In, in_concat. exists (f z). split; [|by apply list_elem_of_In].
    apply list_elem_of_In, list_elem_of_fmap. eauto using list_elem_of_lookup_2. }
  destruct t as [|t], t' as [|t']; simplify_eq/=; [done| | |f_equal; eauto]; exfalso; eapply Hd1; eauto.
Qed.

Section Step.
Context (HBN : 1 <= BLOCK_NITEM) (HFN : 1 <= FREE_NITEM <= BLOCK_NITEM).
Context (ok : bool) (p : ResourcePool) (lp : option LocalPool) (q : rp_pc)
  (p' : ResourcePool) (lp' : option LocalPool) (q' : rp_pc)
  (ths : list thread) (used : list (Z * (nat * Z))) (t : nat)
  (I : rp_inv p ths used) (Ht : ths !! t = Some (lp, q)) (Hn : rp_next ok p lp q = Some (p', lp', q')).

Lemma group_exists n : 1 <= n <= ngroup p -> block_groups p !! Z.to_nat (n - 1) <> None.
Proof. unfold ngroup. intros Hr H%lookup_ge_None. lia. Qed.

Lemma index_in_group i : 0 <= i < RP_GROUP_NBLOCK -> (0 <=? i) && (i <? RP_GROUP_NBLOCK) <> false.
Proof. intros Hi [?%Z.leb_gt|?%Z.ltb_ge]%andb_false_iff; lia. Qed.

Lemma step_block_at :
  ((forall b n x, q <> AStore b n x) /\ forall i, 0 <= i -> block_at p' i = block_at p i) \/
  (exists b n x, q = AStore b n x /\ 0 <= (n - 1) * RP_GROUP_NBLOCK + x /\
    block_at p ((n - 1) * RP_GROUP_NBLOCK + x) = None /\
    forall i, 0 <= i -> block_at p' i = if i =? (n - 1) * RP_GROUP_NBLOCK + x then Some b else block_at p i).
Proof.
  destruct (rpi_th _ _ _ I t _ Ht) as [_ Hq]. pose proof (go_claim _ _ (rpi_groups _ _ _ I) t (lp, q)) as Hc. clear I.
  destruct q, lp as [l|]; rp_cases Hn; cbn [pc_fine snd fst] in *; try (left; split; [done|]; intros i _; reflexivity).
  - left. split; [done|]. intros i _. by eapply block_at_same.
  - right. destruct Hq as (_ & Hn1 & Hx). exists b, n, index.
    match goal with H : block_groups p !! _ = Some _ |- _ => rename H into Hg end.
    assert (0 <= (n - 1) * RP_GROUP_NBLOCK + index) as Hpos
      by (apply Z.add_nonneg_nonneg; [apply Z.mul_nonneg_nonneg; [lia|done]|lia]).
    split_and!; [done|done| |intros i Hi; apply block_at_store; [lia|done..]].
    destruct (Hc n index _ Ht (ex_intro _ b eq_refl) Hg) as [_ Hnone]. rewrite block_at_split.
    rewrite Z.div_add_l, Z.div_small, Z.add_0_r, Hg by lia. cbn. by rewrite Z.add_comm, Z.mod_add, Z.mod_small by lia.
  - destruct Hq as (_ & _ & Hx). by destruct (index_in_group index).
  - destruct Hq as (_ & Hn1 & _). by destruct (group_exists n Hn1).
  - left. split; [done|]. intros i _. by eapply block_at_same.
  - left. split; [done|]. intros i _. apply block_at_append.
Qed.

Lemma at_kept i b : 0 <= i -> block_at p i = Some b -> block_at p' i = Some b.
Proof.
  intros Hi Hb. destruct step_block_at as [[_ Hs]|(b0 & n & x & _ & Hx & Hnone & Hs)]; rewrite Hs by done; [done|].
  case_match eqn:E; [|done]. apply Z.eqb_eq in E. subst i. congruence.
Qed.

Lemma own_other t' th' b : t' <> t -> ths !! t' = Some th' -> b ∈ own th' -> b ∉ own (lp, q).
Proof. intros Hne H Hb Hb'. apply Hne. by eapply (concat_disjoint own); [apply I|..]. Qed.

Lemma own_lt t' th' b : ths !! t' = Some th' -> b ∈ own th' -> (b < length (heap p))%nat.
Proof.
  intros H Hb. pose proof (rpi_own_lt _ _ _ I) as Hlt. rewrite Forall_forall in Hlt. apply Hlt.
  apply list_elem_of_In, in_concat. exists (own th'). split; [|by apply list_elem_of_In].
  apply list_elem_of_In, list_elem_of_fmap. eauto using list_elem_of_lookup_2.
Qed.

Lemma other_keeps t' th' : t' <> t -> ths !! t' = Some th' -> keeps p p' th'.
Proof.
  intros Hne H. assert (forall b, b ∈ own th' -> nitem p' b = nitem p b) as Hit.
  { intros b Hb. destruct (step_nitem _ _ _ _ _ _ _ Hn b (own_lt t' th' b H Hb)) as [?|(_ & id & n & Hq)]; [done|].
    pose proof (rpi_th _ _ _ I t _ Ht) as [_ Hf]. cbn [fst snd] in Hf. rewrite Hq in Hf.
    destruct Hf as (l & Hl & Hcb & _). exfalso. apply (own_other t' th' b Hne H Hb). rewrite Hl. by apply own_cur. }
  constructor; [apply at_kept| |done|].
  - pose proof (step_groups_length _ _ _ _ _ _ _ Hn). unfold ngroup. lia.
  - intros b Hb [Hz Hfl]. split; [by rewrite Hit|]. intros i Hi.
    destruct step_block_at as [[_ Hs]|(b0 & n & x & Hq & _ & _ & Hs)]; rewrite Hs by done; [by apply Hfl|].
    case_match; [|by apply Hfl]. intros [= ->]. apply (own_other t' th' b Hne H Hb). rewrite Hq. by apply own_pc.
Qed.

Lemma ids_valid id : id ∈ ids (lp, q) -> valid p id.
Proof.
  intros Hid. pose proof (rpi_valid _ _ _ I) as Hv. rewrite Forall_forall in Hv. apply Hv.
  apply elem_of_app. right. apply elem_of_app. left.
  apply list_elem_of_In, in_concat. exists (ids (lp, q)). split; [|by apply list_elem_of_In].
  apply list_elem_of_In, list_elem_of_fmap. eauto using list_elem_of_lookup_2.
Qed.

Lemma taken_fine id : id ∈ ids (lp, q) -> pc_fine p lp' (taken_id p id).
Proof.
  intros (Hid & b & off & Hu & _)%ids_valid. unfold taken_id. rewrite Hu. done.
Qed.

(** The identifier of item [n] of the block at [i] addresses that item. *)
Lemma unsafe_item p0 i b n : 0 <= i -> 0 <= n < BLOCK_NITEM -> block_at p0 i = Some b ->
  0 <= i * BLOCK_NITEM + n /\ unsafe_address_resource p0 (i * BLOCK_NITEM + n) = Some (b, n).
Proof.
  intros Hi Hb Hat. split; [nia|]. rewrite unsafe_block_at.
  rewrite Z.div_add_l, (Z.div_small n), Z.add_0_r, Hat by lia. cbn. do 2 f_equal. lia.
Qed.

Lemma nitem_range b : (b < length (heap p))%nat -> 0 <= nitem p b <= BLOCK_NITEM.
Proof.
  intros [n Hb]%lookup_lt_is_Some. unfold nitem. rewrite Hb. by apply (rpi_heap _ _ _ I b).
Qed.

(** A block that is not registered stays so unless this step registers it. *)
Lemma flying_kept b : b ∈ own (lp, q) -> (forall n x, q <> AStore b n x) -> (forall id n, q <> GInc b id n) ->
  flying p b -> flying p' b.
Proof.
  intros Hown Hq1 Hq2 [Hz Hfl]. pose proof (own_lt t _ b Ht Hown) as Hlt. split.
  - destruct (step_nitem _ _ _ _ _ _ _ Hn b Hlt) as [->|(_ & id & n & H)]; [done|by destruct (Hq2 id n)].
  - intros i Hi. destruct step_block_at as [[_ Hs]|(b0 & n & x & Hq & _ & _ & Hs)]; rewrite Hs by done; [by apply Hfl|].
    case_match; [|by apply Hfl]. intros [= ->]. by destruct (Hq1 n x).
Qed.

Lemma self_placed l : lp' = Some l -> placed p' l.
Proof.
  destruct (rpi_th _ _ _ I t _ Ht) as [Hpl Hq]. cbn [fst snd] in *. intros Hl b Hb.
  assert (lp = Some l \/ (exists l0, lp = Some l0 /\ cur_block l = cur_block l0 /\ cur_block_index l = cur_block_index l0) \/
    cur_block l = None \/ exists b n x, q = AStore b n x /\ cur_block l = Some b /\
      cur_block_index l = (n - 1) * RP_GROUP_NBLOCK + x) as [Hc|[(l0 & Hc & Hb0 & Hi0)|[Hc|(b0 & n & x & Hc & Hb0 & Hi0)]]].
  { clear I Hpl. destruct q, lp as [l0|]; rp_cases Hn; cbn; eauto 12. }
  - destruct (Hpl l Hc b Hb) as [? ?]. split; [done|]. by apply at_kept.
  - rewrite Hb0 in Hb. destruct (Hpl l0 Hc b Hb) as [? ?]. rewrite Hi0. split; [done|]. by apply at_kept.
  - congruence.
  - rewrite Hb in Hb0. injection Hb0 as ->. rewrite Hi0.
    destruct step_block_at as [[Hno Hs]|(b1 & n1 & x1 & Hq1 & Hx & _ & Hs)].
    + by destruct (Hno b0 n x).
    + rewrite Hc in Hq1. injection Hq1 as -> -> ->. split; [done|]. by rewrite Hs, Z.eqb_refl.
Qed.

Lemma groups_grow : ngroup p <= ngroup p'.
Proof. pose proof (step_groups_length _ _ _ _ _ _ _ Hn). unfold ngroup. lia. Qed.

(** A block in flight stays so through the steps that do not register it. *)
Lemma flying_next b : pc_block q = Some b -> (forall n x, q <> AStore b n x) -> flying p b -> flying p' b.
Proof.
  intros Hb Hq. apply flying_kept; [by apply own_pc|done|]. intros id n H. rewrite H in Hb. done.
Qed.

Lemma self_fine_add : pc_block q <> None \/ q = GAdd -> pc_fine p' lp' q'.
Proof.
  destruct (rpi_th _ _ _ I t _ Ht) as [_ Hq]. cbn [fst snd] in *. intros Hk.
  pose proof flying_next as Hfk. pose proof (rpi_reg _ _ _ I) as Hreg.
  pose proof (go_range _ _ (rpi_groups _ _ _ I)) as Hgr. pose proof groups_grow as Hgl.
  assert (forall k, 0 <= overs k ths) as Hov by (intros; apply overs_nonneg).
  clear I. destruct q, lp as [l|]; try (destruct Hk; done); rp_cases Hn; cbn [pc_fine pc_block] in *; try done;
    try (destruct Hq as [Hf Hr]); try (specialize (Hfk b eq_refl ltac:(done)));
    try (split; [by auto|lia]); auto.
  all: try (exfalso; apply (group_exists n); [lia|done]).
  - split; [unfold nitem; cbn; by rewrite lookup_app_r, Nat.sub_diag|].
    intros i Hi Hb. specialize (Hreg i _ Hi Hb). lia.
  - split; [done|]. unfold ngroup. lia.
  - specialize (Hov (Z.to_nat (n - 1))). destruct (Hgr _ _ H0) as [? _]. split_and!; [by auto|lia|lia|lia|lia].
  - eexists. split; [done|]. split; [done|]. destruct Hf as [Hz _]. change (nitem p b < BLOCK_NITEM). lia.
  - by apply (index_in_group index); [lia|].
Qed.

Lemma self_fine_get : pc_block q = None -> q <> GAdd -> pc_fine p' lp' q'.
Proof.
  destruct (rpi_th _ _ _ I t _ Ht) as [Hpl Hq]. cbn [fst snd] in *. intros Hb Ha.
  pose proof taken_fine as Htk. pose proof (rpi_chunks _ _ _ I) as Hch. rewrite Forall_forall in Hch.
  pose proof (own_lt t (lp, q)) as Hlt. pose proof nitem_range as Hnr. clear I. unfold taken_id in Htk.
  destruct q, lp as [l|]; try done; rp_cases Hn; cbn [pc_fine] in *; try done.
  all: try (match goal with Hf : cur_free _ = ?z :: _, Hu : unsafe_address_resource p ?z = _ |- _ =>
              specialize (Htk z); rewrite Hu in Htk; apply Htk; unfold ids; cbn; rewrite Hf; by left end).
  all: try (match goal with Hl : last _ = Some ?c |- _ => apply last_Some_elem_of, Hch in Hl as [Hne Hfit] end).
  all: repeat match goal with H : (_ <? _) = _ |- _ => first [apply Z.ltb_lt in H|apply Z.ltb_ge in H]
              | H : (_ <=? _) = _ |- _ => first [apply Z.leb_le in H|apply Z.leb_gt in H] end.
  all: try (unfold fits in *; cbn in *; lia); try (destruct Hq as (? & _ & _ & ?); lia).
  - by intros l1 [= <-].
  - by apply (Hq l).
  - by exists l.
  - destruct Hq as (l0 & [= <-] & Hcb & _). by exists l.
  - destruct Hq as (l0 & [= <-] & Hcb & Hi & Hlt' & ->). destruct (Hpl l eq_refl b Hcb) as [Hix Hat].
    specialize (Hnr b (Hlt b Ht (own_cur _ _ _ Hcb))). by apply (unsafe_item _ _ b); [|lia|].
  - intros l1 [= <-] Hnil. match goal with H : FREE_NITEM <= _ |- _ => rewrite Hnil in H; cbn in H end. lia.
Qed.

Lemma self_ok : th_ok p' (lp', q').
Proof.
  split; [apply self_placed|]. cbn [fst snd].
  destruct (pc_block q) as [b|] eqn:Hb; [apply self_fine_add; left; congruence|].
  destruct (decide (q = GAdd)) as [Hq|Hq]; [apply self_fine_add; by right|by apply self_fine_get].
Qed.

Lemma next_groups : groups_ok (block_groups p') (<[t := (lp', q')]> ths).
Proof.
  pose proof (rpi_groups _ _ _ I) as G. pose proof (rpi_th _ _ _ I) as Hth. destruct (Hth t _ Ht) as [_ Hq].
  cbn [fst snd] in Hq. clear I.
  destruct q, lp as [l|]; rp_cases Hn; cbn [pc_fine set_group block_groups] in *;
    try (apply (groups_move _ _ t _ G Ht); [done|]; intros n' i' [b' Hc]; by simplify_eq/=).
  all: try match goal with H : block_groups p !! _ = Some ?g |- _ => rename H into Hg; destruct (go_range _ _ G _ _ Hg) as [Hr1 Hr2] end.
  all: try (pose proof (overs_nonneg (Z.to_nat (n - 1)) ths) as Hnn).
  - apply Z.ltb_lt in H. apply (groups_update _ _ t _ G Ht _ b0); [done|done| |by left]. cbn zeta.
    rewrite (overs_moved _ t _ Ht). cbn [over snd Z.b2z g_nblock].
    split_and!; [lia|lia|lia|]. intros n' i' [b' [= <- <- <-]]. split; [done|lia].
  - apply Z.ltb_ge in H. apply (groups_update _ _ t _ G Ht _ b0); [done| | |by left].
    { intros k Hk. unfold over. cbn. by apply bool_decide_eq_false_2. }
    cbn zeta. rewrite (overs_moved _ t _ Ht). unfold over. cbn [snd Z.b2z g_nblock].
    rewrite bool_decide_eq_true_2 by done. cbn [Z.b2z]. split_and!; [lia|lia|lia|]. by intros n' i' [b' [=]].
  - apply (groups_update _ _ t _ G Ht _ b0); [done|done| |].
    + cbn zeta. rewrite (overs_moved _ t _ Ht). cbn [over snd Z.b2z g_nblock]. rewrite Z.sub_0_r, Z.add_0_r.
      split_and!; [lia|lia|done|]. by intros n' i' [b' [=]].
    + intros i. cbn. destruct (Z.eqb_spec i index) as [->|]; [right|by left].
      split; [exists n; split; [by exists b|done]|]. by intros n' j [b' [=]].
  - apply (groups_update _ _ t _ G Ht _ b0); [done| | |by left].
    { intros k Hk. unfold over. cbn. by rewrite bool_decide_eq_false_2. }
    cbn zeta. rewrite (overs_moved _ t _ Ht). unfold over. cbn [snd Z.b2z g_nblock].
    rewrite bool_decide_eq_true_2 by done. cbn [Z.b2z]. split_and!; [lia|lia|lia|]. by intros n' i' [b' [=]].
  - destruct Hq as [_ Hq]. by destruct (group_exists n Hq).
  - apply (groups_move _ _ t (Some l, AGroup b n)); [|done|done|by intros n' i' [b' [=]]].
    apply groups_append; [done| |].
    + intros t1 [lp1 q1] H1. destruct (Hth t1 _ H1) as [_ Hf]. unfold over. cbn in *. destruct q1; try done.
      apply bool_decide_eq_false_2. destruct Hf as [_ Hf]. unfold ngroup in Hf. lia.
    + intros t1 [lp1 q1] n' i' H1 [b' Hc]. cbn in Hc. subst q1. destruct (Hth t1 _ H1) as [_ (_ & Hf & _)].
      unfold ngroup in Hf. lia.
Qed.

Lemma next_heap b n : heap p' !! b = Some n -> 0 <= n <= BLOCK_NITEM.
Proof.
  pose proof (rpi_heap _ _ _ I) as Hh. destruct (step_heap _ _ _ _ _ _ _ Hn) as [->|[[_ ->]|(b0 & id & n0 & Hq & ->)]].
  - apply Hh.
  - intros [H|[_ [_ <-]%list_lookup_singleton_Some]]%lookup_app_Some; [by eapply Hh|lia].
  - intros [[-> ->]|[_ H]]%lookup_moved; [|by eapply Hh].
    destruct (rpi_th _ _ _ I t _ Ht) as [_ Hf]. cbn [fst snd] in Hf. rewrite Hq in Hf.
    destruct Hf as (l & Hl & Hcb & Hit & Hlt & _). pose proof (own_cur l q b0 Hcb) as Hown. rewrite <- Hl in Hown.
    pose proof (nitem_range b0 (own_lt t _ b0 Ht Hown)). lia.
Qed.

Lemma next_reg i b : 0 <= i -> block_at p' i = Some b -> (b < length (heap p'))%nat.
Proof.
  intros Hi Hb. pose proof (step_heap_length _ _ _ _ _ _ _ Hn) as Hle. enough (b < length (heap p))%nat by lia.
  destruct step_block_at as [[_ Hs]|(b0 & n & x & Hq & _ & _ & Hs)]; rewrite Hs in Hb by done; [by apply (rpi_reg _ _ _ I i)|].
  case_match; [|by apply (rpi_reg _ _ _ I i)]. injection Hb as <-. apply (own_lt t _ _ Ht), own_pc. by rewrite Hq.
Qed.

Lemma next_inj i j b : 0 <= i -> 0 <= j -> block_at p' i = Some b -> block_at p' j = Some b -> i = j.
Proof.
  intros Hi Hj. destruct step_block_at as [[_ Hs]|(b0 & n & x & Hq & _ & _ & Hs)]; rewrite !Hs by done.
  { by apply (rpi_inj _ _ _ I). }
  destruct (rpi_th _ _ _ I t _ Ht) as [_ Hf]. cbn [fst snd] in Hf. rewrite Hq in Hf. destruct Hf as [[_ Hfl] _].
  destruct (Z.eqb_spec i ((n - 1) * RP_GROUP_NBLOCK + x)) as [->|], (Z.eqb_spec j ((n - 1) * RP_GROUP_NBLOCK + x)) as [->|].
  - done.
  - intros [= ->] H. by destruct (Hfl j Hj).
  - intros H [= ->]. by destruct (Hfl i Hi).
  - by apply (rpi_inj _ _ _ I).
Qed.

Lemma next_own : NoDup (concat (own <$> <[t := (lp', q')]> ths)) /\
  Forall (fun b => (b < length (heap p'))%nat) (concat (own <$> <[t := (lp', q')]> ths)).
Proof.
  pose proof (rpi_own _ _ _ I) as Hd. pose proof (rpi_own_lt _ _ _ I) as Hl.
  pose proof (step_heap_length _ _ _ _ _ _ _ Hn) as Hle. pose proof (step_own _ _ _ _ _ _ _ Hn) as Hs.
  destruct (concat_at own ths t (lp, q) Ht) as (rest & Hc & Hc'). rewrite Hc in Hd, Hl. rewrite Hc'.
  assert (own (lp', q') ++ rest ⊆+ fresh_block ok p q ++ own (lp, q) ++ rest) as Hsub.
  { rewrite app_assoc. by apply submseteq_skips_r. }
  assert (NoDup (fresh_block ok p q ++ own (lp, q) ++ rest) /\
    Forall (fun b => (b < length (heap p'))%nat) (fresh_block ok p q ++ own (lp, q) ++ rest)) as [Hd' Hl'].
  { assert (Forall (fun b => (b < length (heap p'))%nat) (own (lp, q) ++ rest)) as Hl2
      by (eapply Forall_impl; [exact Hl|]; cbn; lia).
    assert (fresh_block ok p q = [] \/ (fresh_block ok p q = [length (heap p)] /\ (length (heap p) < length (heap p'))%nat))
      as [->|[-> Hlt]].
    { clear -Hn. destruct q; cbn; auto. destruct ok; [right|by left]. split; [done|].
      destruct lp; rp_cases Hn. cbn. rewrite length_app. cbn. lia. }
    - done.
    - split; [|by constructor]. apply NoDup_cons. split; [|done]. intros Hin. rewrite Forall_forall in Hl.
      specialize (Hl _ Hin). lia. }
  by apply (part_of _ _ _ Hsub).
Qed.

(** Chunks stay within their arrays. *)
Lemma self_fits l : lp' = Some l -> fits (cur_free l).
Proof.
  pose proof (rpi_fits _ _ _ I t) as Hf. clear I. unfold fits in *. intros Hl.
  destruct q, lp as [l0|]; rp_cases Hn; cbn; try (by eapply Hf); try lia.
  all: try (specialize (Hf _ _ Ht)); try (match goal with H : cur_free _ = _ |- _ => rewrite H in Hf end); cbn in *; try lia.
Qed.

Lemma next_chunks : Forall (fun c => c <> [] /\ fits c) (free_chunks p').
Proof.
  pose proof (rpi_chunks _ _ _ I) as Hc. pose proof (rpi_fits _ _ _ I t) as Hf.
  destruct (rpi_th _ _ _ I t _ Ht) as [_ Hq]. cbn [fst snd] in Hq. clear I.
  destruct q, lp as [l|]; rp_cases Hn; cbn [pc_fine free_chunks set_chunks set_group set_nitem set_nlocal] in *; try done.
  all: try (match goal with H : last _ = Some _ |- _ => apply last_Some in H as [k Hk] end;
    rewrite Hk in Hc |- *; rewrite removelast_last; by apply Forall_app in Hc as [Hc _]).
  all: apply Forall_app; (split; [done|]); apply Forall_singleton; (split; [|specialize (Hf _ _ Ht); congruence]).
  all: try done; by apply Hq.
Qed.

Lemma nitem_grows i b : 0 <= i -> block_at p i = Some b -> nitem p b <= nitem p' b.
Proof.
  intros Hi Hb. pose proof (rpi_reg _ _ _ I i b Hi Hb) as Hlt.
  destruct (step_nitem _ _ _ _ _ _ _ Hn b Hlt) as [->|[-> _]]; lia.
Qed.

(** The identifier of a new item was not valid before and is now. *)
Lemma fresh_valid id : id ∈ fresh_id q -> ~ valid p id /\ valid p' id.
Proof.
  intros Hid. destruct (rpi_th _ _ _ I t _ Ht) as [Hpl Hf]. cbn [fst snd] in *.
  assert (exists b n, q = GInc b id n) as (b & n & Hq).
  { clear -Hid. destruct q; try (by apply not_elem_of_nil in Hid). apply list_elem_of_singleton in Hid as ->. eauto. }
  rewrite Hq in Hf. destruct Hf as (l & Hl & Hcb & Hit & Hlt & ->).
  destruct (Hpl l Hl b Hcb) as [Hix Hat]. pose proof (rpi_reg _ _ _ I _ _ Hix Hat) as Hb. pose proof (nitem_range b Hb).
  destruct (unsafe_item p (cur_block_index l) b n) as [H0 Hu]; [done|lia|done|]. split.
  - intros (_ & b' & off & Hu' & Hoff). rewrite Hu in Hu'. injection Hu' as <- <-. lia.
  - split; [done|]. exists b, n. split; [by apply (unsafe_item p'); [|lia|apply at_kept]|].
    destruct (step_nitem _ _ _ _ _ _ _ Hn b Hb) as [Heq|[-> _]]; [|lia].
    exfalso. pose proof Hn as Hn'. rewrite Hl, Hq in Hn'. cbn in Hn'. injection Hn' as Hp' _ _.
    rewrite <- Hp' in Heq. unfold nitem in Heq. cbn in Heq. rewrite list_lookup_insert_eq in Heq by done. cbn in Heq. lia.
Qed.

Lemma next_ids : NoDup (all_ids p' (<[t := (lp', q')]> ths) used) /\
  Forall (valid p') (all_ids p' (<[t := (lp', q')]> ths) used).
Proof.
  pose proof (rpi_nodup _ _ _ I) as Hd. pose proof (rpi_valid _ _ _ I) as Hv.
  pose proof (step_ids _ _ _ _ _ _ _ Hn) as Hs. destruct (concat_at ids ths t (lp, q) Ht) as (rest & Hc & Hc').
  unfold all_ids in *. rewrite Hc in Hd, Hv. rewrite Hc'.
  assert (used.*1 ++ (ids (lp', q') ++ rest) ++ concat (free_chunks p') ⊆+
    fresh_id q ++ used.*1 ++ (ids (lp, q) ++ rest) ++ concat (free_chunks p)) as Hsub.
  { rewrite (Permutation_app_swap_app (fresh_id q)). apply submseteq_skips_l.
    rewrite <- !app_assoc, (Permutation_app_comm rest (concat (free_chunks p'))), (Permutation_app_comm rest (concat (free_chunks p))).
    rewrite !app_assoc. apply submseteq_skips_r. by rewrite <- !app_assoc. }
  apply (part_of _ _ _ Hsub).
  - apply NoDup_app. split_and!; [destruct q; cbn; by repeat constructor; apply not_elem_of_nil| |done].
    intros id [Hno _]%fresh_valid Hin. rewrite Forall_forall in Hv. by apply Hno, Hv.
  - apply Forall_app. split; [apply Forall_forall; intros id Hid; by apply fresh_valid|].
    eapply Forall_impl; [exact Hv|]. intros id. apply valid_keeps; [lia|apply at_kept|apply nitem_grows].
Qed.

Lemma next_used id a : (id, a) ∈ used -> unsafe_address_resource p' id = Some a.
Proof.
  intros Hid. apply (unsafe_keeps p); [lia|apply at_kept| |by apply (rpi_used _ _ _ I)].
  pose proof (rpi_valid _ _ _ I) as Hv. rewrite Forall_forall in Hv. apply Hv, elem_of_app. left.
  apply list_elem_of_fmap. by exists (id, a).
Qed.

Lemma next_ngroup : ngroup p' <= RP_MAX_BLOCK_NGROUP.
Proof.
  pose proof (rpi_ngroup _ _ _ I) as Hg. clear I. unfold ngroup in *.
  destruct q, lp as [l|]; rp_cases Hn; cbn [block_groups set_group set_nitem set_chunks set_nlocal];
    rewrite ?length_insert; try done.
  match goal with H : _ && _ = true |- _ => apply andb_prop in H as [H%Z.ltb_lt _] end.
  unfold ngroup in *. rewrite length_app. cbn [length]. lia.
Qed.

Lemma next_inv : rp_inv p' (<[t := (lp', q')]> ths) used.
Proof.
  destruct next_own as [Ho1 Ho2]. destruct next_ids as [Hi1 Hi2].
  constructor; eauto using next_groups, next_ngroup, next_heap, next_reg, next_inj, next_chunks, next_used.
  { pose proof self_fits as Hfit. intros t' l q0 [[-> E]|[Hne H]]%lookup_moved; [apply Hfit; congruence|by apply (rpi_fits _ _ _ I t' l q0)]. }
  intros t' th' [[-> ->]|[Hne H]]%lookup_moved; [apply self_ok|].
  apply (th_ok_keeps p); [lia|by apply (other_keeps t')|by apply (rpi_th _ _ _ I t')].
Qed.
End Step.

(** ** Runs *)

(** A move between calls: what the thread holds goes to the identifiers in use or comes from them. *)
Lemma move_inv p ths used t th th' used' :
  rp_inv p ths used -> ths !! t = Some th ->
  (forall k, over k th' = over k th) -> (forall n i, claims th'.2 n i -> claims th.2 n i) ->
  own th' = own th -> th'.1 = th.1 -> th_ok p th' -> used'.*1 ++ ids th' ⊆+ used.*1 ++ ids th ->
  (forall id a, (id, a) ∈ used' -> unsafe_address_resource p id = Some a) ->
  rp_inv p (<[t := th']> ths) used'.
Proof.
  intros [G Gn Hh Hr Hinj Ho Hol Hc Hfi Hth Hd Hv Hu] Ht Hov Hcl Hown Hlp Hok Hids Hu'.
  destruct (concat_at own ths t th Ht) as (rest & Hco & Hco').
  destruct (concat_at ids ths t th Ht) as (resti & Hci & Hci').
  assert (all_ids p (<[t := th']> ths) used' ⊆+ all_ids p ths used) as Hsub.
  { unfold all_ids. rewrite Hci', Hci, <- !app_assoc, !(app_assoc (_.*1)). by apply submseteq_skips_r. }
  destruct (part_of _ _ _ Hsub Hd Hv) as [Hd' Hv']. constructor; auto.
  - by eapply groups_move.
  - by rewrite Hco', Hown, <- Hco.
  - by rewrite Hco', Hown, <- Hco.
  - intros t' l q [[-> <-]|[Hne H]]%lookup_moved; [|eauto]. destruct th as [lp0 q0]. cbn in Hlp. subst lp0. eauto.
  - intros t' th1 [[-> ->]|[Hne H]]%lookup_moved; eauto.
Qed.

Lemma start_rp_inv n : rp_inv ResourcePool_ctor (replicate n (None, PIdle)) [].
Proof.
  assert (forall t (th : thread), replicate n (None, PIdle) !! t = Some th -> th = (None, PIdle)) as Hi
    by (by intros t th [-> _]%lookup_replicate_1).
  assert (forall {B} (f : thread -> list B), f (None, PIdle) = [] -> concat (f <$> replicate n (None, PIdle)) = []) as Hcat.
  { intros B f Hf. rewrite fmap_replicate, Hf. clear. induction n; [done|]. done. }
  constructor; unfold all_ids; rewrite ?Hcat by done; try done; try (by constructor).
  - constructor; try done. by intros t t' th th' n0 n' i ->%Hi _ [b [=]].
  - by intros t l q [=]%Hi.
  - by intros t th ->%Hi.
  - by intros id a ?%not_elem_of_nil.
Qed.

Section Run.
Context (HBN : 1 <= BLOCK_NITEM) (HFN : 1 <= FREE_NITEM <= BLOCK_NITEM).

Lemma fire_rp_inv t a c c' :
  rp_inv (rp_pool c) (rp_threads c) (rp_used c) -> rp_fire t a c = Some c' ->
  rp_inv (rp_pool c') (rp_threads c') (rp_used c').
Proof.
  intros I. unfold rp_fire. destruct (rp_threads c !! t) as [[lp q]|] eqn:Ht; [|done]. cbn [mbind option_bind].
  destruct (rpi_th _ _ _ I t _ Ht) as [Hpl Hq]. cbn [fst snd] in *. pose proof (rpi_used _ _ _ I) as Hu.
  destruct a.
  - destruct q; try done. intros [= <-]. cbn. apply (move_inv _ _ _ t _ _ _ I Ht); try done. by intros n i [b [=]].
  - destruct q; try (by destruct (rp_used c !! k)). destruct (rp_used c !! k) as [[id a]|] eqn:Hk; [|done].
    cbn [mbind option_bind fst]. intros [= <-]. cbn. pose proof (delete_Permutation _ _ _ Hk) as Hp.
    apply (move_inv _ _ _ t _ _ _ I Ht); try done; [by intros n i [b [=]]| |].
    + apply (fmap_Permutation fst) in Hp. rewrite Hp. unfold ids. cbn. rewrite app_nil_r, app_assoc.
      by rewrite <- Permutation_cons_append.
    + intros id0 a0 Hin. apply Hu. set (d := delete k (rp_used c)) in *. rewrite Hp. by right.
  - destruct q; try done. intros [= <-]. cbn. apply (move_inv _ _ _ t _ _ _ I Ht); try done. by intros n i [b [=]].
  - destruct (rp_next ok (rp_pool c) lp q) as [[[p' lp'] q']|] eqn:Hn; [|done]. intros [= <-]. cbn.
    by eapply next_inv.
  - destruct (handed (rp_pool c) q) as [xs|] eqn:Hx; [|done]. intros [= <-]. cbn.
    assert (own (lp, PIdle) = own (lp, q) /\ (forall k, over k (lp, q) = false) /\ xs.*1 = pc_ids q /\
      forall id a, (id, a) ∈ xs -> unsafe_address_resource (rp_pool c) id = Some a) as (Ho & Hov & Hids & Hun).
    { destruct q; try done; cbn in Hx.
      - injection Hx as <-. destruct r as [[id a]|]; cbn; split_and!; try done.
        + intros id0 a0 [= -> ->]%list_elem_of_singleton. apply Hq.
        + by intros id0 a0 ?%not_elem_of_nil.
      - unfold pc_ids. destruct (code =? 0).
        + injection Hx as <-. split_and!; try done. by intros id0 a0 ?%not_elem_of_nil.
        + destruct (unsafe_address_resource (rp_pool c) id) as [a|] eqn:Ha; [|done]. injection Hx as <-.
          split_and!; try done. by intros id0 a0 [= -> ->]%list_elem_of_singleton. }
    apply (move_inv _ _ _ t _ _ _ I Ht); try done.
    + by intros n i [b [=]].
    + rewrite fmap_app, Hids. unfold ids. cbn [fst snd pc_ids]. rewrite app_nil_r, <- app_assoc. apply submseteq_skips_l.
      by rewrite Permutation_app_comm.
    + intros id a [Hin|Hin]%elem_of_app; auto.
Qed.

Lemma run_rp_inv acts n c :
  rp_run acts (rp_start n) = Some c -> rp_inv (rp_pool c) (rp_threads c) (rp_used c).
Proof.
  assert (forall acts c0, rp_inv (rp_pool c0) (rp_threads c0) (rp_used c0) -> rp_run acts c0 = Some c ->
    rp_inv (rp_pool c) (rp_threads c) (rp_used c)) as Hrun.
  { clear acts. induction acts as [|[t a] acts IH]; intros c0 I Hr; cbn in Hr; [by simplify_eq|].
    destruct (rp_fire t a c0) as [c1|] eqn:Hf; [|done]. eauto using fire_rp_inv. }
  apply Hrun, start_rp_inv.
Qed.
End Run.
End Pool.

(** ** Properties *)
Section Properties.
Context (BLOCK_NITEM FREE_NITEM : Z) (HBN : 1 <= BLOCK_NITEM).

Lemma unsafe_inj p ths used id id' a :
  rp_inv BLOCK_NITEM p ths used -> 0 <= id -> 0 <= id' ->
  unsafe_address_resource BLOCK_NITEM p id = Some a -> unsafe_address_resource BLOCK_NITEM p id' = Some a -> id = id'.
Proof.
  intros I Hid Hid'. rewrite !unsafe_block_at.
  destruct (block_at p (id / BLOCK_NITEM)) as [b|] eqn:Hb; [|done].
  destruct (block_at p (id' / BLOCK_NITEM)) as [b'|] eqn:Hb'; [|done]. cbn. intros [= <-] [= -> Heq].
  assert (id / BLOCK_NITEM = id' / BLOCK_NITEM) as Hdiv.
  { apply (rpi_inj _ _ _ _ I _ _ b); [apply Z.div_pos; lia|apply Z.div_pos; lia|done|done]. }
  rewrite Hdiv in Heq. lia.
Qed.

Lemma valid_address p ths used id a :
  rp_inv BLOCK_NITEM p ths used -> valid BLOCK_NITEM p id -> unsafe_address_resource BLOCK_NITEM p id = Some a ->
  address_resource BLOCK_NITEM p id = Some a.
Proof.
  intros I (Hid & b & off & Hu & Hoff) Ha. rewrite Hu in Ha. injection Ha as <-.
  unfold unsafe_address_resource in Hu. unfold address_resource. set (k := Z.shiftr _ _) in *.
  destruct (block_groups p !! Z.to_nat k) as [g|] eqn:Hg; [|done]. cbn [mbind option_bind] in *.
  destruct (g_blocks g _) as [b'|]; [|done]. cbn [mbind option_bind] in *. injection Hu as -> <-.
  assert (0 <= k) by (apply Z.shiftr_nonneg, Z.div_pos; lia).
  apply lookup_lt_Some in Hg. pose proof (rpi_ngroup _ _ _ _ I) as Hn. unfold ngroup in Hn.
  rewrite (proj2 (Z.ltb_lt k RP_MAX_BLOCK_NGROUP)) by lia. by rewrite (proj2 (Z.ltb_lt _ _)).
Qed.

(** The range of [ResourceId::value]: a [uint64_t] holds every identifier of an item. *)
Lemma address_range p id a :
  BLOCK_NITEM <= 2 ^ 32 -> address_resource BLOCK_NITEM p id = Some a -> id < 2 ^ 64.
Proof.
  intros Hmax. unfold address_resource. set (k := Z.shiftr _ _).
  destruct (Z.ltb_spec k RP_MAX_BLOCK_NGROUP) as [Hk|]; [|done]. intros _. subst k. rewrite group_div in Hk. change RP_GROUP_NBLOCK with 65536 in Hk. change RP_MAX_BLOCK_NGROUP with 65536 in Hk.
  pose proof (Z.mod_pos_bound (id / BLOCK_NITEM) 65536 ltac:(lia)). pose proof (Z.div_mod (id / BLOCK_NITEM) 65536 ltac:(lia)).
  pose proof (Z.mod_pos_bound id BLOCK_NITEM ltac:(lia)). pose proof (Z.div_mod id BLOCK_NITEM ltac:(lia)).
  assert (id / BLOCK_NITEM <= 2 ^ 32 - 1) by lia. nia.
Qed.
End Properties.

Lemma pool_sizes max_size max_item size chunk_max :
  1 <= max_item <= 2 ^ 32 -> 1 <= chunk_max -> let n := ResourcePoolBlockItemNum max_size max_item size in
  1 <= n <= 2 ^ 32 /\ 1 <= free_chunk_nitem chunk_max n <= n.
Proof.
  intros Hm Hc. unfold ResourcePoolBlockItemNum, free_chunk_nitem. cbn zeta. repeat case_match; lia.
Qed.

(** C19. However threads take, return and address items, add blocks and groups
    and quit, with failing allocations: the identifiers in use are distinct and
    so are their addresses; [address_resource] gives for each the address it
    was handed out with, and a [uint64_t] holds it; no null pointer is used and
    no access is outside the items of a block, the blocks of a group or the
    identifiers of a chunk.  Blocks have room for 1 to [2 ^ 32] items and chunks
    are allowed at least one; with none, [resource_pool_empty_chunk]. *)
Theorem resource_pool_safe max_size max_item size chunk_max acts n c :
  1 <= max_item <= 2 ^ 32 -> 1 <= chunk_max ->
  let BLOCK_NITEM := ResourcePoolBlockItemNum max_size max_item size in
  rp_run BLOCK_NITEM (free_chunk_nitem chunk_max BLOCK_NITEM) acts (rp_start n) = Some c ->
  NoDup (rp_used c).*1 /\ NoDup (rp_used c).*2 /\
  (forall id a, (id, a) ∈ rp_used c ->
    0 <= id < 2 ^ 64 /\ address_resource BLOCK_NITEM (rp_pool c) id = Some a) /\
  (forall t lp, rp_threads c !! t <> Some (lp, PFault)).
Proof.
  intros Hmi Hcm BLOCK_NITEM Hr. destruct (pool_sizes max_size max_item size chunk_max Hmi Hcm) as ([HB Hmax] & HF).
  fold BLOCK_NITEM in HB, Hmax, HF. pose proof (run_rp_inv _ _ HB HF _ _ _ Hr) as I.
  pose proof (rpi_nodup _ _ _ _ I) as Hd. apply NoDup_app in Hd as [Hd _].
  assert (forall id a, (id, a) ∈ rp_used c -> valid BLOCK_NITEM (rp_pool c) id) as Hv.
  { intros id a Hin. pose proof (rpi_valid _ _ _ _ I) as Hf. rewrite Forall_forall in Hf. apply Hf, elem_of_app. left.
    apply list_elem_of_fmap. by exists (id, a). }
  pose proof (rpi_used _ _ _ _ I) as Hu. split_and!; [done| | |].
  - apply NoDup_fmap_2_strong; [|by eapply NoDup_fmap_1].
    intros [id a] [id' a'] Hin Hin' Heq. cbn in Heq. subst a'. f_equal.
    eapply (unsafe_inj BLOCK_NITEM HB); [exact I|by apply (Hv id a)|by apply (Hv id' a)|by apply Hu|by apply Hu].
  - intros id a Hin. assert (address_resource BLOCK_NITEM (rp_pool c) id = Some a) as Ha.
    { eapply (valid_address BLOCK_NITEM); [done|exact I|by eapply Hv|by apply Hu]. }
    split; [split; [apply (Hv id a Hin)|exact (address_range BLOCK_NITEM HB _ _ _ Hmax Ha)]|done].
  - intros t lp Ht. by destruct (rpi_th _ _ _ _ I t _ Ht) as [_ Hf].
Qed.

(** When the chunk of free identifiers may hold none, as a specialisation
    of [ResourcePoolFreeChunkMaxItem] can say, [return_resource] pushes an empty
    chunk, and the [get_resource] that pops it reads [ids] at index 2^64 - 1. *)
Theorem resource_pool_empty_chunk :
  exists acts c lp, rp_run (ResourcePoolBlockItemNum 65536 256 16384) (free_chunk_nitem 0 4) acts (rp_start 1) = Some c /\
    rp_threads c !! 0%nat = Some (lp, PFault).
Proof.
  exists ((0%nat, CallGet) :: replicate 12 (0%nat, Step true) ++ [(0%nat, Finish); (0%nat, CallReturn 0)] ++
    replicate 3 (0%nat, Step true) ++ [(0%nat, Finish); (0%nat, CallGet)] ++ replicate 2 (0%nat, Step true) ++
    [(0%nat, Finish); (0%nat, CallGet)] ++ replicate 5 (0%nat, Step true)).
  eexists _, _. split; [vm_compute; reflexivity|]. by vm_compute.
Qed.

(** ** A concrete run *)

(** Two threads take an item each, the first one from a new group. *)
Definition two_gets : list (nat * rp_action) :=
  (0%nat, CallGet) :: replicate 12 (0%nat, Step true) ++ (0%nat, Finish) ::
  (1%nat, CallGet) :: replicate 10 (1%nat, Step true) ++ [(1%nat, Finish)].

Lemma resource_pool_safe_witness :
  exists c, rp_run 4 2 two_gets (rp_start 2) = Some c /\ rp_used c = [(0, (0%nat, 0)); (4, (1%nat, 0))] /\
    address_resource 4 (rp_pool c) 4 = Some (1%nat, 0).
Proof.
  assert (exists c, rp_run 4 2 two_gets (rp_start 2) = Some c /\ rp_used c = [(0, (0%nat, 0)); (4, (1%nat, 0))])
    as (c & Hr & Hu) by (eexists; split; [vm_compute; reflexivity|done]).
  exists c. split; [done|]. split; [done|].
  destruct (resource_pool_safe 65536 256 16384 2 two_gets 2 c) as (_ & _ & Ha & _); [lia|lia|done|].
  apply (Ha 4 (1%nat, 0)). rewrite Hu. right. by left.
Defined.
