(* ===== verification/Series.v ===== *)
(** * History of a variable (libsh/bvar/detail/series.h)

    A [Series] keeps the last 60 values of a variable, one per second, and the
    averages of the last 60 minutes, 24 hours and 30 days in one array; it is
    printed as the points of a plot, a [Series] of vectors as one plot for each
    component.  Calls hold the mutex of the series, so they are modelled one
    after the other; [describe] is given the counters it saw under the mutex. *)

From Stdlib Require Import ZArith Lia Ascii String.
From Stdlib Require Import SpecFloat.
From stdpp Require Import base list.
From S2P Require Import Prelude Numerics Text Splitter.

Open Scope Z_scope.

(** What the code asks of the type of the values. *)
Class Sample (T : Type) : Type := {
  sample_zero : T;
  sample_of_int : Z -> T;
  sample_eqb : T -> T -> bool;
  sample_divide : T -> Z -> T
}.

(** ** Integers: [(T)round(obj / (double)number)]

    An IEEE double has 53 bits of precision; [round] takes halves away from
    zero. *)

Definition to_double (z : Z) : spec_float := binary_normalize 53 1024 z 0 false.

Definition round (x : spec_float) : Z :=
  match x with
  | S754_finite s m e =>
      let v := if 0 <=? e then Zpos m * 2 ^ e else (2 * Zpos m + 2 ^ (- e)) / (2 * 2 ^ (- e)) in
      if s then - v else v
  | _ => 0
  end.

Definition integral_divide (T : ity) (obj number : Z) : Z :=
  cast T (round (SFdiv 53 1024 (to_double obj) (to_double number))).

Definition Sample_integral (T : ity) : Sample Z :=
  {| sample_zero := 0; sample_of_int := cast T; sample_eqb := Z.eqb; sample_divide := integral_divide T |}.

(** ** [Vector<T, N>] *)

Definition Sample_Vector (N : nat) {T} `{!Sample T} : Sample (list T) :=
  {| sample_zero := replicate N sample_zero;
     sample_of_int z := replicate N (sample_of_int z);
     sample_eqb u v := forallb (fun p => sample_eqb p.1 p.2) (zip u v);
     sample_divide v n := (fun x => sample_divide x n) <$> v |}.

(** A store into an array. *)
Definition array_set {A} (v : list A) (i : Z) (x : A) : outcome (list A) :=
  if (0 <=? i) && (i <? vec_size v) then Ok (<[Z.to_nat i := x]> v) else Fault OutOfRange.

Section Series.
Context {T : Type} `{!Sample T} (op : T -> T -> T).

Definition ProbablyAddtition : bool := sample_eqb (op (sample_of_int 32) (sample_of_int 64)) (sample_of_int 96).

Definition inplace_divide (obj : T) (number : Z) : T :=
  if ProbablyAddtition then sample_divide obj number else obj.

Record SeriesBase : Type := mkSeries {
  nsecond : Z;
  nminute : Z;
  nhour : Z;
  nday : Z;
  data : list T
}.

Definition SeriesBase_ctor : SeriesBase := mkSeries 0 0 0 0 (replicate (60 + 60 + 24 + 30) sample_zero).

Definition second (index : Z) : Z := index.
Definition minute (index : Z) : Z := 60 + index.
Definition hour (index : Z) : Z := 120 + index.
Definition day (index : Z) : Z := 144 + index.

(** [tmp = first; for (i = 1; i < n; ++i) op(tmp, at(i))], then the division. *)
Definition summary (d : list T) (place : Z -> Z) (n : Z) : outcome T :=
  tmp ← vec_at d (place 0);
  tmp ← for_from (Z.to_nat (n - 1)) 1 (fun i tmp => x ← vec_at d (place i); Ok (op tmp x)) tmp;
  Ok (inplace_divide tmp n).

Definition append_day (s : SeriesBase) (value : T) : outcome SeriesBase :=
  d ← array_set (data s) (day (nday s)) value;
  let n := cast int8 (nday s + 1) in
  Ok (mkSeries (nsecond s) (nminute s) (nhour s) (if 30 <=? n then 0 else n) d).

Definition append_hour (s : SeriesBase) (value : T) : outcome SeriesBase :=
  d ← array_set (data s) (hour (nhour s)) value;
  let n := cast int8 (nhour s + 1) in
  if 24 <=? n then
    tmp ← summary d hour 24;
    append_day (mkSeries (nsecond s) (nminute s) 0 (nday s) d) tmp
  else Ok (mkSeries (nsecond s) (nminute s) n (nday s) d).

Definition append_minute (s : SeriesBase) (value : T) : outcome SeriesBase :=
  d ← array_set (data s) (minute (nminute s)) value;
  let n := cast int8 (nminute s + 1) in
  if 60 <=? n then
    tmp ← summary d minute 60;
    append_hour (mkSeries (nsecond s) 0 (nhour s) (nday s) d) tmp
  else Ok (mkSeries (nsecond s) n (nhour s) (nday s) d).

Definition append_second (s : SeriesBase) (value : T) : outcome SeriesBase :=
  d ← array_set (data s) (second (nsecond s)) value;
  let n := cast int8 (nsecond s + 1) in
  if 60 <=? n then
    tmp ← summary d second 60;
    append_minute (mkSeries 0 (nminute s) (nhour s) (nday s) d) tmp
  else Ok (mkSeries n (nminute s) (nhour s) (nday s) d).

Definition append (s : SeriesBase) (value : T) : outcome SeriesBase := append_second s value.

Fixpoint append_all (s : SeriesBase) (values : list T) : outcome SeriesBase :=
  match values with
  | [] => Ok s
  | v :: values => s ← append s v; append_all s values
  end.

(** ** Output *)

Section Plot.
Context {A : Type} (at_component : T -> outcome A) (show : A -> str).

Definition quote : str := [ascii_of_nat 34].

Definition entry (c : Z) (x : A) : str :=
  (if c =? 0 then [] else lit ",") ++ lit "[" ++ numeral 10 c ++ lit "," ++ show x ++ lit "]".

(** One loop of [describe]: the [n] values that start at [place(begin)]. *)
Definition plot (d : list T) (place : Z -> Z) (n begin : Z) (st : str * Z) : outcome (str * Z) :=
  for_ n (fun i '(os, c) =>
    v ← vec_at d (place ((i + begin) mod n));
    x ← at_component v;
    Ok (os ++ entry c x, c + 1)) st.

(** The four loops, with the counters seen and the array read. *)
Definition plots (s : SeriesBase) (d : list T) (os : str) : outcome str :=
  st ← plot d day 30 (nday s) (os, 0);
  st ← plot d hour 24 (nhour s) st;
  st ← plot d minute 60 (nminute s) st;
  st ← plot d second 60 (nsecond s) st;
  Ok (fst st).
End Plot.

Definition describe (show : T -> str) (s : SeriesBase) : outcome str :=
  os ← plots (@Ok T) show s (data s)
    (lit "{" ++ quote ++ lit "label" ++ quote ++ lit ":" ++ quote ++ lit "trend" ++ quote ++ lit "," ++
     quote ++ lit "data" ++ quote ++ lit ":[");
  Ok (os ++ lit "]}").
End Series.
Arguments SeriesBase : clear implicits.

(** ** A series of vectors, with names *)

Definition chars (l : list Z) : str := (fun z => ascii_of_nat (Z.to_nat (z mod 256))) <$> l.

Section Vector.
Context {T : Type} `{!Sample T} (show : T -> str).

(** The memory of the names ends with their terminator; without names it is an
    empty text. *)
Definition describe_row (s : SeriesBase (list T)) (names : list Z) (j : Z) (st : str * StringSplitter) :
    outcome (str * StringSplitter) :=
  let '(os, sp) := st in
  let os := os ++ (if j =? 0 then [] else lit ",") ++ lit "{" ++ quote ++ lit "label" ++ quote ++ lit ":" ++ quote in
  v ← Splitter_valid names sp;
  st ← match v with
       | Some _ =>
           sp' ← Splitter_next names sp;
           Ok (os ++ chars (field_bytes names Splitter_field Splitter_length sp), sp')
       | None => Ok (os ++ lit "Vector[" ++ numeral 10 j ++ lit "]", sp)
       end;
  let '(os, sp) := st in
  os ← plots (fun v => vec_at v j) show s (data s) (os ++ quote ++ lit "," ++ quote ++ lit "data" ++ quote ++ lit ":[");
  Ok (os ++ lit "]}", sp).

Definition describe_vector (N : Z) (s : SeriesBase (list T)) (vector_names : option (list Z)) : outcome str :=
  let names := default [] vector_names ++ [0] in
  sp ← StringSplitter_str names (Some 0) 44 SKIP_EMPTY_FIELD;
  st ← for_ N (describe_row s names) (lit "[", sp);
  Ok (fst st ++ lit "]").
End Vector.

(** * Properties *)

(** ** What the plot shows of a history *)

Section History.
Context {T : Type} `{!Sample T} (op : T -> T -> T).

(** The last [n] values, the oldest first, with zeros for those not there. *)
Definition shown (n : nat) (l : list T) : list T := drop (length l) (replicate n sample_zero ++ l).

(** The values of a period in one. *)
Definition reduce (l : list T) : T :=
  match l with
  | [] => sample_zero
  | x :: l => inplace_divide op (fold_left op l x) (vec_size (x :: l))
  end.

(** One value for every complete period of [n]. *)
Definition summaries (n : nat) (l : list T) : list T :=
  (fun k => reduce (take n (drop (n * k) l))) <$> seq 0 (length l / n).

Definition minutes (l : list T) : list T := summaries 60 l.
Definition hours (l : list T) : list T := summaries 60 (minutes l).
Definition days (l : list T) : list T := summaries 24 (hours l).

(** The points of the plot: days, hours, minutes and seconds. *)
Definition points (l : list T) : list T :=
  shown 30 (days l) ++ shown 24 (hours l) ++ shown 60 (minutes l) ++ shown 60 l.

Lemma shown_length n l : length (shown n l) = n.
Proof. unfold shown. rewrite length_drop, length_app, length_replicate. lia. Qed.

Lemma shown_snoc n l x : (0 < n)%nat -> shown n (l ++ [x]) = drop 1 (shown n l) ++ [x].
Proof.
  intros Hn. unfold shown. rewrite drop_drop, length_app, app_assoc. cbn [length].
  apply drop_app_le. rewrite length_app, length_replicate. lia.
Qed.

Lemma shown_full n l : (n <= length l)%nat -> shown n l = drop (length l - n) l.
Proof.
  intros Hn. unfold shown. rewrite drop_app_ge by (rewrite length_replicate; lia). by rewrite length_replicate.
Qed.

Lemma summaries_snoc n l x : (0 < n)%nat ->
  summaries n (l ++ [x]) =
  summaries n l ++ (if decide ((length l + 1) mod n = 0)%nat then [reduce (shown n (l ++ [x]))] else []).
Proof.
  intros Hn. unfold summaries. rewrite length_app. cbn [length].
  assert (forall k, (k < length l / n)%nat -> take n (drop (n * k) (l ++ [x])) = take n (drop (n * k) l)) as Hold.
  { intros k Hk. pose proof (Nat.Div0.mul_div_le (length l) n).
    assert (n * k + n <= length l)%nat by nia. rewrite drop_app_le, take_app_le by (rewrite ?length_drop; lia). done. }
  assert ((fun k => reduce (take n (drop (n * k) (l ++ [x])))) <$> seq 0 (length l / n) =
          (fun k => reduce (take n (drop (n * k) l))) <$> seq 0 (length l / n)) as Hsame.
  { apply list_fmap_ext. intros i k Hk. apply lookup_seq in Hk as [-> Hk]. by rewrite Hold by lia. }
  pose proof (Nat.div_mod_eq (length l) n). pose proof (Nat.div_mod_eq (length l + 1) n).
  pose proof (Nat.mod_upper_bound (length l) n ltac:(lia)). pose proof (Nat.mod_upper_bound (length l + 1) n ltac:(lia)).
  case_decide as Hd.
  - assert ((length l + 1) / n = S (length l / n))%nat as Hq by nia. rewrite Hq in *. rewrite seq_S, fmap_app, Hsame. cbn. do 3 f_equal.
    assert (n * (length l / n) = length l + 1 - n)%nat as -> by nia.
    rewrite shown_full by (rewrite length_app; cbn; nia). rewrite length_app. cbn [length].
    apply take_ge. rewrite length_drop, length_app. cbn. nia.
  - assert ((length l + 1) / n = length l / n)%nat as -> by nia. by rewrite Hsame, app_nil_r.
Qed.
End History.

(** ** Rings in the array *)

Section Rings.
Context {T : Type} `{!Sample T} (op : T -> T -> T).

(** The [n] places from [off] on hold what is shown of [l], the oldest value at
    the place that is written next. *)
Definition ring (off n : nat) (d l : list T) : Prop :=
  forall i, (i < n)%nat -> d !! (off + (i + length l) mod n)%nat = shown n l !! i.

Lemma mod_apart n a i : (0 < i < n)%nat -> ((i + a) mod n <> a mod n)%nat.
Proof.
  intros Hi E. pose proof (Nat.div_mod_eq (i + a) n) as H. pose proof (Nat.div_mod_eq a n). rewrite E in H.
  destruct (Nat.le_gt_cases ((i + a) / n) (a / n)); nia.
Qed.

Lemma ring_set off n d l x : (0 < n)%nat -> (off + n <= length d)%nat -> ring off n d l ->
  ring off n (<[(off + length l mod n)%nat := x]> d) (l ++ [x]).
Proof.
  intros Hn Hd Hr i Hi. rewrite shown_snoc, length_app by done. cbn [length].
  pose proof (Nat.mod_upper_bound (length l) n ltac:(lia)).
  destruct (decide (i = n - 1)%nat) as [->|Hlast].
  - replace (n - 1 + (length l + 1))%nat with (length l + 1 * n)%nat by lia. rewrite Nat.Div0.mod_add.
    rewrite list_lookup_insert_eq by lia. rewrite lookup_app_r by (rewrite length_drop, shown_length; lia).
    by rewrite length_drop, shown_length, Nat.sub_diag.
  - replace (i + (length l + 1))%nat with (S i + length l)%nat by lia.
    pose proof (mod_apart n (length l) (S i) ltac:(lia)).
    rewrite list_lookup_insert_ne, Hr by lia. rewrite lookup_app_l by (rewrite length_drop, shown_length; lia).
    by rewrite lookup_drop.
Qed.

Lemma ring_other off n d l j x : (0 < n)%nat -> (j < off \/ off + n <= j)%nat -> ring off n d l -> ring off n (<[j := x]> d) l.
Proof.
  intros Hn Hj Hr i Hi. pose proof (Nat.mod_upper_bound (i + length l) n ltac:(lia)).
  rewrite list_lookup_insert_ne by lia. by apply Hr.
Qed.

Lemma ring_start off n d : (forall i, (i < n)%nat -> d !! (off + i)%nat = Some sample_zero) -> ring off n d [].
Proof.
  unfold ring, shown. cbn [length]. intros H i Hi.
  rewrite drop_0, app_nil_r, Nat.add_0_r, Nat.mod_small, lookup_replicate_2 by lia. by apply H.
Qed.

(** A complete period lies in its order. *)
Lemma ring_full off n d l i : (i < n)%nat -> (length l mod n = 0)%nat -> ring off n d l -> d !! (off + i)%nat = shown n l !! i.
Proof.
  intros Hi Hl Hr. rewrite <- Hr by done. f_equal. f_equal.
  rewrite Nat.Div0.add_mod, Hl, Nat.add_0_r, Nat.Div0.mod_mod. by rewrite Nat.mod_small.
Qed.

Lemma op_loop d (place : Z -> Z) l : forall i x,
  (forall k y, l !! k = Some y -> vec_at d (place (i + Z.of_nat k)) = Ok y) ->
  for_from (length l) i (fun i tmp => x ← vec_at d (place i); Ok (op tmp x)) x = Ok (fold_left op l x).
Proof.
  induction l as [|y l IH]; intros i x H; [done|]. cbn [length for_from fold_left].
  pose proof (H 0%nat y eq_refl) as H0. rewrite Z.add_0_r in H0. rewrite H0. cbn. apply IH.
  intros k z Hk. rewrite <- (H (S k) z Hk). do 2 f_equal. lia.
Qed.

Lemma summary_spec off n d (place : Z -> Z) l :
  (forall i, place i = Z.of_nat off + i) -> (0 < n)%nat -> (length l mod n = 0)%nat -> ring off n d l ->
  summary op d place (Z.of_nat n) = Ok (reduce op (shown n l)).
Proof.
  intros Hp Hn Hl Hr. pose proof (shown_length n l) as Hlen.
  assert (forall i y, shown n l !! i = Some y -> vec_at d (place (Z.of_nat i)) = Ok y) as Hat.
  { intros i y Hi. pose proof (lookup_lt_Some _ _ _ Hi). rewrite Hp. apply vec_at_some; [lia|].
    rewrite <- Hi, <- (ring_full off n d l i) by (done || lia). f_equal. lia. }
  destruct (shown n l) as [|x rest]; [cbn in Hlen; lia|]. unfold summary. rewrite (Hat 0%nat x eq_refl : vec_at d (place 0) = _).
  cbn [mbind outcome_bind]. replace (Z.to_nat (Z.of_nat n - 1)) with (length rest) by (cbn in Hlen; lia).
  rewrite op_loop.
  - cbn [mbind outcome_bind reduce]. unfold vec_size. by rewrite Hlen.
  - intros k y Hk. rewrite <- (Hat (S k) y Hk). do 2 f_equal. lia.
Qed.

(** ** Invariant *)

Record series_ok (s : SeriesBase T) (secs mins hrs dys : list T) : Prop := mkSeriesOk {
  so_data : length (data s) = 174%nat;
  so_second : nsecond s = Z.of_nat (length secs mod 60);
  so_minute : nminute s = Z.of_nat (length mins mod 60);
  so_hour : nhour s = Z.of_nat (length hrs mod 24);
  so_day : nday s = Z.of_nat (length dys mod 30);
  so_seconds : ring 0 60 (data s) secs;
  so_minutes : ring 60 60 (data s) mins;
  so_hours : ring 120 24 (data s) hrs;
  so_days : ring 144 30 (data s) dys
}.

Lemma series_start : series_ok SeriesBase_ctor [] [] [] [].
Proof.
  constructor; try done; apply ring_start; intros i Hi; cbn [SeriesBase_ctor data]; apply lookup_replicate_2; lia.
Qed.

Lemma mod_next n k : (0 < n)%nat -> ((k + 1) mod n = if decide (k mod n + 1 = n) then 0 else k mod n + 1)%nat.
Proof.
  intros Hn. pose proof (Nat.mod_upper_bound k n ltac:(lia)). pose proof (Nat.div_mod_eq k n). case_decide.
  - symmetry. apply (Nat.mod_unique _ _ (k / n + 1)); lia.
  - symmetry. apply (Nat.mod_unique _ _ (k / n)); lia.
Qed.

Lemma count_next n k : (0 < n <= 60)%nat ->
  cast int8 (Z.of_nat (k mod n) + 1) = Z.of_nat (k mod n) + 1 /\
  (Z.of_nat n <=? Z.of_nat (k mod n) + 1) = bool_decide ((k + 1) mod n = 0)%nat /\
  (((k + 1) mod n <> 0)%nat -> Z.of_nat (k mod n) + 1 = Z.of_nat ((k + 1) mod n)).
Proof.
  intros Hn. pose proof (Nat.mod_upper_bound k n ltac:(lia)). rewrite mod_next by lia. split_and!.
  - unfold cast. cbn [is_signed int8]. change (2 ^ (bits int8 - 1)) with 128. change (2 ^ bits int8) with 256.
    rewrite Z.mod_small by lia. lia.
  - case_decide; case_bool_decide; first [apply Z.leb_le; lia|apply Z.leb_gt; lia|lia].
  - case_decide; lia.
Qed.

(** ** Appending *)

Lemma array_set_ok (d : list T) off k x : (off + k < length d)%nat ->
  array_set d (Z.of_nat off + Z.of_nat k) x = Ok (<[(off + k)%nat := x]> d).
Proof.
  intros Hd. unfold array_set, vec_size. rewrite (proj2 (Z.leb_le 0 _)), (proj2 (Z.ltb_lt _ _)) by lia. cbn.
  do 2 f_equal. lia.
Qed.

(** The value of the period that the values [new], one or none, complete. *)
Definition completed (n : nat) (l new : list T) : list T :=
  match new with
  | [] => []
  | _ => if decide (length (l ++ new) mod n = 0)%nat then [reduce op (shown n (l ++ new))] else []
  end.

Lemma summaries_completed n l new : (0 < n)%nat -> (length new <= 1)%nat ->
  summaries op n (l ++ new) = summaries op n l ++ completed n l new.
Proof.
  intros Hn Hnew. destruct new as [|x [|]]; [by rewrite !app_nil_r| |cbn in Hnew; lia].
  rewrite summaries_snoc by done. unfold completed. by rewrite length_app.
Qed.

Lemma completed_length n l new : (length (completed n l new) <= 1)%nat.
Proof. unfold completed. destruct new; [cbn; lia|]. case_decide; cbn; lia. Qed.

(** A write at one level, and what is known of the four rings then. *)
Ltac write_level off n k :=
  rewrite (array_set_ok _ off (k mod n)) by (pose proof (Nat.mod_upper_bound k n ltac:(lia)); lia);
  destruct (count_next n k ltac:(lia)) as (-> & Hle & Hcount);
  pose proof (Nat.mod_upper_bound k n ltac:(lia)).

Ltac rings := constructor; cbn [data nsecond nminute nhour nday];
  first [done | rewrite length_insert; done | apply (ring_set _); [lia|lia|done] | apply ring_other; [lia|lia|done] | idtac].

Lemma append_day_ok s a b c d v : series_ok s a b c d ->
  exists s', append_day s v = Ok s' /\ series_ok s' a b c (d ++ [v]).
Proof.
  intros [Hl Ha Hb Hc Hd Ra Rb Rc Rd]. unfold append_day, day. rewrite Hd. change 144 with (Z.of_nat 144).
  write_level 144%nat 30%nat (length d). change 30 with (Z.of_nat 30). rewrite Hle. cbn [mbind outcome_bind].
  eexists. split; [reflexivity|]. rings. rewrite length_app. cbn [length].
  case_bool_decide as E; [by rewrite E|by apply Hcount].
Qed.

(** The branches of a level below the days: the period goes on, or is completed
    and handed to the next level. *)
Ltac next_level off n next Hle Hcount := cbn [mbind outcome_bind]; rewrite Hle;
  match goal with |- context [bool_decide ((length ?l + 1) mod _ = 0)%nat] =>
    let E := fresh in case_bool_decide as E;
    [ match goal with v : T |- _ =>
        erewrite (summary_spec off n _ _ (l ++ [v]));
        [|reflexivity|lia|by rewrite length_app|by apply ring_set; [lia|lia|]] end;
      unfold completed; rewrite length_app, decide_True by done;
      cbn [mbind outcome_bind]; apply next; rings; rewrite length_app; cbn [length]; by rewrite E
    | unfold completed; rewrite length_app, decide_False, ?app_nil_r by done; eexists; split; [reflexivity|]; rings;
      rewrite length_app; by apply Hcount ] end.

Lemma append_hour_ok s a b c d v : series_ok s a b c d ->
  exists s', append_hour op s v = Ok s' /\ series_ok s' a b (c ++ [v]) (d ++ completed 24 c [v]).
Proof.
  intros [Hl Ha Hb Hc Hd Ra Rb Rc Rd]. unfold append_hour, hour. rewrite Hc. change 120 with (Z.of_nat 120).
  write_level 120%nat 24%nat (length c). change 24 with (Z.of_nat 24). next_level 120%nat 24%nat append_day_ok Hle Hcount.
Qed.

Lemma append_minute_ok s a b c d v : series_ok s a b c d ->
  exists s', append_minute op s v = Ok s' /\
    let c' := completed 60 b [v] in series_ok s' a (b ++ [v]) (c ++ c') (d ++ completed 24 c c').
Proof.
  intros [Hl Ha Hb Hc Hd Ra Rb Rc Rd]. unfold append_minute, minute. rewrite Hb. change 60 with (Z.of_nat 60).
  write_level 60%nat 60%nat (length b). next_level 60%nat 60%nat append_hour_ok Hle Hcount.
Qed.

Lemma append_second_ok s a b c d v : series_ok s a b c d ->
  exists s', append_second op s v = Ok s' /\
    let b' := completed 60 a [v] in let c' := completed 60 b b' in
    series_ok s' (a ++ [v]) (b ++ b') (c ++ c') (d ++ completed 24 c c').
Proof.
  intros [Hl Ha Hb Hc Hd Ra Rb Rc Rd]. unfold append_second. rewrite Ha.
  change (second (Z.of_nat (length a mod 60))) with (Z.of_nat 0 + Z.of_nat (length a mod 60)). change 60 with (Z.of_nat 60).
  write_level 0%nat 60%nat (length a). next_level 0%nat 60%nat append_minute_ok Hle Hcount.
Qed.

(** The whole history. *)
Lemma append_all_ok values : forall s hist, series_ok s hist (minutes op hist) (hours op hist) (days op hist) ->
  exists s', append_all op s values = Ok s' /\ let hist' := hist ++ values in
    series_ok s' hist' (minutes op hist') (hours op hist') (days op hist').
Proof.
  induction values as [|v values IH]; intros s hist Hs; cbn [append_all]; [exists s; by rewrite app_nil_r|].
  destruct (append_second_ok s _ _ _ _ v Hs) as (s1 & Hr & H1). unfold append. rewrite Hr. cbn [mbind outcome_bind].
  destruct (IH s1 (hist ++ [v])) as (s2 & H2 & H3); [|exists s2; by rewrite <- app_assoc in H3].
  unfold days, hours, minutes in *. cbv zeta in H1.
  rewrite (summaries_completed 60 hist [v]) by (cbn; lia).
  rewrite (summaries_completed 60) by (apply completed_length || lia).
  by rewrite (summaries_completed 24) by (apply completed_length || lia).
Qed.
End Rings.

(** ** The output *)

Section Output.
Context {T : Type} `{!Sample T} (op : T -> T -> T).
Context {A : Type} (component : T -> outcome A) (show : A -> str) (get : T -> A) (fits : T -> Prop).
Hypothesis Hget : forall v, fits v -> component v = Ok (get v).

Fixpoint entries (c : Z) (l : list A) : str :=
  match l with
  | [] => []
  | x :: l => entry show c x ++ entries (c + 1) l
  end.

Lemma entries_app l k : forall c, entries c (l ++ k) = entries c l ++ entries (c + vec_size l) k.
Proof.
  induction l as [|x l IH]; intros c; cbn [entries app]; [unfold vec_size; cbn; by rewrite Z.add_0_r|].
  rewrite IH, app_assoc. do 2 f_equal. unfold vec_size. cbn [length]. lia.
Qed.

Lemma plot_loop d (at_ : Z -> Z) l : forall i os c,
  Forall fits l -> (forall k v, l !! k = Some v -> vec_at d (at_ (i + Z.of_nat k)) = Ok v) ->
  for_from (length l) i (fun i '(os, c) =>
    v ← vec_at d (at_ i); x ← component v; Ok (os ++ entry show c x, c + 1)) (os, c)
  = Ok (os ++ entries c (get <$> l), c + vec_size l).
Proof.
  induction l as [|v l IH]; intros i os c Hf H.
  { unfold vec_size. cbn. by rewrite app_nil_r, Z.add_0_r. }
  apply Forall_cons in Hf as [Hv Hf]. cbn [length for_from].
  pose proof (H 0%nat v eq_refl) as H0. rewrite Z.add_0_r in H0. rewrite H0. cbn [mbind outcome_bind].
  rewrite (Hget v Hv). cbn [mbind outcome_bind]. rewrite IH; [|done|].
  - cbn [fmap list_fmap entries]. rewrite <- app_assoc. do 2 f_equal. unfold vec_size. cbn [length]. lia.
  - intros k w Hk. rewrite <- (H (S k) w Hk). do 2 f_equal. lia.
Qed.

Lemma plot_spec off n d (place : Z -> Z) l os c :
  (forall i, place i = Z.of_nat off + i) -> (0 < n)%nat -> ring off n d l -> Forall fits (shown n l) ->
  plot component show d place (Z.of_nat n) (Z.of_nat (length l mod n)) (os, c)
  = Ok (os ++ entries c (get <$> shown n l), c + Z.of_nat n).
Proof.
  intros Hp Hn Hr Hf. unfold plot, for_. rewrite Nat2Z.id. rewrite <- (shown_length n l) at 1.
  rewrite (plot_loop d (fun i => place ((i + Z.of_nat (length l mod n)) mod Z.of_nat n)) (shown n l)); [|done|].
  - unfold vec_size. by rewrite shown_length.
  - intros k v Hk. pose proof (lookup_lt_Some _ _ _ Hk) as Hlt. rewrite shown_length in Hlt.
    rewrite Hp, Z.add_0_l, <- Nat2Z.inj_add, <- Nat2Z.inj_mod, Nat.Div0.add_mod_idemp_r. apply vec_at_some; [lia|].
    rewrite <- Hk, <- Hr by done. f_equal. lia.
Qed.

Lemma plots_spec s hist os : series_ok s hist (minutes op hist) (hours op hist) (days op hist) ->
  Forall fits (points op hist) -> plots component show s (data s) os = Ok (os ++ entries 0 (get <$> points op hist)).
Proof.
  intros [Hl Ha Hb Hc Hd Ra Rb Rc Rd] Hf. unfold points in *. rewrite !Forall_app in Hf. destruct Hf as (Fd & Fc & Fb & Fa).
  unfold plots. rewrite Ha, Hb, Hc, Hd.
  rewrite (plot_spec 144 30 _ day) by (done || lia). cbn [mbind outcome_bind].
  rewrite (plot_spec 120 24 _ hour) by (done || lia). cbn [mbind outcome_bind].
  rewrite (plot_spec 60 60 _ minute) by (done || lia). cbn [mbind outcome_bind].
  rewrite (plot_spec 0 60 _ second) by (done || lia). cbn [mbind outcome_bind fst].
  rewrite !fmap_app, !entries_app, !app_assoc. unfold vec_size. by rewrite !length_fmap, !shown_length.
Qed.
End Output.

Definition trend_head : str :=
  lit "{" ++ quote ++ lit "label" ++ quote ++ lit ":" ++ quote ++ lit "trend" ++ quote ++ lit "," ++
  quote ++ lit "data" ++ quote ++ lit ":[".

(** C20. After any number of values were appended to a new series, no access was
    out of the array and the plot shows, in this order, the last 30 days, 24
    hours, 60 minutes and 60 seconds of the history, oldest first and padded
    with zeros: a minute is the reduction of 60 values by the operator, an hour
    of 60 minutes, a day of 24 hours, averaged when the operator adds. *)
Theorem series_refines {T} `{!Sample T} (op : T -> T -> T) (show : T -> str) hist :
  exists s, append_all op SeriesBase_ctor hist = Ok s /\
    describe show s = Ok (trend_head ++ entries show 0 (points op hist) ++ lit "]}").
Proof.
  destruct (append_all_ok op hist SeriesBase_ctor []) as (s & Hr & Hs); [apply series_start|].
  exists s. split; [done|]. unfold describe. rewrite app_nil_l in Hs. fold trend_head.
  rewrite (plots_spec op Ok show id (fun _ => True) ltac:(done) s hist trend_head Hs) by (by apply Forall_true).
  cbn [mbind outcome_bind]. by rewrite list_fmap_id, <- app_assoc.
Qed.

(** ** Vectors *)

(** What holds of zero and of every value, and is kept by the operator and the
    division, holds of every point. *)
Section Closed.
Context {T : Type} `{!Sample T} (op : T -> T -> T) (P : T -> Prop).
Hypothesis Hzero : P sample_zero.
Hypothesis Hop : forall x y, P x -> P y -> P (op x y).
Hypothesis Hdiv : forall x n, P x -> P (sample_divide x n).

Lemma shown_closed n l : Forall P l -> Forall P (shown n l).
Proof. intros Hl. unfold shown. apply Forall_drop, Forall_app. split; [by apply Forall_replicate|done]. Qed.

Lemma reduce_closed l : Forall P l -> P (reduce op l).
Proof.
  intros Hl. destruct Hl as [|x l Hx Hl]; [done|]. cbn [reduce]. unfold inplace_divide.
  assert (P (fold_left op l x)) by (revert x Hx; induction Hl; intros; cbn; auto). case_match; auto.
Qed.

Lemma summaries_closed n l : Forall P l -> Forall P (summaries op n l).
Proof. intros Hl. apply Forall_fmap, Forall_true. intros k. by apply reduce_closed, Forall_take, Forall_drop. Qed.

Lemma points_closed l : Forall P l -> Forall P (points op l).
Proof.
  intros Hl. unfold points, days, hours, minutes. rewrite !Forall_app.
  split_and!; apply shown_closed; repeat apply summaries_closed; done.
Qed.
End Closed.

Section Rows.
Context {T : Type} `{!Sample T} (show : T -> str) (N : nat).
#[local] Instance vector_sample : Sample (list T) := Sample_Vector N.
Context (op : list T -> list T -> list T) (hist : list (list T)).

Definition coordinate (j : Z) (v : list T) : T := default sample_zero (v !! Z.to_nat j).

(** The plot of one component, under its name. *)
Definition row (j : Z) (label : str) : str :=
  (if j =? 0 then [] else lit ",") ++ lit "{" ++ quote ++ lit "label" ++ quote ++ lit ":" ++ quote ++ label ++ quote ++
  lit "," ++ quote ++ lit "data" ++ quote ++ lit ":[" ++ entries show 0 (coordinate j <$> points op hist) ++ lit "]}".

(** The plots of [k] components from [j] on, with the names left. *)
Fixpoint rows (j : Z) (k : nat) (names : list (list Z)) : str :=
  match k with
  | O => []
  | S k => row j (match names with f :: _ => chars f | [] => lit "Vector[" ++ numeral 10 j ++ lit "]" end)
           ++ rows (j + 1) k (tail names)
  end.

Context (Hop : forall u v, length u = N -> length v = N -> length (op u v) = N).
Context (Hhist : Forall (fun v => length v = N) hist).

Lemma points_length : Forall (fun v => length v = N) (points op hist).
Proof.
  apply points_closed; [apply length_replicate|done| |done].
  intros x n Hx. cbn. by rewrite length_fmap.
Qed.

Lemma coordinate_ok j v : 0 <= j < Z.of_nat N -> length v = N -> vec_at v j = Ok (coordinate j v).
Proof.
  intros Hj Hv. destruct (vec_at_in_range v j) as (x & Hx & ->); [unfold vec_size; lia|].
  unfold coordinate. by rewrite Hx.
Qed.

Context (s : SeriesBase (list T)).
Context (Hs : series_ok s hist (minutes op hist) (hours op hist) (days op hist)).
Context (mem : list Z) (e : Z) (Htext : text mem None 0 e).

Local Notation at_ h t := (mkSplitter (Some h) (Some t) None 44 SKIP_EMPTY_FIELD).
Local Notation left h := (fields (fun c => 44 =? c) SKIP_EMPTY_FIELD (from mem e h)).
Local Notation at_name := (at_field mem 0 e (fun c => 44 =? c) SKIP_EMPTY_FIELD).

Lemma describe_row_ok j os h t : 0 <= j < Z.of_nat N -> at_name h t ->
  exists h' t', describe_row show s mem j (os, at_ h t) = Ok (os ++ rows j 1 (left h), at_ h' t')
    /\ at_name h' t' /\ left h' = tail (left h).
Proof.
  intros Hj Ha. pose proof (proj1 Ha) as Hh. unfold describe_row, Splitter_valid, valid_at. cbn [s_head s_str_tail].
  rewrite (not_end_spec mem None 0 e Htext) by lia. cbn [mbind outcome_bind].
  assert (forall os, plots (fun v => vec_at v j) show s (data s) os =
    Ok (os ++ entries show 0 (coordinate j <$> points op hist))) as Hplots.
  { intros os'. apply (plots_spec op _ show _ (fun v => length v = N)); [by intros; apply coordinate_ok|done|].
    apply points_length. }
  destruct (Z.eqb_spec h e) as [->|Hne]; cbn [negb mbind outcome_bind].
  - exists e, t. rewrite from_end. split; [|done]. rewrite Hplots. cbn [mbind outcome_bind rows].
    change (fields _ _ []) with (@nil (list Z)). unfold row. by rewrite app_nil_r, <- !app_assoc.
  - destruct (next_spec mem None 0 e Htext (s_is_sep 44) (fun c => 44 =? c) ltac:(done) SKIP_EMPTY_FIELD h t Ha
      ltac:(lia)) as (h' & t' & HE & Hat & Hlt & Hfs).
    unfold Splitter_next. cbn [s_sep s_str_tail s_action s_head s_tail]. rewrite HE. cbn [mbind outcome_bind].
    exists h', t'. rewrite Hfs. split; [|done]. rewrite Hplots. cbn [mbind outcome_bind rows].
    rewrite <- (field_take mem None 0 e Htext (fun c => 44 =? c) SKIP_EMPTY_FIELD h t Ha).
    unfold row, field_bytes. cbn [Splitter_field Splitter_length s_head s_tail].
    by rewrite app_nil_r, <- !app_assoc.
Qed.

Lemma describe_rows_ok k : forall j os h t, 0 <= j -> j + Z.of_nat k <= Z.of_nat N -> at_name h t ->
  exists sp, for_from k j (describe_row show s mem) (os, at_ h t) = Ok (os ++ rows j k (left h), sp).
Proof.
  induction k as [|k IH]; intros j os h t Hj Hk Ha; cbn [for_from]; [eexists; cbn; by rewrite app_nil_r|].
  destruct (describe_row_ok j os h t ltac:(lia) Ha) as (h' & t' & -> & Ha' & Hl). cbn [mbind outcome_bind].
  destruct (IH (j + 1) (os ++ rows j 1 (left h)) h' t' ltac:(lia) ltac:(lia) Ha') as (sp & ->).
  exists sp. do 2 f_equal. rewrite Hl. cbn [rows]. by rewrite app_nil_r, <- app_assoc.
Qed.
End Rows.

(** The plot of a series of vectors is one plot for each component: its own
    points, labelled with the name at its position in the list of names
    separated by commas, or with its index once the names are used up. *)
Theorem series_vector_describes {T} `{!Sample T} (show : T -> str) (N : nat) op hist vector_names :
  (forall u v : list T, length u = N -> length v = N -> length (op u v) = N) ->
  Forall (fun v => length v = N) hist ->
  0 ∉ default [] vector_names -> vec_size (default [] vector_names) < 2 ^ 63 ->
  exists s, @append_all _ (Sample_Vector N) op (@SeriesBase_ctor _ (Sample_Vector N)) hist = Ok s /\
    describe_vector show (Z.of_nat N) s vector_names =
    Ok (lit "[" ++ rows show N op hist 0 N (nonempty_fields (fun c => 44 =? c) (default [] vector_names)) ++ lit "]").
Proof.
  intros Hop Hhist Hnul Hsize. set (names := default [] vector_names) in *. set (e := vec_size names).
  assert (text (names ++ [0]) None 0 e) as Htext.
  { subst e. unfold vec_size in *. constructor; unfold vec_size; rewrite ?length_app; cbn [length]; [lia|lia|lia|].
    rewrite Nat2Z.id, lookup_app_r, Nat.sub_diag by lia. split; [done|]. intros i Hi E.
    rewrite lookup_app_l in E by lia. by apply list_elem_of_lookup_2 in E. }
  destruct (@append_all_ok _ (Sample_Vector N) op hist (@SeriesBase_ctor _ (Sample_Vector N)) []) as (s & Hr & Hs);
    [apply (@series_start _ (Sample_Vector N))|]. rewrite app_nil_l in Hs.
  exists s. split; [done|]. unfold describe_vector. fold names. unfold StringSplitter_str, StringSplitter_range.
  destruct (init_spec (names ++ [0]) None 0 e Htext (s_is_sep 44) (fun c => 44 =? c) ltac:(done) SKIP_EMPTY_FIELD)
    as (h & t & -> & Ha & Hf). cbn [mbind outcome_bind]. unfold for_. rewrite Nat2Z.id.
  destruct (describe_rows_ok show N op hist Hop Hhist s Hs (names ++ [0]) e Htext N 0 (lit "[") h t ltac:(lia) ltac:(lia) Ha)
    as (sp & ->). cbn [mbind outcome_bind fst]. rewrite Hf, <- app_assoc.
  assert (from (names ++ [0]) e 0 = names) as ->; [|done]. unfold from. subst e. unfold vec_size.
  rewrite Z.sub_0_r, Nat2Z.id, drop_0. by rewrite take_app_length.
Qed.

(** ** Concrete series *)

(** The sum of the seconds 1 to 60 is 1830: the minute is 30.5, rounded to 31;
    a maximum is not divided. *)
Example series_minute :
  @minutes _ (Sample_integral int64) Z.add (seqZ 1 60) = [31] /\
  @minutes _ (Sample_integral int64) Z.max (seqZ 1 60) = [60] /\
  integral_divide int64 (-1830) 60 = -31.
Proof. by vm_compute. Qed.

(** Two components, one name. *)
Definition pairs_seen : list (list Z) := (fun i => [i; 2 * i]) <$> seqZ 1 61.

Lemma series_vector_describes_witness :
  let add := zip_with Z.add in
  exists s, @append_all _ (@Sample_Vector 2 _ (Sample_integral int64)) add
      (@SeriesBase_ctor _ (@Sample_Vector 2 _ (Sample_integral int64))) pairs_seen = Ok s /\
    describe_vector (numeral 10) 2 s (Some [44; 113; 112; 115; 44]) =
    Ok (lit "[" ++ @rows _ (Sample_integral int64) (numeral 10) 2 add pairs_seen 0 2 [[113; 112; 115]] ++ lit "]").
Proof.
  apply (@series_vector_describes _ (Sample_integral int64) (numeral 10) 2 (zip_with Z.add) pairs_seen
    (Some [44; 113; 112; 115; 44])).
  - intros u v Hu Hv. rewrite length_zip_with. lia.
  - apply Forall_fmap, Forall_true. done.
  - cbn. rewrite !elem_of_cons, elem_of_nil. lia.
  - done.
Defined.
